(* ===== verification/_CoqProject ===== *)
-Q . S2P
Prelude.v
ListElement.v
EraseLoop.v
Registry.v
Policy.v
FifoPolicy.v
LifoPolicy.v
FifoWindowPolicy.v
PolicyInterface.v
OS.v
Driver.v
SharedMemory.v
Mapping.v
MappingInv.v
MappingSpec.v
MappingCopy.v
System.v
SystemInv.v
QuotaSpec.v
GlobalHandler.v
Threads.v
ThreadTokens.v
ThreadOps.v
ThreadOrder.v
ThreadAlone.v
ThreadInv.v
ThreadRace.v
SectionSteps.v
SectionInv.v
JsonExport.v
Lifecycle.v
Sessions.v
Library.v
RwWrapper.v
Regex.v
HumanUnits.v
Uri.v
InterProc.v
Spinlocks.v
QuotaProcesses.v
UriHandler.v
FileDrivers.v
ClovisDriver.v
IocDriver.v
Listings.v
Resources.v
UnixFiles.v
AnyDriver.v
PublicApi.v
RepositoryTests.v
