(* ===== verification/Prelude.v ===== *)
(** * ummap-io-v2: verification of a user-space memory-mapped I/O library

    ummap-io-v2 maps a storage object (file, buffer, object store) in memory from user
    space: it handles segmentation faults itself, reads and writes whole segments through
    a driver, and evicts segments when a policy says that too much memory is used.

    ** Parts of the program and files of the development

    - [ListElement]: the intrusive doubly linked lists (src/src/common/ListElement.cpp) on
      a heap of addresses.
    - [EraseLoop]: the loop that erases list entries while it walks the list, used by
      both registries of mappings.
    - [Registry]: the mapping registry and the policy registry (src/src/core/
      MappingRegistry.cpp, PolicyRegistry.cpp).
    - [Policy]: the base class of policies (src/src/core/Policy.cpp) and the eviction
      loop they share; [FifoPolicy], [LifoPolicy], [FifoWindowPolicy]: the three policies
      (src/src/policies); [PolicyInterface]: their virtual interface, as a class of
      operations [PolicyOps] and a class of promises [TrackingPolicy].
    - [OS]: the address space and the calls of src/src/portability/UnixOS.cpp;
      [UnixFiles]: the number of processors, read from a file.
    - [Driver]: the virtual interface of drivers ([DriverOps]), what a mapping relies on
      ([StorageDriver]), the dummy and the memory driver; [SharedMemory]: memory drivers
      that share a buffer; [FileDrivers]: the drivers on
      file descriptors, on direct mappings and on C callbacks (src/src/drivers).
    - [Mapping]: the methods of class Mapping (src/src/core/Mapping.cpp); [MappingInv]:
      their invariant and the lemmas on one segment; [MappingSpec]: what they promise;
      [MappingCopy]: the copy of a mapping to another driver.
    - [System]: mappings, drivers, policies and quotas in one process: the calls that
      cross objects, [PolicyQuota] and [PolicyQuotaLocal]; [SystemInv]: the invariant of
      the process and the fault handler; [QuotaSpec]: the quota loop.
    - [GlobalHandler]: the entry points (src/src/core/GlobalHandler.cpp); [Lifecycle]:
      construction and destruction of mappings with their policies keep the invariant of
      the process; [Sessions]: whole runs of the library against plain arrays; [Library]:
      the global handler, its initialisation and its end.
    - [Threads]: programs made of critical sections, pools of threads that run them in any
      order, locks, and the two generic results on them (an order of locks excludes
      deadlocks; an invariant kept by every section with obligations per thread holds in
      every state); [ThreadOps]: the methods of the library as such programs;
      [ThreadOrder]: the order of the mutexes; [ThreadAlone]: the programs against the
      sequential definitions; [ThreadInv]: threads against an array of bytes; [ThreadRace]:
      what goes wrong between two sections of a fault.
    - [SectionSteps]: the methods of a mapping without policies as programs whose steps are
      single system calls, calls to the driver and assignments of a status;
      [ThreadTokens]: pools where what a thread owes belongs to the mutexes it holds;
      [SectionInv]: these programs, with accesses of the application between any two
      steps, against an array of bytes.
    - [Spinlocks]: the spinlock of the registries (src/src/portability) and the lock in
      shared memory of the quota between processes.
    - [RwWrapper]: the preloaded wrapper of the reads and writes of the C library
      (src/src/rw-wrapper).
    - [Regex], [HumanUnits], [Uri], [UriHandler], [Listings]: the part of std::regex in
      use, sizes as text (src/src/common/HumanUnits.cpp), resource identifiers, the
      objects built from them, the files that name objects, and, in [Resources], the
      connections to object stores with the drivers that need them (src/src/uri).
    - [InterProc]: the segment of the quota shared between processes (src/src/core/
      PolicyQuotaInterProc.cpp); [QuotaProcesses]: the processes that share it, each with
      its mappings and policies.
    - [JsonExport]: the export of the mappings to a page (src/src/htopml): the calls to the
      writer, the value they write and its type.
    - [ClovisDriver], [IocDriver]: the drivers on object stores; [AnyDriver]: one type for
      the drivers of all classes, and their construction from an identifier.
    - [PublicApi]: the C interface (src/src/public-api/ummap.cpp).
    - [RepositoryTests]: the unit tests of the repository (src/src/*/tests) evaluated on
      these definitions, with the values the tests expect.
    - This file: results of fallible code, 64-bit integers, sums, lists, tactics.

    ** How the code is modelled

    A method is a function from the state of the objects it uses to a [result]: its value
    and the new state, or an error.  [assume] and [UMMAP_FATAL] end the program: they are
    the error [Fatal].  [assert] is the error [AssertFail], so a theorem that says [Ok]
    holds for builds with and without assertions; a theorem that says [Err (Fatal _)] does
    not depend on assertions either.  Undefined behaviour (a null or dangling pointer, an
    index out of range) is [BadAccess].  [size_t] is a [Z] with its wrap-around written at
    every operation the code does on it.

    Loops that are not structural take fuel, and the theorems give the fuel that is
    enough: the length of the list for the eviction loops ([S (length ...)], each round
    removes one element), one round more than the number of segments for [flush], twice
    the length plus two for the erase loop, the length of the text for substitution.
    Where the code can loop for ever a theorem says so for every fuel.

    The sequential files describe one call at a time: locks are not state there, and faults
    are handled one at a time.  The Thread files split each method at its lock operations,
    one step per stretch of code between two of them (one per segment in the loops that
    hold mutexes), and let threads interleave these steps with the loads and stores of the
    application; [ThreadAlone] ties the two descriptions.  [SectionSteps] splits the
    sections of a mapping once more, at each system call, and
    [steps_are_the_sections] ties them to [Mapping]; a call of the system or of the driver
    is one step, and so are the assignments to the fields of one status that follow each
    other (the application reads no status, and other threads read it under the mutex).
    With threads a segment has a weaker invariant ([late_faults] in [ThreadInv], an
    instance of the class [Strictness] of [MappingInv]): the handler of a read can run after another thread wrote the segment.
    A thread tries an access again after each fault, [tries] times at most; a store can be
    refused at each try ([late_read_starves_store]), and C3 speaks of accesses done.  The
    choice of an address by the kernel, of an address by the allocator, the number of
    processors and the liveness of a process are arguments.

    The calls of [OS] that the source tests take what the kernel answers
    ([munmap_returning], [mremapForced_returning]); from there on [munmap] and [mremap]
    succeed on ranges the program has mapped.  A descriptor can be duplicated when the table
    has room ([free_descriptor]).

    Code that is not in src/src (system calls on files, the C library, functions given by
    a C program, the clients of object stores) is an operation of a class, a field of a
    record or an argument; what a theorem needs to know of it is a second class with laws
    ([RegularFiles], [SharedFiles], [MeroObjects], [IocObjects], [LibcFiles]), with a
    concrete instance.  A driver carries the state of the world outside as it saw it last:
    the public functions refresh it before they use the driver, and two drivers on the
    same file in one process are not modelled.

    ** What the theorems show

    - Mappings: a mapping behaves as an array of bytes (C1), flush is durable (C6), what
      was written survives a close and reopen (C8), a copy has the bytes of the storage
      (C25).
    - Process: a fault keeps the invariant of the process and the memory within the limit
      of the policy (C5); the quota loop reaches its limit (C14, unless a policy has more
      victims than the code takes at once), and spins on a window policy (C35).
    - Entry points: whole sessions behave as arrays (C2); what ummap and uunmap do (C10,
      C9), faults go to their mapping (C16), a flush of whole segments writes back (C11),
      a flush of anything else ends the program ([umflush_aborts_unaligned]), copy on
      write moves a mapping to another file unseen (C12), the end of the library removes
      the mappings and the registered policies (C13, without quotas).
    - Threads: in any interleaving the loads and stores of the threads are those of one
      array and memory ends within the limits (C3), also between the system calls of the
      sections of one thread safe mapping (C4); without thread safety a store can be lost
      there ([unsafe_mapping_loses_store]); no deadlock (C7; loops that never end are not
      excluded, C34, C35 and C37 have some); with two policies on one mapping an eviction
      can come between the two notifications of a fault and fail (C36). C3 is for mappings
      with at most one policy and no quota, C4 for one mapping without policies; C7 is for
      all calls and policies.
    - Wrapper: a read into a mapping fills it (C17); a write from one can block the
      program for ever (C34), by a read fault on a segment open for writing, which is
      [late_read_fault_blocks_stores] on one mapping.
    - Policies: which segments are evicted (C18, C22, C23), the invariant of every
      reachable state (C20), the list they use is a deque (C19), a limit below one segment
      never met (C37) and a limit exceeded by the fixed window (C38); limits of a policy
      built from text ([policy_text_gives_limits]).
    - Registries and shared quota: the mapping registry is a map (C24); processes that
      share a quota use no more than its total once they handled their signals (C15; the
      shares alone: [interproc_shares_fit]), and their shares stay too small
      once the slot of a crashed process was used again (C39); the lock between processes excludes, and is lost with a process that
      ends inside (C21).
    - Text: the two parsers of identifiers and of sizes agree ([uri_parsers_agree], C28),
      round trips (C26, [human_size_roundtrip]), substitution (C27), listings of objects
      with names of one word are read back as they were saved (C33), the monitoring page
      has one type (C32).
    - Drivers: descriptors ([fd_driver_owns_its_descriptor]), alignment (C29), the sync of
      C drivers ([cdriver_sync_overwrites_memory]), transfers of the Clovis driver (C30)
      and the bytes it misplaces (C40), copy on write of the IOC driver (C31).

    ** Not modelled

    The debug messages, and mappings on memory drivers that share a buffer.  For threads:
    accesses of the application between the system calls of a section on a mapping with
    policies (C4 has none; a policy makes no system call, and its mutex comes after those
    of the mapping), a system call or a transfer of the driver that is itself not done at
    once (a segment written back is closed for writing, a temporary segment is not
    reachable), mappings made with UMMAP_THREAD_UNSAFE in C3 and C4, the copy on
    write and switch calls (they take no lock of their own), the recursive locking of a
    policy's mutex inside its own sections, the spinlock of the policy registry (its
    sections call nothing that locks, but for the one that deletes all policies at the
    end), and the signals of the quota between processes: in [QuotaProcesses] a process
    handles its signal between two of its operations, where the handler of the code can
    also interrupt a section that holds the mutex of the quota. *)

From Stdlib Require Export ZArith Lia.
From stdpp Require Export base tactics list numbers option strings gmap.

#[global] Open Scope Z_scope.

(** ** Results of fallible code

    [assume]/[assumeArg]/[UMMAP_FATAL] print a message and call [exit]; [assert]
    stops a debug build; a dereference of an address that holds no object, or an
    array access out of range, is undefined behaviour; a loop that does not end
    within the fuel it is given is [OutOfFuel].  Everything else returns. *)
Inductive error : Type :=
  | Fatal (msg : string)
  | AssertFail (msg : string)
  | BadAccess
  | OutOfFuel.

Inductive result (A : Type) : Type :=
  | Ok (a : A)
  | Err (e : error).
Arguments Ok {A} a.
Arguments Err {A} e.

#[export] Instance error_eq_dec : EqDecision error.
Proof. solve_decision. Defined.

#[export] Instance result_ret : MRet result := λ A a, Ok a.
#[export] Instance result_bind : MBind result := λ A B f r,
  match r with Ok a => f a | Err e => Err e end.

#[export] Instance result_fmap : FMap result := λ A B f r,
  match r with Ok a => Ok (f a) | Err e => Err e end.

Definition is_ok {A} (r : result A) : bool :=
  match r with Ok _ => true | Err _ => false end.

(** Two runs agree: both return related values, or both stop with the same error. *)
Definition result_rel {A B} (R : A → B → Prop) (x : result A) (y : result B) : Prop :=
  match x, y with
  | Ok a, Ok b => R a b
  | Err e, Err e' => e = e'
  | _, _ => False
  end.

(** The checks of the source. *)
Definition assume (c : bool) (msg : string) : result unit :=
  if c then Ok tt else Err (Fatal msg).
Definition cassert (c : bool) (msg : string) : result unit :=
  if c then Ok tt else Err (AssertFail msg).

(** Access to an optional location: missing is undefined behaviour. *)
Definition deref {A} (o : option A) : result A :=
  match o with Some a => Ok a | None => Err BadAccess end.

(** A loop over a list whose body can fail. *)
Fixpoint foldM {A S} (f : S → A → result S) (s : S) (l : list A) : result S :=
  match l with
  | [] => Ok s
  | a :: l' => s' ← f s a; foldM f s' l'
  end.

(** ** Machine integers

    [size_t] is a 64-bit unsigned integer: a [Z] kept in [0 .. 2^64) by writing
    the wrap-around of every addition, subtraction and product. *)
Definition SIZE_MOD : Z := 2 ^ 64.
Definition SIZE_MAX : Z := SIZE_MOD - 1.
Definition wrap (x : Z) : Z := x mod SIZE_MOD.
(** Conversion of a 64-bit pattern to [ssize_t] / [int64_t]. *)
Definition to_signed (x : Z) : Z :=
  if wrap x <? 2 ^ 63 then wrap x else wrap x - SIZE_MOD.
(** The conversion of a 64-bit value to [int]. *)
Definition to_int (x : Z) : Z :=
  let n := x mod 2 ^ 32 in if n <? 2 ^ 31 then n else n - 2 ^ 32.
Definition is_size (x : Z) : Prop := 0 ≤ x < SIZE_MOD.

Declare Scope size_scope.
Delimit Scope size_scope with size.
Notation "x ⊕ y" := (wrap (x + y)) (at level 50, left associativity) : size_scope.
Notation "x ⊖ y" := (wrap (x - y)) (at level 50, left associativity) : size_scope.
Notation "x ⊗ y" := (wrap (x * y)) (at level 40, left associativity) : size_scope.
#[global] Open Scope size_scope.

Create HintDb ummap.

(** ** Tactics *)

(** Turn the boolean tests of the code into propositions. *)
Ltac bool_prop :=
  repeat match goal with
  | H : (_ =? _) = true |- _ => apply Z.eqb_eq in H
  | H : (_ =? _) = false |- _ => apply Z.eqb_neq in H
  | H : (_ <? _) = true |- _ => apply Z.ltb_lt in H
  | H : (_ <? _) = false |- _ => apply Z.ltb_ge in H
  | H : (_ <=? _) = true |- _ => apply Z.leb_le in H
  | H : (_ <=? _) = false |- _ => apply Z.leb_gt in H
  | H : andb _ _ = true |- _ => apply andb_true_iff in H; destruct H
  | H : orb _ _ = false |- _ => apply orb_false_iff in H; destruct H
  | H : negb _ = true |- _ => apply negb_true_iff in H
  | H : negb _ = false |- _ => apply negb_false_iff in H
  | H : bool_decide _ = true |- _ => apply bool_decide_eq_true in H
  | H : bool_decide _ = false |- _ => apply bool_decide_eq_false in H
  end.

(** Decompose a successful run of a sequence of fallible steps. *)
Ltac inv_bind H :=
  lazymatch type of H with
  | mbind _ ?m = Ok _ =>
      let E := fresh "Hstep" in
      destruct m eqn:E; cbn [mbind result_bind] in H; [|discriminate H]
  end.

Ltac inv_ok :=
  repeat match goal with
  | H : Ok _ = Ok _ |- _ => injection H as H; subst
  | H : Err _ = Ok _ |- _ => discriminate H
  | H : Ok _ = Err _ |- _ => discriminate H
  end.

(** ** Results *)

Lemma bind_ok {A B} (f : A → result B) (a : A) : (Ok a ≫= f) = f a.
Proof. reflexivity. Qed.

Lemma bind_ok_inv {A B} (m : result A) (f : A → result B) b :
  (m ≫= f) = Ok b → ∃ a, m = Ok a ∧ f a = Ok b.
Proof. destruct m; cbn; [eauto|discriminate]. Qed.

Lemma assume_ok_inv c msg x : assume c msg = Ok x → c = true.
Proof. unfold assume. destruct c; [done|discriminate]. Qed.

Lemma cassert_ok_inv c msg x : cassert c msg = Ok x → c = true.
Proof. unfold cassert. destruct c; [done|discriminate]. Qed.

Lemma deref_ok_inv {A} (o : option A) x : deref o = Ok x → o = Some x.
Proof. destruct o; cbn; congruence. Qed.

Lemma foldM_app {A S} (f : S → A → result S) s l1 l2 :
  foldM f s (l1 ++ l2) = (s' ← foldM f s l1; foldM f s' l2).
Proof.
  revert s. induction l1 as [|a l1 IH]; intros s; cbn; [done|].
  destruct (f s a); cbn; [apply IH|done].
Qed.

(** Invariant rule for [foldM]. *)
Lemma foldM_inv {A S} (P : S → Prop) (f : S → A → result S) s l s' :
  P s → (∀ s a s', a ∈ l → P s → f s a = Ok s' → P s') →
  foldM f s l = Ok s' → P s'.
Proof.
  revert s. induction l as [|a l IH]; intros s Hs Hf; cbn; intros H; [by inv_ok|].
  inv_bind H. eapply (IH a0); [|intros; eapply Hf; eauto; set_solver|exact H].
  eapply Hf; [|exact Hs|exact Hstep]. set_solver.
Qed.

(** ** Machine integers *)

Lemma wrap_small x : is_size x → wrap x = x.
Proof. intros. unfold wrap. apply Z.mod_small. done. Qed.

Lemma wrap_is_size x : is_size (wrap x).
Proof. unfold wrap, is_size. apply Z.mod_pos_bound. reflexivity. Qed.

#[export] Hint Resolve wrap_is_size : ummap.

Lemma size_add a b : 0 ≤ a → 0 ≤ b → a + b < SIZE_MOD → a ⊕ b = a + b.
Proof. intros. apply wrap_small. unfold is_size. lia. Qed.

Lemma size_sub a b : 0 ≤ b ≤ a → a < SIZE_MOD → a ⊖ b = a - b.
Proof. intros. apply wrap_small. unfold is_size. lia. Qed.

Lemma to_int_small x : 0 ≤ x < 2 ^ 31 → to_int x = x.
Proof. intros Hx. unfold to_int. rewrite Z.mod_small by lia. destruct (Z.ltb_spec x (2 ^ 31)); lia. Qed.

(** ** Sums *)

Fixpoint sumZ {A} (f : A → Z) (l : list A) : Z :=
  match l with [] => 0 | a :: l' => f a + sumZ f l' end.

Lemma sumZ_app {A} (f : A → Z) l1 l2 : sumZ f (l1 ++ l2) = sumZ f l1 + sumZ f l2.
Proof. induction l1 as [|a l1 IH]; cbn; [done|]. rewrite IH. lia. Qed.

Lemma sumZ_nonneg {A} (f : A → Z) l : (∀ a, a ∈ l → 0 ≤ f a) → 0 ≤ sumZ f l.
Proof.
  induction l as [|a l IH]; cbn; intros H; [lia|].
  assert (0 ≤ f a) by (apply H; set_solver).
  assert (0 ≤ sumZ f l) by (apply IH; set_solver). lia.
Qed.

#[export] Instance sumZ_perm {A} (f : A → Z) : Proper ((≡ₚ) ==> (=)) (sumZ f).
Proof. intros l1 l2. induction 1; cbn; lia. Qed.

Lemma sumZ_ext {A} (f g : A → Z) l : (∀ a, a ∈ l → f a = g a) → sumZ f l = sumZ g l.
Proof.
  induction l as [|a l IH]; cbn; intros H; [done|].
  rewrite (H a) by set_solver. rewrite IH by set_solver. done.
Qed.

Lemma sumZ_const {A} (c : Z) (l : list A) : sumZ (λ _, c) l = Z.of_nat (length l) * c.
Proof. induction l as [|a l IH]; cbn [sumZ length]; [lia|]. rewrite IH. lia. Qed.

Lemma sumZ_bind {A B} (f : B → Z) (g : A → list B) l :
  sumZ f (l ≫= g) = sumZ (λ a, sumZ f (g a)) l.
Proof. induction l as [|a l IH]; [done|]. cbn. rewrite sumZ_app. f_equal. exact IH. Qed.

Lemma sumZ_submseteq {A} (f : A → Z) l k :
  l ⊆+ k → (∀ a, a ∈ k → 0 ≤ f a) → sumZ f l ≤ sumZ f k.
Proof.
  intros Hsub Hpos. apply submseteq_Permutation in Hsub as [k' Hk].
  rewrite Hk, sumZ_app. assert (0 ≤ sumZ f k'); [|lia].
  apply sumZ_nonneg. intros a Ha. apply Hpos. rewrite Hk. apply elem_of_app. by right.
Qed.

(** ** Lists *)

Lemma elem_ne {A} (l : list A) x y : x ∈ l → y ∉ l → x ≠ y.
Proof. by intros ? ? ->. Qed.

Lemma NoDup_fmap_elem {A B} (f : A → B) l x y :
  NoDup (f <$> l) → x ∈ l → y ∈ l → f x = f y → x = y.
Proof.
  intros Hnd [i Hi]%list_elem_of_lookup [j Hj]%list_elem_of_lookup Hf.
  assert (i = j) as ->; [|congruence].
  eapply NoDup_lookup; [exact Hnd| |]; rewrite list_lookup_fmap; [by rewrite Hi|].
  rewrite Hj. cbn. by rewrite Hf.
Qed.

Lemma filter_all {A} (P : A → Prop) `{∀ x, Decision (P x)} (l : list A) :
  (∀ x, x ∈ l → P x) → filter P l = l.
Proof.
  induction l as [|a l IH]; intros HP; [done|].
  rewrite filter_cons_True by (apply HP; left). f_equal. apply IH. intros. apply HP. by right.
Qed.

Lemma NoDup_fmap_filter {A B} (f : A → B) (P : A → Prop) `{∀ x, Decision (P x)} l :
  NoDup (f <$> l) → NoDup (f <$> filter P l).
Proof.
  induction l as [|a l IH]; [done|]. rewrite fmap_cons, NoDup_cons. intros [Hn Hnd].
  rewrite filter_cons. case_decide; [|auto]. rewrite fmap_cons, NoDup_cons. split; [|auto].
  intros (x & Hx & [_ Hin]%list_elem_of_filter)%list_elem_of_fmap. apply Hn.
  apply list_elem_of_fmap. eauto.
Qed.
