(* ===== verification/ListElement.v ===== *)
(** * The intrusive doubly linked list (src/src/common/ListElement.cpp)

    The policies track segments with [ListElement] objects that live in arrays
    allocated per mapping, plus one root element per list.  The model keeps the
    objects in a heap indexed by their address and follows the pointer writes of
    each method one by one, so that self loops and two-element rings alias as
    they do in the code.  [ring h r l] is the abstraction: the ring that starts
    at the root [r] visits exactly the elements [l] in [next] order. *)

From S2P Require Import Prelude.

Record ListElement := mkElt { prev : Z; next : Z }.

#[export] Instance ListElement_eq_dec : EqDecision ListElement.
Proof. solve_decision. Defined.

Abbreviation heap := (gmap Z ListElement).

(** ** Operations *)

(** [ListElement::ListElement]: a fresh element points to itself. *)
Definition newElement (h : heap) (this : Z) : heap := <[this := mkElt this this]> h.

Definition set_prev (h : heap) (p v : Z) : result heap :=
  n ← deref (h !! p); Ok (<[p := mkElt v (next n)]> h).
Definition set_next (h : heap) (p v : Z) : result heap :=
  n ← deref (h !! p); Ok (<[p := mkElt (prev n) v]> h).

Definition removeFromList (h : heap) (this : Z) : result heap :=
  (* this->next->prev = this->prev; *)
  n ← deref (h !! this);
  h1 ← set_prev h (next n) (prev n);
  (* this->prev->next = this->next; *)
  n1 ← deref (h1 !! this);
  h2 ← set_next h1 (prev n1) (next n1);
  (* this->next = this->prev = this; *)
  h3 ← set_prev h2 this this;
  set_next h3 this this.

Definition isAlone (h : heap) (this : Z) : result bool :=
  n ← deref (h !! this);
  Ok ((next n =? this) && (prev n =? this)).

Definition isInList (h : heap) (this : Z) : result bool :=
  n ← deref (h !! this);
  Ok (negb (next n =? this) && negb (prev n =? this)).

Definition insertAfter (h : heap) (this element : Z) : result heap :=
  alone ← isAlone h element;
  cassert alone "element.isAlone()";;
  (* element.next = this->next; element.prev = this; *)
  n ← deref (h !! this);
  h1 ← set_next h element (next n);
  h2 ← set_prev h1 element this;
  (* this->next->prev = &element; *)
  n2 ← deref (h2 !! this);
  h3 ← set_prev h2 (next n2) element;
  (* this->next = &element; *)
  set_next h3 this element.

Definition insertBefore (h : heap) (this element : Z) : result heap :=
  alone ← isAlone h element;
  cassert alone "element.isAlone()";;
  (* element.prev = this->prev; element.next = this; *)
  n ← deref (h !! this);
  h1 ← set_prev h element (prev n);
  h2 ← set_next h1 element this;
  (* this->prev->next = &element; *)
  n2 ← deref (h2 !! this);
  h3 ← set_next h2 (prev n2) element;
  (* this->prev = &element; *)
  set_prev h3 this element.

(** [NULL] is [None]. *)
Definition popNext (h : heap) (this : Z) : result (option Z * heap) :=
  alone ← isAlone h this;
  if alone : bool then Ok (None, h)
  else
    n ← deref (h !! this);
    h' ← removeFromList h (next n);
    Ok (Some (next n), h').

Definition popPrev (h : heap) (this : Z) : result (option Z * heap) :=
  alone ← isAlone h this;
  if alone : bool then Ok (None, h)
  else
    n ← deref (h !! this);
    h' ← removeFromList h (prev n);
    Ok (Some (prev n), h').

(** ** The ring abstraction *)

Definition linked (h : heap) (x y : Z) : Prop :=
  next <$> h !! x = Some y ∧ prev <$> h !! y = Some x.

Fixpoint links (h : heap) (c : list Z) : Prop :=
  match c with
  | x :: t => match t with y :: _ => linked h x y | [] => True end ∧ links h t
  | [] => True
  end.

Definition ring (h : heap) (r : Z) (l : list Z) : Prop :=
  links h (r :: l ++ [r]) ∧ NoDup (r :: l).

Definition alone (h : heap) (p : Z) : Prop := h !! p = Some (mkElt p p).

(** ** Lemmas on links *)

Lemma links_app h c1 x c2 :
  links h (c1 ++ x :: c2) ↔ links h (c1 ++ [x]) ∧ links h (x :: c2).
Proof.
  induction c1 as [|a c1 IH]; [cbn; tauto|].
  destruct c1 as [|b c1]; cbn in *; tauto.
Qed.

(** [links h c] reads [next] of all but the last node and [prev] of all but the
    first. *)
Lemma links_ext h h' c :
  (∀ x, x ∈ removelast c → next <$> h' !! x = next <$> h !! x) →
  (∀ x, x ∈ tail c → prev <$> h' !! x = prev <$> h !! x) →
  links h c → links h' c.
Proof.
  induction c as [|x t IH]; [done|]. intros Hn Hp [Hl Ht].
  destruct t as [|y t]; [done|]. split.
  - destruct Hl as [H1 H2]. split.
    + rewrite Hn; [done|]. cbn. set_solver.
    + rewrite Hp; [done|]. cbn. set_solver.
  - apply IH; [| |exact Ht].
    + intros z Hz. apply Hn. cbn [removelast] in *. set_solver.
    + intros z Hz. apply Hp. cbn [tail] in *. set_solver.
Qed.

Lemma ring_frame h h' r l :
  (∀ p, p ∈ r :: l → h' !! p = h !! p) → ring h r l → ring h' r l.
Proof.
  intros Hf [Hl Hnd]. split; [|done]. eapply links_ext; [| |exact Hl].
  - intros x Hx. rewrite Hf; [done|].
    change (r :: l ++ [r]) with ((r :: l) ++ [r]) in Hx.
    rewrite removelast_last in Hx. done.
  - intros x Hx. rewrite Hf; [done|]. cbn in Hx. set_solver.
Qed.

Lemma ring_nil h r : ring h r [] ↔ alone h r.
Proof.
  unfold ring, alone; simpl; unfold linked. split.
  - intros [[[H1 H2] _] _]. destruct (h !! r) as [[p n]|]; simpl in *; congruence.
  - intros ->. simpl. repeat split; auto. apply NoDup_singleton.
Qed.

(** The neighbours of an element of a ring. *)
Lemma ring_node h r l1 e l2 :
  ring h r (l1 ++ e :: l2) →
  h !! e = Some (mkElt (default r (last l1)) (default r (head l2))).
Proof.
  intros [Hl _]. rewrite <- app_assoc, <- app_comm_cons in Hl.
  rewrite app_comm_cons in Hl. apply links_app in Hl as [H1 H2].
  assert (linked h (default r (last l1)) e) as [_ Hp].
  { destruct l1 as [|a l1 _] using rev_ind; [cbn in H1; tauto|].
    rewrite last_snoc. cbn.
    rewrite app_comm_cons, <- app_assoc in H1. apply links_app in H1 as [_ [H1 _]].
    exact H1. }
  assert (linked h e (default r (head l2))) as [Hn _].
  { destruct l2 as [|b l2]; cbn in H2; cbn; tauto. }
  destruct (h !! e) as [[p n]|]; cbn in *; congruence.
Qed.

Lemma ring_root h r l :
  ring h r l → h !! r = Some (mkElt (default r (last l)) (default r (head l))).
Proof.
  intros [Hl _].
  assert (next <$> h !! r = Some (default r (head l))) as Hn.
  { destruct l; cbn in Hl; unfold linked in Hl; cbn; tauto. }
  assert (prev <$> h !! r = Some (default r (last l))) as Hp.
  { destruct l as [|a l _] using rev_ind; [cbn in Hl; unfold linked in Hl; tauto|].
    rewrite last_snoc. simpl default. rewrite <- app_assoc, app_comm_cons in Hl.
    apply (links_app h (r :: l) a [r]) in Hl as [_ [[_ H] _]]. exact H. }
  destruct (h !! r) as [[p n]|]; cbn in *; congruence.
Qed.

Lemma ring_elem h r l e :
  ring h r l → e ∈ r :: l → is_Some (h !! e).
Proof.
  intros Hr [->|He]%elem_of_cons.
  - erewrite ring_root by done. eauto.
  - apply list_elem_of_split in He as (l1 & l2 & ->). erewrite ring_node by done. eauto.
Qed.

(** ** Pointer-level effect of the operations *)

(** [upd h h' n p]: [h'] has the [next] fields [n] and the [prev] fields [p]. *)
Definition fields (h' : heap) (n p : Z → option Z) : Prop :=
  ∀ x, next <$> h' !! x = n x ∧ prev <$> h' !! x = p x.

Lemma fields_lookup h' n p x a b :
  fields h' n p → n x = Some a → p x = Some b → h' !! x = Some (mkElt b a).
Proof.
  intros Hf Hn Hp. destruct (Hf x) as [H1 H2].
  destruct (h' !! x) as [[b' a']|]; simpl in *; congruence.
Qed.

Lemma fields_same (h h' : heap) n p x :
  fields h' n p → n x = next <$> h !! x → p x = prev <$> h !! x → h' !! x = h !! x.
Proof.
  intros Hf Hn Hp. destruct (Hf x) as [H1 H2].
  destruct (h' !! x) as [[b' a']|], (h !! x) as [[b a]|]; simpl in *; congruence.
Qed.

Lemma set_prev_ok h p v n :
  h !! p = Some n → set_prev h p v = Ok (<[p := mkElt v (next n)]> h).
Proof. intros H. unfold set_prev. rewrite H. done. Qed.

Lemma set_next_ok h p v n :
  h !! p = Some n → set_next h p v = Ok (<[p := mkElt (prev n) v]> h).
Proof. intros H. unfold set_next. rewrite H. done. Qed.

(** Run the pointer writes of an operation on known nodes. *)
Ltac heap_step :=
  first
    [ erewrite set_prev_ok by (simplify_map_eq; reflexivity)
    | erewrite set_next_ok by (simplify_map_eq; reflexivity)
    | progress simplify_map_eq ];
  cbn [deref mbind result_bind prev next].

Lemma removeFromList_effect h e P S np ns :
  h !! e = Some (mkElt P S) → e ≠ P → e ≠ S →
  h !! P = Some np → h !! S = Some ns →
  ∃ h', removeFromList h e = Ok h' ∧
    fields h'
      (λ x, if decide (x = e) then Some e
            else if decide (x = P) then Some S else next <$> h !! x)
      (λ x, if decide (x = e) then Some e
            else if decide (x = S) then Some P else prev <$> h !! x).
Proof.
  intros He HP HS Hp Hs. unfold removeFromList. rewrite He.
  cbn [deref mbind result_bind prev next].
  destruct (decide (P = S)) as [->|Hne]; repeat heap_step; eexists; (split; [done|]);
    intros x; repeat case_decide; subst; simplify_map_eq; auto.
Qed.

Lemma removeFromList_alone h e :
  alone h e → removeFromList h e = Ok h.
Proof.
  unfold alone. intros He. unfold removeFromList. rewrite He.
  cbn [deref mbind result_bind prev next]. repeat heap_step.
  rewrite !insert_insert_eq. rewrite insert_id; done.
Qed.

Lemma isAlone_alone h e : alone h e → isAlone h e = Ok true.
Proof. unfold alone, isAlone. intros ->. cbn. rewrite Z.eqb_refl. done. Qed.

Lemma insertAfter_effect h r e P N nn :
  h !! r = Some (mkElt P N) → alone h e → e ≠ r → e ≠ N → h !! N = Some nn →
  ∃ h', insertAfter h r e = Ok h' ∧
    fields h'
      (λ x, if decide (x = e) then Some N
            else if decide (x = r) then Some e else next <$> h !! x)
      (λ x, if decide (x = e) then Some r
            else if decide (x = N) then Some e else prev <$> h !! x).
Proof.
  intros Hr He Her HeN HN. unfold insertAfter. rewrite isAlone_alone by done.
  unfold alone in He. cbn [cassert mbind result_bind]. rewrite Hr.
  cbn [deref mbind result_bind prev next].
  destruct (decide (r = N)) as [->|Hne]; repeat heap_step; eexists; (split; [done|]);
    intros x; repeat case_decide; subst; simplify_map_eq; auto.
Qed.

Lemma insertBefore_effect h r e P N np :
  h !! r = Some (mkElt P N) → alone h e → e ≠ r → e ≠ P → h !! P = Some np →
  ∃ h', insertBefore h r e = Ok h' ∧
    fields h'
      (λ x, if decide (x = e) then Some r
            else if decide (x = P) then Some e else next <$> h !! x)
      (λ x, if decide (x = e) then Some P
            else if decide (x = r) then Some e else prev <$> h !! x).
Proof.
  intros Hr He Her HeP HP. unfold insertBefore. rewrite isAlone_alone by done.
  unfold alone in He. cbn [cassert mbind result_bind]. rewrite Hr.
  cbn [deref mbind result_bind prev next].
  destruct (decide (r = P)) as [->|Hne]; repeat heap_step; eexists; (split; [done|]);
    intros x; repeat case_decide; subst; simplify_map_eq; auto.
Qed.

(** ** Refinement: the operations are list operations on the ring *)

(** A ring seen from the cut between two neighbours [P] and [S]: [A] leads from
    the root to [P], [B] from [S] back to the root. *)
Lemma ring_cut r (l1 l2 : list Z) :
  ∃ A B, r :: l1 = A ++ [default r (last l1)] ∧ l2 ++ [r] = default r (head l2) :: B.
Proof.
  destruct l1 as [|a l1 _] using rev_ind; destruct l2 as [|b l2].
  - by exists [], [].
  - by exists [], (l2 ++ [r]).
  - exists (r :: l1), []. by rewrite last_snoc.
  - exists (r :: l1), (l2 ++ [r]). by rewrite last_snoc.
Qed.

Lemma links_join h A P S B :
  links h (A ++ [P]) → linked h P S → links h (S :: B) → links h (A ++ P :: S :: B).
Proof. intros HA HPS HB. apply links_app. split; [done|]. split; done. Qed.

(** Rebuild the links of a ring after [next P], [prev S] and the node [e] were
    rewritten, [P] and [S] being the neighbours at the cut. *)
Lemma ring_relink h h' r l1 l2 e :
  let P := default r (last l1) in
  let S := default r (head l2) in
  ring h r (l1 ++ l2) ∨ ring h r (l1 ++ e :: l2) →
  e ∉ r :: l1 ++ l2 →
  (∀ x, x ≠ e → x ≠ P → next <$> h' !! x = next <$> h !! x) →
  (∀ x, x ≠ e → x ≠ S → prev <$> h' !! x = prev <$> h !! x) →
  ∃ A B, r :: l1 = A ++ [P] ∧ l2 ++ [r] = S :: B ∧
    links h' (A ++ [P]) ∧ links h' (S :: B) ∧ NoDup (r :: l1 ++ l2).
Proof.
  intros P S Hring He Hn Hp.
  destruct (ring_cut r l1 l2) as (A & B & HA & HB). fold P in HA. fold S in HB.
  exists A, B. do 2 (split; [done|]).
  assert (NoDup (r :: l1 ++ l2)) as Hnd.
  { destruct Hring as [[_ H]|[_ H]]; [done|].
    rewrite app_comm_cons in H |- *. apply NoDup_app in H as (H1 & H2 & H3).
    apply NoDup_app. apply NoDup_cons in H3 as [_ H3]. set_solver. }
  assert (links h (A ++ [P]) ∧ links h (S :: B)) as [Hl1 Hl2].
  { destruct Hring as [[H _]|[H _]].
    - rewrite <- app_assoc, HB, app_comm_cons, HA, <- app_assoc in H.
      apply links_app in H as [H1 H2]. split; [done|apply H2].
    - rewrite <- app_assoc, <- app_comm_cons, HB, app_comm_cons, HA, <- app_assoc in H.
      apply links_app in H as [H1 H2]. split; [done|apply H2]. }
  assert (Hnd1 : NoDup (A ++ [P])).
  { rewrite <- HA. rewrite app_comm_cons in Hnd. by apply NoDup_app in Hnd as [? _]. }
  assert (Hnd2 : NoDup (S :: B)).
  { rewrite <- HB. apply NoDup_cons in Hnd as [Hr Hnd].
    apply NoDup_app in Hnd as (_ & _ & Hnd). apply NoDup_app.
    split; [done|]. split; [set_solver|apply NoDup_singleton]. }
  apply not_elem_of_cons in He as [Her [Hel1 Hel2]%not_elem_of_app].
  apply NoDup_app in Hnd1 as (_ & HP1 & _). apply NoDup_cons in Hnd2 as [HS2 _].
  apply NoDup_cons in Hnd as Hnd'. destruct Hnd' as [[Hr1 Hr2]%not_elem_of_app Hnd'].
  apply NoDup_app in Hnd' as (_ & Hdis & _).
  assert (HSl1 : S ∉ l1).
  { assert (S ∈ l2 ++ [r]) as [HS|HS%list_elem_of_singleton]%elem_of_app
      by (rewrite HB; left); [intros H; by apply (Hdis S)|congruence]. }
  assert (HPl2 : P ∉ l2).
  { assert (P ∈ r :: l1) as [->|HP]%elem_of_cons
      by (rewrite HA; apply elem_of_app; right; left); [done|]. by apply Hdis. }
  assert (HeB : e ∉ B).
  { intros H. assert (e ∈ l2 ++ [r]) as [?|?%list_elem_of_singleton]%elem_of_app
      by (rewrite HB; by right); done. }
  assert (HeA : e ∉ A).
  { intros H. assert (e ∈ r :: l1) as [?|?]%elem_of_cons
      by (rewrite HA; apply elem_of_app; by left); done. }
  split; [|split; [|done]]; eapply links_ext; [| |exact Hl1| | |exact Hl2].
  - rewrite removelast_last. intros x Hx. apply Hn; [by eapply elem_ne|].
    intros ->. by apply (HP1 P Hx), list_elem_of_singleton.
  - rewrite <- HA. intros x Hx. apply Hp; by eapply elem_ne.
  - rewrite <- HB, removelast_last. intros x Hx. apply Hn; by eapply elem_ne.
  - intros x Hx. apply Hp; by eapply elem_ne.
Qed.

(** Resolve the address comparisons in the field equations of known nodes. *)
Ltac dec_fields :=
  repeat match goal with
  | H : _ = (if decide (?x = ?x) then _ else _) |- _ => rewrite decide_True in H by done
  | H : _ = (if decide (?x = ?y) then _ else _) |- _ =>
      rewrite decide_False in H by set_solver
  end.

Section RingOps.
Context (h : heap) (r : Z).

Lemma ring_notin l1 e l2 : ring h r (l1 ++ e :: l2) → e ∉ r :: l1 ++ l2.
Proof.
  intros [_ [Hr Hnd]%NoDup_cons]. rewrite <- Permutation_middle in Hr, Hnd.
  apply NoDup_cons in Hnd. set_solver.
Qed.

Lemma ring_remove l1 e l2 :
  ring h r (l1 ++ e :: l2) →
  ∃ h', removeFromList h e = Ok h' ∧ ring h' r (l1 ++ l2) ∧ alone h' e ∧
    ∀ p, p ∉ r :: l1 ++ e :: l2 → h' !! p = h !! p.
Proof.
  intros Hring. pose proof (ring_node _ _ _ _ _ Hring) as Hnode.
  pose proof (ring_notin _ _ _ Hring) as He.
  set (P := default r (last l1)) in *. set (S := default r (head l2)) in *.
  destruct (ring_cut r l1 l2) as (A & B & HA & HB). fold P in HA. fold S in HB.
  assert (HPin : P ∈ r :: l1) by (rewrite HA; apply elem_of_app; right; left).
  assert (HSin : S ∈ l2 ++ [r]) by (rewrite HB; left).
  destruct (ring_elem _ _ _ P Hring) as [np Hnp]; [set_solver|].
  destruct (ring_elem _ _ _ S Hring) as [ns Hns]; [set_solver|].
  destruct (removeFromList_effect h e P S np ns) as (h' & Hrun & Hf); [set_solver..|].
  exists h'. split; [done|]. split.
  - destruct (ring_relink h h' r l1 l2 e) as (A' & B' & HA' & HB' & Hl1 & Hl2 & Hnd).
    + by right.
    + done.
    + intros x Hx Hx'. destruct (Hf x) as [-> _]. by rewrite !decide_False.
    + intros x Hx Hx'. destruct (Hf x) as [_ ->]. by rewrite !decide_False.
    + split; [|done]. rewrite <- app_assoc, HB', app_comm_cons, HA', <- app_assoc.
      apply links_join; [done| |done]. fold P S.
      destruct (Hf P) as [HnP _], (Hf S) as [_ HpS]. dec_fields. done.
  - split; [eapply fields_lookup; [exact Hf|..]; cbn beta; by rewrite decide_True|].
    intros p Hp. eapply fields_same; [exact Hf|..]; cbn beta; rewrite !decide_False; set_solver.
Qed.

Lemma ring_insertAfter l e :
  ring h r l → alone h e → e ∉ r :: l →
  ∃ h', insertAfter h r e = Ok h' ∧ ring h' r (e :: l) ∧
    ∀ p, p ∉ r :: e :: l → h' !! p = h !! p.
Proof.
  intros Hring Hal He. pose proof (ring_root _ _ _ Hring) as Hroot.
  set (N := default r (head l)) in *.
  assert (HN : N ∈ r :: l) by (subst N; destruct l; set_solver).
  destruct (ring_elem _ _ _ N Hring) as [nn Hnn]; [done|].
  destruct (insertAfter_effect h r e _ N nn Hroot) as (h' & Hrun & Hf); [set_solver..|].
  exists h'. split; [done|]. split.
  - destruct (ring_relink h h' r [] l e) as (A' & B' & HA' & HB' & Hl1 & Hl2 & Hnd).
    + by left.
    + done.
    + intros x Hx Hx'. destruct (Hf x) as [-> _]. cbn in Hx'. by rewrite !decide_False.
    + intros x Hx Hx'. destruct (Hf x) as [_ ->]. by rewrite !decide_False.
    + fold N in HB', Hl2. split; [|apply NoDup_cons in Hnd; rewrite !NoDup_cons; set_solver].
      rewrite <- app_comm_cons, HB'. change (links h' ([] ++ r :: e :: N :: B')).
      destruct (Hf r) as [Hnr _], (Hf e) as [Hne Hpe], (Hf N) as [_ HpN].
      dec_fields.
      apply links_join; [done|by split|]. split; [by split|done].
  - intros p Hp. eapply fields_same; [exact Hf|..]; cbn beta; rewrite !decide_False; set_solver.
Qed.

Lemma ring_insertBefore l e :
  ring h r l → alone h e → e ∉ r :: l →
  ∃ h', insertBefore h r e = Ok h' ∧ ring h' r (l ++ [e]) ∧
    ∀ p, p ∉ r :: e :: l → h' !! p = h !! p.
Proof.
  intros Hring Hal He. pose proof (ring_root _ _ _ Hring) as Hroot.
  set (P := default r (last l)) in *.
  assert (HP : P ∈ r :: l).
  { subst P. destruct l as [|a l _] using rev_ind; [set_solver|].
    rewrite last_snoc. set_solver. }
  destruct (ring_elem _ _ _ P Hring) as [np Hnp]; [done|].
  destruct (insertBefore_effect h r e P _ np Hroot) as (h' & Hrun & Hf); [set_solver..|].
  exists h'. split; [done|]. split.
  - destruct (ring_relink h h' r l [] e) as (A' & B' & HA' & HB' & Hl1 & Hl2 & Hnd);
      rewrite ?app_nil_r.
    + by left.
    + done.
    + intros x Hx Hx'. destruct (Hf x) as [-> _]. by rewrite !decide_False.
    + intros x Hx Hx'. destruct (Hf x) as [_ ->]. cbn in Hx'. by rewrite !decide_False.
    + rewrite app_nil_r in Hnd. fold P in HA', Hl1.
      split; [|rewrite app_comm_cons, NoDup_app; split; [done|]; split;
               [set_solver|apply NoDup_singleton]].
      rewrite <- app_assoc, app_comm_cons, HA', <- app_assoc. cbn [app].
      destruct (Hf r) as [_ Hpr], (Hf e) as [Hne Hpe], (Hf P) as [HnP _].
      dec_fields.
      apply links_join; [done|by split|]. split; [by split|done].
  - intros p Hp. eapply fields_same; [exact Hf|..]; cbn beta; rewrite !decide_False; set_solver.
Qed.

Lemma ring_isAlone l : ring h r l → isAlone h r = Ok (bool_decide (l = [])).
Proof.
  intros Hring. unfold isAlone. rewrite (ring_root _ _ _ Hring). cbn.
  destruct l as [|a l]; cbn; [by rewrite Z.eqb_refl|].
  destruct Hring as [_ [Hr _]%NoDup_cons].
  destruct (Z.eqb_spec a r) as [->|]; [set_solver|done].
Qed.

Lemma ring_isAlone_elem l e : ring h r l → e ∈ l → isAlone h e = Ok false ∧ isInList h e = Ok true.
Proof.
  intros Hring He. apply list_elem_of_split in He as (l1 & l2 & ->).
  unfold isAlone, isInList. rewrite (ring_node _ _ _ _ _ Hring). cbn.
  apply ring_notin in Hring.
  assert (default r (head l2) ≠ e) as H1 by (destruct l2; cbn; set_solver).
  assert (default r (last l1) ≠ e) as H2.
  { destruct l1 as [|a l1 _] using rev_ind; [cbn; set_solver|].
    rewrite last_snoc. cbn. set_solver. }
  rewrite <- Z.eqb_neq in H1, H2. by rewrite H1, H2.
Qed.

Lemma ring_popPrev_nil : ring h r [] → popPrev h r = Ok (None, h).
Proof. intros Hring. unfold popPrev. rewrite (ring_isAlone [] Hring). done. Qed.

Lemma ring_popPrev_snoc l e :
  ring h r (l ++ [e]) →
  ∃ h', popPrev h r = Ok (Some e, h') ∧ ring h' r l ∧ alone h' e ∧
    ∀ p, p ∉ r :: l ++ [e] → h' !! p = h !! p.
Proof.
  intros Hring. destruct (ring_remove l e [] Hring) as (h' & Hrun & Hr' & Hal & Hfr).
  rewrite app_nil_r in Hr'. exists h'. split; [|done].
  unfold popPrev. rewrite (ring_isAlone _ Hring), bool_decide_eq_false_2.
  2: by destruct l.
  rewrite (ring_root _ _ _ Hring), last_snoc.
  simpl. rewrite Hrun. done.
Qed.

Lemma ring_popNext_nil : ring h r [] → popNext h r = Ok (None, h).
Proof. intros Hring. unfold popNext. rewrite (ring_isAlone [] Hring). done. Qed.

Lemma ring_popNext_cons l e :
  ring h r (e :: l) →
  ∃ h', popNext h r = Ok (Some e, h') ∧ ring h' r l ∧ alone h' e ∧
    ∀ p, p ∉ r :: e :: l → h' !! p = h !! p.
Proof.
  intros Hring. destruct (ring_remove [] e l Hring) as (h' & Hrun & Hr' & Hal & Hfr).
  exists h'. split; [|done]. unfold popNext. rewrite (ring_isAlone _ Hring).
  rewrite (ring_root _ _ _ Hring). simpl. by rewrite Hrun.
Qed.
End RingOps.

(** ** Pools: a root, a ring, and the elements that are not in it

    [pool h r E l]: among the elements [E] of one list, those in [l] form the ring
    of root [r], in order, and the others are alone.  This is the invariant the
    policies keep between two operations. *)

Definition pool (h : heap) (r : Z) (E : Z → Prop) (l : list Z) : Prop :=
  ring h r l ∧ ¬ E r ∧ (∀ e, e ∈ l → E e) ∧ (∀ e, E e → e ∉ l → alone h e).

(** The ring without [e]. *)
Definition without (e : Z) (l : list Z) : list Z := filter (λ x, x ≠ e) l.

Lemma elem_of_without e x l : x ∈ without e l ↔ x ∈ l ∧ x ≠ e.
Proof. unfold without. rewrite list_elem_of_filter. tauto. Qed.

Lemma without_notin e l : e ∉ l → without e l = l.
Proof. intros H. apply filter_all. intros x Hx ->. done. Qed.

Lemma without_split e l1 l2 : e ∉ l1 ++ l2 → without e (l1 ++ e :: l2) = l1 ++ l2.
Proof.
  intros [H1 H2]%not_elem_of_app. unfold without.
  rewrite filter_app, filter_cons_False by tauto.
  f_equal; by apply without_notin.
Qed.

Lemma without_perm e l : NoDup l → e ∈ l → e :: without e l ≡ₚ l.
Proof.
  intros Hnd He. apply list_elem_of_split in He as (l1 & l2 & ->).
  rewrite <- Permutation_middle in Hnd. apply NoDup_cons in Hnd as [Hn _].
  rewrite without_split by done. apply Permutation_middle.
Qed.

Lemma length_without e l : (length (without e l) ≤ length l)%nat.
Proof. apply length_filter. Qed.

Section PoolOps.
Context (h : heap) (r : Z) (E : Z → Prop).

Lemma pool_NoDup l : pool h r E l → NoDup l.
Proof. intros [[_ [_ H]%NoDup_cons] _]. done. Qed.

Lemma pool_isAlone l e : pool h r E l → E e → isAlone h e = Ok (bool_decide (e ∉ l)).
Proof.
  intros (Hr & Hnr & HlE & Hal) He. destruct (decide (e ∈ l)) as [Hin|Hin].
  - rewrite bool_decide_eq_false_2 by tauto. by apply (ring_isAlone_elem h r l).
  - rewrite bool_decide_eq_true_2 by done. by apply isAlone_alone, Hal.
Qed.

Lemma pool_isInList l e : pool h r E l → E e → isInList h e = Ok (bool_decide (e ∈ l)).
Proof.
  intros (Hr & Hnr & HlE & Hal) He. destruct (decide (e ∈ l)) as [Hin|Hin].
  - rewrite bool_decide_eq_true_2 by tauto. by apply (ring_isAlone_elem h r l).
  - rewrite bool_decide_eq_false_2 by done. unfold isInList.
    rewrite (Hal e He Hin). cbn. by rewrite Z.eqb_refl.
Qed.

Lemma pool_remove l e :
  pool h r E l → E e →
  ∃ h', removeFromList h e = Ok h' ∧ pool h' r E (without e l) ∧
    ∀ p, ¬ E p → p ≠ r → h' !! p = h !! p.
Proof.
  intros (Hr & Hnr & HlE & Hal) He. destruct (decide (e ∈ l)) as [Hin|Hin].
  - apply list_elem_of_split in Hin as (l1 & l2 & ->).
    pose proof (ring_notin _ _ _ _ _ Hr) as Hnotin.
    destruct (ring_remove _ _ _ _ _ Hr) as (h' & Hrun & Hr' & Hal' & Hfr).
    exists h'. rewrite without_split by set_solver. split; [done|]. split; [|].
    + split; [done|]. split; [done|]. split; [set_solver|].
      intros x Hx Hxl. destruct (decide (x = e)) as [->|Hne]; [done|].
      unfold alone. rewrite Hfr; [apply Hal; set_solver|]. set_solver.
    + intros p Hp Hpr. apply Hfr. set_solver.
  - exists h. rewrite without_notin by done. rewrite removeFromList_alone by auto. done.
Qed.

Lemma pool_insertAfter l e :
  pool h r E l → E e → e ∉ l →
  ∃ h', insertAfter h r e = Ok h' ∧ pool h' r E (e :: l) ∧
    ∀ p, ¬ E p → p ≠ r → h' !! p = h !! p.
Proof.
  intros (Hr & Hnr & HlE & Hal) He Hin.
  destruct (ring_insertAfter h r l e) as (h' & Hrun & Hr' & Hfr); [done|auto|set_solver|].
  exists h'. split; [done|]. split; [|intros p Hp Hpr; apply Hfr; set_solver].
  split; [done|]. split; [done|]. split; [set_solver|].
  intros x Hx Hxl. unfold alone. rewrite Hfr; [apply Hal; set_solver|]. set_solver.
Qed.

Lemma pool_insertBefore l e :
  pool h r E l → E e → e ∉ l →
  ∃ h', insertBefore h r e = Ok h' ∧ pool h' r E (l ++ [e]) ∧
    ∀ p, ¬ E p → p ≠ r → h' !! p = h !! p.
Proof.
  intros (Hr & Hnr & HlE & Hal) He Hin.
  destruct (ring_insertBefore h r l e) as (h' & Hrun & Hr' & Hfr); [done|auto|set_solver|].
  exists h'. split; [done|]. split; [|intros p Hp Hpr; apply Hfr; set_solver].
  split; [done|]. split; [done|]. split; [set_solver|].
  intros x Hx Hxl. unfold alone. rewrite Hfr; [apply Hal; set_solver|]. set_solver.
Qed.

Lemma pool_popPrev_nil : pool h r E [] → popPrev h r = Ok (None, h).
Proof. intros [Hr _]. by apply ring_popPrev_nil. Qed.

Lemma pool_popPrev_snoc l e :
  pool h r E (l ++ [e]) →
  ∃ h', popPrev h r = Ok (Some e, h') ∧ pool h' r E l ∧
    ∀ p, ¬ E p → p ≠ r → h' !! p = h !! p.
Proof.
  intros (Hr & Hnr & HlE & Hal).
  destruct (ring_popPrev_snoc h r l e Hr) as (h' & Hrun & Hr' & Hale & Hfr).
  exists h'. split; [done|]. split; [|intros p Hp Hpr; apply Hfr; set_solver].
  split; [done|]. split; [done|]. split; [set_solver|].
  intros x Hx Hxl. destruct (decide (x = e)) as [->|Hne]; [done|].
  unfold alone. rewrite Hfr; [apply Hal; set_solver|]. set_solver.
Qed.

Lemma pool_popNext_nil : pool h r E [] → popNext h r = Ok (None, h).
Proof. intros [Hr _]. by apply ring_popNext_nil. Qed.

Lemma pool_popNext_cons l e :
  pool h r E (e :: l) →
  ∃ h', popNext h r = Ok (Some e, h') ∧ pool h' r E l ∧
    ∀ p, ¬ E p → p ≠ r → h' !! p = h !! p.
Proof.
  intros (Hr & Hnr & HlE & Hal).
  destruct (ring_popNext_cons h r l e Hr) as (h' & Hrun & Hr' & Hale & Hfr).
  exists h'. split; [done|]. split; [|intros p Hp Hpr; apply Hfr; set_solver].
  split; [done|]. split; [done|]. split; [set_solver|].
  intros x Hx Hxl. destruct (decide (x = e)) as [->|Hne]; [done|].
  unfold alone. rewrite Hfr; [apply Hal; set_solver|]. set_solver.
Qed.
End PoolOps.

(** Heap changes outside the pool do not matter. *)
Lemma pool_frame h h' r E l :
  pool h r E l → (∀ p, E p ∨ p = r → h' !! p = h !! p) → pool h' r E l.
Proof.
  intros (Hr & Hnr & HlE & Hal) Hf. split.
  - eapply ring_frame; [|done]. intros p [->|Hp]%elem_of_cons; auto.
  - split; [done|]. split; [done|]. intros e He Hel. unfold alone. rewrite Hf by auto.
    by apply Hal.
Qed.

(** ** Deciding the invariant on a concrete heap *)

#[export] Instance linked_dec h x y : Decision (linked h x y).
Proof. unfold linked. apply _. Defined.

#[export] Instance links_dec h c : Decision (links h c).
Proof.
  induction c as [|x t IH]; [left; exact I|]. cbn [links].
  destruct t as [|y t]; apply and_dec; first [apply _|exact IH].
Defined.

#[export] Instance ring_dec h r l : Decision (ring h r l).
Proof. unfold ring. apply _. Defined.

#[export] Instance alone_dec h p : Decision (alone h p).
Proof. unfold alone. apply _. Defined.

Lemma pool_intro h r (E l : list Z) :
  ring h r l → r ∉ E → Forall (λ e, e ∈ E) l → Forall (λ e, e ∈ l ∨ alone h e) E →
  pool h r (λ e, e ∈ E) l.
Proof.
  rewrite !Forall_forall. intros Hr Hn Hl Hal. do 3 (split; [done|]).
  intros e He Hel. by destruct (Hal e He).
Qed.

(** ** The list as a double-ended queue

    The specification of the public mutators seen from the root: the elements
    in [next] order, the newest first when they are inserted after the root. *)
Inductive list_op :=
  | OpInsertAfter (e : Z)
  | OpInsertBefore (e : Z)
  | OpRemove (e : Z)
  | OpPopNext
  | OpPopPrev.

Definition op_element (op : list_op) : option Z :=
  match op with
  | OpInsertAfter e | OpInsertBefore e | OpRemove e => Some e
  | OpPopNext | OpPopPrev => None
  end.

Definition run_op (r : Z) (s : list (option Z) * heap) (op : list_op)
    : result (list (option Z) * heap) :=
  let '(out, h) := s in
  match op with
  | OpInsertAfter e => h' ← insertAfter h r e; Ok (out, h')
  | OpInsertBefore e => h' ← insertBefore h r e; Ok (out, h')
  | OpRemove e => h' ← removeFromList h e; Ok (out, h')
  | OpPopNext => '(x, h') ← popNext h r; Ok (out ++ [x], h')
  | OpPopPrev => '(x, h') ← popPrev h r; Ok (out ++ [x], h')
  end.

Definition spec_op (s : list (option Z) * list Z) (op : list_op)
    : result (list (option Z) * list Z) :=
  let '(out, l) := s in
  match op with
  | OpInsertAfter e =>
      cassert (bool_decide (e ∉ l)) "element.isAlone()";; Ok (out, e :: l)
  | OpInsertBefore e =>
      cassert (bool_decide (e ∉ l)) "element.isAlone()";; Ok (out, l ++ [e])
  | OpRemove e => Ok (out, without e l)
  | OpPopNext => Ok (out ++ [head l], tail l)
  | OpPopPrev => Ok (out ++ [last l], removelast l)
  end.

Definition deque_rel (r : Z) (E : Z → Prop)
    (c : list (option Z) * heap) (a : list (option Z) * list Z) : Prop :=
  fst c = fst a ∧ pool (snd c) r E (snd a).

Lemma insert_in_list r E h l e :
  pool h r E l → E e → e ∈ l →
  insertAfter h r e = Err (AssertFail "element.isAlone()") ∧
  insertBefore h r e = Err (AssertFail "element.isAlone()").
Proof.
  intros Hp He Hin. unfold insertAfter, insertBefore.
  rewrite (pool_isAlone _ _ _ _ _ Hp He), bool_decide_eq_false_2 by tauto. done.
Qed.

Lemma run_op_refines r E c a op :
  deque_rel r E c a → (∀ e, op_element op = Some e → E e) →
  result_rel (deque_rel r E) (run_op r c op) (spec_op a op).
Proof.
  destruct c as [out h], a as [out' l]. intros [Hout Hp] HE.
  cbn [fst snd] in *. subst out'.
  destruct op as [e|e|e| |]; cbn [run_op spec_op op_element] in *.
  - destruct (decide (e ∈ l)) as [Hin|Hin].
    + destruct (insert_in_list r E h l e) as [-> _]; auto.
      rewrite bool_decide_eq_false_2 by tauto. done.
    + destruct (pool_insertAfter h r E l e) as (h' & -> & Hp' & _); auto.
      rewrite bool_decide_eq_true_2 by done. by split.
  - destruct (decide (e ∈ l)) as [Hin|Hin].
    + destruct (insert_in_list r E h l e) as [_ ->]; auto.
      rewrite bool_decide_eq_false_2 by tauto. done.
    + destruct (pool_insertBefore h r E l e) as (h' & -> & Hp' & _); auto.
      rewrite bool_decide_eq_true_2 by done. by split.
  - destruct (pool_remove h r E l e) as (h' & -> & Hp' & _); auto. by split.
  - destruct l as [|x l].
    + rewrite (pool_popNext_nil _ _ _ Hp). by split.
    + destruct (pool_popNext_cons _ _ _ _ _ Hp) as (h' & -> & Hp' & _). by split.
  - destruct l as [|x l _] using rev_ind.
    + rewrite (pool_popPrev_nil _ _ _ Hp). by split.
    + destruct (pool_popPrev_snoc _ _ _ _ _ Hp) as (h' & -> & Hp' & _).
      rewrite last_snoc, removelast_last. by split.
Qed.

(** C19: on every sequence of list operations, on elements of the list's arrays, the
    pointer code pops the same elements as a double-ended queue, stops on the same
    operation with the same assertion when an element is inserted twice, and leaves
    a well formed ring that holds the queue's content. *)
Theorem ListElement_refines_deque (r : Z) (E : Z → Prop) (ops : list list_op)
    (h : heap) (l : list Z) :
  pool h r E l →
  (∀ op e, op ∈ ops → op_element op = Some e → E e) →
  result_rel (deque_rel r E)
    (foldM (run_op r) ([], h) ops) (foldM spec_op ([], l) ops).
Proof.
  intros Hp HE. generalize (conj eq_refl Hp : deque_rel r E ([], h) ([], l)).
  generalize (@nil (option Z), h) (@nil (option Z), l). clear Hp h l.
  induction ops as [|op ops IH]; intros c a Hrel; [done|]. cbn [foldM].
  assert (result_rel (deque_rel r E) (run_op r c op) (spec_op a op)) as Hstep.
  { apply run_op_refines; [done|]. intros e. apply HE. left. }
  destruct (run_op r c op) as [c'|], (spec_op a op) as [a'|];
    cbn [result_rel mbind result_bind] in *; [|done..].
  apply IH; [|done]. intros op' e Hop. apply HE. by right.
Qed.

(** Three elements: the root and two alone elements, as the constructor leaves them. *)
Definition demo_heap : heap := newElement (newElement (newElement ∅ 1) 16) 32.

Lemma demo_pool : pool demo_heap 1 (λ e, e = 16 ∨ e = 32) [].
Proof.
  split; [apply ring_nil; reflexivity|]. split; [lia|]. split; [set_solver|].
  intros e [->| ->] _; reflexivity.
Qed.

Lemma ListElement_refines_deque_witness :
  let ops := [OpInsertAfter 16; OpInsertAfter 32; OpPopPrev] in
  fst <$> foldM spec_op ([], []) ops = Ok [Some 16] ∧
  result_rel (deque_rel 1 (λ e, e = 16 ∨ e = 32))
    (foldM (run_op 1) ([], demo_heap) ops) (foldM spec_op ([], []) ops).
Proof.
  split; [reflexivity|].
  apply (ListElement_refines_deque 1 _ _ demo_heap []); [exact demo_pool|].
  intros op e Hop Hel. repeat (apply elem_of_cons in Hop as [->|Hop]; [cbn in Hel; simplify_eq; lia|]).
  by apply elem_of_nil in Hop.
Defined.
