(* ===== verification/EraseLoop.v ===== *)
(** * The erase-while-iterating loop on [std::list]

    [Policy::unregisterMapping] and [MappingRegistry::unregisterMapping] share
    this loop:
<<
    for (auto it = l.begin() ; it != l.end() ; ++it)
        if (match(it)) { auto tmp = it; ++it; l.erase(tmp); }
>>
    After an erase the loop increments [it] a second time.  When the erased entry
    was the last one, [it] is [end()] and incrementing it is outside what the C++
    standard defines; libstdc++ keeps the list as a ring closed by a sentinel, so
    [++end()] is [begin()].  The model has that behaviour. *)

From S2P Require Import Prelude.

Section EraseLoop.
Context {A : Type} (matches : A → bool).

(** [++it] on an iterator at position [i] of a list of length [n]. *)
Definition it_next (n i : nat) : nat := if Nat.eqb i n then 0%nat else S i.

Fixpoint eraseLoop (fuel : nat) (l : list A) (it : nat) : result (list A) :=
  match fuel with
  | O => Err OutOfFuel
  | S fuel' =>
      match l !! it with
      | None => Ok l
      | Some x =>
          if matches x then
            let l' := delete it l in
            eraseLoop fuel' l' (it_next (length l') it)
          else eraseLoop fuel' l (it_next (length l) it)
      end
  end.

(** The loop runs at most once over the list before an erase and once after. *)
Definition erase_fuel (l : list A) : nat := 2 * length l + 2.

Definition eraseMatching (l : list A) : result (list A) := eraseLoop (erase_fuel l) l 0.

Lemma eraseLoop_none l it fuel :
  (∀ x, x ∈ l → matches x = false) → (it ≤ length l)%nat →
  (length l - it < fuel)%nat → eraseLoop fuel l it = Ok l.
Proof.
  revert it. induction fuel as [|fuel IH]; intros it Hno Hit Hf; [lia|].
  cbn [eraseLoop]. destruct (l !! it) as [x|] eqn:Hx; [|done].
  apply lookup_lt_Some in Hx as Hlt.
  rewrite Hno by (by apply list_elem_of_lookup_2 in Hx).
  unfold it_next. destruct (Nat.eqb_spec it (length l)); [lia|].
  apply IH; [done|lia|lia].
Qed.

Lemma eraseLoop_unique l1 x l2 it fuel :
  matches x = true → (∀ y, y ∈ l1 ++ l2 → matches y = false) →
  (it ≤ length l1)%nat → (2 * length (l1 ++ x :: l2) + 1 - it < fuel)%nat →
  eraseLoop fuel (l1 ++ x :: l2) it = Ok (l1 ++ l2).
Proof.
  intros Hx Hno. revert it. induction fuel as [|fuel IH]; intros it Hit Hf; [lia|].
  cbn [eraseLoop]. rewrite length_app in Hf. cbn [length] in Hf.
  destruct (decide (it = length l1)) as [->|Hne].
  - rewrite list_lookup_middle by done. rewrite Hx, delete_middle.
    unfold it_next. rewrite length_app.
    destruct (Nat.eqb_spec (length l1) (length l1 + length l2)); apply eraseLoop_none;
      rewrite ?length_app; first [done|lia].
  - destruct (lookup_lt_is_Some_2 l1 it ltac:(lia)) as [y Hy].
    rewrite lookup_app_l, Hy by lia.
    rewrite Hno by (apply elem_of_app; left; by apply list_elem_of_lookup_2 in Hy).
    unfold it_next. rewrite length_app. cbn [length].
    destruct (Nat.eqb_spec it (length l1 + S (length l2))); [lia|].
    apply IH; rewrite ?length_app; cbn [length]; lia.
Qed.

(** When at most one entry matches, the loop ends and removes exactly it. *)
Lemma eraseMatching_spec l :
  (∀ l1 x l2, l = l1 ++ x :: l2 → matches x = true →
     ∀ y, y ∈ l1 ++ l2 → matches y = false) →
  eraseMatching l = Ok (filter (λ x, matches x = false) l).
Proof.
  intros Huniq. unfold eraseMatching.
  destruct (decide (Exists (λ x, matches x = true) l)) as [Hex|Hex].
  - apply Exists_exists in Hex as (x & Hin & Hx).
    apply list_elem_of_split in Hin as (l1 & l2 & ->).
    pose proof (Huniq l1 x l2 eq_refl Hx) as Hno.
    rewrite eraseLoop_unique; [|done|done|lia|unfold erase_fuel; rewrite length_app; cbn; lia].
    rewrite filter_app, filter_cons_False by congruence.
    rewrite <- filter_app, filter_all; done.
  - assert (Hno : ∀ x, x ∈ l → matches x = false).
    { intros x Hin. destruct (matches x) eqn:Hm; [|done].
      destruct Hex. apply Exists_exists. eauto. }
    rewrite filter_all by done. apply eraseLoop_none; [done|lia|unfold erase_fuel; lia].
Qed.
End EraseLoop.

(** The usual case: entries carry a key and the keys are pairwise different. *)
Lemma eraseMatching_key {A} (key : A → Z) (k : Z) (l : list A) :
  NoDup (key <$> l) →
  eraseMatching (λ x, key x =? k) l = Ok (filter (λ x, key x ≠ k) l).
Proof.
  intros Hnd. rewrite eraseMatching_spec.
  - f_equal. apply list_filter_iff. intros x. rewrite Z.eqb_neq. done.
  - intros l1 x l2 -> Hx y Hy. apply Z.eqb_eq in Hx. apply Z.eqb_neq. intros Hk.
    rewrite <- Permutation_middle in Hnd. cbn in Hnd. apply NoDup_cons in Hnd as [Hn _].
    apply Hn. apply list_elem_of_fmap. exists y. split; [congruence|done].
Qed.
