(* ===== verification/Registry.v ===== *)
(** * The registries (src/src/core/MappingRegistry.cpp, src/src/core/PolicyRegistry.cpp) *)

From S2P Require Import Prelude EraseLoop.

(** ** Mappings *)

Record MappingRegistryEntry := mkEntry { re_mapping : Z; re_base : Z; re_end : Z }.

Abbreviation MappingRegistry := (list MappingRegistryEntry).

Definition contain (r : MappingRegistry) (mapping : Z) : bool :=
  existsb (λ it, re_mapping it =? mapping) r.

(** [base] and [size] are the answers of [getAddress] and [getSize]. *)
Definition registerMapping (r : MappingRegistry) (mapping base size : Z) : result MappingRegistry :=
  cassert (negb (mapping =? 0)) "mapping != NULL";;
  cassert (negb (contain r mapping)) "!contain(mapping)";;
  Ok (r ++ [mkEntry mapping base (base + size)]).

Definition unregisterMapping (r : MappingRegistry) (mapping : Z) : result MappingRegistry :=
  cassert (negb (mapping =? 0)) "mapping != NULL";;
  eraseMatching (λ it, re_mapping it =? mapping) r.

(** 0 is the [NULL] of an unknown address. *)
Definition getMapping (r : MappingRegistry) (addr : Z) : result Z :=
  cassert (negb (addr =? 0)) "addr != NULL";;
  Ok (match find (λ it, (re_base it <=? addr) && (addr <? re_end it)) r with
      | Some it => re_mapping it
      | None => 0
      end).

Definition isEmpty (r : MappingRegistry) : bool := bool_decide (length r = 0%nat).

(** The registered ranges are disjoint and each mapping is registered once. *)
Record registry_inv (r : MappingRegistry) : Prop := {
  rg_null : ∀ e, e ∈ r → re_mapping e ≠ 0 ∧ 0 < re_base e;
  rg_keys : NoDup (re_mapping <$> r);
  rg_disjoint : ∀ e e' a, e ∈ r → e' ∈ r → re_base e ≤ a < re_end e → re_base e' ≤ a < re_end e' → e = e';
}.

Lemma getMapping_found r e a :
  registry_inv r → e ∈ r → re_base e ≤ a < re_end e → getMapping r a = Ok (re_mapping e).
Proof.
  intros Hr He Ha. unfold getMapping. destruct (rg_null _ Hr e He) as [_ Hb].
  destruct (Z.eqb_spec a 0); [lia|]. cbn [negb cassert mbind result_bind].
  destruct (find _ r) as [e'|] eqn:Hf.
  - apply find_some in Hf as [Hin%list_elem_of_In Hb']. bool_prop. f_equal. f_equal.
    symmetry. apply (rg_disjoint _ Hr e e' a); [done|done|done|lia].
  - apply list_elem_of_In in He. pose proof (find_none _ _ Hf _ He) as Hn. cbn in Hn.
    apply andb_false_iff in Hn as [Hn|Hn]; bool_prop; lia.
Qed.

Lemma getMapping_inv r a mid :
  getMapping r a = Ok mid → mid ≠ 0 → ∃ e, e ∈ r ∧ re_mapping e = mid ∧ re_base e ≤ a < re_end e.
Proof.
  unfold getMapping. intros Hrun Hmid. inv_bind Hrun. destruct (find _ r) as [e|] eqn:Hf; inv_ok; [|done].
  apply find_some in Hf as [Hin%list_elem_of_In Hb]. bool_prop. exists e. split; [done|]. split; [done|lia].
Qed.

Lemma getMapping_unknown r a :
  a ≠ 0 → (∀ e, e ∈ r → ¬ (re_base e ≤ a < re_end e)) → getMapping r a = Ok 0.
Proof.
  intros Ha Hno. unfold getMapping. destruct (Z.eqb_spec a 0); [done|]. cbn.
  destruct (find _ r) as [e|] eqn:Hf; [|done].
  apply find_some in Hf as [Hin%list_elem_of_In Hb]. bool_prop. destruct (Hno e Hin). lia.
Qed.

Lemma unregister_ok r mid :
  registry_inv r → mid ≠ 0 → unregisterMapping r mid = Ok (filter (λ e, re_mapping e ≠ mid) r).
Proof.
  intros Hr Hmid. unfold unregisterMapping. destruct (Z.eqb_spec mid 0); [done|].
  cbn [negb cassert mbind result_bind]. apply eraseMatching_key, Hr.
Qed.

Lemma register_ok r mid base size :
  mid ≠ 0 → (∀ e, e ∈ r → re_mapping e ≠ mid) →
  registerMapping r mid base size = Ok (r ++ [mkEntry mid base (base + size)]).
Proof.
  intros Hmid Hno. unfold registerMapping. destruct (Z.eqb_spec mid 0); [done|].
  cbn [negb cassert mbind result_bind]. destruct (contain r mid) eqn:E; [|done].
  apply existsb_exists in E as (e & Hin%list_elem_of_In & He%Z.eqb_eq). by destruct (Hno e Hin).
Qed.

Lemma getMapping_register r e a :
  ¬ (re_base e ≤ a < re_end e) → getMapping (r ++ [e]) a = getMapping r a.
Proof.
  intros Hout. unfold getMapping.
  assert (find (λ it, (re_base it <=? a) && (a <? re_end it)) (r ++ [e]) =
    find (λ it, (re_base it <=? a) && (a <? re_end it)) r) as ->; [|done].
  induction r as [|e' r IH]; cbn [app find]; [|by rewrite IH].
  destruct (Z.leb_spec (re_base e) a), (Z.ltb_spec a (re_end e)); try done. lia.
Qed.

(** A new entry with a range of its own. *)
Lemma registry_inv_register r e :
  registry_inv r → re_mapping e ≠ 0 → 0 < re_base e →
  (∀ e', e' ∈ r → re_mapping e' ≠ re_mapping e) →
  (∀ e' a, e' ∈ r → re_base e' ≤ a < re_end e' → ¬ (re_base e ≤ a < re_end e)) →
  registry_inv (r ++ [e]).
Proof.
  intros Hr Hmid Hbase Hno Hdis. split.
  - intros e' [He | ->%list_elem_of_singleton]%elem_of_app; [by apply (rg_null _ Hr)|done].
  - rewrite fmap_app. apply NoDup_app. split; [apply Hr|]. split; [|apply NoDup_singleton].
    intros x (e' & -> & He)%list_elem_of_fmap Hx%list_elem_of_singleton. by apply (Hno e').
  - intros e1 e2 a [H1 | ->%list_elem_of_singleton]%elem_of_app
      [H2 | ->%list_elem_of_singleton]%elem_of_app Ha1 Ha2; [by apply (rg_disjoint _ Hr _ _ a)| | |done].
    + by destruct (Hdis e1 a).
    + by destruct (Hdis e2 a).
Qed.

Lemma registry_inv_unregister r mid :
  registry_inv r → registry_inv (filter (λ e, re_mapping e ≠ mid) r).
Proof.
  intros Hr. split.
  - intros e [_ He]%list_elem_of_filter. by apply (rg_null _ Hr).
  - apply NoDup_fmap_filter, Hr.
  - intros e e' a [_ He]%list_elem_of_filter [_ He']%list_elem_of_filter. by apply (rg_disjoint _ Hr).
Qed.

(** ** The mapping registry as a map *)

Inductive registry_op : Type :=
  | Register (mapping base size : Z)
  | Unregister (mapping : Z).

Definition run_registry_op (r : MappingRegistry) (op : registry_op) : result MappingRegistry :=
  match op with
  | Register mapping base size => registerMapping r mapping base size
  | Unregister mapping => unregisterMapping r mapping
  end.

(** The specification: live mappings with their range. *)
Definition map_op (s : gmap Z (Z * Z)) (op : registry_op) : gmap Z (Z * Z) :=
  match op with
  | Register mapping base size => <[mapping := (base, base + size)]> s
  | Unregister mapping => delete mapping s
  end.

(** New mappings have a new address and a range that no live mapping uses. *)
Definition legal_registry_op (s : gmap Z (Z * Z)) (op : registry_op) : Prop :=
  match op with
  | Register mapping base size =>
      mapping ≠ 0 ∧ 0 < base ∧ s !! mapping = None ∧
      ∀ mid b e a, s !! mid = Some (b, e) → b ≤ a < e → ¬ (base ≤ a < base + size)
  | Unregister mapping => mapping ≠ 0
  end.

Fixpoint legal_registry_ops (s : gmap Z (Z * Z)) (ops : list registry_op) : Prop :=
  match ops with
  | [] => True
  | op :: ops' => legal_registry_op s op ∧ legal_registry_ops (map_op s op) ops'
  end.

Definition registry_rel (r : MappingRegistry) (s : gmap Z (Z * Z)) : Prop :=
  registry_inv r ∧ ∀ mid b e, s !! mid = Some (b, e) ↔ mkEntry mid b e ∈ r.

Lemma run_registry_op_ok r s op :
  registry_rel r s → legal_registry_op s op →
  ∃ r', run_registry_op r op = Ok r' ∧ registry_rel r' (map_op s op).
Proof.
  intros [Hr Hs] Hop. destruct op as [mid base size|mid]; cbn in *.
  - destruct Hop as (Hmid & Hbase & Hnone & Hdis).
    assert (Hno : ∀ e, e ∈ r → re_mapping e ≠ mid).
    { intros [m b e] He <-. cbn in Hnone. apply Hs in He. congruence. }
    eexists. split; [by apply register_ok|]. split.
    + apply registry_inv_register; [done..|]. intros [m b e] a He. cbn. by apply Hdis with m, Hs.
    + intros m b e. rewrite lookup_insert_Some, elem_of_app, list_elem_of_singleton, Hs.
      split; [intros [[<- [= <- <-]]|[_ ?]]; auto|]. intros [He|[= -> -> ->]]; [|by left].
      right. split; [|done]. intros ->. by apply (Hno _ He).
  - exists (filter (λ e, re_mapping e ≠ mid) r). split; [by apply unregister_ok|].
    split; [by apply registry_inv_unregister|].
    { intros m b e. rewrite lookup_delete_Some, list_elem_of_filter, Hs. cbn. naive_solver. }
Qed.

(** C24: the mapping registry is a map from mappings to address ranges.  Every
    sequence of registrations of disjoint ranges and of removals succeeds (the removal
    loop, which advances past the end of the list, included), and afterwards a look-up
    by address returns a mapping exactly when the address lies in the range of that
    live mapping. *)
Theorem registry_refines_map ops :
  legal_registry_ops ∅ ops →
  ∃ r, foldM run_registry_op [] ops = Ok r ∧
    ∀ a mid, a ≠ 0 → mid ≠ 0 →
      getMapping r a = Ok mid ↔ ∃ b e, foldl map_op ∅ ops !! mid = Some (b, e) ∧ b ≤ a < e.
Proof.
  intros Hops.
  assert (Hgen : ∀ ops r s, registry_rel r s → legal_registry_ops s ops →
    ∃ r', foldM run_registry_op r ops = Ok r' ∧ registry_rel r' (foldl map_op s ops)).
  { clear. induction ops as [|op ops IH]; intros r s Hr; [by eauto|]. cbn. intros [Hop Hops].
    destruct (run_registry_op_ok r s op Hr Hop) as (r1 & -> & Hr1). by apply IH. }
  destruct (Hgen ops [] ∅) as (r & Hrun & [Hr Hs]); [|done|].
  { split; [split; [by intros ? ?%elem_of_nil|apply NoDup_nil_2|by intros ? ? ? ?%elem_of_nil]|].
    intros mid b e. rewrite lookup_empty. split; [done|by intros ?%elem_of_nil]. }
  exists r. split; [done|]. intros a mid Ha Hmid. split.
  - intros Hget. destruct (getMapping_inv r a mid Hget Hmid) as ([m b e] & He & <- & Hb).
    exists b, e. split; [by apply Hs|done].
  - intros (b & e & He & Hb). apply Hs in He. by apply (getMapping_found r (mkEntry mid b e)).
Qed.

Lemma registry_refines_map_witness :
  ∃ r, foldM run_registry_op [] [Register 7 4096 6000; Register 8 16384 100; Unregister 7] = Ok r ∧
    getMapping r 16400 = Ok 8.
Proof.
  destruct (registry_refines_map [Register 7 4096 6000; Register 8 16384 100; Unregister 7])
    as (r & Hrun & Hget).
  - cbn. repeat split; try done.
    intros mid b e a. rewrite lookup_insert_Some, lookup_empty. intros [[_ [= <- <-]]|[_ ?]]; [lia|done].
  - exists r. split; [exact Hrun|]. apply Hget; [done|done|]. exists 16384, 16484.
    split; [reflexivity|lia].
Defined.

(** ** Policies *)

Abbreviation PolicyRegistry := (gmap string Z).

Definition registerPolicy (r : PolicyRegistry) (name : string) (policy : Z) : result PolicyRegistry :=
  cassert (negb (bool_decide (name = ""))) "name.empty() == false";;
  assume (bool_decide (r !! name = None)) "A policy group already exist with this name";;
  Ok (<[name := policy]> r).

(** The policy that is deleted, 0 if there is none with that name, and the registry. *)
Definition unregisterPolicy (r : PolicyRegistry) (name : string) : result (Z * PolicyRegistry) :=
  cassert (negb (bool_decide (name = ""))) "name.empty() == false";;
  match r !! name with
  | Some policy => Ok (policy, delete name r)
  | None => Ok (0, r)
  end.

Definition get (r : PolicyRegistry) (name : string) (nullNotFound : bool) : result Z :=
  cassert (negb (bool_decide (name = ""))) "name.empty() == false";;
  match r !! name with
  | Some policy => Ok policy
  | None =>
      if nullNotFound then Ok 0
      else Err (Fatal "Failed to find policy in global registry with name")
  end.

(** The policies [deleteAll] deletes, and the empty registry. *)
Definition deleteAll (r : PolicyRegistry) : list Z * PolicyRegistry :=
  ((map_to_list r).*2, ∅).
