(* ===== verification/Policy.v ===== *)
(** * The policy base class (src/src/core/Policy.cpp) and the eviction loop

    A policy keeps, for each mapping it tracks, the array of [ListElement]s of its
    segments ([PolicyStorage]).  Mappings are known to a policy by their address
    (0 is [NULL]) and by their segment size, the one thing it asks them for; the
    section variable [getSegmentSize] is that call.

    The loop that evicts segments until the memory fits is the same text in the
    three policies (in [notifyTouch] and in [shrinkMemory]); it is modelled once,
    by [evictLoop]. *)

From S2P Require Import Prelude ListElement EraseLoop.

(** [sizeof(ListElement)] on a 64-bit target: two pointers. *)
Definition sizeof_ListElement : Z := 16.

Record PolicyStorage := mkStorage {
  ps_mapping : Z;
  elements : Z;
  elementCount : Z;
  elementSize : Z;
  extraInfos : Z;
}.

#[export] Instance PolicyStorage_eq_dec : EqDecision PolicyStorage.
Proof. solve_decision. Defined.

Record Policy := mkPolicy {
  local : bool;
  staticMaxMemory : Z;
  dynamicMaxMemory : Z;
  storageRegistry : list PolicyStorage;
  mutexPtr : Z;
  localMutex : Z;
  uri : string;
  policyQuota : Z;
}.

(** ** Construction and setters *)

(** [this] is the address of the new object; its own mutex is a member of it. *)
Definition newPolicy (this staticMaxMemory : Z) (local : bool) : Policy :=
  mkPolicy local staticMaxMemory staticMaxMemory [] this this "" 0.

Definition set_storageRegistry (p : Policy) (r : list PolicyStorage) : Policy :=
  mkPolicy (local p) (staticMaxMemory p) (dynamicMaxMemory p) r
    (mutexPtr p) (localMutex p) (uri p) (policyQuota p).

Definition forceUsingGroupMutex (p : Policy) (mutex : Z) : Policy :=
  mkPolicy (local p) (staticMaxMemory p) (dynamicMaxMemory p) (storageRegistry p)
    mutex (localMutex p) (uri p) (policyQuota p).

Definition getLocalMutex (p : Policy) : Z := localMutex p.

Definition setUri (p : Policy) (u : string) : Policy :=
  mkPolicy (local p) (staticMaxMemory p) (dynamicMaxMemory p) (storageRegistry p)
    (mutexPtr p) (localMutex p) u (policyQuota p).

Definition getUri (p : Policy) : string := uri p.

Definition setQuota (p : Policy) (quota : Z) : result Policy :=
  assume ((quota =? 0) || (policyQuota p =? 0)) "Invalid quota state update cannot change !";;
  Ok (mkPolicy (local p) (staticMaxMemory p) (dynamicMaxMemory p) (storageRegistry p)
        (mutexPtr p) (localMutex p) (uri p) quota).

Definition setDynamicMaxMemory (p : Policy) (m : Z) : Policy :=
  mkPolicy (local p) (staticMaxMemory p) m (storageRegistry p)
    (mutexPtr p) (localMutex p) (uri p) (policyQuota p).

Definition getStaticMaxMemory (p : Policy) : Z := staticMaxMemory p.

(** ** The storage registry *)

Definition contains (storage : PolicyStorage) (entry : Z) : bool :=
  (elements storage <=? entry) &&
  (entry <? elements storage + elementCount storage * elementSize storage).

(** [elements[i]]. *)
Definition element (storage : PolicyStorage) (i : Z) : Z :=
  elements storage + sizeof_ListElement * i.

(** The entry overload of [getStorageInfo]. *)
Definition getStorageInfo_entry (p : Policy) (entry : Z) : result PolicyStorage :=
  let res := find (λ it, contains it entry) (storageRegistry p) in
  match res with
  | Some st =>
      assume (negb (ps_mapping st =? 0)) "Fail to found policy storage entry !";; Ok st
  | None => Err (Fatal "Fail to found policy storage entry !")
  end.

(** The mapping overload. *)
Definition getStorageInfo (p : Policy) (mapping : Z) : result PolicyStorage :=
  if local p then
    assume (Nat.eqb (length (storageRegistry p)) 1)
      "Invalid local list with multiple mapping registered !";;
    res ← deref (head (storageRegistry p));
    cassert (ps_mapping res =? mapping) "res.mapping == mapping";;
    Ok res
  else
    match find (λ it, ps_mapping it =? mapping) (storageRegistry p) with
    | Some st =>
        assume (negb (ps_mapping st =? 0)) "Fail to found policy of given mapping !";; Ok st
    | None => Err (Fatal "Fail to found policy of given mapping !")
    end.

Definition unregisterMapping (p : Policy) (mapping : Z) : result Policy :=
  r ← eraseMatching (λ it, ps_mapping it =? mapping) (storageRegistry p);
  Ok (set_storageRegistry p r).

(** What [notifyTouch] and [shrinkMemory] hand over from their critical section to
    the code that follows it: the segments to evict, in order, and for the quota
    whether this is a first access and the memory before it. *)
Record Touched := mkTouched {
  t_evicted : list (Z * Z);
  t_isFirstAccess : bool;
  t_memOrig : Z;
}.

(** The end of [notifyTouch]: does the policy ask its quota to redistribute? *)
Definition notifiesQuota (p : Policy) (t : Touched) (currentMemory : Z) : bool :=
  let memDelta := to_signed (currentMemory - t_memOrig t) in
  t_isFirstAccess t && negb (policyQuota p =? 0) && (0 <? memDelta).

(** [new ListElement[count]] at address [elts]: every element is constructed alone. *)
Definition newElements (h : heap) (elts count : Z) : heap :=
  foldr (λ i h, newElement h (elts + sizeof_ListElement * i)) h (seqZ 0 count).

(** [delete [] elements]: the destructors run in reverse order, each removes its
    element from its list, then the memory is released. *)
Definition deleteElements (h : heap) (elts count : Z) : result heap :=
  h' ← foldM (λ h i, removeFromList h (elts + sizeof_ListElement * i)) h (reverse (seqZ 0 count));
  Ok (foldr (λ i h, delete (elts + sizeof_ListElement * i) h) h' (seqZ 0 count)).

(** The error of a critical section that collects 128 segments or more. *)
Abbreviation tooMany :=
  (Fatal "Reach maximum pages to evict due to optimization, cannot continue !").

Section WithMappings.
Context (getSegmentSize : Z → Z).

Definition checkHasEnoughMem (p : Policy) : bool :=
  let sum := fold_left (λ sum it, sum ⊕ getSegmentSize (ps_mapping it)) (storageRegistry p) 0 in
  sum <=? dynamicMaxMemory p.

Definition registerMapping (p : Policy) (mapping storage elementCount elementSize extraInfos : Z)
    : result Policy :=
  let entry := mkStorage mapping storage elementCount elementSize extraInfos in
  assume (getSegmentSize mapping <=? staticMaxMemory p)
    "Trying to register a mapping using segment size larger than the policy maximal size";;
  let p' := set_storageRegistry p (storageRegistry p ++ [entry]) in
  assume (checkHasEnoughMem p') "You registry too many mappings to the same policy";;
  Ok p'.

(** The loop of [freeElementStorage] over the elements of a mapping. *)
Definition releaseElements (h : heap) (mem : Z) (mapping : Z) (storage : PolicyStorage)
    (ids : list Z) : result (heap * Z) :=
  foldM (λ '(h, mem) i,
    let cur := element storage i in
    inList ← isInList h cur;
    let mem' := if inList : bool then mem ⊖ getSegmentSize mapping else mem in
    h' ← removeFromList h cur;
    Ok (h', mem')) (h, mem) ids.

(** ** The eviction loop

    [while (current > max) { toEvict = root.popPrev(); if (toEvict != NULL) ... }].
    [out] is the pair of arrays [mappings]/[idsToEvict] with their counter. *)
Definition maxIdsToEvict : Z := 128.

Fixpoint evictLoop (fuel : nat) (p : Policy) (root max : Z)
    (h : heap) (current : Z) (out : list (Z * Z)) : result (heap * Z * list (Z * Z)) :=
  match fuel with
  | O => Err OutOfFuel
  | S fuel' =>
      if max <? current then
        '(toEvict, h') ← popPrev h root;
        match toEvict with
        | Some e =>
            evictInfos ← getStorageInfo_entry p e;
            let id := (e - elements evictInfos) / sizeof_ListElement in
            let out' := out ++ [(ps_mapping evictInfos, id)] in
            assume (Z.of_nat (length out') <? maxIdsToEvict)
              "Reach maximum pages to evict due to optimization, cannot continue !";;
            evictLoop fuel' p root max h'
              (current ⊖ getSegmentSize (ps_mapping evictInfos)) out'
        | None => evictLoop fuel' p root max h' current out
        end
      else Ok (h, current, out)
  end.

(** ** Well formed registries *)

Definition storage_elems (st : PolicyStorage) : list Z :=
  element st <$> seqZ 0 (elementCount st).

(** All the list elements of a policy. *)
Definition all_elems (p : Policy) : list Z :=
  storageRegistry p ≫= storage_elems.

Record wf_storage (st : PolicyStorage) : Prop := {
  wfs_mapping : ps_mapping st ≠ 0;
  wfs_count : 0 ≤ elementCount st;
  wfs_size : elementSize st = sizeof_ListElement;
  wfs_segment : 0 < getSegmentSize (ps_mapping st);
}.

(** The arrays are pairwise disjoint memory, one mapping has one array, and the
    tracked segments fit in the address space. *)
Record wf_registry (p : Policy) : Prop := {
  wfr_storage : ∀ st, st ∈ storageRegistry p → wf_storage st;
  wfr_keys : NoDup (ps_mapping <$> storageRegistry p);
  wfr_disjoint : ∀ st st' e, st ∈ storageRegistry p → st' ∈ storageRegistry p →
    contains st e = true → contains st' e = true → st = st';
  wfr_capacity :
    sumZ (λ st, elementCount st * getSegmentSize (ps_mapping st)) (storageRegistry p) < SIZE_MOD;
}.

(** The size of the segment an element stands for. *)
Definition elt_size (p : Policy) (e : Z) : Z :=
  match find (λ it, contains it e) (storageRegistry p) with
  | Some st => getSegmentSize (ps_mapping st)
  | None => 0
  end.

(** The segment an element stands for: its mapping and its index. *)
Definition elt_segment (p : Policy) (e : Z) : Z * Z :=
  match find (λ it, contains it e) (storageRegistry p) with
  | Some st => (ps_mapping st, (e - elements st) / sizeof_ListElement)
  | None => (0, 0)
  end.

(** Memory held by the segments of a list. *)
Definition mem_of (p : Policy) (l : list Z) : Z := sumZ (elt_size p) l.

(** ** Specification of the eviction loop

    [drop_oldest max extra rl]: [rl] holds the tracked elements in the order
    [popPrev] returns them, [extra] the memory that is counted but not listed.
    Elements are dropped from the front until the memory fits in [max]. *)
Fixpoint drop_oldest (sz : Z → Z) (max extra : Z) (rl : list Z) : list Z * list Z :=
  match rl with
  | [] => ([], [])
  | a :: rl' =>
      if extra + sumZ sz rl <=? max then (rl, [])
      else let '(kept, victims) := drop_oldest sz max extra rl' in (kept, a :: victims)
  end.

Definition kept_of sz max extra l : list Z := reverse (fst (drop_oldest sz max extra (reverse l))).
Definition victims_of sz max extra l : list Z := snd (drop_oldest sz max extra (reverse l)).

(** ** Lemmas: registry *)

Lemma elem_of_storage_elems st e :
  e ∈ storage_elems st ↔ ∃ i, 0 ≤ i < elementCount st ∧ e = element st i.
Proof.
  unfold storage_elems. rewrite list_elem_of_fmap. split.
  - intros (i & -> & Hi%elem_of_seqZ). exists i. split; [lia|done].
  - intros (i & Hi & ->). exists i. split; [done|]. apply elem_of_seqZ. lia.
Qed.

Lemma elem_of_all_elems p e :
  e ∈ all_elems p ↔ ∃ st, st ∈ storageRegistry p ∧ e ∈ storage_elems st.
Proof. unfold all_elems. rewrite list_elem_of_bind. naive_solver. Qed.

Lemma element_in p st i :
  st ∈ storageRegistry p → 0 ≤ i < elementCount st → element st i ∈ all_elems p.
Proof.
  intros Hst Hi. rewrite elem_of_all_elems. exists st. split; [done|].
  apply elem_of_storage_elems. eauto.
Qed.

Lemma element_contains st i :
  wf_storage st → 0 ≤ i < elementCount st → contains st (element st i) = true.
Proof.
  intros [_ _ Hs _] Hi. unfold contains, element. rewrite Hs. unfold sizeof_ListElement.
  apply andb_true_intro. split; [apply Z.leb_le|apply Z.ltb_lt]; lia.
Qed.

Section Registry.
Context (p : Policy) (Hwf : wf_registry p).

Lemma find_storage st i :
  st ∈ storageRegistry p → 0 ≤ i < elementCount st →
  find (λ it, contains it (element st i)) (storageRegistry p) = Some st.
Proof.
  intros Hst Hi. pose proof (element_contains st i (wfr_storage _ Hwf _ Hst) Hi) as Hc.
  destruct (find _ _) as [st'|] eqn:Hf.
  - apply find_some in Hf as [Hin Hc']. apply list_elem_of_In in Hin.
    f_equal. by eapply (wfr_disjoint _ Hwf).
  - apply list_elem_of_In in Hst. by rewrite (find_none _ _ Hf _ Hst) in Hc.
Qed.

Lemma elt_size_element st i :
  st ∈ storageRegistry p → 0 ≤ i < elementCount st →
  elt_size p (element st i) = getSegmentSize (ps_mapping st).
Proof. intros Hst Hi. unfold elt_size. by rewrite find_storage. Qed.

Lemma elt_segment_element st i :
  st ∈ storageRegistry p → 0 ≤ i < elementCount st →
  elt_segment p (element st i) = (ps_mapping st, i).
Proof.
  intros Hst Hi. unfold elt_segment. rewrite find_storage by done. f_equal.
  unfold element, sizeof_ListElement.
  replace (elements st + 16 * i - elements st) with (i * 16) by lia.
  apply Z.div_mul. done.
Qed.

Lemma elt_size_pos e : e ∈ all_elems p → 0 < elt_size p e.
Proof.
  intros (st & Hst & (i & Hi & ->)%elem_of_storage_elems)%elem_of_all_elems.
  rewrite elt_size_element by done. apply (wfr_storage _ Hwf _ Hst).
Qed.

Lemma getStorageInfo_entry_ok e :
  e ∈ all_elems p →
  ∃ st, getStorageInfo_entry p e = Ok st ∧
    (ps_mapping st, (e - elements st) / sizeof_ListElement) = elt_segment p e ∧
    getSegmentSize (ps_mapping st) = elt_size p e.
Proof.
  intros (st & Hst & (i & Hi & ->)%elem_of_storage_elems)%elem_of_all_elems.
  exists st. unfold getStorageInfo_entry, elt_segment, elt_size.
  rewrite find_storage by done. split; [|done].
  destruct (Z.eqb_spec (ps_mapping st) 0) as [H0|]; [|done].
  by destruct (wfs_mapping _ (wfr_storage _ Hwf _ Hst)).
Qed.

Lemma mem_of_nonneg l : (∀ e, e ∈ l → e ∈ all_elems p) → 0 ≤ mem_of p l.
Proof. intros H. apply sumZ_nonneg. intros e He. pose proof (elt_size_pos e (H e He)). lia. Qed.

Lemma mem_of_storage st :
  st ∈ storageRegistry p →
  mem_of p (storage_elems st) = elementCount st * getSegmentSize (ps_mapping st).
Proof.
  intros Hst. unfold mem_of.
  rewrite (sumZ_ext _ (λ _, getSegmentSize (ps_mapping st))).
  - rewrite sumZ_const. unfold storage_elems. rewrite length_fmap, length_seqZ.
    pose proof (wfs_count _ (wfr_storage _ Hwf _ Hst)). rewrite Z2Nat.id by done. done.
  - intros e (i & Hi & ->)%elem_of_storage_elems. by apply elt_size_element.
Qed.

Lemma mem_of_all_elems :
  mem_of p (all_elems p) =
  sumZ (λ st, elementCount st * getSegmentSize (ps_mapping st)) (storageRegistry p).
Proof.
  unfold all_elems, mem_of. rewrite sumZ_bind. apply sumZ_ext. intros st Hst.
  by apply mem_of_storage.
Qed.

(** The memory of distinct elements fits in a [size_t]. *)
Lemma mem_of_bound l :
  NoDup l → (∀ e, e ∈ l → e ∈ all_elems p) → mem_of p l < SIZE_MOD.
Proof.
  intros Hnd Hin. eapply Z.le_lt_trans; [|apply (wfr_capacity _ Hwf)].
  rewrite <- mem_of_all_elems. apply sumZ_submseteq.
  - by apply NoDup_submseteq.
  - intros e He. pose proof (elt_size_pos e He). lia.
Qed.
End Registry.

Lemma getStorageInfo_inv p mapping st :
  getStorageInfo p mapping = Ok st → st ∈ storageRegistry p ∧ ps_mapping st = mapping.
Proof.
  unfold getStorageInfo. destruct (local p).
  - destruct (Nat.eqb _ _); [|discriminate]. cbn [assume mbind result_bind].
    destruct (storageRegistry p) as [|st' l]; [discriminate|].
    cbn [head deref mbind result_bind]. unfold cassert.
    destruct (Z.eqb_spec (ps_mapping st') mapping); [|discriminate].
    intros H. cbn in H. inv_ok. split; [left|done].
  - destruct (find _ _) as [st'|] eqn:Hf; [|discriminate].
    apply find_some in Hf as [Hin Hk%Z.eqb_eq]. apply list_elem_of_In in Hin.
    unfold assume. destruct (negb _); [|discriminate]. intros H. cbn in H. inv_ok. done.
Qed.

(** A tracked mapping is found: alone for a local policy, by address otherwise. *)
Lemma getStorageInfo_ok p st :
  wf_registry p → st ∈ storageRegistry p →
  (local p = true → storageRegistry p = [st]) →
  getStorageInfo p (ps_mapping st) = Ok st.
Proof.
  intros Hwf Hst Hloc. unfold getStorageInfo. destruct (local p).
  - rewrite Hloc by done. cbn. by rewrite Z.eqb_refl.
  - destruct (find _ _) as [st'|] eqn:Hf.
    + apply find_some in Hf as [Hin Hk%Z.eqb_eq]. apply list_elem_of_In in Hin.
      assert (st' = st) as ->.
      { eapply (NoDup_fmap_elem ps_mapping); [apply (wfr_keys _ Hwf)|done..]. }
      destruct (Z.eqb_spec (ps_mapping st) 0) as [H0|]; [|done].
      by destruct (wfs_mapping _ (wfr_storage _ Hwf _ Hst)).
    + apply list_elem_of_In in Hst. pose proof (find_none _ _ Hf _ Hst) as Hn. cbn in Hn.
      by rewrite Z.eqb_refl in Hn.
Qed.

(** ** Lemmas: the eviction loop *)

Lemma drop_oldest_app sz max extra rl :
  snd (drop_oldest sz max extra rl) ++ fst (drop_oldest sz max extra rl) = rl.
Proof.
  induction rl as [|a rl IH]; [done|]. cbn [drop_oldest].
  destruct (_ <=? _); [done|]. destruct (drop_oldest sz max extra rl) as [k v].
  cbn in *. by f_equal.
Qed.

Lemma drop_oldest_fits sz max extra rl :
  extra ≤ max → extra + sumZ sz (fst (drop_oldest sz max extra rl)) ≤ max.
Proof.
  intros Hex. induction rl as [|a rl IH]; [cbn; lia|]. cbn [drop_oldest].
  destruct (Z.leb_spec (extra + sumZ sz (a :: rl)) max); [done|].
  destruct (drop_oldest sz max extra rl) as [k v]. done.
Qed.

(** No victim is evicted that could have stayed. *)
Lemma drop_oldest_minimal sz max extra rl v1 x v2 :
  snd (drop_oldest sz max extra rl) = v1 ++ x :: v2 →
  max < extra + sumZ sz (x :: v2 ++ fst (drop_oldest sz max extra rl)).
Proof.
  revert v1. induction rl as [|a rl IH]; intros v1; [by destruct v1|]. cbn [drop_oldest].
  destruct (Z.leb_spec (extra + sumZ sz (a :: rl)) max) as [|Hgt]; [by destruct v1|].
  pose proof (drop_oldest_app sz max extra rl) as Happ.
  destruct (drop_oldest sz max extra rl) as [k v]. cbn [fst snd] in *. intros Hv.
  destruct v1 as [|b v1]; cbn in Hv; simplify_eq; [done|]. by eapply IH.
Qed.

Section Loop.
Context (p : Policy) (Hwf : wf_registry p) (root max extra : Z) (Hex : 0 ≤ extra ≤ max).
Context (E : Z → Prop) (HE : ∀ e, E e → e ∈ all_elems p).
Abbreviation sz := (elt_size p).

(** One turn of the loop. *)
Lemma evictLoop_step fuel h l e out current :
  pool h root E (l ++ [e]) → max < current → is_size current →
  sz e ≤ current →
  ∃ h', pool h' root E l ∧ (∀ x, ¬ E x → x ≠ root → h' !! x = h !! x) ∧
    evictLoop (S fuel) p root max h current out =
    if Z.of_nat (length out) + 1 <? maxIdsToEvict
    then evictLoop fuel p root max h' (current - sz e) (out ++ [elt_segment p e])
    else Err tooMany.
Proof.
  clear Hex. intros Hp Hgt Hsz Hle. assert (He : e ∈ all_elems p).
  { destruct Hp as (_ & _ & HlE & _). apply HE, HlE. set_solver. }
  destruct (pool_popPrev_snoc _ _ _ _ _ Hp) as (h' & Hpop & Hp' & Hfr).
  exists h'. split; [done|]. split; [done|]. cbn [evictLoop].
  apply Z.ltb_lt in Hgt. rewrite Hgt, Hpop. cbn [mbind result_bind].
  destruct (getStorageInfo_entry_ok p Hwf e He) as (st & -> & Hseg & Hss).
  cbn [mbind result_bind]. rewrite length_app. cbn [length].
  rewrite Nat2Z.inj_add. change (Z.of_nat 1) with 1. unfold assume.
  destruct (_ <? maxIdsToEvict); [|done]. cbn [mbind result_bind].
  rewrite Hseg, Hss, size_sub; [done| |apply Hsz].
  pose proof (elt_size_pos p Hwf e He). lia.
Qed.

Lemma evictLoop_spec rl fuel h out :
  pool h root E (reverse rl) → extra + sumZ sz rl < SIZE_MOD → (length rl < fuel)%nat →
  let '(ks, vs) := drop_oldest sz max extra rl in
  if decide (vs = [] ∨ Z.of_nat (length out + length vs) < maxIdsToEvict)
  then ∃ h', evictLoop fuel p root max h (extra + sumZ sz rl) out =
               Ok (h', extra + sumZ sz ks, out ++ (elt_segment p <$> vs)) ∧
             pool h' root E (reverse ks) ∧
             ∀ x, ¬ E x → x ≠ root → h' !! x = h !! x
  else evictLoop fuel p root max h (extra + sumZ sz rl) out = Err tooMany.
Proof.
  revert fuel h out. induction rl as [|a rl IH]; intros fuel h out Hp Hsz Hf;
    (destruct fuel as [|fuel]; [cbn in Hf; lia|]).
  - cbn [drop_oldest]. rewrite decide_True by auto. exists h.
    cbn [evictLoop sumZ]. destruct (Z.ltb_spec max (extra + 0)); [lia|].
    rewrite app_nil_r. done.
  - cbn [drop_oldest]. destruct (Z.leb_spec (extra + sumZ sz (a :: rl)) max) as [Hle|Hgt].
    + rewrite decide_True by auto. exists h. cbn [evictLoop].
      apply Z.ltb_ge in Hle. rewrite Hle, app_nil_r. done.
    + rewrite reverse_cons in Hp.
      assert (Hin : ∀ e, e ∈ rl → e ∈ all_elems p).
      { destruct Hp as (_ & _ & HlE & _). intros e He. apply HE, HlE.
        apply elem_of_app. left. by apply elem_of_reverse. }
      pose proof (mem_of_nonneg p Hwf rl Hin) as Hnn. unfold mem_of in Hnn.
      cbn [sumZ] in *.
      destruct (evictLoop_step fuel h (reverse rl) a out (extra + (sz a + sumZ sz rl)))
        as (h' & Hp' & Hfr & ->); [done|done|unfold is_size; lia|lia|].
      replace (extra + (sz a + sumZ sz rl) - sz a) with (extra + sumZ sz rl) by lia.
      assert (0 < sz a).
      { apply elt_size_pos; [done|]. destruct Hp as (_ & _ & HlE & _). apply HE, HlE.
        apply elem_of_app. right. left. }
      cbn in Hf.
      specialize (IH fuel h' (out ++ [elt_segment p a]) Hp' ltac:(lia) ltac:(lia)).
      destruct (drop_oldest sz max extra rl) as [ks vs]. rewrite length_app in IH.
      cbn [length fmap list_fmap] in *. rewrite <- app_assoc in IH. cbn [app] in IH.
      destruct (Z.ltb_spec (Z.of_nat (length out) + 1) maxIdsToEvict).
      * case_decide as H1; case_decide as H2; try done.
        -- destruct IH as (h'' & -> & Hp'' & Hfr'). exists h''. split; [done|].
           split; [done|]. intros x Hx Hxr. rewrite Hfr', Hfr; done.
        -- exfalso. destruct H1 as [->|H1]; [cbn in H2|]; apply H2; right; lia.
        -- exfalso. destruct H2 as [?|H2]; [done|]. apply H1. right. lia.
      * rewrite decide_False; [done|]. intros [?|?]; [done|lia].
Qed.

(** The loop as the policies call it. *)
Lemma evictLoop_list l fuel h current :
  pool h root E l → current = extra + mem_of p l → current < SIZE_MOD →
  (length l < fuel)%nat →
  let ks := kept_of sz max extra l in
  let vs := victims_of sz max extra l in
  if decide (Z.of_nat (length vs) < maxIdsToEvict)
  then ∃ h', evictLoop fuel p root max h current [] =
               Ok (h', extra + mem_of p ks, elt_segment p <$> vs) ∧
             pool h' root E ks ∧ ∀ x, ¬ E x → x ≠ root → h' !! x = h !! x
  else evictLoop fuel p root max h current [] = Err tooMany.
Proof.
  intros Hp -> Hlt Hf ks vs. subst ks vs. unfold kept_of, victims_of, mem_of in *.
  pose proof (evictLoop_spec (reverse l) fuel h []) as Hspec.
  rewrite reverse_involutive, length_reverse in Hspec.
  assert (Hrev : sumZ sz (reverse l) = sumZ sz l) by (by rewrite reverse_Permutation).
  rewrite Hrev in Hspec. specialize (Hspec Hp Hlt Hf).
  destruct (drop_oldest sz max extra (reverse l)) as [ks vs]. cbn [fst snd length plus] in *.
  assert (Hk : sumZ sz (reverse ks) = sumZ sz ks) by (by rewrite reverse_Permutation).
  rewrite Hk. destruct (decide (Z.of_nat (length vs) < maxIdsToEvict)) as [H1|H1].
  - rewrite decide_True in Hspec by (by right). done.
  - rewrite decide_False in Hspec; [done|]. intros [->|?]; [apply H1; reflexivity|done].
Qed.
End Loop.

(** More fuel does not change a run that ended. *)
Lemma evictLoop_mono p root max fuel fuel' h current out r :
  evictLoop fuel p root max h current out = Ok r → (fuel ≤ fuel')%nat →
  evictLoop fuel' p root max h current out = Ok r.
Proof.
  revert fuel' h current out. induction fuel as [|fuel IH]; intros fuel' h current out; [done|].
  destruct fuel' as [|fuel']; [lia|]. intros H Hle. apply le_S_n in Hle. cbn [evictLoop] in *.
  destruct (max <? current); [|done].
  destruct (popPrev h root) as [[[e|] h']|]; cbn [mbind result_bind] in *; [|by apply IH|done].
  destruct (getStorageInfo_entry p e); cbn [mbind result_bind] in *; [|done].
  unfold assume in *. destruct (_ <? maxIdsToEvict); cbn [mbind result_bind] in *; [|done].
  by apply IH.
Qed.

(** With nothing left to evict and the memory still too large the loop never ends. *)
Lemma evictLoop_spins p h root max current out fuel :
  ring h root [] → max < current → evictLoop fuel p root max h current out = Err OutOfFuel.
Proof.
  intros Hr Hgt. induction fuel as [|fuel IH]; [done|]. cbn [evictLoop].
  apply Z.ltb_lt in Hgt. rewrite Hgt, ring_popPrev_nil by done. exact IH.
Qed.

(** Nothing is evicted from what fits. *)
Lemma kept_when_fits sz max extra l :
  extra + sumZ sz l ≤ max → kept_of sz max extra l = l ∧ victims_of sz max extra l = [].
Proof.
  intros Hle. assert (drop_oldest sz max extra (reverse l) = (reverse l, [])) as E.
  { assert (sumZ sz (reverse l) = sumZ sz l) as Hr by (by rewrite reverse_Permutation).
    destruct (reverse l) as [|a rl]; [done|]. cbn [drop_oldest]. apply Z.leb_le in Hle.
    rewrite <- Hr in Hle. by rewrite Hle. }
  unfold kept_of, victims_of. rewrite E. cbn [fst snd]. by rewrite reverse_involutive.
Qed.

(** With memory that no eviction can bring under the limit, the loop empties the list and
    spins, or stops at the bound on victims. *)
Lemma evictLoop_drains p root max extra E rl :
  wf_registry p → (∀ e, E e → e ∈ all_elems p) → max < extra → 0 ≤ extra → ∀ fuel h out,
  pool h root E (reverse rl) → extra + sumZ (elt_size p) rl < SIZE_MOD →
  if decide (Z.of_nat (length out + length rl) < maxIdsToEvict)
  then evictLoop fuel p root max h (extra + sumZ (elt_size p) rl) out = Err OutOfFuel
  else Z.of_nat (length out) < maxIdsToEvict → (length rl ≤ fuel)%nat →
    evictLoop fuel p root max h (extra + sumZ (elt_size p) rl) out = Err tooMany.
Proof.
  intros Hwf HE Hex H0. induction rl as [|a rl IH]; intros fuel h out Hp Hlt.
  - cbn [sumZ length]. case_decide; [|lia]. apply evictLoop_spins; [apply Hp|lia].
  - rewrite reverse_cons in Hp. assert (HlE : ∀ e, e ∈ a :: rl → e ∈ all_elems p).
    { destruct Hp as (_ & _ & HlE & _). intros e He. apply HE, HlE.
      rewrite <- reverse_cons. by apply elem_of_reverse. }
    pose proof (mem_of_nonneg p Hwf rl ltac:(intros; apply HlE; by right)) as Hnn. unfold mem_of in Hnn.
    pose proof (elt_size_pos p Hwf a ltac:(apply HlE; by left)).
    destruct fuel as [|fuel]; [case_decide; [done|cbn; lia]|]. cbn [sumZ length] in *.
    destruct (evictLoop_step p Hwf root max E HE fuel h (reverse rl) a out (extra + (elt_size p a + sumZ (elt_size p) rl)))
      as (h' & Hp' & _ & ->); [done|lia|unfold is_size; lia|lia|].
    replace (extra + (elt_size p a + sumZ (elt_size p) rl) - elt_size p a) with (extra + sumZ (elt_size p) rl) by lia.
    specialize (IH fuel h' (out ++ [elt_segment p a]) Hp' ltac:(lia)). rewrite length_app in IH. cbn [length] in IH.
    destruct (Z.ltb_spec (Z.of_nat (length out) + 1) maxIdsToEvict); case_decide as E1; case_decide as E2;
      try lia; try (intros; done). intros _ Hf. apply IH; lia.
Qed.

(** What the loop keeps and what it evicts: the evicted elements are those at the
    [popPrev] end, the rest fits, and no eviction was superfluous. *)
Lemma kept_victims sz max extra l :
  extra ≤ max →
  l = kept_of sz max extra l ++ reverse (victims_of sz max extra l) ∧
  extra + sumZ sz (kept_of sz max extra l) ≤ max ∧
  ∀ v1 x v2, victims_of sz max extra l = v1 ++ x :: v2 →
    max < extra + sumZ sz (x :: v2 ++ kept_of sz max extra l).
Proof.
  intros Hex. unfold kept_of, victims_of.
  pose proof (drop_oldest_app sz max extra (reverse l)) as Happ.
  pose proof (drop_oldest_fits sz max extra (reverse l) Hex) as Hfit.
  pose proof (drop_oldest_minimal sz max extra (reverse l)) as Hmin.
  destruct (drop_oldest sz max extra (reverse l)) as [ks vs]. cbn [fst snd] in *.
  assert (Hk : reverse ks ≡ₚ ks) by apply reverse_Permutation.
  split; [|split].
  - by rewrite <- reverse_app, Happ, reverse_involutive.
  - by rewrite Hk.
  - intros v1 x v2 Hv. cbn [sumZ]. rewrite sumZ_app, Hk, <- sumZ_app. by apply (Hmin v1).
Qed.

(** ** The invariant of a policy with one list

    [tracked b root mem h l]: the ring of [root] holds [l], the registry is well
    formed and the counter [mem] is the memory of the listed segments. *)
Record tracked (b : Policy) (root mem : Z) (h : heap) (l : list Z) : Prop := {
  tr_pool : pool h root (λ e, e ∈ all_elems b) l;
  tr_wf : wf_registry b;
  tr_mem : mem = mem_of b l;
}.

Section Tracked.
Context (b : Policy) (root mem : Z) (h : heap) (l : list Z) (Ht : tracked b root mem h l).

Lemma tracked_in e : e ∈ l → e ∈ all_elems b.
Proof. pose proof Ht as [(_ & _ & H & _) _ _]. apply H. Qed.

Lemma tracked_NoDup : NoDup l.
Proof. eapply pool_NoDup. apply Ht. Qed.

Lemma tracked_bound : 0 ≤ mem < SIZE_MOD.
Proof.
  pose proof Ht as [_ Hwf Hm]. rewrite Hm. split.
  - apply mem_of_nonneg; [done|]. apply tracked_in.
  - apply mem_of_bound; [done|apply tracked_NoDup|apply tracked_in].
Qed.

(** [removeFromList] of a tracked element, and what it leaves. *)
Lemma tracked_remove e :
  e ∈ all_elems b →
  ∃ h', isAlone h e = Ok (bool_decide (e ∉ l)) ∧ isInList h e = Ok (bool_decide (e ∈ l)) ∧
    removeFromList h e = Ok h' ∧
    tracked b root (if bool_decide (e ∈ l) then mem - elt_size b e else mem) h' (without e l) ∧
    ∀ x, x ∉ all_elems b → x ≠ root → h' !! x = h !! x.
Proof.
  intros He. pose proof tracked_NoDup as Hnd. pose proof Ht as [Hp Hwf Hm].
  destruct (pool_remove _ _ _ _ e Hp He) as (h' & Hrm & Hp' & Hfr).
  exists h'. split; [by eapply pool_isAlone|]. split; [by eapply pool_isInList|].
  split; [done|]. split; [|done]. split; [done|done|]. rewrite Hm. unfold mem_of.
  destruct (decide (e ∈ l)) as [Hin|Hin].
  - rewrite bool_decide_eq_true_2 by done.
    rewrite <- (without_perm e l) at 1 by done. cbn [sumZ]. lia.
  - rewrite bool_decide_eq_false_2 by done. by rewrite without_notin.
Qed.

(** Inserting an element at either end. *)
Lemma tracked_insert e l' h' :
  e ∈ all_elems b → e ∉ l → l' ≡ₚ e :: l →
  pool h' root (λ e, e ∈ all_elems b) l' →
  tracked b root (mem + elt_size b e) h' l'.
Proof.
  intros He Hin Hperm Hp'. pose proof Ht as [Hp Hwf Hm]. split; [done|done|].
  rewrite Hm. unfold mem_of. rewrite Hperm. cbn [sumZ]. lia.
Qed.

(** The eviction loop on the whole list. *)
Lemma tracked_shrink max fuel :
  0 ≤ max → (length l < fuel)%nat →
  let ks := kept_of (elt_size b) max 0 l in
  let vs := victims_of (elt_size b) max 0 l in
  if decide (Z.of_nat (length vs) < maxIdsToEvict)
  then ∃ h' mem', evictLoop fuel b root max h mem [] = Ok (h', mem', elt_segment b <$> vs) ∧
         tracked b root mem' h' ks ∧ mem' ≤ max ∧
         ∀ x, x ∉ all_elems b → x ≠ root → h' !! x = h !! x
  else evictLoop fuel b root max h mem [] = Err tooMany.
Proof.
  intros Hmax Hf ks vs. pose proof tracked_bound as Hb. pose proof Ht as [Hp Hwf Hm].
  pose proof (evictLoop_list b Hwf root max 0 ltac:(lia) _ (λ e H, H) l fuel h mem Hp) as Hloop.
  cbv zeta in Hloop. fold ks vs in Hloop. specialize (Hloop ltac:(lia) ltac:(lia) Hf).
  destruct (decide (Z.of_nat (length vs) < maxIdsToEvict)); [|done].
  destruct Hloop as (h' & Hrun & Hp' & Hfr). exists h', (0 + mem_of b ks).
  split; [done|]. split; [split; [done|done|lia]|]. split; [|done].
  pose proof (kept_victims (elt_size b) max 0 l Hmax) as (_ & Hle & _). exact Hle.
Qed.
End Tracked.

(** ** Registering a mapping *)

(** A new array: its bytes belong to no other array and not to the roots, its
    mapping is not tracked yet and the segments still fit in the address space. *)
Record fresh_storage (b : Policy) (roots : list Z) (st : PolicyStorage) : Prop := {
  fs_wf : wf_storage st;
  fs_mapping : ps_mapping st ∉ ps_mapping <$> storageRegistry b;
  fs_disjoint : ∀ st' e, st' ∈ storageRegistry b → contains st' e = true → contains st e = false;
  fs_root : ∀ r, r ∈ roots → contains st r = false;
  fs_capacity : sumZ (λ st, elementCount st * getSegmentSize (ps_mapping st))
                  (storageRegistry b ++ [st]) < SIZE_MOD;
}.

Lemma newElements_in h st i :
  0 ≤ i < elementCount st →
  alone (newElements h (elements st) (elementCount st)) (element st i).
Proof.
  intros Hi. unfold newElements, alone, element.
  assert (Hin : i ∈ seqZ 0 (elementCount st)) by (apply elem_of_seqZ; lia).
  induction (seqZ 0 (elementCount st)) as [|j js IH]; [by apply elem_of_nil in Hin|].
  cbn [foldr]. unfold newElement at 1.
  destruct (decide (i = j)) as [->|Hne]; [by simplify_map_eq|].
  rewrite lookup_insert_ne by (unfold sizeof_ListElement; lia). apply IH. set_solver.
Qed.

Lemma newElements_out h elts count x :
  (∀ i, 0 ≤ i < count → x ≠ elts + sizeof_ListElement * i) →
  newElements h elts count !! x = h !! x.
Proof.
  intros Hx. unfold newElements.
  assert (Hin : ∀ i, i ∈ seqZ 0 count → x ≠ elts + sizeof_ListElement * i).
  { intros i Hi%elem_of_seqZ. apply Hx. lia. }
  induction (seqZ 0 count) as [|j js IH]; [done|]. cbn [foldr]. unfold newElement at 1.
  rewrite lookup_insert_ne; [apply IH; set_solver|]. apply not_eq_sym, Hin. left.
Qed.

Lemma newElements_fresh h st x :
  x ∉ storage_elems st → newElements h (elements st) (elementCount st) !! x = h !! x.
Proof.
  intros Hx. apply newElements_out. intros i Hi ->. apply Hx. apply elem_of_storage_elems. by exists i.
Qed.

Lemma wf_register b roots st :
  wf_registry b → fresh_storage b roots st →
  wf_registry (set_storageRegistry b (storageRegistry b ++ [st])).
Proof.
  intros Hwf [H1 H2 H3 H4 H5]. split; cbn.
  - intros st' [Hin| ->%list_elem_of_singleton]%elem_of_app; [|done].
    by apply (wfr_storage _ Hwf).
  - rewrite fmap_app. apply NoDup_app. split; [apply Hwf|]. split; [|apply NoDup_singleton].
    intros m Hm ->%list_elem_of_singleton. done.
  - intros s1 s2 e [Hi1| ->%list_elem_of_singleton]%elem_of_app
      [Hi2| ->%list_elem_of_singleton]%elem_of_app Hc1 Hc2; try done.
    + by eapply (wfr_disjoint _ Hwf).
    + by rewrite (H3 s1 e) in Hc2.
    + by rewrite (H3 s2 e) in Hc1.
  - done.
Qed.

Lemma tracked_register b root mem h l st :
  tracked b root mem h l → fresh_storage b [root] st →
  tracked (set_storageRegistry b (storageRegistry b ++ [st])) root mem
    (newElements h (elements st) (elementCount st)) l.
Proof.
  intros [Hp Hwf Hm] Hfs. pose proof (wf_register b [root] st Hwf Hfs) as Hwf'.
  assert (Hall : ∀ e, e ∈ all_elems (set_storageRegistry b (storageRegistry b ++ [st])) ↔
                      e ∈ all_elems b ∨ e ∈ storage_elems st).
  { intros e. unfold all_elems. cbn [storageRegistry set_storageRegistry].
    rewrite bind_app, elem_of_app. cbn. by rewrite app_nil_r. }
  assert (Hdis : ∀ e, e ∈ all_elems b → e ∉ storage_elems st).
  { intros e (st' & Hst' & (i & Hi & ->)%elem_of_storage_elems)%elem_of_all_elems
      (j & Hj & Heq)%elem_of_storage_elems.
    pose proof (element_contains st' i (wfr_storage _ Hwf _ Hst') Hi) as Hc.
    apply (fs_disjoint _ _ _ Hfs _ _ Hst') in Hc. rewrite Heq in Hc.
    by rewrite element_contains in Hc by (done || apply Hfs). }
  assert (Hkeep : ∀ x, x ∉ storage_elems st →
            newElements h (elements st) (elementCount st) !! x = h !! x) by (apply newElements_fresh).
  assert (Hrt : root ∉ storage_elems st).
  { intros (i & Hi & ->)%elem_of_storage_elems. pose proof (fs_root _ _ _ Hfs _ ltac:(left)) as Hc.
    by rewrite element_contains in Hc by (done || apply Hfs). }
  destruct Hp as (Hr & Hnr & HlE & Hal). split; [|done|].
  - split; [|split; [|split]].
    + eapply ring_frame; [|done]. intros x [->|Hx]%elem_of_cons; apply Hkeep; auto.
    + rewrite Hall. tauto.
    + intros e He. rewrite Hall. auto.
    + intros e [He|(i & Hi & ->)%elem_of_storage_elems]%Hall Hel; [|by apply newElements_in].
      unfold alone. rewrite Hkeep by auto. by apply Hal.
  - rewrite Hm. apply sumZ_ext. intros e He. apply HlE in He.
    apply elem_of_all_elems in He as (st' & Hst' & (i & Hi & ->)%elem_of_storage_elems).
    rewrite !elt_size_element; try done. cbn. apply elem_of_app. by left.
Qed.

Lemma registerMapping_inv b mapping elts count size extra b' :
  registerMapping b mapping elts count size extra = Ok b' →
  b' = set_storageRegistry b (storageRegistry b ++ [mkStorage mapping elts count size extra]) ∧
  getSegmentSize mapping ≤ staticMaxMemory b ∧ checkHasEnoughMem b' = true.
Proof.
  unfold registerMapping, assume.
  destruct (Z.leb_spec (getSegmentSize mapping) (staticMaxMemory b)); [|discriminate].
  cbn [mbind result_bind]. destruct (checkHasEnoughMem _) eqn:Hc; [|discriminate].
  cbn [mbind result_bind]. intros H'. inv_ok. done.
Qed.

(** [registerMapping] accepts a mapping the limits leave room for. *)
Lemma registerMapping_ok b mapping elts count size extra :
  let b' := set_storageRegistry b (storageRegistry b ++ [mkStorage mapping elts count size extra]) in
  getSegmentSize mapping ≤ staticMaxMemory b → checkHasEnoughMem b' = true →
  registerMapping b mapping elts count size extra = Ok b'.
Proof.
  intros b' Hs Hm. unfold registerMapping. rewrite (proj2 (Z.leb_le _ _) Hs). fold b'.
  cbn [assume mbind result_bind]. by rewrite Hm.
Qed.

(** ** Releasing a mapping *)

Lemma releaseElements_spec b root st ids :
  st ∈ storageRegistry b → (∀ i, i ∈ ids → 0 ≤ i < elementCount st) →
  ∀ mem h l, tracked b root mem h l →
  ∃ h' mem', releaseElements h mem (ps_mapping st) st ids = Ok (h', mem') ∧
    tracked b root mem' h' (filter (λ e, e ∉ element st <$> ids) l) ∧
    ∀ x, x ∉ all_elems b → x ≠ root → h' !! x = h !! x.
Proof.
  intros Hst. induction ids as [|i ids IH]; intros Hids mem h l Ht.
  - exists h, mem. split; [done|]. split; [|done].
    rewrite filter_all; [done|]. set_solver.
  - assert (Hi : 0 ≤ i < elementCount st) by (apply Hids; left).
    assert (He : element st i ∈ all_elems b) by (by apply element_in).
    destruct (tracked_remove _ _ _ _ _ Ht _ He) as (h1 & _ & Hin & Hrm & Ht1 & Hf1).
    destruct (IH ltac:(set_solver) _ _ _ Ht1) as (h2 & mem2 & Hrun & Ht2 & Hf2).
    exists h2, mem2. split; [|split].
    + unfold releaseElements in *. cbn [foldM]. rewrite Hin. cbn [mbind result_bind].
      rewrite Hrm. cbn [mbind result_bind]. rewrite <- Hrun. do 2 f_equal.
      pose proof (tracked_bound _ _ _ _ _ Ht1) as Hb1.
      pose proof (tracked_bound _ _ _ _ _ Ht) as Hb.
      rewrite <- (elt_size_element b (tr_wf _ _ _ _ _ Ht) st i) by done.
      pose proof (elt_size_pos b (tr_wf _ _ _ _ _ Ht) _ He).
      destruct (bool_decide _); [|done]. rewrite size_sub; [done|lia|lia].
    + replace (filter (λ e, e ∉ element st <$> i :: ids) l)
        with (filter (λ e, e ∉ element st <$> ids) (without (element st i) l)); [done|].
      unfold without. rewrite list_filter_filter. apply list_filter_iff. intros e. cbn. set_solver.
    + intros x Hx Hxr. by rewrite Hf2, Hf1.
Qed.

Lemma deleteElements_ok h st :
  (∀ e, e ∈ storage_elems st → alone h e) →
  ∃ h', deleteElements h (elements st) (elementCount st) = Ok h' ∧
    ∀ x, x ∉ storage_elems st → h' !! x = h !! x.
Proof.
  intros Hal. unfold deleteElements.
  assert (Hids : ∀ i, i ∈ seqZ 0 (elementCount st) → element st i ∈ storage_elems st).
  { intros i Hi%elem_of_seqZ. apply elem_of_storage_elems. exists i. split; [lia|done]. }
  assert (Hnoop : foldM (λ h i, removeFromList h (elements st + sizeof_ListElement * i)) h
            (reverse (seqZ 0 (elementCount st))) = Ok h).
  { assert (Hids' : ∀ i, i ∈ reverse (seqZ 0 (elementCount st)) → alone h (element st i)).
    { intros i Hi. rewrite elem_of_reverse in Hi. by apply Hal, Hids. }
    induction (reverse (seqZ 0 (elementCount st))) as [|i js IH]; [done|]. cbn [foldM].
    change (elements st + sizeof_ListElement * i) with (element st i).
    rewrite removeFromList_alone by (apply Hids'; left).
    apply IH. intros j Hj. apply Hids'. by right. }
  rewrite Hnoop. cbn [mbind result_bind]. eexists. split; [done|]. intros x Hx. clear Hnoop.
  induction (seqZ 0 (elementCount st)) as [|i js IH]; [done|]. cbn [foldr].
  rewrite lookup_delete_ne; [apply IH; intros j Hj; apply Hids; by right|].
  intros <-. apply Hx, Hids. left.
Qed.

Lemma wf_unregister b mapping :
  wf_registry b →
  wf_registry (set_storageRegistry b (filter (λ it, ps_mapping it ≠ mapping) (storageRegistry b))).
Proof.
  intros Hwf. split; cbn.
  - intros st [_ Hst]%list_elem_of_filter. by apply (wfr_storage _ Hwf).
  - apply NoDup_fmap_filter, Hwf.
  - intros s1 s2 e [_ H1]%list_elem_of_filter [_ H2]%list_elem_of_filter.
    by apply (wfr_disjoint _ Hwf).
  - eapply Z.le_lt_trans; [|apply (wfr_capacity _ Hwf)]. apply sumZ_submseteq.
    + apply sublist_submseteq, sublist_filter.
    + intros st Hst. destruct (wfr_storage _ Hwf _ Hst). nia.
Qed.

(** Dropping the array of a mapping none of whose segments is listed. *)
Lemma tracked_unregister b root mem h h' l st :
  tracked b root mem h l → st ∈ storageRegistry b →
  (∀ e, e ∈ l → e ∉ storage_elems st) →
  (∀ x, x ∉ storage_elems st → h' !! x = h !! x) →
  tracked (set_storageRegistry b
             (filter (λ it, ps_mapping it ≠ ps_mapping st) (storageRegistry b))) root mem h' l.
Proof.
  intros [Hp Hwf Hm] Hst Hl Hkeep.
  set (b' := set_storageRegistry b _). pose proof (wf_unregister b (ps_mapping st) Hwf) as Hwf'.
  assert (Hin : ∀ s', s' ∈ storageRegistry b' ↔ s' ∈ storageRegistry b ∧ s' ≠ st).
  { intros s'. cbn. rewrite list_elem_of_filter. split.
    - intros [Hk Hs']. split; [done|congruence].
    - intros [Hs' Hne]. split; [|done]. intros Hk. apply Hne.
      by eapply (NoDup_fmap_elem ps_mapping); [apply (wfr_keys _ Hwf)|..]. }
  assert (Hall : ∀ e, e ∈ all_elems b' ↔ e ∈ all_elems b ∧ e ∉ storage_elems st).
  { intros e. rewrite !elem_of_all_elems. split.
    - intros (s' & [Hs' Hne]%Hin & (i & Hi & ->)%elem_of_storage_elems).
      split; [exists s'; split; [done|]; apply elem_of_storage_elems; eauto|].
      intros (j & Hj & Heq)%elem_of_storage_elems. apply Hne.
      apply (wfr_disjoint _ Hwf s' st (element s' i) Hs' Hst); [|rewrite Heq];
        apply element_contains; try done; by apply (wfr_storage _ Hwf).
    - intros [(s' & Hs' & He) Hn]. exists s'. split; [apply Hin; split; [done|]|done].
      intros ->. done. }
  destruct Hp as (Hr & Hnr & HlE & Hal).
  assert (Hroot : root ∉ storage_elems st).
  { intros He. apply Hnr, elem_of_all_elems. eauto. }
  split; [|done|].
  - split; [|split; [|split]].
    + eapply ring_frame; [|done]. intros x [->|Hx]%elem_of_cons; apply Hkeep; auto.
    + rewrite Hall. tauto.
    + intros e He. rewrite Hall. auto.
    + intros e [He Hn]%Hall Hel. unfold alone. rewrite Hkeep by done. by apply Hal.
  - rewrite Hm. apply sumZ_ext. intros e He. pose proof (conj (HlE e He) (Hl e He)) as He'.
    rewrite <- Hall in He'. apply elem_of_all_elems in He' as (s' & Hs' & (i & Hi & ->)%elem_of_storage_elems).
    rewrite (elt_size_element b' Hwf' s' i Hs' Hi). apply Hin in Hs' as [Hs' _].
    by rewrite elt_size_element.
Qed.

(** [freeElementStorage] as a whole. *)
Lemma tracked_free b root mem h l mapping st :
  tracked b root mem h l → getStorageInfo b mapping = Ok st →
  ∃ h1 h2 mem', releaseElements h mem mapping st (seqZ 0 (elementCount st)) = Ok (h1, mem') ∧
    unregisterMapping b mapping =
      Ok (set_storageRegistry b (filter (λ it, ps_mapping it ≠ mapping) (storageRegistry b))) ∧
    deleteElements h1 (elements st) (elementCount st) = Ok h2 ∧
    tracked (set_storageRegistry b (filter (λ it, ps_mapping it ≠ mapping) (storageRegistry b)))
      root mem' h2 (filter (λ e, e ∉ storage_elems st) l) ∧
    ∀ x, x ∉ all_elems b → x ≠ root → h2 !! x = h !! x.
Proof.
  intros Ht [Hst <-]%getStorageInfo_inv.
  destruct (releaseElements_spec b root st (seqZ 0 (elementCount st)) Hst
    ltac:(intros i Hi%elem_of_seqZ; lia) _ _ _ Ht) as (h1 & mem' & Hrel & Ht1 & Hfr).
  change (element st <$> seqZ 0 (elementCount st)) with (storage_elems st) in Ht1.
  destruct (deleteElements_ok h1 st) as (h2 & Hdel & Hkeep).
  { intros e He. destruct Ht1 as [(_ & _ & _ & Hal) _ _]. apply Hal.
    - apply elem_of_all_elems. eauto.
    - rewrite list_elem_of_filter. tauto. }
  exists h1, h2, mem'. split; [done|]. split; [|split; [done|]].
  - unfold unregisterMapping. rewrite eraseMatching_key; [done|]. apply (wfr_keys _ (tr_wf _ _ _ _ _ Ht)).
  - split.
    + eapply tracked_unregister; [done|done| |done]. by intros e [He _]%list_elem_of_filter.
    + intros x Hx Hxr. rewrite Hkeep; [by apply Hfr|]. intros He. apply Hx, elem_of_all_elems. eauto.
Qed.

(** A registry with one mapping, the case of a local policy. *)
Lemma wf_single b st :
  storageRegistry b = [st] → wf_storage st →
  elementCount st * getSegmentSize (ps_mapping st) < SIZE_MOD → wf_registry b.
Proof.
  intros Hb Hst Hcap. split; rewrite Hb; cbn.
  - by intros st' ->%list_elem_of_singleton.
  - apply NoDup_singleton.
  - by intros s1 s2 e ->%list_elem_of_singleton ->%list_elem_of_singleton.
  - lia.
Qed.
End WithMappings.

(** Only the segment sizes of the registered mappings matter. *)
Lemma tracked_resize gs gs' b root mem h l :
  tracked gs b root mem h l →
  (∀ st, st ∈ storageRegistry b → gs' (ps_mapping st) = gs (ps_mapping st)) →
  tracked gs' b root mem h l.
Proof.
  intros [Hp [H1 H2 H3 H4] Hm] Hgs. split; [done| |].
  - split; [|done|done|].
    + intros st Hst. destruct (H1 st Hst). split; [done..|]. by rewrite Hgs.
    + rewrite (sumZ_ext _ (λ st, elementCount st * gs (ps_mapping st))); [done|].
      intros st Hst. by rewrite Hgs.
  - rewrite Hm. apply sumZ_ext. intros e _. unfold elt_size.
    destruct (find _ _) as [st|] eqn:E; [|done]. symmetry. apply Hgs.
    apply list_elem_of_In. by eapply find_some.
Qed.
