(* ===== verification/FifoPolicy.v ===== *)
(** * The FIFO policy (src/src/policies/FifoPolicy.cpp)

    Touched segments enter the ring after the root and are evicted from the other
    end.  [fifo_inv h p l] ties the pointer structure to the list [l] of tracked
    elements, newest first, and the counter to the memory of [l]. *)

From S2P Require Import Prelude ListElement EraseLoop Policy.

Record FifoPolicy := mkFifo {
  base : Policy;
  root : Z;
  currentMemory : Z;
}.

(** [this] is the address of the object, [rootAddr] that of its member [root]. *)
Definition newFifoPolicy (h : heap) (this rootAddr maxMemory : Z) (local : bool)
    : heap * FifoPolicy :=
  (newElement h rootAddr, mkFifo (newPolicy this maxMemory local) rootAddr 0).

Definition getCurrentMemory (p : FifoPolicy) : Z := currentMemory p.

Section WithMappings.
Context (getSegmentSize : Z → Z).

(** [elts] is the address [new] returns. *)
Definition allocateElementStorage (h : heap) (p : FifoPolicy) (mapping segmentCount elts : Z)
    : result (heap * FifoPolicy) :=
  let h' := newElements h elts segmentCount in
  b ← registerMapping getSegmentSize (base p) mapping elts segmentCount sizeof_ListElement 0;
  Ok (h', mkFifo b (root p) (currentMemory p)).

Definition freeElementStorage (h : heap) (p : FifoPolicy) (mapping : Z)
    : result (heap * FifoPolicy) :=
  storage ← getStorageInfo (base p) mapping;
  '(h1, mem) ← releaseElements getSegmentSize h (currentMemory p) mapping storage
                 (seqZ 0 (elementCount storage));
  b ← unregisterMapping (base p) mapping;
  h2 ← deleteElements h1 (elements storage) (elementCount storage);
  Ok (h2, mkFifo b (root p) mem).

(** The critical section of [notifyTouch]. *)
Definition notifyTouch (fuel : nat) (h : heap) (p : FifoPolicy) (mapping index : Z)
    : result (heap * FifoPolicy * Touched) :=
  let memOrig := getCurrentMemory p in
  storage ← getStorageInfo (base p) mapping;
  let cur := element storage index in
  isFirstAccess ← isAlone h cur;
  h1 ← removeFromList h cur;
  h2 ← insertAfter h1 (root p) cur;
  let mem := if isFirstAccess : bool then currentMemory p ⊕ getSegmentSize mapping
             else currentMemory p in
  '(h3, mem', out) ← evictLoop getSegmentSize fuel (base p) (root p)
                       (dynamicMaxMemory (base p)) h2 mem [];
  Ok (h3, mkFifo (base p) (root p) mem', mkTouched out isFirstAccess memOrig).

Definition notifyEvict (h : heap) (p : FifoPolicy) (mapping index : Z)
    : result (heap * FifoPolicy) :=
  storage ← getStorageInfo (base p) mapping;
  let cur := element storage index in
  inList ← isInList h cur;
  cassert inList "cur.isInList()";;
  let mem := currentMemory p ⊖ getSegmentSize mapping in
  cassert (0 <=? mem) "this->currentMemory >= 0";;
  h' ← removeFromList h cur;
  Ok (h', mkFifo (base p) (root p) mem).

(** The critical section of [shrinkMemory]. *)
Definition shrinkMemory (fuel : nat) (h : heap) (p : FifoPolicy)
    : result (heap * FifoPolicy * list (Z * Z)) :=
  '(h', mem', out) ← evictLoop getSegmentSize fuel (base p) (root p)
                       (dynamicMaxMemory (base p)) h (currentMemory p) [];
  Ok (h', mkFifo (base p) (root p) mem', out).

(** ** Invariant *)

Definition fifo_inv (h : heap) (p : FifoPolicy) (l : list Z) : Prop :=
  tracked getSegmentSize (base p) (root p) (currentMemory p) h l.

Abbreviation sz p := (elt_size getSegmentSize (base p)).

(** The ring and the counter just before the eviction loop of [notifyTouch]. *)
Lemma fifo_touch_prepare h p l st index :
  fifo_inv h p l → st ∈ storageRegistry (base p) → 0 ≤ index < elementCount st →
  let e := element st index in
  let mem := if bool_decide (e ∉ l) then currentMemory p ⊕ getSegmentSize (ps_mapping st)
             else currentMemory p in
  ∃ h1 h2, isAlone h e = Ok (bool_decide (e ∉ l)) ∧
    removeFromList h e = Ok h1 ∧ insertAfter h1 (root p) e = Ok h2 ∧
    tracked getSegmentSize (base p) (root p) mem h2 (e :: without e l) ∧
    ∀ x, x ∉ all_elems (base p) → x ≠ root p → h2 !! x = h !! x.
Proof.
  intros Hi Hst Hix e mem. assert (He : e ∈ all_elems (base p)) by (by apply element_in).
  pose proof (tr_wf _ _ _ _ _ _ Hi) as Hwf.
  destruct (tracked_remove _ _ _ _ _ _ Hi e He) as (h1 & Hal & _ & Hrm & Ht1 & Hf1).
  assert (Hnotin : e ∉ without e l) by (rewrite elem_of_without; tauto).
  destruct (pool_insertAfter _ _ _ _ e (tr_pool _ _ _ _ _ _ Ht1) He Hnotin)
    as (h2 & Hins & Hp2 & Hf2).
  exists h1, h2. do 3 (split; [done|]). split; [|intros x Hx Hxr; by rewrite Hf2, Hf1].
  pose proof (tracked_insert _ _ _ _ _ _ Ht1 e _ h2 He Hnotin ltac:(done) Hp2) as Ht2.
  assert (Hse : sz p e = getSegmentSize (ps_mapping st)) by (by apply elt_size_element).
  pose proof (tracked_bound _ _ _ _ _ _ Ht2) as Hb2.
  pose proof (tracked_bound _ _ _ _ _ _ Hi) as Hb.
  pose proof (elt_size_pos _ _ Hwf e He) as Hpos.
  replace mem with ((if bool_decide (e ∈ l) then currentMemory p - sz p e
                     else currentMemory p) + sz p e); [done|]. subst mem.
  destruct (decide (e ∈ l)) as [Hin|Hin].
  - rewrite bool_decide_eq_true_2, bool_decide_eq_false_2 by tauto. lia.
  - rewrite bool_decide_eq_false_2 in Hb2 |- * by done.
    rewrite bool_decide_eq_true_2 by done. rewrite <- Hse, size_add; lia.
Qed.

Lemma fifo_touch_run h p l mapping st index fuel :
  fifo_inv h p l → getStorageInfo (base p) mapping = Ok st → 0 ≤ index < elementCount st →
  0 ≤ dynamicMaxMemory (base p) → (S (length l) < fuel)%nat →
  let e := element st index in
  let ks := kept_of (sz p) (dynamicMaxMemory (base p)) 0 (e :: without e l) in
  let vs := victims_of (sz p) (dynamicMaxMemory (base p)) 0 (e :: without e l) in
  if decide (Z.of_nat (length vs) < maxIdsToEvict)
  then ∃ h' p', notifyTouch fuel h p mapping index =
           Ok (h', p', mkTouched (elt_segment (base p) <$> vs) (bool_decide (e ∉ l)) (currentMemory p)) ∧
         base p' = base p ∧ root p' = root p ∧ fifo_inv h' p' ks ∧
         currentMemory p' ≤ dynamicMaxMemory (base p) ∧
         ∀ x, x ∉ all_elems (base p) → x ≠ root p → h' !! x = h !! x
  else notifyTouch fuel h p mapping index = Err tooMany.
Proof.
  intros Hi Hst Hix Hmax Hfuel e ks vs.
  apply getStorageInfo_inv in Hst as Hst'. destruct Hst' as [Hin <-].
  destruct (fifo_touch_prepare h p l st index Hi Hin Hix)
    as (h1 & h2 & Hal & Hrm & Hins & Ht & Hfr). fold e in Hal, Hrm, Hins, Ht.
  pose proof (tracked_shrink _ _ _ _ _ _ Ht (dynamicMaxMemory (base p)) fuel Hmax) as Hloop.
  cbv zeta in Hloop. fold ks vs in Hloop.
  specialize (Hloop ltac:(cbn [length]; pose proof (length_without e l); lia)).
  unfold notifyTouch. rewrite Hst. cbn [mbind result_bind]. fold e. rewrite Hal.
  cbn [mbind result_bind]. rewrite Hrm. cbn [mbind result_bind]. rewrite Hins.
  cbn [mbind result_bind].
  destruct (decide (Z.of_nat (length vs) < maxIdsToEvict)); [|by rewrite Hloop].
  destruct Hloop as (h' & mem' & -> & Ht' & Hle & Hfr'). cbn [mbind result_bind].
  eexists h', _. split; [done|]. do 4 (split; [done|]).
  intros x Hx Hxr. by rewrite Hfr', Hfr.
Qed.

Lemma fifo_notifyEvict_run h p l mapping st index :
  fifo_inv h p l → getStorageInfo (base p) mapping = Ok st → 0 ≤ index < elementCount st →
  let e := element st index in
  if bool_decide (e ∈ l)
  then ∃ h' p', notifyEvict h p mapping index = Ok (h', p') ∧ base p' = base p ∧
         root p' = root p ∧ fifo_inv h' p' (without e l) ∧
         ∀ x, x ∉ all_elems (base p) → x ≠ root p → h' !! x = h !! x
  else notifyEvict h p mapping index = Err (AssertFail "cur.isInList()").
Proof.
  intros Hi Hst Hix e. apply getStorageInfo_inv in Hst as Hst'. destruct Hst' as [Hin <-].
  assert (He : e ∈ all_elems (base p)) by (by apply element_in).
  pose proof (tr_wf _ _ _ _ _ _ Hi) as Hwf.
  destruct (tracked_remove _ _ _ _ _ _ Hi e He) as (h1 & _ & Hil & Hrm & Ht1 & Hf1).
  unfold notifyEvict. rewrite Hst. cbn [mbind result_bind]. fold e. rewrite Hil.
  cbn [mbind result_bind]. destruct (bool_decide (e ∈ l)); [|done].
  cbn [cassert mbind result_bind].
  assert (Hse : sz p e = getSegmentSize (ps_mapping st)) by (by apply elt_size_element).
  pose proof (tracked_bound _ _ _ _ _ _ Ht1) as Hb1.
  pose proof (tracked_bound _ _ _ _ _ _ Hi) as Hb.
  pose proof (elt_size_pos _ _ Hwf e He) as Hpos.
  rewrite <- Hse, size_sub by lia.
  destruct (Z.leb_spec 0 (currentMemory p - sz p e)); [|lia].
  cbn [cassert mbind result_bind]. rewrite Hrm. cbn [mbind result_bind].
  eexists _, _. split; [done|]. done.
Qed.

Lemma fifo_shrink_run h p l fuel :
  fifo_inv h p l → 0 ≤ dynamicMaxMemory (base p) → (length l < fuel)%nat →
  let ks := kept_of (sz p) (dynamicMaxMemory (base p)) 0 l in
  let vs := victims_of (sz p) (dynamicMaxMemory (base p)) 0 l in
  if decide (Z.of_nat (length vs) < maxIdsToEvict)
  then ∃ h' p', shrinkMemory fuel h p = Ok (h', p', elt_segment (base p) <$> vs) ∧
         base p' = base p ∧ root p' = root p ∧ fifo_inv h' p' ks ∧
         currentMemory p' ≤ dynamicMaxMemory (base p) ∧
         ∀ x, x ∉ all_elems (base p) → x ≠ root p → h' !! x = h !! x
  else shrinkMemory fuel h p = Err tooMany.
Proof.
  intros Hi Hmax Hf ks vs.
  pose proof (tracked_shrink _ _ _ _ _ _ Hi (dynamicMaxMemory (base p)) fuel Hmax Hf) as Hloop.
  cbv zeta in Hloop. fold ks vs in Hloop. unfold shrinkMemory.
  destruct (decide (Z.of_nat (length vs) < maxIdsToEvict)); [|by rewrite Hloop].
  destruct Hloop as (h' & mem' & -> & Ht' & Hle & Hfr'). cbn [mbind result_bind].
  eexists h', _. split; [done|]. done.
Qed.

(** ** Everything a policy can go through *)

Inductive fifo_reach : heap → FifoPolicy → Prop :=
  | fr_new h this rootAddr maxMemory local h' p' :
      0 ≤ maxMemory → newFifoPolicy h this rootAddr maxMemory local = (h', p') →
      fifo_reach h' p'
  | fr_allocate h p mapping count elts h' p' :
      fifo_reach h p →
      fresh_storage getSegmentSize (base p) [root p]
        (mkStorage mapping elts count sizeof_ListElement 0) →
      allocateElementStorage h p mapping count elts = Ok (h', p') → fifo_reach h' p'
  | fr_touch h p fuel mapping st index h' p' t :
      fifo_reach h p → getStorageInfo (base p) mapping = Ok st → 0 ≤ index < elementCount st →
      notifyTouch fuel h p mapping index = Ok (h', p', t) → fifo_reach h' p'
  | fr_evict h p mapping st index h' p' :
      fifo_reach h p → getStorageInfo (base p) mapping = Ok st → 0 ≤ index < elementCount st →
      notifyEvict h p mapping index = Ok (h', p') → fifo_reach h' p'
  | fr_shrink h p fuel h' p' out :
      fifo_reach h p → shrinkMemory fuel h p = Ok (h', p', out) → fifo_reach h' p'
  | fr_free h p mapping h' p' :
      fifo_reach h p → freeElementStorage h p mapping = Ok (h', p') → fifo_reach h' p'
  | fr_limit h p m :
      fifo_reach h p → 0 ≤ m →
      fifo_reach h (mkFifo (setDynamicMaxMemory (base p) m) (root p) (currentMemory p))
  | fr_others h p h' :
      (* other objects change the heap outside this policy's elements *)
      fifo_reach h p → (∀ x, x ∈ all_elems (base p) ∨ x = root p → h' !! x = h !! x) →
      fifo_reach h' p.

Lemma fifo_new_inv h this rootAddr maxMemory local h' p' :
  newFifoPolicy h this rootAddr maxMemory local = (h', p') → fifo_inv h' p' [].
Proof.
  intros [= <- <-]. split; cbn.
  - split; [apply ring_nil; unfold alone, newElement; by simplify_map_eq|].
    unfold all_elems. cbn. set_solver.
  - split; cbn; [set_solver|apply NoDup_nil_2|set_solver|reflexivity].
  - done.
Qed.

Lemma notifyTouch_mono fuel fuel' h p mapping index r :
  notifyTouch fuel h p mapping index = Ok r → (fuel ≤ fuel')%nat →
  notifyTouch fuel' h p mapping index = Ok r.
Proof.
  unfold notifyTouch. intros H Hle. do 4 (inv_bind H; cbn [mbind result_bind]).
  inv_bind H. by rewrite (evictLoop_mono _ _ _ _ _ _ _ _ _ _ Hstep3 Hle).
Qed.

Lemma shrinkMemory_mono fuel fuel' h p r :
  shrinkMemory fuel h p = Ok r → (fuel ≤ fuel')%nat → shrinkMemory fuel' h p = Ok r.
Proof.
  unfold shrinkMemory. intros H Hle. inv_bind H.
  by rewrite (evictLoop_mono _ _ _ _ _ _ _ _ _ _ Hstep Hle).
Qed.

Lemma fifo_reach_ok h p :
  fifo_reach h p → 0 ≤ dynamicMaxMemory (base p) ∧ ∃ l, fifo_inv h p l.
Proof.
  induction 1 as [h this r m loc h' p' Hm Hnew
    |h p mapping count elts h' p' _ [Hm [l Hi]] Hfs Hrun
    |h p fuel mapping st index h' p' t _ [Hm [l Hi]] Hst Hix Hrun
    |h p mapping st index h' p' _ [Hm [l Hi]] Hst Hix Hrun
    |h p fuel h' p' out _ [Hm [l Hi]] Hrun
    |h p mapping h' p' _ [Hm [l Hi]] Hrun
    |h p m _ [Hm [l Hi]] Hm'
    |h p h' _ [Hm [l Hi]] Hsame].
  - split; [by injection Hnew as _ <-|]. exists []. by eapply fifo_new_inv.
  - unfold allocateElementStorage in Hrun. inv_bind Hrun. inv_ok.
    apply registerMapping_inv in Hstep as (-> & _ & _). split; [done|].
    exists l. exact (tracked_register _ _ _ _ _ _ _ Hi Hfs).
  - apply (notifyTouch_mono _ (fuel + S (S (length l)))) in Hrun; [|lia].
    pose proof (fifo_touch_run h p l mapping st index (fuel + S (S (length l)))
      Hi Hst Hix Hm ltac:(lia)) as Hrun'. cbv zeta in Hrun'. case_decide.
    + destruct Hrun' as (h1 & p1 & Heq & Hb & _ & Hi' & _).
      rewrite Heq in Hrun. inv_ok. rewrite Hb. eauto.
    + congruence.
  - pose proof (fifo_notifyEvict_run h p l mapping st index Hi Hst Hix) as Hrun'.
    cbv zeta in Hrun'. destruct (bool_decide _); [|congruence].
    destruct Hrun' as (h1 & p1 & Heq & Hb & _ & Hi' & _). rewrite Heq in Hrun. inv_ok.
    rewrite Hb. eauto.
  - apply (shrinkMemory_mono _ (fuel + S (length l))) in Hrun; [|lia].
    pose proof (fifo_shrink_run h p l (fuel + S (length l)) Hi Hm ltac:(lia)) as Hrun'.
    cbv zeta in Hrun'. case_decide; [|congruence].
    destruct Hrun' as (h1 & p1 & Heq & Hb & _ & Hi' & _). rewrite Heq in Hrun. inv_ok.
    rewrite Hb. eauto.
  - unfold freeElementStorage in Hrun. inv_bind Hrun.
    destruct (tracked_free _ _ _ _ _ _ _ _ Hi Hstep) as (h1 & h2 & mem' & Hrel & Hun & Hdel & Ht & _).
    rewrite Hrel in Hrun. cbn [mbind result_bind] in Hrun. rewrite Hun in Hrun.
    cbn [mbind result_bind] in Hrun. rewrite Hdel in Hrun. cbn [mbind result_bind] in Hrun.
    inv_ok. split; [done|]. eexists. exact Ht.
  - split; [done|]. exists l. destruct Hi as [Hp Hwf Hmem]. split; [done| |done].
    destruct Hwf. by split.
  - split; [done|]. exists l. destruct Hi as [Hp Hwf Hmem]. split; [|done|done].
    eapply pool_frame; [done|]. auto.
Qed.
End WithMappings.

(** ** The properties of the FIFO policy *)

(** C18: a touch of segment [index] makes it the newest element and evicts, from the
    oldest on, exactly the segments needed to come back under the dynamic limit:
    the tracked elements split into the kept prefix and the evicted suffix, what is
    kept fits, each evicted segment was over the limit when it was evicted, and the
    counter is again the memory of what is kept.  The loop always ends; when it
    would have to evict 128 segments or more the library stops instead. *)
Theorem fifo_notifyTouch_evicts_oldest getSegmentSize h p l mapping st index fuel :
  fifo_inv getSegmentSize h p l →
  getStorageInfo (base p) mapping = Ok st → 0 ≤ index < elementCount st →
  0 ≤ dynamicMaxMemory (base p) → (S (length l) < fuel)%nat →
  let e := element st index in
  let mem := mem_of getSegmentSize (base p) in
  let max := dynamicMaxMemory (base p) in
  let ks := kept_of (elt_size getSegmentSize (base p)) max 0 (e :: without e l) in
  let vs := victims_of (elt_size getSegmentSize (base p)) max 0 (e :: without e l) in
  e :: without e l = ks ++ reverse vs ∧ mem ks ≤ max ∧
  (∀ v1 x v2, vs = v1 ++ x :: v2 → max < mem (x :: v2 ++ ks)) ∧
  (if decide (Z.of_nat (length vs) < maxIdsToEvict)
   then ∃ h' p', notifyTouch getSegmentSize fuel h p mapping index =
            Ok (h', p', mkTouched (elt_segment (base p) <$> vs)
                          (bool_decide (e ∉ l)) (currentMemory p)) ∧
          fifo_inv getSegmentSize h' p' ks ∧
          currentMemory p' = mem ks ∧ base p' = base p
   else notifyTouch getSegmentSize fuel h p mapping index = Err tooMany).
Proof.
  intros Hi Hst Hix Hmax Hfuel e mem max ks vs.
  pose proof (fifo_touch_run _ h p l mapping st index fuel Hi Hst Hix Hmax Hfuel) as Hrun.
  pose proof (kept_victims (elt_size getSegmentSize (base p)) max 0 (e :: without e l) Hmax)
    as (Hsplit & Hfit & Hmin).
  cbv zeta in Hrun. fold e max in Hrun. fold ks vs in Hrun.
  split; [exact Hsplit|]. split; [exact Hfit|]. split; [exact Hmin|].
  destruct (decide _); [|done]. destruct Hrun as (h' & p' & Hrun & Hb & _ & Hi' & _).
  exists h', p'. split; [done|]. split; [done|]. split; [|done].
  rewrite (tr_mem _ _ _ _ _ _ Hi'), Hb. done.
Qed.

(** C20: whatever a FIFO policy goes through (registrations, touches, evictions
    requested by the other policy, shrinking, limit changes, unregistrations), its
    ring stays a well formed list of registered elements without repetition, the
    elements outside it are alone, and the memory counter is the total segment size
    of the listed elements, with no wrap-around. *)
Theorem fifo_reachable_invariant getSegmentSize h p :
  fifo_reach getSegmentSize h p →
  ∃ l, fifo_inv getSegmentSize h p l ∧
    getCurrentMemory p = mem_of getSegmentSize (base p) l ∧
    0 ≤ getCurrentMemory p < SIZE_MOD.
Proof.
  intros [_ [l Hi]]%fifo_reach_ok. exists l. split; [done|].
  split; [apply Hi|by eapply tracked_bound].
Qed.

(** ** A concrete policy

    Mapping 7 with three segments of one page, a limit of two pages, segments 0 and
    1 touched in this order. *)
Section Demo.
Definition demo_size (m : Z) : Z := 4096.
Definition demo_new : heap * FifoPolicy := newFifoPolicy ∅ 100 108 8192 true.
Definition demo_run (ids : list Z) : result (heap * FifoPolicy) :=
  '(h, p) ← allocateElementStorage demo_size (fst demo_new) (snd demo_new) 7 3 1024;
  foldM (λ '(h, p) i, '(h', p', _) ← notifyTouch demo_size 10 h p 7 i; Ok (h', p')) (h, p) ids.
Definition demo_state : heap * FifoPolicy :=
  match demo_run [0; 1] with Ok s => s | Err _ => demo_new end.
Definition demo_storage : PolicyStorage := mkStorage 7 1024 3 16 0.

Lemma fifo_demo_inv : fifo_inv demo_size (fst demo_state) (snd demo_state) [1040; 1024].
Proof.
  split.
  - apply (pool_intro _ _ [1024; 1040; 1056]); apply (bool_decide_unpack _); vm_compute; exact I.
  - eapply (wf_single _ _ demo_storage); [reflexivity|by split|reflexivity].
  - reflexivity.
Qed.
End Demo.

Lemma fifo_notifyTouch_evicts_oldest_witness :
  ∃ h' p', notifyTouch demo_size 10 (fst demo_state) (snd demo_state) 7 2 =
      Ok (h', p', mkTouched [(7, 0)] true 8192) ∧
    fifo_inv demo_size h' p' [1056; 1040].
Proof.
  pose proof (fifo_notifyTouch_evicts_oldest demo_size (fst demo_state) (snd demo_state)
    [1040; 1024] 7 demo_storage 2 10 fifo_demo_inv) as H. cbv zeta in H.
  assert (Hk : kept_of (elt_size demo_size (base (snd demo_state)))
            (dynamicMaxMemory (base (snd demo_state))) 0
            (element demo_storage 2 :: without (element demo_storage 2) [1040; 1024]) = [1056; 1040])
    by (vm_compute; reflexivity).
  assert (Hv : elt_segment (base (snd demo_state)) <$>
            victims_of (elt_size demo_size (base (snd demo_state)))
              (dynamicMaxMemory (base (snd demo_state))) 0
              (element demo_storage 2 :: without (element demo_storage 2) [1040; 1024]) = [(7, 0)])
    by (vm_compute; reflexivity).
  rewrite Hk, Hv in H. rewrite decide_True in H by (vm_compute; reflexivity).
  destruct H as (_ & _ & _ & h' & p' & Hrun & Hi' & _).
  - vm_compute. reflexivity.
  - vm_compute. intuition congruence.
  - vm_compute. congruence.
  - cbn. lia.
  - exists h', p'. split; [|exact Hi']. etransitivity; [exact Hrun|].
    do 3 f_equal; vm_compute; reflexivity.
Defined.

Lemma fifo_reachable_invariant_witness :
  ∃ l, fifo_inv demo_size (fst demo_new) (snd demo_new) l.
Proof.
  destruct (fifo_reachable_invariant demo_size (fst demo_new) (snd demo_new)) as (l & Hl & _).
  - eapply fr_new; [|reflexivity]. lia.
  - exists l. exact Hl.
Defined.
