(* ===== verification/LifoPolicy.v ===== *)
(** * The LIFO policy (src/src/policies/LifoPolicy.cpp)

    Touched segments enter the ring before the root, the end that is also evicted.
    [notifyTouch] runs the eviction loop while the touched segment is counted but
    not in the ring, so the segment itself is never evicted by its own touch.  The
    local variable [isFirstAccess] of the critical section shadows the one the quota
    notification reads, which therefore stays [false]. *)

From S2P Require Import Prelude ListElement EraseLoop Policy.

Record LifoPolicy := mkLifo {
  base : Policy;
  root : Z;
  currentMemory : Z;
}.

Definition newLifoPolicy (h : heap) (this rootAddr maxMemory : Z) (local : bool)
    : heap * LifoPolicy :=
  (newElement h rootAddr, mkLifo (newPolicy this maxMemory local) rootAddr 0).

Definition getCurrentMemory (p : LifoPolicy) : Z := currentMemory p.

Section WithMappings.
Context (getSegmentSize : Z → Z).

Definition allocateElementStorage (h : heap) (p : LifoPolicy) (mapping segmentCount elts : Z)
    : result (heap * LifoPolicy) :=
  let h' := newElements h elts segmentCount in
  b ← registerMapping getSegmentSize (base p) mapping elts segmentCount sizeof_ListElement 0;
  Ok (h', mkLifo b (root p) (currentMemory p)).

Definition freeElementStorage (h : heap) (p : LifoPolicy) (mapping : Z)
    : result (heap * LifoPolicy) :=
  storage ← getStorageInfo (base p) mapping;
  '(h1, mem) ← releaseElements getSegmentSize h (currentMemory p) mapping storage
                 (seqZ 0 (elementCount storage));
  b ← unregisterMapping (base p) mapping;
  h2 ← deleteElements h1 (elements storage) (elementCount storage);
  Ok (h2, mkLifo b (root p) mem).

(** The critical section of [notifyTouch]. *)
Definition notifyTouch (fuel : nat) (h : heap) (p : LifoPolicy) (mapping index : Z)
    : result (heap * LifoPolicy * Touched) :=
  (* bool isFirstAccess = false; (the outer variable) *)
  let outerIsFirstAccess := false in
  let memOrig := getCurrentMemory p in
  storage ← getStorageInfo (base p) mapping;
  let cur := element storage index in
  (* bool isFirstAccess = cur.isAlone(); (a new variable) *)
  isFirstAccess ← isAlone h cur;
  h1 ← removeFromList h cur;
  let mem := if isFirstAccess : bool then currentMemory p ⊕ getSegmentSize mapping
             else currentMemory p in
  '(h2, mem', out) ← evictLoop getSegmentSize fuel (base p) (root p)
                       (dynamicMaxMemory (base p)) h1 mem [];
  h3 ← insertBefore h2 (root p) cur;
  Ok (h3, mkLifo (base p) (root p) mem', mkTouched out outerIsFirstAccess memOrig).

Definition notifyEvict (h : heap) (p : LifoPolicy) (mapping index : Z)
    : result (heap * LifoPolicy) :=
  storage ← getStorageInfo (base p) mapping;
  let cur := element storage index in
  inList ← isInList h cur;
  cassert inList "cur.isInList()";;
  let mem := currentMemory p ⊖ getSegmentSize mapping in
  cassert (0 <=? mem) "this->currentMemory >= 0";;
  h' ← removeFromList h cur;
  Ok (h', mkLifo (base p) (root p) mem).

(** The critical section of [shrinkMemory]. *)
Definition shrinkMemory (fuel : nat) (h : heap) (p : LifoPolicy)
    : result (heap * LifoPolicy * list (Z * Z)) :=
  '(h', mem', out) ← evictLoop getSegmentSize fuel (base p) (root p)
                       (dynamicMaxMemory (base p)) h (currentMemory p) [];
  Ok (h', mkLifo (base p) (root p) mem', out).

(** ** Invariant *)

Definition lifo_inv (h : heap) (p : LifoPolicy) (l : list Z) : Prop :=
  tracked getSegmentSize (base p) (root p) (currentMemory p) h l.

Abbreviation sz p := (elt_size getSegmentSize (base p)).

(** Before the eviction loop: the element is out of the ring and counted. *)
Lemma lifo_touch_prepare h p l st index :
  lifo_inv h p l → st ∈ storageRegistry (base p) → 0 ≤ index < elementCount st →
  let e := element st index in
  let mem := if bool_decide (e ∉ l) then currentMemory p ⊕ getSegmentSize (ps_mapping st)
             else currentMemory p in
  ∃ h1, isAlone h e = Ok (bool_decide (e ∉ l)) ∧ removeFromList h e = Ok h1 ∧
    pool h1 (root p) (λ e, e ∈ all_elems (base p)) (without e l) ∧
    mem = sz p e + mem_of getSegmentSize (base p) (without e l) ∧ mem < SIZE_MOD ∧
    ∀ x, x ∉ all_elems (base p) → x ≠ root p → h1 !! x = h !! x.
Proof.
  intros Hi Hst Hix e mem. assert (He : e ∈ all_elems (base p)) by (by apply element_in).
  pose proof (tr_wf _ _ _ _ _ _ Hi) as Hwf.
  destruct (tracked_remove _ _ _ _ _ _ Hi e He) as (h1 & Hal & _ & Hrm & Ht1 & Hf1).
  exists h1. do 2 (split; [done|]). split; [apply Ht1|].
  assert (Hse : sz p e = getSegmentSize (ps_mapping st)) by (by apply elt_size_element).
  assert (Hlt : sz p e + mem_of getSegmentSize (base p) (without e l) < SIZE_MOD).
  { change (mem_of getSegmentSize (base p) (e :: without e l) < SIZE_MOD).
    apply mem_of_bound; [done| |].
    - apply NoDup_cons. split; [rewrite elem_of_without; tauto|by eapply tracked_NoDup].
    - intros x [->|Hx]%elem_of_cons; [done|by eapply tracked_in]. }
  pose proof (elt_size_pos _ _ Hwf e He) as Hpos.
  pose proof (tracked_bound _ _ _ _ _ _ Hi) as Hb.
  pose proof (tr_mem _ _ _ _ _ _ Ht1) as Hm1.
  assert (mem = sz p e + mem_of getSegmentSize (base p) (without e l)) as ->.
  { subst mem. destruct (decide (e ∈ l)) as [Hin|Hin].
    - rewrite bool_decide_eq_true_2 in Hm1 by done. rewrite bool_decide_eq_false_2 by tauto. lia.
    - rewrite bool_decide_eq_false_2 in Hm1 by done. rewrite bool_decide_eq_true_2 by done.
      rewrite <- Hse, size_add; lia. }
  done.
Qed.

Lemma lifo_touch_run h p l mapping st index fuel :
  lifo_inv h p l → getStorageInfo (base p) mapping = Ok st → 0 ≤ index < elementCount st →
  getSegmentSize mapping ≤ dynamicMaxMemory (base p) → (length l < fuel)%nat →
  let e := element st index in
  let ks := kept_of (sz p) (dynamicMaxMemory (base p)) (sz p e) (without e l) in
  let vs := victims_of (sz p) (dynamicMaxMemory (base p)) (sz p e) (without e l) in
  if decide (Z.of_nat (length vs) < maxIdsToEvict)
  then ∃ h' p', notifyTouch fuel h p mapping index =
           Ok (h', p', mkTouched (elt_segment (base p) <$> vs) false (currentMemory p)) ∧
         base p' = base p ∧ root p' = root p ∧ lifo_inv h' p' (ks ++ [e]) ∧
         currentMemory p' ≤ dynamicMaxMemory (base p) ∧
         ∀ x, x ∉ all_elems (base p) → x ≠ root p → h' !! x = h !! x
  else notifyTouch fuel h p mapping index = Err tooMany.
Proof.
  intros Hi Hst Hix Hmax Hfuel e ks vs.
  apply getStorageInfo_inv in Hst as Hst'. destruct Hst' as [Hin <-].
  pose proof (tr_wf _ _ _ _ _ _ Hi) as Hwf.
  assert (He : e ∈ all_elems (base p)) by (by apply element_in).
  destruct (lifo_touch_prepare h p l st index Hi Hin Hix)
    as (h1 & Hal & Hrm & Hp1 & Hmem & Hlt & Hfr). fold e in Hal, Hrm, Hp1, Hmem, Hlt.
  assert (Hse : sz p e = getSegmentSize (ps_mapping st)) by (by apply elt_size_element).
  pose proof (elt_size_pos _ _ Hwf e He) as Hpos.
  pose proof (evictLoop_list getSegmentSize (base p) Hwf (root p) (dynamicMaxMemory (base p))
    (sz p e) ltac:(lia) _ (λ e H, H) (without e l) fuel h1 _ Hp1 Hmem Hlt) as Hloop.
  cbv zeta in Hloop. fold ks vs in Hloop.
  specialize (Hloop ltac:(pose proof (length_without e l); lia)).
  unfold notifyTouch. rewrite Hst. cbn [mbind result_bind]. fold e. rewrite Hal.
  cbn [mbind result_bind]. rewrite Hrm. cbn [mbind result_bind].
  destruct (decide (Z.of_nat (length vs) < maxIdsToEvict)); [|by rewrite Hloop].
  destruct Hloop as (h2 & -> & Hp2 & Hfr2). cbn [mbind result_bind].
  destruct (kept_victims (sz p) (dynamicMaxMemory (base p)) (sz p e) (without e l))
    as (Hsplit & Hfit & _); [lia|]. fold ks vs in Hsplit, Hfit.
  assert (Hnotin : e ∉ ks).
  { intros Hk. assert (e ∈ without e l) as H%elem_of_without
      by (rewrite Hsplit; apply elem_of_app; by left). tauto. }
  destruct (pool_insertBefore _ _ _ _ e Hp2 He Hnotin) as (h3 & -> & Hp3 & Hfr3).
  cbn [mbind result_bind]. eexists h3, _. split; [done|]. do 2 (split; [done|]).
  split; [split; [exact Hp3|done|]|].
  - cbn. unfold mem_of. rewrite sumZ_app. cbn [sumZ]. lia.
  - split; [exact Hfit|]. intros x Hx Hxr. by rewrite Hfr3, Hfr2, Hfr.
Qed.

Lemma lifo_shrink_run h p l fuel :
  lifo_inv h p l → 0 ≤ dynamicMaxMemory (base p) → (length l < fuel)%nat →
  let ks := kept_of (sz p) (dynamicMaxMemory (base p)) 0 l in
  let vs := victims_of (sz p) (dynamicMaxMemory (base p)) 0 l in
  if decide (Z.of_nat (length vs) < maxIdsToEvict)
  then ∃ h' p', shrinkMemory fuel h p = Ok (h', p', elt_segment (base p) <$> vs) ∧
         base p' = base p ∧ root p' = root p ∧ lifo_inv h' p' ks ∧
         currentMemory p' ≤ dynamicMaxMemory (base p) ∧
         ∀ x, x ∉ all_elems (base p) → x ≠ root p → h' !! x = h !! x
  else shrinkMemory fuel h p = Err tooMany.
Proof.
  intros Hi Hmax Hf ks vs.
  pose proof (tracked_shrink _ _ _ _ _ _ Hi (dynamicMaxMemory (base p)) fuel Hmax Hf) as Hloop.
  cbv zeta in Hloop. fold ks vs in Hloop. unfold shrinkMemory.
  destruct (decide (Z.of_nat (length vs) < maxIdsToEvict)); [|by rewrite Hloop].
  destruct Hloop as (h' & mem' & -> & Ht' & Hle & Hfr'). cbn [mbind result_bind].
  eexists h', _. split; [done|]. done.
Qed.
End WithMappings.

(** ** The properties of the LIFO policy *)

(** C22: a touch under a limit of at least one segment keeps the touched segment as
    the newest element and evicts the most recently inserted other segments, no
    more than needed, so that what is tracked fits in the limit; the counter is the
    memory of the tracked segments; with 128 evictions or more the library stops. *)
Theorem lifo_notifyTouch_evicts_newest getSegmentSize h p l mapping st index fuel :
  lifo_inv getSegmentSize h p l →
  getStorageInfo (base p) mapping = Ok st → 0 ≤ index < elementCount st →
  getSegmentSize mapping ≤ dynamicMaxMemory (base p) → (length l < fuel)%nat →
  let e := element st index in
  let sz := elt_size getSegmentSize (base p) in
  let max := dynamicMaxMemory (base p) in
  let ks := kept_of sz max (sz e) (without e l) in
  let vs := victims_of sz max (sz e) (without e l) in
  without e l = ks ++ reverse vs ∧ sumZ sz (ks ++ [e]) ≤ max ∧
  (∀ v1 x v2, vs = v1 ++ x :: v2 → max < sz e + sumZ sz (x :: v2 ++ ks)) ∧
  (if decide (Z.of_nat (length vs) < maxIdsToEvict)
   then ∃ h' p', notifyTouch getSegmentSize fuel h p mapping index =
            Ok (h', p', mkTouched (elt_segment (base p) <$> vs) false (currentMemory p)) ∧
          lifo_inv getSegmentSize h' p' (ks ++ [e]) ∧
          currentMemory p' = sumZ sz (ks ++ [e]) ∧ base p' = base p
   else notifyTouch getSegmentSize fuel h p mapping index = Err tooMany).
Proof.
  intros Hi Hst Hix Hmax Hfuel e sz max ks vs.
  pose proof (lifo_touch_run _ h p l mapping st index fuel Hi Hst Hix Hmax Hfuel) as Hrun.
  apply getStorageInfo_inv in Hst as Hst'. destruct Hst' as [Hin <-].
  assert (Hse : sz e = getSegmentSize (ps_mapping st))
    by (apply elt_size_element; [apply Hi|done|done]).
  pose proof (kept_victims sz max (sz e) (without e l) ltac:(lia)) as (Hsplit & Hfit & Hmin).
  cbv zeta in Hrun. fold e sz max in Hrun. fold ks vs in Hrun.
  split; [exact Hsplit|]. split; [rewrite sumZ_app; cbn [sumZ]; fold ks in Hfit; lia|].
  split; [exact Hmin|].
  destruct (decide _); [|done]. destruct Hrun as (h' & p' & Hrun & Hb & _ & Hi' & _).
  exists h', p'. split; [done|]. split; [done|]. split; [|done].
  rewrite (tr_mem _ _ _ _ _ _ Hi'), Hb. done.
Qed.

(** C37: when a quota has lowered the limit below one segment, a touch of a LIFO policy
    never returns, whatever the policy tracks: the loop evicts everything but the touched
    segment, which is not in the list yet, and then spins for any number of iterations;
    with 128 other segments or more the library stops on the bound on victims before. *)
Theorem lifo_notifyTouch_diverges getSegmentSize h p l mapping st index fuel :
  lifo_inv getSegmentSize h p l →
  getStorageInfo (base p) mapping = Ok st → 0 ≤ index < elementCount st →
  dynamicMaxMemory (base p) < getSegmentSize mapping →
  let others := without (element st index) l in
  if decide (Z.of_nat (length others) < maxIdsToEvict)
  then notifyTouch getSegmentSize fuel h p mapping index = Err OutOfFuel
  else (length others ≤ fuel)%nat → notifyTouch getSegmentSize fuel h p mapping index = Err tooMany.
Proof.
  intros Hi Hst Hix Hmax others. apply getStorageInfo_inv in Hst as Hst'. destruct Hst' as [Hin <-].
  subst others. set (e := element st index).
  destruct (lifo_touch_prepare _ h p l st index Hi Hin Hix)
    as (h1 & Hal & Hrm & Hp1 & Hmem & Hlt & Hfr). fold e in Hal, Hrm, Hp1, Hmem, Hlt.
  assert (Hse : elt_size getSegmentSize (base p) e = getSegmentSize (ps_mapping st))
    by (apply elt_size_element; [apply Hi|done|done]).
  pose proof (wfs_segment _ _ (wfr_storage _ _ (tr_wf _ _ _ _ _ _ Hi) st Hin)) as Hpos.
  unfold notifyTouch. rewrite Hst. cbn [mbind result_bind]. fold e. rewrite Hal.
  cbn [mbind result_bind]. rewrite Hrm. cbn [mbind result_bind]. rewrite Hmem.
  rewrite <- (reverse_involutive (without e l)) in Hp1.
  pose proof (evictLoop_drains getSegmentSize (base p) (root p) (dynamicMaxMemory (base p))
    (elt_size getSegmentSize (base p) e) _ (reverse (without e l)) (tr_wf _ _ _ _ _ _ Hi) (λ e H, H)
    ltac:(lia) ltac:(lia) fuel h1 [] Hp1) as Hloop.
  assert (Hrev : sumZ (elt_size getSegmentSize (base p)) (reverse (without e l)) =
    mem_of getSegmentSize (base p) (without e l)) by (unfold mem_of; by rewrite reverse_Permutation).
  unfold mem_of in Hrev, Hlt, Hmem |- *. rewrite Hrev in Hloop. rewrite Hmem in Hlt. specialize (Hloop Hlt).
  rewrite length_reverse in Hloop. cbn [length plus] in Hloop.
  case_decide; [by rewrite Hloop|]. intros Hf. rewrite Hloop; [done|done|done].
Qed.

(** ** A concrete policy *)
Section Demo.
Definition demo_size (m : Z) : Z := 4096.
Definition demo_new : heap * LifoPolicy := newLifoPolicy ∅ 100 108 8192 true.
Definition demo_run (ids : list Z) : result (heap * LifoPolicy) :=
  '(h, p) ← allocateElementStorage demo_size (fst demo_new) (snd demo_new) 7 3 1024;
  foldM (λ '(h, p) i, '(h', p', _) ← notifyTouch demo_size 10 h p 7 i; Ok (h', p')) (h, p) ids.
Definition demo_state (ids : list Z) : heap * LifoPolicy :=
  match demo_run ids with Ok s => s | Err _ => demo_new end.
Definition demo_storage : PolicyStorage := mkStorage 7 1024 3 16 0.
(** The policy with two segments, after a quota set its limit to one byte less than one. *)
Definition demo_limited : LifoPolicy :=
  mkLifo (setDynamicMaxMemory (base (snd (demo_state [0; 1]))) 4095) 108 8192.

Lemma lifo_demo_inv :
  lifo_inv demo_size (fst (demo_state [0; 1])) (snd (demo_state [0; 1])) [1024; 1040].
Proof.
  split.
  - apply (pool_intro _ _ [1024; 1040; 1056]); apply (bool_decide_unpack _); vm_compute; exact I.
  - eapply (wf_single _ _ demo_storage); [reflexivity|by split|reflexivity].
  - reflexivity.
Qed.

Lemma lifo_demo_limited : lifo_inv demo_size (fst (demo_state [0; 1])) demo_limited [1024; 1040].
Proof.
  split.
  - apply (pool_intro _ _ [1024; 1040; 1056]); apply (bool_decide_unpack _); vm_compute; exact I.
  - eapply (wf_single _ _ demo_storage); [reflexivity|by split|reflexivity].
  - reflexivity.
Qed.
End Demo.

Lemma lifo_notifyTouch_evicts_newest_witness :
  ∃ h' p', notifyTouch demo_size 10 (fst (demo_state [0; 1])) (snd (demo_state [0; 1])) 7 2 =
      Ok (h', p', mkTouched [(7, 1)] false 8192) ∧ lifo_inv demo_size h' p' [1024; 1056].
Proof.
  pose proof (lifo_notifyTouch_evicts_newest demo_size _ _ _ 7 demo_storage 2 10 lifo_demo_inv) as H.
  cbv zeta in H. set (p := snd (demo_state [0; 1])) in *. set (e := element demo_storage 2) in *.
  assert (Hk : kept_of (elt_size demo_size (base p)) (dynamicMaxMemory (base p))
            (elt_size demo_size (base p) e) (without e [1024; 1040]) ++ [e] = [1024; 1056])
    by (vm_compute; reflexivity).
  assert (Hv : elt_segment (base p) <$> victims_of (elt_size demo_size (base p))
            (dynamicMaxMemory (base p)) (elt_size demo_size (base p) e)
            (without e [1024; 1040]) = [(7, 1)])
    by (vm_compute; reflexivity).
  rewrite Hk, Hv in H. rewrite decide_True in H by (vm_compute; reflexivity).
  destruct H as (_ & _ & _ & h' & p' & Hrun & Hi' & _).
  - vm_compute. reflexivity.
  - vm_compute. intuition congruence.
  - vm_compute. congruence.
  - cbn. lia.
  - exists h', p'. split; [exact Hrun|exact Hi'].
Defined.

Lemma lifo_notifyTouch_diverges_witness :
  notifyTouch demo_size 1000 (fst (demo_state [0; 1])) demo_limited 7 2 = Err OutOfFuel.
Proof.
  pose proof (lifo_notifyTouch_diverges demo_size _ _ _ 7 demo_storage 2 1000 lifo_demo_limited) as H.
  cbv zeta in H. rewrite decide_True in H by (vm_compute; reflexivity). apply H.
  - vm_compute. reflexivity.
  - vm_compute. intuition congruence.
  - vm_compute. reflexivity.
Defined.
