(* ===== verification/FifoWindowPolicy.v ===== *)
(** * The FIFO window policy (src/src/policies/FifoWindowPolicy.cpp)

    Two rings: segments enter the fixed window while it is not full, and are then
    left there; the others enter the sliding window, a FIFO.  The array of booleans
    [extraInfos] of each mapping records the ring of its segments; [infos] is the
    memory these pointers name. *)

From S2P Require Import Prelude ListElement EraseLoop Policy.

Record FifoWindowPolicy := mkWindow {
  base : Policy;
  rootFixedWindow : Z;
  rootSlidingWindow : Z;
  currentFixedMemory : Z;
  currentSlidingWindowMemory : Z;
  maxSlidingMemory : Z;
  maxFixedMemory : Z;
  infos : gmap Z (list bool);
}.

Definition newFifoWindowPolicy (h : heap) (this rootFixed rootSliding maxMemory maxSlidingMemory : Z)
    (local : bool) : heap * FifoWindowPolicy :=
  (newElement (newElement h rootFixed) rootSliding,
   mkWindow (newPolicy this maxMemory local) rootFixed rootSliding 0 0
     maxSlidingMemory (maxMemory ⊖ maxSlidingMemory) ∅).

Definition getCurrentMemory (p : FifoWindowPolicy) : Z :=
  currentSlidingWindowMemory p ⊕ currentFixedMemory p.

Definition set_state (p : FifoWindowPolicy) (b : Policy) (fixed sliding : Z)
    (i : gmap Z (list bool)) : FifoWindowPolicy :=
  mkWindow b (rootFixedWindow p) (rootSlidingWindow p) fixed sliding
    (maxSlidingMemory p) (maxFixedMemory p) i.

(** [isFixedMemory[index]] of a storage. *)
Definition isFixedMemory (p : FifoWindowPolicy) (storage : PolicyStorage) (index : Z) : result bool :=
  flags ← deref (infos p !! extraInfos storage);
  deref (flags !! Z.to_nat index).

(** ** Two rings over the same elements *)

(** The elements [A] are split between the rings [l1] of [r1] and [l2] of [r2]. *)
Record two_rings (h : heap) (A : Z → Prop) (r1 r2 : Z) (l1 l2 : list Z) : Prop := {
  tw_1 : pool h r1 (λ e, A e ∧ e ∉ l2) l1;
  tw_2 : pool h r2 (λ e, A e ∧ e ∉ l1) l2;
  tw_roots : r1 ≠ r2 ∧ ¬ A r1 ∧ ¬ A r2;
}.

Lemma two_rings_sym h A r1 r2 l1 l2 : two_rings h A r1 r2 l1 l2 → two_rings h A r2 r1 l2 l1.
Proof. intros [H1 H2 (Hne & Ha & Hb)]. split; [done|done|]. by split. Qed.

(** A change of the first ring leaves the second one as it is. *)
Lemma two_rings_change h h' A r1 r2 l1 l1' l2 :
  two_rings h A r1 r2 l1 l2 → pool h' r1 (λ e, A e ∧ e ∉ l2) l1' →
  (∀ x, ¬ (A x ∧ x ∉ l2) → x ≠ r1 → h' !! x = h !! x) →
  two_rings h' A r1 r2 l1' l2.
Proof.
  intros [_ (Hr2 & _ & HlE & _) (Hne & Ha & Hb)] Hp1 Hfr.
  pose proof Hp1 as (_ & _ & HlE1 & Hal1). split; [done| |done]. split.
  - eapply ring_frame; [|exact Hr2]. intros p [->|Hp]%elem_of_cons; apply Hfr; [tauto|done|tauto|].
    intros ->. by destruct (HlE _ Hp).
  - split; [tauto|]. split.
    + intros e He. destruct (HlE e He) as [HA _]. split; [done|]. intros H1.
      by destruct (HlE1 e H1).
    + intros e [HA He1] He2. by apply Hal1.
Qed.

Lemma two_rings_disjoint h A r1 r2 l1 l2 e : two_rings h A r1 r2 l1 l2 → e ∈ l1 → e ∉ l2.
Proof. intros [(_ & _ & HlE & _) _ _] He. by destruct (HlE e He). Qed.

Lemma two_rings_outside h A r1 r2 l1 l2 e :
  two_rings h A r1 r2 l1 l2 → A e → e ∉ l1 → e ∉ l2 → alone h e.
Proof. intros [(_ & _ & _ & Hal) _ _] HA H1 H2. by apply Hal. Qed.

Lemma two_rings_remove_first h A r1 r2 l1 l2 e :
  two_rings h A r1 r2 l1 l2 → A e → e ∉ l2 →
  ∃ h', isAlone h e = Ok (bool_decide (e ∉ l1)) ∧ isInList h e = Ok (bool_decide (e ∈ l1)) ∧
    removeFromList h e = Ok h' ∧ two_rings h' A r1 r2 (without e l1) l2 ∧
    ∀ x, ¬ A x → x ≠ r1 → x ≠ r2 → h' !! x = h !! x.
Proof.
  intros Ht HA H2. pose proof Ht as [Hp1 _ _].
  destruct (pool_remove _ _ _ _ e Hp1 (conj HA H2)) as (h' & Hrm & Hp' & Hfr).
  exists h'. split; [by eapply pool_isAlone|]. split; [by eapply pool_isInList|]. split; [done|].
  split; [by eapply two_rings_change|]. intros x Hx Hx1 _. apply Hfr; tauto.
Qed.

(** Removing an element from the ring it is in, if any. *)
Lemma two_rings_remove h A r1 r2 l1 l2 e :
  two_rings h A r1 r2 l1 l2 → A e →
  ∃ h', isAlone h e = Ok (bool_decide (e ∉ l1 ++ l2)) ∧
    isInList h e = Ok (bool_decide (e ∈ l1 ++ l2)) ∧
    removeFromList h e = Ok h' ∧ two_rings h' A r1 r2 (without e l1) (without e l2) ∧
    ∀ x, ¬ A x → x ≠ r1 → x ≠ r2 → h' !! x = h !! x.
Proof.
  intros Ht HA. destruct (decide (e ∈ l2)) as [H2|H2].
  - assert (H1 : e ∉ l1) by (intros H1; by eapply two_rings_disjoint).
    destruct (two_rings_remove_first _ _ _ _ _ _ e (two_rings_sym _ _ _ _ _ _ Ht) HA H1)
      as (h' & Hal & Hin & Hrm & Ht' & Hfr). exists h'. rewrite (without_notin e l1) by done.
    split; [rewrite Hal; f_equal; apply bool_decide_ext; rewrite elem_of_app; tauto|].
    split; [rewrite Hin; f_equal; apply bool_decide_ext; rewrite elem_of_app; tauto|].
    split; [done|]. split; [by apply two_rings_sym|auto].
  - destruct (two_rings_remove_first _ _ _ _ _ _ e Ht HA H2) as (h' & Hal & Hin & Hrm & Ht' & Hfr).
    exists h'. rewrite (without_notin e l2) by done.
    split; [rewrite Hal; f_equal; apply bool_decide_ext; rewrite elem_of_app; tauto|].
    split; [rewrite Hin; f_equal; apply bool_decide_ext; rewrite elem_of_app; tauto|]. done.
Qed.

Lemma two_rings_insert h A r1 r2 l1 l2 e :
  two_rings h A r1 r2 l1 l2 → A e → e ∉ l1 → e ∉ l2 →
  ∃ h', insertAfter h r1 e = Ok h' ∧ two_rings h' A r1 r2 (e :: l1) l2 ∧
    ∀ x, ¬ A x → x ≠ r1 → x ≠ r2 → h' !! x = h !! x.
Proof.
  intros Ht HA H1 H2. pose proof Ht as [Hp1 _ _].
  destruct (pool_insertAfter _ _ _ _ e Hp1 (conj HA H2) H1) as (h' & Hrun & Hp' & Hfr).
  exists h'. split; [done|]. split; [by eapply two_rings_change|]. intros x Hx Hx1 _. apply Hfr; tauto.
Qed.

Section WithMappings.
Context (getSegmentSize : Z → Z).

(** [elts] and [flags] are the addresses the two [new] return. *)
Definition allocateElementStorage (h : heap) (p : FifoWindowPolicy)
    (mapping segmentCount elts flags : Z) : result (heap * FifoWindowPolicy) :=
  let h' := newElements h elts segmentCount in
  let i' := <[flags := replicate (Z.to_nat segmentCount) false]> (infos p) in
  b ← registerMapping getSegmentSize (base p) mapping elts segmentCount sizeof_ListElement flags;
  Ok (h', set_state p b (currentFixedMemory p) (currentSlidingWindowMemory p) i').

Definition freeElementStorage (h : heap) (p : FifoWindowPolicy) (mapping : Z)
    : result (heap * FifoWindowPolicy) :=
  storage ← getStorageInfo (base p) mapping;
  '(h1, fixed, sliding) ←
    foldM (λ '(h, fixed, sliding) i,
      let cur := element storage i in
      inList ← isInList h cur;
      '(fixed', sliding') ←
        (if inList : bool then
           isFixed ← isFixedMemory p storage i;
           Ok (if isFixed : bool then (fixed ⊖ getSegmentSize mapping, sliding)
               else (fixed, sliding ⊖ getSegmentSize mapping))
         else Ok (fixed, sliding));
      h' ← removeFromList h cur;
      Ok (h', fixed', sliding'))
      (h, currentFixedMemory p, currentSlidingWindowMemory p) (seqZ 0 (elementCount storage));
  b ← unregisterMapping (base p) mapping;
  let i' := delete (extraInfos storage) (infos p) in
  h2 ← deleteElements h1 (elements storage) (elementCount storage);
  Ok (h2, set_state p b fixed sliding i').

(** The critical section of [notifyTouch]. *)
Definition notifyTouch (fuel : nat) (h : heap) (p : FifoWindowPolicy) (mapping index : Z)
    : result (heap * FifoWindowPolicy * Touched) :=
  let memOrig := getCurrentMemory p in
  storage ← getStorageInfo (base p) mapping;
  let cur := element storage index in
  isFirstAccess ← isAlone h cur;
  h1 ← removeFromList h cur;
  '(fixed, sliding) ←
    (if negb isFirstAccess then
       wasFixed ← isFixedMemory p storage index;
       if wasFixed : bool then
         let fixed := currentFixedMemory p ⊖ getSegmentSize mapping in
         cassert (0 <=? fixed) "this->currentFixedMemory >= 0";;
         Ok (fixed, currentSlidingWindowMemory p)
       else
         let sliding := currentSlidingWindowMemory p ⊖ getSegmentSize mapping in
         cassert (0 <=? sliding) "this->currentSlidingWindowMemory >= 0";;
         Ok (currentFixedMemory p, sliding)
     else Ok (currentFixedMemory p, currentSlidingWindowMemory p));
  let isFixed := fixed <? maxFixedMemory p in
  flags ← deref (infos p !! extraInfos storage);
  let i' := <[extraInfos storage := <[Z.to_nat index := isFixed]> flags]> (infos p) in
  '(h2, fixed', sliding') ←
    (if isFixed then
       h2 ← insertAfter h1 (rootFixedWindow p) cur;
       Ok (h2, fixed ⊕ getSegmentSize mapping, sliding)
     else
       h2 ← insertAfter h1 (rootSlidingWindow p) cur;
       Ok (h2, fixed, sliding ⊕ getSegmentSize mapping));
  '(h3, sliding'', out) ← evictLoop getSegmentSize fuel (base p) (rootSlidingWindow p)
                            (maxSlidingMemory p) h2 sliding' [];
  Ok (h3, set_state p (base p) fixed' sliding'' i', mkTouched out isFirstAccess memOrig).

Definition notifyEvict (h : heap) (p : FifoWindowPolicy) (mapping index : Z)
    : result (heap * FifoWindowPolicy) :=
  storage ← getStorageInfo (base p) mapping;
  let cur := element storage index in
  inList ← isInList h cur;
  cassert inList "cur.isInList()";;
  isFixed ← isFixedMemory p storage index;
  '(fixed, sliding) ←
    (if isFixed : bool then
       let fixed := currentFixedMemory p ⊖ getSegmentSize mapping in
       cassert (0 <=? fixed) "this->currentFixedMemory >= 0";;
       Ok (fixed, currentSlidingWindowMemory p)
     else
       let sliding := currentSlidingWindowMemory p ⊖ getSegmentSize mapping in
       cassert (0 <=? sliding) "this->currentSlidingWindowMemory >= 0";;
       Ok (currentFixedMemory p, sliding));
  h' ← removeFromList h cur;
  Ok (h', set_state p (base p) fixed sliding (infos p)).

(** The critical section of [shrinkMemory]: the dynamic limit is not used. *)
Definition shrinkMemory (fuel : nat) (h : heap) (p : FifoWindowPolicy)
    : result (heap * FifoWindowPolicy * list (Z * Z)) :=
  '(h', sliding, out) ← evictLoop getSegmentSize fuel (base p) (rootSlidingWindow p)
                          (maxSlidingMemory p) h (currentSlidingWindowMemory p) [];
  Ok (h', set_state p (base p) (currentFixedMemory p) sliding (infos p), out).

(** ** Invariant *)

(** What the arrays record of the two windows. *)
Definition flags_ok (p : FifoWindowPolicy) (l1 l2 : list Z) : Prop :=
  ∀ st, st ∈ storageRegistry (base p) → ∃ flags, infos p !! extraInfos st = Some flags ∧
    Z.of_nat (length flags) = elementCount st ∧
    ∀ i, 0 ≤ i < elementCount st →
      (element st i ∈ l1 → flags !! Z.to_nat i = Some true) ∧
      (element st i ∈ l2 → flags !! Z.to_nat i = Some false).

(** [l1] is the fixed window and [l2] the sliding one, newest first. *)
Record window_inv (h : heap) (p : FifoWindowPolicy) (l1 l2 : list Z) : Prop := {
  wi_rings : two_rings h (λ e, e ∈ all_elems (base p)) (rootFixedWindow p) (rootSlidingWindow p) l1 l2;
  wi_wf : wf_registry getSegmentSize (base p);
  wi_fixed : currentFixedMemory p = mem_of getSegmentSize (base p) l1;
  wi_sliding : currentSlidingWindowMemory p = mem_of getSegmentSize (base p) l2;
  wi_flags : flags_ok p l1 l2;
  wi_keys : NoDup (extraInfos <$> storageRegistry (base p));
}.

Abbreviation sz p := (elt_size getSegmentSize (base p)).

Section Inv.
Context (h : heap) (p : FifoWindowPolicy) (l1 l2 : list Z) (Hi : window_inv h p l1 l2).

Lemma window_elems : NoDup (l1 ++ l2) ∧ ∀ e, e ∈ l1 ++ l2 → e ∈ all_elems (base p).
Proof.
  pose proof (wi_rings _ _ _ _ Hi) as Ht. pose proof Ht as [Hp1 Hp2 _]. split.
  - apply NoDup_app. split; [by eapply pool_NoDup|]. split; [|by eapply pool_NoDup].
    intros e H1. by eapply two_rings_disjoint.
  - destruct Hp1 as (_ & _ & HE1 & _), Hp2 as (_ & _ & HE2 & _).
    intros e [He|He]%elem_of_app; [by apply HE1|by apply HE2].
Qed.

(** Neither the counters nor their sum wrap around. *)
Lemma window_bound :
  0 ≤ currentFixedMemory p ∧ 0 ≤ currentSlidingWindowMemory p ∧
  currentFixedMemory p + currentSlidingWindowMemory p < SIZE_MOD.
Proof.
  destruct window_elems as [Hnd Hin]. pose proof (wi_wf _ _ _ _ Hi) as Hwf.
  rewrite (wi_fixed _ _ _ _ Hi), (wi_sliding _ _ _ _ Hi).
  split; [apply mem_of_nonneg; [done|]; intros; apply Hin, elem_of_app; by left|].
  split; [apply mem_of_nonneg; [done|]; intros; apply Hin, elem_of_app; by right|].
  pose proof (mem_of_bound _ _ Hwf (l1 ++ l2) Hnd Hin) as Hb.
  unfold mem_of in *. by rewrite sumZ_app in Hb.
Qed.

Lemma window_mem_without e :
  e ∈ all_elems (base p) →
  mem_of getSegmentSize (base p) (without e l1) =
    (if bool_decide (e ∈ l1) then currentFixedMemory p - sz p e else currentFixedMemory p) ∧
  mem_of getSegmentSize (base p) (without e l2) =
    (if bool_decide (e ∈ l2) then currentSlidingWindowMemory p - sz p e
     else currentSlidingWindowMemory p).
Proof.
  intros He. destruct window_elems as [(Hn1 & _ & Hn2)%NoDup_app _].
  rewrite (wi_fixed _ _ _ _ Hi), (wi_sliding _ _ _ _ Hi). unfold mem_of.
  split; (case_bool_decide; [|by rewrite without_notin]).
  - rewrite <- (without_perm e l1) at 2 by done. cbn [sumZ]. lia.
  - rewrite <- (without_perm e l2) at 2 by done. cbn [sumZ]. lia.
Qed.

Lemma window_flag st index :
  st ∈ storageRegistry (base p) → 0 ≤ index < elementCount st →
  element st index ∈ l1 ++ l2 →
  isFixedMemory p st index = Ok (bool_decide (element st index ∈ l1)).
Proof.
  intros Hst Hix Hin. destruct (wi_flags _ _ _ _ Hi st Hst) as (flags & Hf & _ & Hfl).
  destruct (Hfl index Hix) as [Hf1 Hf2]. unfold isFixedMemory. rewrite Hf. cbn [deref mbind result_bind].
  case_bool_decide as H1; [by rewrite Hf1|].
  apply elem_of_app in Hin as [|Hin]; [done|]. by rewrite Hf2.
Qed.

(** Uncounting a tracked segment, as [notifyTouch] and [notifyEvict] do. *)
Lemma window_uncount st index :
  st ∈ storageRegistry (base p) → 0 ≤ index < elementCount st →
  let e := element st index in
  e ∈ l1 ++ l2 →
  (wasFixed ← isFixedMemory p st index;
   if wasFixed : bool then
     let fixed := currentFixedMemory p ⊖ getSegmentSize (ps_mapping st) in
     cassert (0 <=? fixed) "this->currentFixedMemory >= 0";;
     Ok (fixed, currentSlidingWindowMemory p)
   else
     let sliding := currentSlidingWindowMemory p ⊖ getSegmentSize (ps_mapping st) in
     cassert (0 <=? sliding) "this->currentSlidingWindowMemory >= 0";;
     Ok (currentFixedMemory p, sliding)) =
  Ok (mem_of getSegmentSize (base p) (without e l1), mem_of getSegmentSize (base p) (without e l2)).
Proof.
  intros Hst Hix e Hin. rewrite window_flag by done. fold e. cbn [mbind result_bind].
  pose proof (wi_wf _ _ _ _ Hi) as Hwf.
  assert (He : e ∈ all_elems (base p)) by (by apply element_in).
  assert (Hse : sz p e = getSegmentSize (ps_mapping st)) by (by apply elt_size_element).
  pose proof (elt_size_pos _ _ Hwf e He) as Hpos. pose proof window_bound as (Hb1 & Hb2 & Hb3).
  destruct (window_mem_without e He) as [Hm1 Hm2]. rewrite <- Hse.
  assert (Hnn : ∀ l, l = l1 ∨ l = l2 → 0 ≤ mem_of getSegmentSize (base p) (without e l)).
  { intros l Hl. apply mem_of_nonneg; [done|]. intros x [Hx _]%elem_of_without.
    apply window_elems, elem_of_app. destruct Hl as [-> | ->]; tauto. }
  pose proof (Hnn l1 ltac:(auto)) as Hnn1. pose proof (Hnn l2 ltac:(auto)) as Hnn2.
  destruct (decide (e ∈ l1)) as [H1|H1].
  - rewrite bool_decide_eq_true_2 in Hm1 |- * by done. rewrite bool_decide_eq_false_2 in Hm2
      by (eapply two_rings_disjoint; [apply (wi_rings _ _ _ _ Hi)|done]).
    rewrite size_sub by lia. rewrite <- Hm1, <- Hm2. cbv zeta.
    destruct (Z.leb_spec 0 (mem_of getSegmentSize (base p) (without e l1))); [done|lia].
  - apply elem_of_app in Hin as [|H2]; [done|].
    rewrite bool_decide_eq_false_2 in Hm1 |- * by done. rewrite bool_decide_eq_true_2 in Hm2 by done.
    rewrite size_sub by lia. rewrite <- Hm1, <- Hm2. cbv zeta.
    destruct (Z.leb_spec 0 (mem_of getSegmentSize (base p) (without e l2))); [done|lia].
Qed.

(** The arrays after a touch of [e = element st index]. *)
Lemma window_flags_touch st index (fx : bool) flags l1' l2' fixed sliding :
  st ∈ storageRegistry (base p) → 0 ≤ index < elementCount st →
  infos p !! extraInfos st = Some flags →
  let e := element st index in
  (∀ x, x ∈ l1' → x = e ∧ fx = true ∨ x ∈ l1 ∧ x ≠ e) →
  (∀ x, x ∈ l2' → x = e ∧ fx = false ∨ x ∈ l2 ∧ x ≠ e) →
  flags_ok (set_state p (base p) fixed sliding
    (<[extraInfos st := <[Z.to_nat index := fx]> flags]> (infos p))) l1' l2'.
Proof.
  intros Hst Hix Hf e Hl1 Hl2 st' Hst'. pose proof (wi_wf _ _ _ _ Hi) as Hwf.
  destruct (wi_flags _ _ _ _ Hi st Hst) as (flags0 & Hf0 & Hlen & Hfl).
  assert (flags0 = flags) as -> by congruence. cbn [base set_state infos] in *.
  assert (Heq : ∀ i, 0 ≤ i < elementCount st' → element st' i = e → st' = st ∧ i = index).
  { intros i Hi' Hel. pose proof (elt_segment_element _ _ Hwf st' i Hst' Hi') as Hs'.
    rewrite Hel in Hs'. unfold e in Hs'. rewrite (elt_segment_element _ _ Hwf st index Hst Hix) in Hs'.
    injection Hs' as Hm ->. split; [|done].
    eapply (NoDup_fmap_elem ps_mapping); [apply (wfr_keys _ _ Hwf)|done|done|done]. }
  destruct (decide (st' = st)) as [->|Hne].
  - rewrite lookup_insert_eq. eexists. split; [done|]. rewrite length_insert. split; [done|].
    intros i Hi'. destruct (decide (i = index)) as [->|Hni].
    + rewrite list_lookup_insert_eq by lia. fold e. split; intros Hin.
      * destruct (Hl1 _ Hin) as [[_ ->]|[_ ?]]; done.
      * destruct (Hl2 _ Hin) as [[_ ->]|[_ ?]]; done.
    + rewrite list_lookup_insert_ne by lia. destruct (Hfl i Hi') as [Hf1 Hf2].
      split; intros Hin; [destruct (Hl1 _ Hin) as [[He _]|[? _]]|destruct (Hl2 _ Hin) as [[He _]|[? _]]];
        [by destruct (Heq i Hi' He)|by apply Hf1|by destruct (Heq i Hi' He)|by apply Hf2].
  - rewrite lookup_insert_ne.
    2: { intros Hx. apply Hne. eapply (NoDup_fmap_elem extraInfos); [apply (wi_keys _ _ _ _ Hi)|done..]. }
    destruct (wi_flags _ _ _ _ Hi st' Hst') as (flags' & Hf' & Hlen' & Hfl').
    exists flags'. split; [done|]. split; [done|]. intros i Hi'. destruct (Hfl' i Hi') as [Hf1 Hf2].
    split; intros Hin; [destruct (Hl1 _ Hin) as [[He _]|[? _]]|destruct (Hl2 _ Hin) as [[He _]|[? _]]];
      [by destruct (Heq i Hi' He)|by apply Hf1|by destruct (Heq i Hi' He)|by apply Hf2].
Qed.

(** The eviction loop on the sliding window. *)
Lemma window_shrink_loop fuel :
  0 ≤ maxSlidingMemory p → (length l2 < fuel)%nat →
  let ks := kept_of (sz p) (maxSlidingMemory p) 0 l2 in
  let vs := victims_of (sz p) (maxSlidingMemory p) 0 l2 in
  if decide (Z.of_nat (length vs) < maxIdsToEvict)
  then ∃ h', evictLoop getSegmentSize fuel (base p) (rootSlidingWindow p) (maxSlidingMemory p) h
               (currentSlidingWindowMemory p) [] =
             Ok (h', mem_of getSegmentSize (base p) ks, elt_segment (base p) <$> vs) ∧
         window_inv h' (set_state p (base p) (currentFixedMemory p)
           (mem_of getSegmentSize (base p) ks) (infos p)) l1 ks ∧
         (∀ x, x ∉ all_elems (base p) → x ≠ rootFixedWindow p → x ≠ rootSlidingWindow p →
            h' !! x = h !! x)
  else evictLoop getSegmentSize fuel (base p) (rootSlidingWindow p) (maxSlidingMemory p) h
         (currentSlidingWindowMemory p) [] = Err tooMany.
Proof.
  intros Hmax Hf ks vs. pose proof Hi as [Ht Hwf Hm1 Hm2 Hfl Hk].
  pose proof window_bound as (Hb1 & Hb2 & Hb3).
  assert (HE : ∀ e, e ∈ all_elems (base p) ∧ e ∉ l1 → e ∈ all_elems (base p)) by tauto.
  pose proof (evictLoop_list getSegmentSize (base p) Hwf (rootSlidingWindow p) (maxSlidingMemory p)
    0 ltac:(lia) _ HE l2 fuel h _ (tw_2 _ _ _ _ _ _ Ht) Hm2 ltac:(lia) Hf) as Hloop.
  cbv zeta in Hloop. fold ks vs in Hloop. destruct (decide _); [|done].
  destruct Hloop as (h' & Hrun & Hp' & Hfr). exists h'. split; [exact Hrun|]. split.
  - split; cbn [base set_state currentFixedMemory currentSlidingWindowMemory]; try done.
    + apply two_rings_sym. eapply two_rings_change; [by apply two_rings_sym|exact Hp'|exact Hfr].
    + intros st Hst. destruct (Hfl st Hst) as (flags & H1 & H2 & H3). exists flags.
      do 2 (split; [done|]). intros i Hix. destruct (H3 i Hix) as [H4 H5]. split; [done|].
      intros Hin. apply H5. destruct (kept_victims (sz p) (maxSlidingMemory p) 0 l2 Hmax) as [-> _].
      apply elem_of_app. by left.
  - intros x Hx _ Hxs. apply Hfr; tauto.
Qed.

Lemma window_shrink_run fuel :
  0 ≤ maxSlidingMemory p → (length l2 < fuel)%nat →
  let ks := kept_of (sz p) (maxSlidingMemory p) 0 l2 in
  let vs := victims_of (sz p) (maxSlidingMemory p) 0 l2 in
  if decide (Z.of_nat (length vs) < maxIdsToEvict)
  then ∃ h' p', shrinkMemory fuel h p = Ok (h', p', elt_segment (base p) <$> vs) ∧
         base p' = base p ∧ window_inv h' p' l1 ks
  else shrinkMemory fuel h p = Err tooMany.
Proof.
  intros Hmax Hf ks vs. pose proof (window_shrink_loop fuel Hmax Hf) as Hloop. cbv zeta in Hloop.
  fold ks vs in Hloop. unfold shrinkMemory. destruct (decide _); [|by rewrite Hloop].
  destruct Hloop as (h' & -> & Hi' & _). cbn [mbind result_bind]. eexists _, _. done.
Qed.

Lemma window_evict_run mapping st index :
  getStorageInfo (base p) mapping = Ok st → 0 ≤ index < elementCount st →
  let e := element st index in
  if bool_decide (e ∈ l1 ++ l2)
  then ∃ h' p', notifyEvict h p mapping index = Ok (h', p') ∧ base p' = base p ∧
         window_inv h' p' (without e l1) (without e l2)
  else notifyEvict h p mapping index = Err (AssertFail "cur.isInList()").
Proof.
  intros Hst Hix e. apply getStorageInfo_inv in Hst as Hst'. destruct Hst' as [Hin <-].
  assert (He : e ∈ all_elems (base p)) by (by apply element_in).
  pose proof Hi as [Ht Hwf Hm1 Hm2 Hfl Hk].
  destruct (two_rings_remove _ _ _ _ _ _ e Ht He) as (h' & _ & Hil & Hrm & Ht' & _).
  unfold notifyEvict. rewrite Hst. cbn [mbind result_bind]. fold e. rewrite Hil.
  cbn [mbind result_bind]. case_bool_decide as Htr; [|done]. cbn [cassert mbind result_bind].
  pose proof (window_uncount st index Hin Hix Htr) as Hun. fold e in Hun.
  rewrite window_flag in Hun |- * by done. fold e in Hun |- *. cbn [mbind result_bind] in Hun |- *.
  rewrite Hun. cbn [mbind result_bind]. rewrite Hrm. cbn [mbind result_bind].
  eexists _, _. split; [done|]. split; [done|]. split; cbn; try done.
  intros st' Hst'. destruct (Hfl st' Hst') as (flags & H1 & H2 & H3). exists flags.
  do 2 (split; [done|]). intros i Hix'. destruct (H3 i Hix') as [H4 H5].
  rewrite !elem_of_without. tauto.
Qed.

(** The same, for a segment that may not be tracked. *)
Lemma window_untrack st index :
  st ∈ storageRegistry (base p) → 0 ≤ index < elementCount st →
  let e := element st index in
  (if negb (bool_decide (e ∉ l1 ++ l2)) then
     wasFixed ← isFixedMemory p st index;
     if wasFixed : bool then
       let fixed := currentFixedMemory p ⊖ getSegmentSize (ps_mapping st) in
       cassert (0 <=? fixed) "this->currentFixedMemory >= 0";;
       Ok (fixed, currentSlidingWindowMemory p)
     else
       let sliding := currentSlidingWindowMemory p ⊖ getSegmentSize (ps_mapping st) in
       cassert (0 <=? sliding) "this->currentSlidingWindowMemory >= 0";;
       Ok (currentFixedMemory p, sliding)
   else Ok (currentFixedMemory p, currentSlidingWindowMemory p)) =
  Ok (mem_of getSegmentSize (base p) (without e l1), mem_of getSegmentSize (base p) (without e l2)).
Proof.
  intros Hst Hix e. destruct (decide (e ∈ l1 ++ l2)) as [Htr|Htr].
  - rewrite bool_decide_eq_false_2 by tauto. cbn [negb]. by apply window_uncount.
  - rewrite bool_decide_eq_true_2 by done. cbn [negb].
    apply not_elem_of_app in Htr as [H1 H2]. rewrite !without_notin by done.
    by rewrite (wi_fixed _ _ _ _ Hi), (wi_sliding _ _ _ _ Hi).
Qed.

(** The windows a touch of [e] produces before the eviction loop. *)
Definition touched_fixed (e : Z) : bool :=
  mem_of getSegmentSize (base p) (without e l1) <? maxFixedMemory p.
Definition touched_l1 (e : Z) : list Z :=
  if touched_fixed e then e :: without e l1 else without e l1.
Definition touched_l2 (e : Z) : list Z :=
  if touched_fixed e then without e l2 else e :: without e l2.

Lemma touched_mem st index :
  st ∈ storageRegistry (base p) → 0 ≤ index < elementCount st →
  let e := element st index in
  let mem := mem_of getSegmentSize (base p) in
  (if touched_fixed e
   then (mem (without e l1) ⊕ getSegmentSize (ps_mapping st), mem (without e l2))
   else (mem (without e l1), mem (without e l2) ⊕ getSegmentSize (ps_mapping st)))
  = (mem (touched_l1 e), mem (touched_l2 e)).
Proof.
  intros Hst Hix e mem. pose proof (wi_wf _ _ _ _ Hi) as Hwf.
  assert (He : e ∈ all_elems (base p)) by (by apply element_in).
  assert (Hse : sz p e = getSegmentSize (ps_mapping st)) by (by apply elt_size_element).
  rewrite <- Hse. destruct window_elems as [(Hn1 & _ & Hn2)%NoDup_app Hin].
  assert (Hl : ∀ l, NoDup l → (∀ x, x ∈ l → x ∈ all_elems (base p)) →
     mem (without e l) ⊕ sz p e = mem (e :: without e l)).
  { intros l Hnd Hlin.
    assert (Hnd' : NoDup (e :: without e l)).
    { apply NoDup_cons. split; [rewrite elem_of_without; tauto|by apply NoDup_filter]. }
    assert (Hin' : ∀ x, x ∈ e :: without e l → x ∈ all_elems (base p)).
    { intros x [->|[Hx _]%elem_of_without]%elem_of_cons; [done|by apply Hlin]. }
    pose proof (mem_of_bound _ _ Hwf _ Hnd' Hin') as Hb.
    assert (0 ≤ mem (without e l)).
    { apply mem_of_nonneg; [done|]. intros x Hx. apply Hin'. by right. }
    pose proof (elt_size_pos _ _ Hwf e He). unfold mem, mem_of in *. cbn [sumZ] in *.
    rewrite size_add; lia. }
  unfold touched_l1, touched_l2. destruct (touched_fixed e).
  - rewrite Hl; [done|done|]. intros x Hx. apply Hin, elem_of_app. by left.
  - rewrite Hl; [done|done|]. intros x Hx. apply Hin, elem_of_app. by right.
Qed.

(** Everything [notifyTouch] does before its eviction loop. *)
Lemma window_touch_prepare st index :
  st ∈ storageRegistry (base p) → 0 ≤ index < elementCount st →
  let e := element st index in
  let fx := touched_fixed e in
  ∃ h1 h2 flags, isAlone h e = Ok (bool_decide (e ∉ l1 ++ l2)) ∧ removeFromList h e = Ok h1 ∧
    infos p !! extraInfos st = Some flags ∧
    insertAfter h1 (if fx then rootFixedWindow p else rootSlidingWindow p) e = Ok h2 ∧
    window_inv h2 (set_state p (base p) (mem_of getSegmentSize (base p) (touched_l1 e))
      (mem_of getSegmentSize (base p) (touched_l2 e))
      (<[extraInfos st := <[Z.to_nat index := fx]> flags]> (infos p))) (touched_l1 e) (touched_l2 e) ∧
    ∀ x, x ∉ all_elems (base p) → x ≠ rootFixedWindow p → x ≠ rootSlidingWindow p →
      h2 !! x = h !! x.
Proof.
  intros Hst Hix e fx. pose proof Hi as [Ht Hwf Hm1 Hm2 Hfl Hk].
  assert (He : e ∈ all_elems (base p)) by (by apply element_in).
  destruct (two_rings_remove _ _ _ _ _ _ e Ht He) as (h1 & Hal & _ & Hrm & Ht1 & Hfr1).
  destruct (Hfl st Hst) as (flags & Hf & _).
  assert (Hn1 : e ∉ without e l1) by (rewrite elem_of_without; tauto).
  assert (Hn2 : e ∉ without e l2) by (rewrite elem_of_without; tauto).
  assert (∃ h2, insertAfter h1 (if fx then rootFixedWindow p else rootSlidingWindow p) e = Ok h2 ∧
    two_rings h2 (λ e, e ∈ all_elems (base p)) (rootFixedWindow p) (rootSlidingWindow p)
      (touched_l1 e) (touched_l2 e) ∧
    ∀ x, x ∉ all_elems (base p) → x ≠ rootFixedWindow p → x ≠ rootSlidingWindow p →
      h2 !! x = h1 !! x) as (h2 & Hins & Ht2 & Hfr2).
  { unfold touched_l1, touched_l2. fold fx. destruct fx.
    - by apply two_rings_insert.
    - destruct (two_rings_insert _ _ _ _ _ _ e (two_rings_sym _ _ _ _ _ _ Ht1) He Hn2 Hn1)
        as (h2 & Hrun & Ht2 & Hfr2). exists h2. split; [done|]. split; [by apply two_rings_sym|auto]. }
  exists h1, h2, flags. do 4 (split; [done|]). split.
  - split; cbn [base set_state currentFixedMemory currentSlidingWindowMemory]; try done.
    apply window_flags_touch; [done|done|done| |]; fold e; unfold touched_l1, touched_l2; fold fx;
      intros x Hx; destruct fx; rewrite ?elem_of_cons, ?elem_of_without in Hx; tauto.
  - intros x Hx Hx1 Hx2. by rewrite Hfr2, Hfr1.
Qed.

End Inv.

Lemma window_touch_run h p l1 l2 mapping st index fuel :
  window_inv h p l1 l2 →
  getStorageInfo (base p) mapping = Ok st → 0 ≤ index < elementCount st →
  0 ≤ maxSlidingMemory p → (S (length l2) < fuel)%nat →
  let e := element st index in
  let ks := kept_of (sz p) (maxSlidingMemory p) 0 (touched_l2 p l1 l2 e) in
  let vs := victims_of (sz p) (maxSlidingMemory p) 0 (touched_l2 p l1 l2 e) in
  if decide (Z.of_nat (length vs) < maxIdsToEvict)
  then ∃ h' p', notifyTouch fuel h p mapping index =
           Ok (h', p', mkTouched (elt_segment (base p) <$> vs) (bool_decide (e ∉ l1 ++ l2))
                         (getCurrentMemory p)) ∧
         base p' = base p ∧ window_inv h' p' (touched_l1 p l1 e) ks ∧
         maxSlidingMemory p' = maxSlidingMemory p ∧ maxFixedMemory p' = maxFixedMemory p
  else notifyTouch fuel h p mapping index = Err tooMany.
Proof.
  intros Hi Hst Hix Hmax Hfuel e ks vs.
  apply getStorageInfo_inv in Hst as Hst'. destruct Hst' as [Hin <-].
  destruct (window_touch_prepare _ _ _ _ Hi st index Hin Hix) as (h1 & h2 & flags & Hal & Hrm & Hf & Hins & Hi2 & _).
  fold e in Hal, Hrm, Hins, Hi2. pose proof (touched_mem _ _ _ _ Hi st index Hin Hix) as Htm.
  cbv zeta in Htm. fold e in Htm. unfold notifyTouch. rewrite Hst. cbn [mbind result_bind]. fold e.
  rewrite Hal. cbn [mbind result_bind]. rewrite Hrm. cbn [mbind result_bind].
  pose proof (window_untrack _ _ _ _ Hi st index Hin Hix) as Hun. cbv zeta in Hun. fold e in Hun.
  rewrite Hun. cbn [mbind result_bind]. fold (touched_fixed p l1 e). rewrite Hf.
  cbn [deref mbind result_bind].
  assert ((if touched_fixed p l1 e then
       h2 ← insertAfter h1 (rootFixedWindow p) e;
       Ok (h2, mem_of getSegmentSize (base p) (without e l1) ⊕ getSegmentSize (ps_mapping st),
           mem_of getSegmentSize (base p) (without e l2))
     else
       h2 ← insertAfter h1 (rootSlidingWindow p) e;
       Ok (h2, mem_of getSegmentSize (base p) (without e l1),
           mem_of getSegmentSize (base p) (without e l2) ⊕ getSegmentSize (ps_mapping st))) =
     Ok (h2, mem_of getSegmentSize (base p) (touched_l1 p l1 e), mem_of getSegmentSize (base p) (touched_l2 p l1 l2 e)))
    as ->.
  { destruct (touched_fixed p l1 e); rewrite Hins; cbn [mbind result_bind];
      injection Htm as Ha Hb; by rewrite Ha, Hb. }
  cbn [mbind result_bind]. set (p2 := set_state _ _ _ _ _) in Hi2.
  assert (Hlen : (length (touched_l2 p l1 l2 e) < fuel)%nat).
  { pose proof (length_without e l2). unfold touched_l2. destruct (touched_fixed p l1 e); cbn [length]; lia. }
  pose proof (window_shrink_loop _ _ _ _ Hi2 fuel Hmax Hlen) as Hloop. cbv zeta in Hloop.
  change (base p2) with (base p) in Hloop. change (maxSlidingMemory p2) with (maxSlidingMemory p) in Hloop.
  fold ks vs in Hloop. destruct (decide _).
  - destruct Hloop as (h3 & Hrun & Hi3 & _).
    change (currentSlidingWindowMemory p2) with (mem_of getSegmentSize (base p) (touched_l2 p l1 l2 e)) in Hrun.
    change (rootSlidingWindow p2) with (rootSlidingWindow p) in Hrun. rewrite Hrun. cbn [mbind result_bind].
    eexists _, _. split; [done|]. split; [done|]. split; [exact Hi3|done].
  - change (currentSlidingWindowMemory p2) with (mem_of getSegmentSize (base p) (touched_l2 p l1 l2 e)) in Hloop.
    change (rootSlidingWindow p2) with (rootSlidingWindow p) in Hloop. by rewrite Hloop.
Qed.
End WithMappings.

(** ** The properties of the FIFO window policy *)

(** C23: a touch of a segment puts it in the fixed window while that window is below
    its limit and in the sliding window otherwise, evicts only from the old end of
    the sliding window, exactly what is needed, and keeps the invariant.  After it the
    sliding window is within its limit and the fixed window exceeds its own by less
    than one segment. *)
Theorem window_notifyTouch_limits getSegmentSize h p l1 l2 mapping st index fuel maxSeg :
  window_inv getSegmentSize h p l1 l2 →
  getStorageInfo (base p) mapping = Ok st → 0 ≤ index < elementCount st →
  0 ≤ maxSlidingMemory p → (S (length l2) < fuel)%nat →
  (∀ e, e ∈ all_elems (base p) → elt_size getSegmentSize (base p) e ≤ maxSeg) →
  0 ≤ maxFixedMemory p → currentFixedMemory p < maxFixedMemory p + maxSeg →
  let e := element st index in
  let l1' := touched_l1 getSegmentSize p l1 e in
  let l2' := touched_l2 getSegmentSize p l1 l2 e in
  let ks := kept_of (elt_size getSegmentSize (base p)) (maxSlidingMemory p) 0 l2' in
  let vs := victims_of (elt_size getSegmentSize (base p)) (maxSlidingMemory p) 0 l2' in
  l2' = ks ++ reverse vs ∧
  (if decide (Z.of_nat (length vs) < maxIdsToEvict)
   then ∃ h' p' t, notifyTouch getSegmentSize fuel h p mapping index = Ok (h', p', t) ∧
          t_evicted t = (elt_segment (base p) <$> vs) ∧
          window_inv getSegmentSize h' p' l1' ks ∧
          currentSlidingWindowMemory p' ≤ maxSlidingMemory p ∧
          currentFixedMemory p' < maxFixedMemory p + maxSeg
   else notifyTouch getSegmentSize fuel h p mapping index = Err tooMany).
Proof.
  intros Hi Hst Hix Hmax Hfuel Hseg Hfix Hcur e l1' l2' ks vs.
  pose proof (window_touch_run getSegmentSize h p l1 l2 mapping st index fuel Hi Hst Hix Hmax Hfuel) as Hrun.
  cbv zeta in Hrun. fold e in Hrun. fold l1' l2' in Hrun. fold ks vs in Hrun.
  destruct (kept_victims (elt_size getSegmentSize (base p)) (maxSlidingMemory p) 0 l2' Hmax)
    as (Hsplit & Hfit & _). fold ks vs in Hsplit, Hfit. split; [done|].
  destruct (decide _); [|done]. destruct Hrun as (h' & p' & Hrun & Hb & Hi' & _ & _).
  eexists h', p', _. split; [done|]. split; [done|]. split; [done|].
  rewrite (wi_sliding _ _ _ _ _ Hi'), (wi_fixed _ _ _ _ _ Hi'), Hb. split; [exact Hfit|].
  apply getStorageInfo_inv in Hst as [Hin _].
  assert (He : e ∈ all_elems (base p)) by (by apply element_in).
  subst l1'. unfold touched_l1, touched_fixed. destruct (Z.ltb_spec
    (mem_of getSegmentSize (base p) (without e l1)) (maxFixedMemory p)) as [Hlt|Hge].
  - unfold mem_of in Hlt |- *. cbn [sumZ]. specialize (Hseg e He). lia.
  - destruct (window_mem_without _ _ _ _ _ Hi e He) as [Hm _]. rewrite Hm.
    pose proof (elt_size_pos _ _ (wi_wf _ _ _ _ _ Hi) e He). case_bool_decide; lia.
Qed.

(** ** Filling the two windows *)

(** Touches of the segments [ids] of a mapping, one after the other. *)
Definition touchAll (getSegmentSize : Z → Z) (fuel : nat) (mapping : Z) (s : heap * FifoWindowPolicy) (ids : list Z)
    : result (heap * FifoWindowPolicy) :=
  foldM (λ '(h, p) i, '(h', p', _) ← notifyTouch getSegmentSize fuel h p mapping i; Ok (h', p')) s ids.

Section Fill.
Context (getSegmentSize : Z → Z) (mapping : Z) (st : PolicyStorage) (fuel : nat).
Abbreviation s := (getSegmentSize mapping).

(** [l1] and [l2] hold segments among the first [n] of the mapping. *)
Definition first_segments (n : Z) (l : list Z) : Prop := ∀ x, x ∈ l → ∃ j, 0 ≤ j < n ∧ x = element st j.

Lemma first_segments_mem p n l :
  wf_registry getSegmentSize (base p) → getStorageInfo (base p) mapping = Ok st →
  n ≤ elementCount st → first_segments n l → mem_of getSegmentSize (base p) l = Z.of_nat (length l) * s.
Proof.
  intros Hwf [Hin Hm]%getStorageInfo_inv Hn Hl. unfold mem_of. rewrite <- sumZ_const. apply sumZ_ext.
  intros x (j & Hj & ->)%Hl. rewrite (elt_size_element _ _ Hwf) by (done || lia). by rewrite Hm.
Qed.

Lemma first_segments_notin n l : first_segments n l → element st n ∉ l.
Proof. intros Hl (j & Hj & E)%Hl. unfold element, sizeof_ListElement in E. lia. Qed.

Lemma first_segments_cons n l : 0 ≤ n → first_segments n l → first_segments (n + 1) (element st n :: l).
Proof.
  intros Hn Hl x [->|Hx]%elem_of_cons; [exists n; split; [lia|done]|].
  destruct (Hl x Hx) as (j & Hj & ->). exists j. split; [lia|done].
Qed.

Lemma first_segments_more n l : first_segments n l → first_segments (n + 1) l.
Proof. intros Hl x (j & Hj & ->)%Hl. exists j. split; [lia|done]. Qed.

(** The touch of a new segment when the sliding window has room for it, if it goes there. *)
Lemma window_fill_step h p l1 l2 n :
  window_inv getSegmentSize h p l1 l2 → getStorageInfo (base p) mapping = Ok st →
  0 ≤ n < elementCount st → first_segments n l1 → first_segments n l2 →
  0 ≤ maxSlidingMemory p → (S (length l2) < fuel)%nat →
  let fixed := Z.of_nat (length l1) * s <? maxFixedMemory p in
  (Z.of_nat (length l2) + if fixed then 0 else 1) * s ≤ maxSlidingMemory p →
  ∃ h' p' t, notifyTouch getSegmentSize fuel h p mapping n = Ok (h', p', t) ∧ base p' = base p ∧
    maxSlidingMemory p' = maxSlidingMemory p ∧ maxFixedMemory p' = maxFixedMemory p ∧
    let e := element st n in
    window_inv getSegmentSize h' p' (if fixed then e :: l1 else l1) (if fixed then l2 else e :: l2).
Proof.
  intros Hi Hst Hn H1 H2 Hmax Hf fixed Hroom. pose proof (wi_wf _ _ _ _ _ Hi) as Hwf.
  pose proof (window_touch_run getSegmentSize h p l1 l2 mapping st n fuel Hi Hst ltac:(lia) Hmax Hf) as Hrun.
  cbv zeta in Hrun. unfold touched_l1, touched_l2, touched_fixed in Hrun.
  rewrite !without_notin in Hrun by (by apply first_segments_notin).
  rewrite (first_segments_mem p n l1) in Hrun by (done || lia). fold fixed in Hrun.
  set (l2' := if fixed then l2 else element st n :: l2) in *.
  assert (Hl2 : first_segments (n + 1) l2').
  { subst l2'. destruct fixed; [by apply first_segments_more|apply first_segments_cons; [lia|done]]. }
  assert (Hfit : mem_of getSegmentSize (base p) l2' ≤ maxSlidingMemory p).
  { rewrite (first_segments_mem p (n + 1)) by (done || lia). subst l2'. destruct fixed; cbn [length]; lia. }
  destruct (kept_when_fits (elt_size getSegmentSize (base p)) (maxSlidingMemory p) 0 l2') as [Hk Hv];
    [unfold mem_of in Hfit; lia|]. rewrite Hk, Hv in Hrun. rewrite decide_True in Hrun by done.
  destruct Hrun as (h' & p' & Hrun & Hb & Hi' & Hs' & Hf'). eexists h', p', _. split; [exact Hrun|]. done.
Qed.

Context (h : heap) (p : FifoWindowPolicy) (Hi : window_inv getSegmentSize h p [] []).
Context (Hst : getStorageInfo (base p) mapping = Ok st).
Context (Hfix : 0 ≤ maxFixedMemory p) (Hmax : 0 ≤ maxSlidingMemory p).

(** How many segments enter the windows: rounded up and rounded down. *)
Definition fixed_segments : Z := - (- maxFixedMemory p / s).
Definition sliding_segments : Z := maxSlidingMemory p / s.
Context (Hcount : fixed_segments + sliding_segments ≤ elementCount st).
Context (Hfuel : (S (Z.to_nat sliding_segments) < fuel)%nat).

Lemma fill_size : 0 < s.
Proof.
  pose proof Hst as [Hin <-]%getStorageInfo_inv.
  exact (wfs_segment _ _ (wfr_storage _ _ (wi_wf _ _ _ _ _ Hi) st Hin)).
Qed.

(** The fixed window takes segments until it has [fixed_segments] of them. *)
Lemma fill_fixed a : 0 ≤ a → (a * s <? maxFixedMemory p) = (a <? fixed_segments).
Proof.
  intros Ha. pose proof fill_size. unfold fixed_segments.
  pose proof (Z.div_mod (- maxFixedMemory p) s ltac:(lia)). pose proof (Z.mod_pos_bound (- maxFixedMemory p) s ltac:(lia)).
  set (q := - maxFixedMemory p / s) in *.
  destruct (Z.ltb_spec (a * s) (maxFixedMemory p)), (Z.ltb_spec a (- q)); try done; nia.
Qed.

Lemma fill_bounds : 0 ≤ fixed_segments ∧ 0 ≤ sliding_segments ∧ sliding_segments * s ≤ maxSlidingMemory p.
Proof.
  pose proof fill_size. unfold fixed_segments, sliding_segments. split; [|split].
  - pose proof (Z.div_le_upper_bound (- maxFixedMemory p) s 0). lia.
  - apply Z.div_pos; lia.
  - pose proof (Z.mul_div_le (maxSlidingMemory p) s). lia.
Qed.

Lemma window_fill n :
  Z.of_nat n ≤ fixed_segments + sliding_segments →
  ∃ h' p' l1 l2, touchAll getSegmentSize fuel mapping (h, p) (seqZ 0 (Z.of_nat n)) = Ok (h', p') ∧
    base p' = base p ∧ maxSlidingMemory p' = maxSlidingMemory p ∧ maxFixedMemory p' = maxFixedMemory p ∧
    window_inv getSegmentSize h' p' l1 l2 ∧ first_segments (Z.of_nat n) l1 ∧ first_segments (Z.of_nat n) l2 ∧
    Z.of_nat (length l1) = Z.min (Z.of_nat n) fixed_segments ∧
    Z.of_nat (length l1) + Z.of_nat (length l2) = Z.of_nat n.
Proof.
  pose proof fill_bounds as (Hb1 & Hb2 & Hb3). induction n as [|n IH]; intros Hn.
  { exists h, p, [], []. do 5 (split; [done|]). split; [by intros x []%elem_of_nil|].
    split; [by intros x []%elem_of_nil|]. cbn. lia. }
  destruct IH as (h1 & p1 & l1 & l2 & Hrun & Hbase & Hms & Hmf & Hi1 & H1 & H2 & Hl1 & Hl); [lia|].
  rewrite seqZ_S, Z.add_0_l. unfold touchAll in *. rewrite foldM_app, Hrun. cbn [mbind result_bind foldM].
  pose proof (window_fill_step h1 p1 l1 l2 (Z.of_nat n) Hi1) as Hstep. rewrite Hbase, Hms, Hmf in Hstep.
  cbv zeta in Hstep. rewrite fill_fixed in Hstep by lia.
  assert (Hroom : (Z.of_nat (length l2) + (if Z.of_nat (length l1) <? fixed_segments then 0 else 1)) * s
    ≤ maxSlidingMemory p).
  { etransitivity; [|exact Hb3]. pose proof fill_size. apply Z.mul_le_mono_nonneg_r; [lia|].
    destruct (Z.ltb_spec (Z.of_nat (length l1)) fixed_segments); lia. }
  destruct Hstep as (h2 & p2 & t & -> & Hbase2 & Hms2 & Hmf2 & Hi2); try done; [lia|lia|].
  cbn [mbind result_bind]. eexists h2, p2, _, _. do 4 (split; [done|]). split; [exact Hi2|].
  replace (Z.of_nat (S n)) with (Z.of_nat n + 1) by lia.
  destruct (Z.ltb_spec (Z.of_nat (length l1)) fixed_segments); cbn [length];
    (split; [|split; [|lia]]); first [by apply first_segments_more|apply first_segments_cons; [lia|done]].
Qed.
End Fill.

(** C38: the limit given to the policy can be exceeded, because the fixed window takes a
    segment whenever it is not full.  A policy that tracks nothing takes, of a mapping
    touched segment after segment, the fixed part of its limit rounded up to whole
    segments and the sliding part rounded down, without any eviction; that is more than
    the two parts together exactly when what the first rounding adds is more than what the
    second one drops, in particular for a sliding part of whole segments and a fixed part
    that is not. *)
Theorem window_exceeds_max_memory getSegmentSize h p mapping st fuel :
  window_inv getSegmentSize h p [] [] → getStorageInfo (base p) mapping = Ok st →
  0 ≤ maxFixedMemory p → 0 ≤ maxSlidingMemory p →
  let s := getSegmentSize mapping in
  let fixed := - (- maxFixedMemory p / s) in
  let sliding := maxSlidingMemory p / s in
  fixed + sliding ≤ elementCount st → (S (Z.to_nat sliding) < fuel)%nat →
  ∃ h' p', touchAll getSegmentSize fuel mapping (h, p) (seqZ 0 (fixed + sliding)) = Ok (h', p') ∧
    base p' = base p ∧ getCurrentMemory p' = (fixed + sliding) * s ∧
    (maxFixedMemory p + maxSlidingMemory p < getCurrentMemory p' ↔
     maxSlidingMemory p mod s < (- maxFixedMemory p) mod s).
Proof.
  intros Hi Hst Hfix Hmax s fixed sliding Hcount Hfuel.
  pose proof (fill_size _ _ _ _ _ Hi Hst) as Hs. pose proof (fill_bounds _ _ _ fuel _ _ Hi Hst Hfix Hmax Hfuel) as (Hb1 & Hb2 & _).
  change (fixed_segments getSegmentSize mapping p) with fixed in Hb1.
  change (sliding_segments getSegmentSize mapping p) with sliding in Hb2.
  destruct (window_fill getSegmentSize mapping st fuel h p Hi Hst Hfix Hmax Hcount Hfuel (Z.to_nat (fixed + sliding)))
    as (h' & p' & l1 & l2 & Hrun & Hb & Hms & Hmf & Hi' & H1 & H2 & Hl1 & Hl).
  { rewrite Z2Nat.id by lia. done. }
  rewrite Z2Nat.id in * by lia. exists h', p'. split; [exact Hrun|]. split; [done|].
  assert (Hmem : getCurrentMemory p' = (fixed + sliding) * s).
  { pose proof (window_bound _ _ _ _ _ Hi') as (Hp1 & Hp2 & Hlt). unfold getCurrentMemory.
    rewrite size_add by lia. rewrite (wi_fixed _ _ _ _ _ Hi'), (wi_sliding _ _ _ _ _ Hi'), Hb.
    rewrite !(first_segments_mem getSegmentSize mapping st p (fixed + sliding)) by (done || apply Hi). lia. }
  split; [done|]. rewrite Hmem. subst fixed sliding. fold s in Hs.
  pose proof (Z.div_mod (- maxFixedMemory p) s). pose proof (Z.div_mod (maxSlidingMemory p) s). nia.
Qed.

(** ** A concrete policy

    Mapping 7 with four segments of one page; 10000 bytes in all of which 5903 for
    the sliding window. *)
Section Demo.
Definition demo_size (m : Z) : Z := 4096.
Definition demo_new : heap * FifoWindowPolicy :=
  newFifoWindowPolicy ∅ 100 108 124 10000 5903 true.
Definition demo_run (ids : list Z) : result (heap * FifoWindowPolicy) :=
  '(h, p) ← allocateElementStorage demo_size (fst demo_new) (snd demo_new) 7 4 1024 2048;
  touchAll demo_size 10 7 (h, p) ids.
Definition demo_state (ids : list Z) : heap * FifoWindowPolicy :=
  match demo_run ids with Ok s => s | Err _ => demo_new end.
Definition demo_storage : PolicyStorage := mkStorage 7 1024 4 16 2048.
End Demo.

Lemma demo_new_inv : window_inv demo_size (fst (demo_state [])) (snd (demo_state [])) [] [].
Proof.
  assert (Hwf : wf_registry demo_size (base (snd (demo_state [])))).
  { eapply (wf_single _ _ demo_storage); [reflexivity|by split|reflexivity]. }
  split; [split| | | | |].
  - split; [apply (bool_decide_unpack _); vm_compute; exact I|]. split; [|split; [set_solver|]].
    + intros [Hr _]. vm_compute in Hr. set_solver.
    + intros e [He _] _. revert e He. apply Forall_forall.
      apply (bool_decide_unpack _). vm_compute. exact I.
  - split; [apply (bool_decide_unpack _); vm_compute; exact I|]. split; [|split; [set_solver|]].
    + intros [Hr _]. vm_compute in Hr. set_solver.
    + intros e [He _] _. revert e He. apply Forall_forall.
      apply (bool_decide_unpack _). vm_compute. exact I.
  - split; [done|]. split; intros Hr; vm_compute in Hr; set_solver.
  - exact Hwf.
  - reflexivity.
  - reflexivity.
  - intros st Hst. apply list_elem_of_singleton in Hst as ->. eexists. split; [vm_compute; reflexivity|].
    split; [reflexivity|]. intros i _. set_solver.
  - apply NoDup_singleton.
Qed.

Lemma window_notifyTouch_limits_witness :
  ∃ h' p' t, notifyTouch demo_size 10 (fst (demo_state [])) (snd (demo_state [])) 7 2 = Ok (h', p', t) ∧
    currentFixedMemory p' < 4097 + 4096.
Proof.
  pose proof demo_new_inv as Hi.
  pose proof (window_notifyTouch_limits demo_size (fst (demo_state [])) (snd (demo_state [])) [] []
    7 demo_storage 2 10 4096 Hi) as H. cbv zeta in H.
  rewrite decide_True in H by (vm_compute; reflexivity).
  destruct H as (_ & h' & p' & t & Hrun & _ & _ & _ & Hfix).
  - vm_compute. reflexivity.
  - cbn. lia.
  - vm_compute. congruence.
  - cbn. lia.
  - intros e _. unfold elt_size, demo_size. destruct (find _ _); lia.
  - vm_compute. congruence.
  - vm_compute. reflexivity.
  - exists h', p', t. split; [exact Hrun|]. exact Hfix.
Defined.

(** With a limit of 10000 bytes of which 5903 for the sliding window, three segments of
    4096 bytes stay. *)
Lemma window_exceeds_max_memory_witness :
  ∃ h p, demo_run [0; 1; 2] = Ok (h, p) ∧ staticMaxMemory (base p) = 10000 ∧ 10000 < getCurrentMemory p.
Proof.
  destruct (window_exceeds_max_memory demo_size (fst (demo_state [])) (snd (demo_state [])) 7 demo_storage 10 demo_new_inv)
    as (h & p & Hrun & Hb & Hmem & _).
  - vm_compute. reflexivity.
  - vm_compute. congruence.
  - vm_compute. congruence.
  - vm_compute. congruence.
  - vm_compute. lia.
  - exists h, p. split; [exact Hrun|]. rewrite Hb, Hmem. split; vm_compute; reflexivity.
Defined.
