(* ===== verification/PolicyInterface.v ===== *)
(** * The virtual interface of policies

    [PolicyOps] is what class [Policy] declares virtual: the operations a mapping and
    a quota call.  [TrackingPolicy] states what they promise to a mapping: a touch
    keeps the touched segment, evicts others until the memory of what is tracked fits
    the limit, and reports every segment it dropped.  The FIFO and LIFO policies are
    instances; [AnyPolicy] is the dynamic dispatch over the three classes. *)

From S2P Require Import Prelude ListElement EraseLoop Policy.
From S2P Require Import FifoPolicy LifoPolicy FifoWindowPolicy.

Class PolicyOps (P : Type) := {
  pol_base : P → Policy;
  (** The object with its base part replaced: the setters of class [Policy]. *)
  pol_set_base : P → Policy → P;
  pol_getCurrentMemory : P → Z;
  (** [elts] and [flags] are addresses of the memory the storage is allocated in. *)
  pol_allocateElementStorage : (Z → Z) → heap → P → Z → Z → Z → Z → result (heap * P);
  pol_freeElementStorage : (Z → Z) → heap → P → Z → result (heap * P);
  pol_notifyTouch : (Z → Z) → nat → heap → P → Z → Z → result (heap * P * Touched);
  pol_notifyEvict : (Z → Z) → heap → P → Z → Z → result (heap * P);
  pol_shrinkMemory : (Z → Z) → nat → heap → P → result (heap * P * list (Z * Z));
}.

#[export] Instance Fifo_ops : PolicyOps FifoPolicy.FifoPolicy := {
  pol_base := FifoPolicy.base;
  pol_set_base p b := FifoPolicy.mkFifo b (FifoPolicy.root p) (FifoPolicy.currentMemory p);
  pol_getCurrentMemory := FifoPolicy.getCurrentMemory;
  pol_allocateElementStorage gs h p m n elts flags :=
    FifoPolicy.allocateElementStorage gs h p m n elts;
  pol_freeElementStorage := FifoPolicy.freeElementStorage;
  pol_notifyTouch := FifoPolicy.notifyTouch;
  pol_notifyEvict := FifoPolicy.notifyEvict;
  pol_shrinkMemory := FifoPolicy.shrinkMemory }.

#[export] Instance Lifo_ops : PolicyOps LifoPolicy.LifoPolicy := {
  pol_base := LifoPolicy.base;
  pol_set_base p b := LifoPolicy.mkLifo b (LifoPolicy.root p) (LifoPolicy.currentMemory p);
  pol_getCurrentMemory := LifoPolicy.getCurrentMemory;
  pol_allocateElementStorage gs h p m n elts flags :=
    LifoPolicy.allocateElementStorage gs h p m n elts;
  pol_freeElementStorage := LifoPolicy.freeElementStorage;
  pol_notifyTouch := LifoPolicy.notifyTouch;
  pol_notifyEvict := LifoPolicy.notifyEvict;
  pol_shrinkMemory := LifoPolicy.shrinkMemory }.

#[export] Instance Window_ops : PolicyOps FifoWindowPolicy.FifoWindowPolicy := {
  pol_base := FifoWindowPolicy.base;
  pol_set_base p b := FifoWindowPolicy.set_state p b (FifoWindowPolicy.currentFixedMemory p)
    (FifoWindowPolicy.currentSlidingWindowMemory p) (FifoWindowPolicy.infos p);
  pol_getCurrentMemory := FifoWindowPolicy.getCurrentMemory;
  pol_allocateElementStorage := FifoWindowPolicy.allocateElementStorage;
  pol_freeElementStorage := FifoWindowPolicy.freeElementStorage;
  pol_notifyTouch := FifoWindowPolicy.notifyTouch;
  pol_notifyEvict := FifoWindowPolicy.notifyEvict;
  pol_shrinkMemory := FifoWindowPolicy.shrinkMemory }.

(** ** Dynamic dispatch *)

Inductive AnyPolicy : Type :=
  | PFifo (p : FifoPolicy.FifoPolicy)
  | PLifo (p : LifoPolicy.LifoPolicy)
  | PWindow (p : FifoWindowPolicy.FifoWindowPolicy).

(** Rebuild the object an operation of its class returns. *)
Definition lift {P} (c : P → AnyPolicy) (r : result (heap * P)) : result (heap * AnyPolicy) :=
  '(h, p) ← r; Ok (h, c p).
Definition lift_with {P A} (c : P → AnyPolicy) (r : result (heap * P * A))
    : result (heap * AnyPolicy * A) :=
  '(h, p, a) ← r; Ok (h, c p, a).

#[export] Instance Any_ops : PolicyOps AnyPolicy := {
  pol_base q := match q with PFifo p => pol_base p | PLifo p => pol_base p | PWindow p => pol_base p end;
  pol_set_base q b := match q with
    | PFifo p => PFifo (pol_set_base p b)
    | PLifo p => PLifo (pol_set_base p b)
    | PWindow p => PWindow (pol_set_base p b) end;
  pol_getCurrentMemory q := match q with
    | PFifo p => pol_getCurrentMemory p
    | PLifo p => pol_getCurrentMemory p
    | PWindow p => pol_getCurrentMemory p end;
  pol_allocateElementStorage gs h q m n elts flags := match q with
    | PFifo p => lift PFifo (pol_allocateElementStorage gs h p m n elts flags)
    | PLifo p => lift PLifo (pol_allocateElementStorage gs h p m n elts flags)
    | PWindow p => lift PWindow (pol_allocateElementStorage gs h p m n elts flags) end;
  pol_freeElementStorage gs h q m := match q with
    | PFifo p => lift PFifo (pol_freeElementStorage gs h p m)
    | PLifo p => lift PLifo (pol_freeElementStorage gs h p m)
    | PWindow p => lift PWindow (pol_freeElementStorage gs h p m) end;
  pol_notifyTouch gs fuel h q m i := match q with
    | PFifo p => lift_with PFifo (pol_notifyTouch gs fuel h p m i)
    | PLifo p => lift_with PLifo (pol_notifyTouch gs fuel h p m i)
    | PWindow p => lift_with PWindow (pol_notifyTouch gs fuel h p m i) end;
  pol_notifyEvict gs h q m i := match q with
    | PFifo p => lift PFifo (pol_notifyEvict gs h p m i)
    | PLifo p => lift PLifo (pol_notifyEvict gs h p m i)
    | PWindow p => lift PWindow (pol_notifyEvict gs h p m i) end;
  pol_shrinkMemory gs fuel h q := match q with
    | PFifo p => lift_with PFifo (pol_shrinkMemory gs fuel h p)
    | PLifo p => lift_with PLifo (pol_shrinkMemory gs fuel h p)
    | PWindow p => lift_with PWindow (pol_shrinkMemory gs fuel h p) end }.

(** ** What a tracking policy promises *)

Class TrackingPolicy (P : Type) `{PolicyOps P} := {
  (** [pol_inv gs h p l]: the policy tracks the elements [l]. *)
  pol_inv : (Z → Z) → heap → P → list Z → Prop;
  (** The list roots of the object. *)
  pol_roots : P → list Z;
  pol_wf gs h p l : pol_inv gs h p l → wf_registry gs (pol_base p);
  pol_elems gs h p l : pol_inv gs h p l → NoDup l ∧ ∀ e, e ∈ l → e ∈ all_elems (pol_base p);
  pol_memory gs h p l : pol_inv gs h p l → pol_getCurrentMemory p = mem_of gs (pol_base p) l;
  (** A touch of a segment no larger than the limit: the touched element and the
      kept ones fit, the others are reported, the counter is exact. *)
  pol_touch gs h p l mapping st index fuel :
    pol_inv gs h p l → getStorageInfo (pol_base p) mapping = Ok st → 0 ≤ index < elementCount st →
    gs mapping ≤ dynamicMaxMemory (pol_base p) → (S (length l) < fuel)%nat →
    pol_notifyTouch gs fuel h p mapping index = Err tooMany ∨
    ∃ h' p' t ks vs, pol_notifyTouch gs fuel h p mapping index = Ok (h', p', t) ∧
      pol_base p' = pol_base p ∧ pol_roots p' = pol_roots p ∧ pol_inv gs h' p' ks ∧
      (∀ x, x ∉ all_elems (pol_base p) ++ pol_roots p → h' !! x = h !! x) ∧
      t_evicted t = (elt_segment (pol_base p) <$> vs) ∧
      element st index :: without (element st index) l ≡ₚ ks ++ vs ∧
      element st index ∈ ks ∧
      pol_getCurrentMemory p' ≤ dynamicMaxMemory (pol_base p);
  (** Shrinking brings the memory under the dynamic limit the same way; it only stops
      the library when there are enough segments to reach the limit on victims. *)
  pol_shrink gs h p l fuel :
    pol_inv gs h p l → 0 ≤ dynamicMaxMemory (pol_base p) → (length l < fuel)%nat →
    pol_shrinkMemory gs fuel h p = Err tooMany ∧ maxIdsToEvict ≤ Z.of_nat (length l) ∨
    ∃ h' p' ks vs, pol_shrinkMemory gs fuel h p = Ok (h', p', elt_segment (pol_base p) <$> vs) ∧
      pol_base p' = pol_base p ∧ pol_roots p' = pol_roots p ∧ pol_inv gs h' p' ks ∧
      (∀ x, x ∉ all_elems (pol_base p) ++ pol_roots p → h' !! x = h !! x) ∧
      l ≡ₚ ks ++ vs ∧
      pol_getCurrentMemory p' ≤ dynamicMaxMemory (pol_base p);
  (** A new array is added to the registry and nothing in it is tracked; the limits
      must leave room for the mapping. *)
  pol_allocate gs h p l mapping count elts flags :
    let st := mkStorage mapping elts count sizeof_ListElement 0 in
    let b' := set_storageRegistry (pol_base p) (storageRegistry (pol_base p) ++ [st]) in
    pol_inv gs h p l → fresh_storage gs (pol_base p) (pol_roots p) st →
    gs mapping ≤ staticMaxMemory (pol_base p) → checkHasEnoughMem gs b' = true →
    ∃ h' p', pol_allocateElementStorage gs h p mapping count elts flags = Ok (h', p') ∧
      pol_base p' = b' ∧ pol_roots p' = pol_roots p ∧ pol_inv gs h' p' l ∧
      ∀ x, x ∉ storage_elems st → h' !! x = h !! x;
  (** The elements of a released array are no longer tracked nor registered. *)
  pol_free gs h p l mapping st :
    pol_inv gs h p l → getStorageInfo (pol_base p) mapping = Ok st →
    ∃ h' p', pol_freeElementStorage gs h p mapping = Ok (h', p') ∧
      pol_base p' = set_storageRegistry (pol_base p)
        (filter (λ it, ps_mapping it ≠ mapping) (storageRegistry (pol_base p))) ∧
      pol_roots p' = pol_roots p ∧ pol_inv gs h' p' (filter (λ e, e ∉ storage_elems st) l) ∧
      ∀ x, x ∉ all_elems (pol_base p) ++ pol_roots p → h' !! x = h !! x;
  (** Only the segment sizes of the registered mappings matter. *)
  pol_resize gs gs' h p l :
    pol_inv gs h p l →
    (∀ st, st ∈ storageRegistry (pol_base p) → gs' (ps_mapping st) = gs (ps_mapping st)) →
    pol_inv gs' h p l;
  (** The elements of the policy are its own memory. *)
  pol_frame gs h h' p l :
    pol_inv gs h p l → (∀ x, x ∈ all_elems (pol_base p) ++ pol_roots p → h' !! x = h !! x) →
    pol_inv gs h' p l;
  (** The limit and the quota are not part of the invariant. *)
  pol_reset gs h p l b :
    pol_inv gs h p l → storageRegistry b = storageRegistry (pol_base p) →
    pol_inv gs h (pol_set_base p b) l ∧ pol_base (pol_set_base p b) = b ∧
    pol_roots (pol_set_base p b) = pol_roots p ∧
    pol_getCurrentMemory (pol_set_base p b) = pol_getCurrentMemory p;
}.

(** ** The FIFO and LIFO policies are tracking policies *)

(** The newest element is kept when it fits by itself. *)
Lemma kept_head sz max e l :
  0 ≤ sz e ≤ max → (∀ x, x ∈ l → 0 ≤ sz x) →
  e ∈ kept_of sz max 0 (e :: l).
Proof.
  intros He Hl. unfold kept_of. rewrite reverse_cons, elem_of_reverse.
  assert (Hl' : ∀ x, x ∈ reverse l → 0 ≤ sz x) by (intros x Hx; rewrite elem_of_reverse in Hx; auto).
  clear Hl. revert Hl'. generalize (reverse l) as rl.
  induction rl as [|a rl IH]; intros Hl'; cbn [app drop_oldest].
  - cbn [sumZ]. destruct (Z.leb_spec (0 + (sz e + 0)) max); [|lia]. cbn. set_solver.
  - destruct (_ <=? max); cbn [fst]; [rewrite elem_of_cons, elem_of_app; set_solver|].
    specialize (IH ltac:(intros; apply Hl'; by right)).
    destruct (drop_oldest sz max 0 (rl ++ [e])) as [ks vs]. exact IH.
Qed.

(** Too many victims are victims of a list at least as long. *)
Lemma too_many_victims sz max extra l :
  ¬ Z.of_nat (length (victims_of sz max extra l)) < maxIdsToEvict → maxIdsToEvict ≤ Z.of_nat (length l).
Proof.
  intros Hn. pose proof (drop_oldest_app sz max extra (reverse l)) as Hl%(f_equal length).
  rewrite length_app, length_reverse in Hl. unfold victims_of in Hn. lia.
Qed.

Section Tracked.
Context (gs : Z → Z) (b : Policy) (root mem : Z) (h : heap) (l : list Z).

(** Elements and their sizes under the common invariant. *)
Lemma tracked_sizes : tracked gs b root mem h l → ∀ x, x ∈ l → 0 ≤ elt_size gs b x.
Proof.
  intros Ht x Hx. pose proof (elt_size_pos gs b (tr_wf _ _ _ _ _ _ Ht) x) as Hp.
  specialize (Hp ltac:(by eapply tracked_in)). lia.
Qed.

Lemma tracked_frame h' :
  tracked gs b root mem h l → (∀ x, x ∈ all_elems b ++ [root] → h' !! x = h !! x) →
  tracked gs b root mem h' l.
Proof.
  intros [Hp Hwf Hm] Hf. split; [|done|done]. eapply pool_frame; [done|].
  intros x Hx. apply Hf. rewrite elem_of_app, list_elem_of_singleton. done.
Qed.

(** Not in the memory of the policy, as the runs state it. *)
Lemma not_own (x : Z) : x ∉ all_elems b ++ [root] → x ∉ all_elems b ∧ x ≠ root.
Proof. rewrite not_elem_of_app, list_elem_of_singleton. done. Qed.

Lemma tracked_reset b' :
  tracked gs b root mem h l → storageRegistry b' = storageRegistry b → tracked gs b' root mem h l.
Proof.
  intros [Hp [H1 H2 H3 H4] Hm] Hr. unfold all_elems, mem_of, elt_size in *. split.
  - unfold all_elems. by rewrite Hr.
  - split; rewrite Hr; done.
  - unfold mem_of, elt_size. by rewrite Hr.
Qed.
End Tracked.

#[export] Program Instance Fifo_tracking : TrackingPolicy FifoPolicy.FifoPolicy := {
  pol_inv := FifoPolicy.fifo_inv;
  pol_roots p := [FifoPolicy.root p];
}.
Next Obligation. intros gs h p l Hi. apply Hi. Qed.
Next Obligation. intros gs h p l Hi. split; [by eapply tracked_NoDup|intros; by eapply tracked_in]. Qed.
Next Obligation. intros gs h p l Hi. apply Hi. Qed.
Next Obligation.
  intros gs h p l mapping st index fuel Hi Hst Hix Hlim Hf. cbn in *.
  pose proof Hst as [Hin Hm]%getStorageInfo_inv. pose proof (tr_wf _ _ _ _ _ _ Hi) as Hwf.
  set (e := element st index).
  assert (He : e ∈ all_elems (FifoPolicy.base p)) by (by apply element_in).
  assert (Hse : elt_size gs (FifoPolicy.base p) e = gs mapping) by (rewrite <- Hm; by apply elt_size_element).
  pose proof (elt_size_pos _ _ Hwf e He) as Hpos.
  pose proof (FifoPolicy.fifo_touch_run gs h p l mapping st index fuel Hi Hst Hix ltac:(lia) Hf) as Hrun.
  cbv zeta in Hrun. fold e in Hrun. destruct (decide _); [right|by left].
  destruct Hrun as (h' & p' & Hrun & Hb & Hroot & Hi' & Hle & Hfr). rewrite <- Hb in Hle.
  destruct (kept_victims (elt_size gs (FifoPolicy.base p)) (dynamicMaxMemory (FifoPolicy.base p)) 0
    (e :: without e l) ltac:(lia)) as (Hsplit & _ & _).
  eexists h', p', _, _, _. split; [exact Hrun|]. split; [done|].
  split; [by rewrite Hroot|]. split; [exact Hi'|].
  split; [intros x [Hx Hxr]%not_own; by apply Hfr|]. split; [done|].
  split; [rewrite Hsplit at 1; by rewrite reverse_Permutation|]. split; [|by rewrite <- Hb].
  apply kept_head; [lia|]. intros x [Hx _]%elem_of_without. by eapply tracked_sizes.
Qed.
Next Obligation.
  intros gs h p l fuel Hi Hmax Hf. cbn in *.
  pose proof (FifoPolicy.fifo_shrink_run gs h p l fuel Hi Hmax Hf) as Hrun. cbv zeta in Hrun.
  destruct (decide _) as [?|Hmany]; [right|left; split; [done|by eapply too_many_victims]].
  destruct Hrun as (h' & p' & Hrun & Hb & Hroot & Hi' & Hle & Hfr).
  destruct (kept_victims (elt_size gs (FifoPolicy.base p)) (dynamicMaxMemory (FifoPolicy.base p)) 0 l Hmax)
    as (Hsplit & _ & _).
  eexists h', p', _, _. split; [exact Hrun|]. split; [done|].
  split; [by rewrite Hroot|]. split; [exact Hi'|].
  split; [intros x [Hx Hxr]%not_own; by apply Hfr|].
  split; [rewrite Hsplit at 1; by rewrite reverse_Permutation|done].
Qed.
Next Obligation.
  intros gs h p l mapping count elts flags st b' Hi Hfs Hs Hm.
  exists (newElements h elts count), (FifoPolicy.mkFifo b' (FifoPolicy.root p) (FifoPolicy.currentMemory p)).
  split; [cbn; unfold FifoPolicy.allocateElementStorage; by rewrite registerMapping_ok|].
  do 2 (split; [done|]). split; [by apply (tracked_register gs _ _ _ h)|].
  intros x Hx. by apply (newElements_fresh gs h st).
Qed.
Next Obligation.
  intros gs h p l mapping st Hi Hst.
  destruct (tracked_free gs _ _ _ _ _ _ _ Hi Hst) as (h1 & h2 & mem' & Hrel & Hun & Hdel & Ht & Hfr).
  eexists h2, (FifoPolicy.mkFifo _ (FifoPolicy.root p) mem').
  split; [|do 2 (split; [done|]); split; [exact Ht|intros x [Hx Hxr]%not_own; by apply Hfr]].
  change (getStorageInfo (FifoPolicy.base p) mapping = Ok st) in Hst.
  change (pol_freeElementStorage gs h p mapping) with (FifoPolicy.freeElementStorage gs h p mapping).
  unfold FifoPolicy.freeElementStorage. rewrite Hst. cbn [mbind result_bind]. rewrite Hrel.
  cbn [mbind result_bind]. rewrite Hun. cbn [mbind result_bind]. by rewrite Hdel.
Qed.
Next Obligation. intros gs gs' h p l Hi Hgs. by apply (tracked_resize gs). Qed.
Next Obligation. intros gs h h' p l Hi Hf. by apply (tracked_frame gs _ _ _ h). Qed.
Next Obligation. intros gs h p l b Hi Hr. split; [|done]. by apply (tracked_reset gs (FifoPolicy.base p)). Qed.

#[export] Program Instance Lifo_tracking : TrackingPolicy LifoPolicy.LifoPolicy := {
  pol_inv := LifoPolicy.lifo_inv;
  pol_roots p := [LifoPolicy.root p];
}.
Next Obligation. intros gs h p l Hi. apply Hi. Qed.
Next Obligation. intros gs h p l Hi. split; [by eapply tracked_NoDup|intros; by eapply tracked_in]. Qed.
Next Obligation. intros gs h p l Hi. apply Hi. Qed.
Next Obligation.
  intros gs h p l mapping st index fuel Hi Hst Hix Hlim Hf. cbn in *.
  pose proof Hst as [Hin Hm]%getStorageInfo_inv. pose proof (tr_wf _ _ _ _ _ _ Hi) as Hwf.
  set (e := element st index).
  assert (Hse : elt_size gs (LifoPolicy.base p) e = gs mapping) by (rewrite <- Hm; by apply elt_size_element).
  pose proof (LifoPolicy.lifo_touch_run gs h p l mapping st index fuel Hi Hst Hix Hlim ltac:(lia)) as Hrun.
  cbv zeta in Hrun. fold e in Hrun. destruct (decide _); [right|by left].
  destruct Hrun as (h' & p' & Hrun & Hb & Hroot & Hi' & Hle & Hfr).
  destruct (kept_victims (elt_size gs (LifoPolicy.base p)) (dynamicMaxMemory (LifoPolicy.base p))
    (elt_size gs (LifoPolicy.base p) e) (without e l) ltac:(lia)) as (Hsplit & _ & _).
  eexists h', p', _, _, _. split; [exact Hrun|]. split; [done|].
  split; [by rewrite Hroot|]. split; [exact Hi'|].
  split; [intros x [Hx Hxr]%not_own; by apply Hfr|]. split; [done|].
  split; [|split; [apply elem_of_app; right; apply list_elem_of_singleton; done|done]].
  rewrite Hsplit at 1. rewrite reverse_Permutation. rewrite <- app_assoc. apply Permutation_middle.
Qed.
Next Obligation.
  intros gs h p l fuel Hi Hmax Hf. cbn in *.
  pose proof (LifoPolicy.lifo_shrink_run gs h p l fuel Hi Hmax Hf) as Hrun. cbv zeta in Hrun.
  destruct (decide _) as [?|Hmany]; [right|left; split; [done|by eapply too_many_victims]].
  destruct Hrun as (h' & p' & Hrun & Hb & Hroot & Hi' & Hle & Hfr).
  destruct (kept_victims (elt_size gs (LifoPolicy.base p)) (dynamicMaxMemory (LifoPolicy.base p)) 0 l Hmax)
    as (Hsplit & _ & _).
  eexists h', p', _, _. split; [exact Hrun|]. split; [done|].
  split; [by rewrite Hroot|]. split; [exact Hi'|].
  split; [intros x [Hx Hxr]%not_own; by apply Hfr|].
  split; [rewrite Hsplit at 1; by rewrite reverse_Permutation|done].
Qed.
Next Obligation.
  intros gs h p l mapping count elts flags st b' Hi Hfs Hs Hm.
  exists (newElements h elts count), (LifoPolicy.mkLifo b' (LifoPolicy.root p) (LifoPolicy.currentMemory p)).
  split; [cbn; unfold LifoPolicy.allocateElementStorage; by rewrite registerMapping_ok|].
  do 2 (split; [done|]). split; [by apply (tracked_register gs _ _ _ h)|].
  intros x Hx. by apply (newElements_fresh gs h st).
Qed.
Next Obligation.
  intros gs h p l mapping st Hi Hst.
  destruct (tracked_free gs _ _ _ _ _ _ _ Hi Hst) as (h1 & h2 & mem' & Hrel & Hun & Hdel & Ht & Hfr).
  eexists h2, (LifoPolicy.mkLifo _ (LifoPolicy.root p) mem').
  split; [|do 2 (split; [done|]); split; [exact Ht|intros x [Hx Hxr]%not_own; by apply Hfr]].
  change (getStorageInfo (LifoPolicy.base p) mapping = Ok st) in Hst.
  change (pol_freeElementStorage gs h p mapping) with (LifoPolicy.freeElementStorage gs h p mapping).
  unfold LifoPolicy.freeElementStorage. rewrite Hst. cbn [mbind result_bind]. rewrite Hrel.
  cbn [mbind result_bind]. rewrite Hun. cbn [mbind result_bind]. by rewrite Hdel.
Qed.
Next Obligation. intros gs gs' h p l Hi Hgs. by apply (tracked_resize gs). Qed.
Next Obligation. intros gs h h' p l Hi Hf. by apply (tracked_frame gs _ _ _ h). Qed.
Next Obligation. intros gs h p l b Hi Hr. split; [|done]. by apply (tracked_reset gs (LifoPolicy.base p)). Qed.

(** ** A process with FIFO and LIFO policies

    The window policy is dispatched to but is not a tracking policy: its memory can
    pass the limit ([window_exceeds_max_memory]). *)

Definition any_inv (gs : Z → Z) (h : heap) (q : AnyPolicy) (l : list Z) : Prop :=
  match q with
  | PFifo p => pol_inv gs h p l
  | PLifo p => pol_inv gs h p l
  | PWindow _ => False
  end.

Definition any_roots (q : AnyPolicy) : list Z :=
  match q with PFifo p => pol_roots p | PLifo p => pol_roots p | PWindow _ => [] end.

#[export] Program Instance Any_tracking : TrackingPolicy AnyPolicy := {
  pol_inv := any_inv;
  pol_roots := any_roots;
}.
Next Obligation. intros gs h [p|p|p] l Hi; [by apply (pol_wf gs h p l)..|done]. Qed.
Next Obligation. intros gs h [p|p|p] l Hi; [by apply (pol_elems gs h p l)..|done]. Qed.
Next Obligation. intros gs h [p|p|p] l Hi; [by apply (pol_memory gs h p l)..|done]. Qed.
Next Obligation.
  intros gs h [p|p|p] l mapping st index fuel Hi Hst Hix Hlim Hf; [| |done]; cbn [any_inv] in Hi;
    destruct (pol_touch gs h p l mapping st index fuel Hi Hst Hix Hlim Hf)
      as [E|(h' & p' & t & ks & vs & E & Hrest)].
  1, 3: left; cbn in E |- *; unfold lift_with; by rewrite E.
  - right. exists h', (PFifo p'), t, ks, vs. split; [cbn in E |- *; unfold lift_with; by rewrite E|exact Hrest].
  - right. exists h', (PLifo p'), t, ks, vs. split; [cbn in E |- *; unfold lift_with; by rewrite E|exact Hrest].
Qed.
Next Obligation.
  intros gs h [p|p|p] l fuel Hi Hmax Hf; [| |done]; cbn [any_inv] in Hi;
    destruct (pol_shrink gs h p l fuel Hi Hmax Hf) as [[E Hmany]|(h' & p' & ks & vs & E & Hrest)].
  1, 3: left; split; [cbn in E |- *; unfold lift_with; by rewrite E|done].
  - right. exists h', (PFifo p'), ks, vs. split; [cbn in E |- *; unfold lift_with; by rewrite E|exact Hrest].
  - right. exists h', (PLifo p'), ks, vs. split; [cbn in E |- *; unfold lift_with; by rewrite E|exact Hrest].
Qed.
Next Obligation.
  intros gs h [p|p|p] l mapping count elts flags st b' Hi Hfs Hs Hm; [| |done]; cbn [any_inv] in Hi;
    destruct (pol_allocate gs h p l mapping count elts flags Hi Hfs Hs Hm) as (h' & p' & E & Hrest).
  - exists h', (PFifo p'). split; [cbn in E |- *; unfold lift; by rewrite E|exact Hrest].
  - exists h', (PLifo p'). split; [cbn in E |- *; unfold lift; by rewrite E|exact Hrest].
Qed.
Next Obligation.
  intros gs h [p|p|p] l mapping st Hi Hst; [| |done]; cbn [any_inv] in Hi;
    destruct (pol_free gs h p l mapping st Hi Hst) as (h' & p' & E & Hrest).
  - exists h', (PFifo p'). split; [cbn in E |- *; unfold lift; by rewrite E|exact Hrest].
  - exists h', (PLifo p'). split; [cbn in E |- *; unfold lift; by rewrite E|exact Hrest].
Qed.
Next Obligation. intros gs gs' h [p|p|p] l Hi Hgs; [by apply (pol_resize gs gs' h p l)..|done]. Qed.
Next Obligation. intros gs h h' [p|p|p] l Hi Hf; [by apply (pol_frame gs h h' p l)..|done]. Qed.
Next Obligation. intros gs h [p|p|p] l b Hi Hr; [by apply (pol_reset gs h p l b)..|done]. Qed.
