(* ===== verification/OS.v ===== *)
(** * The process address space and the OS layer (src/src/portability/UnixOS.cpp)

    An address space gives every byte a value and every mapped byte a protection.
    [OS::mmap*] return an address chosen by the kernel: it is an argument of the
    definitions ([got], [None] for [MAP_FAILED]).  [mprotect], [madvise] and
    [mremap] act on the pages of the process as their manual pages say for private
    anonymous memory: [MADV_DONTNEED] makes the pages read as zeroes, [mremap] with
    [MREMAP_FIXED] moves contents and protection and unmaps the old range.  The source
    tests what [munmap] and [mremap] return ([munmap_returning], [mremapForced_returning]);
    the rest of the development is about a process where they succeed, as they do on the
    ranges the program has mapped unless the kernel runs out of areas.  The source does not
    look at what [mprotect] and [madvise] return. *)

From S2P Require Import Prelude.

Definition UMMAP_PAGE_SIZE : Z := 4096.

Record prot := mkProt { p_read : bool; p_write : bool; p_exec : bool }.

#[export] Instance prot_eq_dec : EqDecision prot.
Proof. solve_decision. Defined.

Definition PROT_NONE_bits : prot := mkProt false false false.

(** [vm_prot] is [None] where nothing is mapped. *)
Record vm := mkVm { vm_mem : Z → Z; vm_prot : Z → option prot }.

Definition in_range (base size x : Z) : bool := (base <=? x) && (x <? base + size).

Definition set_prot (v : vm) (ptr size : Z) (p : option prot) : vm :=
  mkVm (vm_mem v) (λ x, if in_range ptr size x then p else vm_prot v x).

Definition zero_range (v : vm) (ptr size : Z) : vm :=
  mkVm (λ x, if in_range ptr size x then 0 else vm_mem v x) (vm_prot v).

(** A buffer of the program: [data] stored at [ptr], and [n] bytes read from it. *)
Definition write_bytes (v : vm) (ptr : Z) (data : list Z) : vm :=
  mkVm (λ x, if in_range ptr (Z.of_nat (length data)) x
             then default 0 (data !! Z.to_nat (x - ptr)) else vm_mem v x) (vm_prot v).
Definition read_bytes (v : vm) (ptr n : Z) : list Z :=
  (λ i, vm_mem v (ptr + i)) <$> seqZ 0 n.

(** The program's own accesses. *)
Definition readable (v : vm) (a : Z) : bool :=
  match vm_prot v a with Some p => p_read p | None => false end.
Definition writable (v : vm) (a : Z) : bool :=
  match vm_prot v a with Some p => p_write p | None => false end.
Definition poke (v : vm) (a b : Z) : vm :=
  mkVm (λ x, if x =? a then b else vm_mem v x) (vm_prot v).

(** ** UnixOS *)

Definition mmapProtNone (v : vm) (got : option Z) (size : Z) : result (Z * vm) :=
  cassert (size mod UMMAP_PAGE_SIZE =? 0) "size % UMMAP_PAGE_SIZE == 0";;
  cassert (0 <? size) "size > 0";;
  match got with
  | None => Err (Fatal "Fail to call mmap with size")
  | Some ptr => Ok (ptr, set_prot (zero_range v ptr size) ptr size (Some PROT_NONE_bits))
  end.

Definition mmapProtFull (v : vm) (got : option Z) (size : Z) (exec : bool) : result (Z * vm) :=
  cassert (size mod UMMAP_PAGE_SIZE =? 0) "size % UMMAP_PAGE_SIZE == 0";;
  cassert (0 <? size) "size > 0";;
  match got with
  | None => Err (Fatal "Fail to call mmap with size")
  | Some ptr => Ok (ptr, set_prot (zero_range v ptr size) ptr size (Some (mkProt true true exec)))
  end.

(** With the status of the system call. *)
Definition munmap_returning (status : Z) (v : vm) (ptr size : Z) : result vm :=
  cassert (negb (ptr =? 0)) "ptr != NULL";;
  cassert (size mod UMMAP_PAGE_SIZE =? 0) "size % UMMAP_PAGE_SIZE == 0";;
  cassert (0 <? size) "size > 0";;
  assume (status =? 0) "Fail to call munmap with ptr=%1, size=%2 : %3";;
  Ok (set_prot v ptr size None).

Definition munmap : vm → Z → Z → result vm := munmap_returning 0.

(** With the address the system call returns, [None] for [MAP_FAILED]. *)
Definition mremapForced_returning (got : option Z) (v : vm) (oldPtr size newPtr : Z) : result vm :=
  cassert (negb (newPtr =? 0)) "newPtr != NULL";;
  cassert (negb (oldPtr =? 0)) "oldPtr != NULL";;
  cassert (newPtr mod UMMAP_PAGE_SIZE =? 0) "newPtr % UMMAP_PAGE_SIZE == 0";;
  cassert (oldPtr mod UMMAP_PAGE_SIZE =? 0) "oldPtr % UMMAP_PAGE_SIZE == 0";;
  cassert (0 <? size) "size > 0";;
  cassert (size mod UMMAP_PAGE_SIZE =? 0) "size % UMMAP_PAGE_SIZE == 0";;
  if newPtr =? oldPtr then Ok v
  else
    match got with
    | None => Err (Fatal "Fail to call mremap : %1")
    | Some res =>
        assume (res =? newPtr) "Fail to mremap the segment to a given address, got a different one !";;
        Ok (mkVm
          (λ x, if in_range newPtr size x then vm_mem v (oldPtr + (x - newPtr)) else vm_mem v x)
          (λ x, if in_range newPtr size x then vm_prot v (oldPtr + (x - newPtr))
                else if in_range oldPtr size x then None else vm_prot v x))
    end.

Definition mremapForced (v : vm) (oldPtr size newPtr : Z) : result vm :=
  mremapForced_returning (Some newPtr) v oldPtr size newPtr.

Definition mprotect (v : vm) (ptr size : Z) (read write exec : bool) : result vm :=
  cassert (negb (ptr =? 0)) "ptr != NULL";;
  cassert (ptr mod UMMAP_PAGE_SIZE =? 0) "ptr % UMMAP_PAGE_SIZE == 0";;
  cassert (0 <? size) "size > 0";;
  cassert (size mod UMMAP_PAGE_SIZE =? 0) "size % UMMAP_PAGE_SIZE == 0";;
  Ok (set_prot v ptr size (Some (mkProt read write exec))).

Definition madviseDontNeed (v : vm) (ptr size : Z) : vm := zero_range v ptr size.

(** ** Lemmas *)

Lemma in_range_spec base size x : in_range base size x = true ↔ base ≤ x < base + size.
Proof. unfold in_range. rewrite andb_true_iff, Z.leb_le, Z.ltb_lt. tauto. Qed.

Lemma in_range_false base size x : in_range base size x = false ↔ ¬ (base ≤ x < base + size).
Proof. rewrite <- in_range_spec. destruct (in_range base size x); split; congruence. Qed.

(** Case analysis on the ranges in the goal. *)
Ltac case_range :=
  repeat match goal with
  | |- context [in_range ?b ?s ?x] =>
      let H := fresh "Hrange" in
      destruct (in_range b s x) eqn:H; [apply in_range_spec in H|apply in_range_false in H]
  end.

Lemma length_read_bytes v ptr n : 0 ≤ n → Z.of_nat (length (read_bytes v ptr n)) = n.
Proof. intros. unfold read_bytes. rewrite length_fmap, length_seqZ. lia. Qed.

Lemma read_bytes_lookup v ptr n i :
  0 ≤ i < n → read_bytes v ptr n !! Z.to_nat i = Some (vm_mem v (ptr + i)).
Proof.
  intros Hi. unfold read_bytes. rewrite list_lookup_fmap, lookup_seqZ_lt by lia.
  cbn. do 2 f_equal. lia.
Qed.

(** Two address spaces agree on a range. *)
Definition same_on (v v' : vm) (P : Z → Prop) : Prop :=
  ∀ x, P x → vm_mem v' x = vm_mem v x ∧ vm_prot v' x = vm_prot v x.

Definition page_aligned (a size : Z) : Prop :=
  0 < a ∧ a mod UMMAP_PAGE_SIZE = 0 ∧ 0 < size ∧ size mod UMMAP_PAGE_SIZE = 0.

Lemma page_aligned_checks a size :
  page_aligned a size →
  (a =? 0) = false ∧ (a mod UMMAP_PAGE_SIZE =? 0) = true ∧ (0 <? size) = true ∧
  (size mod UMMAP_PAGE_SIZE =? 0) = true.
Proof.
  intros (H1 & H2 & H3 & H4). rewrite Z.eqb_neq, Z.ltb_lt, !Z.eqb_eq. lia.
Qed.

Lemma mprotect_ok v ptr size r w x :
  page_aligned ptr size →
  mprotect v ptr size r w x = Ok (set_prot v ptr size (Some (mkProt r w x))).
Proof.
  intros (H1 & H2 & H3 & H4)%page_aligned_checks. unfold mprotect. by rewrite H1, H2, H3, H4.
Qed.

Lemma mmapProtFull_ok v ptr size exec :
  page_aligned ptr size →
  mmapProtFull v (Some ptr) size exec =
  Ok (ptr, set_prot (zero_range v ptr size) ptr size (Some (mkProt true true exec))).
Proof.
  intros (H1 & H2 & H3 & H4)%page_aligned_checks. unfold mmapProtFull. by rewrite H3, H4.
Qed.

Lemma mremapForced_ok v oldPtr size newPtr :
  page_aligned oldPtr size → page_aligned newPtr size → newPtr ≠ oldPtr →
  mremapForced v oldPtr size newPtr = Ok (mkVm
    (λ x, if in_range newPtr size x then vm_mem v (oldPtr + (x - newPtr)) else vm_mem v x)
    (λ x, if in_range newPtr size x then vm_prot v (oldPtr + (x - newPtr))
          else if in_range oldPtr size x then None else vm_prot v x)).
Proof.
  intros (H1 & H2 & H3 & H4)%page_aligned_checks (H1' & H2' & _ & _)%page_aligned_checks Hne.
  unfold mremapForced, mremapForced_returning. rewrite H1, H2, H3, H4, H1', H2'. apply Z.eqb_neq in Hne.
  rewrite Hne. cbn. by rewrite Z.eqb_refl.
Qed.
