(* ===== verification/Driver.v ===== *)
(** * Drivers (src/src/core/Driver.cpp, src/src/drivers)

    [DriverOps] is the virtual interface of class [Driver]: what a mapping calls.
    Buffers are addresses in the process memory, so the operations that fill or
    read them take the address space.  [base_*] are the default bodies of the base
    class.  [StorageDriver] states what a mapping relies on: a driver that stores
    bytes and leaves the memory mapping to the library.  The drivers of the
    repository are instances of [DriverOps]; those that keep data are instances of
    [StorageDriver], so every theorem on mappings applies to them. *)

From S2P Require Import Prelude OS.

(** ** The interface *)

(** The state of class [Driver]. *)
Record DriverBase := mkDriverBase { autoclean : bool; driver_uri : string }.
Definition newDriver : DriverBase := mkDriverBase false "".
Definition setAutoclean (b : DriverBase) (status : bool) : DriverBase :=
  mkDriverBase status (driver_uri b).
Definition hasAutoclean (b : DriverBase) : bool := autoclean b.
Definition driver_setUri (b : DriverBase) (u : string) : DriverBase :=
  mkDriverBase (autoclean b) u.
Definition driver_getUri (b : DriverBase) : string := driver_uri b.

Class DriverOps (D : Type) := {
  driver_base : D → DriverBase;
  (** [pwrite(buffer, size, offset)]: returned value and driver. *)
  pwrite : D → vm → Z → Z → Z → result (Z * D);
  (** [pread(buffer, size, offset)]: it stores into the buffer. *)
  pread : D → vm → Z → Z → Z → result (Z * (D * vm));
  (** [sync(ptr, offset, size)]. *)
  dsync : D → vm → Z → Z → Z → result (D * vm);
  (** [directMmap(addr, size, offset, ...)]; [got] is the address the kernel would
      choose for the mapping; 0 is the [NULL] of a driver without direct mapping. *)
  directMmap : D → vm → option Z → Z → Z → prot → result (Z * (D * vm));
  directMunmap : D → vm → Z → Z → Z → result (bool * (D * vm));
  directMSync : D → vm → Z → Z → Z → result (bool * (D * vm));
  establish_mapping : D → Z → Z → bool → result (Z * D);
  erase_mapping : D → Z → Z → Z → bool → result D;
  checkThreadSafety : D → result bool;
}.

(** The default bodies of class [Driver]. *)
Definition base_directMmap {D} (d : D) (v : vm) (got : option Z) (size offset : Z) (p : prot)
    : result (Z * (D * vm)) := Ok (0, (d, v)).
Definition base_directMunmap {D} (d : D) (v : vm) (base size offset : Z)
    : result (bool * (D * vm)) := Ok (false, (d, v)).
Definition base_directMSync {D} (d : D) (v : vm) (base size offset : Z)
    : result (bool * (D * vm)) := Ok (false, (d, v)).
Definition base_establish_mapping {D} (d : D) (offset size : Z) (write : bool)
    : result (Z * D) := Ok (0, d).
Definition base_erase_mapping {D} (d : D) (data offset size : Z) (write : bool)
    : result D := Ok d.
Definition base_checkThreadSafety {D} (d : D) : result bool := Ok true.

(** ** What a mapping relies on *)

Class StorageDriver (D : Type) `{DriverOps D} := {
  (** The byte stored at an offset, the number of bytes that can be stored, and the
      driver's own invariant. *)
  content : D → Z → Z;
  capacity : D → Z;
  driver_ok : D → Prop;
  (** A read into zeroed memory makes the memory equal to the storage. *)
  pread_law d v buf size off :
    driver_ok d → buf ≠ 0 → 0 < size → 0 ≤ off → off + size ≤ capacity d →
    (∀ x, buf ≤ x < buf + size → vm_mem v x = 0) →
    ∃ n v', pread d v buf size off = Ok (n, (d, v')) ∧ 0 ≤ n ∧
      (∀ x, vm_prot v' x = vm_prot v x) ∧
      ∀ x, vm_mem v' x = if in_range buf size x then content d (off + (x - buf)) else vm_mem v x;
  pwrite_law d v buf size off :
    driver_ok d → buf ≠ 0 → 0 < size → 0 ≤ off → off + size ≤ capacity d →
    ∃ n d', pwrite d v buf size off = Ok (n, d') ∧ 0 ≤ n ∧ driver_ok d' ∧
      capacity d' = capacity d ∧
      ∀ x, content d' x = if in_range off size x then vm_mem v (buf + (x - off)) else content d x;
  capacity_law d : driver_ok d → capacity d < SIZE_MOD;
  (** Synchronising a range that starts inside the storage changes no data. *)
  dsync_law d v ptr off size :
    driver_ok d → 0 ≤ off < capacity d → dsync d v ptr off size = Ok (d, v);
  directMmap_law d v got size off p : driver_ok d → directMmap d v got size off p = Ok (0, (d, v));
  directMunmap_law d v base size off : driver_ok d → directMunmap d v base size off = Ok (false, (d, v));
  directMSync_law d v base size off : driver_ok d → directMSync d v base size off = Ok (false, (d, v));
  establish_law d off size w : driver_ok d → establish_mapping d off size w = Ok (0, d);
  erase_law d id off size w : driver_ok d → erase_mapping d id off size w = Ok d;
  thread_safety_law d : driver_ok d → checkThreadSafety d = Ok true;
}.

(** ** The dummy driver (src/src/drivers/DummyDriver.cpp) *)

Record DummyDriver := mkDummy { dummy_base : DriverBase; dummy_value : Z }.

Definition newDummyDriver (value : Z) : DummyDriver := mkDummy newDriver value.

Definition dummy_pwrite (d : DummyDriver) (v : vm) (buffer size offset : Z)
    : result (Z * DummyDriver) :=
  cassert (negb (buffer =? 0)) "buffer != NULL";;
  Ok (to_signed size, d).

Definition dummy_pread (d : DummyDriver) (v : vm) (buffer size offset : Z)
    : result (Z * (DummyDriver * vm)) :=
  cassert (negb (buffer =? 0)) "buffer != NULL";;
  Ok (to_signed size, (d, write_bytes v buffer (replicate (Z.to_nat size) (dummy_value d)))).

Definition dummy_sync (d : DummyDriver) (v : vm) (ptr offset size : Z)
    : result (DummyDriver * vm) := Ok (d, v).

#[export] Instance DummyDriver_ops : DriverOps DummyDriver := {
  driver_base := dummy_base;
  pwrite := dummy_pwrite; pread := dummy_pread; dsync := dummy_sync;
  directMmap := base_directMmap; directMunmap := base_directMunmap;
  directMSync := base_directMSync; establish_mapping := base_establish_mapping;
  erase_mapping := base_erase_mapping; checkThreadSafety := base_checkThreadSafety }.

(** ** The memory driver (src/src/drivers/MemoryDriver.cpp) *)

Record MemoryDriver := mkMemory {
  md_base : DriverBase;
  md_size : Z;
  md_buffer : list Z;
}.

Definition newMemoryDriver (size defaultValue : Z) : result MemoryDriver :=
  cassert (0 <? size) "size > 0";;
  Ok (mkMemory newDriver size (replicate (Z.to_nat size) defaultValue)).

(** [memcpy(this->buffer + offset, data, ...)]. *)
Definition store_at (l : list Z) (offset : Z) (data : list Z) : list Z :=
  take (Z.to_nat offset) l ++ data ++ drop (Z.to_nat offset + length data) l.

Definition memory_pwrite (d : MemoryDriver) (v : vm) (buffer size offset : Z)
    : result (Z * MemoryDriver) :=
  cassert (negb (buffer =? 0)) "buffer != NULL";;
  assume (offset <? md_size d) "Invalid position, offset overpass memory limit";;
  assume (size ⊕ offset <=? md_size d) "Invalid position, overpass memory limit";;
  Ok (to_signed size,
      mkMemory (md_base d) (md_size d) (store_at (md_buffer d) offset (read_bytes v buffer size))).

Definition memory_pread (d : MemoryDriver) (v : vm) (buffer size offset : Z)
    : result (Z * (MemoryDriver * vm)) :=
  cassert (negb (buffer =? 0)) "buffer != NULL";;
  assume (offset <? md_size d) "Invalid position, offset overpass memory limit";;
  assume (size ⊕ offset <=? md_size d) "Invalid position, overpass memory limit";;
  Ok (to_signed size,
      (d, write_bytes v buffer (take (Z.to_nat size) (drop (Z.to_nat offset) (md_buffer d))))).

(** The [buffer] tested by [sync] is the member, set by the constructor. *)
Definition memory_sync (d : MemoryDriver) (v : vm) (ptr offset size : Z)
    : result (MemoryDriver * vm) :=
  cassert (offset <? md_size d) "offset < this->size";;
  Ok (d, v).

Definition memory_getSize (d : MemoryDriver) : Z := md_size d.

#[export] Instance MemoryDriver_ops : DriverOps MemoryDriver := {
  driver_base := md_base;
  pwrite := memory_pwrite; pread := memory_pread; dsync := memory_sync;
  directMmap := base_directMmap; directMunmap := base_directMunmap;
  directMSync := base_directMSync; establish_mapping := base_establish_mapping;
  erase_mapping := base_erase_mapping; checkThreadSafety := base_checkThreadSafety }.

(** ** Lemmas on byte lists *)

Lemma length_store_at l off data :
  0 ≤ off → off + Z.of_nat (length data) ≤ Z.of_nat (length l) →
  length (store_at l off data) = length l.
Proof. intros. unfold store_at. rewrite !length_app, length_take, length_drop. lia. Qed.

Lemma lookup_store_at l off data x :
  0 ≤ off → off + Z.of_nat (length data) ≤ Z.of_nat (length l) → 0 ≤ x →
  store_at l off data !! Z.to_nat x =
  if in_range off (Z.of_nat (length data)) x then data !! Z.to_nat (x - off) else l !! Z.to_nat x.
Proof.
  intros Ho Hl Hx. unfold store_at. case_range.
  - rewrite lookup_app_r; rewrite length_take; [|lia].
    rewrite lookup_app_l by lia. f_equal. lia.
  - destruct (decide (x < off)).
    + rewrite lookup_app_l by (rewrite length_take; lia). apply lookup_take_lt. lia.
    + rewrite lookup_app_r; rewrite length_take; [|lia].
      rewrite lookup_app_r by lia. rewrite lookup_drop. f_equal. lia.
Qed.

(** The byte at an offset of a byte list, 0 outside it. *)
Definition byte_at (l : list Z) (x : Z) : Z :=
  if x <? 0 then 0 else default 0 (l !! Z.to_nat x).

Lemma byte_at_store_at v l off buf size x :
  0 ≤ off → 0 ≤ size → off + size ≤ Z.of_nat (length l) →
  byte_at (store_at l off (read_bytes v buf size)) x =
  if in_range off size x then vm_mem v (buf + (x - off)) else byte_at l x.
Proof.
  intros Ho Hs Hl. unfold byte_at. destruct (Z.ltb_spec x 0); [case_range; [lia|done]|].
  rewrite lookup_store_at by (rewrite ?length_read_bytes; lia).
  rewrite length_read_bytes by done. case_range; [|done].
  by rewrite read_bytes_lookup by lia.
Qed.

(** Bytes taken from a list and written to memory that was zero. *)
Lemma write_bytes_slice v buf l size off :
  0 ≤ off → 0 < size → (∀ x, buf ≤ x < buf + size → vm_mem v x = 0) →
  ∀ x, vm_mem (write_bytes v buf (take (Z.to_nat size) (drop (Z.to_nat off) l))) x =
       if in_range buf size x then byte_at l (off + (x - buf)) else vm_mem v x.
Proof.
  intros Ho Hs Hz x. unfold write_bytes. cbn [vm_mem]. set (data := take _ _).
  assert (Hlen : Z.of_nat (length data) ≤ size) by (subst data; rewrite length_take; lia).
  assert (Hget : buf ≤ x < buf + size →
    default 0 (data !! Z.to_nat (x - buf)) = byte_at l (off + (x - buf))).
  { intros Hx. unfold byte_at. destruct (Z.ltb_spec (off + (x - buf)) 0); [lia|].
    subst data. rewrite lookup_take_lt by lia. rewrite lookup_drop. do 2 f_equal. lia. }
  case_range; try lia; auto.
  rewrite <- Hget by done. rewrite lookup_ge_None_2 by lia. cbn. apply Hz. lia.
Qed.

Lemma to_signed_small x : 0 ≤ x < 2 ^ 63 → to_signed x = x.
Proof.
  intros Hx. unfold to_signed. rewrite wrap_small by (unfold is_size, SIZE_MOD; lia).
  destruct (Z.ltb_spec x (2 ^ 63)); lia.
Qed.

(** ** The memory driver stores bytes *)

Definition memory_ok (d : MemoryDriver) : Prop :=
  Z.of_nat (length (md_buffer d)) = md_size d ∧ 0 < md_size d < 2 ^ 63.

Lemma memory_checks d buf size off :
  memory_ok d → buf ≠ 0 → 0 < size → 0 ≤ off → off + size ≤ md_size d →
  (buf =? 0) = false ∧ (off <? md_size d) = true ∧ (size ⊕ off <=? md_size d) = true ∧
  to_signed size = size.
Proof.
  intros [Hlen Hsz] Hb Hs Ho Hle. rewrite size_add by (unfold SIZE_MOD; lia).
  rewrite Z.eqb_neq, Z.ltb_lt, Z.leb_le, to_signed_small; lia.
Qed.

#[export] Program Instance MemoryDriver_storage : StorageDriver MemoryDriver := {
  content d := byte_at (md_buffer d);
  capacity := md_size;
  driver_ok := memory_ok;
}.
Next Obligation.
  intros d v buf size off Hd Hb Hs Ho Hc Hz.
  destruct (memory_checks d buf size off) as (H1 & H2 & H3 & H4); try done.
  cbn. unfold memory_pread. rewrite H1, H2, H3, H4. cbn.
  eexists _, _. split; [done|]. split; [lia|]. split; [done|].
  apply write_bytes_slice; done.
Qed.
Next Obligation.
  intros d v buf size off Hd Hb Hs Ho Hc.
  destruct (memory_checks d buf size off) as (H1 & H2 & H3 & H4); try done.
  destruct Hd as [Hlen Hsz]. cbn. unfold memory_pwrite. rewrite H1, H2, H3, H4. cbn.
  eexists _, _. split; [done|]. cbn. split; [lia|]. split.
  - split; cbn; [|lia]. rewrite length_store_at; rewrite ?length_read_bytes; lia.
  - split; [done|]. intros x. apply byte_at_store_at; lia.
Qed.
Next Obligation. intros d [_ H]. unfold SIZE_MOD. lia. Qed.
Next Obligation.
  intros d v ptr off size Hd Hoff. cbn. unfold memory_sync.
  destruct (Z.ltb_spec off (md_size d)); [done|lia].
Qed.
Solve All Obligations with done.
