(* ===== verification/SharedMemory.v ===== *)
(** * Memory drivers that share a buffer (src/src/drivers/MemoryDriver.cpp)

    A memory driver built from another one points to its buffer and to its count of
    sharers; the last one to go frees both.  [Driver] models one driver with its buffer:
    here the buffers are in a store, and an access is the one of [Driver] on the bytes of
    the buffer at that time. *)

From S2P Require Import Prelude OS Driver.

(** The members [share] and [buffer] are made and freed together: one address names both. *)
Record SharedDriver := mkSharedDriver { sd_base : DriverBase; sd_size : Z; sd_buffer : Z }.
Record Buffer := mkBuffer { share : Z; bytes : list Z }.
Abbreviation Buffers := (gmap Z Buffer).

(** [addr] is where the allocator puts the buffer. *)
Definition newShared (s : Buffers) (addr size defaultValue : Z) : result (SharedDriver * Buffers) :=
  d ← newMemoryDriver size defaultValue;
  Ok (mkSharedDriver (md_base d) (md_size d) addr, <[addr := mkBuffer 1 (md_buffer d)]> s).

(** The member [size] is not initialised: [garbage] is what it holds. *)
Definition cloneShared (s : Buffers) (garbage : Z) (d : SharedDriver) : result (SharedDriver * Buffers) :=
  b ← deref (s !! sd_buffer d);
  Ok (mkSharedDriver newDriver garbage (sd_buffer d), <[sd_buffer d := mkBuffer (share b + 1) (bytes b)]> s).

Definition deleteShared (s : Buffers) (d : SharedDriver) : result Buffers :=
  b ← deref (s !! sd_buffer d);
  if share b =? 1 then Ok (delete (sd_buffer d) s)
  else Ok (<[sd_buffer d := mkBuffer (share b - 1) (bytes b)]> s).

(** The driver as its methods see it. *)
Definition as_memory (s : Buffers) (d : SharedDriver) : result MemoryDriver :=
  b ← deref (s !! sd_buffer d); Ok (mkMemory (sd_base d) (sd_size d) (bytes b)).

Definition shared_pwrite (s : Buffers) (d : SharedDriver) (v : vm) (buffer size offset : Z) : result (Z * Buffers) :=
  b ← deref (s !! sd_buffer d);
  '(n, d') ← memory_pwrite (mkMemory (sd_base d) (sd_size d) (bytes b)) v buffer size offset;
  Ok (n, <[sd_buffer d := mkBuffer (share b) (md_buffer d')]> s).

Definition shared_pread (s : Buffers) (d : SharedDriver) (v : vm) (buffer size offset : Z) : result (Z * vm) :=
  m ← as_memory s d; '(n, (_, v')) ← memory_pread m v buffer size offset; Ok (n, v').

(** [getBuffer]. *)
Definition shared_getBuffer (d : SharedDriver) : Z := sd_buffer d.

(** ** Sharers are counted *)

(** The live drivers, by an identifier of the object. *)
Record System := mkSystem { drivers : gmap Z SharedDriver; buffers : Buffers }.

Inductive step : System → System → Prop :=
  | step_new s id addr size x d b :
      drivers s !! id = None → buffers s !! addr = None →
      newShared (buffers s) addr size x = Ok (d, b) → step s (mkSystem (<[id := d]> (drivers s)) b)
  | step_clone s id id' garbage d d' b :
      drivers s !! id = Some d → drivers s !! id' = None →
      cloneShared (buffers s) garbage d = Ok (d', b) → step s (mkSystem (<[id' := d']> (drivers s)) b)
  | step_delete s id d b :
      drivers s !! id = Some d → deleteShared (buffers s) d = Ok b → step s (mkSystem (delete id (drivers s)) b)
  | step_write s id d v buffer size offset n b :
      drivers s !! id = Some d → shared_pwrite (buffers s) d v buffer size offset = Ok (n, b) →
      step s (mkSystem (drivers s) b).

(** The drivers on the buffer at [addr]. *)
Definition sharers (s : System) (addr : Z) : gmap Z SharedDriver := filter (λ it, sd_buffer it.2 = addr) (drivers s).

(** Each buffer has as many sharers as it says, at least one, and every driver a buffer. *)
Record counted (s : System) : Prop := {
  ct_share addr b : buffers s !! addr = Some b → share b = Z.of_nat (size (sharers s addr)) ∧ 1 ≤ share b;
  ct_buffer id d : drivers s !! id = Some d → is_Some (buffers s !! sd_buffer d);
}.

Lemma sharers_insert s id d addr b :
  drivers s !! id = None →
  size (sharers (mkSystem (<[id := d]> (drivers s)) b) addr) =
    ((if decide (sd_buffer d = addr) then 1 else 0) + size (sharers s addr))%nat.
Proof.
  intros Hid. unfold sharers. cbn. rewrite map_filter_insert. cbn. case_decide as E.
  - rewrite map_size_insert_None; [done|]. apply map_lookup_filter_None. by left.
  - rewrite (map_filter_delete_not); [done|]. intros y Hy. congruence.
Qed.

Lemma sharers_delete s id d addr b :
  drivers s !! id = Some d →
  size (sharers s addr) =
    ((if decide (sd_buffer d = addr) then 1 else 0) + size (sharers (mkSystem (delete id (drivers s)) b) addr))%nat.
Proof.
  intros Hid. rewrite <- (sharers_insert (mkSystem (delete id (drivers s)) b) id d addr b); [|by cbn; rewrite lookup_delete_eq].
  unfold sharers. cbn. rewrite insert_delete_eq, insert_id by done. done.
Qed.

(** In every reachable state no driver points to a freed buffer, and no buffer is left
    without a driver. *)
Lemma step_counted s s' : counted s → step s s' → counted s'.
Proof.
  intros [Hs Hb] Hstep. destruct Hstep as [s id addr size x d b Hid Ha Hrun|s id id' garbage d d' b Hid Hid' Hrun
    |s id d b Hid Hrun|s id d v buffer size offset n b Hid Hrun].
  - unfold newShared in Hrun. inv_bind Hrun. inv_ok. split; cbn.
    + intros addr' b'. rewrite sharers_insert by done. cbn. rewrite lookup_insert_Some. intros [[<- <-]|[Hne Hb']]; cbn.
      * rewrite decide_True by done. assert (sharers s addr = ∅) as ->; [|rewrite map_size_empty; lia].
        apply map_empty. intros i. apply map_lookup_filter_None. destruct (drivers s !! i) as [d|] eqn:E; [right|by left].
        intros d0 Hd0 Hbuf. cbn in Hbuf. destruct (Hb i d E) as [b' Hb']. congruence.
      * rewrite decide_False by done. by apply Hs.
    + intros i d. rewrite lookup_insert_Some. intros [[<- <-]|[_ Hd]]; cbn; [rewrite lookup_insert_eq; eauto|].
      destruct (Hb i d Hd) as [b' Hb']. rewrite lookup_insert_ne by congruence. eauto.
  - unfold cloneShared in Hrun. inv_bind Hrun. inv_ok. cbn in *.
    destruct (buffers s !! sd_buffer d) as [b'|] eqn:E; [|done]. cbn in *. simplify_eq. split; cbn.
    + intros addr b2. rewrite sharers_insert by done. cbn. rewrite lookup_insert_Some. intros [[<- <-]|[Hne Hb2]]; cbn.
      * rewrite decide_True by done. destruct (Hs _ _ E). lia.
      * rewrite decide_False by done. by apply Hs.
    + intros i d2. rewrite lookup_insert_Some. rewrite lookup_insert_is_Some'.
      intros [[<- <-]|[_ Hd]]; cbn; [by left|right; by eapply Hb].
  - unfold deleteShared in Hrun. inv_bind Hrun.
    destruct (buffers s !! sd_buffer d) as [b'|] eqn:E; [|done]. cbn in *. simplify_eq.
    destruct (Hs _ _ E) as [Hcount Hpos]. pose proof (sharers_delete s id d (sd_buffer d) b Hid) as Hsz.
    rewrite decide_True in Hsz by done.
    destruct (Z.eqb_spec (share a) 1) as [E1|E1]; inv_ok; split; cbn.
    + intros addr b2 [Hne Hb2]%lookup_delete_Some. pose proof (sharers_delete s id d addr (delete (sd_buffer d) (buffers s)) Hid) as Hsz'.
      rewrite decide_False in Hsz' by done. cbn in Hsz'. rewrite <- Hsz'. by apply Hs.
    + intros i d2 [Hne Hd2]%lookup_delete_Some. destruct (decide (sd_buffer d2 = sd_buffer d)) as [Eq|Hne2].
      * exfalso. assert (sharers (mkSystem (delete id (drivers s)) (delete (sd_buffer d) (buffers s))) (sd_buffer d) = ∅) as Hempty
          by (apply map_size_empty_inv; lia).
        assert (Hin : sharers (mkSystem (delete id (drivers s)) (delete (sd_buffer d) (buffers s))) (sd_buffer d) !! i = Some d2).
        { apply map_lookup_filter_Some. cbn. by rewrite lookup_delete_ne. }
        by rewrite Hempty, lookup_empty in Hin.
      * rewrite lookup_delete_ne by done. by eapply Hb.
    + intros addr b2. rewrite lookup_insert_Some. intros [[<- <-]|[Hne Hb2]]; cbn; [lia|].
      pose proof (sharers_delete s id d addr (<[sd_buffer d := mkBuffer (share a - 1) (bytes a)]> (buffers s)) Hid) as Hsz'.
      rewrite decide_False in Hsz' by done. cbn in Hsz'. rewrite <- Hsz'. by apply Hs.
    + intros i d2 [_ Hd2]%lookup_delete_Some. rewrite lookup_insert_is_Some'. right. by eapply Hb.
  - unfold shared_pwrite in Hrun. do 2 inv_bind Hrun. destruct a0 as [n0 d']. inv_ok.
    destruct (buffers s !! sd_buffer d) as [b'|] eqn:E; [|done]. cbn in *. simplify_eq. split; cbn.
    + intros addr b2. rewrite lookup_insert_Some. intros [[<- <-]|[_ Hb2]]; [exact (Hs _ _ E)|by apply Hs].
    + intros i d2 Hd2. rewrite lookup_insert_is_Some'. right. by eapply Hb.
Qed.

Inductive reachable : System → Prop :=
  | reach_start : reachable (mkSystem ∅ ∅)
  | reach_step s s' : reachable s → step s s' → reachable s'.

Lemma reachable_counted s : reachable s → counted s.
Proof.
  induction 1 as [|s s' _ IH Hstep]; [|by eapply step_counted].
  split; cbn; intros *; rewrite lookup_empty; done.
Qed.

(** Every driver alive can be deleted, and read from when its size is the one of its
    buffer: no buffer in use was freed. *)
Lemma reachable_alive s id d :
  reachable s → drivers s !! id = Some d →
  is_ok (deleteShared (buffers s) d) = true ∧ is_ok (as_memory (buffers s) d) = true.
Proof.
  intros Hs Hd. destruct (ct_buffer _ (reachable_counted _ Hs) id d Hd) as [b Hb].
  unfold deleteShared, as_memory. rewrite Hb. cbn. by destruct (share b =? 1).
Qed.

(** What one driver writes, the others on the buffer read. *)
Lemma shared_write_seen s d d' v buffer size offset n s' :
  sd_buffer d' = sd_buffer d → shared_pwrite s d v buffer size offset = Ok (n, s') →
  ∃ m m', as_memory s d = Ok m ∧ memory_pwrite m v buffer size offset = Ok (n, m') ∧
    as_memory s' d' = Ok (mkMemory (sd_base d') (sd_size d') (md_buffer m')).
Proof.
  unfold shared_pwrite, as_memory. intros E Hrun.
  destruct (s !! sd_buffer d) as [b|]; [|discriminate]. cbn in Hrun |- *. inv_bind Hrun.
  destruct a as [n0 m']. inv_ok. rewrite E. cbn. rewrite lookup_insert_eq. cbn. eauto.
Qed.

(** A clone whose [size] happens to be 0 refuses every access. *)
Lemma clone_size_zero s d d' s' v buffer size offset :
  cloneShared s 0 d = Ok (d', s') → buffer ≠ 0 → 0 ≤ offset →
  ∃ msg, shared_pread s' d' v buffer size offset = Err (Fatal msg).
Proof.
  unfold cloneShared. intros Hrun Hb Ho. inv_bind Hrun. inv_ok. unfold shared_pread, as_memory. cbn.
  rewrite lookup_insert_eq. cbn. unfold memory_pread. apply Z.eqb_neq in Hb. rewrite Hb. cbn.
  destruct (Z.ltb_spec offset 0); [lia|]. by eexists.
Qed.
