(* ===== verification/Mapping.v ===== *)
(** * A mapping (src/src/core/Mapping.cpp)

    The state of a mapping is its [Mapping] record, the address space of the process
    and the driver it points to; the operations take and return the three.  The
    address the kernel gives to the temporary segment of [loadAndSwapSegment] is an
    argument ([got]).  An operation is one critical section: it holds the mutexes of
    the segments it touches from its first access to a status to its last one.

    Policies are called by [onSegmentationFault] and [evict] outside this file: here
    a fault returns what it would notify. *)

From S2P Require Import Prelude OS Driver.

Record SegmentStatus := mkStatus { mapped : bool; dirty : bool; needRead : bool }.

#[export] Instance SegmentStatus_eq_dec : EqDecision SegmentStatus.
Proof. solve_decision. Defined.

Record Mapping := mkMapping {
  localPolicy : Z;
  globalPolicy : Z;
  protection : prot;
  baseAddress : Z;
  segments : Z;
  segmentSize : Z;
  m_size : Z;
  storageOffset : Z;
  segmentStatus : list SegmentStatus;
  mappingDriverId : Z;
  segmentMutexesCnt : Z;
  threadSafe : bool;
}.

(** Flags of [flush] and of the constructor. *)
Definition UMMAP_FLUSH_DEFAULT : Z := 0.
Definition UMMAP_FLUSH_SYNC : Z := 1.
Definition UMMAP_FLUSH_UNMAP : Z := 2.
Definition UMMAP_FLUSH_NO_LOCK : Z := 4.
Definition has_flag (flags flag : Z) : bool := negb (Z.land flags flag =? 0).

Definition set_segmentStatus (m : Mapping) (l : list SegmentStatus) : Mapping :=
  mkMapping (localPolicy m) (globalPolicy m) (protection m) (baseAddress m) (segments m)
    (segmentSize m) (m_size m) (storageOffset m) l (mappingDriverId m)
    (segmentMutexesCnt m) (threadSafe m).

Definition UMMAP_NO_FIRST_READ : Z := 1.
Definition UMMAP_THREAD_UNSAFE : Z := 2.
Definition UMMAP_FIXED : Z := 4.

(** [segmentStatus[id] = s]. *)
Definition set_status (m : Mapping) (id : Z) (s : SegmentStatus) : Mapping :=
  set_segmentStatus m (<[Z.to_nat id := s]> (segmentStatus m)).
Definition get_status (m : Mapping) (id : Z) : result SegmentStatus :=
  deref (segmentStatus m !! Z.to_nat id).

(** ** Accessors *)

Definition getAddress (m : Mapping) : Z := baseAddress m.
Definition getSize (m : Mapping) : Z := m_size m.
Definition getAlignedSize (m : Mapping) : Z := segmentSize m ⊗ segments m.
Definition getSegmentSize (m : Mapping) : Z := segmentSize m.
Definition getStorageOffset (m : Mapping) : Z := storageOffset m.

Definition disableThreadSafety (m : Mapping) : Mapping :=
  mkMapping (localPolicy m) (globalPolicy m) (protection m) (baseAddress m) (segments m)
    (segmentSize m) (m_size m) (storageOffset m) (segmentStatus m) (mappingDriverId m)
    (segmentMutexesCnt m) false.

Definition set_mappingDriverId (m : Mapping) (id : Z) : Mapping :=
  mkMapping (localPolicy m) (globalPolicy m) (protection m) (baseAddress m) (segments m)
    (segmentSize m) (m_size m) (storageOffset m) (segmentStatus m) id
    (segmentMutexesCnt m) (threadSafe m).

Definition readWriteSize (m : Mapping) (offset : Z) : Z :=
  if segmentSize m <=? m_size m ⊖ offset then segmentSize m else m_size m ⊖ offset.

Definition getSegmentStatus (m : Mapping) (offset : Z) : result SegmentStatus :=
  cassert (offset <? getSize m) "offset < this->getSize()";;
  get_status m (offset / segmentSize m).

(** [for (i = 0 ; i < segments ; i++) segmentStatus[i].needRead = false]. *)
Definition skipFirstRead (m : Mapping) : result Mapping :=
  foldM (λ m i, s ← get_status m i; Ok (set_status m i (mkStatus (mapped s) (dirty s) false)))
    m (seqZ 0 (segments m)).

(** The mutexes to take for a range, one boolean each. *)
Definition getMutexRange (m : Mapping) (offset size : Z) : result (list bool) :=
  cassert (offset <? getSize m) "offset < this->getSize()";;
  cassert (offset mod segmentSize m =? 0) "offset % this->segmentSize == 0";;
  cassert (offset ⊕ size <=? getAlignedSize m) "offset + size <= this->getAlignedSize()";;
  cassert (size mod segmentSize m =? 0) "size % this->segmentSize == 0";;
  let baseId := offset / segmentSize m in
  let cnt := size / segmentSize m in
  Ok (foldl (λ l id, <[Z.to_nat (id mod segmentMutexesCnt m) := true]> l)
        (replicate (Z.to_nat (segmentMutexesCnt m)) false) (seqZ baseId cnt)).

(** Policies give the memory limit of a mapping; [policyMax] reads the static limit
    of a policy object. *)
Definition getPolicyMaxMemory (policyMax : Z → Z) (m : Mapping) : Z :=
  let max := SIZE_MAX in
  let max := if negb (localPolicy m =? 0) then
               let pm := policyMax (localPolicy m) in if pm <? max then pm else max
             else max in
  if negb (globalPolicy m =? 0) then
    let pm := policyMax (globalPolicy m) in if pm <? max then pm else max
  else max.

Section WithDriver.
Context {D : Type} `{DriverOps D}.

Definition unregisterRange (m : Mapping) (d : D) : result (Mapping * D) :=
  d' ← erase_mapping d (mappingDriverId m) (storageOffset m) (m_size m) (p_write (protection m));
  Ok (set_mappingDriverId m (-1), d').

Definition registerRange (m : Mapping) (d : D) : result (Mapping * D) :=
  '(id, d') ← establish_mapping d (storageOffset m) (m_size m) (p_write (protection m));
  assume (0 <=? id) "Faild to register range of the given mapping !";;
  Ok (set_mappingDriverId m id, d').

(** ** Construction and destruction *)

(** The constructor up to the calls to the policies.  [got] is the address the
    kernel maps at ([addr] and [UMMAP_FIXED] only act on that choice). *)
Definition newMapping_prepare (cpus : Z) (got : option Z) (v : vm) (d : D)
    (size segmentSize storageOffset : Z) (protection : prot) (flags localPolicy globalPolicy : Z)
    : result (Mapping * vm * D) :=
  assume (0 <? size) "Do not accept null size mapping";;
  assume (0 <? segmentSize) "Do not accept null segment size";;
  assume (segmentSize mod UMMAP_PAGE_SIZE =? 0) "Segment size should be multiple of page size";;
  let mapSize := if negb (size mod segmentSize =? 0)
                 then size ⊕ (segmentSize ⊖ size mod segmentSize) else size in
  assume (mapSize mod UMMAP_PAGE_SIZE =? 0) "Size should be multiple of page size";;
  assume (mapSize mod segmentSize =? 0) "Size should be multiple of segment size";;
  let m0 := mkMapping localPolicy globalPolicy protection 0 0 0 size storageOffset [] 0 0 true in
  '(m1, d1) ← registerRange m0 d;
  let threadSafe := negb (has_flag flags UMMAP_THREAD_UNSAFE) in
  (if threadSafe then
     safe ← checkThreadSafety d1;
     assume safe "Ask for mapping thread safety but the driver does not support it !"
   else Ok tt);;
  '(direct, (d2, v1)) ← directMmap d1 v got size storageOffset protection;
  '(base, v2) ← (if direct =? 0 then mmapProtNone v1 got mapSize else Ok (direct, v1));
  let segments := mapSize / segmentSize in
  let status := replicate (Z.to_nat segments) (mkStatus false false true) in
  let cnt := cpus * 4 + 1 in
  let cnt := if segments <? cnt then segments else cnt in
  Ok (mkMapping localPolicy globalPolicy protection base segments segmentSize size storageOffset
        status (mappingDriverId m1) cnt threadSafe, v2, d2).

(** The end of the constructor. *)
Definition newMapping_finish (flags : Z) (m : Mapping) : result Mapping :=
  if has_flag flags UMMAP_NO_FIRST_READ then skipFirstRead m else Ok m.

(** The whole constructor, for a mapping without policies. *)
Definition newMapping (cpus : Z) (got : option Z) (v : vm) (d : D)
    (size segmentSize storageOffset : Z) (protection : prot) (flags : Z)
    : result (Mapping * vm * D) :=
  '(m, v', d') ← newMapping_prepare cpus got v d size segmentSize storageOffset protection flags 0 0;
  m' ← newMapping_finish flags m;
  Ok (m', v', d').

(** The destructor, up to the calls to the policies. *)
Definition deleteMapping (m : Mapping) (v : vm) (d : D) : result (vm * D) :=
  '(m1, d1) ← unregisterRange m d;
  '(done, (d2, v1)) ← directMunmap d1 v (baseAddress m1) (m_size m1) (storageOffset m1);
  v2 ← (if done : bool then Ok v1 else munmap v1 (baseAddress m1) (getAlignedSize m1));
  Ok (v2, d2).

(** ** First touch of a segment *)

Definition loadAndSwapSegment (got : option Z) (m : Mapping) (v : vm) (d : D)
    (offset : Z) (writeAccess : bool) : result (vm * D) :=
  let exec := p_exec (protection m) in
  '(ptr, v1) ← (if threadSafe m then mmapProtFull v got (segmentSize m) exec
                else let ptr := baseAddress m + offset in
                     v1 ← mprotect v ptr (segmentSize m) true true exec; Ok (ptr, v1));
  '(res, (d', v2)) ← pread d v1 ptr (readWriteSize m offset) (storageOffset m ⊕ offset);
  assume (0 <=? res) "Fail to read all data";;
  v3 ← (if writeAccess then Ok v2 else mprotect v2 ptr (segmentSize m) true false exec);
  v4 ← (if threadSafe m then mremapForced v3 ptr (segmentSize m) (baseAddress m + offset)
        else Ok v3);
  Ok (v4, d').

(** The part of [onSegmentationFault] up to the end of its critical section.  The
    last component is what the policies are told afterwards: the segment and its
    status before the fault; [None] for the early return. *)
Definition onSegmentationFault (got : option Z) (m : Mapping) (v : vm) (d : D)
    (address : Z) (isWrite : bool) : result (Mapping * vm * D * option (Z * SegmentStatus)) :=
  assume ((baseAddress m <=? address) &&
          (address <? baseAddress m + segments m ⊗ segmentSize m))
    "Invalid address, not fit into the current segment !";;
  let segmentId := (address - baseAddress m) / segmentSize m in
  let offset := segmentSize m ⊗ segmentId in
  let segmentBase := baseAddress m + offset in
  let exec := p_exec (protection m) in
  assume (negb (bool_decide (protection m = PROT_NONE_bits)))
    "Try to access a segment which is PROT_NONE";;
  assume (negb (isWrite && negb (p_write (protection m))))
    "Try to write access a segment which is not writable";;
  status ← get_status m segmentId;
  if eqb isWrite (dirty status) && mapped status then Ok (m, v, d, None)
  else
    '(v', d', dirty') ←
      (if negb (mapped status) && needRead status then
         '(v', d') ← loadAndSwapSegment got m v d offset isWrite;
         Ok (v', d', if isWrite then true else dirty status)
       else if isWrite then
         v' ← mprotect v segmentBase (segmentSize m) true true exec; Ok (v', d, true)
       else
         v' ← mprotect v segmentBase (segmentSize m) true false exec; Ok (v', d, dirty status));
    let m' := set_status m segmentId (mkStatus true dirty' (needRead status)) in
    Ok (m', v', d', Some (segmentId, status)).

(** ** Flushing *)

(** One round of the loop of [flush]. *)
Definition flushSegment (unmap : bool) (s : Mapping * vm * D) (curOffset : Z)
    : result (Mapping * vm * D) :=
  let '(m, v, d) := s in
  let id := curOffset / segmentSize m in
  let segmentPtr := baseAddress m + curOffset in
  let exec := p_exec (protection m) in
  status ← get_status m id;
  '(v1, d1, status1) ←
    (if dirty status && mapped status then
       v1 ← (if threadSafe m then mprotect v segmentPtr (segmentSize m) true (negb (threadSafe m)) exec
             else Ok v);
       '(res, d1) ← pwrite d v1 segmentPtr (readWriteSize m curOffset) (storageOffset m ⊕ curOffset);
       assume (negb (res =? -1)) "Fail to pwrite";;
       assume (0 <=? res) "Fail to fully write the segment";;
       Ok (v1, d1, mkStatus (mapped status) false true)
     else Ok (v, d, status));
  '(v2, status2) ←
    (if mapped status1 then
       if unmap then
         v2 ← mprotect v1 segmentPtr (segmentSize m) false false exec;
         Ok (madviseDontNeed v2 segmentPtr (segmentSize m),
             mkStatus false (dirty status1) (needRead status1))
       else if negb (threadSafe m) then
         v2 ← mprotect v1 segmentPtr (segmentSize m) true false exec; Ok (v2, status1)
       else Ok (v1, status1)
     else Ok (v1, status1));
  Ok (set_status m id status2, v2, d1).

(** [for (curOffset = offset ; curOffset < offset + size ; curOffset += segmentSize)]. *)
Fixpoint flushLoop (fuel : nat) (unmap : bool) (last : Z) (s : Mapping * vm * D) (curOffset : Z)
    : result (Mapping * vm * D) :=
  match fuel with
  | O => Err OutOfFuel
  | S fuel' =>
      if curOffset <? last then
        s' ← flushSegment unmap s curOffset;
        flushLoop fuel' unmap last s' (curOffset ⊕ segmentSize (fst (fst s)))
      else Ok s
  end.

(** One round per segment and the final test. *)
Definition flush_fuel (m : Mapping) : nat := S (Z.to_nat (segments m)).

Definition flush (m : Mapping) (v : vm) (d : D) (offset size flags : Z)
    : result (Mapping * vm * D) :=
  assume (offset <? getSize m) "Offset is not in valid range !";;
  assume (offset ⊕ size <=? getAlignedSize m) "'Offset + size' is not in valid range !";;
  assume (offset mod segmentSize m =? 0) "Should get offset multiple of segment size !";;
  assume (size mod segmentSize m =? 0) "Should get size multiple of segment size !";;
  let sync := has_flag flags UMMAP_FLUSH_SYNC in
  let unmap := has_flag flags UMMAP_FLUSH_UNMAP in
  '(res, (d0, v0)) ← directMSync d v (getAddress m + offset) size (storageOffset m);
  if res : bool then Ok (m, v0, d0)
  else
    _ ← getMutexRange m offset size;
    '(m1, v1, d1) ← flushLoop (flush_fuel m) unmap (offset ⊕ size) (m, v0, d0) offset;
    '(d2, v2) ← (if sync then dsync d1 v1 (getAddress m) offset size else Ok (d1, v1));
    Ok (m1, v2, d2).

(** [flush(bool sync)]. *)
Definition flush_all (m : Mapping) (v : vm) (d : D) (sync : bool) : result (Mapping * vm * D) :=
  let flags := if sync then Z.lor UMMAP_FLUSH_DEFAULT UMMAP_FLUSH_SYNC else UMMAP_FLUSH_DEFAULT in
  flush m v d 0 (getSize m) flags.

(** The memory side of [evict], after the policies have been told. *)
Definition evict_segment (m : Mapping) (v : vm) (d : D) (segmentId : Z)
    : result (Mapping * vm * D) :=
  flush m v d (segmentId ⊗ segmentSize m) (segmentSize m)
    (Z.lor UMMAP_FLUSH_UNMAP UMMAP_FLUSH_NO_LOCK).

(** ** Whole mapping operations *)

Definition dropSegment (s : Mapping * vm) (i : Z) : result (Mapping * vm) :=
  let '(m, v) := s in
  status ← get_status m i;
  if mapped status && negb (dirty status) then
    let addr := baseAddress m + segmentSize m ⊗ i in
    v1 ← mprotect v addr (segmentSize m) false false (p_exec (protection m));
    Ok (set_status m i (mkStatus false (dirty status) (needRead status)),
        madviseDontNeed v1 addr (segmentSize m))
  else Ok (m, v).

Definition dropClean (m : Mapping) (v : vm) : result (Mapping * vm) :=
  foldM dropSegment (m, v) (seqZ 0 (segments m)).

Definition markSegmentDirty (s : Mapping * vm) (i : Z) : result (Mapping * vm) :=
  let '(m, v) := s in
  status ← get_status m i;
  if mapped status && negb (dirty status) && p_write (protection m) then
    let addr := baseAddress m + segmentSize m ⊗ i in
    v1 ← mprotect v addr (segmentSize m) true true (p_exec (protection m));
    Ok (set_status m i (mkStatus (mapped status) true (needRead status)), v1)
  else Ok (m, v).

Definition markCleanAsDirty (m : Mapping) (v : vm) : result (Mapping * vm) :=
  foldM markSegmentDirty (m, v) (seqZ 0 (segments m)).

(** [prefetch] has an empty body. *)
Definition prefetch (m : Mapping) (offset size : Z) : Mapping := m.
End WithDriver.
