(* ===== verification/MappingInv.v ===== *)
(** * The invariant of a mapping and its abstract value

    [view m v d x] is the byte the program sees at offset [x] of the mapping: the
    memory if the segment is mapped, else the storage if it has to be read first,
    else zero.  [mapping_inv] ties segment status, page protection, memory and
    storage together.  Every operation of a mapping changes one segment at a time:
    [seg_update] states what such a change must establish, and the lemmas below
    prove it for a fault, a round of [flush], and the loops over all segments.

    The invariant comes in two strengths, [Strictness].  When a fault is handled
    before anything else happens, a dirty segment is open for writing.  With several
    threads the handler of a read can run after another thread wrote the segment, and
    closes it for writing although it is dirty: the weak invariant allows that. *)

From S2P Require Import Prelude OS Driver Mapping.

(** ** Geometry *)

Record wf_geometry (m : Mapping) : Prop := {
  wg_base : page_aligned (baseAddress m) (segmentSize m);
  wg_segments : 0 < segments m;
  wg_status : Z.of_nat (length (segmentStatus m)) = segments m;
  wg_size : (segments m - 1) * segmentSize m < m_size m ≤ segments m * segmentSize m;
  wg_fits : segments m * segmentSize m < SIZE_MOD;
  wg_offset : 0 ≤ storageOffset m;
  wg_mutexes : 0 < segmentMutexesCnt m;
}.

Definition status_at (m : Mapping) (i : Z) : SegmentStatus :=
  default (mkStatus false false true) (segmentStatus m !! Z.to_nat i).

(** Offset [x] belongs to segment [id]. *)
Definition in_segment (m : Mapping) (id x : Z) : Prop :=
  id * segmentSize m ≤ x < (id + 1) * segmentSize m.

Section Geometry.
Context (m : Mapping) (Hwf : wf_geometry m).

Lemma geom_segmentSize : 0 < segmentSize m.
Proof. apply (wg_base _ Hwf). Qed.

Lemma geom_segment id : 0 ≤ id < segments m → 0 ≤ id * segmentSize m < m_size m.
Proof. pose proof geom_segmentSize. pose proof (wg_size _ Hwf). nia. Qed.

Lemma geom_end id : 0 ≤ id < segments m → (id + 1) * segmentSize m ≤ segments m * segmentSize m.
Proof. pose proof geom_segmentSize. nia. Qed.

Lemma segment_of x : in_segment m (x / segmentSize m) x.
Proof.
  pose proof geom_segmentSize. unfold in_segment.
  pose proof (Z.div_mod x (segmentSize m)). pose proof (Z.mod_pos_bound x (segmentSize m)). nia.
Qed.

Lemma in_segment_div id x : in_segment m id x ↔ x / segmentSize m = id.
Proof.
  pose proof geom_segmentSize. split; [|intros <-; apply segment_of].
  unfold in_segment. intros Hx. symmetry. apply (Z.div_unique _ _ _ (x - id * segmentSize m)); nia.
Qed.

Lemma segment_lt x : 0 ≤ x < segments m * segmentSize m → 0 ≤ x / segmentSize m < segments m.
Proof.
  pose proof geom_segmentSize. intros Hx. split; [apply Z.div_pos; lia|].
  apply Z.div_lt_upper_bound; lia.
Qed.

Lemma segment_offset id :
  0 ≤ id < segments m → segmentSize m ⊗ id = id * segmentSize m ∧ id ⊗ segmentSize m = id * segmentSize m.
Proof.
  intros Hid. pose proof (geom_segment id Hid). pose proof (wg_size _ Hwf). pose proof (wg_fits _ Hwf).
  rewrite (Z.mul_comm (segmentSize m)), wrap_small; [done|]. unfold is_size. lia.
Qed.

Lemma aligned_size : getAlignedSize m = segments m * segmentSize m.
Proof.
  pose proof geom_segmentSize. pose proof (wg_segments _ Hwf). pose proof (wg_fits _ Hwf).
  unfold getAlignedSize. rewrite (Z.mul_comm (segmentSize m)), wrap_small; [done|]. unfold is_size. nia.
Qed.

Lemma readWriteSize_spec id :
  0 ≤ id < segments m →
  readWriteSize m (id * segmentSize m) = Z.min (segmentSize m) (m_size m - id * segmentSize m) ∧
  0 < readWriteSize m (id * segmentSize m).
Proof.
  intros Hid. pose proof (geom_segment id Hid). pose proof geom_segmentSize.
  pose proof (wg_size _ Hwf). pose proof (wg_fits _ Hwf).
  unfold readWriteSize. rewrite size_sub by lia. destruct (Z.leb_spec (segmentSize m) (m_size m - id * segmentSize m)); lia.
Qed.

Lemma get_status_ok id : 0 ≤ id < segments m → get_status m id = Ok (status_at m id).
Proof.
  intros Hid. unfold get_status, status_at. pose proof (wg_status _ Hwf).
  destruct (lookup_lt_is_Some_2 (segmentStatus m) (Z.to_nat id)) as [s ->]; [lia|done].
Qed.

Lemma segment_aligned id :
  0 ≤ id < segments m → page_aligned (baseAddress m + id * segmentSize m) (segmentSize m).
Proof.
  intros Hid. destruct (wg_base _ Hwf) as (H1 & H2 & H3 & H4). pose proof (geom_segment id Hid).
  split; [lia|]. split; [|done].
  rewrite Z.add_mod, Z.mul_mod, H2, H4 by done. rewrite Z.mul_0_r. done.
Qed.
End Geometry.

Lemma wf_set_status m id s : wf_geometry m → wf_geometry (set_status m id s).
Proof. intros []. split; cbn; try done. by rewrite length_insert. Qed.

Lemma status_set_same m id s :
  wf_geometry m → 0 ≤ id < segments m → status_at (set_status m id s) id = s.
Proof.
  intros Hwf Hid. unfold status_at. cbn. pose proof (wg_status _ Hwf).
  rewrite list_lookup_insert_eq; [done|lia].
Qed.

Lemma status_set_other m id s i :
  0 ≤ id → 0 ≤ i → i ≠ id → status_at (set_status m id s) i = status_at m i.
Proof. intros. unfold status_at. cbn. rewrite list_lookup_insert_ne; [done|lia]. Qed.

(** ** Invariant and view *)

(** [true]: dirty segments are open for writing. *)
Class Strictness := strict : bool.

(** Faults handled one at a time, the default. *)
#[export] Instance one_fault_at_a_time : Strictness | 100 := true.

Section WithDriver.
Context {D : Type} `{StorageDriver D} {Str : Strictness}.

(** The value a clean or unmapped segment stands for. *)
Definition backing (m : Mapping) (d : D) (s : SegmentStatus) (x : Z) : Z :=
  if needRead s then content d (storageOffset m + x) else 0.

Definition view_byte (m : Mapping) (v : vm) (d : D) (s : SegmentStatus) (x : Z) : Z :=
  if mapped s then vm_mem v (baseAddress m + x) else backing m d s x.

Definition view (m : Mapping) (v : vm) (d : D) (x : Z) : Z :=
  view_byte m v d (status_at m (x / segmentSize m)) x.

Definition byte_inv (m : Mapping) (v : vm) (d : D) (s : SegmentStatus) (x : Z) : Prop :=
  let a := baseAddress m + x in
  if mapped s then
    if dirty s then p_write (protection m) = true ∧ readable v a = true ∧
                    (if strict then writable v a = true else True)
    else readable v a = true ∧ writable v a = false ∧
         (x < m_size m → vm_mem v a = backing m d s x)
  else dirty s = false ∧ readable v a = false ∧ writable v a = false ∧ vm_mem v a = 0.

Record mapping_inv (m : Mapping) (v : vm) (d : D) : Prop := {
  mi_geom : wf_geometry m;
  mi_driver : driver_ok d;
  mi_capacity : storageOffset m + m_size m ≤ capacity d;
  mi_bytes : ∀ x, 0 ≤ x < segments m * segmentSize m →
    byte_inv m v d (status_at m (x / segmentSize m)) x;
}.

(** A change of segment [id] to status [s]; [T] is scratch memory it may use. *)
Record seg_update (m : Mapping) (v : vm) (d : D) (id : Z) (T : Z → Prop)
    (s : SegmentStatus) (v' : vm) (d' : D) : Prop := {
  su_vm : ∀ a, ¬ in_segment m id (a - baseAddress m) → ¬ T a →
    vm_mem v' a = vm_mem v a ∧ vm_prot v' a = vm_prot v a;
  su_content : ∀ y, ¬ (in_segment m id (y - storageOffset m) ∧ y < storageOffset m + m_size m) →
    content d' y = content d y;
  su_driver : driver_ok d' ∧ capacity d' = capacity d;
  su_inv : ∀ x, in_segment m id x → byte_inv m v' d' s x;
  su_view : ∀ x, in_segment m id x → x < m_size m →
    view_byte m v' d' s x = view_byte m v d (status_at m id) x;
}.

(** Scratch memory outside the mapping. *)
Definition outside (m : Mapping) (T : Z → Prop) : Prop :=
  ∀ a, T a → ¬ (baseAddress m ≤ a < baseAddress m + segments m * segmentSize m).

Lemma byte_inv_frame m v d v' d' s x :
  vm_mem v' (baseAddress m + x) = vm_mem v (baseAddress m + x) →
  vm_prot v' (baseAddress m + x) = vm_prot v (baseAddress m + x) →
  (x < m_size m → content d' (storageOffset m + x) = content d (storageOffset m + x)) →
  byte_inv m v d s x → byte_inv m v' d' s x.
Proof.
  intros Hmem Hprot Hc. unfold byte_inv, readable, writable, backing. rewrite Hmem, Hprot.
  destruct (mapped s), (dirty s); try tauto. intros (H1 & H2 & H3). split; [done|].
  split; [done|]. intros Hx. rewrite H3 by done. destruct (needRead s); [|done]. by rewrite Hc.
Qed.

Lemma view_byte_frame m v d v' d' s x :
  vm_mem v' (baseAddress m + x) = vm_mem v (baseAddress m + x) →
  content d' (storageOffset m + x) = content d (storageOffset m + x) →
  view_byte m v' d' s x = view_byte m v d s x.
Proof. intros Hm Hc. unfold view_byte, backing. by rewrite Hm, Hc. Qed.

(** A segment update keeps the invariant and the view. *)
Lemma seg_update_ok m v d id T s v' d' :
  mapping_inv m v d → 0 ≤ id < segments m → outside m T → seg_update m v d id T s v' d' →
  mapping_inv (set_status m id s) v' d' ∧
  ∀ x, 0 ≤ x < m_size m → view (set_status m id s) v' d' x = view m v d x.
Proof.
  intros [Hg Hd Hc Hb] Hid HT [Hvm Hct [Hd' Hc'] Hinv Hview]. set (m' := set_status m id s).
  assert (Hother : ∀ x, 0 ≤ x < segments m * segmentSize m → x / segmentSize m ≠ id →
    vm_mem v' (baseAddress m + x) = vm_mem v (baseAddress m + x) ∧
    vm_prot v' (baseAddress m + x) = vm_prot v (baseAddress m + x) ∧
    content d' (storageOffset m + x) = content d (storageOffset m + x) ∧
    status_at m' (x / segmentSize m) = status_at m (x / segmentSize m)).
  { intros x Hx Hne. assert (Hns : ¬ in_segment m id x) by (by rewrite in_segment_div).
    destruct (Hvm (baseAddress m + x)) as [-> ->].
    - by replace (baseAddress m + x - baseAddress m) with x by lia.
    - intros Ht. apply (HT _ Ht). lia.
    - rewrite Hct; [|replace (storageOffset m + x - storageOffset m) with x by lia; tauto].
      do 3 (split; [done|]). apply status_set_other; [lia| |done].
      by apply segment_lt. }
  assert (Hsame : ∀ x, x / segmentSize m = id → in_segment m id x ∧ status_at m' (x / segmentSize m) = s).
  { intros x <-. split; [by apply segment_of|]. subst m'. by apply status_set_same. }
  split.
  - split; [by apply wf_set_status|done|cbn; lia|]. intros x Hx. cbn in Hx |- *.
    destruct (decide (x / segmentSize m = id)) as [He|Hne].
    + destruct (Hsame x He) as [Hin Hs]. rewrite Hs. by apply Hinv.
    + destruct (Hother x Hx Hne) as (Hm1 & Hm2 & Hm3 & ->).
      eapply (byte_inv_frame m v d); eauto.
  - intros x Hx. unfold view. cbn. pose proof (wg_size _ Hg).
    destruct (decide (x / segmentSize m = id)) as [He|Hne].
    + destruct (Hsame x He) as [Hin Hs]. rewrite Hs, He. apply Hview; [done|lia].
    + destruct (Hother x ltac:(lia) Hne) as (Hm1 & Hm2 & Hm3 & ->). exact (view_byte_frame m v d v' d' _ x Hm1 Hm3).
Qed.
End WithDriver.

(** The temporary segment the kernel returns is page aligned and outside the mapping. *)
Definition temp_area (m : Mapping) (got : option Z) (a : Z) : Prop :=
  match got with Some t => t ≤ a < t + segmentSize m | None => False end.
Definition fresh_temp (m : Mapping) (got : option Z) : Prop :=
  match got with
  | Some t => page_aligned t (segmentSize m) ∧ outside m (temp_area m got)
  | None => threadSafe m = false
  end.

Lemma fresh_temp_outside m got : fresh_temp m got → outside m (temp_area m got).
Proof. destruct got; cbn; [tauto|]. intros _ a []. Qed.

Section Steps.
Context {D : Type} `{StorageDriver D} {Str : Strictness}.
Context (m : Mapping) (v : vm) (d : D) (Hinv : mapping_inv m v d).

Lemma inv_segment id x :
  0 ≤ id < segments m → in_segment m id x →
  0 ≤ x < segments m * segmentSize m ∧ byte_inv m v d (status_at m id) x.
Proof.
  intros Hid Hx. pose proof (mi_geom _ _ _ Hinv) as Hg.
  pose proof (geom_end m Hg id Hid). pose proof (geom_segment m Hg id Hid).
  assert (Hr : 0 ≤ x < segments m * segmentSize m) by (unfold in_segment in Hx; lia).
  split; [done|]. apply (in_segment_div m Hg) in Hx as <-. by apply (mi_bytes _ _ _ Hinv).
Qed.

(** What reading segment [id] from the storage into zeroed memory at [ptr] does. *)
Lemma read_segment w ptr id :
  0 ≤ id < segments m → ptr ≠ 0 →
  (∀ i, 0 ≤ i < segmentSize m → vm_mem w (ptr + i) = 0) →
  ∃ n w', pread d w ptr (readWriteSize m (id * segmentSize m)) (storageOffset m ⊕ id * segmentSize m)
          = Ok (n, (d, w')) ∧ (0 <=? n) = true ∧ (∀ a, vm_prot w' a = vm_prot w a) ∧
    (∀ a, ¬ (ptr ≤ a < ptr + segmentSize m) → vm_mem w' a = vm_mem w a) ∧
    ∀ x, in_segment m id x →
      vm_mem w' (ptr + (x - id * segmentSize m)) =
      if x <? m_size m then content d (storageOffset m + x) else 0.
Proof.
  intros Hid Hptr Hz. pose proof Hinv as [Hg Hd Hc _].
  destruct (readWriteSize_spec m Hg id Hid) as [Hrw Hpos].
  pose proof (geom_segment m Hg id Hid) as Hseg. pose proof (wg_offset _ Hg).
  pose proof (capacity_law d Hd) as Hcap. pose proof (wg_size _ Hg).
  rewrite size_add by lia.
  destruct (pread_law d w ptr (readWriteSize m (id * segmentSize m)) (storageOffset m + id * segmentSize m))
    as (n & w' & Hrun & Hn & Hprot & Hmem); [done|done|done|lia|lia| |].
  { intros x Hx. replace x with (ptr + (x - ptr)) by lia. apply Hz. lia. }
  exists n, w'. split; [done|]. split; [by apply Z.leb_le|]. split; [done|]. split.
  - intros a Ha. rewrite Hmem. case_range; [lia|done].
  - intros x Hx. rewrite Hmem. unfold in_segment in Hx.
    destruct (Z.ltb_spec x (m_size m)); case_range; try lia.
    + f_equal. lia.
    + apply Hz. lia.
Qed.

(** A loaded segment holds the storage and has the protection of the access. *)
Definition loaded (got : option Z) (id : Z) (w : bool) (v' : vm) : Prop :=
  (∀ a, ¬ in_segment m id (a - baseAddress m) → ¬ temp_area m got a →
     vm_mem v' a = vm_mem v a ∧ vm_prot v' a = vm_prot v a) ∧
  ∀ x, in_segment m id x →
    vm_mem v' (baseAddress m + x) = (if x <? m_size m then content d (storageOffset m + x) else 0) ∧
    vm_prot v' (baseAddress m + x) = Some (mkProt true w (p_exec (protection m))).

Lemma loaded_update got id w v' :
  0 ≤ id < segments m → mapped (status_at m id) = false → needRead (status_at m id) = true →
  (w = true → p_write (protection m) = true) → loaded got id w v' →
  seg_update m v d id (temp_area m got) (mkStatus true w true) v' d.
Proof.
  intros Hid Hmap Hneed Hw [Hfr Hin]. pose proof (mi_driver _ _ _ Hinv).
  split; [done|done|done| |].
  - intros x Hx. destruct (Hin x Hx) as [Hm Hp]. unfold byte_inv, readable, writable, backing.
    cbn. rewrite Hm, Hp. cbn. destruct w; [by destruct strict; auto|].
    split; [done|]. split; [done|]. intros Hlt. apply Z.ltb_lt in Hlt. by rewrite Hlt.
  - intros x Hx Hlt. destruct (Hin x Hx) as [Hm _]. unfold view_byte, backing.
    rewrite Hmap, Hneed. cbn. rewrite Hm. apply Z.ltb_lt in Hlt. by rewrite Hlt.
Qed.

(** The last [mprotect] of the load, on memory opened for writing before the read. *)
Lemma close_after_read v1 v2 ptr w :
  page_aligned ptr (segmentSize m) →
  let rw := Some (mkProt true true (p_exec (protection m))) in
  (∀ a, vm_prot v2 a = vm_prot (set_prot v1 ptr (segmentSize m) rw) a) →
  ∃ v3, (if w : bool then Ok v2
         else mprotect v2 ptr (segmentSize m) true false (p_exec (protection m))) = Ok v3 ∧
    (∀ a, vm_mem v3 a = vm_mem v2 a) ∧
    ∀ a, vm_prot v3 a = if in_range ptr (segmentSize m) a
           then Some (mkProt true w (p_exec (protection m))) else vm_prot v1 a.
Proof.
  intros Hal rw Hp2. destruct w.
  - exists v2. done.
  - rewrite mprotect_ok by done. eexists. split; [done|]. split; [done|].
    intros a. cbn. rewrite Hp2. cbn. by destruct (in_range ptr _ a).
Qed.

Lemma load_in_temp t id w :
  threadSafe m = true → 0 ≤ id < segments m → fresh_temp m (Some t) →
  ∃ v', loadAndSwapSegment (Some t) m v d (id * segmentSize m) w = Ok (v', d) ∧
    loaded (Some t) id w v'.
Proof.
  intros Hts Hid [Ht Hout]. pose proof (mi_geom _ _ _ Hinv) as Hg.
  pose proof (segment_aligned m Hg id Hid) as Hal. pose proof (geom_segmentSize m Hg) as Hss.
  set (base := baseAddress m + id * segmentSize m) in *.
  unfold loadAndSwapSegment. rewrite Hts, mmapProtFull_ok by done. cbn [mbind result_bind].
  set (v1 := zero_range v t (segmentSize m)).
  destruct (read_segment (set_prot v1 t (segmentSize m) (Some (mkProt true true (p_exec (protection m)))))
    t id Hid) as (n & v2 & -> & Hn & Hp2 & Hm2 & Hx2).
  { destruct Ht. lia. }
  { intros i Hi. cbn. case_range; [done|lia]. }
  cbn [mbind result_bind]. rewrite Hn. cbn [assume mbind result_bind].
  destruct (close_after_read v1 v2 t w Ht Hp2) as (v3 & -> & Hm3 & Hp3). cbn [mbind result_bind].
  assert (Hne : base ≠ t).
  { intros <-. apply (Hout base); [cbn; lia|].
    pose proof (geom_end m Hg id Hid). pose proof (geom_segment m Hg id Hid). subst base. lia. }
  fold base. rewrite mremapForced_ok by done. cbn [mbind result_bind].
  eexists. split; [done|]. split; cbn [vm_mem vm_prot].
  - intros a Ha Hta. unfold in_segment in Ha. cbn in Hta.
    assert (Hra : in_range base (segmentSize m) a = false) by (apply in_range_false; subst base; lia).
    assert (Hrt : in_range t (segmentSize m) a = false) by (by apply in_range_false).
    rewrite Hra, Hrt, Hm3, Hp3, Hrt, Hm2 by done. cbn. by rewrite Hrt.
  - intros x Hx. assert (Hx' := Hx). unfold in_segment in Hx'.
    assert (Hra : in_range base (segmentSize m) (baseAddress m + x) = true)
      by (apply in_range_spec; subst base; lia).
    rewrite Hra. replace (t + (baseAddress m + x - base)) with (t + (x - id * segmentSize m))
      by (subst base; lia).
    rewrite Hm3, Hx2, Hp3 by done. case_range; [done|lia].
Qed.

Lemma load_in_place got id w :
  threadSafe m = false → 0 ≤ id < segments m → mapped (status_at m id) = false →
  ∃ v', loadAndSwapSegment got m v d (id * segmentSize m) w = Ok (v', d) ∧ loaded got id w v'.
Proof.
  intros Hts Hid Hmap. pose proof (mi_geom _ _ _ Hinv) as Hg.
  pose proof (segment_aligned m Hg id Hid) as Hal. pose proof (geom_segmentSize m Hg) as Hss.
  set (base := baseAddress m + id * segmentSize m) in *.
  unfold loadAndSwapSegment. rewrite Hts. fold base. rewrite mprotect_ok by done.
  cbn [mbind result_bind].
  destruct (read_segment (set_prot v base (segmentSize m) (Some (mkProt true true (p_exec (protection m)))))
    base id Hid) as (n & v2 & -> & Hn & Hp2 & Hm2 & Hx2).
  { destruct Hal. lia. }
  { intros i Hi. cbn. destruct (inv_segment id (id * segmentSize m + i) Hid) as [_ Hb];
      [unfold in_segment; lia|]. unfold byte_inv in Hb. rewrite Hmap in Hb.
    destruct Hb as (_ & _ & _ & <-). f_equal. subst base. lia. }
  cbn [mbind result_bind]. rewrite Hn. cbn [assume mbind result_bind].
  destruct (close_after_read v v2 base w Hal Hp2) as (v3 & -> & Hm3 & Hp3). cbn [mbind result_bind].
  eexists. split; [done|]. split.
  - intros a Ha _. unfold in_segment in Ha.
    assert (Hra : in_range base (segmentSize m) a = false) by (apply in_range_false; subst base; lia).
    rewrite Hm3, Hp3, Hra, Hm2; [done|]. by apply in_range_false.
  - intros x Hx. assert (Hx' := Hx). unfold in_segment in Hx'.
    rewrite Hm3, Hp3. replace (baseAddress m + x) with (base + (x - id * segmentSize m))
      by (subst base; lia). rewrite Hx2 by done. case_range; [done|lia].
Qed.

Lemma load_ok got id w :
  0 ≤ id < segments m → fresh_temp m got →
  mapped (status_at m id) = false → needRead (status_at m id) = true →
  (w = true → p_write (protection m) = true) →
  ∃ v', loadAndSwapSegment got m v d (id * segmentSize m) w = Ok (v', d) ∧
    seg_update m v d id (temp_area m got) (mkStatus true w true) v' d.
Proof.
  intros Hid Hgot Hmap Hneed Hw.
  assert (∃ v', loadAndSwapSegment got m v d (id * segmentSize m) w = Ok (v', d) ∧ loaded got id w v')
    as (v' & Hrun & Hl).
  { destruct (threadSafe m) eqn:Hts; [|by apply load_in_place].
    destruct got as [t|]; [by apply load_in_temp|cbn in Hgot; congruence]. }
  exists v'. split; [done|]. by apply loaded_update.
Qed.
(** Opening access to a segment with [mprotect] alone. *)
Lemma open_update T id s' w :
  0 ≤ id < segments m → (w = true → p_write (protection m) = true) →
  s' = mkStatus true w (needRead (status_at m id)) →
  (mapped (status_at m id) = true ∧ w = true) ∨
  (mapped (status_at m id) = false ∧ needRead (status_at m id) = false) →
  seg_update m v d id T s'
    (set_prot v (baseAddress m + id * segmentSize m) (segmentSize m)
       (Some (mkProt true w (p_exec (protection m))))) d.
Proof.
  intros Hid Hw -> Hcase. pose proof (mi_driver _ _ _ Hinv).
  split; [|done|done| |].
  - intros a Ha _. cbn. unfold in_segment in Ha. case_range; [lia|done].
  - intros x Hx. destruct (inv_segment id x Hid Hx) as [_ Hb]. unfold in_segment in Hx.
    unfold byte_inv, readable, writable, backing in Hb |- *. cbn. case_range; [|lia]. cbn.
    destruct Hcase as [[_ ->]|[Hm Hn]]; [by destruct strict; auto|]. rewrite Hn. rewrite Hm in Hb.
    destruct w; [by destruct strict; auto|]. destruct Hb as (_ & _ & _ & ->). done.
  - intros x Hx _. destruct (inv_segment id x Hid Hx) as [_ Hb].
    unfold view_byte, backing, byte_inv in Hb |- *. cbn.
    destruct Hcase as [[-> _]|[Hm Hn]]; [done|]. rewrite Hm, Hn in *. tauto.
Qed.

(** The access the program attempted. *)
Definition permitted (w : bool) (a : Z) : bool := if w then writable v a else readable v a.

(** A segment already open and dirty, closed for writing by a late read fault. *)
Lemma late_read_update T id :
  strict = false → 0 ≤ id < segments m →
  mapped (status_at m id) = true → dirty (status_at m id) = true →
  seg_update m v d id T (mkStatus true true (needRead (status_at m id)))
    (set_prot v (baseAddress m + id * segmentSize m) (segmentSize m)
       (Some (mkProt true false (p_exec (protection m))))) d.
Proof.
  intros Hs Hid Hm Hd. pose proof (mi_driver _ _ _ Hinv). split; [|done|done| |].
  - intros a Ha _. cbn. unfold in_segment in Ha. case_range; [lia|done].
  - intros x Hx. destruct (inv_segment id x Hid Hx) as [_ Hb]. unfold in_segment in Hx.
    unfold byte_inv, readable in Hb |- *. rewrite Hm, Hd, Hs in *. cbn. case_range; [|lia]. tauto.
  - intros x Hx _. unfold view_byte. by rewrite Hm.
Qed.

(** The checks at the head of [onSegmentationFault] pass for an allowed access. *)
Lemma fault_entry got (v0 : vm) x w :
  0 ≤ x < segments m * segmentSize m →
  protection m ≠ PROT_NONE_bits → (w = true → p_write (protection m) = true) →
  let id := x / segmentSize m in
  let status := status_at m id in
  let segmentBase := baseAddress m + id * segmentSize m in
  let exec := p_exec (protection m) in
  onSegmentationFault got m v0 d (baseAddress m + x) w =
  if eqb w (dirty status) && mapped status then Ok (m, v0, d, None)
  else
    '(v', d', dirty') ←
      (if negb (mapped status) && needRead status then
         '(v', d') ← loadAndSwapSegment got m v0 d (id * segmentSize m) w;
         Ok (v', d', if w then true else dirty status)
       else if w then
         v' ← mprotect v0 segmentBase (segmentSize m) true true exec; Ok (v', d, true)
       else
         v' ← mprotect v0 segmentBase (segmentSize m) true false exec; Ok (v', d, dirty status));
    Ok (set_status m id (mkStatus true dirty' (needRead status)), v', d', Some (id, status)).
Proof.
  intros Hx Hnone Hw. cbv zeta. pose proof (mi_geom _ _ _ Hinv) as Hg.
  assert (Hid : 0 ≤ x / segmentSize m < segments m) by (by apply segment_lt).
  unfold onSegmentationFault. pose proof (aligned_size m Hg) as Hal. unfold getAlignedSize in Hal.
  rewrite (Z.mul_comm (segments m)), Hal.
  destruct (Z.leb_spec (baseAddress m) (baseAddress m + x)); [|lia].
  destruct (Z.ltb_spec (baseAddress m + x) (baseAddress m + segments m * segmentSize m)); [|lia].
  cbn [andb assume mbind result_bind].
  replace (baseAddress m + x - baseAddress m) with x by lia.
  rewrite bool_decide_eq_false_2 by done. cbn [negb assume mbind result_bind].
  replace (w && negb (p_write (protection m))) with false
    by (destruct w; cbn; [by rewrite Hw|done]).
  cbn [negb assume mbind result_bind]. rewrite (get_status_ok m Hg) by done.
  cbn [mbind result_bind]. by rewrite (proj1 (segment_offset m Hg _ Hid)).
Qed.

(** The critical section of a fault, whatever happened to the segment since the
    access was refused. *)
Lemma fault_any got x w :
  0 ≤ x < segments m * segmentSize m → fresh_temp m got →
  protection m ≠ PROT_NONE_bits → (w = true → p_write (protection m) = true) →
  let id := x / segmentSize m in
  let s := status_at m id in
  let s' := mkStatus true (w || dirty s) (needRead s) in
  strict = false ∨ ¬ (mapped s = true ∧ dirty s = true ∧ w = false) →
  (mapped s = true ∧ dirty s = w ∧
   onSegmentationFault got m v d (baseAddress m + x) w = Ok (m, v, d, None)) ∨
  ∃ v', onSegmentationFault got m v d (baseAddress m + x) w =
      Ok (set_status m id s', v', d, Some (id, s)) ∧
    seg_update m v d id (temp_area m got) s' v' d.
Proof.
  intros Hx Hgot Hnone Hw id s s' Hlate. pose proof (mi_geom _ _ _ Hinv) as Hg.
  assert (Hid : 0 ≤ id < segments m) by (by apply segment_lt).
  rewrite fault_entry by done. cbv zeta. fold id. fold s.
  pose proof (segment_aligned m Hg id Hid) as Hpal.
  destruct (mapped s) eqn:Hm.
  - rewrite andb_true_r. cbn [negb andb]. destruct (dirty s) eqn:Hd, w; cbn [eqb].
    + left. done.
    + right. destruct Hlate as [Hlax|[]]; [|done]. rewrite mprotect_ok by done.
      eexists. split; [done|]. by apply late_read_update.
    + right. rewrite mprotect_ok by done. eexists. split; [done|].
      apply (open_update _ _ _ true); [done|done|done|by left].
    + left. done.
  - right. rewrite andb_false_r. cbn [negb andb].
    assert (dirty s = false) as Hd.
    { destruct (inv_segment id x Hid (segment_of m Hg x)) as [_ Hb]. unfold byte_inv in Hb.
      fold s in Hb. rewrite Hm in Hb. tauto. }
    subst s'. rewrite Hd, orb_false_r. destruct (needRead s) eqn:Hn.
    + destruct (load_ok got id w Hid Hgot Hm Hn Hw) as (v' & -> & Hsu). cbn [mbind result_bind].
      exists v'. split; [by destruct w|done].
    + exists (set_prot v (baseAddress m + id * segmentSize m) (segmentSize m)
         (Some (mkProt true w (p_exec (protection m))))).
      split; [destruct w; by rewrite mprotect_ok|].
      apply (open_update _ _ _ w); [done|done|fold s; by rewrite Hn|by right].
Qed.

(** ** A round of [flush] *)

(** Segment [id] written back and closed for writing. *)
Definition written (id : Z) (v' : vm) (d' : D) : Prop :=
  (∀ a, vm_mem v' a = vm_mem v a) ∧
  (∀ a, ¬ in_segment m id (a - baseAddress m) → vm_prot v' a = vm_prot v a) ∧
  driver_ok d' ∧ capacity d' = capacity d ∧
  ∀ y, content d' y =
    if in_range (storageOffset m + id * segmentSize m) (readWriteSize m (id * segmentSize m)) y
    then vm_mem v (baseAddress m + (y - storageOffset m)) else content d y.

Lemma write_segment w id :
  0 ≤ id < segments m → (∀ a, vm_mem w a = vm_mem v a) →
  (∀ a, ¬ in_segment m id (a - baseAddress m) → vm_prot w a = vm_prot v a) →
  ∃ n d', pwrite d w (baseAddress m + id * segmentSize m) (readWriteSize m (id * segmentSize m))
            (storageOffset m ⊕ id * segmentSize m) = Ok (n, d') ∧
    (n =? -1) = false ∧ (0 <=? n) = true ∧ written id w d'.
Proof.
  intros Hid Hw Hpr. pose proof Hinv as [Hg Hd Hc _].
  destruct (readWriteSize_spec m Hg id Hid) as [Hrw Hpos].
  pose proof (geom_segment m Hg id Hid) as Hseg. pose proof (wg_offset _ Hg).
  pose proof (capacity_law d Hd) as Hcap. pose proof (wg_size _ Hg).
  destruct (segment_aligned m Hg id Hid) as [Hb0 _].
  rewrite size_add by lia.
  destruct (pwrite_law d w (baseAddress m + id * segmentSize m) (readWriteSize m (id * segmentSize m))
    (storageOffset m + id * segmentSize m)) as (n & d' & Hrun & Hn & Hd' & Hc' & Hct);
    [done|lia|done|lia|lia|].
  exists n, d'. split; [done|]. split; [apply Z.eqb_neq; lia|]. split; [by apply Z.leb_le|].
  do 4 (split; [done|]). intros y. rewrite Hct. case_range; [|done]. rewrite Hw. f_equal. lia.
Qed.

(** The bytes a round of [flush] leaves in the storage for segment [id]. *)
Lemma written_content id v' d' x :
  0 ≤ id < segments m → written id v' d' → in_segment m id x → x < m_size m →
  content d' (storageOffset m + x) = vm_mem v (baseAddress m + x).
Proof.
  intros Hid (_ & _ & _ & _ & Hct) Hx Hlt. pose proof (mi_geom _ _ _ Hinv) as Hg.
  destruct (readWriteSize_spec m Hg id Hid) as [Hrw _]. unfold in_segment in Hx.
  rewrite Hct. case_range; [|lia]. f_equal. lia.
Qed.

Lemma written_other id v' d' y :
  0 ≤ id < segments m → written id v' d' →
  ¬ (in_segment m id (y - storageOffset m) ∧ y < storageOffset m + m_size m) →
  content d' y = content d y.
Proof.
  intros Hid (_ & _ & _ & _ & Hct) Hy. pose proof (mi_geom _ _ _ Hinv) as Hg.
  destruct (readWriteSize_spec m Hg id Hid) as [Hrw _]. unfold in_segment in Hy.
  rewrite Hct. case_range; [lia|done].
Qed.

(** Memory of segment [id] after a round: dropped, or kept read-only. *)
Definition closed (unmap : bool) (id : Z) (v' : vm) : Prop :=
  (∀ a, ¬ in_segment m id (a - baseAddress m) →
     vm_mem v' a = vm_mem v a ∧ vm_prot v' a = vm_prot v a) ∧
  ∀ x, in_segment m id x →
    readable v' (baseAddress m + x) = negb unmap ∧ writable v' (baseAddress m + x) = false ∧
    vm_mem v' (baseAddress m + x) = if unmap then 0 else vm_mem v (baseAddress m + x).

Lemma close_update T unmap id nr v' d' :
  0 ≤ id < segments m → mapped (status_at m id) = true → closed unmap id v' →
  driver_ok d' → capacity d' = capacity d →
  (∀ y, ¬ (in_segment m id (y - storageOffset m) ∧ y < storageOffset m + m_size m) →
     content d' y = content d y) →
  (∀ x, in_segment m id x → x < m_size m →
     (if nr : bool then content d' (storageOffset m + x) else 0) = vm_mem v (baseAddress m + x)) →
  seg_update m v d id T (mkStatus (negb unmap) false nr) v' d'.
Proof.
  intros Hid Hm [Hout Hin] Hd' Hc' Hct Hval. split; [by auto|done|done| |].
  - intros x Hx. destruct (Hin x Hx) as (Hr & Hw & Hmem). unfold byte_inv, backing. cbn.
    rewrite Hr, Hw, Hmem. destruct unmap; cbn; [done|]. split; [done|]. split; [done|].
    intros Hlt. by rewrite Hval.
  - intros x Hx Hlt. destruct (Hin x Hx) as (_ & _ & Hmem). unfold view_byte, backing. cbn.
    rewrite Hm, Hmem. destruct unmap; cbn; [|done]. by apply Hval.
Qed.

(** The end of a round: what [unmap] and [threadSafe] do to the memory. *)
Lemma close_segment unmap id v1 :
  0 ≤ id < segments m →
  (∀ a, vm_mem v1 a = vm_mem v a) →
  (∀ a, ¬ in_segment m id (a - baseAddress m) → vm_prot v1 a = vm_prot v a) →
  (threadSafe m = true → ∀ x, in_segment m id x →
     readable v1 (baseAddress m + x) = true ∧ writable v1 (baseAddress m + x) = false) →
  let ptr := baseAddress m + id * segmentSize m in
  let exec := p_exec (protection m) in
  closed unmap id
    (if unmap then madviseDontNeed (set_prot v1 ptr (segmentSize m) (Some (mkProt false false exec)))
                     ptr (segmentSize m)
     else if negb (threadSafe m) then set_prot v1 ptr (segmentSize m) (Some (mkProt true false exec))
     else v1).
Proof.
  intros Hid Hm1 Hp1 Hts ptr exec. split.
  - intros a Ha. pose proof (Hp1 a Ha) as Hp. unfold in_segment in Ha.
    destruct unmap; [|destruct (threadSafe m)]; cbn; case_range; subst ptr; try lia; by rewrite ?Hm1, ?Hp.
  - intros x Hx. assert (Hx' := Hx). unfold in_segment in Hx'. unfold readable, writable.
    destruct unmap; [|destruct (threadSafe m) eqn:E]; cbn.
    + case_range; subst ptr; [done|lia].
    + destruct (Hts eq_refl x Hx) as [Hr Hw]. unfold readable, writable in Hr, Hw.
      by rewrite Hr, Hw, Hm1.
    + case_range; subst ptr; [by rewrite Hm1|lia].
Qed.

Lemma same_update T id :
  0 ≤ id < segments m → seg_update m v d id T (status_at m id) v d.
Proof.
  intros Hid. pose proof (mi_driver _ _ _ Hinv). split; [done|done|done| |done].
  intros x Hx. by apply inv_segment.
Qed.

(** The two halves of a round: the write back of a dirty segment, and the end. *)
Definition closing (id : Z) : vm :=
  if dirty (status_at m id) && threadSafe m
  then set_prot v (baseAddress m + id * segmentSize m) (segmentSize m)
         (Some (mkProt true false (p_exec (protection m))))
  else v.

Lemma closing_vm id :
  (∀ a, vm_mem (closing id) a = vm_mem v a) ∧
  ∀ a, ¬ in_segment m id (a - baseAddress m) → vm_prot (closing id) a = vm_prot v a.
Proof.
  unfold closing. destruct (dirty (status_at m id) && threadSafe m); cbn; [|done].
  split; [done|]. intros a Ha. unfold in_segment in Ha. case_range; [lia|done].
Qed.

Lemma closing_readonly id :
  0 ≤ id < segments m → mapped (status_at m id) = true → threadSafe m = true →
  ∀ x, in_segment m id x →
    readable (closing id) (baseAddress m + x) = true ∧ writable (closing id) (baseAddress m + x) = false.
Proof.
  intros Hid Hm Hts x Hx. destruct (inv_segment id x Hid Hx) as [_ Hb]. unfold byte_inv in Hb.
  rewrite Hm in Hb. unfold closing. rewrite Hts, andb_true_r. unfold in_segment in Hx.
  unfold readable, writable in Hb |- *.
  destruct (dirty (status_at m id)); cbn; [case_range; [done|lia]|tauto].
Qed.

Lemma writeback_ok id :
  0 ≤ id < segments m → mapped (status_at m id) = true → dirty (status_at m id) = true →
  let ptr := baseAddress m + id * segmentSize m in
  ∃ d1, (v1 ← (if threadSafe m then mprotect v ptr (segmentSize m) true (negb (threadSafe m))
                                  (p_exec (protection m)) else Ok v);
         '(res, d1) ← pwrite d v1 ptr (readWriteSize m (id * segmentSize m))
                        (storageOffset m ⊕ id * segmentSize m);
         assume (negb (res =? -1)) "Fail to pwrite";;
         assume (0 <=? res) "Fail to fully write the segment";;
         Ok (v1, d1, mkStatus (mapped (status_at m id)) false true)) =
        Ok (closing id, d1, mkStatus true false true) ∧ written id (closing id) d1.
Proof.
  intros Hid Hm Hd ptr. pose proof (mi_geom _ _ _ Hinv) as Hg.
  assert ((if threadSafe m then mprotect v ptr (segmentSize m) true (negb (threadSafe m))
            (p_exec (protection m)) else Ok v) = Ok (closing id)) as ->.
  { unfold closing. rewrite Hd. destruct (threadSafe m); [|done].
    rewrite mprotect_ok; [done|by apply segment_aligned]. }
  cbn [mbind result_bind]. destruct (closing_vm id) as [Hmem Hprot].
  destruct (write_segment (closing id) id Hid Hmem Hprot) as (n & d1 & Hrun & Hn1 & Hn2 & Hwr).
  fold ptr in Hrun. rewrite Hrun. cbn [mbind result_bind]. rewrite Hn1, Hn2, Hm. by exists d1.
Qed.

Lemma round_end unmap id nr (d1 : D) :
  0 ≤ id < segments m → mapped (status_at m id) = true →
  let ptr := baseAddress m + id * segmentSize m in
  let v1 := closing id in
  ∃ v2, ('(v2, status2) ←
      (if unmap : bool then
         v2 ← mprotect v1 ptr (segmentSize m) false false (p_exec (protection m));
         Ok (madviseDontNeed v2 ptr (segmentSize m), mkStatus false false nr)
       else if negb (threadSafe m) then
         v2 ← mprotect v1 ptr (segmentSize m) true false (p_exec (protection m));
         Ok (v2, mkStatus true false nr)
       else Ok (v1, mkStatus true false nr));
      Ok (set_status m id status2, v2, d1)) =
      Ok (set_status m id (mkStatus (negb unmap) false nr), v2, d1) ∧ closed unmap id v2.
Proof.
  intros Hid Hm ptr v1. pose proof (mi_geom _ _ _ Hinv) as Hg.
  pose proof (segment_aligned m Hg id Hid) as Hal. destruct (closing_vm id) as [Hmem Hprot].
  eexists. split; [|apply (close_segment unmap id v1); [done..|by apply closing_readonly]].
  subst ptr. destruct unmap; [by rewrite mprotect_ok|].
  destruct (threadSafe m); cbn [negb]; [done|by rewrite mprotect_ok].
Qed.

Lemma flush_round unmap id :
  0 ≤ id < segments m →
  ∃ s' v' d', flushSegment unmap (m, v, d) (id * segmentSize m) = Ok (set_status m id s', v', d') ∧
    seg_update m v d id (λ _, False) s' v' d' ∧ dirty s' = false ∧
    mapped s' = (mapped (status_at m id) && negb unmap) ∧
    needRead s' = (needRead (status_at m id) || dirty (status_at m id)) ∧
    (dirty (status_at m id) = false → d' = d).
Proof.
  intros Hid. pose proof (mi_geom _ _ _ Hinv) as Hg. pose proof (geom_segmentSize m Hg).
  pose proof (mi_driver _ _ _ Hinv). unfold flushSegment. rewrite Z.div_mul by lia.
  rewrite (get_status_ok m Hg) by done. cbn [mbind result_bind]. set (s := status_at m id).
  destruct (mapped s) eqn:Hm.
  - destruct (dirty s) eqn:Hd.
    + destruct (writeback_ok id Hid Hm Hd) as (d1 & Hrun & Hwr). cbv zeta in Hrun. fold s in Hrun.
      rewrite Hm in Hrun. cbn [andb]. rewrite Hrun. cbn [mbind result_bind mapped dirty needRead].
      destruct (round_end unmap id true d1 Hid Hm) as (v2 & -> & Hcl).
      eexists _, v2, d1. split; [done|]. split; [|cbn; by rewrite orb_true_r].
      pose proof Hwr as (_ & _ & Hd1 & Hc1 & _).
      apply close_update; [done..| |]; intros; [by eapply written_other|by eapply written_content].
    + cbn [andb mbind result_bind]. rewrite Hm, Hd.
      destruct (round_end unmap id (needRead s) d Hid Hm) as (v2 & Hrun & Hcl).
      unfold closing in Hrun. fold s in Hrun. rewrite Hd in Hrun. cbn [andb] in Hrun.
      exists (mkStatus (negb unmap) false (needRead s)), v2, d. rewrite <- Hrun.
      split; [destruct s; cbn in *; by subst|]. split; [|cbn; by rewrite orb_false_r].
      apply close_update; try done. intros x Hx Hlt.
      destruct (inv_segment id x Hid Hx) as [_ Hb]. unfold byte_inv in Hb.
      fold s in Hb. rewrite Hm, Hd in Hb. unfold backing in Hb. symmetry. by apply Hb.
  - assert (dirty s = false) as Hd.
    { destruct (inv_segment id (id * segmentSize m) Hid) as [_ Hb]; [unfold in_segment; lia|].
      unfold byte_inv in Hb. fold s in Hb. rewrite Hm in Hb. tauto. }
    rewrite Hd. cbn [andb mbind result_bind]. rewrite Hm. cbn [mbind result_bind].
    exists s, v, d. split; [done|]. split; [by apply same_update|]. by rewrite orb_false_r.
Qed.
End Steps.

(** ** Faults handled at once

    Nothing happened to the segment since the access was refused. *)
Section StrictSteps.
Context {D : Type} `{StorageDriver D}.
Context (m : Mapping) (v : vm) (d : D) (Hinv : mapping_inv m v d).

Lemma fault_status w id x :
  0 ≤ id < segments m → in_segment m id x → permitted v w (baseAddress m + x) = false →
  mapped (status_at m id) = false ∨
  (mapped (status_at m id) = true ∧ dirty (status_at m id) = false ∧ w = true).
Proof.
  intros Hid Hx Hacc. destruct (inv_segment m v d Hinv id x Hid Hx) as [_ Hb].
  unfold byte_inv, strict, one_fault_at_a_time in Hb.
  unfold permitted in Hacc. destruct (mapped (status_at m id)); [|tauto]. right.
  destruct (dirty (status_at m id)), w; intuition congruence.
Qed.

Lemma fault_ok got x w :
  0 ≤ x < segments m * segmentSize m → fresh_temp m got →
  protection m ≠ PROT_NONE_bits → (w = true → p_write (protection m) = true) →
  permitted v w (baseAddress m + x) = false →
  let id := x / segmentSize m in
  let s' := mkStatus true w (needRead (status_at m id)) in
  ∃ v', onSegmentationFault got m v d (baseAddress m + x) w =
      Ok (set_status m id s', v', d, Some (id, status_at m id)) ∧
    seg_update m v d id (temp_area m got) s' v' d.
Proof.
  intros Hx Hgot Hnone Hw Hacc id. pose proof (mi_geom _ _ _ Hinv) as Hg.
  assert (Hid : 0 ≤ id < segments m) by (by apply segment_lt).
  pose proof (segment_of m Hg x) as Hin. pose proof (fault_status w id x Hid Hin Hacc) as Hst.
  assert (Hd : w || dirty (status_at m id) = w).
  { destruct Hst as [Hm|(_ & -> & ->)]; [|done].
    destruct (inv_segment m v d Hinv id x Hid Hin) as [_ Hb]. unfold byte_inv in Hb.
    rewrite Hm in Hb. destruct Hb as (-> & _). apply orb_false_r. }
  destruct (fault_any m v d Hinv got x w) as [(Hm & Hdw & _)|Hrun]; [done..| | |].
  - right. intros (Hm & Hd1 & Hw1). fold id in Hm, Hd1.
    destruct Hst as [Hm'|(_ & Hd' & _)]; congruence.
  - fold id in Hm, Hdw. destruct Hst as [Hm'|(_ & Hd' & ->)]; congruence.
  - fold id in Hrun. rewrite Hd in Hrun. exact Hrun.
Qed.
End StrictSteps.

(** ** Sequences of segment changes *)

Section Keeps.
Context {D : Type} `{StorageDriver D} {Str : Strictness}.

(** The invariant holds after, the program sees the same bytes, and nothing outside
    the mapping, its part of the storage and the scratch memory [T] changed. *)
Record keeps (T : Z → Prop) (m : Mapping) (v : vm) (d : D) (m' : Mapping) (v' : vm) (d' : D)
    : Prop := {
  k_inv : mapping_inv m' v' d';
  k_view : ∀ x, 0 ≤ x < m_size m → view m' v' d' x = view m v d x;
  k_const : ∃ l, m' = set_segmentStatus m l;
  k_vm : ∀ a, ¬ (baseAddress m ≤ a < baseAddress m + segments m * segmentSize m) → ¬ T a →
    vm_mem v' a = vm_mem v a ∧ vm_prot v' a = vm_prot v a;
  k_content : ∀ y, ¬ (storageOffset m ≤ y < storageOffset m + m_size m) →
    content d' y = content d y;
}.

(** The same for a driver that may have other bytes elsewhere: what the owner of the
    mapping needs. *)
Record refits (T : Z → Prop) (m : Mapping) (v : vm) (d : D) (m' : Mapping) (v' : vm) (d' : D)
    : Prop := {
  r_inv : mapping_inv m' v' d';
  r_view : ∀ x, 0 ≤ x < m_size m → view m' v' d' x = view m v d x;
  r_const : ∃ l, m' = set_segmentStatus m l;
  r_vm : ∀ a, ¬ (baseAddress m ≤ a < baseAddress m + segments m * segmentSize m) → ¬ T a →
    vm_mem v' a = vm_mem v a ∧ vm_prot v' a = vm_prot v a;
}.

Lemma keeps_refits T m v d m' v' d' : keeps T m v d m' v' d' → refits T m v d m' v' d'.
Proof. by intros [H1' H2' H3' H4' _]. Qed.

Lemma keeps_refl T m v d : mapping_inv m v d → keeps T m v d m v d.
Proof. intros Hi. split; try done. exists (segmentStatus m). by destruct m. Qed.

Lemma keeps_trans (T : Z → Prop) m v d m1 v1 d1 m2 v2 d2 :
  keeps T m v d m1 v1 d1 → keeps T m1 v1 d1 m2 v2 d2 → keeps T m v d m2 v2 d2.
Proof.
  intros [I1 V1 [l1 ->] M1 C1] [I2 V2 [l2 ->] M2 C2]. cbn in *. split.
  - done.
  - intros x Hx. by rewrite V2, V1.
  - by exists l2.
  - intros a Ha HT. destruct (M1 a Ha HT) as [<- <-]. by apply M2.
  - intros y Hy. by rewrite C2, C1.
Qed.

Lemma keeps_weaken (T T' : Z → Prop) m v d m' v' d' :
  (∀ a, T a → T' a) → keeps T m v d m' v' d' → keeps T' m v d m' v' d'.
Proof. intros HT []. split; try done. intros. auto. Qed.

Lemma seg_update_keeps T m v d id s v' d' :
  mapping_inv m v d → 0 ≤ id < segments m → outside m T → seg_update m v d id T s v' d' →
  keeps T m v d (set_status m id s) v' d'.
Proof.
  intros Hi Hid HT Hsu. destruct (seg_update_ok m v d id T s v' d' Hi Hid HT Hsu) as [Hi' Hv].
  pose proof (mi_geom _ _ _ Hi) as Hg. destruct Hsu as [Hvm Hct _ _ _].
  pose proof (geom_segment m Hg id Hid). pose proof (geom_end m Hg id Hid).
  split; [done|done|by eexists| |].
  - intros a Ha HTa. apply Hvm; [unfold in_segment; lia|done].
  - intros y Hy. apply Hct. unfold in_segment. lia.
Qed.

(** What [flush] leaves of the status of a segment. *)
Definition flushed_status (unmap : bool) (s s' : SegmentStatus) : Prop :=
  dirty s' = false ∧ mapped s' = (mapped s && negb unmap) ∧
  needRead s' = (needRead s || dirty s).

Lemma flushLoop_ok n unmap fuel m v d lo :
  mapping_inv m v d → 0 ≤ lo → lo + Z.of_nat n ≤ segments m → (n < fuel)%nat →
  ∃ m' v' d', flushLoop fuel unmap ((lo + Z.of_nat n) * segmentSize m) (m, v, d) (lo * segmentSize m)
      = Ok (m', v', d') ∧
    keeps (λ _, False) m v d m' v' d' ∧
    (∀ i, 0 ≤ i < segments m →
       if decide (lo ≤ i < lo + Z.of_nat n)
       then flushed_status unmap (status_at m i) (status_at m' i)
       else status_at m' i = status_at m i) ∧
    ∀ y, (∀ i, lo ≤ i < lo + Z.of_nat n → dirty (status_at m i) = true →
                 ¬ in_segment m i (y - storageOffset m)) → content d' y = content d y.
Proof.
  revert fuel m v d lo. induction n as [|n IH]; intros fuel m v d lo Hi Hlo Hhi Hf;
    (destruct fuel as [|fuel]; [lia|]); cbn [flushLoop].
  - rewrite Z.add_0_r, Z.ltb_irrefl. exists m, v, d. split; [done|].
    split; [by apply keeps_refl|]. split; [|done]. intros i Hix. case_decide; [lia|done].
  - pose proof (mi_geom _ _ _ Hi) as Hg. pose proof (geom_segmentSize m Hg) as Hss.
    assert (Hid : 0 ≤ lo < segments m) by lia. pose proof (wg_fits _ Hg).
    pose proof (geom_end m Hg lo Hid).
    destruct (Z.ltb_spec (lo * segmentSize m) ((lo + Z.of_nat (S n)) * segmentSize m)); [|nia].
    destruct (flush_round m v d Hi unmap lo Hid) as (s1 & v1 & d1 & -> & Hsu & Hst & Hst2 & Hst3 & Hsame).
    cbn [mbind result_bind fst].
    assert (Hk : keeps (λ _, False) m v d (set_status m lo s1) v1 d1)
      by (apply seg_update_keeps; [done|done|by intros ? ?|done]).
    rewrite size_add by lia. replace (lo * segmentSize m + segmentSize m) with ((lo + 1) * segmentSize m) by lia.
    replace (lo + Z.of_nat (S n)) with (lo + 1 + Z.of_nat n) by lia.
    destruct (IH fuel (set_status m lo s1) v1 d1 (lo + 1)) as (m2 & v2 & d2 & Hrun & Hk2 & Hst' & Hsame');
      [apply Hk|lia|cbn; lia|lia|]. cbn [set_status set_segmentStatus segmentSize segments] in Hrun, Hst'.
    exists m2, v2, d2. split; [done|]. split; [by eapply keeps_trans|]. split.
    + intros i Hix. specialize (Hst' i Hix). destruct (decide (i = lo)) as [->|Hne].
      * rewrite decide_False in Hst' by lia. rewrite decide_True by lia.
        rewrite Hst', status_set_same by done. done.
      * change (set_segmentStatus _ _) with (set_status m lo s1) in Hst'.
        rewrite status_set_other in Hst' by lia. case_decide; case_decide; try lia; done.
    + intros y Hy. rewrite Hsame'.
      * destruct (dirty (status_at m lo)) eqn:Hd; [|by rewrite Hsame].
        apply (su_content _ _ _ _ _ _ _ _ Hsu). intros [Hin _]. apply (Hy lo); [lia|done|done].
      * intros i Hix. rewrite status_set_other by lia. apply Hy. lia.
Qed.
End Keeps.

#[export] Hint Resolve keeps_refits : core.
