(* ===== verification/MappingSpec.v ===== *)
(** * What a mapping promises

    The operations of [Mapping] on top of the invariant of [MappingInv]: [flush],
    eviction, [dropClean] and [markCleanAsDirty] change where bytes live and never
    what the program reads; a load or a store needs at most one fault; any sequence
    of program accesses and library operations behaves like the same sequence of
    accesses to an array of bytes. *)

From S2P Require Import Prelude OS Driver Mapping MappingInv.

(** ** Mutexes of a range *)

Lemma foldl_marks (f : Z → nat) (ids : list Z) (l : list bool) :
  length (foldl (λ l id, <[f id := true]> l) l ids) = length l ∧
  ∀ k, foldl (λ l id, <[f id := true]> l) l ids !! k = Some true ↔
       l !! k = Some true ∨ (k < length l)%nat ∧ k ∈ f <$> ids.
Proof.
  revert l. induction ids as [|id ids IH]; intros l; cbn [foldl fmap list_fmap].
  - split; [done|]. intros k. set_solver.
  - destruct (IH (<[f id := true]> l)) as [Hlen Hk]. rewrite length_insert in Hlen, Hk.
    split; [done|]. intros k. rewrite Hk, elem_of_cons. destruct (decide (k = f id)) as [->|Hne].
    + destruct (decide (f id < length l)%nat).
      * rewrite list_lookup_insert_eq by done. tauto.
      * rewrite !lookup_ge_None_2 by (rewrite ?length_insert; lia). naive_solver.
    + rewrite list_lookup_insert_ne by done. tauto.
Qed.

Section Mutexes.
Context (m : Mapping) (Hwf : wf_geometry m).

(** The checks at the head of [flush] and [getMutexRange] on a range of segments. *)
Lemma range_checks lo n :
  0 ≤ lo < segments m → 0 ≤ n → lo + n ≤ segments m →
  (lo * segmentSize m <? getSize m) = true ∧
  (lo * segmentSize m ⊕ n * segmentSize m <=? getAlignedSize m) = true ∧
  lo * segmentSize m ⊕ n * segmentSize m = (lo + n) * segmentSize m ∧
  (lo * segmentSize m) mod segmentSize m = 0 ∧ (n * segmentSize m) mod segmentSize m = 0.
Proof.
  intros Hlo Hn Hhi. pose proof (geom_segment m Hwf lo Hlo). pose proof (geom_segmentSize m Hwf).
  pose proof (wg_fits _ Hwf). rewrite (aligned_size m Hwf). unfold getSize.
  rewrite size_add by nia. rewrite Z.ltb_lt, Z.leb_le, !Z.mod_mul by lia. nia.
Qed.

Lemma getMutexRange_ok lo n :
  0 ≤ lo < segments m → 0 ≤ n → lo + n ≤ segments m →
  ∃ l, getMutexRange m (lo * segmentSize m) (n * segmentSize m) = Ok l ∧
    Z.of_nat (length l) = segmentMutexesCnt m ∧
    ∀ k, 0 ≤ k < segmentMutexesCnt m →
      l !! Z.to_nat k = Some true ↔ ∃ id, lo ≤ id < lo + n ∧ id mod segmentMutexesCnt m = k.
Proof.
  intros Hlo Hn Hhi. destruct (range_checks lo n Hlo Hn Hhi) as (H1 & H2 & _ & H4 & H5).
  pose proof (geom_segmentSize m Hwf). pose proof (wg_mutexes _ Hwf) as Hcnt.
  unfold getMutexRange. rewrite H1, H2, H4, H5. cbn [cassert mbind result_bind Z.eqb].
  rewrite !Z.div_mul by lia. eexists. split; [done|].
  destruct (foldl_marks (λ id, Z.to_nat (id mod segmentMutexesCnt m)) (seqZ lo n)
    (replicate (Z.to_nat (segmentMutexesCnt m)) false)) as [Hlen Hk].
  rewrite length_replicate in Hlen, Hk. split; [lia|]. intros k Hkr. rewrite Hk.
  rewrite list_elem_of_fmap. split.
  - intros [[? _]%lookup_replicate|(_ & id & Hid & Hin%elem_of_seqZ)]; [done|].
    exists id. pose proof (Z.mod_pos_bound id (segmentMutexesCnt m)). lia.
  - intros (id & Hr & <-). right. split; [lia|]. exists id. split; [done|]. apply elem_of_seqZ. lia.
Qed.
End Mutexes.

Section Ops.
Context {D : Type} `{StorageDriver D} {Str : Strictness}.
Context (m : Mapping) (v : vm) (d : D) (Hinv : mapping_inv m v d).

Lemma flush_ok lo n flags :
  0 ≤ lo < segments m → 0 ≤ n → lo + n ≤ segments m →
  ∃ m' v' d', flush m v d (lo * segmentSize m) (n * segmentSize m) flags = Ok (m', v', d') ∧
    keeps (λ _, False) m v d m' v' d' ∧
    (∀ i, 0 ≤ i < segments m →
       if decide (lo ≤ i < lo + n)
       then flushed_status (has_flag flags UMMAP_FLUSH_UNMAP) (status_at m i) (status_at m' i)
       else status_at m' i = status_at m i) ∧
    ∀ y, (∀ i, lo ≤ i < lo + n → dirty (status_at m i) = true →
                 ¬ in_segment m i (y - storageOffset m)) → content d' y = content d y.
Proof.
  intros Hlo Hn Hhi. pose proof (mi_geom _ _ _ Hinv) as Hg.
  destruct (range_checks m Hg lo n Hlo Hn Hhi) as (H1' & H2' & H3' & H4' & H5').
  unfold flush. rewrite H1', H2', H4', H5'. cbn [assume mbind result_bind Z.eqb].
  rewrite directMSync_law by exact (mi_driver _ _ _ Hinv). cbn [mbind result_bind].
  destruct (getMutexRange_ok m Hg lo n Hlo Hn Hhi) as (l & -> & _). cbn [mbind result_bind].
  rewrite H3'. set (unmap := has_flag flags UMMAP_FLUSH_UNMAP).
  destruct (flushLoop_ok (Z.to_nat n) unmap (flush_fuel m) m v d lo Hinv)
    as (m' & v' & d' & Hrun & Hk & Hst & Hsame); [lia|lia|unfold flush_fuel; lia|].
  rewrite Z2Nat.id in Hrun, Hst, Hsame by done. rewrite Hrun. cbn [mbind result_bind].
  assert (Hsync : (if has_flag flags UMMAP_FLUSH_SYNC
                   then dsync d' v' (getAddress m) (lo * segmentSize m) (n * segmentSize m)
                   else Ok (d', v')) = Ok (d', v')).
  { destruct (has_flag flags UMMAP_FLUSH_SYNC); [|done]. destruct (k_const _ _ _ _ _ _ _ Hk) as [l' ->].
    pose proof (k_inv _ _ _ _ _ _ _ Hk) as [_ Hd' Hc' _]. cbn in Hc'. apply dsync_law; [done|].
    pose proof (geom_segment m Hg lo Hlo). pose proof (wg_offset _ Hg). lia. }
  rewrite Hsync. cbn [mbind result_bind]. exists m', v', d'. done.
Qed.

(** Eviction of one segment: written back if dirty, then dropped from memory. *)
Lemma evict_segment_ok id :
  0 ≤ id < segments m →
  ∃ m' v' d', evict_segment m v d id = Ok (m', v', d') ∧
    keeps (λ _, False) m v d m' v' d' ∧
    status_at m' id = mkStatus false false (needRead (status_at m id) || dirty (status_at m id)) ∧
    ∀ i, 0 ≤ i < segments m → i ≠ id → status_at m' i = status_at m i.
Proof.
  intros Hid. pose proof (mi_geom _ _ _ Hinv) as Hg. unfold evict_segment.
  rewrite (proj2 (segment_offset m Hg id Hid)).
  destruct (flush_ok id 1 (Z.lor UMMAP_FLUSH_UNMAP UMMAP_FLUSH_NO_LOCK)) as (m' & v' & d' & Hrun & Hk & Hst & _);
    [lia..|]. rewrite Z.mul_1_l in Hrun. exists m', v', d'. split; [done|]. split; [done|]. split.
  - specialize (Hst id Hid). rewrite decide_True in Hst by lia. destruct Hst as (H1' & H2' & H3').
    cbn in H2'. rewrite andb_false_r in H2'. destruct (status_at m' id). cbn in *. by subst.
  - intros i Hi Hne. specialize (Hst i Hi). by rewrite decide_False in Hst by lia.
Qed.
End Ops.

(** ** Loops over all the segments *)

Section Loops.
Context {D : Type} `{StorageDriver D} {Str : Strictness}.

Lemma set_status_id m id : 0 ≤ id < segments m → wf_geometry m → set_status m id (status_at m id) = m.
Proof.
  intros Hid Hg. unfold set_status, status_at. pose proof (wg_status _ Hg).
  destruct (lookup_lt_is_Some_2 (segmentStatus m) (Z.to_nat id)) as [s Hs]; [lia|].
  rewrite Hs. cbn. rewrite list_insert_id by done. by destruct m.
Qed.

(** A round changes the status [s] of its segment to [change p s]. *)
Definition round_ok (f : Mapping * vm → Z → result (Mapping * vm))
    (change : prot → SegmentStatus → SegmentStatus) : Prop :=
  ∀ m v (d : D) i, mapping_inv m v d → 0 ≤ i < segments m →
    let s' := change (protection m) (status_at m i) in
    ∃ v', f (m, v) i = Ok (set_status m i s', v') ∧ seg_update m v d i (λ _, False) s' v' d.

Lemma loop_ok f change n m v (d : D) lo :
  round_ok f change → mapping_inv m v d → 0 ≤ lo → lo + Z.of_nat n ≤ segments m →
  ∃ m' v', foldM f (m, v) (seqZ lo (Z.of_nat n)) = Ok (m', v') ∧
    keeps (λ _, False) m v d m' v' d ∧
    ∀ i, 0 ≤ i < segments m → status_at m' i =
      if decide (lo ≤ i < lo + Z.of_nat n) then change (protection m) (status_at m i)
      else status_at m i.
Proof.
  intros Hf. revert m v lo. induction n as [|n IH]; intros m v lo Hi Hlo Hhi.
  - exists m, v. split; [done|]. split; [by apply keeps_refl|].
    intros i Hix. rewrite decide_False by lia. done.
  - rewrite seqZ_cons by lia. cbn [foldM].
    destruct (Hf m v d lo Hi ltac:(lia)) as (v1 & -> & Hsu). cbn [mbind result_bind].
    set (s' := change _ _) in *. set (m1 := set_status m lo s').
    assert (Hk : keeps (λ _, False) m v d m1 v1 d)
      by (apply seg_update_keeps; [done|lia|by intros ? ?|done]).
    replace (Z.pred (Z.of_nat (S n))) with (Z.of_nat n) by lia.
    destruct (IH m1 v1 (Z.succ lo)) as (m2 & v2 & Hrun & Hk2 & Hst);
      [apply Hk|lia|cbn; lia|].
    exists m2, v2. split; [done|]. split; [by eapply keeps_trans|].
    intros i Hix. rewrite Hst by done. cbn [m1 set_status set_segmentStatus protection].
    pose proof (mi_geom _ _ _ Hi) as Hg. destruct (decide (i = lo)) as [->|Hne].
    + rewrite decide_False, decide_True by lia. subst m1. rewrite status_set_same by (done || lia). done.
    + subst m1. rewrite status_set_other by lia.
      case_decide; case_decide; try lia; done.
Qed.

Lemma loop_all f change m v (d : D) :
  round_ok f change → mapping_inv m v d →
  ∃ m' v', foldM f (m, v) (seqZ 0 (segments m)) = Ok (m', v') ∧
    keeps (λ _, False) m v d m' v' d ∧
    ∀ i, 0 ≤ i < segments m → status_at m' i = change (protection m) (status_at m i).
Proof.
  intros Hf Hi. pose proof (wg_segments _ (mi_geom _ _ _ Hi)).
  destruct (loop_ok f change (Z.to_nat (segments m)) m v d 0 Hf Hi) as (m' & v' & Hrun & Hk & Hst);
    [lia|lia|]. rewrite Z2Nat.id in Hrun, Hst by lia. exists m', v'. split; [done|]. split; [done|].
  intros i Hix. rewrite Hst by done. by rewrite decide_True by lia.
Qed.

Definition drop_status (p : prot) (s : SegmentStatus) : SegmentStatus :=
  if mapped s && negb (dirty s) then mkStatus false false (needRead s) else s.
Definition mark_status (p : prot) (s : SegmentStatus) : SegmentStatus :=
  if mapped s && negb (dirty s) && p_write p then mkStatus true true (needRead s) else s.

(** A clean mapped segment is readable, not writable, and holds what backs it. *)
Lemma clean_segment m v (d : D) i x :
  mapping_inv m v d → 0 ≤ i < segments m → mapped (status_at m i) = true →
  dirty (status_at m i) = false → in_segment m i x →
  readable v (baseAddress m + x) = true ∧ writable v (baseAddress m + x) = false ∧
  (x < m_size m → vm_mem v (baseAddress m + x) = backing m d (status_at m i) x).
Proof.
  intros Hi Hix Hm Hd Hx. destruct (inv_segment m v d Hi i x Hix Hx) as [_ Hb].
  unfold byte_inv in Hb. by rewrite Hm, Hd in Hb.
Qed.

Lemma dropSegment_ok : round_ok dropSegment drop_status.
Proof.
  intros m v d i Hi Hix s'. subst s'. pose proof (mi_geom _ _ _ Hi) as Hg.
  pose proof (mi_driver _ _ _ Hi). unfold dropSegment, drop_status.
  rewrite (get_status_ok m Hg) by done. cbn [mbind result_bind].
  destruct (mapped (status_at m i) && negb (dirty (status_at m i))) eqn:E.
  - apply andb_true_iff in E as [Hm Hd%negb_true_iff].
    rewrite (proj1 (segment_offset m Hg i Hix)), mprotect_ok by (by apply segment_aligned).
    cbn [mbind result_bind]. eexists. rewrite Hd. split; [done|].
    apply (close_update m v d _ true); try done.
    + apply (close_segment m v true i v Hix); [done..|].
      intros _ x Hx. destruct (clean_segment m v d i x) as (? & ? & _); done.
    + intros x Hx Hlt. destruct (clean_segment m v d i x) as (_ & _ & Hb); [done..|].
      symmetry. by apply Hb.
  - exists v. rewrite set_status_id by done. split; [done|]. by apply same_update.
Qed.

Lemma markSegmentDirty_ok : round_ok markSegmentDirty mark_status.
Proof.
  intros m v d i Hi Hix s'. subst s'. pose proof (mi_geom _ _ _ Hi) as Hg.
  unfold markSegmentDirty, mark_status.
  rewrite (get_status_ok m Hg) by done. cbn [mbind result_bind].
  destruct (mapped (status_at m i) && negb (dirty (status_at m i)) && p_write (protection m)) eqn:E.
  - apply andb_true_iff in E as [[Hm Hd%negb_true_iff]%andb_true_iff Hw].
    rewrite (proj1 (segment_offset m Hg i Hix)), mprotect_ok by (by apply segment_aligned).
    cbn [mbind result_bind]. eexists. rewrite Hm. split; [done|].
    by apply (open_update m v d Hi _ i _ true); [..|left].
  - exists v. rewrite set_status_id by done. split; [done|]. by apply same_update.
Qed.

Lemma dropClean_ok m v (d : D) :
  mapping_inv m v d →
  ∃ m' v', dropClean m v = Ok (m', v') ∧ keeps (λ _, False) m v d m' v' d ∧
    ∀ i, 0 ≤ i < segments m → status_at m' i = drop_status (protection m) (status_at m i).
Proof. apply loop_all, dropSegment_ok. Qed.

Lemma markCleanAsDirty_ok m v (d : D) :
  mapping_inv m v d →
  ∃ m' v', markCleanAsDirty m v = Ok (m', v') ∧ keeps (λ _, False) m v d m' v' d ∧
    ∀ i, 0 ≤ i < segments m → status_at m' i = mark_status (protection m) (status_at m i).
Proof. apply loop_all, markSegmentDirty_ok. Qed.

End Loops.

(** ** The program's accesses

    An access that the page protection refuses raises a fault, the handler runs and
    the instruction is tried again.  [oracle] gives the addresses the kernel returns
    to the successive faults and bounds their number. *)

Section Access.
Context {D : Type} `{DriverOps D}.

Fixpoint load (oracle : list (option Z)) (m : Mapping) (v : vm) (d : D) (x : Z)
    : result (Z * (Mapping * vm * D)) :=
  if readable v (baseAddress m + x) then Ok (vm_mem v (baseAddress m + x), (m, v, d))
  else match oracle with
  | [] => Err OutOfFuel
  | got :: oracle' =>
      '(m', v', d', _) ← onSegmentationFault got m v d (baseAddress m + x) false;
      load oracle' m' v' d' x
  end.

Fixpoint store (oracle : list (option Z)) (m : Mapping) (v : vm) (d : D) (x b : Z)
    : result (Mapping * vm * D) :=
  if writable v (baseAddress m + x) then Ok (m, poke v (baseAddress m + x) b, d)
  else match oracle with
  | [] => Err OutOfFuel
  | got :: oracle' =>
      '(m', v', d', _) ← onSegmentationFault got m v d (baseAddress m + x) true;
      store oracle' m' v' d' x b
  end.

(** What the program and the library do to a mapping, in any order. *)
Inductive mapping_op : Type :=
  | Load (x : Z) (got : option Z)
  | Store (x b : Z) (got : option Z)
  | Flush (lo n flags : Z)
  | Evict (id : Z)
  | DropClean
  | MarkCleanAsDirty.

Definition run_mapping_op (s : list Z * (Mapping * vm * D)) (op : mapping_op)
    : result (list Z * (Mapping * vm * D)) :=
  let '(out, (m, v, d)) := s in
  match op with
  | Load x got => '(b, s') ← load [got] m v d x; Ok (out ++ [b], s')
  | Store x b got => s' ← store [got] m v d x b; Ok (out, s')
  | Flush lo n flags =>
      s' ← flush m v d (lo * segmentSize m) (n * segmentSize m) flags; Ok (out, s')
  | Evict id => s' ← evict_segment m v d id; Ok (out, s')
  | DropClean => '(m', v') ← dropClean m v; Ok (out, (m', v', d))
  | MarkCleanAsDirty => '(m', v') ← markCleanAsDirty m v; Ok (out, (m', v', d))
  end.

(** The same operations on an array of bytes: only stores matter. *)
Definition array_op (s : list Z * (Z → Z)) (op : mapping_op) : list Z * (Z → Z) :=
  let '(out, a) := s in
  match op with
  | Load x _ => (out ++ [a x], a)
  | Store x b _ => (out, λ y, if y =? x then b else a y)
  | _ => (out, a)
  end.

(** Accesses inside the mapping and allowed by its protection, library calls on
    whole segments, and a kernel that returns unused memory. *)
Definition legal_op (m : Mapping) (op : mapping_op) : Prop :=
  match op with
  | Load x got => 0 ≤ x < m_size m ∧ fresh_temp m got ∧ protection m ≠ PROT_NONE_bits
  | Store x b got => 0 ≤ x < m_size m ∧ fresh_temp m got ∧ p_write (protection m) = true
  | Flush lo n flags => 0 ≤ lo < segments m ∧ 0 ≤ n ∧ lo + n ≤ segments m
  | Evict id => 0 ≤ id < segments m
  | DropClean | MarkCleanAsDirty => True
  end.
End Access.

(** Accesses the protection lets through. *)
Section Hardware.
Context {D : Type} `{StorageDriver D} {Str : Strictness}.

Lemma permitted_view m v (d : D) x :
  mapping_inv m v d → 0 ≤ x < segments m * segmentSize m → readable v (baseAddress m + x) = true →
  view m v d x = vm_mem v (baseAddress m + x).
Proof.
  intros Hi Hx Hr. pose proof (mi_bytes _ _ _ Hi x Hx) as Hb. unfold byte_inv in Hb.
  unfold view, view_byte. destruct (mapped _); [done|]. destruct Hb as (_ & Hb & _). congruence.
Qed.

(** A store to a writable byte changes that byte of the view and nothing else. *)
Lemma poke_ok m v (d : D) x b :
  mapping_inv m v d → 0 ≤ x < m_size m → writable v (baseAddress m + x) = true →
  mapping_inv m (poke v (baseAddress m + x) b) d ∧
  ∀ y, 0 ≤ y < m_size m → view m (poke v (baseAddress m + x) b) d y =
    if y =? x then b else view m v d y.
Proof.
  intros Hi Hx Hw. pose proof Hi as [Hg Hd Hc Hb]. pose proof (wg_size _ Hg).
  assert (Hst : mapped (status_at m (x / segmentSize m)) = true ∧
                dirty (status_at m (x / segmentSize m)) = true).
  { specialize (Hb x ltac:(lia)). unfold byte_inv in Hb.
    destruct (mapped _), (dirty _); intuition congruence. }
  split.
  - split; [done|done|done|]. intros y Hy. specialize (Hb y Hy).
    destruct (decide (y = x)) as [->|Hne].
    + unfold byte_inv in Hb |- *. by rewrite (proj1 Hst), (proj2 Hst) in *.
    + apply (byte_inv_frame m v d); [|done|done|done]. cbn.
      destruct (Z.eqb_spec (baseAddress m + y) (baseAddress m + x)); [lia|done].
  - intros y Hy. unfold view, view_byte, backing. cbn. destruct (Z.eqb_spec y x) as [->|Hne].
    + by rewrite (proj1 Hst), Z.eqb_refl.
    + destruct (Z.eqb_spec (baseAddress m + y) (baseAddress m + x)); [lia|done].
Qed.

End Hardware.

Section Refinement.
Context {D : Type} `{StorageDriver D}.

(** One fault is enough for the access, and does not change what is read. *)
Lemma fault_opens m v (d : D) got x w :
  mapping_inv m v d → 0 ≤ x < m_size m → fresh_temp m got →
  protection m ≠ PROT_NONE_bits → (w = true → p_write (protection m) = true) →
  permitted v w (baseAddress m + x) = false →
  ∃ m' v', onSegmentationFault got m v d (baseAddress m + x) w =
      Ok (m', v', d, Some (x / segmentSize m, status_at m (x / segmentSize m))) ∧
    keeps (temp_area m got) m v d m' v' d ∧ permitted v' w (baseAddress m + x) = true ∧
    status_at m' (x / segmentSize m) =
      mkStatus true w (needRead (status_at m (x / segmentSize m))) ∧
    ∀ i, 0 ≤ i < segments m → i ≠ x / segmentSize m → status_at m' i = status_at m i.
Proof.
  intros Hi Hx Hgot Hn Hw Hp. pose proof (mi_geom _ _ _ Hi) as Hg. pose proof (wg_size _ Hg).
  assert (Hxr : 0 ≤ x < segments m * segmentSize m) by lia.
  destruct (fault_ok m v d Hi got x w Hxr Hgot Hn Hw Hp) as (v' & Hrun & Hsu).
  set (id := x / segmentSize m) in *. set (s' := mkStatus _ _ _) in *.
  assert (Hid : 0 ≤ id < segments m) by (by apply segment_lt).
  exists (set_status m id s'), v'. split; [done|].
  split; [apply seg_update_keeps; [done|done|by apply fresh_temp_outside|done]|].
  split; [|split; [by apply status_set_same|intros; apply status_set_other; lia]].
  pose proof (su_inv _ _ _ _ _ _ _ _ Hsu x (segment_of m Hg x)) as Hb. unfold byte_inv in Hb.
  cbn in Hb. unfold permitted. destruct w; tauto.
Qed.

Lemma program_load_ok m v (d : D) got x :
  mapping_inv m v d → 0 ≤ x < m_size m → fresh_temp m got → protection m ≠ PROT_NONE_bits →
  ∃ m' v', load [got] m v d x = Ok (view m v d x, (m', v', d)) ∧
    keeps (temp_area m got) m v d m' v' d.
Proof.
  intros Hi Hx Hgot Hn. pose proof (wg_size _ (mi_geom _ _ _ Hi)). cbn [load].
  destruct (readable v (baseAddress m + x)) eqn:Hr.
  - exists m, v. split; [|by apply keeps_refl]. rewrite permitted_view by (done || lia). done.
  - destruct (fault_opens m v d got x false) as (m' & v' & -> & Hk & Hp & _); [done..|].
    cbn [mbind result_bind permitted] in Hp |- *. pose proof (k_const _ _ _ _ _ _ _ Hk) as [l ->].
    cbn. rewrite Hp. eexists _, v'. split; [|done]. do 2 f_equal.
    rewrite <- (k_view _ _ _ _ _ _ _ Hk x Hx). symmetry.
    apply (permitted_view _ _ _ _ (k_inv _ _ _ _ _ _ _ Hk)); [cbn; lia|done].
Qed.

Lemma program_store_ok m v (d : D) got x b :
  mapping_inv m v d → 0 ≤ x < m_size m → fresh_temp m got → p_write (protection m) = true →
  ∃ m' v', store [got] m v d x b = Ok (m', v', d) ∧ mapping_inv m' v' d ∧
    (∃ l, m' = set_segmentStatus m l) ∧
    ∀ y, 0 ≤ y < m_size m → view m' v' d y = if y =? x then b else view m v d y.
Proof.
  intros Hi Hx Hgot Hw. cbn [store]. destruct (writable v (baseAddress m + x)) eqn:Hr.
  - destruct (poke_ok m v d x b Hi Hx Hr) as [Hi' Hv']. eexists _, _. split; [done|].
    split; [done|]. split; [|done]. exists (segmentStatus m). by destruct m.
  - assert (protection m ≠ PROT_NONE_bits) by (intros E; by rewrite E in Hw).
    destruct (fault_opens m v d got x true) as (m' & v' & -> & Hk & Hp & _); [done..|].
    cbn [mbind result_bind permitted] in Hp |- *. pose proof (k_const _ _ _ _ _ _ _ Hk) as [l ->].
    cbn. rewrite Hp.
    destruct (poke_ok _ v' d x b (k_inv _ _ _ _ _ _ _ Hk) Hx Hp) as [Hi' Hv'].
    eexists _, _. split; [done|]. split; [done|]. split; [by exists l|].
    intros y Hy. rewrite Hv' by done. by rewrite (k_view _ _ _ _ _ _ _ Hk y Hy).
Qed.

(** The state [s] of a mapping stands for the outputs and the array [t]. *)
Definition array_rel (m0 : Mapping) (s : list Z * (Mapping * vm * D)) (t : list Z * (Z → Z)) : Prop :=
  let '(out, (m, v, d)) := s in
  let '(out', a) := t in
  out = out' ∧ mapping_inv m v d ∧ (∃ l, m = set_segmentStatus m0 l) ∧
  ∀ y, 0 ≤ y < m_size m0 → view m v d y = a y.

Lemma keeps_array_rel T m0 m v (d : D) m' v' d' out a :
  keeps T m v d m' v' d' → array_rel m0 (out, (m, v, d)) (out, a) →
  array_rel m0 (out, (m', v', d')) (out, a).
Proof.
  intros [Hi Hv [l ->] _ _] (_ & Hi0 & [l0 ->] & Ha). split; [done|]. split; [done|].
  split; [by exists l|]. intros y Hy. rewrite Hv by done. by apply Ha.
Qed.

Lemma run_mapping_op_refines m0 s t op :
  array_rel m0 s t → legal_op m0 op →
  ∃ s', run_mapping_op s op = Ok s' ∧ array_rel m0 s' (array_op t op).
Proof.
  destruct s as [out [[m v] d]], t as [out' a]. intros Hrel Hop.
  pose proof Hrel as (<- & Hi & [l Hm] & Ha).
  destruct op as [x got|x b got|lo n flags|id| |]; cbn [run_mapping_op array_op].
  - destruct Hop as (Hx & Hgot & Hn).
    destruct (program_load_ok m v d got x) as (m' & v' & -> & Hk); [done|by subst m..|].
    cbn [mbind result_bind]. eexists. split; [done|].
    destruct (keeps_array_rel _ m0 _ _ _ _ _ _ out a Hk Hrel) as (_ & Hi' & Hc & Ha').
    split; [by rewrite Ha|]. done.
  - destruct Hop as (Hx & Hgot & Hw).
    destruct (program_store_ok m v d got x b) as (m' & v' & -> & Hi' & [l' ->] & Hv'); [done|by subst m..|].
    cbn [mbind result_bind]. eexists. split; [done|]. split; [done|]. split; [done|].
    subst m. split; [by exists l'|]. intros y Hy. rewrite Hv' by done. by rewrite Ha.
  - destruct Hop as (Hlo & Hn & Hhi).
    destruct (flush_ok m v d Hi lo n flags) as (m' & v' & d' & -> & Hk & _); [by subst m..|].
    cbn [mbind result_bind]. eexists. split; [done|]. by eapply keeps_array_rel.
  - destruct (evict_segment_ok m v d Hi id) as (m' & v' & d' & -> & Hk & _); [by subst m|].
    cbn [mbind result_bind]. eexists. split; [done|]. by eapply keeps_array_rel.
  - destruct (dropClean_ok m v d Hi) as (m' & v' & -> & Hk & _). cbn [mbind result_bind].
    eexists. split; [done|]. by eapply keeps_array_rel.
  - destruct (markCleanAsDirty_ok m v d Hi) as (m' & v' & -> & Hk & _). cbn [mbind result_bind].
    eexists. split; [done|]. by eapply keeps_array_rel.
Qed.

(** C1: a mapping behaves like an array of bytes.  Whatever sequence of loads,
    stores, flushes, evictions, [dropClean] and [markCleanAsDirty] is run on it, in
    either thread-safety mode and for every driver that stores bytes, no operation
    fails, every access completes after at most one fault, each load returns the
    byte the same sequence of stores leaves in an array that starts with the initial
    view, and the invariant that ties segment status, page protection, memory and
    storage holds at the end. *)
Theorem mapping_refines_array m v (d : D) ops :
  mapping_inv m v d → Forall (legal_op m) ops →
  ∃ out m' v' d', foldM run_mapping_op ([], (m, v, d)) ops = Ok (out, (m', v', d')) ∧
    out = fst (foldl array_op ([], view m v d) ops) ∧
    mapping_inv m' v' d' ∧
    ∀ x, 0 ≤ x < m_size m → view m' v' d' x = snd (foldl array_op ([], view m v d) ops) x.
Proof.
  intros Hi Hops.
  assert (Hgen : ∀ s t, array_rel m s t →
    ∃ s', foldM run_mapping_op s ops = Ok s' ∧ array_rel m s' (foldl array_op t ops)).
  { induction Hops as [|op ops Hop _ IH]; intros s t Hrel; cbn; [by eauto|].
    destruct (run_mapping_op_refines m s t op Hrel Hop) as (s' & -> & Hrel'). by apply IH. }
  destruct (Hgen ([], (m, v, d)) ([], view m v d)) as ([out [[m' v'] d']] & Hrun & Hrel').
  - split; [done|]. split; [done|]. split; [|done]. exists (segmentStatus m). by destruct m.
  - destruct (foldl array_op _ ops) as [out' a]. destruct Hrel' as (-> & Hi' & _ & Ha).
    exists out', m', v', d'. done.
Qed.
End Refinement.

(** ** Construction *)

Section Construction.
Context {D : Type} `{StorageDriver D}.

(** The size rounded up to whole segments. *)
Lemma mapSize_spec size ss :
  0 < ss → 0 < size → size + ss < SIZE_MOD →
  let mapSize := if negb (size mod ss =? 0) then size ⊕ (ss ⊖ size mod ss) else size in
  mapSize = (mapSize / ss) * ss ∧ mapSize - ss < size ≤ mapSize ∧ mapSize < SIZE_MOD.
Proof.
  intros Hss Hs Hmax mapSize. pose proof (Z.mod_pos_bound size ss Hss).
  pose proof (Z.div_mod size ss ltac:(lia)) as Hdm.
  assert (Hval : mapSize = if size mod ss =? 0 then size else ss * (size / ss + 1)).
  { subst mapSize. destruct (Z.eqb_spec (size mod ss) 0); cbn [negb]; [done|].
    rewrite (size_sub ss) by lia. rewrite size_add by lia. lia. }
  rewrite Hval. destruct (Z.eqb_spec (size mod ss) 0) as [E|E].
  - rewrite E in Hdm. lia.
  - rewrite (Z.mul_comm ss), Z.div_mul by lia. lia.
Qed.

Lemma skipFirstRead_ok m :
  wf_geometry m →
  skipFirstRead m = Ok (set_segmentStatus m
    ((λ s, mkStatus (mapped s) (dirty s) false) <$> segmentStatus m)).
Proof.
  intros Hg. pose proof (wg_status _ Hg) as Hlen. unfold skipFirstRead.
  set (f := λ s, mkStatus (mapped s) (dirty s) false).
  assert (Hgen : ∀ (todo done : list SegmentStatus),
    foldM (λ m i, s ← get_status m i; Ok (set_status m i (f s)))
      (set_segmentStatus m ((f <$> done) ++ todo))
      (seqZ (Z.of_nat (length done)) (Z.of_nat (length todo)))
    = Ok (set_segmentStatus m ((f <$> done) ++ (f <$> todo)))).
  { induction todo as [|s todo IH]; intros pre; [done|].
    cbn [length]. rewrite seqZ_cons by lia. cbn [foldM].
    unfold get_status. cbn [segmentStatus set_segmentStatus]. rewrite Nat2Z.id.
    rewrite lookup_app_r, length_fmap, Nat.sub_diag by (rewrite length_fmap; lia).
    cbn [deref mbind result_bind lookup list_lookup].
    unfold set_status. cbn [segmentStatus set_segmentStatus]. rewrite Nat2Z.id.
    rewrite insert_app_r_alt, length_fmap, Nat.sub_diag by (rewrite length_fmap; lia).
    cbn [insert list_insert].
    specialize (IH (pre ++ [s])). rewrite fmap_app, <- !app_assoc in IH. cbn in IH.
    rewrite length_app in IH. cbn [length] in IH.
    replace (Z.of_nat (length pre + 1)) with (Z.succ (Z.of_nat (length pre))) in IH by lia.
    replace (Z.pred (Z.of_nat (S (length todo)))) with (Z.of_nat (length todo)) by lia. exact IH. }
  specialize (Hgen (segmentStatus m) []). cbn in Hgen. rewrite Hlen in Hgen.
  rewrite <- Hgen. f_equal. by destruct m.
Qed.

(** Arguments the constructor accepts on a system with [cpus] processors. *)
Record good_args (cpus base size ss off : Z) (d : D) : Prop := {
  ga_cpus : 0 ≤ cpus;
  ga_base : page_aligned base ss;
  ga_size : 0 < size;
  ga_bound : size + ss < SIZE_MOD;
  ga_off : 0 ≤ off;
  ga_driver : driver_ok d;
  ga_capacity : off + size ≤ capacity d;
}.

Lemma newMapping_prepare_ok cpus base v (d : D) size ss off p flags l g :
  good_args cpus base size ss off d →
  ∃ m v', newMapping_prepare cpus (Some base) v d size ss off p flags l g = Ok (m, v', d) ∧
    wf_geometry m ∧ baseAddress m = base ∧ m_size m = size ∧ segmentSize m = ss ∧
    storageOffset m = off ∧ protection m = p ∧ localPolicy m = l ∧ globalPolicy m = g ∧
    threadSafe m = negb (has_flag flags UMMAP_THREAD_UNSAFE) ∧
    (∀ i, 0 ≤ i < segments m → status_at m i = mkStatus false false true) ∧
    (∀ x, 0 ≤ x < segments m * ss → readable v' (base + x) = false ∧
       writable v' (base + x) = false ∧ vm_mem v' (base + x) = 0) ∧
    ∀ a, ¬ (base ≤ a < base + segments m * ss) → vm_mem v' a = vm_mem v a ∧ vm_prot v' a = vm_prot v a.
Proof.
  intros [Hcpu Hal Hs Hb Ho Hd Hc]. pose proof Hal as (Hb1 & Hb2 & Hss & Hpg).
  destruct (mapSize_spec size ss Hss Hs Hb) as (Hm1 & Hm2 & Hm3). unfold newMapping_prepare.
  set (mapSize := if negb (size mod ss =? 0) then _ else _) in *. set (n := mapSize / ss) in *.
  assert (Hn : 0 < n) by nia.
  assert (Hpm : mapSize mod UMMAP_PAGE_SIZE = 0).
  { rewrite Hm1, Z.mul_mod, Hpg, Z.mul_0_r by done. done. }
  assert (Hms : mapSize mod ss = 0) by (rewrite Hm1; apply Z.mod_mul; lia).
  rewrite (proj2 (Z.ltb_lt 0 size) Hs), (proj2 (Z.ltb_lt 0 ss) Hss), Hpg, Hpm, Hms.
  cbn [assume mbind result_bind Z.eqb]. unfold registerRange. cbn [storageOffset m_size protection].
  rewrite establish_law by exact Hd. cbn [assume mbind result_bind Z.leb Z.compare].
  assert ((if negb (has_flag flags UMMAP_THREAD_UNSAFE) then
     safe ← checkThreadSafety d;
     assume safe "Ask for mapping thread safety but the driver does not support it !"
   else Ok tt) = Ok tt) as ->.
  { destruct (has_flag flags _); cbn [negb]; [done|]. by rewrite thread_safety_law by exact Hd. }
  cbn [mbind result_bind]. rewrite directMmap_law by exact Hd. cbn [mbind result_bind Z.eqb].
  unfold mmapProtNone. rewrite Hpm, (proj2 (Z.ltb_lt 0 mapSize)) by lia.
  cbn [cassert mbind result_bind Z.eqb].
  eexists _, _. split; [done|]. cbn. split.
  { split; cbn; try done; [by rewrite length_replicate; lia|lia|lia|].
    destruct (Z.ltb_spec n (cpus * 4 + 1)); lia. }
  do 8 (split; [done|]). split.
  { intros i Hi. unfold status_at. cbn. rewrite lookup_replicate_2; [done|lia]. }
  unfold readable, writable. cbn. split; intros x Hx; case_range; try done; lia.
Qed.

(** The constructor.  With accepted arguments it succeeds, the new mapping satisfies
    the invariant, covers [size] bytes at the address the kernel chose, in segments
    that are all unmapped and inaccessible, changes neither the storage nor any other
    memory, and the program sees the storage from [off] on, or zeroes with
    [UMMAP_NO_FIRST_READ].  [m] is the object the policies are called with. *)
Lemma newMapping_steps cpus base v (d : D) size ss off p flags l g :
  good_args cpus base size ss off d →
  ∃ m m' v', newMapping_prepare cpus (Some base) v d size ss off p flags l g = Ok (m, v', d) ∧
    newMapping_finish flags m = Ok m' ∧ segmentSize m = ss ∧ segments m = segments m' ∧
    mapping_inv m' v' d ∧ localPolicy m' = l ∧ globalPolicy m' = g ∧ protection m' = p ∧
    getAddress m' = base ∧ getSize m' = size ∧ getSegmentSize m' = ss ∧ getStorageOffset m' = off ∧
    getAlignedSize m' - ss < size ≤ getAlignedSize m' ∧
    (∀ i, 0 ≤ i < segments m' → mapped (status_at m' i) = false) ∧
    (∀ x, 0 ≤ x < size → view m' v' d x =
       if has_flag flags UMMAP_NO_FIRST_READ then 0 else content d (off + x)) ∧
    ∀ a, ¬ (base ≤ a < base + getAlignedSize m') →
      vm_mem v' a = vm_mem v a ∧ vm_prot v' a = vm_prot v a.
Proof.
  intros Hargs. pose proof Hargs as [_ _ _ _ _ Hd Hc].
  destruct (newMapping_prepare_ok cpus base v d size ss off p flags l g Hargs)
    as (m & v' & Hrun & Hg & Hbase & Hsize & Hss & Hoff & Hpr & Hlp & Hgp & _ & Hst & Hmem & Hout).
  set (nr := negb (has_flag flags UMMAP_NO_FIRST_READ)).
  assert (∃ l, newMapping_finish flags m =
      Ok (set_segmentStatus m l) ∧ length l = length (segmentStatus m) ∧
    ∀ i, 0 ≤ i < segments m → status_at (set_segmentStatus m l) i = mkStatus false false nr)
    as (l' & Hfin & Hlen & Hl).
  { subst nr. unfold newMapping_finish. destruct (has_flag flags UMMAP_NO_FIRST_READ); cbn.
    - rewrite skipFirstRead_ok by done. eexists. split; [done|]. rewrite length_fmap. split; [done|].
      intros i Hi. specialize (Hst i Hi). unfold status_at in Hst |- *. cbn.
      pose proof (wg_status _ Hg). rewrite list_lookup_fmap.
      destruct (lookup_lt_is_Some_2 (segmentStatus m) (Z.to_nat i)) as [s Hs]; [lia|].
      rewrite Hs in Hst |- *. cbn in Hst |- *. by subst s.
    - exists (segmentStatus m). by destruct m. }
  exists m, (set_segmentStatus m l'), v'. split; [done|]. split; [done|]. do 2 (split; [done|]).
  rewrite <- Hss in Hmem, Hout. rewrite <- Hbase in Hmem, Hout.
  pose proof (wg_size _ Hg) as Hsz. pose proof (aligned_size m Hg) as Hal.
  split; [|do 7 (split; [done|]); cbn; change (getAlignedSize (set_segmentStatus m l')) with (getAlignedSize m)].
  - split; [destruct Hg; split; cbn; congruence|done|cbn; lia|]. intros x Hx. cbn in Hx |- *.
    unfold byte_inv. rewrite Hl by (by apply segment_lt). cbn. by destruct (Hmem x Hx) as (-> & -> & ->).
  - rewrite Hal, <- Hss, <- Hsize, <- Hbase. split; [lia|]. split; [intros i Hi; by rewrite Hl|].
    split; [|done]. intros x Hx. unfold view, view_byte, backing. cbn.
    rewrite Hl by (apply segment_lt; [done|lia]). cbn. rewrite <- Hoff. subst nr. by destruct (has_flag _ _).
Qed.

(** The same for a mapping without policies, in one call. *)
Lemma newMapping_ok cpus base v (d : D) size ss off p flags :
  good_args cpus base size ss off d →
  ∃ m v', newMapping cpus (Some base) v d size ss off p flags = Ok (m, v', d) ∧
    mapping_inv m v' d ∧
    ∀ x, 0 ≤ x < size → view m v' d x =
       if has_flag flags UMMAP_NO_FIRST_READ then 0 else content d (off + x).
Proof.
  intros Hargs. destruct (newMapping_steps cpus base v d size ss off p flags 0 0 Hargs)
    as (m & m' & v' & Hrun & Hfin & _ & _ & Hi & _ & _ & _ & _ & _ & _ & _ & _ & _ & Hv & _).
  exists m', v'. split; [|done]. unfold newMapping. rewrite Hrun. cbn [mbind result_bind]. by rewrite Hfin.
Qed.

(** ** Durability *)

(** A clean segment holds what backs it. *)
Lemma clean_view m v (d : D) x :
  mapping_inv m v d → 0 ≤ x < m_size m → dirty (status_at m (x / segmentSize m)) = false →
  view m v d x = backing m d (status_at m (x / segmentSize m)) x.
Proof.
  intros Hi Hx Hd. pose proof (wg_size _ (mi_geom _ _ _ Hi)).
  pose proof (mi_bytes _ _ _ Hi x ltac:(lia)) as Hb. unfold byte_inv in Hb. unfold view, view_byte.
  destruct (mapped _) eqn:Hm; [|done]. rewrite Hd in Hb. destruct Hb as (_ & _ & Hb). apply Hb. lia.
Qed.

(** C6: [flush] of segments [lo .. lo+n) succeeds, leaves them clean (and unmapped
    if asked), does not change what the program reads, and makes the storage equal
    to it on those segments; a segment that was never read nor written keeps its
    storage untouched; no byte outside the flushed segments is written. *)
Theorem flush_makes_durable m v (d : D) lo n flags :
  mapping_inv m v d → 0 ≤ lo < segments m → 0 ≤ n → lo + n ≤ segments m →
  ∃ m' v' d', flush m v d (lo * segmentSize m) (n * segmentSize m) flags = Ok (m', v', d') ∧
    mapping_inv m' v' d' ∧
    (∀ x, 0 ≤ x < m_size m → view m' v' d' x = view m v d x) ∧
    (∀ i, lo ≤ i < lo + n → dirty (status_at m' i) = false ∧
       mapped (status_at m' i) =
         (mapped (status_at m i) && negb (has_flag flags UMMAP_FLUSH_UNMAP))) ∧
    (∀ x, 0 ≤ x < m_size m → lo ≤ x / segmentSize m < lo + n →
       if needRead (status_at m' (x / segmentSize m))
       then content d' (storageOffset m + x) = view m v d x
       else view m v d x = 0 ∧ content d' (storageOffset m + x) = content d (storageOffset m + x)) ∧
    ∀ y, ¬ (lo * segmentSize m ≤ y - storageOffset m < (lo + n) * segmentSize m) →
       content d' y = content d y.
Proof.
  intros Hi Hlo Hn Hhi. pose proof (mi_geom _ _ _ Hi) as Hg. pose proof (geom_segmentSize m Hg) as Hss.
  destruct (flush_ok m v d Hi lo n flags Hlo Hn Hhi) as (m' & v' & d' & Hrun & Hk & Hst & Hct).
  exists m', v', d'. split; [done|]. destruct Hk as [Hi' Hv' [l ->] _ _]. split; [done|]. split; [done|].
  assert (Hfl : ∀ i, lo ≤ i < lo + n →
    flushed_status (has_flag flags UMMAP_FLUSH_UNMAP) (status_at m i) (status_at (set_segmentStatus m l) i)).
  { intros i Hix. specialize (Hst i ltac:(lia)). by rewrite decide_True in Hst. }
  split; [intros i Hix; destruct (Hfl i Hix) as (H1' & H2' & _); done|]. split.
  - intros x Hx Hid. destruct (Hfl _ Hid) as (Hd1 & _ & Hnr).
    pose proof (clean_view _ v' d' x Hi' Hx Hd1) as Hback. rewrite Hv' in Hback by done.
    unfold backing in Hback. cbn in Hback. destruct (needRead (status_at (set_segmentStatus m l) _)) eqn:E;
      [done|]. split; [done|]. symmetry in Hnr. apply orb_false_iff in Hnr as [_ Hnd].
    apply Hct. intros i Hix Hdi Hin. replace (storageOffset m + x - storageOffset m) with x in Hin by lia.
    apply (in_segment_div m Hg) in Hin. subst i. congruence.
  - intros y Hy. apply Hct. intros i Hix _ Hin. unfold in_segment in Hin. nia.
Qed.

Lemma deleteMapping_ok m v (d : D) :
  mapping_inv m v d →
  deleteMapping m v d =
  Ok (set_prot v (baseAddress m) (segments m * segmentSize m) None, d).
Proof.
  intros Hi. pose proof (mi_geom _ _ _ Hi) as Hg. unfold deleteMapping, unregisterRange.
  pose proof (mi_driver _ _ _ Hi) as Hd. rewrite erase_law by exact Hd. cbn [mbind result_bind].
  rewrite directMunmap_law by exact Hd. cbn [mbind result_bind].
  change (getAlignedSize _) with (getAlignedSize m). rewrite (aligned_size m Hg).
  cbn [baseAddress set_mappingDriverId].
  destruct (wg_base _ Hg) as (H1' & H2' & H3' & H4'). pose proof (wg_segments _ Hg). unfold munmap, munmap_returning.
  destruct (Z.eqb_spec (baseAddress m) 0); [lia|]. cbn [negb cassert mbind result_bind].
  rewrite Z.mul_mod, H4', Z.mul_0_r by done. cbn [cassert mbind result_bind].
  destruct (Z.ltb_spec 0 (segments m * segmentSize m)); [done|nia].
Qed.

(** C8: what was written survives.  After a flush of the whole mapping and its
    destruction, a new mapping of the same storage range (anywhere in memory, with any
    segment size and any flags but [UMMAP_NO_FIRST_READ]) shows the program the bytes
    it saw before, provided no segment of the first one skipped its first read. *)
Theorem reopen_reads_back m v (d : D) flags cpus base ss p flags' :
  mapping_inv m v d → (∀ i, 0 ≤ i < segments m → needRead (status_at m i) = true) →
  good_args cpus base (m_size m) ss (storageOffset m) d →
  has_flag flags' UMMAP_NO_FIRST_READ = false →
  ∃ m1 v1 d1 v2 m3 v3,
    flush m v d 0 (getAlignedSize m) flags = Ok (m1, v1, d1) ∧
    deleteMapping m1 v1 d1 = Ok (v2, d1) ∧
    newMapping cpus (Some base) v2 d1 (m_size m) ss (storageOffset m) p flags' = Ok (m3, v3, d1) ∧
    mapping_inv m3 v3 d1 ∧
    ∀ x, 0 ≤ x < m_size m → view m3 v3 d1 x = view m v d x.
Proof.
  intros Hi Hnr Hargs Hfl. pose proof (mi_geom _ _ _ Hi) as Hg. pose proof (wg_segments _ Hg).
  destruct (flush_ok m v d Hi 0 (segments m) flags) as (m1 & v1 & d1 & Hrun & Hk & Hst & _); [lia..|].
  rewrite Z.mul_0_l in Hrun. destruct Hk as [Hi1 Hv1 [l ->] _ _].
  set (v2 := set_prot v1 (baseAddress m) (segments m * segmentSize m) None).
  destruct (newMapping_ok cpus base v2 d1 (m_size m) ss (storageOffset m) p flags')
    as (m3 & v3 & Hnew & Hi3 & Hv3).
  { destruct Hargs. destruct Hi1 as [_ Hd1 Hc1 _]. by split. }
  exists (set_segmentStatus m l), v1, d1, v2, m3, v3. rewrite (aligned_size m Hg).
  split; [done|]. split; [by rewrite deleteMapping_ok|]. split; [done|]. split; [done|].
  intros x Hx. rewrite Hv3, Hfl by done. rewrite <- Hv1 by done.
  pose proof (wg_size _ Hg). assert (Hid : 0 ≤ x / segmentSize m < segments m)
    by (apply segment_lt; [done|lia]).
  specialize (Hst _ Hid). rewrite decide_True in Hst by lia. destruct Hst as (Hd1 & _ & Hn1).
  rewrite (clean_view _ v1 d1 x Hi1 Hx Hd1). unfold backing. cbn. cbn in Hn1.
  rewrite Hn1, Hnr by done. done.
Qed.

(** ** A late read fault *)

(** The handler of a read fault that reaches a segment another thread has
    already opened for writing (or [ummap_touch] for reading on such a segment)
    closes the segment for writing but leaves it marked dirty; from then on every
    write fault on it returns at once without opening it, so a store never completes,
    whatever the number of faults. *)
Theorem late_read_fault_blocks_stores m v (d : D) got x b :
  mapping_inv m v d → 0 ≤ x < m_size m →
  mapped (status_at m (x / segmentSize m)) = true → dirty (status_at m (x / segmentSize m)) = true →
  ∃ v', onSegmentationFault got m v d (baseAddress m + x) false =
      Ok (m, v', d, Some (x / segmentSize m, status_at m (x / segmentSize m))) ∧
    ∀ oracle, store oracle m v' d x b = Err OutOfFuel.
Proof.
  intros Hi Hx Hm Hd. pose proof (mi_geom _ _ _ Hi) as Hg. pose proof (wg_size _ Hg).
  set (id := x / segmentSize m) in *.
  assert (Hid : 0 ≤ id < segments m) by (apply segment_lt; [done|lia]).
  pose proof (segment_of m Hg x) as Hin. fold id in Hin.
  destruct (inv_segment m v d Hi id x Hid Hin) as [Hxr Hb]. unfold byte_inv in Hb.
  rewrite Hm, Hd in Hb. destruct Hb as (Hw & _).
  assert (protection m ≠ PROT_NONE_bits) by (intros E; by rewrite E in Hw).
  set (v' := set_prot v (baseAddress m + id * segmentSize m) (segmentSize m)
               (Some (mkProt true false (p_exec (protection m))))).
  exists v'. split.
  - rewrite (fault_entry m v d Hi) by done. cbv zeta. fold id. rewrite Hm, Hd. cbn [eqb andb negb].
    rewrite mprotect_ok by (by apply segment_aligned). cbn [mbind result_bind]. fold v'.
    replace (mkStatus true true (needRead (status_at m id))) with (status_at m id)
      by (destruct (status_at m id); cbn in *; by subst).
    by rewrite set_status_id.
  - assert (Hcl : writable v' (baseAddress m + x) = false).
    { unfold writable, in_segment in Hin |- *. cbn. case_range; [done|lia]. }
    induction oracle as [|got' oracle IH]; cbn [store]; rewrite Hcl; [done|].
    rewrite (fault_entry m v d Hi) by done. cbv zeta. fold id. rewrite Hm, Hd. cbn. exact IH.
Qed.
End Construction.

(** ** A concrete mapping

    6000 bytes of a memory driver holding 8192 bytes of value 7, in two segments of
    one page, mapped at 0x10000. *)
Section Demo.
Definition demo_driver : MemoryDriver := mkMemory newDriver 8192 (replicate 8192 7).
Definition demo_vm : vm := mkVm (λ _, 0) (λ _, None).
Definition demo_open : result (Mapping * vm * MemoryDriver) :=
  newMapping 1 (Some 65536) demo_vm demo_driver 6000 4096 0 (mkProt true true false) 0.
Definition demo : Mapping * vm * MemoryDriver :=
  match demo_open with
  | Ok s => s
  | Err _ => (mkMapping 0 0 PROT_NONE_bits 0 0 0 0 0 [] 0 0 true, demo_vm, demo_driver)
  end.
Definition demo_m : Mapping := fst (fst demo).
Definition demo_v : vm := snd (fst demo).

Lemma demo_args : good_args 1 65536 6000 4096 0 demo_driver.
Proof.
  split; try lia; [split; [lia|]; split; [reflexivity|]; split; [lia|reflexivity]
    |unfold SIZE_MOD; lia| |cbn [capacity MemoryDriver_storage]; cbn; lia].
  split; [vm_compute; reflexivity|cbn; lia].
Qed.

Lemma demo_inv : mapping_inv demo_m demo_v demo_driver.
Proof.
  destruct (newMapping_ok 1 65536 demo_vm demo_driver 6000 4096 0 (mkProt true true false) 0 demo_args)
    as (m & v & Hrun & Hi & _).
  unfold demo_m, demo_v, demo, demo_open. rewrite Hrun. exact Hi.
Qed.

Lemma demo_fields :
  baseAddress demo_m = 65536 ∧ segments demo_m = 2 ∧ segmentSize demo_m = 4096 ∧
  m_size demo_m = 6000 ∧ storageOffset demo_m = 0 ∧ protection demo_m = mkProt true true false ∧
  segmentStatus demo_m = [mkStatus false false true; mkStatus false false true] ∧
  snd demo = demo_driver.
Proof. vm_compute. done. Qed.

Lemma demo_temp : fresh_temp demo_m (Some 1048576).
Proof.
  destruct demo_fields as (Hb & Hs & Hss & _). split; rewrite ?Hss.
  - split; [lia|]. split; [reflexivity|]. split; [lia|reflexivity].
  - unfold outside, temp_area. rewrite Hb, Hs, Hss. lia.
Qed.

(** Write byte 5, evict its segment, read it back with byte 6. *)
Definition demo_ops : list mapping_op :=
  [Store 5 42 (Some 1048576); Evict 0; Load 5 (Some 1048576); Load 6 (Some 1048576); DropClean].

Lemma demo_legal : Forall (legal_op demo_m) demo_ops.
Proof.
  destruct demo_fields as (_ & Hs & Hss & Hsz & _ & Hp & _). pose proof demo_temp.
  unfold demo_ops. rewrite !Forall_cons, Forall_nil. unfold legal_op. rewrite Hs, Hsz, Hp.
  repeat split; try lia; try done; apply demo_temp.
Qed.
End Demo.

Lemma mapping_refines_array_witness :
  ∃ m' v' d', foldM run_mapping_op ([], (demo_m, demo_v, demo_driver)) demo_ops =
    Ok ([42; 7], (m', v', d')) ∧ mapping_inv m' v' d'.
Proof.
  destruct (mapping_refines_array demo_m demo_v demo_driver demo_ops demo_inv demo_legal)
    as (out & m' & v' & d' & Hrun & Hout & Hi & _).
  exists m', v', d'. split; [|exact Hi]. rewrite Hrun, Hout. reflexivity.
Defined.

Lemma flush_makes_durable_witness :
  ∃ m' v' d', flush demo_m demo_v demo_driver 0 8192 UMMAP_FLUSH_UNMAP = Ok (m', v', d') ∧
    mapping_inv m' v' d' ∧ dirty (status_at m' 1) = false.
Proof.
  destruct demo_fields as (_ & Hs & Hss & _).
  destruct (flush_makes_durable demo_m demo_v demo_driver 0 2 UMMAP_FLUSH_UNMAP demo_inv)
    as (m' & v' & d' & Hrun & Hi & _ & Hfl & _); [rewrite Hs; lia|lia|rewrite Hs; lia|].
  exists m', v', d'. rewrite Hss in Hrun. split; [exact Hrun|]. split; [exact Hi|].
  apply (Hfl 1). lia.
Defined.

Lemma reopen_reads_back_witness :
  ∃ m1 v1 d1 v2 m3 v3,
    flush demo_m demo_v demo_driver 0 (getAlignedSize demo_m) 0 = Ok (m1, v1, d1) ∧
    deleteMapping m1 v1 d1 = Ok (v2, d1) ∧
    newMapping 1 (Some 65536) v2 d1 (m_size demo_m) 4096 (storageOffset demo_m) PROT_NONE_bits 0
      = Ok (m3, v3, d1) ∧
    view m3 v3 d1 6 = view demo_m demo_v demo_driver 6.
Proof.
  destruct demo_fields as (_ & Hs & _ & Hsz & Ho & _ & Hst & _).
  destruct (reopen_reads_back demo_m demo_v demo_driver 0 1 65536 4096 PROT_NONE_bits 0 demo_inv)
    as (m1 & v1 & d1 & v2 & m3 & v3 & H1 & H2 & H3 & _ & H4).
  - rewrite Hs. intros i Hi. unfold status_at. rewrite Hst.
    assert (i = 0 ∨ i = 1) as [-> | ->] by lia; reflexivity.
  - rewrite Hsz, Ho. exact demo_args.
  - reflexivity.
  - exists m1, v1, d1, v2, m3, v3. do 3 (split; [done|]). apply H4. rewrite Hsz. lia.
Defined.

(** The first segment opened for writing. *)
Definition demo_written : result (Mapping * vm * MemoryDriver) :=
  store [Some 1048576] demo_m demo_v demo_driver 5 42.

Lemma late_read_fault_blocks_stores_witness :
  ∃ m v d, demo_written = Ok (m, v, d) ∧
    ∃ v', (∃ n, onSegmentationFault None m v d (baseAddress m + 5) false = Ok (m, v', d, n)) ∧
      ∀ oracle, store oracle m v' d 5 43 = Err OutOfFuel.
Proof.
  destruct demo_fields as (_ & Hs & Hss & Hsz & _ & Hp & _).
  destruct (program_store_ok demo_m demo_v demo_driver (Some 1048576) 5 42 demo_inv)
    as (m & v & Hrun & Hi & [l Hm] & _); [rewrite Hsz; lia|exact demo_temp|by rewrite Hp|].
  exists m, v, demo_driver. split; [exact Hrun|].
  assert (Hl : match demo_written with
               | Ok (m, _, _) => segmentStatus m = [mkStatus true true true; mkStatus false false true]
               | Err _ => False end) by (vm_compute; reflexivity).
  unfold demo_written in Hl. rewrite Hrun in Hl.
  destruct (late_read_fault_blocks_stores m v demo_driver None 5 43 Hi) as (v' & H1 & H2).
  - subst m. cbn. rewrite Hsz. lia.
  - subst m. unfold status_at. rewrite Hl. cbn. by rewrite Hss.
  - subst m. unfold status_at. rewrite Hl. cbn. by rewrite Hss.
  - exists v'. split; [by eexists|exact H2].
Defined.
