(* ===== verification/MappingCopy.v ===== *)
(** * Copying a mapping to another driver (src/src/core/Mapping.cpp)

    [copyToDriver] fills the storage of a new driver, from the memory of the segments
    that are loaded and clean and from the old driver for the others, through a
    buffer of one segment.  [directMmapCow] does it for drivers that map memory
    themselves. *)

From S2P Require Import Prelude OS Driver Mapping MappingInv MappingSpec.

(** A driver whose writes are never short. *)
Class ExactWrites (D : Type) `{StorageDriver D} := {
  pwrite_exact d v buf size off r d' :
    driver_ok d → 0 < size → 0 ≤ off → off + size ≤ capacity d →
    pwrite d v buf size off = Ok (r, d') → r = size;
  exact_capacity d : driver_ok d → capacity d < 2 ^ 63;
}.

(** A driver whose reads below [n] are not short. *)
Definition reads_fully {D} `{StorageDriver D} (d : D) (n : Z) : Prop :=
  ∀ v buf size off, buf ≠ 0 → 0 < size → 0 ≤ off → off + size ≤ n →
    ∃ v', pread d v buf size off = Ok (size, (d, v')) ∧
      (∀ x, vm_prot v' x = vm_prot v x) ∧
      ∀ x, vm_mem v' x = if in_range buf size x then content d (off + (x - buf)) else vm_mem v x.

Lemma reads_fully_mono {D} `{StorageDriver D} (d : D) n n' : reads_fully d n → n' ≤ n → reads_fully d n'.
Proof. intros Hd Hn v buf size off Hb Hs Ho Hlt. apply Hd; lia. Qed.

Lemma memory_reads_fully (d : MemoryDriver) : driver_ok d → reads_fully d (capacity d).
Proof.
  intros Hd v buf size off Hb Hs Ho Hc.
  destruct (memory_checks d buf size off) as (H1 & H2 & H3 & H4); try done.
  cbn. unfold memory_pread. rewrite H1, H2, H3, H4. cbn. eexists. split; [done|]. split; [done|].
  pose proof Hd as [Hlen Hsz]. cbn in Hc.
  assert (Hl : Z.of_nat (length (take (Z.to_nat size) (drop (Z.to_nat off) (md_buffer d)))) = size)
    by (rewrite length_take, length_drop; lia).
  intros x. cbn. rewrite Hl. case_range; [|done]. unfold byte_at.
  destruct (Z.ltb_spec (off + (x - buf)) 0); [lia|]. rewrite lookup_take_lt by lia.
  rewrite lookup_drop. do 2 f_equal. lia.
Qed.

#[export] Program Instance MemoryDriver_exact : ExactWrites MemoryDriver.
Next Obligation.
  intros d v buf size off r d' Hd Hs Ho Hc. cbn. unfold memory_pwrite. intros Hrun.
  do 3 inv_bind Hrun. inv_ok. apply to_signed_small.
  destruct Hd as [_ Hsz]. cbn in Hc. lia.
Qed.
Next Obligation. intros d [_ Hd]. cbn. lia. Qed.

Section Copy.
Context {D D' : Type} `{DriverOps D} `{DriverOps D'}.

(** The source's [assume(status == static_cast<ssize_t>(copySize), ...)]. *)
Definition full (status copySize : Z) : bool := status =? to_signed copySize.

(** One round of [copyExtraNotMappedPart]. *)
Fixpoint copyExtraLoop (fuel : nat) (m : Mapping) (v : vm) (d : D) (nd : D')
    (buffer offset size i : Z) : result (vm * D * D') :=
  match fuel with
  | O => Err OutOfFuel
  | S fuel' =>
      if i <? size then
        let copySize := if size <? i ⊕ segmentSize m then size ⊖ i else segmentSize m in
        '(status, (d1, v1)) ← pread d v buffer copySize (offset ⊕ i);
        assume (full status copySize) "Failed to read data from the original driver !";;
        '(status, nd1) ← pwrite nd v1 buffer copySize (offset ⊕ i);
        assume (full status copySize) "Failed to write data from the target driver !";;
        copyExtraLoop fuel' m v1 d1 nd1 buffer offset size (i ⊕ segmentSize m)
      else Ok (v, d, nd)
  end.

Definition copyExtraNotMappedPart (fuel : nat) (m : Mapping) (v : vm) (d : D) (nd : D')
    (buffer offset size : Z) : result (vm * D * D') :=
  cassert (negb (buffer =? 0)) "buffer != NULL";;
  copyExtraLoop fuel m v d nd buffer offset size 0.

(** One round of [copyMappedPart]. *)
Definition copySegment (m : Mapping) (v : vm) (d : D) (nd : D') (buffer sizeToDump i : Z)
    : result (vm * D * D') :=
  let mappingEnd := getStorageOffset m ⊕ getSize m in
  let copySize := if sizeToDump <? i ⊕ segmentSize m then sizeToDump ⊖ i else segmentSize m in
  let copySize := if mappingEnd <? getStorageOffset m ⊕ i ⊕ copySize
                  then mappingEnd ⊖ getStorageOffset m ⊖ i else copySize in
  curStatus ← get_status m (i / segmentSize m);
  let offset := storageOffset m ⊕ i in
  if mapped curStatus && negb (dirty curStatus) then
    '(status, nd1) ← pwrite nd v (baseAddress m + i) copySize offset;
    assume (full status copySize) "Failed to write data from the target driver !";;
    Ok (v, d, nd1)
  else
    '(status, (d1, v1)) ← pread d v buffer copySize offset;
    assume (full status copySize) "Failed to read data from the original driver !";;
    '(status, nd1) ← pwrite nd v1 buffer copySize offset;
    assume (full status copySize) "Failed to write data from the target driver !";;
    Ok (v1, d1, nd1).

Fixpoint copyLoop (fuel : nat) (m : Mapping) (v : vm) (d : D) (nd : D')
    (buffer sizeToDump i : Z) : result (vm * D * D') :=
  match fuel with
  | O => Err OutOfFuel
  | S fuel' =>
      if i <? sizeToDump then
        '(v1, d1, nd1) ← copySegment m v d nd buffer sizeToDump i;
        copyLoop fuel' m v1 d1 nd1 buffer sizeToDump (i ⊕ segmentSize m)
      else Ok (v, d, nd)
  end.

Definition copyMappedPart (m : Mapping) (v : vm) (d : D) (nd : D') (buffer storageSize : Z)
    : result (vm * D * D') :=
  cassert (negb (buffer =? 0)) "buffer != NULL";;
  let sizeToDump := if storageSize <? m_size m then storageSize else m_size m in
  copyLoop (flush_fuel m) m v d nd buffer sizeToDump 0.

(** [buffer] is the address [new char[segmentSize]] returns. *)
Definition copyToDriver (m : Mapping) (v : vm) (d : D) (nd : D') (buffer storageSize : Z)
    : result (vm * D * D') :=
  assume (storageOffset m <=? storageSize)
    "Try to copy and change driver with a size which is smaller than the mapping size !";;
  copyMappedPart m v d nd buffer (storageSize ⊖ storageOffset m).

(** [directMmapCow]: [got] is where the new driver maps. *)
Definition directMmapCow (got : option Z) (m : Mapping) (v : vm) (nd : D') : result (vm * D') :=
  '(newAddr, (nd1, v1)) ← directMmap nd v got (m_size m) (storageOffset m) (protection m);
  assume (negb (newAddr =? 0))
    "Try to call directMmapCow() on a driver not supporting direct mmap !";;
  let v2 := write_bytes v1 newAddr (read_bytes v1 (baseAddress m) (m_size m)) in
  v3 ← mremapForced v2 newAddr (m_size m) (baseAddress m);
  Ok (v3, nd1).

(** What the writes keep of the new driver, the copy keeps. *)
Lemma copySegment_target (I : D' → Prop) m v d nd buffer sizeToDump i v' d' nd' :
  (∀ nd v b s o r nd', I nd → pwrite nd v b s o = Ok (r, nd') → I nd') →
  I nd → copySegment m v d nd buffer sizeToDump i = Ok (v', d', nd') → I nd'.
Proof.
  intros HI Hnd. unfold copySegment. intros Hrun. inv_bind Hrun. destruct (mapped a && negb (dirty a)).
  - inv_bind Hrun. destruct a0 as [r nd1]. inv_bind Hrun. inv_ok. by eapply HI.
  - inv_bind Hrun. destruct a0 as [r [d1 v1]]. inv_bind Hrun. inv_bind Hrun. destruct a1 as [r2 nd1].
    inv_bind Hrun. inv_ok. by eapply HI.
Qed.

Lemma copyToDriver_target (I : D' → Prop) m v d nd buffer storageSize v' d' nd' :
  (∀ nd v b s o r nd', I nd → pwrite nd v b s o = Ok (r, nd') → I nd') →
  I nd → copyToDriver m v d nd buffer storageSize = Ok (v', d', nd') → I nd'.
Proof.
  intros HI Hnd. unfold copyToDriver, copyMappedPart. intros Hrun. do 2 inv_bind Hrun.
  revert Hrun. generalize (if storageSize ⊖ storageOffset m <? m_size m then storageSize ⊖ storageOffset m else m_size m).
  intros n. generalize 0. generalize (flush_fuel m). intros fuel. revert v d nd Hnd.
  induction fuel as [|fuel IH]; intros v d nd Hnd i Hrun; cbn [copyLoop] in Hrun; [discriminate|].
  destruct (i <? n); [|by inv_ok]. inv_bind Hrun. destruct a1 as [[v1 d1] nd1].
  eapply IH; [|exact Hrun]. by eapply copySegment_target.
Qed.
End Copy.

(** ** What [copyToDriver] copies *)

Section Spec.
Context {D D' : Type} `{ExactWrites D} `{ExactWrites D'}.

(** The buffer is memory of its own. *)
Record good_buffer (m : Mapping) (buffer : Z) : Prop := {
  gb_null : buffer ≠ 0;
  gb_outside : outside m (λ a, buffer ≤ a < buffer + segmentSize m);
}.

(** Geometry of round [id]. *)
Lemma copy_size m (d : D) v n id :
  mapping_inv m v d → 0 < n ≤ m_size m → 0 ≤ id → id * segmentSize m < n →
  let i := id * segmentSize m in
  let copySize := if n <? i ⊕ segmentSize m then n ⊖ i else segmentSize m in
  let copySize := if getStorageOffset m ⊕ getSize m <? getStorageOffset m ⊕ i ⊕ copySize
                  then getStorageOffset m ⊕ getSize m ⊖ getStorageOffset m ⊖ i else copySize in
  id < segments m ∧ copySize = Z.min (segmentSize m) (n - i) ∧ storageOffset m ⊕ i = storageOffset m + i ∧
  i ⊕ segmentSize m = (id + 1) * segmentSize m ∧ to_signed (Z.min (segmentSize m) (n - i)) = Z.min (segmentSize m) (n - i).
Proof.
  intros [Hg Hd Hc _] Hn Hid Hlt. cbv zeta. pose proof (geom_segmentSize m Hg) as Hss.
  pose proof (wg_size _ Hg). pose proof (wg_fits _ Hg). pose proof (wg_offset _ Hg).
  pose proof (exact_capacity d Hd) as Hcap. unfold getStorageOffset, getSize.
  assert (Hseg : id < segments m) by nia.
  assert (Hend : (id + 1) * segmentSize m ≤ segments m * segmentSize m) by nia.
  assert (2 ^ 63 < SIZE_MOD) by done. set (i := id * segmentSize m) in *.
  rewrite (size_add i) by nia.
  assert (Hcs : (if n <? i + segmentSize m then n ⊖ i else segmentSize m) = Z.min (segmentSize m) (n - i)).
  { destruct (Z.ltb_spec n (i + segmentSize m)); [rewrite size_sub by lia|]; lia. }
  rewrite Hcs, to_signed_small by lia. rewrite (size_add (storageOffset m) (m_size m)) by lia.
  rewrite (size_add (storageOffset m) i) by lia.
  rewrite (size_sub (storageOffset m + m_size m)) by lia. rewrite (size_sub _ i) by lia.
  rewrite (size_add (storageOffset m + i)) by lia.
  destruct (Z.ltb_spec (storageOffset m + m_size m) (storageOffset m + i + Z.min (segmentSize m) (n - i))); lia.
Qed.

(** Nothing but the buffer changes in memory. *)
Definition only_buffer (m : Mapping) (buffer : Z) (v v' : vm) : Prop :=
  (∀ a, vm_prot v' a = vm_prot v a) ∧
  ∀ a, ¬ (buffer ≤ a < buffer + segmentSize m) → vm_mem v' a = vm_mem v a.

Lemma only_buffer_trans m buffer v1 v2 v3 :
  only_buffer m buffer v1 v2 → only_buffer m buffer v2 v3 → only_buffer m buffer v1 v3.
Proof. intros [P1 M1] [P2 M2]. split; [intros a; by rewrite P2|intros a Ha; by rewrite M2, M1]. Qed.

(** What is copied of the byte at offset [x]. *)
Definition copied (m : Mapping) (d : D) (x : Z) : Z :=
  let s := status_at m (x / segmentSize m) in
  if mapped s && negb (dirty s) then backing m d s x else content d (storageOffset m + x).

Lemma copySegment_ok m v (d : D) (nd : D') buffer n id :
  mapping_inv m v d → reads_fully d (storageOffset m + m_size m) → good_buffer m buffer → driver_ok nd →
  storageOffset m + n ≤ capacity nd → 0 < n ≤ m_size m → 0 ≤ id → id * segmentSize m < n →
  ∃ v' nd', copySegment m v d nd buffer n (id * segmentSize m) = Ok (v', d, nd') ∧
    mapping_inv m v' d ∧ only_buffer m buffer v v' ∧ driver_ok nd' ∧ capacity nd' = capacity nd ∧
    ∀ y, content nd' y =
      let x := y - storageOffset m in
      if in_range (id * segmentSize m) (Z.min (segmentSize m) (n - id * segmentSize m)) x
      then copied m d x else content nd y.
Proof.
  intros Hi Hfull [Hb0 Hbo] Hnd Hcap Hn Hid Hlt. pose proof Hi as [Hg Hd Hc _].
  destruct (copy_size m d v n id Hi Hn Hid Hlt) as (Hseg & Hcs & Ho & _ & Hts). cbv zeta in Hcs.
  pose proof (geom_segmentSize m Hg) as Hss. pose proof (wg_offset _ Hg).
  unfold copySegment. rewrite Hcs, Z.div_mul by lia.
  assert (Hi0 : 0 ≤ id * segmentSize m) by nia. clear Hcs.
  remember (id * segmentSize m) as i eqn:Ei.
  remember (Z.min (segmentSize m) (n - i)) as c eqn:Ec.
  assert (Hcpos : 0 < c ≤ segmentSize m) by lia.
  rewrite (get_status_ok m Hg) by lia. cbn [mbind result_bind]. rewrite Ho. unfold full. rewrite Hts.
  destruct (segment_aligned m Hg id ltac:(lia)) as [Hbase _]. rewrite <- Ei in Hbase.
  assert (Hin : ∀ x, i ≤ x < i + c → in_segment m id x) by (intros x; unfold in_segment; lia).
  destruct (mapped (status_at m id) && negb (dirty (status_at m id))) eqn:Hclean.
  - destruct (pwrite_law nd v (baseAddress m + i) c (storageOffset m + i))
      as (r & nd' & Hw & _ & Hnd' & Hcap' & Hct); [done|lia|lia|lia|lia|].
    rewrite Hw. cbn [mbind result_bind].
    rewrite (pwrite_exact nd _ _ c (storageOffset m + i) _ _ Hnd ltac:(lia) ltac:(lia) ltac:(lia) Hw), Z.eqb_refl.
    cbn [assume mbind result_bind]. exists v, nd'. split; [done|]. split; [done|]. split; [done|].
    split; [done|]. split; [done|]. intros y. rewrite Hct. cbv zeta. case_range; try lia.
    unfold copied. rewrite (proj1 (in_segment_div m Hg id (y - storageOffset m))) by (apply Hin; lia).
    rewrite Hclean. apply andb_true_iff in Hclean as [Hm Hdd%negb_true_iff].
    destruct (inv_segment m v d Hi id (y - storageOffset m) ltac:(lia)) as [_ Hbi]; [apply Hin; lia|].
    unfold byte_inv in Hbi. rewrite Hm, Hdd in Hbi. destruct Hbi as (_ & _ & Hbi).
    rewrite <- Hbi by lia. f_equal. lia.
  - destruct (Hfull v buffer c (storageOffset m + i)) as (v1 & Hr & Hp1 & Hm1);
      [done|lia|lia|lia|]. rewrite Hr. cbn [mbind result_bind]. rewrite Z.eqb_refl.
    cbn [assume mbind result_bind].
    destruct (pwrite_law nd v1 buffer c (storageOffset m + i))
      as (r & nd' & Hw & _ & Hnd' & Hcap' & Hct); [done|done|lia|lia|lia|].
    rewrite Hw. cbn [mbind result_bind].
    rewrite (pwrite_exact nd _ _ c (storageOffset m + i) _ _ Hnd ltac:(lia) ltac:(lia) ltac:(lia) Hw), Z.eqb_refl.
    cbn [assume mbind result_bind]. exists v1, nd'. split; [done|]. split; [|split; [|split; [done|split; [done|]]]].
    + split; [done|done|done|]. intros x Hx.
      assert (Hsame : vm_mem v1 (baseAddress m + x) = vm_mem v (baseAddress m + x)).
      { rewrite Hm1. case_range; [|done]. exfalso. apply (Hbo (baseAddress m + x)); lia. }
      eapply (byte_inv_frame m v d); [done|apply Hp1|done|]. by apply (mi_bytes _ _ _ Hi).
    + split; [done|]. intros a Ha. rewrite Hm1. case_range; [lia|done].
    + intros y. rewrite Hct. cbv zeta. case_range; try lia.
      unfold copied. rewrite (proj1 (in_segment_div m Hg id (y - storageOffset m))) by (apply Hin; lia).
      rewrite Hclean, Hm1. case_range; [f_equal; lia|lia].
Qed.

Lemma copyLoop_ok k m v (d : D) (nd : D') buffer n fuel id :
  mapping_inv m v d → reads_fully d (storageOffset m + m_size m) → good_buffer m buffer → driver_ok nd →
  storageOffset m + n ≤ capacity nd → 0 ≤ n ≤ m_size m → 0 ≤ id → (Z.of_nat k = segments m - id) → (k < fuel)%nat →
  ∃ v' nd', copyLoop fuel m v d nd buffer n (id * segmentSize m) = Ok (v', d, nd') ∧
    mapping_inv m v' d ∧ only_buffer m buffer v v' ∧ driver_ok nd' ∧ capacity nd' = capacity nd ∧
    ∀ y, content nd' y =
      let x := y - storageOffset m in
      if in_range (id * segmentSize m) (n - id * segmentSize m) x then copied m d x else content nd y.
Proof.
  revert v nd fuel id. induction k as [|k IH]; intros v nd fuel id Hi Hfull Hb Hnd Hcap Hn Hid Hk Hf;
    (destruct fuel as [|fuel]; [lia|]); cbn [copyLoop];
    pose proof (mi_geom _ _ _ Hi) as Hg; pose proof (geom_segmentSize m Hg) as Hss;
    pose proof (wg_size _ Hg).
  - destruct (Z.ltb_spec (id * segmentSize m) n); [nia|]. exists v, nd. split; [done|].
    do 4 (split; [done|]). intros y. cbv zeta. case_range; [lia|done].
  - destruct (Z.ltb_spec (id * segmentSize m) n) as [Hlt|Hge].
    + destruct (copySegment_ok m v d nd buffer n id Hi Hfull Hb Hnd Hcap ltac:(nia) Hid Hlt)
        as (v1 & nd1 & -> & Hi1 & Ho1 & Hnd1 & Hcap1 & Hct1). cbn [mbind result_bind].
      destruct (copy_size m d v n id Hi ltac:(nia) Hid Hlt) as (Hseg & _ & _ & -> & _).
      destruct (IH v1 nd1 fuel (id + 1)) as (v2 & nd2 & Hrun & Hi2 & Ho2 & Hnd2 & Hcap2 & Hct2);
        [done|done|done|done|lia|lia|lia|lia|lia|].
      exists v2, nd2. split; [done|]. split; [done|]. split; [by eapply only_buffer_trans|]. split; [done|]. split; [congruence|].
      intros y. rewrite Hct2. cbv zeta. rewrite Hct1. cbv zeta. case_range; try lia; done.
    + exists v, nd. split; [done|]. do 4 (split; [done|]). intros y. cbv zeta. case_range; [lia|done].
Qed.

Lemma copyToDriver_ok m v (d : D) (nd : D') buffer storageSize :
  mapping_inv m v d → reads_fully d (storageOffset m + m_size m) → good_buffer m buffer → driver_ok nd →
  storageOffset m + m_size m ≤ capacity nd → storageOffset m ≤ storageSize < SIZE_MOD →
  (∀ i, 0 ≤ i < segments m → needRead (status_at m i) = true) →
  ∃ v' nd', copyToDriver m v d nd buffer storageSize = Ok (v', d, nd') ∧
    mapping_inv m v' d ∧ only_buffer m buffer v v' ∧ driver_ok nd' ∧ capacity nd' = capacity nd ∧
    ∀ y, content nd' y =
      if in_range (storageOffset m) (Z.min (m_size m) (storageSize - storageOffset m)) y
      then content d y else content nd y.
Proof.
  intros Hi Hfull Hb Hnd Hcap Hst Hnr. pose proof (mi_geom _ _ _ Hi) as Hg. pose proof (wg_size _ Hg).
  pose proof (wg_segments _ Hg). pose proof (wg_offset _ Hg). pose proof (geom_segmentSize m Hg).
  assert (0 < m_size m) by nia.
  unfold copyToDriver. destruct (Z.leb_spec (storageOffset m) storageSize); [|lia].
  cbn [assume mbind result_bind]. rewrite size_sub by lia. unfold copyMappedPart.
  destruct (Z.eqb_spec buffer 0) as [|_]; [by destruct (gb_null _ _ Hb)|]. cbn [negb cassert mbind result_bind].
  set (n := if _ <? _ then _ else _).
  assert (Hn : n = Z.min (m_size m) (storageSize - storageOffset m))
    by (subst n; destruct (Z.ltb_spec (storageSize - storageOffset m) (m_size m)); lia).
  destruct (copyLoop_ok (Z.to_nat (segments m)) m v d nd buffer n (flush_fuel m) 0)
    as (v' & nd' & Hrun & Hi' & Hob & Hnd' & Hcap' & Hct); [done|done|done|done|lia|lia|lia|lia|unfold flush_fuel; lia|].
  rewrite Z.mul_0_l in Hrun, Hct. exists v', nd'. do 5 (split; [done|]).
  intros y. rewrite Hct. cbv zeta. rewrite <- Hn. case_range; try lia.
  unfold copied, backing. rewrite Hnr by (apply segment_lt; [done|lia]).
  replace (storageOffset m + (y - storageOffset m)) with y by lia. by destruct (mapped _ && _).
Qed.

(** The mapping can be moved to a driver that has the same bytes in its range. *)
Lemma change_driver (m : Mapping) v v' (d : D) (d2 : D) buffer :
  mapping_inv m v d → good_buffer m buffer → only_buffer m buffer v v' →
  driver_ok d2 → storageOffset m + m_size m ≤ capacity d2 →
  (∀ x, 0 ≤ x < m_size m → content d2 (storageOffset m + x) = content d (storageOffset m + x)) →
  refits (λ a, buffer ≤ a < buffer + segmentSize m) m v d m v' d2.
Proof.
  intros [Hg Hd Hc Hb] Hbuf [Hp Hm] Hd2 Hc2 Hct.
  assert (Hmem : ∀ x, 0 ≤ x < segments m * segmentSize m → vm_mem v' (baseAddress m + x) = vm_mem v (baseAddress m + x)).
  { intros x Hx. apply Hm. intros Ha. apply (gb_outside _ _ Hbuf _ Ha). lia. }
  pose proof (wg_size _ Hg). split.
  - split; [done|done|done|]. intros x Hx. eapply (byte_inv_frame m v d); [by apply Hmem|apply Hp| |by apply Hb].
    intros Hx'. apply Hct. lia.
  - intros x Hx. unfold view, view_byte. destruct (mapped _); [apply Hmem; lia|].
    unfold backing. destruct (needRead _); [by apply Hct|done].
  - exists (segmentStatus m). by destruct m.
  - intros a _ Ha. split; [by apply Hm|apply Hp].
Qed.

(** C25: [copyToDriver] reproduces the storage.  When every segment reads its storage
    first, the range of the new driver that corresponds to the mapping (up to
    [storageSize]) receives the bytes of the old driver, also for the dirty segments,
    whose newer memory is still to be flushed, the rest of the new storage is unchanged, and
    the mapping is as before. *)
Theorem copyToDriver_copies_storage m v (d : D) (nd : D') buffer storageSize :
  mapping_inv m v d → reads_fully d (storageOffset m + m_size m) → good_buffer m buffer → driver_ok nd →
  storageOffset m + m_size m ≤ capacity nd → storageOffset m ≤ storageSize < SIZE_MOD →
  (∀ i, 0 ≤ i < segments m → needRead (status_at m i) = true) →
  ∃ v' nd', copyToDriver m v d nd buffer storageSize = Ok (v', d, nd') ∧
    mapping_inv m v' d ∧ driver_ok nd' ∧
    ∀ y, content nd' y =
      if in_range (storageOffset m) (Z.min (m_size m) (storageSize - storageOffset m)) y
      then content d y else content nd y.
Proof.
  intros Hi Hfull Hb Hnd Hcap Hst Hnr.
  destruct (copyToDriver_ok m v d nd buffer storageSize) as (v' & nd' & Hrun & Hi' & _ & Hnd' & _ & Hct); [done..|].
  by exists v', nd'.
Qed.
End Spec.

Lemma copyToDriver_copies_storage_witness :
  ∃ v' nd', copyToDriver demo_m demo_v demo_driver (mkMemory newDriver 8192 (replicate 8192 0)) 4194304 5000
      = Ok (v', demo_driver, nd') ∧
    ∀ y, content nd' y =
      if in_range 0 5000 y then content demo_driver y
      else content (mkMemory newDriver 8192 (replicate 8192 0)) y.
Proof.
  destruct demo_fields as (Hb & Hs & Hss & Hsz & Ho & _ & Hst & _).
  destruct (copyToDriver_copies_storage demo_m demo_v demo_driver
    (mkMemory newDriver 8192 (replicate 8192 0)) 4194304 5000 demo_inv) as (v' & nd' & Hrun & _ & _ & Hct).
  - eapply reads_fully_mono; [apply memory_reads_fully, (mi_driver _ _ _ demo_inv)|exact (mi_capacity _ _ _ demo_inv)].
  - split; [done|]. intros a Ha. rewrite Hss in Ha. rewrite Hb, Hs, Hss. lia.
  - split; [vm_compute; reflexivity|cbn; lia].
  - rewrite Ho, Hsz. cbn. lia.
  - rewrite Ho. unfold SIZE_MOD. lia.
  - rewrite Hs. intros i Hi. unfold status_at. rewrite Hst.
    assert (i = 0 ∨ i = 1) as [-> | ->] by lia; reflexivity.
  - exists v', nd'. split; [exact Hrun|]. intros y. rewrite Hct, Ho, Hsz. reflexivity.
Defined.
