(* ===== verification/System.v ===== *)
(** * Mappings, policies and quotas together

    The objects of a process: mappings with the driver they point to, policies,
    quotas, the list elements and the address space.  The operations are the methods
    that cross components: [Mapping::evict] and the end of
    [Mapping::onSegmentationFault] (src/src/core/Mapping.cpp), the part of
    [notifyTouch] and [shrinkMemory] that follows their critical section
    (src/src/policies), [PolicyQuota] (src/src/core/PolicyQuota.cpp) and
    [PolicyQuotaLocal] (src/src/core/PolicyQuotaLocal.cpp). *)

From S2P Require Import Prelude ListElement Policy PolicyInterface OS Driver Mapping MappingInv MappingSpec.

Record MapObj := mkMapObj { mo_mapping : Mapping; mo_driver : Z }.

Record PolicyQuota := mkQuota { q_staticMaxMemory : Z; q_policies : list Z }.

Record World (D P : Type) := mkWorld {
  w_heap : heap;
  w_vm : vm;
  w_mappings : gmap Z MapObj;
  w_drivers : gmap Z D;
  w_policies : gmap Z P;
  w_quotas : gmap Z PolicyQuota;
}.
Arguments mkWorld {D P}.
Arguments w_heap {D P}.
Arguments w_vm {D P}.
Arguments w_mappings {D P}.
Arguments w_drivers {D P}.
Arguments w_policies {D P}.
Arguments w_quotas {D P}.

(** [list.erase] of the first occurrence. *)
Fixpoint remove_first (x : Z) (l : list Z) : list Z :=
  match l with
  | [] => []
  | y :: l' => if y =? x then l' else y :: remove_first x l'
  end.

Section Operations.
Context {D P : Type} `{DriverOps D} `{PolicyOps P}.
Abbreviation W := (World D P).

(** [mapping->getSegmentSize()]. *)
Definition segment_size_of (w : W) (mid : Z) : Z :=
  match w_mappings w !! mid with Some mo => getSegmentSize (mo_mapping mo) | None => 0 end.

Definition set_policy (w : W) (h : heap) (pid : Z) (p : P) : W :=
  mkWorld h (w_vm w) (w_mappings w) (w_drivers w) (<[pid := p]> (w_policies w)) (w_quotas w).

Definition set_mapping (w : W) (mid : Z) (mo : MapObj) (m : Mapping) (v : vm) (d : D) : W :=
  mkWorld (w_heap w) v (<[mid := mkMapObj m (mo_driver mo)]> (w_mappings w))
    (<[mo_driver mo := d]> (w_drivers w)) (w_policies w) (w_quotas w).

Definition set_quota (w : W) (qid : Z) (q : PolicyQuota) : W :=
  mkWorld (w_heap w) (w_vm w) (w_mappings w) (w_drivers w) (w_policies w) (<[qid := q]> (w_quotas w)).

(** [policy->notifyEvict(mapping, index)]. *)
Definition notifyEvict (w : W) (pid mid index : Z) : result W :=
  p ← deref (w_policies w !! pid);
  '(h', p') ← pol_notifyEvict (segment_size_of w) (w_heap w) p mid index;
  Ok (set_policy w h' pid p').

(** [Mapping::evict]. *)
Definition evict (w : W) (sourcePolicy mid segmentId : Z) : result W :=
  mo ← deref (w_mappings w !! mid);
  let m := mo_mapping mo in
  w1 ← (if negb (sourcePolicy =? localPolicy m) && negb (localPolicy m =? 0)
        then notifyEvict w (localPolicy m) mid segmentId else Ok w);
  w2 ← (if negb (sourcePolicy =? globalPolicy m) && negb (globalPolicy m =? 0)
        then notifyEvict w1 (globalPolicy m) mid segmentId else Ok w1);
  d ← deref (w_drivers w2 !! mo_driver mo);
  '(m', v', d') ← evict_segment m (w_vm w2) d segmentId;
  Ok (set_mapping w2 mid mo m' v' d').

(** [for (i = 0 ; i < cntIdsToEvict ; i++) mappings[i]->evict(this, idsToEvict[i])]. *)
Definition evictAll (w : W) (pid : Z) (ids : list (Z * Z)) : result W :=
  foldM (λ w '(mid, index), evict w pid mid index) w ids.

(** [policy->shrinkMemory()]. *)
Definition shrinkMemory (fuel : nat) (w : W) (pid : Z) : result W :=
  p ← deref (w_policies w !! pid);
  '(h', p', ids) ← pol_shrinkMemory (segment_size_of w) fuel (w_heap w) p;
  evictAll (set_policy w h' pid p') pid ids.

(** ** Quotas *)

Definition getCurrentMemory (w : W) (pid : Z) : result Z :=
  p ← deref (w_policies w !! pid); Ok (pol_getCurrentMemory p).

Definition update_base (w : W) (pid : Z) (f : Policy → result Policy) : result W :=
  p ← deref (w_policies w !! pid);
  b ← f (pol_base p);
  Ok (set_policy w (w_heap w) pid (pol_set_base p b)).

(** [PolicyQuotaLocal::getUsedMemory]. *)
Definition getUsedMemory (w : W) (q : PolicyQuota) : result Z :=
  foldM (λ totMem pid, mem ← getCurrentMemory w pid; Ok (totMem ⊕ mem)) 0 (q_policies q).

(** The search of the policy with the most memory. *)
Definition findMax (w : W) (q : PolicyQuota) : result Z :=
  first ← deref (head (q_policies q));
  foldM (λ polMax pid,
    a ← getCurrentMemory w pid;
    b ← getCurrentMemory w polMax;
    Ok (if b <? a then pid else polMax)) first (q_policies q).

(** The reduction loop of [PolicyQuotaLocal::update]; [inner] is the fuel of the
    eviction loops it runs. *)
Fixpoint reduceLoop (inner fuel : nat) (w : W) (q : PolicyQuota) (averageMem totMem : Z) : result W :=
  match fuel with
  | O => Err OutOfFuel
  | S fuel' =>
      if q_staticMaxMemory q <? totMem then
        polMax ← findMax w q;
        mem ← getCurrentMemory w polMax;
        let limit := averageMem ⊕ (mem ⊖ averageMem) / 2 in
        w1 ← update_base w polMax (λ b, Ok (setDynamicMaxMemory b limit));
        w2 ← shrinkMemory inner w1 polMax;
        totMem' ← getUsedMemory w2 q;
        reduceLoop inner fuel' w2 q averageMem totMem'
      else Ok w
  end.

Definition update (fuel : nat) (w : W) (qid : Z) : result W :=
  q ← deref (w_quotas w !! qid);
  let cntPolicies := Z.of_nat (length (q_policies q)) in
  if cntPolicies =? 0 then Ok w
  else
    let averageMem := q_staticMaxMemory q / cntPolicies in
    totMem ← getUsedMemory w q;
    reduceLoop fuel fuel w q averageMem totMem.

Definition updateNotifyLimit (w : W) (qid : Z) : result W :=
  q ← deref (w_quotas w !! qid);
  foldM (λ w pid, update_base w pid (λ b, Ok (setDynamicMaxMemory b (q_staticMaxMemory q))))
    w (q_policies q).

Definition registerPolicy (fuel : nat) (w : W) (qid policy : Z) : result W :=
  assume (negb (policy =? 0)) "Invalid NULL policy recived for quota registration !";;
  q ← deref (w_quotas w !! qid);
  let w1 := set_quota w qid (mkQuota (q_staticMaxMemory q) (q_policies q ++ [policy])) in
  w2 ← update_base w1 policy (λ b, setQuota b qid);
  w3 ← updateNotifyLimit w2 qid;
  update fuel w3 qid.

Definition unregisterPolicy (fuel : nat) (w : W) (qid policy : Z) : result W :=
  assume (negb (policy =? 0)) "Invalid NULL policy recived for quota de-registration !";;
  q ← deref (w_quotas w !! qid);
  let found := bool_decide (policy ∈ q_policies q) in
  let w1 := set_quota w qid (mkQuota (q_staticMaxMemory q) (remove_first policy (q_policies q))) in
  assume found "Did not found the policy to remove in the registed list !";;
  w2 ← update_base w1 policy (λ b, setQuota b 0);
  w3 ← updateNotifyLimit w2 qid;
  update fuel w3 qid.

(** [delete policy]: its destructor leaves the quota. *)
Definition destroyPolicy (fuel : nat) (w : W) (pid : Z) : result W :=
  p ← deref (w_policies w !! pid);
  w1 ← (if negb (policyQuota (pol_base p) =? 0)
        then unregisterPolicy fuel w (policyQuota (pol_base p)) pid else Ok w);
  Ok (mkWorld (w_heap w1) (w_vm w1) (w_mappings w1) (w_drivers w1) (delete pid (w_policies w1))
        (w_quotas w1)).

(** [~PolicyQuota]. *)
Definition destroyQuota (w : W) (qid : Z) : result W :=
  q ← deref (w_quotas w !! qid);
  assume (bool_decide (q_policies q = []))
    "Try to delete a policy quota which still have policies registered to it !";;
  Ok (mkWorld (w_heap w) (w_vm w) (w_mappings w) (w_drivers w) (w_policies w)
        (delete qid (w_quotas w))).

(** ** Faults *)

(** [policy->notifyTouch(mapping, index, ...)]: critical section, evictions, quota. *)
Definition notifyTouch (fuel : nat) (w : W) (pid mid index : Z) : result W :=
  p ← deref (w_policies w !! pid);
  '(h', p', t) ← pol_notifyTouch (segment_size_of w) fuel (w_heap w) p mid index;
  w1 ← evictAll (set_policy w h' pid p') pid (t_evicted t);
  p1 ← deref (w_policies w1 !! pid);
  if notifiesQuota (pol_base p1) t (pol_getCurrentMemory p1)
  then update fuel w1 (policyQuota (pol_base p1)) else Ok w1.

(** The whole of [Mapping::onSegmentationFault]. *)
Definition handleFault (fuel : nat) (got : option Z) (w : W) (mid address : Z) (isWrite : bool)
    : result W :=
  mo ← deref (w_mappings w !! mid);
  d ← deref (w_drivers w !! mo_driver mo);
  let m := mo_mapping mo in
  '(m', v', d', notif) ← Mapping.onSegmentationFault got m (w_vm w) d address isWrite;
  let w1 := set_mapping w mid mo m' v' d' in
  match notif with
  | None => Ok w1
  | Some (segmentId, _) =>
      w2 ← (if negb (localPolicy m =? 0) then notifyTouch fuel w1 (localPolicy m) mid segmentId
            else Ok w1);
      if negb (globalPolicy m =? 0) then notifyTouch fuel w2 (globalPolicy m) mid segmentId
      else Ok w2
  end.

(** ** Construction and destruction of a mapping with its policies *)

(** [policy->allocateElementStorage(this, segments)], if there is a policy. *)
Definition allocateStorage (w : W) (pid mid count elts flags : Z) : result W :=
  if pid =? 0 then Ok w
  else
    p ← deref (w_policies w !! pid);
    '(h', p') ← pol_allocateElementStorage (segment_size_of w) (w_heap w) p mid count elts flags;
    Ok (set_policy w h' pid p').

Definition freeStorage (w : W) (pid mid : Z) : result W :=
  if pid =? 0 then Ok w
  else
    p ← deref (w_policies w !! pid);
    '(h', p') ← pol_freeElementStorage (segment_size_of w) (w_heap w) p mid;
    Ok (set_policy w h' pid p').

(** [mid] is the address of the new object, [did] the driver; [alloc_l] and
    [alloc_g] are the addresses of the tracking arrays. *)
Definition createMapping (cpus : Z) (got : option Z) (w : W) (mid did : Z)
    (size segmentSize storageOffset : Z) (protection : prot) (flags local global : Z)
    (alloc_l alloc_g : Z * Z) : result W :=
  d ← deref (w_drivers w !! did);
  '(m, v', d') ← newMapping_prepare cpus got (w_vm w) d size segmentSize storageOffset
                   protection flags local global;
  w0 ← (if negb (local =? 0) && negb (global =? 0) then
          g ← deref (w_policies w !! global);
          update_base w local (λ b, Ok (forceUsingGroupMutex b (getLocalMutex (pol_base g))))
        else Ok w);
  let w1 := set_mapping w0 mid (mkMapObj m did) m v' d' in
  w2 ← allocateStorage w1 local mid (segments m) (fst alloc_l) (snd alloc_l);
  w3 ← allocateStorage w2 global mid (segments m) (fst alloc_g) (snd alloc_g);
  m' ← newMapping_finish flags m;
  Ok (set_mapping w3 mid (mkMapObj m did) m' (w_vm w3) d').

(** [~Mapping]: the local policy is deleted with the mapping, the driver if it is
    marked for it. *)
Definition destroyMapping (fuel : nat) (w : W) (mid : Z) : result W :=
  mo ← deref (w_mappings w !! mid);
  let m := mo_mapping mo in
  d ← deref (w_drivers w !! mo_driver mo);
  '(v', d') ← deleteMapping m (w_vm w) d;
  let w1 := set_mapping w mid mo m v' d' in
  w2 ← freeStorage w1 (localPolicy m) mid;
  w3 ← freeStorage w2 (globalPolicy m) mid;
  w4 ← (if negb (localPolicy m =? 0) then destroyPolicy fuel w3 (localPolicy m) else Ok w3);
  let drvs := if hasAutoclean (driver_base d') then delete (mo_driver mo) (w_drivers w4)
              else w_drivers w4 in
  Ok (mkWorld (w_heap w4) (w_vm w4) (delete mid (w_mappings w4)) drvs (w_policies w4) (w_quotas w4)).
End Operations.
