(* ===== verification/SystemInv.v ===== *)
(** * The invariant of the whole process

    Mappings with disjoint memory and their own driver, each attached to at most one
    policy; every mapped segment of a mapping is tracked by its policy, but for the
    segments of a pending list (being brought in or evicted).  The theorems are proved
    for any driver that stores bytes and any tracking policy. *)

From Stdlib Require Import FunctionalExtensionality.
From S2P Require Import Prelude ListElement Policy PolicyInterface OS Driver Mapping MappingInv MappingSpec System.

(** The policy of a mapping that has one. *)
Definition policy_of (m : Mapping) : Z :=
  if localPolicy m =? 0 then globalPolicy m else localPolicy m.

Section WithDriver.
Context {D P : Type} `{StorageDriver D} `{TrackingPolicy P} {Str : Strictness}.
Abbreviation W := (World D P).

(** A mapping does not see changes of memory and storage that are not its own. *)
Lemma mapping_inv_frame m v (d : D) v' :
  mapping_inv m v d →
  (∀ a, baseAddress m ≤ a < baseAddress m + segments m * segmentSize m →
     vm_mem v' a = vm_mem v a ∧ vm_prot v' a = vm_prot v a) →
  mapping_inv m v' d ∧ ∀ x, 0 ≤ x < m_size m → view m v' d x = view m v d x.
Proof.
  intros [Hg Hd Hc Hb] Hsame. split.
  - split; [done|done|done|]. intros x Hx. destruct (Hsame (baseAddress m + x)) as [Hm Hp]; [lia|].
    eapply byte_inv_frame; [exact Hm|exact Hp|done|by apply Hb].
  - intros x Hx. pose proof (wg_size _ Hg). destruct (Hsame (baseAddress m + x)) as [Hm _]; [lia|].
    unfold view. by apply view_byte_frame.
Qed.

(** ** Invariant *)

(** Segment [i] of mapping [mid] is tracked in [l]. *)
Definition tracked_in_list (p : P) (l : list Z) (mid i : Z) : Prop :=
  ∃ st, st ∈ storageRegistry (pol_base p) ∧ ps_mapping st = mid ∧ element st i ∈ l.

(** Every mapped segment of the policy's mappings is tracked or pending. *)
Definition covers (w : W) (pend : list (Z * Z)) (pid : Z) (p : P) (l : list Z) : Prop :=
  ∀ mid mo i, w_mappings w !! mid = Some mo → policy_of (mo_mapping mo) = pid →
    0 ≤ i < segments (mo_mapping mo) → mapped (status_at (mo_mapping mo) i) = true →
    tracked_in_list p l mid i ∨ (mid, i) ∈ pend.

(** The policy's registry lists the mappings attached to it. *)
Definition registered (w : W) (pid : Z) (p : P) : Prop :=
  (∀ st, st ∈ storageRegistry (pol_base p) → ∃ mo, w_mappings w !! ps_mapping st = Some mo ∧
     policy_of (mo_mapping mo) = pid ∧ elementCount st = segments (mo_mapping mo)) ∧
  ∀ mid mo, w_mappings w !! mid = Some mo → policy_of (mo_mapping mo) = pid →
     ∃ st, getStorageInfo (pol_base p) mid = Ok st.

Record world_inv (pend : list (Z * Z)) (w : W) : Prop := {
  wo_mapping : ∀ mid mo, w_mappings w !! mid = Some mo →
    (∃ d, w_drivers w !! mo_driver mo = Some d ∧ mapping_inv (mo_mapping mo) (w_vm w) d) ∧
    (localPolicy (mo_mapping mo) = 0 ∨ globalPolicy (mo_mapping mo) = 0);
  wo_driver : ∀ mid mid' mo mo', w_mappings w !! mid = Some mo → w_mappings w !! mid' = Some mo' →
    mo_driver mo = mo_driver mo' → mid = mid';
  wo_disjoint : ∀ mid mid' mo mo' a, w_mappings w !! mid = Some mo → w_mappings w !! mid' = Some mo' →
    mid ≠ mid' →
    let m := mo_mapping mo in let m' := mo_mapping mo' in
    baseAddress m ≤ a < baseAddress m + segments m * segmentSize m →
    ¬ (baseAddress m' ≤ a < baseAddress m' + segments m' * segmentSize m');
  wo_policy : ∀ pid p, w_policies w !! pid = Some p → pid ≠ 0 ∧ registered w pid p ∧
    ∃ l, pol_inv (segment_size_of w) (w_heap w) p l ∧ covers w pend pid p l;
  wo_own : ∀ pid pid' p p' x, w_policies w !! pid = Some p → w_policies w !! pid' = Some p' →
    pid ≠ pid' → x ∈ all_elems (pol_base p) ++ pol_roots p →
    x ∉ all_elems (pol_base p') ++ pol_roots p';
}.

(** What the program sees of mapping [mid]. *)
Definition world_view (w : W) (mid x : Z) : option Z :=
  mo ← w_mappings w !! mid;
  d ← w_drivers w !! mo_driver mo;
  if decide (0 ≤ x < m_size (mo_mapping mo)) then Some (view (mo_mapping mo) (w_vm w) d x) else None.

(** A mapping put back as it is. *)
Lemma set_mapping_id (w : W) mid mo d :
  w_mappings w !! mid = Some mo → w_drivers w !! mo_driver mo = Some d →
  set_mapping w mid mo (mo_mapping mo) (w_vm w) d = w.
Proof.
  intros Hmo Hd. unfold set_mapping. destruct w, mo. cbn in *. by rewrite !insert_id.
Qed.

(** ** A change of one mapping *)

Section Step.
Context (pend : list (Z * Z)) (w : W) (Hw : world_inv pend w).
Context (mid : Z) (mo : MapObj) (d : D).
Context (Hmo : w_mappings w !! mid = Some mo) (Hd : w_drivers w !! mo_driver mo = Some d).
Context (T : Z → Prop) (m' : Mapping) (v' : vm) (d' : D).
Context (Hk : refits T (mo_mapping mo) (w_vm w) d m' v' d').
Context (HT : ∀ mid' mo', w_mappings w !! mid' = Some mo' → outside (mo_mapping mo') T).

Let w' := set_mapping w mid mo m' v' d'.

Lemma step_segment_size : segment_size_of w' = segment_size_of w.
Proof.
  apply functional_extensionality. intros i. unfold segment_size_of. cbn.
  destruct (decide (i = mid)) as [->|Hne].
  - rewrite lookup_insert_eq, Hmo. destruct (r_const _ _ _ _ _ _ _ Hk) as [l ->]. done.
  - by rewrite lookup_insert_ne.
Qed.

Lemma step_other mid' mo' d0 :
  mid' ≠ mid → w_mappings w !! mid' = Some mo' → w_drivers w !! mo_driver mo' = Some d0 →
  w_drivers w' !! mo_driver mo' = Some d0 ∧ mapping_inv (mo_mapping mo') v' d0 ∧
  ∀ x, 0 ≤ x < m_size (mo_mapping mo') →
    view (mo_mapping mo') v' d0 x = view (mo_mapping mo') (w_vm w) d0 x.
Proof.
  intros Hne Hmo' Hd0. destruct (wo_mapping _ _ Hw mid' mo' Hmo') as [(d1 & Hd1 & Hi1) _].
  assert (d1 = d0) as -> by congruence. split.
  - cbn. rewrite lookup_insert_ne; [done|]. intros E. apply Hne.
    symmetry. by eapply (wo_driver _ _ Hw).
  - apply mapping_inv_frame; [done|]. intros a Ha. apply (r_vm _ _ _ _ _ _ _ Hk).
    + by eapply (wo_disjoint _ _ Hw mid' mid).
    + intros Ht. by apply (HT mid' mo' Hmo' a Ht).
Qed.

(** The invariant, for any pending list that covers the mapped segments. *)
Lemma step_inv pend' :
  (∀ i, 0 ≤ i < segments (mo_mapping mo) → mapped (status_at m' i) = true →
     (mapped (status_at (mo_mapping mo) i) = true ∧ (mid, i) ∉ pend) ∨ (mid, i) ∈ pend') →
  (∀ mid' i, mid' ≠ mid → (mid', i) ∈ pend → (mid', i) ∈ pend') →
  world_inv pend' w'.
Proof.
  intros Hstat Hpend. destruct (r_const _ _ _ _ _ _ _ Hk) as [l' Hm']. split.
  - intros mid1 mo1 Hmo1. cbn in Hmo1. destruct (decide (mid1 = mid)) as [->|Hne].
    + rewrite lookup_insert_eq in Hmo1. injection Hmo1 as <-. cbn.
      rewrite lookup_insert_eq. split; [exists d'; split; [done|apply Hk]|].
      subst m'. by apply (wo_mapping _ _ Hw mid mo).
    + rewrite lookup_insert_ne in Hmo1 by done.
      destruct (wo_mapping _ _ Hw mid1 mo1 Hmo1) as [(d1 & Hd1 & _) Hpol].
      destruct (step_other mid1 mo1 d1 Hne Hmo1 Hd1) as (H1' & H2' & _). eauto.
  - intros mid1 mid2 mo1 mo2. cbn. rewrite !lookup_insert_Some.
    intros [[<- <-]|[Hn1 H1']] [[<- <-]|[Hn2 H2']]; cbn; intros E; try done;
      eapply (wo_driver _ _ Hw); eauto.
  - intros mid1 mid2 mo1 mo2 a. cbn. rewrite !lookup_insert_Some. subst m'.
    intros [[<- <-]|[Hn1 H1']] [[<- <-]|[Hn2 H2']] Hne; cbn; try done;
      eapply (wo_disjoint _ _ Hw); eauto.
  - intros pid p Hp. change (w_policies w' !! pid = Some p) with (w_policies w !! pid = Some p) in Hp.
    destruct (wo_policy _ _ Hw pid p Hp) as (Hpid & [Hreg1 Hreg2] & l & Hl & Hcov).
    split; [done|]. split; [split|].
    + intros st Hst. destruct (Hreg1 st Hst) as (mo1 & H1' & H2' & H3'). cbn.
      destruct (decide (ps_mapping st = mid)) as [E|E].
      * rewrite E, lookup_insert_eq. eexists. split; [done|]. cbn. subst m'.
        assert (mo1 = mo) as -> by congruence. done.
      * rewrite lookup_insert_ne by done. eauto.
    + intros mid1 mo1. cbn. rewrite lookup_insert_Some. intros [[<- <-]|[Hne Hmo1]]; cbn; [|by apply Hreg2].
      subst m'. cbn. by apply (Hreg2 mid mo).
    + exists l. rewrite step_segment_size. split; [done|].
      intros mid1 mo1 i. cbn. rewrite lookup_insert_Some. intros [[<- <-]|[Hne Hmo1]]; cbn.
      * intros Hpol Hi Hmap. assert (Hi' : 0 ≤ i < segments (mo_mapping mo)) by (by subst m').
        destruct (Hstat i Hi' Hmap) as [[Hold Hnp]|Hnew]; [|by right]. left.
        destruct (Hcov mid mo i Hmo) as [?|?]; [by subst m'|done|done|done|done].
      * intros Hpol Hi Hmap. destruct (Hcov mid1 mo1 i Hmo1 Hpol Hi Hmap) as [?|?]; [by left|right].
        by apply Hpend.
  - intros pid pid' p p' x. cbn. apply (wo_own _ _ Hw).
Qed.

Lemma step_view : ∀ mid' x, world_view w' mid' x = world_view w mid' x.
Proof.
  intros mid' x. unfold world_view. cbn. destruct (decide (mid' = mid)) as [->|Hne].
  - rewrite lookup_insert_eq, Hmo. cbn. rewrite lookup_insert_eq, Hd. cbn.
    destruct (r_const _ _ _ _ _ _ _ Hk) as [l Hm']. rewrite Hm'. cbn. case_decide as Hx; [|done].
    rewrite <- Hm'. f_equal. by apply (r_view _ _ _ _ _ _ _ Hk).
  - rewrite lookup_insert_ne by done. destruct (w_mappings w !! mid') as [mo'|] eqn:Hmo'; [|done]. cbn.
    destruct (wo_mapping _ _ Hw mid' mo' Hmo') as [(d1 & Hd1 & _) _].
    destruct (step_other mid' mo' d1 Hne Hmo' Hd1) as (H1' & _ & H3'). cbn in H1'. rewrite H1', Hd1. cbn.
    case_decide; [|done]. f_equal. by apply H3'.
Qed.
End Step.


(** ** Stores of the program *)

(** The obligations only matter for segments of mappings with a policy. *)
Lemma world_inv_mono pend pend' w :
  world_inv pend w →
  (∀ mid i, (mid, i) ∈ pend → (mid, i) ∈ pend' ∨
     ∃ mo, w_mappings w !! mid = Some mo ∧ policy_of (mo_mapping mo) = 0) →
  world_inv pend' w.
Proof.
  intros [H1' H2' H3' H4' H5'] Hp. split; try done.
  intros pid p Hpid. destruct (H4' pid p Hpid) as (Hnz & Hr & l & Hl & Hc). split; [done|]. split; [done|].
  exists l. split; [done|]. intros mid mo i Hmo Hpo Hi Hm.
  destruct (Hc mid mo i Hmo Hpo Hi Hm) as [?|Hin]; [by left|].
  destruct (Hp mid i Hin) as [?|(mo' & Hmo' & Hz)]; [by right|]. congruence.
Qed.

(** The store itself, on a byte the protection allows. *)
Definition poke_world (w : W) (a b : Z) : W :=
  mkWorld (w_heap w) (poke (w_vm w) a b) (w_mappings w) (w_drivers w) (w_policies w) (w_quotas w).

Lemma poke_world_ok pend w mid mo x b :
  world_inv pend w → w_mappings w !! mid = Some mo → 0 ≤ x < m_size (mo_mapping mo) →
  writable (w_vm w) (baseAddress (mo_mapping mo) + x) = true →
  let w' := poke_world w (baseAddress (mo_mapping mo) + x) b in
  world_inv pend w' ∧ ∀ mid' y, world_view w' mid' y =
    if decide (mid' = mid ∧ y = x) then Some b else world_view w mid' y.
Proof.
  intros Hw Hmo Hx Hwr w'. set (m := mo_mapping mo) in *.
  destruct (wo_mapping _ _ Hw mid mo Hmo) as [(d & Hd & Hinv) Hone]. fold m in Hinv.
  pose proof (wg_size _ (mi_geom _ _ _ Hinv)) as Hsz.
  destruct (poke_ok m (w_vm w) d x b Hinv Hx Hwr) as [Hinv' Hview'].
  assert (Hother : ∀ mid' mo' d', mid' ≠ mid → w_mappings w !! mid' = Some mo' →
    mapping_inv (mo_mapping mo') (w_vm w) d' → mapping_inv (mo_mapping mo') (w_vm w') d' ∧
    ∀ y, 0 ≤ y < m_size (mo_mapping mo') → view (mo_mapping mo') (w_vm w') d' y = view (mo_mapping mo') (w_vm w) d' y).
  { intros mid' mo' d' Hne Hmo' Hi'. apply mapping_inv_frame; [done|]. intros a Ha. cbn.
    destruct (Z.eqb_spec a (baseAddress m + x)) as [->|]; [|done].
    destruct (wo_disjoint _ _ Hw mid' mid mo' mo (baseAddress m + x) Hmo' Hmo Hne Ha). fold m. lia. }
  split.
  - destruct Hw as [H1' H2' H3' H4' H5']. split; [|exact H2'|exact H3'|exact H4'|exact H5'].
    intros mid' mo' Hmo'. destruct (H1' mid' mo' Hmo') as [(d' & Hd' & Hi') Ho]. split; [|done].
    exists d'. split; [done|]. destruct (decide (mid' = mid)) as [->|Hne]; [|by apply (Hother mid')].
    assert (mo' = mo) as -> by (cbn in Hmo'; congruence). assert (d' = d) as -> by congruence. done.
  - intros mid' y. unfold world_view. cbn [w_mappings w_drivers w' poke_world].
    destruct (w_mappings w !! mid') as [mo'|] eqn:Hmo'; cbn [mbind option_bind].
    + destruct (wo_mapping _ _ Hw mid' mo' Hmo') as [(d' & Hd' & Hi') _]. rewrite Hd'. cbn [mbind option_bind].
      destruct (decide (mid' = mid)) as [->|Hne].
      * assert (mo' = mo) as -> by congruence. assert (d' = d) as -> by congruence. fold m.
        case_decide as Hy; [|rewrite decide_False; [done|naive_solver]].
        change (w_vm w') with (poke (w_vm w) (baseAddress m + x) b). rewrite Hview' by done.
        destruct (Z.eqb_spec y x) as [->|]; [by rewrite decide_True|by rewrite decide_False by tauto].
      * rewrite (decide_False (P := mid' = mid ∧ y = x)) by tauto. case_decide; [|done].
        f_equal. by apply (Hother mid').
    + rewrite decide_False; [done|]. intros [-> _]. congruence.
Qed.

(** ** Evictions *)

(** The policies [Mapping::evict] tells, when the policy of the mapping asks: none. *)
Lemma no_other_policy (m : Mapping) q :
  localPolicy m = 0 ∨ globalPolicy m = 0 → q = localPolicy m ∨ q = globalPolicy m →
  negb (policy_of m =? q) && negb (q =? 0) = false.
Proof.
  intros Hone Hq. unfold policy_of in *. destruct (Z.eqb_spec (localPolicy m) 0) as [E|E];
    destruct Hq as [-> | ->]; rewrite ?E, ?Z.eqb_refl, ?andb_false_r; try done.
  destruct Hone as [?|Hg]; [done|]. by rewrite Hg, andb_false_r.
Qed.

(** An eviction asked by the policy of the mapping: the segment is no longer pending. *)
Lemma evict_ok pend pend' w mid mo i :
  world_inv pend w → w_mappings w !! mid = Some mo →
  policy_of (mo_mapping mo) ≠ 0 → 0 ≤ i < segments (mo_mapping mo) →
  (∀ s, s ∈ pend → s ≠ (mid, i) → s ∈ pend') →
  ∃ w', evict w (policy_of (mo_mapping mo)) mid i = Ok w' ∧ world_inv pend' w' ∧
    (∀ mid' x, world_view w' mid' x = world_view w mid' x) ∧
    w_policies w' = w_policies w ∧ w_heap w' = w_heap w ∧ w_quotas w' = w_quotas w ∧
    (∃ m', w_mappings w' = <[mid := mkMapObj m' (mo_driver mo)]> (w_mappings w) ∧
       (∃ l, m' = set_segmentStatus (mo_mapping mo) l) ∧
       ∀ j, 0 ≤ j < segments (mo_mapping mo) → j ≠ i → status_at m' j = status_at (mo_mapping mo) j).
Proof.
  intros Hw Hmo Hpol Hi Hnp. destruct (wo_mapping _ _ Hw mid mo Hmo) as [(d & Hd & Hinv) Hone].
  destruct (evict_segment_ok (mo_mapping mo) (w_vm w) d Hinv i Hi)
    as (m' & v' & d' & Hrun & Hk & Hst & Hother).
  unfold evict. rewrite Hmo. cbn [deref mbind result_bind].
  rewrite !no_other_policy by auto. cbn [mbind result_bind]. rewrite Hd. cbn [deref mbind result_bind].
  rewrite Hrun. cbn [mbind result_bind]. eexists. split; [done|].
  assert (HT : ∀ mid' mo', w_mappings w !! mid' = Some mo' → outside (mo_mapping mo') (λ _, False))
    by (intros ? ? ? ? []).
  split; [|split].
  - eapply step_inv; eauto.
    + intros j Hj Hmap. destruct (decide (j = i)) as [->|Hne]; [by rewrite Hst in Hmap|].
      rewrite Hother in Hmap by done.
      destruct (decide ((mid, j) ∈ pend)) as [Hin|]; [right|by left]. apply Hnp; [done|congruence].
    + intros mid' j Hne Hin. apply Hnp; [done|congruence].
  - intros. eapply step_view; eauto.
  - cbn. do 3 (split; [done|]). exists m'. split; [done|]. split; [apply Hk|done].
Qed.

(** A list of evictions empties the pending list and keeps every view. *)
Lemma evictAll_ok pid ids w :
  pid ≠ 0 → NoDup ids → world_inv ids w →
  (∀ mid i, (mid, i) ∈ ids → ∃ mo, w_mappings w !! mid = Some mo ∧
     policy_of (mo_mapping mo) = pid ∧ 0 ≤ i < segments (mo_mapping mo)) →
  ∃ w', evictAll w pid ids = Ok w' ∧ world_inv [] w' ∧
    (∀ mid x, world_view w' mid x = world_view w mid x) ∧
    w_policies w' = w_policies w ∧ w_heap w' = w_heap w ∧ w_quotas w' = w_quotas w ∧
    ∀ mid mo, w_mappings w !! mid = Some mo → ∃ m', w_mappings w' !! mid = Some (mkMapObj m' (mo_driver mo)) ∧
      (∃ l, m' = set_segmentStatus (mo_mapping mo) l) ∧
      ∀ j, 0 ≤ j < segments (mo_mapping mo) → (mid, j) ∉ ids → status_at m' j = status_at (mo_mapping mo) j.
Proof.
  intros Hpid. revert w. induction ids as [|[mid i] ids IH]; intros w Hnd Hw Hids.
  - exists w. split; [done|]. split; [done|]. split; [done|]. do 3 (split; [done|]).
    intros mid mo Hmo. exists (mo_mapping mo). split; [by destruct mo|].
    split; [exists (segmentStatus (mo_mapping mo)); by destruct (mo_mapping mo)|done].
  - apply NoDup_cons in Hnd as [Hn Hnd]. destruct (Hids mid i) as (mo & Hmo & Hpol & Hi); [left|].
    destruct (evict_ok ((mid, i) :: ids) ids w mid mo i Hw Hmo) as
      (w1 & Hrun & Hw1 & Hv1 & Hp1 & Hh1 & Hq1 & m1 & Hm1 & [l1 Hl1] & Hst1);
      [congruence|done|by intros s [->|?]%elem_of_cons|].
    rewrite Hpol in Hrun. cbn. rewrite Hrun. cbn [mbind result_bind].
    destruct (IH w1 Hnd Hw1) as (w' & Hrun' & Hw' & Hv' & Hp' & Hh' & Hq' & Hm').
    { intros mid2 i2 Hin. destruct (Hids mid2 i2) as (mo2 & Hmo2 & Hpol2 & Hi2); [by right|].
      rewrite Hm1. destruct (decide (mid2 = mid)) as [->|Hne].
      - rewrite lookup_insert_eq. eexists. split; [done|]. subst m1. cbn.
        assert (mo2 = mo) as -> by congruence. done.
      - rewrite lookup_insert_ne by done. eauto. }
    exists w'. split; [done|]. split; [done|]. split; [intros; by rewrite Hv'|].
    rewrite Hp', Hh', Hq', Hp1, Hh1, Hq1. do 3 (split; [done|]).
    intros mid2 mo2 Hmo2. destruct (decide (mid2 = mid)) as [->|Hne].
    + assert (mo2 = mo) as -> by congruence.
      destruct (Hm' mid (mkMapObj m1 (mo_driver mo))) as (m2 & Hm2 & [l2 Hl2] & Hst2);
        [by rewrite Hm1, lookup_insert_eq|]. exists m2. split; [done|]. cbn in Hl2.
      split; [exists l2; by subst m1 m2|]. intros j Hj Hnin. apply not_elem_of_cons in Hnin as [Hne Hnin].
      cbn in Hst2. rewrite Hst2; [apply Hst1; [done|congruence]|by subst m1|done].
    + destruct (Hm' mid2 mo2) as (m2 & Hm2 & Hl2 & Hst2); [by rewrite Hm1, lookup_insert_ne|].
      exists m2. split; [done|]. split; [done|]. intros j Hj Hnin.
      apply Hst2; [done|]. apply not_elem_of_cons in Hnin. tauto.
Qed.

(** ** A change of one policy *)

Lemma policy_step pend pend' w pid p h' p' l' :
  world_inv pend w → w_policies w !! pid = Some p →
  local (pol_base p') = local (pol_base p) →
  storageRegistry (pol_base p') = storageRegistry (pol_base p) → pol_roots p' = pol_roots p →
  pol_inv (segment_size_of w) h' p' l' →
  (∀ x, x ∉ all_elems (pol_base p) ++ pol_roots p → h' !! x = w_heap w !! x) →
  covers w pend' pid p' l' →
  (∀ mid i mo, (mid, i) ∈ pend → w_mappings w !! mid = Some mo →
     policy_of (mo_mapping mo) = pid ∨ (mid, i) ∈ pend') →
  world_inv pend' (set_policy w h' pid p').
Proof.
  intros Hw Hp Hloc Hreg Hroots Hinv Hfr Hcov Hpend.
  assert (Hall : all_elems (pol_base p') = all_elems (pol_base p))
    by (unfold all_elems; by rewrite Hreg).
  split; [apply Hw|apply Hw|apply Hw| |].
  - intros pid1 p1. cbn. rewrite lookup_insert_Some. intros [[<- <-]|[Hne Hp1]].
    + destruct (wo_policy _ _ Hw pid p Hp) as (Hpid & [Hr1 Hr2] & _). split; [done|]. split.
      * split; cbn; [by rewrite Hreg|]. intros mid mo Hmo Hpol.
        destruct (Hr2 mid mo Hmo Hpol) as [st Hst].
        exists st. unfold getStorageInfo in *. by rewrite Hloc, Hreg.
      * exists l'. done.
    + destruct (wo_policy _ _ Hw pid1 p1 Hp1) as (Hpid & Hr & l & Hl & Hc). split; [done|].
      split; [done|]. exists l. split.
      * eapply pol_frame; [exact Hl|]. intros x Hx. apply Hfr. by eapply (wo_own _ _ Hw pid1 pid).
      * intros mid mo i Hmo Hpol Hi Hm. destruct (Hc mid mo i Hmo Hpol Hi Hm) as [?|Hin]; [by left|right].
        destruct (Hpend _ _ _ Hin Hmo) as [?|?]; [congruence|done].
  - intros pid1 pid2 p1 p2 x. cbn. rewrite !lookup_insert_Some.
    intros [[<- <-]|[Hn1 H1']] [[<- <-]|[Hn2 H2']] Hne; try done; rewrite ?Hall, ?Hroots;
      eapply (wo_own _ _ Hw); eauto.
Qed.

(** The mapped segments that are tracked by [l] are among the kept and the victims. *)
Lemma covers_split w pend rest pid p l ks vs (extra : option Z) :
  wf_registry (segment_size_of w) (pol_base p) → covers w pend pid p l → registered w pid p →
  (∀ x, x ∈ l → x ∈ ks ++ vs) →
  (∀ e, extra = Some e → e ∈ ks ++ vs) →
  (∀ mid i, (mid, i) ∈ pend → (∃ st, st ∈ storageRegistry (pol_base p) ∧ ps_mapping st = mid ∧
     extra = Some (element st i)) ∨ (mid, i) ∈ rest) →
  covers w ((elt_segment (pol_base p) <$> vs) ++ rest) pid p ks.
Proof.
  intros Hwf Hcov [Hr1 _] Hl Hex Hpend mid mo i Hmo Hpol Hi Hm.
  assert ((∃ st, st ∈ storageRegistry (pol_base p) ∧ ps_mapping st = mid ∧ element st i ∈ ks ++ vs) ∨
    (mid, i) ∈ rest) as [(st & Hst & Hmid & Hel)|Hrest].
  { destruct (Hcov mid mo i Hmo Hpol Hi Hm) as [(st & Hst & Hmid & Hel)|Hin].
    - left. exists st. auto.
    - destruct (Hpend mid i Hin) as [(st & Hst & Hmid & He)|?]; [left; exists st; auto|by right]. }
  2: { right. apply elem_of_app. by right. }
  apply elem_of_app in Hel as [Hel|Hel]; [left; by exists st|right].
  apply elem_of_app. left. apply list_elem_of_fmap. exists (element st i). split; [|done].
  destruct (Hr1 st Hst) as (mo1 & Hmo1 & _ & Hcnt). rewrite Hmid in Hmo1.
  assert (mo1 = mo) as -> by congruence.
  rewrite (elt_segment_element _ _ Hwf st i Hst) by lia. by rewrite Hmid.
Qed.

(** The segments of tracked elements, as a list of evictions. *)
Lemma victims_ids w pid p vs :
  wf_registry (segment_size_of w) (pol_base p) → registered w pid p → NoDup vs →
  (∀ e, e ∈ vs → e ∈ all_elems (pol_base p)) →
  NoDup (elt_segment (pol_base p) <$> vs) ∧
  ∀ mid i, (mid, i) ∈ elt_segment (pol_base p) <$> vs →
    ∃ mo, w_mappings w !! mid = Some mo ∧ policy_of (mo_mapping mo) = pid ∧
      0 ≤ i < segments (mo_mapping mo).
Proof.
  intros Hwf [Hr1 _] Hnd Hin. split.
  - apply NoDup_fmap_2_strong; [|done]. intros x y Hx Hy Heq.
    apply Hin, (elem_of_all_elems (segment_size_of w)) in Hx as (st & Hst & (i & Hi & ->)%elem_of_storage_elems).
    apply Hin, (elem_of_all_elems (segment_size_of w)) in Hy as (st' & Hst' & (j & Hj & ->)%elem_of_storage_elems).
    rewrite !(elt_segment_element _ _ Hwf) in Heq by done. injection Heq as Hm ->.
    assert (st = st') as ->; [|done].
    eapply (NoDup_fmap_elem ps_mapping); [apply (wfr_keys _ _ Hwf)|done..].
  - intros mid i (e & He & Hv)%list_elem_of_fmap.
    apply Hin, (elem_of_all_elems (segment_size_of w)) in Hv as (st & Hst & (j & Hj & ->)%elem_of_storage_elems).
    rewrite (elt_segment_element _ _ Hwf) in He by done. injection He as -> ->.
    destruct (Hr1 st Hst) as (mo & Hmo & Hpol & Hcnt). exists mo. rewrite <- Hcnt. done.
Qed.

(** ** A touch, with its evictions *)

(** Bytes of memory held by the mapped segments of a policy's mappings. *)
Definition seg_mapped (w : W) (s : Z * Z) : bool :=
  match w_mappings w !! fst s with
  | Some mo => mapped (status_at (mo_mapping mo) (snd s))
  | None => false
  end.
Definition resident (w : W) (p : P) : Z :=
  mem_of (segment_size_of w) (pol_base p)
    (filter (λ e, seg_mapped w (elt_segment (pol_base p) e) = true) (all_elems (pol_base p))).

Lemma all_elems_NoDup gs b : wf_registry gs b → NoDup (all_elems b).
Proof.
  intros [Hst Hkeys Hdis _]. unfold all_elems. revert Hst Hkeys Hdis. generalize (storageRegistry b) as r.
  induction r as [|st r IH]; intros Hst Hkeys Hdis; [apply NoDup_nil_2|]. cbn.
  apply NoDup_cons in Hkeys as [Hk Hkeys]. apply NoDup_app. split; [|split].
  - unfold storage_elems. apply NoDup_fmap_2_strong; [|apply NoDup_seqZ].
    intros i j _ _. unfold element, sizeof_ListElement. lia.
  - intros e He Hin. apply list_elem_of_bind in Hin as (st' & He' & Hst').
    assert (Hc : ∀ s, s ∈ st :: r → e ∈ storage_elems s → contains s e = true).
    { intros s Hs (i & Hi & ->)%elem_of_storage_elems. by apply (element_contains gs); [apply Hst|]. }
    assert (st = st') as ->; [|apply Hk; apply list_elem_of_fmap; eauto].
    apply (Hdis st st' e); [left|by right|by apply Hc; [left|]|by apply Hc; [right|]].
  - apply IH; [|done|]; intros; [apply Hst; by right|]. eapply Hdis; eauto; by right.
Qed.

(** With nothing pending, what is resident is tracked. *)
Lemma resident_tracked w pid p l :
  w_policies w !! pid = Some p → registered w pid p → pol_inv (segment_size_of w) (w_heap w) p l →
  covers w [] pid p l → resident w p ≤ pol_getCurrentMemory p.
Proof.
  intros Hp [Hr1 _] Hi Hcov. pose proof (pol_wf _ _ _ _ Hi) as Hwf.
  destruct (pol_elems _ _ _ _ Hi) as [Hnd Hin]. rewrite (pol_memory _ _ _ _ Hi).
  unfold resident, mem_of. apply sumZ_submseteq.
  - apply NoDup_submseteq; [apply NoDup_filter; by eapply all_elems_NoDup|].
    intros e [Hm He]%list_elem_of_filter.
    apply (elem_of_all_elems (segment_size_of w)) in He as (st & Hst & (i & Hi' & ->)%elem_of_storage_elems).
    rewrite (elt_segment_element _ _ Hwf) in Hm by done. unfold seg_mapped in Hm. cbn in Hm.
    destruct (Hr1 st Hst) as (mo & Hmo & Hpol & Hcnt). rewrite Hmo in Hm.
    destruct (Hcov _ mo i Hmo Hpol ltac:(lia) Hm) as [(st' & Hst' & Hmid & Hel)|Hnil];
      [|by apply elem_of_nil in Hnil].
    assert (st' = st) as ->; [|done].
    eapply (NoDup_fmap_elem ps_mapping); [apply (wfr_keys _ _ Hwf)|done..].
  - intros e He. pose proof (elt_size_pos _ _ Hwf e (Hin e He)). lia.
Qed.

Lemma tracked_length gs h p l :
  pol_inv gs h p l → (length l ≤ length (all_elems (pol_base p)))%nat.
Proof.
  intros Hi. destruct (pol_elems _ _ _ _ Hi) as [Hnd Hin].
  apply submseteq_length, NoDup_submseteq; [done|]. exact Hin.
Qed.

(** The policy of a mapping, if it has one, can hold a segment, has no quota, and
    [fuel] is enough for its loops. *)
Definition policy_fits (fuel : nat) (w : W) (m : Mapping) : Prop :=
  policy_of m ≠ 0 → ∃ p, w_policies w !! policy_of m = Some p ∧
    segmentSize m ≤ dynamicMaxMemory (pol_base p) ∧ policyQuota (pol_base p) = 0 ∧
    (S (length (all_elems (pol_base p))) < fuel)%nat.

(** The critical section of a touch, seen from the process. *)
Lemma touch_section fuel w pend rest pid p mid mo index :
  world_inv pend w → (∀ s, s ∈ pend → s = (mid, index) ∨ s ∈ rest) →
  w_mappings w !! mid = Some mo → policy_of (mo_mapping mo) = pid → w_policies w !! pid = Some p →
  0 ≤ index < segments (mo_mapping mo) →
  segmentSize (mo_mapping mo) ≤ dynamicMaxMemory (pol_base p) →
  (S (length (all_elems (pol_base p))) < fuel)%nat →
  pol_notifyTouch (segment_size_of w) fuel (w_heap w) p mid index = Err tooMany ∨
  ∃ h' p' t ids, pol_notifyTouch (segment_size_of w) fuel (w_heap w) p mid index = Ok (h', p', t) ∧
    t_evicted t = ids ∧ pol_base p' = pol_base p ∧
    pol_getCurrentMemory p' ≤ dynamicMaxMemory (pol_base p) ∧
    world_inv (ids ++ rest) (set_policy w h' pid p') ∧ NoDup ids ∧ (mid, index) ∉ ids ∧
    ∀ mid' i, (mid', i) ∈ ids → ∃ mo, w_mappings w !! mid' = Some mo ∧
      policy_of (mo_mapping mo) = pid ∧ 0 ≤ i < segments (mo_mapping mo).
Proof.
  intros Hw Hpend Hmo Hpol Hp Hix Hlim Hfuel.
  destruct (wo_policy _ _ Hw pid p Hp) as (Hpid & Hreg & l & Hl & Hcov).
  pose proof (pol_wf _ _ _ _ Hl) as Hwf. pose proof (tracked_length _ _ _ _ Hl) as Hlen.
  destruct (proj2 Hreg mid mo Hmo Hpol) as [st Hst].
  pose proof Hst as [Hin Hmid]%getStorageInfo_inv.
  destruct (proj1 Hreg st Hin) as (mo1 & Hmo1 & _ & Hcnt). rewrite Hmid in Hmo1.
  assert (mo1 = mo) as -> by congruence.
  destruct (pol_touch _ _ _ _ mid st index fuel Hl Hst ltac:(lia)) as
    [Herr|(h' & p' & t & ks & vs & Hrun & Hb & Hroots & Hl' & Hfr & Hev & Hperm & Hek & Hle)].
  { unfold segment_size_of. rewrite Hmo. done. }
  { lia. }
  { by left. }
  right. destruct (pol_elems _ _ _ _ Hl) as [Hnd Hine].
  set (e := element st index) in *.
  assert (He : e ∈ all_elems (pol_base p)) by (apply (element_in (segment_size_of w)); [done|lia]).
  assert (Hnd' : NoDup (ks ++ vs)).
  { rewrite <- Hperm. apply NoDup_cons. split; [rewrite elem_of_without; tauto|by apply NoDup_filter]. }
  assert (Hall : ∀ x, x ∈ ks ++ vs ↔ x = e ∨ x ∈ l).
  { intros x. rewrite <- Hperm, elem_of_cons, elem_of_without.
    destruct (decide (x = e)); tauto. }
  apply NoDup_app in Hnd' as (_ & Hdis & Hndv).
  assert (Hvs : ∀ x, x ∈ vs → x ∈ all_elems (pol_base p)).
  { intros x Hx. destruct (proj1 (Hall x)) as [->|Hxl]; [apply elem_of_app; by right|done|auto]. }
  destruct (victims_ids w pid p vs Hwf Hreg Hndv Hvs) as [Hnids Hids].
  exists h', p', t, (elt_segment (pol_base p) <$> vs). do 4 (split; [done|]). split; [|split; [done|split; [|done]]].
  - eapply (policy_step pend); [done|done|by rewrite Hb|by rewrite Hb|done|done|done| |].
    + assert (covers w ((elt_segment (pol_base p) <$> vs) ++ rest) pid p ks) as Hc.
      { apply (covers_split w pend rest pid p l ks vs (Some e) Hwf Hcov Hreg).
        - intros x Hx. apply Hall. by right.
        - intros x [= <-]. apply Hall. by left.
        - intros mid' i Hs. apply Hpend in Hs as [[= -> ->]|?]; [left; by exists st|by right]. }
      unfold covers, tracked_in_list in *. rewrite Hb. exact Hc.
    + intros mid' i mo' Hs Hmo'. apply Hpend in Hs as [[= -> ->]|?]; [left; congruence|right].
      apply elem_of_app. by right.
  - intros (x & Hx & Hxv)%list_elem_of_fmap. apply (Hdis e Hek).
    pose proof (Hvs x Hxv) as Hxa.
    apply (elem_of_all_elems (segment_size_of w)) in Hxa as (st' & Hst' & (j & Hj & ->)%elem_of_storage_elems).
    rewrite (elt_segment_element _ _ Hwf) in Hx by done. injection Hx as Hm ->.
    assert (st' = st) as ->; [|done].
    eapply (NoDup_fmap_elem ps_mapping); [apply (wfr_keys _ _ Hwf)|done|done|congruence].
Qed.

(** Every mapping of [w] is in [w'], with at most other segment statuses. *)
Definition keep_mappings (w w' : W) : Prop :=
  ∀ mid mo, w_mappings w !! mid = Some mo →
    ∃ l, w_mappings w' !! mid = Some (mkMapObj (set_segmentStatus (mo_mapping mo) l) (mo_driver mo)).

Lemma keep_mappings_trans w w1 w2 : keep_mappings w w1 → keep_mappings w1 w2 → keep_mappings w w2.
Proof.
  intros H1' H2' mid mo Hmo. destruct (H1' mid mo Hmo) as [l1 Hl1].
  destruct (H2' _ _ Hl1) as [l2 Hl2]. by exists l2.
Qed.

Lemma set_mapping_keep w mid mo m' v' d' l :
  w_mappings w !! mid = Some mo → m' = set_segmentStatus (mo_mapping mo) l →
  keep_mappings w (set_mapping w mid mo m' v' d').
Proof.
  intros Hmo -> mid1 mo1 Hmo1. cbn. destruct (decide (mid1 = mid)) as [->|Hne].
  - exists l. rewrite lookup_insert_eq. by simplify_eq.
  - exists (segmentStatus (mo_mapping mo1)). rewrite lookup_insert_ne, Hmo1 by done.
    by destruct mo1 as [[]].
Qed.

(** Equal views and kept mappings leave no new mapping. *)
Lemma keep_mappings_inv w w' mid mo' :
  world_inv [] w' → keep_mappings w w' → (∀ mid x, world_view w' mid x = world_view w mid x) →
  w_mappings w' !! mid = Some mo' → ∃ mo, w_mappings w !! mid = Some mo ∧
    ∃ l, mo' = mkMapObj (set_segmentStatus (mo_mapping mo) l) (mo_driver mo).
Proof.
  intros Hw' Hkeep Hviews Hmo'. destruct (w_mappings w !! mid) as [mo|] eqn:Hmo.
  - exists mo. split; [done|]. destruct (Hkeep mid mo Hmo) as [l Hl]. exists l. congruence.
  - specialize (Hviews mid 0). unfold world_view in Hviews. rewrite Hmo, Hmo' in Hviews. cbn in Hviews.
    destruct (wo_mapping _ _ Hw' mid mo' Hmo') as [(d & Hd & Hinv) _]. rewrite Hd in Hviews. cbn in Hviews.
    pose proof (wg_size _ (mi_geom _ _ _ Hinv)). pose proof (wg_segments _ (mi_geom _ _ _ Hinv)).
    pose proof (geom_segmentSize _ (mi_geom _ _ _ Hinv)).
    rewrite decide_True in Hviews; [done|]. nia.
Qed.

(** A whole touch: the policy is under its limit, every view is unchanged, and the
    touched segment keeps its status. *)
Lemma notifyTouch_ok fuel w pend pid p mid mo index :
  world_inv pend w → (∀ s, s ∈ pend → s = (mid, index)) →
  w_mappings w !! mid = Some mo → policy_of (mo_mapping mo) = pid → w_policies w !! pid = Some p →
  0 ≤ index < segments (mo_mapping mo) →
  segmentSize (mo_mapping mo) ≤ dynamicMaxMemory (pol_base p) → policyQuota (pol_base p) = 0 →
  (S (length (all_elems (pol_base p))) < fuel)%nat →
  notifyTouch fuel w pid mid index = Err tooMany ∨
  ∃ w' p' m', notifyTouch fuel w pid mid index = Ok w' ∧ world_inv [] w' ∧
    (∀ mid' x, world_view w' mid' x = world_view w mid' x) ∧
    w_policies w' = <[pid := p']> (w_policies w) ∧ pol_base p' = pol_base p ∧
    resident w' p' ≤ pol_getCurrentMemory p' ∧
    pol_getCurrentMemory p' ≤ dynamicMaxMemory (pol_base p) ∧ keep_mappings w w' ∧
    w_mappings w' !! mid = Some (mkMapObj m' (mo_driver mo)) ∧
    (∃ l, m' = set_segmentStatus (mo_mapping mo) l) ∧
    status_at m' index = status_at (mo_mapping mo) index.
Proof.
  intros Hw Hpend Hmo Hpol Hp Hix Hlim Hquota Hfuel. unfold notifyTouch. rewrite Hp.
  cbn [deref mbind result_bind].
  destruct (touch_section fuel w pend [] pid p mid mo index Hw) as
    [Herr|(h' & p' & t & ids & Hrun & Hev & Hb & Hle & Hw1 & Hnd & Hni & Hids)];
    [by auto|done..| |].
  { left. by rewrite Herr. }
  right. rewrite app_nil_r in Hw1. rewrite Hrun. cbn [mbind result_bind]. rewrite Hev.
  destruct (wo_policy _ _ Hw pid p Hp) as (Hpid & _).
  destruct (evictAll_ok pid ids (set_policy w h' pid p') Hpid Hnd Hw1 Hids)
    as (w' & -> & Hw' & Hv' & Hpols & _ & _ & Hmaps). cbn [mbind result_bind].
  assert (Hp' : w_policies w' !! pid = Some p') by (rewrite Hpols; cbn; by rewrite lookup_insert_eq).
  rewrite Hp'. cbn [deref mbind result_bind]. unfold notifiesQuota. rewrite Hb, Hquota.
  rewrite Z.eqb_refl. cbn [negb]. rewrite andb_false_r. cbn [andb].
  destruct (Hmaps mid mo Hmo) as (m' & Hm' & Hl' & Hst').
  destruct (wo_policy _ _ Hw' pid p' Hp') as (_ & Hreg' & l' & Hinv' & Hcov').
  exists w', p', m'. split; [done|]. split; [done|]. split; [done|]. split; [done|]. split; [done|].
  split; [by eapply resident_tracked|]. split; [done|]. split.
  { intros mid' mo' Hmo'. destruct (Hmaps mid' mo' Hmo') as (m2 & Hm2 & [l2 ->] & _). by exists l2. }
  split; [done|]. split; [done|]. by apply Hst'.
Qed.

(** ** The whole fault handler *)

(** The policy calls at the end of the handler, for a mapping with one policy. *)
Lemma one_policy (m : Mapping) (w : W) fuel mid i :
  localPolicy m = 0 ∨ globalPolicy m = 0 → policy_of m ≠ 0 →
  (w2 ← (if negb (localPolicy m =? 0) then notifyTouch fuel w (localPolicy m) mid i else Ok w);
   if negb (globalPolicy m =? 0) then notifyTouch fuel w2 (globalPolicy m) mid i else Ok w2)
  = notifyTouch fuel w (policy_of m) mid i.
Proof.
  intros Hone. unfold policy_of. destruct (Z.eqb_spec (localPolicy m) 0) as [E|E]; cbn [negb mbind result_bind].
  - intros Hg. apply Z.eqb_neq in Hg. by rewrite Hg.
  - intros _. destruct Hone as [? | ->]; [done|]. cbn. by destruct (notifyTouch _ _ _ _ _).
Qed.

End WithDriver.

(** With faults handled one at a time, every segment left open allows the access. *)
Section OneAtATime.
Context {D P : Type} `{StorageDriver D} `{TrackingPolicy P}.
Abbreviation W := (World D P).

(** An open segment can be accessed. *)
Lemma world_permitted w mid mo x b :
  world_inv [] w → w_mappings w !! mid = Some mo →
  let m := mo_mapping mo in
  0 ≤ x < m_size m → mapped (status_at m (x / segmentSize m)) = true →
  dirty (status_at m (x / segmentSize m)) = b → permitted (w_vm w) b (baseAddress m + x) = true.
Proof.
  intros Hw Hmo m Hx Hm Hd. destruct (wo_mapping _ _ Hw mid mo Hmo) as [(d & _ & Hinv) _].
  fold m in Hinv. pose proof (wg_size _ (mi_geom _ _ _ Hinv)).
  pose proof (mi_bytes _ _ _ Hinv x ltac:(lia)) as Hb.
  unfold byte_inv, strict, one_fault_at_a_time in Hb. rewrite Hm, Hd in Hb. unfold permitted. destruct b; tauto.
Qed.

Lemma handleFault_ok fuel got w mid mo p x isWrite :
  world_inv [] w → w_mappings w !! mid = Some mo →
  let m := mo_mapping mo in
  w_policies w !! policy_of m = Some p →
  0 ≤ x < m_size m → fresh_temp m got →
  (∀ mid' mo', w_mappings w !! mid' = Some mo' → outside (mo_mapping mo') (temp_area m got)) →
  protection m ≠ PROT_NONE_bits → (isWrite = true → p_write (protection m) = true) →
  permitted (w_vm w) isWrite (baseAddress m + x) = false →
  segmentSize m ≤ dynamicMaxMemory (pol_base p) → policyQuota (pol_base p) = 0 →
  (S (length (all_elems (pol_base p))) < fuel)%nat →
  handleFault fuel got w mid (baseAddress m + x) isWrite = Err tooMany ∨
  ∃ w' p', handleFault fuel got w mid (baseAddress m + x) isWrite = Ok w' ∧
    world_inv [] w' ∧
    (∀ mid' y, world_view w' mid' y = world_view w mid' y) ∧
    permitted (w_vm w') isWrite (baseAddress m + x) = true ∧
    keep_mappings w w' ∧ w_policies w' = <[policy_of m := p']> (w_policies w) ∧
    pol_base p' = pol_base p ∧ resident w' p' ≤ pol_getCurrentMemory p' ∧
    pol_getCurrentMemory p' ≤ dynamicMaxMemory (pol_base p).
Proof.
  intros Hw Hmo m Hp Hx Hgot HT Hprot Hwr Hacc Hlim Hq Hfuel.
  destruct (wo_mapping _ _ Hw mid mo Hmo) as [(d & Hd & Hinv) Hone]. fold m in Hinv, Hone.
  destruct (wo_policy _ _ Hw _ _ Hp) as (Hpid & _).
  destruct (fault_opens m (w_vm w) d got x isWrite Hinv Hx Hgot Hprot Hwr Hacc)
    as (m1 & v1 & Hrun & Hk & _ & Hst & Hother).
  pose proof (mi_geom _ _ _ Hinv) as Hg. pose proof (wg_size _ Hg).
  assert (Hid : 0 ≤ x / segmentSize m < segments m) by (apply segment_lt; [done|lia]).
  set (id := x / segmentSize m) in *. set (w1 := set_mapping w mid mo m1 v1 d).
  assert (Hw1 : world_inv [(mid, id)] w1).
  { eapply (step_inv []); eauto; [|intros ? ? ? []%elem_of_nil].
    intros i Hi Hm. destruct (decide (i = id)) as [->|Hne]; [right; left|left].
    rewrite Hother in Hm by done. split; [done|]. by apply not_elem_of_nil. }
  assert (Hv1 : ∀ mid' y, world_view w1 mid' y = world_view w mid' y) by (intros; eapply (step_view []); eauto).
  destruct (k_const _ _ _ _ _ _ _ Hk) as [l1 Hm1].
  destruct (notifyTouch_ok fuel w1 [(mid, id)] (policy_of m) p mid (mkMapObj m1 (mo_driver mo)) id)
    as [Herr|(w' & p' & m' & Hrun' & Hw' & Hv' & Hp' & Hb' & Hres & Hle & Hkeep & Hm' & [l' Hl'] & Hst')].
  { done. }
  { intros s ->%list_elem_of_singleton. done. }
  { cbn. by rewrite lookup_insert_eq. }
  { by subst m1. }
  { done. }
  { by subst m1. }
  { by subst m1. }
  { done. }
  { done. }
  - left. unfold handleFault. rewrite Hmo. cbn [deref mbind result_bind]. rewrite Hd.
    cbn [deref mbind result_bind]. fold m. rewrite Hrun. cbn [mbind result_bind]. fold w1.
    by rewrite one_policy.
  - right. exists w', p'. split.
    { unfold handleFault. rewrite Hmo. cbn [deref mbind result_bind]. rewrite Hd.
      cbn [deref mbind result_bind]. fold m. rewrite Hrun. cbn [mbind result_bind]. fold w1.
      by rewrite one_policy. }
    split; [done|]. split; [intros; by rewrite Hv'|]. split; [|split; [|done]].
    2: { eapply keep_mappings_trans; [by eapply (set_mapping_keep w mid mo)|exact Hkeep]. }
    pose proof (world_permitted w' mid _ x isWrite Hw' Hm') as Hperm. cbn in Hperm, Hl', Hst'.
    subst m' m1. cbn in Hperm. apply Hperm; [done| |]; fold m id; rewrite Hst', Hst; done.
Qed.

(** C5: memory stays within the limit.  When the program touches a byte of a mapping
    attached to a policy whose limit is at least one segment (and that has no quota),
    the fault handler either stops because 128 segments or more would have to be
    evicted, or returns with: the access now allowed, every byte of every mapping of
    the process unchanged for the program, the invariant of the process kept, and the
    memory of the mapped segments of all the mappings of that policy within its
    limit. *)
Theorem fault_keeps_memory_within_limit fuel got w mid mo p x isWrite :
  world_inv [] w → w_mappings w !! mid = Some mo →
  let m := mo_mapping mo in
  w_policies w !! policy_of m = Some p →
  0 ≤ x < m_size m → fresh_temp m got →
  (∀ mid' mo', w_mappings w !! mid' = Some mo' → outside (mo_mapping mo') (temp_area m got)) →
  protection m ≠ PROT_NONE_bits → (isWrite = true → p_write (protection m) = true) →
  permitted (w_vm w) isWrite (baseAddress m + x) = false →
  segmentSize m ≤ dynamicMaxMemory (pol_base p) → policyQuota (pol_base p) = 0 →
  (S (length (all_elems (pol_base p))) < fuel)%nat →
  handleFault fuel got w mid (baseAddress m + x) isWrite = Err tooMany ∨
  ∃ w' p', handleFault fuel got w mid (baseAddress m + x) isWrite = Ok w' ∧
    world_inv [] w' ∧
    (∀ mid' y, world_view w' mid' y = world_view w mid' y) ∧
    permitted (w_vm w') isWrite (baseAddress m + x) = true ∧
    w_policies w' !! policy_of m = Some p' ∧
    resident w' p' ≤ pol_getCurrentMemory p' ∧
    pol_getCurrentMemory p' ≤ dynamicMaxMemory (pol_base p).
Proof.
  intros Hw Hmo m Hp Hx Hgot HT Hprot Hwr Hacc Hlim Hq Hfuel.
  destruct (handleFault_ok fuel got w mid mo p x isWrite) as
    [Herr|(w' & p' & Hrun & Hw' & Hv' & Hperm & _ & Hpol & _ & Hres)]; [done..|by left|right].
  exists w', p'. rewrite Hpol, lookup_insert_eq. done.
Qed.
End OneAtATime.

(** ** A concrete process

    The mapping of [MappingSpec.demo] under a local FIFO policy of one page. *)
Section Demo.
(** A mapping given its policies. *)
Definition attach (m : Mapping) (l g : Z) : Mapping :=
  mkMapping l g (protection m) (baseAddress m) (segments m) (segmentSize m) (m_size m)
    (storageOffset m) (segmentStatus m) (mappingDriverId m) (segmentMutexesCnt m) (threadSafe m).

Lemma attach_inv {D} `{StorageDriver D} m l g v (d : D) :
  mapping_inv m v d → mapping_inv (attach m l g) v d.
Proof. intros [Hg Hd Hc Hb]. split; [destruct Hg; by split|done|done|]. exact Hb. Qed.

Definition demo_fifo : heap * FifoPolicy.FifoPolicy :=
  let '(h, p) := FifoPolicy.newFifoPolicy ∅ 100 108 4096 true in
  match FifoPolicy.allocateElementStorage (λ _, 4096) h p 7 2 1024 with
  | Ok s => s
  | Err _ => (h, p)
  end.

Definition demo_world : World MemoryDriver FifoPolicy.FifoPolicy :=
  mkWorld (fst demo_fifo) demo_v {[7 := mkMapObj (attach demo_m 100 0) 1]} {[1 := demo_driver]}
    {[100 := snd demo_fifo]} ∅.

Definition demo_entry : PolicyStorage := mkStorage 7 1024 2 16 0.

Lemma demo_fifo_inv : pol_inv (segment_size_of demo_world) (fst demo_fifo) (snd demo_fifo) [].
Proof.
  split.
  - apply (pool_intro _ _ [1024; 1040]); apply (bool_decide_unpack _); vm_compute; exact I.
  - eapply (wf_single _ _ demo_entry); [reflexivity|split; vm_compute; congruence|reflexivity].
  - reflexivity.
Qed.

Lemma demo_world_inv : world_inv [] demo_world.
Proof.
  assert (Hm : ∀ mid mo, w_mappings demo_world !! mid = Some mo →
    mid = 7 ∧ mo = mkMapObj (attach demo_m 100 0) 1).
  { intros mid mo. cbn. rewrite lookup_singleton_Some. intros [<- <-]. done. }
  destruct demo_fields as (_ & Hs & _ & _ & _ & _ & Hst & _). split.
  - intros mid mo [-> ->]%Hm. split; [|by right]. exists demo_driver. split; [reflexivity|].
    apply attach_inv, demo_inv.
  - intros mid mid' mo mo' [-> _]%Hm [-> _]%Hm. done.
  - intros mid mid' mo mo' a [-> _]%Hm [-> _]%Hm. done.
  - intros pid p. cbn. rewrite lookup_singleton_Some. intros [<- <-]. split; [done|]. split; [split|].
    + intros st Hin. apply list_elem_of_singleton in Hin as ->. eexists. split; [reflexivity|].
      split; [reflexivity|]. cbn. by rewrite Hs.
    + intros mid mo [-> _]%Hm _. exists demo_entry. reflexivity.
    + exists []. split; [exact demo_fifo_inv|]. intros mid mo i [-> ->]%Hm _ Hi Hmap. exfalso.
      cbn in Hi, Hmap. rewrite Hs in Hi. revert Hmap. unfold status_at. cbn. rewrite Hst.
      assert (i = 0 ∨ i = 1) as [-> | ->] by lia; done.
  - intros pid pid' p p' x. cbn. rewrite !lookup_singleton_Some. intros [<- <-] [<- <-]. done.
Qed.
End Demo.

Lemma fault_keeps_memory_within_limit_witness :
  handleFault 10 (Some 1048576) demo_world 7 (65536 + 5) true = Err tooMany ∨
  ∃ w' p', handleFault 10 (Some 1048576) demo_world 7 (65536 + 5) true = Ok w' ∧
    world_inv [] w' ∧ w_policies w' !! 100 = Some p' ∧ resident w' p' ≤ 4096.
Proof.
  destruct demo_fields as (Hb & Hs & Hss & Hsz & _ & Hp & _).
  destruct (fault_keeps_memory_within_limit 10 (Some 1048576) demo_world 7
    (mkMapObj (attach demo_m 100 0) 1) (snd demo_fifo) 5 true demo_world_inv)
    as [H|(w' & p' & H1 & H2 & _ & _ & H3 & H4 & H5)].
  - reflexivity.
  - reflexivity.
  - cbn. rewrite Hsz. lia.
  - exact demo_temp.
  - intros mid mo. cbn. rewrite lookup_singleton_Some. intros [<- <-]. exact (proj2 demo_temp).
  - cbn. rewrite Hp. done.
  - cbn. by rewrite Hp.
  - destruct demo_inv as [_ _ _ Hbytes]. specialize (Hbytes 5). rewrite Hs, Hss in Hbytes.
    specialize (Hbytes ltac:(lia)).
    replace (status_at demo_m (5 / 4096)) with (mkStatus false false true) in Hbytes by (vm_compute; reflexivity).
    apply Hbytes.
  - cbn. rewrite Hss. vm_compute. congruence.
  - reflexivity.
  - vm_compute. lia.
  - left. cbn in H. rewrite Hb in H. exact H.
  - right. exists w', p'. cbn in H1, H3. rewrite Hb in H1. split; [exact H1|]. split; [exact H2|].
    split; [exact H3|]. change (dynamicMaxMemory (pol_base (snd demo_fifo))) with 4096 in H5. lia.
Defined.
