(* ===== verification/QuotaSpec.v ===== *)
(** * What a local quota promises (src/src/core/PolicyQuotaLocal.cpp)

    The reduction loop takes the policy that uses the most memory, lowers its limit
    half way to the average and shrinks it, until the policies fit together.  It ends
    for every tracking policy: each turn lowers the total.  It does not end for the
    FIFO window policy, whose [shrinkMemory] ignores the limit. *)

From S2P Require Import Prelude ListElement Policy PolicyInterface OS Driver Mapping MappingInv MappingSpec System SystemInv.

Section WithDriver.
Context {D P : Type} `{StorageDriver D} `{TrackingPolicy P}.
Abbreviation W := (World D P).

(** Memory of a policy, 0 if there is none at that address. *)
Definition mem_at (w : W) (pid : Z) : Z :=
  match w_policies w !! pid with Some p => pol_getCurrentMemory p | None => 0 end.
Definition total (w : W) (pids : list Z) : Z := sumZ (mem_at w) pids.

Lemma pol_memory_bound gs h p l : pol_inv gs h p l → 0 ≤ pol_getCurrentMemory p < SIZE_MOD.
Proof.
  intros Hi. rewrite (pol_memory _ _ _ _ Hi). pose proof (pol_wf _ _ _ _ Hi) as Hwf.
  destruct (pol_elems _ _ _ _ Hi) as [Hnd Hin]. split.
  - by apply mem_of_nonneg.
  - by apply mem_of_bound.
Qed.

Lemma mem_at_nonneg w pid : world_inv [] w → 0 ≤ mem_at w pid.
Proof.
  intros Hw. unfold mem_at. destruct (w_policies w !! pid) as [p|] eqn:Hp; [|lia].
  destruct (wo_policy _ _ Hw pid p Hp) as (_ & _ & l & Hl & _). by eapply pol_memory_bound.
Qed.

Lemma total_nonneg w pids : world_inv [] w → 0 ≤ total w pids.
Proof. intros Hw. apply sumZ_nonneg. intros. by apply mem_at_nonneg. Qed.

(** What the segments of many tracked elements weigh. *)
Lemma memory_of_many s w pid p l n :
  world_inv [] w → w_policies w !! pid = Some p → pol_inv (segment_size_of w) (w_heap w) p l →
  (∀ st, st ∈ storageRegistry (pol_base p) → s ≤ segment_size_of w (ps_mapping st)) →
  0 ≤ s → 0 ≤ n ≤ Z.of_nat (length l) → n * s ≤ pol_getCurrentMemory p.
Proof.
  intros Hw Hp Hl Hs Hs0 Hn. rewrite (pol_memory _ _ _ _ Hl).
  pose proof (pol_wf _ _ _ _ Hl) as Hwf. destruct (pol_elems _ _ _ _ Hl) as [_ Hin].
  assert (Hsum : Z.of_nat (length l) * s ≤ mem_of (segment_size_of w) (pol_base p) l).
  { clear Hn Hl. unfold mem_of. induction l as [|e l IH]; cbn [sumZ length]; [lia|].
    specialize (IH ltac:(intros x Hx; apply Hin; by right)).
    destruct (elem_of_all_elems (segment_size_of w) (pol_base p) e) as [He _].
    destruct (He (Hin e ltac:(by left))) as (st & Hst & (i & Hi & ->)%elem_of_storage_elems).
    rewrite (elt_size_element _ _ Hwf) by done. specialize (Hs st Hst). lia. }
  nia.
Qed.

(** ** Setting a limit and shrinking *)

Lemma set_limit_ok w pid p m :
  world_inv [] w → w_policies w !! pid = Some p →
  ∃ p', update_base w pid (λ b, Ok (setDynamicMaxMemory b m)) =
      Ok (set_policy w (w_heap w) pid p') ∧
    world_inv [] (set_policy w (w_heap w) pid p') ∧
    pol_base p' = setDynamicMaxMemory (pol_base p) m ∧
    pol_getCurrentMemory p' = pol_getCurrentMemory p.
Proof.
  intros Hw Hp. destruct (wo_policy _ _ Hw pid p Hp) as (_ & Hreg & l & Hl & Hcov).
  destruct (pol_reset _ _ _ _ (setDynamicMaxMemory (pol_base p) m) Hl eq_refl) as (Hl' & Hb & Hr & Hm).
  exists (pol_set_base p (setDynamicMaxMemory (pol_base p) m)).
  unfold update_base. rewrite Hp. cbn [deref mbind result_bind]. split; [done|].
  split; [|done]. eapply (policy_step []); [done|done|by rewrite Hb|by rewrite Hb|done|done|done| |].
  - unfold covers, tracked_in_list in *. rewrite Hb. exact Hcov.
  - intros ? ? ? []%elem_of_nil.
Qed.

Lemma shrink_ok fuel w pid p :
  world_inv [] w → w_policies w !! pid = Some p → 0 ≤ dynamicMaxMemory (pol_base p) →
  (length (all_elems (pol_base p)) < fuel)%nat →
  shrinkMemory fuel w pid = Err tooMany ∧
    (∃ l, pol_inv (segment_size_of w) (w_heap w) p l ∧ maxIdsToEvict ≤ Z.of_nat (length l)) ∨
  ∃ w' p', shrinkMemory fuel w pid = Ok w' ∧ world_inv [] w' ∧
    (∀ mid x, world_view w' mid x = world_view w mid x) ∧
    w_policies w' = <[pid := p']> (w_policies w) ∧ w_quotas w' = w_quotas w ∧ keep_mappings w w' ∧
    pol_base p' = pol_base p ∧ pol_getCurrentMemory p' ≤ dynamicMaxMemory (pol_base p).
Proof.
  intros Hw Hp Hmax Hfuel. destruct (wo_policy _ _ Hw pid p Hp) as (Hpid & Hreg & l & Hl & Hcov).
  pose proof (pol_wf _ _ _ _ Hl) as Hwf. pose proof (tracked_length _ _ _ _ Hl).
  unfold shrinkMemory. rewrite Hp. cbn [deref mbind result_bind].
  destruct (pol_shrink _ _ _ _ fuel Hl Hmax ltac:(lia)) as
    [[Herr Hmany]|(h' & p' & ks & vs & Hrun & Hb & Hr & Hl' & Hfr & Hperm & Hle)].
  { left. rewrite Herr. split; [done|by exists l]. }
  right. rewrite Hrun. cbn [mbind result_bind]. destruct (pol_elems _ _ _ _ Hl) as [Hnd Hin].
  rewrite Hperm in Hnd. apply NoDup_app in Hnd as (_ & _ & Hndv).
  destruct (victims_ids w pid p vs Hwf Hreg Hndv) as [Hnids Hids].
  { intros e He. apply Hin. rewrite Hperm. apply elem_of_app. by right. }
  assert (Hw1 : world_inv (elt_segment (pol_base p) <$> vs) (set_policy w h' pid p')).
  { eapply (policy_step []); [done|done|by rewrite Hb|by rewrite Hb|done|done|done| |intros ? ? ? []%elem_of_nil].
    pose proof (covers_split w [] [] pid p l ks vs None Hwf Hcov Hreg) as Hc.
    rewrite app_nil_r in Hc. unfold covers, tracked_in_list in *. rewrite Hb. apply Hc.
    - intros x Hx. by rewrite <- Hperm.
    - done.
    - intros ? ? []%elem_of_nil. }
  destruct (evictAll_ok pid _ _ Hpid Hnids Hw1 Hids) as (w' & -> & Hw' & Hv' & Hpols & _ & Hq & Hk).
  exists w', p'. do 5 (split; [done|]). split; [|done]. intros mid mo Hmo.
  destruct (Hk mid mo Hmo) as (m' & Hm' & [l' ->] & _). by exists l'.
Qed.

(** ** One turn of the loop *)

Section Turn.
Context (q : PolicyQuota) (w : W) (Hw : world_inv [] w).
Context (Hall : ∀ pid, pid ∈ q_policies q → ∃ p, w_policies w !! pid = Some p).
Context (Hfit : total w (q_policies q) < SIZE_MOD).

Lemma getCurrentMemory_ok pid : pid ∈ q_policies q → getCurrentMemory w pid = Ok (mem_at w pid).
Proof. intros Hin. unfold getCurrentMemory, mem_at. by destruct (Hall pid Hin) as [p ->]. Qed.

Lemma getUsedMemory_ok : getUsedMemory w q = Ok (total w (q_policies q)).
Proof.
  unfold getUsedMemory. pose proof getCurrentMemory_ok as Hmem.
  assert (Hgen : ∀ l acc, (∀ x, x ∈ l → x ∈ q_policies q) → 0 ≤ acc → acc + total w l < SIZE_MOD →
    foldM (λ totMem pid, mem ← getCurrentMemory w pid; Ok (totMem ⊕ mem)) acc l = Ok (acc + total w l)).
  { induction l as [|pid l IH]; intros acc Hl Hacc Hlt; cbn [foldM]; [unfold total; cbn; f_equal; lia|].
    rewrite Hmem by (apply Hl; left). cbn [mbind result_bind].
    change (total w (pid :: l)) with (mem_at w pid + total w l) in Hlt |- *.
    pose proof (mem_at_nonneg w pid Hw). pose proof (total_nonneg w l Hw).
    rewrite size_add by lia. rewrite IH; [f_equal; lia|intros; apply Hl; by right|lia|lia]. }
  rewrite Hgen; [done|done|lia|exact Hfit].
Qed.

Lemma findMax_ok : q_policies q ≠ [] →
  ∃ pid, findMax w q = Ok pid ∧ pid ∈ q_policies q ∧
    ∀ pid', pid' ∈ q_policies q → mem_at w pid' ≤ mem_at w pid.
Proof.
  intros Hne. unfold findMax. pose proof getCurrentMemory_ok as Hmem.
  assert (∃ first, head (q_policies q) = Some first ∧ first ∈ q_policies q) as (first & -> & Hfirst).
  { clear -Hne. destruct (q_policies q) as [|first rest]; [done|]. exists first. split; [done|left]. }
  cbn [deref mbind result_bind].
  assert (Hgen : ∀ l cur, (∀ x, x ∈ l → x ∈ q_policies q) → cur ∈ q_policies q →
    ∃ pid, foldM (λ polMax pid,
        a ← getCurrentMemory w pid; b ← getCurrentMemory w polMax;
        Ok (if b <? a then pid else polMax)) cur l = Ok pid ∧ pid ∈ q_policies q ∧
      mem_at w cur ≤ mem_at w pid ∧ ∀ x, x ∈ l → mem_at w x ≤ mem_at w pid).
  { induction l as [|x l IH]; intros cur Hl Hc; cbn [foldM].
    - exists cur. split; [done|]. split; [done|]. split; [lia|]. intros x []%elem_of_nil.
    - rewrite (Hmem x), (Hmem cur) by (done || apply Hl; left). cbn [mbind result_bind].
      set (nxt := if mem_at w cur <? mem_at w x then x else cur).
      destruct (IH nxt) as (pid & Hrun & Hin & Hcur & Hmax).
      + intros y Hy. apply Hl. by right.
      + subst nxt. destruct (_ <? _); [apply Hl; left|done].
      + exists pid. split; [done|]. split; [done|]. subst nxt.
        destruct (Z.ltb_spec (mem_at w cur) (mem_at w x)); split; try lia;
          intros y [->|Hy]%elem_of_cons; try lia; by apply Hmax. }
  destruct (Hgen (q_policies q) first) as (pid & Hrun & Hin & _ & Hmax); [done|done|].
  exists pid. done.
Qed.

(** The largest policy is above the average when the total is above the limit. *)
Lemma largest_above_average pid :
  q_policies q ≠ [] → (∀ pid', pid' ∈ q_policies q → mem_at w pid' ≤ mem_at w pid) →
  q_staticMaxMemory q < total w (q_policies q) →
  q_staticMaxMemory q / Z.of_nat (length (q_policies q)) < mem_at w pid.
Proof.
  intros Hne Hmax Hgt.
  assert (Hle : total w (q_policies q) ≤ Z.of_nat (length (q_policies q)) * mem_at w pid).
  { unfold total. rewrite <- (sumZ_const (mem_at w pid)). clear -Hmax.
    induction (q_policies q) as [|x l IH]; cbn [sumZ]; [lia|].
    pose proof (Hmax x ltac:(left)). specialize (IH ltac:(intros; apply Hmax; by right)). lia. }
  apply Z.div_lt_upper_bound; [|lia]. clear -Hne. destruct (q_policies q); [done|cbn; lia].
Qed.
End Turn.

(** The policies of a quota exist and have room to be scanned with fuel [inner]. *)
Definition quota_ready (inner : nat) (w : W) (q : PolicyQuota) : Prop :=
  ∀ pid, pid ∈ q_policies q → ∃ p, w_policies w !! pid = Some p ∧
    (length (all_elems (pol_base p)) < inner)%nat.

(** Every segment the policies of the quota track has at least [s] bytes. *)
Definition segments_at_least (s : Z) (w : W) (q : PolicyQuota) : Prop :=
  ∀ pid p st, pid ∈ q_policies q → w_policies w !! pid = Some p → st ∈ storageRegistry (pol_base p) →
    s ≤ segment_size_of w (ps_mapping st).

(** Some policy of the quota uses as much as the segments of a full array of victims. *)
Definition many_segments (s : Z) (w : W) (q : PolicyQuota) : Prop :=
  ∃ pid, pid ∈ q_policies q ∧ maxIdsToEvict * s ≤ mem_at w pid.

(** Lowering one policy lowers the total. *)
Lemma total_decreases (f g : Z → Z) pid l :
  pid ∈ l → f pid < g pid → (∀ x, x ≠ pid → f x = g x) → sumZ f l < sumZ g l.
Proof.
  intros Hin Hlt Hsame.
  assert (Hle : ∀ x, f x ≤ g x).
  { intros x. destruct (decide (x = pid)) as [->|Hne]; [lia|]. rewrite Hsame by done. lia. }
  assert (Hsum : ∀ l, sumZ f l ≤ sumZ g l).
  { induction l0 as [|x l0 IH]; cbn [sumZ]; [lia|]. specialize (Hle x). lia. }
  induction l as [|x l IH]; [by apply elem_of_nil in Hin|]. cbn [sumZ].
  apply elem_of_cons in Hin as [->|Hin].
  - specialize (Hsum l). lia.
  - specialize (IH Hin). specialize (Hle x). lia.
Qed.

(** A turn keeps the arrays of the policies and the sizes of the segments. *)
Lemma turn_segments s w w1 w' q pid p p' m :
  world_inv [] w → segments_at_least s w q → w_policies w !! pid = Some p →
  w_mappings w1 = w_mappings w → keep_mappings w1 w' →
  w_policies w' = <[pid := p']> (w_policies w) → pol_base p' = setDynamicMaxMemory (pol_base p) m →
  segments_at_least s w' q.
Proof.
  intros Hw Hseg Hp Hm1 Hk Hpols Hb pid2 p2 st Hin2 Hp2 Hst.
  assert (∃ p0, w_policies w !! pid2 = Some p0 ∧ st ∈ storageRegistry (pol_base p0)) as (p0 & Hp0 & Hst0).
  { rewrite Hpols in Hp2. apply lookup_insert_Some in Hp2 as [[<- <-]|[_ Hp2]]; [|by exists p2].
    exists p. split; [done|]. by rewrite Hb in Hst. }
  specialize (Hseg pid2 p0 st Hin2 Hp0 Hst0).
  destruct (wo_policy _ _ Hw pid2 p0 Hp0) as (_ & [Hreg _] & _). destruct (Hreg st Hst0) as (mo & Hmo & _).
  rewrite <- Hm1 in Hmo. destruct (Hk _ mo Hmo) as [l Hl]. unfold segment_size_of in *. rewrite Hl.
  rewrite <- Hm1, Hmo in Hseg. exact Hseg.
Qed.

(** One turn: the total strictly decreases. *)
Lemma reduce_turn s inner w q :
  world_inv [] w → quota_ready inner w q → segments_at_least s w q → 0 ≤ s →
  total w (q_policies q) < SIZE_MOD → 0 ≤ q_staticMaxMemory q < total w (q_policies q) →
  let averageMem := q_staticMaxMemory q / Z.of_nat (length (q_policies q)) in
  ∃ pid, findMax w q = Ok pid ∧ getCurrentMemory w pid = Ok (mem_at w pid) ∧
    let limit := averageMem ⊕ (mem_at w pid ⊖ averageMem) / 2 in
    let turn := (w1 ← update_base w pid (λ b, Ok (setDynamicMaxMemory b limit)); shrinkMemory inner w1 pid) in
    turn = Err tooMany ∧ many_segments s w q ∨
    ∃ w', turn = Ok w' ∧ world_inv [] w' ∧ (∀ mid x, world_view w' mid x = world_view w mid x) ∧
      quota_ready inner w' q ∧ w_quotas w' = w_quotas w ∧ segments_at_least s w' q ∧
      (∀ pid', mem_at w' pid' ≤ mem_at w pid') ∧
      total w' (q_policies q) < total w (q_policies q).
Proof.
  intros Hw Hready Hseg Hs Hfit Hgt averageMem.
  assert (Hall : ∀ pid, pid ∈ q_policies q → ∃ p, w_policies w !! pid = Some p).
  { intros pid Hin. destruct (Hready pid Hin) as (p & Hp & _). eauto. }
  assert (Hne : q_policies q ≠ []) by (intros E; rewrite E in Hgt; cbn in Hgt; lia).
  destruct (findMax_ok q w Hall Hne) as (pid & Hmax & Hin & Hle). exists pid. split; [done|].
  split; [by eapply getCurrentMemory_ok|]. intros limit turn.
  pose proof (largest_above_average q w pid Hne Hle ltac:(lia)) as Habove. fold averageMem in Habove.
  destruct (Hready pid Hin) as (p & Hp & Hlen).
  assert (Hmp : mem_at w pid = pol_getCurrentMemory p) by (unfold mem_at; by rewrite Hp).
  destruct (wo_policy _ _ Hw pid p Hp) as (_ & _ & l & Hl & _).
  pose proof (pol_memory_bound _ _ _ _ Hl) as Hpb. rewrite <- Hmp in Hpb.
  assert (0 ≤ averageMem) by (apply Z.div_pos; [lia|]; destruct (q_policies q); [done|cbn; lia]).
  assert (Hlim : limit = averageMem + (mem_at w pid - averageMem) / 2 ∧ 0 ≤ limit < mem_at w pid).
  { subst limit. rewrite (size_sub (mem_at w pid)) by lia.
    pose proof (Z.div_le_upper_bound (mem_at w pid - averageMem) 2 (mem_at w pid - averageMem) ltac:(lia) ltac:(lia)).
    pose proof (Z.div_pos (mem_at w pid - averageMem) 2 ltac:(lia) ltac:(lia)).
    pose proof (Z.div_lt (mem_at w pid - averageMem) 2 ltac:(lia) ltac:(lia)).
    rewrite size_add by lia. lia. }
  subst turn. destruct (set_limit_ok w pid p limit Hw Hp) as (p1 & -> & Hw1 & Hb1 & Hm1).
  cbn [mbind result_bind].
  destruct (shrink_ok inner (set_policy w (w_heap w) pid p1) pid p1 Hw1) as
    [(Herr & l' & Hl' & Hmany)|(w' & p' & Hrun & Hw' & Hv' & Hpols & Hq' & Hk & Hb' & Hmem')].
  { cbn. by rewrite lookup_insert_eq. }
  { rewrite Hb1. cbn. lia. }
  { rewrite Hb1. exact Hlen. }
  { left. split; [done|]. exists pid. split; [done|]. rewrite Hmp, <- Hm1.
    eapply (memory_of_many s); [exact Hw1|cbn; by rewrite lookup_insert_eq|exact Hl'| |done|unfold maxIdsToEvict in *; lia].
    rewrite Hb1. intros st Hst. by apply (Hseg pid p st). }
  right. exists w'. split; [done|]. split; [done|]. split; [done|].
  cbn in Hpols. rewrite insert_insert_eq in Hpols. rewrite Hb1 in Hb', Hmem'. cbn in Hmem'.
  assert (mem_at w' pid < mem_at w pid ∧ ∀ x, x ≠ pid → mem_at w' x = mem_at w x) as [Hless Hsame].
  { split; [unfold mem_at at 1; rewrite Hpols, lookup_insert_eq; lia|].
    intros x Hx. unfold mem_at. by rewrite Hpols, lookup_insert_ne. }
  split.
  - intros pid2 Hin2. rewrite Hpols. destruct (decide (pid2 = pid)) as [->|Hne2].
    + rewrite lookup_insert_eq. exists p'. split; [done|]. by rewrite Hb'.
    + rewrite lookup_insert_ne by done. by apply Hready.
  - split; [done|]. split; [by apply (turn_segments s w (set_policy w (w_heap w) pid p1) w' q pid p p' limit)|]. split; [|by apply (total_decreases _ _ pid)].
    intros x. destruct (decide (x = pid)) as [->|Hx]; [lia|]. by rewrite Hsame.
Qed.

Lemma reduceLoop_ok s inner n w q :
  world_inv [] w → quota_ready inner w q → segments_at_least s w q → 0 ≤ s → total w (q_policies q) < SIZE_MOD →
  0 ≤ q_staticMaxMemory q → (Z.to_nat (total w (q_policies q)) < n)%nat →
  let averageMem := q_staticMaxMemory q / Z.of_nat (length (q_policies q)) in
  reduceLoop inner n w q averageMem (total w (q_policies q)) = Err tooMany ∧ many_segments s w q ∨
  ∃ w', reduceLoop inner n w q averageMem (total w (q_policies q)) = Ok w' ∧ world_inv [] w' ∧
    (∀ mid x, world_view w' mid x = world_view w mid x) ∧
    quota_ready inner w' q ∧ w_quotas w' = w_quotas w ∧
    total w' (q_policies q) ≤ q_staticMaxMemory q.
Proof.
  intros Hw Hready Hseg Hs Hfit Hmax Hn averageMem. revert w Hw Hready Hseg Hfit Hn.
  induction n as [|n IH]; intros w Hw Hready Hseg Hfit Hn; [lia|]. cbn [reduceLoop].
  destruct (Z.ltb_spec (q_staticMaxMemory q) (total w (q_policies q))) as [Hgt|Hle].
  - destruct (reduce_turn s inner w q Hw Hready Hseg Hs Hfit ltac:(lia)) as (pid & -> & Hmem & Hturn).
    cbn [mbind result_bind]. rewrite Hmem. cbn [mbind result_bind]. fold averageMem in Hturn.
    cbv zeta in Hturn. destruct (update_base w pid _) as [w1|e]; cbn [mbind result_bind] in Hturn |- *;
      [|destruct Hturn as [[? ?]|(? & ? & _)]; [left; split; [congruence|done]|done]].
    destruct Hturn as [[-> ?]|(w' & -> & Hw' & Hv' & Hready' & Hqs & Hseg' & Hsame & Hlt)]; [by left|]. cbn [mbind result_bind].
    pose proof (total_nonneg w' (q_policies q) Hw').
    rewrite (getUsedMemory_ok q w' Hw'); [|intros pid' Hin; destruct (Hready' pid' Hin) as (p & Hp & _); eauto|lia].
    cbn [mbind result_bind].
    destruct (IH w' Hw' Hready' Hseg' ltac:(lia) ltac:(lia)) as [(Herr & pid2 & Hin2 & Hmany)|(w2 & Hrun & Hw2 & Hv2 & Hr2 & Hq2 & Hle)].
    { left. split; [done|]. exists pid2. split; [done|]. specialize (Hsame pid2). lia. }
    right.
    exists w2. split; [done|]. split; [done|]. split; [intros; by rewrite Hv2|]. by rewrite Hq2.
  - right. exists w. done.
Qed.

(** [PolicyQuotaLocal::update], with what the quota needs to be updated again. *)
Lemma update_ok s fuel w qid q :
  world_inv [] w → w_quotas w !! qid = Some q → quota_ready fuel w q → segments_at_least s w q → 0 ≤ s →
  total w (q_policies q) < SIZE_MOD → 0 ≤ q_staticMaxMemory q →
  (Z.to_nat (total w (q_policies q)) < fuel)%nat →
  update fuel w qid = Err tooMany ∧ many_segments s w q ∨
  ∃ w', update fuel w qid = Ok w' ∧ world_inv [] w' ∧
    (∀ mid x, world_view w' mid x = world_view w mid x) ∧
    quota_ready fuel w' q ∧ w_quotas w' = w_quotas w ∧
    total w' (q_policies q) ≤ q_staticMaxMemory q.
Proof.
  intros Hw Hq Hready Hseg Hs Hfit Hmax Hfuel. unfold update. rewrite Hq. cbn [deref mbind result_bind].
  destruct (Z.eqb_spec (Z.of_nat (length (q_policies q))) 0) as [E|E].
  - right. exists w. do 5 (split; [done|]).
    destruct (q_policies q); [unfold total; cbn; lia|cbn in E; lia].
  - rewrite (getUsedMemory_ok q w Hw); [|intros pid Hin; destruct (Hready pid Hin) as (p & Hp & _); eauto|done].
    cbn [mbind result_bind]. by apply (reduceLoop_ok s).
Qed.

(** C14: [PolicyQuotaLocal::update] ends and does its job.  With tracking policies whose
    segments have at least [s] bytes, the loop ends within the number of turns given by
    the total memory, with the policies of the quota using together no more than its
    limit and every byte of every mapping unchanged for the program.  The library can
    only stop in it (a policy would have to evict 128 segments or more at once) when one
    policy uses the memory of 128 such segments or more. *)
Theorem quota_update_reaches_limit s fuel w qid q :
  world_inv [] w → w_quotas w !! qid = Some q → quota_ready fuel w q →
  segments_at_least s w q → 0 ≤ s →
  total w (q_policies q) < SIZE_MOD → 0 ≤ q_staticMaxMemory q →
  (Z.to_nat (total w (q_policies q)) < fuel)%nat →
  update fuel w qid = Err tooMany ∧ (∃ pid, pid ∈ q_policies q ∧ maxIdsToEvict * s ≤ mem_at w pid) ∨
  ∃ w', update fuel w qid = Ok w' ∧ world_inv [] w' ∧
    (∀ mid x, world_view w' mid x = world_view w mid x) ∧
    total w' (q_policies q) ≤ q_staticMaxMemory q.
Proof.
  intros Hw Hq Hready Hseg Hs Hfit Hmax Hfuel.
  destruct (update_ok s fuel w qid q Hw Hq Hready Hseg Hs Hfit Hmax Hfuel)
    as [?|(w' & H1' & H2' & H3' & _ & _ & H4')]; [by left|right]. by exists w'.
Qed.
End WithDriver.

(** ** FIFO window policies never shrink *)

Section Window.
Context {D : Type} `{DriverOps D}.
Abbreviation WW := (World D FifoWindowPolicy.FifoWindowPolicy).

Lemma window_memory_size (p : FifoWindowPolicy.FifoWindowPolicy) :
  0 ⊕ FifoWindowPolicy.getCurrentMemory p = FifoWindowPolicy.getCurrentMemory p.
Proof. rewrite Z.add_0_l. apply wrap_small. unfold FifoWindowPolicy.getCurrentMemory. auto with ummap. Qed.

(** With the sliding window within its own limit, [shrinkMemory] changes nothing. *)
Lemma window_shrink_nothing inner (w : WW) pid p :
  w_policies w !! pid = Some p →
  FifoWindowPolicy.currentSlidingWindowMemory p ≤ FifoWindowPolicy.maxSlidingMemory p →
  shrinkMemory (S inner) w pid = Ok (set_policy w (w_heap w) pid p).
Proof.
  intros Hp Hle. unfold shrinkMemory. rewrite Hp. cbn. unfold FifoWindowPolicy.shrinkMemory. cbn [evictLoop].
  apply Z.ltb_ge in Hle. rewrite Hle. cbn. by destruct p.
Qed.

Lemma window_reduce_spins inner n (w : WW) q pid p averageMem :
  q_policies q = [pid] → w_policies w !! pid = Some p →
  FifoWindowPolicy.currentSlidingWindowMemory p ≤ FifoWindowPolicy.maxSlidingMemory p →
  q_staticMaxMemory q < FifoWindowPolicy.getCurrentMemory p →
  reduceLoop (S inner) n w q averageMem (FifoWindowPolicy.getCurrentMemory p) = Err OutOfFuel.
Proof.
  intros Hq Hp Hle Hgt. revert w p Hp Hle Hgt. induction n as [|n IH]; intros w p Hp Hle Hgt; [done|].
  cbn [reduceLoop]. apply Z.ltb_lt in Hgt as Hgt'. rewrite Hgt'.
  assert (Hmem : ∀ (w' : WW) p', w_policies w' !! pid = Some p' →
    getCurrentMemory w' pid = Ok (FifoWindowPolicy.getCurrentMemory p')).
  { intros w' p' Hp'. unfold getCurrentMemory. by rewrite Hp'. }
  assert (Hfind : findMax w q = Ok pid).
  { unfold findMax. rewrite Hq. cbn [head deref mbind result_bind foldM]. rewrite (Hmem w p Hp).
    cbn [mbind result_bind]. by rewrite Z.ltb_irrefl. }
  rewrite Hfind. cbn [mbind result_bind]. rewrite (Hmem w p Hp). cbn [mbind result_bind].
  set (limit := averageMem ⊕ _). unfold update_base. rewrite Hp. cbn [deref mbind result_bind].
  set (p1 := pol_set_base p (setDynamicMaxMemory (pol_base p) limit)).
  set (w1 := set_policy w (w_heap w) pid p1).
  assert (Hp1 : w_policies w1 !! pid = Some p1) by (cbn; by rewrite lookup_insert_eq).
  rewrite (window_shrink_nothing inner w1 pid p1 Hp1 Hle). cbn [mbind result_bind].
  set (w2 := set_policy w1 _ pid p1).
  assert (Hp2 : w_policies w2 !! pid = Some p1) by (cbn; by rewrite lookup_insert_eq).
  unfold getUsedMemory. rewrite Hq. cbn [foldM]. rewrite (Hmem w2 p1 Hp2). cbn [mbind result_bind].
  rewrite window_memory_size. apply IH; done.
Qed.

(** C35: a quota never comes back from [update] when its only policy is a FIFO window
    policy that uses more than the quota allows while its sliding window is within its
    own limit: the limit the quota sets is not the one the policy obeys. *)
Theorem quota_update_spins_on_window fuel (w : WW) qid q pid p :
  w_quotas w !! qid = Some q → q_policies q = [pid] → w_policies w !! pid = Some p →
  FifoWindowPolicy.currentSlidingWindowMemory p ≤ FifoWindowPolicy.maxSlidingMemory p →
  q_staticMaxMemory q < FifoWindowPolicy.getCurrentMemory p →
  update fuel w qid = Err OutOfFuel.
Proof.
  intros Hq Hpols Hp Hle Hgt. unfold update. rewrite Hq. cbn [deref mbind result_bind].
  rewrite Hpols at 1. cbn [length Z.of_nat Z.eqb Pos.of_succ_nat].
  unfold getUsedMemory. rewrite Hpols at 1. cbn [foldM]. unfold getCurrentMemory. rewrite Hp.
  cbn [deref mbind result_bind]. cbn [pol_getCurrentMemory Window_ops]. rewrite window_memory_size.
  destruct fuel as [|fuel]; [done|]. by apply (window_reduce_spins fuel (S fuel) w q pid p).
Qed.
End Window.

(** ** Concrete quotas *)

(** The process of [SystemInv], with room for its two pages, both written. *)
Definition demo_quota : PolicyQuota := mkQuota 4096 [100].
Definition wide_base : Policy := setDynamicMaxMemory (FifoPolicy.base (snd demo_fifo)) 8192.
Abbreviation DW := (World MemoryDriver FifoPolicy.FifoPolicy).
Definition demo_touch (w : DW) (x : Z) : result DW := handleFault 10 (Some 1048576) w 7 (65536 + x) true.
Definition demo_filled : result DW :=
  w ← update_base demo_world 100 (λ b, Ok (setDynamicMaxMemory b 8192)); w ← demo_touch w 5; demo_touch w 5000.

Record demo_like (w : DW) : Prop := {
  dl_inv : world_inv [] w;
  dl_mapping : ∃ l, w_mappings w !! 7 = Some (mkMapObj (set_segmentStatus (attach demo_m 100 0) l) 1);
  dl_policy : ∃ p, w_policies w !! 100 = Some p ∧ FifoPolicy.base p = wide_base;
}.

(** What is left to compute before a touch. *)
Definition can_touch (x : Z) (w : DW) : bool :=
  bool_decide (dom (w_mappings w) = ({[7]} : gset Z)) && negb (permitted (w_vm w) true (65536 + x)).

Lemma demo_touch_ok w x :
  demo_like w → can_touch x w = true → 0 ≤ x < 6000 → is_ok (demo_touch w x) = true →
  ∃ w', demo_touch w x = Ok w' ∧ demo_like w'.
Proof.
  intros [Hw [l Hl] (p & Hp & Hb)] [Hdom%bool_decide_eq_true Hno%negb_true_iff]%andb_true_iff Hx Hok.
  destruct demo_fields as (Hba & Hs & Hss & Hsz & _ & Hpr & _). unfold demo_touch in *.
  destruct (handleFault_ok 10 (Some 1048576) w 7 _ p x true Hw Hl) as
    [Herr|(w' & p' & Hrun & Hw' & _ & _ & Hk & Hpols & Hb' & _)]; cbn; rewrite ?Hba, ?Hs, ?Hss, ?Hsz, ?Hpr; try done.
  - exact demo_temp.
  - intros mid mo Hmo. assert (mid ∈ dom (w_mappings w)) as Hin by (by apply elem_of_dom).
    rewrite Hdom in Hin. apply elem_of_singleton in Hin as ->. rewrite Hl in Hmo. injection Hmo as <-.
    exact (proj2 demo_temp).
  - cbn. by rewrite Hb.
  - cbn. by rewrite Hb.
  - cbn. rewrite Hb. vm_compute. lia.
  - cbn in Herr. rewrite Hba in Herr. by rewrite Herr in Hok.
  - cbn in Hrun, Hpols. rewrite Hba in Hrun. exists w'. split; [done|]. split; [done| |].
    + destruct (Hk 7 _ Hl) as [l' Hl']. by exists l'.
    + exists p'. rewrite Hpols, lookup_insert_eq. split; [done|]. cbn in Hb'. by rewrite Hb'.
Qed.

Lemma fmap_result_inv {A B} (f : A → B) r b : f <$> r = Ok b → ∃ x, r = Ok x ∧ f x = b.
Proof. destruct r as [x|]; intros E; [|discriminate E]. injection E as E. by exists x. Qed.

Lemma demo_filled_ok : ∃ w, demo_filled = Ok w ∧ demo_like w ∧ mem_at w 100 = 8192.
Proof.
  destruct (set_limit_ok demo_world 100 (snd demo_fifo) 8192 demo_world_inv eq_refl) as (p0 & E0 & Hw0 & Hb0 & _).
  set (w0 := set_policy demo_world (w_heap demo_world) 100 p0) in *.
  set (start := update_base demo_world 100 _) in E0.
  assert (Hd : demo_like w0).
  { split; [exact Hw0|exists (segmentStatus demo_m); reflexivity|]. exists p0. split; [|exact Hb0].
    apply lookup_insert_eq. }
  assert (can_touch 5 <$> start = Ok true) as (w & E & Hc1)%fmap_result_inv by (vm_compute; reflexivity).
  assert (E' : w = w0) by congruence. subst w.
  assert (can_touch 5000 <$> (w ← start; demo_touch w 5) = Ok true) as (w1 & E1 & Hc2)%fmap_result_inv
    by (vm_compute; reflexivity).
  assert ((λ w, mem_at w 100) <$> demo_filled = Ok 8192) as (w2 & E2 & Hmem)%fmap_result_inv by (vm_compute; reflexivity).
  exists w2. split; [done|]. split; [|done]. unfold demo_filled in E2. fold start in E2.
  rewrite E0 in E1, E2. change (demo_touch w0 5 = Ok w1) in E1. change ((w ← demo_touch w0 5; demo_touch w 5000) = Ok w2) in E2.
  rewrite E1 in E2. change (demo_touch w1 5000 = Ok w2) in E2.
  destruct (demo_touch_ok w0 5 Hd Hc1 ltac:(lia)) as (w1' & E1' & Hd1); [by rewrite E1|].
  assert (w1' = w1) as -> by congruence.
  destruct (demo_touch_ok w1 5000 Hd1 Hc2 ltac:(lia)) as (w2' & E2' & Hd2); [by rewrite E2|].
  by assert (w2' = w2) as <- by congruence.
Qed.

Lemma quota_update_reaches_limit_witness :
  ∃ w w', demo_filled = Ok w ∧ total w [100] = 8192 ∧
    update (Z.to_nat 10000) (set_quota w 200 demo_quota) 200 = Ok w' ∧ total w' [100] ≤ 4096.
Proof.
  destruct demo_filled_ok as (w & Hrun & [Hw [l Hl] (p & Hp & Hb)] & Hmem).
  assert (Ht : total w [100] = 8192) by (unfold total; cbn [sumZ]; lia).
  exists w. destruct (quota_update_reaches_limit 4096 (Z.to_nat 10000) (set_quota w 200 demo_quota) 200 demo_quota)
    as [(_ & pid & Hin & Hmany)|(w' & Hup & _ & _ & Htot)].
  - destruct Hw. split; done.
  - apply lookup_insert_eq.
  - intros pid ->%list_elem_of_singleton. exists p. split; [exact Hp|]. cbn. rewrite Hb. vm_compute. lia.
  - intros pid p2 st ->%list_elem_of_singleton Hp2 Hst. change (w_policies w !! 100 = Some p2) in Hp2.
    rewrite Hp in Hp2. injection Hp2 as <-. cbn in Hst. rewrite Hb in Hst. vm_compute in Hst. apply list_elem_of_singleton in Hst as ->.
    unfold segment_size_of. cbn [w_mappings set_quota ps_mapping]. rewrite Hl. vm_compute. congruence.
  - lia.
  - change (total w [100] < SIZE_MOD). rewrite Ht. reflexivity.
  - cbn. lia.
  - change (Z.to_nat (total w [100%Z]) < Z.to_nat 10000)%nat. rewrite Ht. apply Z2Nat.inj_lt; lia.
  - apply list_elem_of_singleton in Hin as ->. change (128 * 4096 ≤ mem_at w 100) in Hmany. lia.
  - exists w'. split; [exact Hrun|]. split; [exact Ht|]. split; [exact Hup|exact Htot].
Defined.

(** Two touched segments of [FifoWindowPolicy.demo_run] under a quota of one page. *)
Definition demo_window_world : World MemoryDriver FifoWindowPolicy.FifoWindowPolicy :=
  mkWorld (fst (FifoWindowPolicy.demo_state [0; 1])) demo_vm ∅ ∅
    {[100 := snd (FifoWindowPolicy.demo_state [0; 1])]} {[200 := demo_quota]}.

Lemma quota_update_spins_on_window_witness :
  update 1000 demo_window_world 200 = Err OutOfFuel.
Proof.
  apply (quota_update_spins_on_window 1000 demo_window_world 200 demo_quota 100
    (snd (FifoWindowPolicy.demo_state [0; 1]))).
  - reflexivity.
  - reflexivity.
  - reflexivity.
  - vm_compute. congruence.
  - vm_compute. reflexivity.
Defined.
