(* ===== verification/GlobalHandler.v ===== *)
(** * The global handler (src/src/core/GlobalHandler.cpp)

    The entry points of the library: it finds the mapping of an address in the
    registry and calls it.  The state is the two registries and the process.  The
    inter-process quota flags around a fault are in [PolicyQuotaInterProc]. *)

From S2P Require Import Prelude ListElement Policy PolicyInterface OS Driver Mapping MappingInv MappingSpec System SystemInv Registry.

Record GlobalHandler (D P : Type) := mkHandler {
  mappingRegistry : MappingRegistry;
  policyRegistry : PolicyRegistry;
  process : World D P;
}.
Arguments mkHandler {D P}.
Arguments mappingRegistry {D P}.
Arguments policyRegistry {D P}.
Arguments process {D P}.

Section Handler.
Context {D P : Type} `{DriverOps D} `{PolicyOps P}.
Abbreviation G := (GlobalHandler D P).

Definition set_process (g : G) (w : World D P) : G :=
  mkHandler (mappingRegistry g) (policyRegistry g) w.

(** The mapping of an address, with the error of the operations that need one. *)
Definition findMapping (g : G) (ptr : Z) : result (Z * MapObj) :=
  mid ← Registry.getMapping (mappingRegistry g) ptr;
  assume (negb (mid =? 0)) "Fail to find ummap mapping to unmap";;
  mo ← deref (w_mappings (process g) !! mid);
  Ok (mid, mo).

Definition getMapping (g : G) (addr : Z) (crashOnNotFound : bool) : result Z :=
  assume (negb (addr =? 0)) "Get an invalid NULL address to get access to a mapping !";;
  mid ← Registry.getMapping (mappingRegistry g) addr;
  (if crashOnNotFound
   then assume (negb (mid =? 0)) "Fail to find the requested mapping for address" else Ok tt);;
  Ok mid.

Definition registerMapping (g : G) (mapping : Z) : result G :=
  mo ← deref (w_mappings (process g) !! mapping);
  r ← Registry.registerMapping (mappingRegistry g) mapping
        (getAddress (mo_mapping mo)) (getSize (mo_mapping mo));
  Ok (mkHandler r (policyRegistry g) (process g)).

Definition unregisterMapping (g : G) (mapping : Z) : result G :=
  r ← Registry.unregisterMapping (mappingRegistry g) mapping;
  Ok (mkHandler r (policyRegistry g) (process g)).

Definition registerPolicy (g : G) (name : string) (policy : Z) : result G :=
  r ← Registry.registerPolicy (policyRegistry g) name policy;
  Ok (mkHandler (mappingRegistry g) r (process g)).

Definition unregisterPolicy (fuel : nat) (g : G) (name : string) : result G :=
  '(policy, r) ← Registry.unregisterPolicy (policyRegistry g) name;
  w ← (if policy =? 0 then Ok (process g) else destroyPolicy fuel (process g) policy);
  Ok (mkHandler (mappingRegistry g) r w).

Definition getPolicy (g : G) (name : string) (nullNotFound : bool) : result Z :=
  Registry.get (policyRegistry g) name nullNotFound.

(** [deleteAllMappings]. *)
Definition deleteAllMappings (fuel : nat) (g : G) : result G :=
  w ← foldM (λ w it, destroyMapping fuel w (re_mapping it)) (process g) (mappingRegistry g);
  Ok (mkHandler [] (policyRegistry g) w).

(** [false]: the fault is not ours and goes to the previous handler. *)
Definition onSegFault (fuel : nat) (got : option Z) (g : G) (addr : Z) (isWrite : bool)
    : result (bool * G) :=
  mapping ← Registry.getMapping (mappingRegistry g) addr;
  if mapping =? 0 then Ok (false, g)
  else
    w ← handleFault fuel got (process g) mapping addr isWrite;
    Ok (true, set_process g w).

(** [new Mapping(NULL, ...)]: [addr] is not passed on.  [mid] is the address of the
    object, the other arguments are those of [createMapping]. *)
Definition ummap (cpus : Z) (got : option Z) (g : G) (addr size segmentSize storageOffset : Z)
    (protection : prot) (flags did localPolicy : Z) (policyGroup : string)
    (mid : Z) (alloc_l alloc_g : Z * Z) : result (Z * G) :=
  globalPolicy ← (if bool_decide (policyGroup = "none") then Ok 0
                  else Registry.get (policyRegistry g) policyGroup false);
  w ← createMapping cpus got (process g) mid did size segmentSize storageOffset protection flags
        localPolicy globalPolicy alloc_l alloc_g;
  g' ← registerMapping (set_process g w) mid;
  mo ← deref (w_mappings w !! mid);
  Ok (getAddress (mo_mapping mo), g').

(** An operation of [Mapping] on the mapping object [mid]. *)
Definition on_mapping (w : World D P) (mid : Z) (mo : MapObj)
    (f : Mapping → vm → D → result (Mapping * vm * D)) : result (World D P) :=
  d ← deref (w_drivers w !! mo_driver mo);
  '(m', v', d') ← f (mo_mapping mo) (w_vm w) d;
  Ok (set_mapping w mid mo m' v' d').

Definition uunmap (fuel : nat) (g : G) (ptr : Z) (sync : bool) : result G :=
  '(mid, mo) ← findMapping g ptr;
  g1 ← unregisterMapping g mid;
  w ← (if sync
       then on_mapping (process g1) mid mo (λ m v d, flush m v d 0 (getAlignedSize m) UMMAP_FLUSH_SYNC)
       else Ok (process g1));
  w' ← destroyMapping fuel w mid;
  Ok (set_process g1 w').

Definition makeDirty (g : G) (ptr : Z) : result G :=
  '(mid, mo) ← findMapping g ptr;
  w ← on_mapping (process g) mid mo (λ m v d, '(m', v') ← markCleanAsDirty m v; Ok (m', v', d));
  Ok (set_process g w).

Definition getDriver (g : G) (ptr : Z) : result Z :=
  '(_, mo) ← findMapping g ptr; Ok (mo_driver mo).

Definition skipFirstRead (g : G) (ptr : Z) : result G :=
  '(mid, mo) ← findMapping g ptr;
  w ← on_mapping (process g) mid mo (λ m v d, m' ← Mapping.skipFirstRead m; Ok (m', v, d));
  Ok (set_process g w).

(** The offset and the size [GlobalHandler::flush] computes. *)
Definition alignFlush (segmentSize offset size : Z) : Z * Z :=
  let '(offset, size) :=
    if negb (offset mod segmentSize =? 0) then
      let delta := offset ⊖ offset mod segmentSize in (offset ⊖ delta, size ⊕ delta)
    else (offset, size) in
  let size := if negb (size mod segmentSize =? 0)
              then size ⊕ (segmentSize ⊖ offset mod segmentSize) else size in
  (offset, size).

Definition flush (g : G) (ptr size : Z) (evict sync : bool) : result G :=
  '(mid, mo) ← findMapping g ptr;
  let m := mo_mapping mo in
  let offset := wrap (ptr - getAddress m) in
  let size := if size =? 0 then getAlignedSize m ⊖ offset else size in
  let '(offset, size) := alignFlush (getSegmentSize m) offset size in
  assume (ptr + size <=? getAddress m + getAlignedSize m)
    "Invalid flush size, not fit in ummap mapping !";;
  let flags := Z.lor (if sync then UMMAP_FLUSH_SYNC else 0) (if evict then UMMAP_FLUSH_UNMAP else 0) in
  w ← on_mapping (process g) mid mo (λ m v d, Mapping.flush m v d offset size flags);
  Ok (set_process g w).

(** ** Copy on write and switch *)

Inductive ummap_switch_clean_t : Type :=
  | UMMAP_NO_ACTION
  | UMMAP_DROP_CLEAN
  | UMMAP_MARK_CLEAN_DIRTY.

(** The template [applyCow<T>]: [cast] is the [dynamic_cast] of the driver to [T],
    [action] what the caller does with it; a status is returned. *)
Definition applyCow {T : Type} (cast : D → option T)
    (action : Mapping → vm → T → result (Z * (Mapping * vm * D))) (g : G) (addr : Z) : result (Z * G) :=
  cassert (negb (addr =? 0)) "addr != NULL";;
  mid ← getMapping g addr true;
  mo ← deref (w_mappings (process g) !! mid);
  d ← deref (w_drivers (process g) !! mo_driver mo);
  _ ← match cast d with
      | Some _ => Ok tt
      | None => Err (Fatal "Get an invalid unknown driver type, cannot COW !") end;
  '(m1, d1) ← unregisterRange (mo_mapping mo) d;
  t ← deref (cast d1);
  '(status, (m2, v2, d2)) ← action m1 (w_vm (process g)) t;
  '(m3, d3) ← registerRange m2 d2;
  Ok (status, set_process g (set_mapping (process g) mid mo m3 v2 d3)).

(** The template [applySwitch<T>]. *)
Definition applySwitch {T : Type} (cast : D → option T) (cleanAction : ummap_switch_clean_t)
    (action : T → result D) (g : G) (addr : Z) : result G :=
  cassert (negb (addr =? 0)) "addr != NULL";;
  mid ← getMapping g addr true;
  mo ← deref (w_mappings (process g) !! mid);
  d ← deref (w_drivers (process g) !! mo_driver mo);
  _ ← match cast d with
      | Some _ => Ok tt
      | None => Err (Fatal "Get an invalid unknown driver type, cannot COW !") end;
  '(m1, d1) ← unregisterRange (mo_mapping mo) d;
  t ← deref (cast d1);
  d2 ← action t;
  '(m3, d3) ← registerRange m1 d2;
  '(m4, v4) ← match cleanAction with
              | UMMAP_NO_ACTION => Ok (m3, w_vm (process g))
              | UMMAP_DROP_CLEAN => dropClean m3 (w_vm (process g))
              | UMMAP_MARK_CLEAN_DIRTY => markCleanAsDirty m3 (w_vm (process g))
              end;
  Ok (set_process g (set_mapping (process g) mid mo m4 v4 d3)).
End Handler.

(** [segfaultHandler]: bit 1 of the error code tells a write. *)
Definition fault_is_write (reg_err : Z) : bool := Z.shiftr (Z.land reg_err 2) 1 =? 1.

(** ** Invariant *)

Section Theorems.
Context {D P : Type} `{StorageDriver D} `{TrackingPolicy P}.
Abbreviation G := (GlobalHandler D P).

(** The process is well formed and its mappings are registered with their ranges. *)
Record handler_inv (g : G) : Prop := {
  hi_world : world_inv [] (process g);
  hi_registry : registry_inv (mappingRegistry g);
  hi_entries : ∀ e, e ∈ mappingRegistry g ↔
    ∃ mo, w_mappings (process g) !! re_mapping e = Some mo ∧
      re_base e = baseAddress (mo_mapping mo) ∧
      re_end e = baseAddress (mo_mapping mo) + m_size (mo_mapping mo);
}.

Lemma findMapping_ok g mid mo ptr :
  handler_inv g → w_mappings (process g) !! mid = Some mo →
  baseAddress (mo_mapping mo) ≤ ptr < baseAddress (mo_mapping mo) + m_size (mo_mapping mo) →
  Registry.getMapping (mappingRegistry g) ptr = Ok mid ∧ mid ≠ 0 ∧ findMapping g ptr = Ok (mid, mo).
Proof.
  intros [_ Hr He] Hmo Hptr.
  set (e := mkEntry mid (baseAddress (mo_mapping mo)) (baseAddress (mo_mapping mo) + m_size (mo_mapping mo))).
  assert (Hin : e ∈ mappingRegistry g) by (apply He; exists mo; done).
  pose proof (getMapping_found _ e ptr Hr Hin Hptr) as Hget. cbn in Hget.
  destruct (rg_null _ Hr e Hin) as [Hmid _]. cbn in Hmid.
  split; [done|]. split; [done|]. unfold findMapping. rewrite Hget. cbn [mbind result_bind].
  destruct (Z.eqb_spec mid 0); [done|]. cbn [negb assume mbind result_bind]. by rewrite Hmo.
Qed.

(** A change of the process that keeps its mappings and what they show. *)
Lemma set_process_inv g w' :
  handler_inv g → world_inv [] w' → keep_mappings (process g) w' →
  (∀ mid x, world_view w' mid x = world_view (process g) mid x) → handler_inv (set_process g w').
Proof.
  intros [Hw Hr He] Hw' Hkeep Hviews. split; [done|done|]. intros e. cbn. rewrite He. split.
  - intros (mo & Hmo & Hrest). destruct (Hkeep _ mo Hmo) as [l Hl]. by eexists.
  - intros (mo' & Hmo' & Hrest).
    destruct (keep_mappings_inv _ _ _ _ Hw' Hkeep Hviews Hmo') as (mo & Hmo & l & ->). by exists mo.
Qed.

(** A change of one mapping that keeps what it shows and opens no segment; [T] is scratch
    memory outside the mappings. *)
Lemma on_mapping_refits T g mid mo d m' v' d' :
  handler_inv g → w_mappings (process g) !! mid = Some mo →
  w_drivers (process g) !! mo_driver mo = Some d →
  refits T (mo_mapping mo) (w_vm (process g)) d m' v' d' →
  (∀ mid' mo', w_mappings (process g) !! mid' = Some mo' → outside (mo_mapping mo') T) →
  (∀ i, 0 ≤ i < segments (mo_mapping mo) → mapped (status_at m' i) = true →
     mapped (status_at (mo_mapping mo) i) = true) →
  handler_inv (set_process g (set_mapping (process g) mid mo m' v' d')) ∧
  ∀ mid' x, world_view (set_mapping (process g) mid mo m' v' d') mid' x = world_view (process g) mid' x.
Proof.
  intros Hg Hmo Hd Hk HT Hst. pose proof (hi_world _ Hg) as Hw.
  assert (Hviews : ∀ mid' x, world_view (set_mapping (process g) mid mo m' v' d') mid' x =
    world_view (process g) mid' x) by (intros; eapply (step_view []); eauto).
  split; [|exact Hviews]. destruct (r_const _ _ _ _ _ _ _ Hk) as [l Hl].
  apply set_process_inv; [done| |by eapply set_mapping_keep|exact Hviews].
  eapply (step_inv []); eauto.
  intros i Hi Hm. left. split; [by apply Hst|]. by apply not_elem_of_nil.
Qed.

Lemma on_mapping_keeps g mid mo d m' v' d' :
  handler_inv g → w_mappings (process g) !! mid = Some mo →
  w_drivers (process g) !! mo_driver mo = Some d →
  keeps (λ _, False) (mo_mapping mo) (w_vm (process g)) d m' v' d' →
  (∀ i, 0 ≤ i < segments (mo_mapping mo) → mapped (status_at m' i) = true →
     mapped (status_at (mo_mapping mo) i) = true) →
  handler_inv (set_process g (set_mapping (process g) mid mo m' v' d')) ∧
  ∀ mid' x, world_view (set_mapping (process g) mid mo m' v' d') mid' x = world_view (process g) mid' x.
Proof.
  intros Hg Hmo Hd Hk Hst. apply (on_mapping_refits (λ _, False) g mid mo d); [done|done|done|eauto| |done].
  by intros mid' mo' _ a Ha.
Qed.

(** ** Faults *)

(** C16: A segmentation fault reaches the mapping whose bytes contain the
    address, and only that one; a fault anywhere else leaves the library's state
    untouched and is reported as not ours.  The rest of the last segment, past the size
    of the mapping, counts as elsewhere. *)
Theorem segfault_reaches_its_mapping fuel got g addr isWrite :
  handler_inv g → addr ≠ 0 →
  (∀ mid mo, w_mappings (process g) !! mid = Some mo →
     baseAddress (mo_mapping mo) ≤ addr < baseAddress (mo_mapping mo) + m_size (mo_mapping mo) →
     onSegFault fuel got g addr isWrite =
       (λ w, (true, set_process g w)) <$> handleFault fuel got (process g) mid addr isWrite) ∧
  ((∀ mid mo, w_mappings (process g) !! mid = Some mo →
     ¬ (baseAddress (mo_mapping mo) ≤ addr < baseAddress (mo_mapping mo) + m_size (mo_mapping mo))) →
   onSegFault fuel got g addr isWrite = Ok (false, g)).
Proof.
  intros Hg Haddr. unfold onSegFault. split.
  - intros mid mo Hmo Hin. destruct (findMapping_ok g mid mo addr Hg Hmo Hin) as (-> & Hmid & _).
    cbn [mbind result_bind]. apply Z.eqb_neq in Hmid. rewrite Hmid.
    by destruct (handleFault fuel got (process g) mid addr isWrite).
  - intros Hno. rewrite getMapping_unknown; [reflexivity|exact Haddr|]. intros e He Hin.
    apply (hi_entries _ Hg) in He as (mo & Hmo & Hb & Hend). rewrite Hb, Hend in Hin. by apply (Hno _ mo Hmo).
Qed.

(** ** Flush *)

Lemma alignFlush_aligned ss lo n :
  0 < ss → alignFlush ss (lo * ss) (n * ss) = (lo * ss, n * ss).
Proof.
  intros Hss. unfold alignFlush. rewrite (Z.mod_mul lo ss) by lia. cbn [Z.eqb negb].
  by rewrite (Z.mod_mul n ss) by lia.
Qed.

(** The range a call on whole segments computes. *)
Lemma flush_range m lo n size :
  wf_geometry m → 0 ≤ lo < segments m → 0 < n → lo + n ≤ segments m →
  size = n * segmentSize m ∨ size = 0 ∧ lo + n = segments m →
  let ptr := baseAddress m + lo * segmentSize m in let offset := lo * segmentSize m in
  wrap (ptr - getAddress m) = offset ∧
  (if size =? 0 then getAlignedSize m ⊖ offset else size) = n * segmentSize m ∧
  alignFlush (getSegmentSize m) offset (n * segmentSize m) = (offset, n * segmentSize m) ∧
  (ptr + n * segmentSize m <=? getAddress m + getAlignedSize m) = true.
Proof.
  intros Hgeo Hlo Hn Hhi Hsize ptr offset. subst ptr offset.
  pose proof (geom_segmentSize m Hgeo) as Hss. pose proof (geom_segment m Hgeo lo Hlo) as Hoff.
  pose proof (wg_fits _ Hgeo). pose proof (wg_size _ Hgeo).
  unfold getAddress, getSegmentSize. rewrite (aligned_size m Hgeo). split; [|split; [|split]].
  - replace (baseAddress m + lo * segmentSize m - baseAddress m) with (lo * segmentSize m) by lia.
    apply wrap_small. unfold is_size. lia.
  - destruct Hsize as [-> | [-> E]]; [destruct (Z.eqb_spec (n * segmentSize m) 0); nia|].
    cbn. rewrite size_sub by lia. nia.
  - by apply alignFlush_aligned.
  - apply Z.leb_le. nia.
Qed.

(** The call reaches [Mapping::flush] of the segments, which changes one mapping. *)
Lemma flush_run g mid mo d lo n size evict sync :
  handler_inv g → w_mappings (process g) !! mid = Some mo →
  w_drivers (process g) !! mo_driver mo = Some d →
  let m := mo_mapping mo in
  0 ≤ lo < segments m → 0 < n → lo + n ≤ segments m →
  size = n * segmentSize m ∨ size = 0 ∧ lo + n = segments m →
  ∃ m' v' d', flush g (baseAddress m + lo * segmentSize m) size evict sync =
      Ok (set_process g (set_mapping (process g) mid mo m' v' d')) ∧
    keeps (λ _, False) m (w_vm (process g)) d m' v' d' ∧
    ∀ i, 0 ≤ i < segments m →
      if decide (lo ≤ i < lo + n) then flushed_status evict (status_at m i) (status_at m' i)
      else status_at m' i = status_at m i.
Proof.
  intros Hg Hmo Hd m Hlo Hn Hhi Hsize.
  destruct (wo_mapping _ _ (hi_world _ Hg) mid mo Hmo) as [(d0 & Hd0 & Hinv) _].
  assert (d0 = d) as -> by congruence. fold m in Hinv.
  pose proof (mi_geom _ _ _ Hinv) as Hgeo. pose proof (geom_segmentSize m Hgeo) as Hss.
  pose proof (geom_segment m Hgeo lo Hlo) as Hoff. pose proof (wg_fits _ Hgeo). pose proof (wg_size _ Hgeo).
  destruct (findMapping_ok g mid mo (baseAddress m + lo * segmentSize m) Hg Hmo ltac:(fold m; lia))
    as (_ & _ & Hfind).
  set (flags := Z.lor (if sync then UMMAP_FLUSH_SYNC else 0) (if evict then UMMAP_FLUSH_UNMAP else 0)).
  destruct (flush_ok m (w_vm (process g)) d Hinv lo n flags Hlo ltac:(lia) Hhi)
    as (m' & v' & d' & Hrun & Hk & Hst & _).
  assert (Hunmap : has_flag flags UMMAP_FLUSH_UNMAP = evict) by (by destruct evict, sync).
  exists m', v', d'. split; [|split; [exact Hk|by rewrite <- Hunmap]].
  unfold flush. rewrite Hfind. cbn [mbind result_bind]. fold m. fold flags.
  destruct (flush_range m lo n size Hgeo Hlo Hn Hhi Hsize) as (-> & -> & -> & ->). cbn [assume mbind result_bind].
  unfold on_mapping. rewrite Hd. cbn [deref mbind result_bind]. fold m. rewrite Hrun. reflexivity.
Qed.

(** C11: [umflush] of whole segments [lo .. lo+n) of a mapping ([size = 0]
    means up to the end) succeeds; the program reads the same bytes in every mapping;
    the segments are clean, unmapped if [evict] is set; and the storage of the mapping
    holds what the program reads there, for every segment ever read or written. *)
Theorem umflush_writes_back g mid mo d lo n size evict sync :
  handler_inv g → w_mappings (process g) !! mid = Some mo →
  w_drivers (process g) !! mo_driver mo = Some d →
  let m := mo_mapping mo in
  0 ≤ lo < segments m → 0 < n → lo + n ≤ segments m →
  size = n * segmentSize m ∨ size = 0 ∧ lo + n = segments m →
  ∃ g' m' d', flush g (baseAddress m + lo * segmentSize m) size evict sync = Ok g' ∧
    handler_inv g' ∧
    (∀ mid' x, world_view (process g') mid' x = world_view (process g) mid' x) ∧
    w_mappings (process g') !! mid = Some (mkMapObj m' (mo_driver mo)) ∧
    w_drivers (process g') !! mo_driver mo = Some d' ∧
    (∀ i, lo ≤ i < lo + n → dirty (status_at m' i) = false ∧
       mapped (status_at m' i) = (mapped (status_at m i) && negb evict)) ∧
    ∀ x, 0 ≤ x < m_size m → lo ≤ x / segmentSize m < lo + n →
      needRead (status_at m' (x / segmentSize m)) = true →
      content d' (storageOffset m + x) = view m (w_vm (process g)) d x.
Proof.
  intros Hg Hmo Hd m Hlo Hn Hhi Hsize.
  destruct (flush_run g mid mo d lo n size evict sync Hg Hmo Hd Hlo Hn Hhi Hsize)
    as (m' & v' & d' & Hrun & Hk & Hst). fold m in Hk, Hst.
  assert (Hfl : ∀ i, lo ≤ i < lo + n → flushed_status evict (status_at m i) (status_at m' i)).
  { intros i Hi. specialize (Hst i ltac:(lia)). by rewrite decide_True in Hst. }
  destruct (on_mapping_keeps g mid mo d m' v' d' Hg Hmo Hd Hk) as [Hg' Hview].
  { intros i Hi Hm. specialize (Hst i Hi). case_decide; [|by rewrite Hst in Hm].
    destruct Hst as (_ & Hst & _). rewrite Hst in Hm. by apply andb_true_iff in Hm as [? _]. }
  eexists _, m', d'. split; [exact Hrun|]. split; [exact Hg'|]. split; [exact Hview|].
  cbn. rewrite !lookup_insert_eq. split; [done|]. split; [done|].
  split; [intros i Hi; destruct (Hfl i Hi) as (H1' & H2' & _); done|].
  intros x Hx Hid Hnr. rewrite <- (k_view _ _ _ _ _ _ _ Hk x Hx).
  destruct (Hfl _ Hid) as (Hcl & _). destruct Hk as [Hi' _ [l ->] _ _].
  rewrite (clean_view _ v' d' x Hi' Hx Hcl). unfold backing. cbn in *. by rewrite Hnr.
Qed.

(** [Mapping::flush] refuses an offset or a size that is not a number of segments. *)
Lemma flush_refuses m v (d : D) offset size flags :
  offset mod segmentSize m ≠ 0 ∨ size mod segmentSize m ≠ 0 →
  ∃ msg, Mapping.flush m v d offset size flags = Err (Fatal msg).
Proof.
  intros Hun. unfold Mapping.flush. destruct (offset <? getSize m); [|by eexists]. cbn [assume mbind result_bind].
  destruct (offset ⊕ size <=? getAlignedSize m); [|by eexists]. cbn [assume mbind result_bind].
  destruct (Z.eqb_spec (offset mod segmentSize m) 0); [|by eexists]. cbn [assume mbind result_bind].
  destruct (Z.eqb_spec (size mod segmentSize m) 0); [|by eexists]. by destruct Hun.
Qed.

(** The alignment of [GlobalHandler::flush] never aligns. *)
Lemma alignFlush_unaligned ss offset size :
  0 < ss → is_size offset → offset mod ss ≠ 0 ∨ size mod ss ≠ 0 ∧ 0 ≤ size ∧ size + ss < SIZE_MOD →
  let '(offset', size') := alignFlush ss offset size in
  offset' mod ss ≠ 0 ∨ size' mod ss ≠ 0.
Proof.
  intros Hss Ho Hun. unfold alignFlush. pose proof (Z.mod_pos_bound offset ss Hss) as Hm.
  destruct (Z.eqb_spec (offset mod ss) 0) as [E|E]; cbn [negb].
  - destruct Hun as [?|(Hs & Hs0 & Hs1)]; [done|]. apply Z.eqb_neq in Hs as Hs'. rewrite Hs'. cbn [negb].
    right. rewrite E, Z.sub_0_r. unfold is_size in *.
    rewrite (wrap_small ss), size_add by (unfold is_size; lia).
    rewrite <- (Z.mul_1_l ss) at 1. by rewrite Z.mod_add by lia.
  - left. pose proof (Z.mod_le offset ss). unfold is_size in Ho.
    rewrite (size_sub offset (offset mod ss)) by lia. rewrite size_sub by lia.
    replace (offset - (offset - offset mod ss)) with (offset mod ss) by lia.
    by rewrite Z.mod_mod by lia.
Qed.

(** [umflush] of a range inside a mapping that does not start and end on
    segment boundaries stops the program, although its alignment code means to widen
    such a range to whole segments. *)
Theorem umflush_aborts_unaligned g mid mo x size evict sync :
  handler_inv g → w_mappings (process g) !! mid = Some mo →
  let m := mo_mapping mo in
  0 ≤ x < m_size m → 0 < size → x + size ≤ m_size m → segmentSize m + m_size m < SIZE_MOD →
  x mod segmentSize m ≠ 0 ∨ size mod segmentSize m ≠ 0 →
  ∃ msg, flush g (baseAddress m + x) size evict sync = Err (Fatal msg).
Proof.
  intros Hg Hmo m Hx Hpos Hfit Hmod Hun.
  destruct (wo_mapping _ _ (hi_world _ Hg) mid mo Hmo) as [(d & Hd & Hinv) _]. fold m in Hinv.
  pose proof (mi_geom _ _ _ Hinv) as Hgeo. pose proof (geom_segmentSize m Hgeo) as Hss.
  pose proof (wg_size _ Hgeo). pose proof (wg_fits _ Hgeo).
  destruct (findMapping_ok g mid mo (baseAddress m + x) Hg Hmo ltac:(fold m; lia)) as (_ & _ & Hfind).
  unfold flush. rewrite Hfind. cbn [mbind result_bind]. fold m. unfold getAddress, getSegmentSize.
  replace (baseAddress m + x - baseAddress m) with x by lia.
  rewrite (wrap_small x) by (unfold is_size; lia).
  destruct (Z.eqb_spec size 0); [lia|].
  pose proof (alignFlush_unaligned (segmentSize m) x size Hss ltac:(unfold is_size; lia)) as Hal.
  destruct (alignFlush (segmentSize m) x size) as [o' s'].
  destruct (_ <=? _); [|by eexists]. cbn [assume mbind result_bind]. unfold on_mapping. rewrite Hd.
  cbn [deref mbind result_bind]. fold m.
  destruct (flush_refuses m (w_vm (process g)) d o' s'
    (Z.lor (if sync then UMMAP_FLUSH_SYNC else 0) (if evict then UMMAP_FLUSH_UNMAP else 0))) as [msg Hmsg].
  { apply Hal. destruct Hun; [by left|right]. lia. }
  rewrite Hmsg. by exists msg.
Qed.
End Theorems.

(** ** A concrete handler *)

Definition demo_handler : GlobalHandler MemoryDriver FifoPolicy.FifoPolicy :=
  mkHandler [mkEntry 7 65536 (65536 + 6000)] ∅ demo_world.

Lemma demo_handler_inv : handler_inv demo_handler.
Proof.
  destruct demo_fields as (Hb & _ & _ & Hsz & _). split; [exact demo_world_inv| |].
  - split; cbn; [intros e ->%list_elem_of_singleton; done|apply NoDup_singleton|].
    intros e e' a ->%list_elem_of_singleton ->%list_elem_of_singleton. done.
  - intros [mid b e]. cbn. rewrite list_elem_of_singleton. split.
    + intros [= -> -> ->]. eexists. split; [reflexivity|]. cbn. by rewrite Hb, Hsz.
    + intros (mo & Hmo & Hbase & Hend). apply lookup_singleton_Some in Hmo as [<- <-].
      cbn in Hbase, Hend. rewrite Hb in Hbase, Hend. rewrite Hsz in Hend. by subst.
Qed.

Lemma segfault_reaches_its_mapping_witness :
  onSegFault 10 (Some 1048576) demo_handler 65000 false = Ok (false, demo_handler) ∧
  onSegFault 10 (Some 1048576) demo_handler (65536 + 6100) false = Ok (false, demo_handler) ∧
  onSegFault 10 (Some 1048576) demo_handler 65541 true =
    (λ w, (true, set_process demo_handler w)) <$> handleFault 10 (Some 1048576) demo_world 7 65541 true.
Proof.
  destruct demo_fields as (Hb & _ & _ & Hsz & _). split; [|split].
  - apply segfault_reaches_its_mapping; [exact demo_handler_inv|done|].
    intros mid mo. cbn. rewrite lookup_singleton_Some. intros [<- <-]. cbn. rewrite Hb. lia.
  - apply segfault_reaches_its_mapping; [exact demo_handler_inv|done|].
    intros mid mo. cbn. rewrite lookup_singleton_Some. intros [<- <-]. cbn. rewrite Hb, Hsz. lia.
  - eapply segfault_reaches_its_mapping; [exact demo_handler_inv|done|reflexivity|].
    cbn. rewrite Hb, Hsz. lia.
Defined.

Lemma umflush_writes_back_witness :
  ∃ g' : GlobalHandler MemoryDriver FifoPolicy.FifoPolicy,
    flush demo_handler (65536 + 4096) 0 true true = Ok g' ∧ handler_inv g'.
Proof.
  destruct demo_fields as (Hb & Hs & Hss & _).
  destruct (umflush_writes_back demo_handler 7 (mkMapObj (attach demo_m 100 0) 1) demo_driver 1 1 0 true true)
    as (g' & m' & d' & Hrun & Hg' & _).
  - exact demo_handler_inv.
  - reflexivity.
  - reflexivity.
  - cbn. rewrite Hs. lia.
  - lia.
  - cbn. rewrite Hs. lia.
  - right. split; [done|]. cbn. by rewrite Hs.
  - exists g'. split; [|exact Hg']. cbn in Hrun. rewrite Hb, Hss in Hrun. exact Hrun.
Defined.

Lemma umflush_aborts_unaligned_witness :
  (∃ msg, flush demo_handler (65536 + 100) 4096 false true = Err (Fatal msg)) ∧
  (∃ msg, flush demo_handler 65536 100 false true = Err (Fatal msg)).
Proof.
  destruct demo_fields as (Hb & _ & Hss & Hsz & _).
  pose proof (λ x size, umflush_aborts_unaligned demo_handler 7 (mkMapObj (attach demo_m 100 0) 1) x size
    false true demo_handler_inv eq_refl) as H. cbn in H. rewrite Hb, Hss, Hsz in H.
  split; [apply (H 100 4096)|apply (H 0 100)]; try lia; try reflexivity; [left|right]; done.
Defined.
