(* ===== verification/Threads.v ===== *)
(** * Threads that share a state and take locks

    A thread is a program: a tree of atomic sections on the shared state, memory
    accesses of the application, and the locking and unlocking of mutexes.  A pool of
    threads runs one step of one thread at a time, in any order.  Two generic results:
    threads that take locks in increasing order never block each other for ever, and an
    invariant that every section keeps, whatever the other threads have pending, holds
    in every state of the pool. *)

From stdpp Require Import countable relations fin_sets.
From S2P Require Import Prelude.

(** ** Locks

    The mutexes of the library: the spinlock of the mapping registry, the mutex of a
    quota, mutex [i] of the segment mutexes of mapping [mid], and the mutex a policy
    uses (its own or the one of its group). *)
Inductive lock : Type :=
  | RegistryLock
  | QuotaMutex (qid : Z)
  | SegmentMutex (mid i : Z)
  | PolicyMutex (mutex : Z).

#[export] Instance lock_eq_dec : EqDecision lock.
Proof. solve_decision. Defined.

#[export] Instance lock_countable : Countable lock.
Proof.
  apply (inj_countable'
    (λ l, match l with
          | RegistryLock => inl (inl ()) | QuotaMutex q => inl (inr q)
          | SegmentMutex m i => inr (inl (m, i)) | PolicyMutex p => inr (inr p) end)
    (λ x, match x with
          | inl (inl _) => RegistryLock | inl (inr q) => QuotaMutex q
          | inr (inl (m, i)) => SegmentMutex m i | inr (inr p) => PolicyMutex p end)).
  by intros [].
Defined.

(** The order in which they nest. *)
Definition level (l : lock) : Z :=
  match l with
  | RegistryLock => 0
  | QuotaMutex _ => 1
  | SegmentMutex _ _ => 2
  | PolicyMutex _ => 3
  end.

Definition lock_lt (a b : lock) : Prop :=
  level a < level b ∨
  match a, b with
  | SegmentMutex m i, SegmentMutex m' j => m = m' ∧ i < j
  | _, _ => False
  end.

#[export] Instance lock_lt_dec a b : Decision (lock_lt a b).
Proof. unfold lock_lt. destruct a, b; apply _. Defined.

Lemma lock_lt_irrefl a : ¬ lock_lt a a.
Proof. unfold lock_lt. destruct a; cbn; lia. Qed.

#[export] Instance lock_lt_trans : Transitive lock_lt.
Proof. intros [] [] []; unfold lock_lt; cbn; lia. Qed.

(** ** Programs *)

Section Programs.
Context {St Ev : Type}.

(** [Atomic]: a section of library code, with the address the kernel would give it.
    [Access]: one instruction of the application on mapped memory, refused ([None]) or
    done and recorded. *)
Inductive prog (A : Type) : Type :=
  | Ret (a : A)
  | Crash (e : error)
  | Atomic {X : Type} (f : option Z → St → result (X * St)) (k : X → prog A)
  | Access {X : Type} (f : St → option (X * Ev * St)) (k : option X → prog A)
  | Lock (l : lock) (k : prog A)
  | Unlock (l : lock) (k : prog A).
Arguments Ret {A} a.
Arguments Crash {A} e.
Arguments Atomic {A X} f k.
Arguments Access {A X} f k.
Arguments Lock {A} l k.
Arguments Unlock {A} l k.

#[export] Instance prog_ret : MRet prog := λ A, Ret.
#[export] Instance prog_bind : MBind prog := λ A B k,
  fix bind p := match p with
  | Ret a => k a
  | Crash e => Crash e
  | Atomic f j => Atomic f (λ x, bind (j x))
  | Access f j => Access f (λ x, bind (j x))
  | Lock l j => Lock l (bind j)
  | Unlock l j => Unlock l (bind j)
  end.

(** ** A thread alone *)

Fixpoint exec {A} (got : option Z) (p : prog A) (s : St) : result (A * St) :=
  match p with
  | Ret a => Ok (a, s)
  | Crash e => Err e
  | Atomic f k => '(x, s') ← f got s; exec got (k x) s'
  | Access f k => match f s with
                  | None => exec got (k None) s
                  | Some (x, _, s') => exec got (k (Some x)) s' end
  | Lock _ k | Unlock _ k => exec got k s
  end.

Lemma exec_bind {A B} got (p : prog A) (k : A → prog B) s :
  exec got (p ≫= k) s = ('(a, s') ← exec got p s; exec got (k a) s').
Proof.
  revert s. induction p as [a|e|X f j IH|X f j IH|l j IH|l j IH]; intros s; cbn.
  - done.
  - done.
  - destruct (f got s) as [[x s']|e]; cbn; [|done]. apply IH.
  - destruct (f s) as [[[x e] s']|]; apply IH.
  - apply IH.
  - apply IH.
Qed.

(** ** A pool of threads *)

Record Pool := mkPool {
  pl_state : St;
  pl_owner : gmap lock nat;
  pl_history : list Ev;
  pl_threads : list (prog unit);
}.

Definition start (s : St) (threads : list (prog unit)) : Pool := mkPool s ∅ [] threads.

(** Thread [i] goes on with [p]. *)
Definition resume (i : nat) (s : St) (owner : gmap lock nat) (h : list Ev) (p : prog unit)
    (pl : Pool) : Pool := mkPool s owner h (<[i := p]> (pl_threads pl)).

(** A step of thread [i]: [None] if it has returned or waits for a mutex, an error if
    it ends the process. *)
Definition step_thread (i : nat) (got : option Z) (pl : Pool) : option (result Pool) :=
  let s := pl_state pl in
  let owner := pl_owner pl in
  let h := pl_history pl in
  match pl_threads pl !! i with
  | None | Some (Ret _) => None
  | Some (Crash e) => Some (Err e)
  | Some (Atomic f k) => Some ('(x, s') ← f got s; Ok (resume i s' owner h (k x) pl))
  | Some (Access f k) =>
      Some (Ok (match f s with
                | None => resume i s owner h (k None) pl
                | Some (x, e, s') => resume i s' owner (h ++ [e]) (k (Some x)) pl end))
  | Some (Lock l k) =>
      match owner !! l with
      | Some _ => None
      | None => Some (Ok (resume i s (<[l := i]> owner) h k pl))
      end
  | Some (Unlock l k) =>
      Some (if decide (owner !! l = Some i) then Ok (resume i s (delete l owner) h k pl)
            else Err BadAccess)
  end.

(** [kernel s got]: the kernel may give [got] in state [s]. *)
Definition step (kernel : St → option Z → Prop) (pl pl' : Pool) : Prop :=
  ∃ i got, kernel (pl_state pl) got ∧ step_thread i got pl = Some (Ok pl').

(** A schedule: which thread steps, and what the kernel gives it, where [kernelb] allows
    it.  A thread that waits or has returned is passed over. *)
Fixpoint run_schedule (kernelb : St → option Z → bool) (sched : list (nat * option Z)) (pl : Pool)
    : result Pool :=
  match sched with
  | [] => Ok pl
  | (i, got) :: sched' =>
      match step_thread i got pl with
      | None => run_schedule kernelb sched' pl
      | Some r => assume (kernelb (pl_state pl) got) "kernel";;
                  pl' ← r; run_schedule kernelb sched' pl'
      end
  end.

Lemma run_schedule_steps kernelb kernel sched pl pl' :
  (∀ s got, kernelb s got = true → kernel s got) →
  run_schedule kernelb sched pl = Ok pl' → rtc (step kernel) pl pl'.
Proof.
  intros Hk. revert pl. induction sched as [|[i got] sched IH]; intros pl; cbn; [by intros [= ->]|].
  destruct (step_thread i got pl) as [r|] eqn:Hs; [|by apply IH].
  destruct (kernelb (pl_state pl) got) eqn:E; [|done]. cbn. destruct r as [pl1|]; [|done]. cbn.
  intros Hr. eapply rtc_l; [|by apply IH]. exists i, got. auto.
Qed.

Definition returned {A} (p : prog A) : bool := match p with Ret _ => true | _ => false end.
Definition finished (pl : Pool) : Prop := Forall (λ p, returned p = true) (pl_threads pl).

(** ** Lock order

    [ordered held p held']: from a state where it holds [held], [p] only takes locks
    above the ones it holds, only releases locks it holds, and returns with [held']. *)
Fixpoint ordered {A} (held : gset lock) (p : prog A) (held' : gset lock) : Prop :=
  match p with
  | Ret _ => held = held'
  | Crash _ => True
  | Atomic _ k => ∀ x, ordered held (k x) held'
  | Access _ k => ∀ x, ordered held (k x) held'
  | Lock l k => (∀ h, h ∈ held → lock_lt h l) ∧ ordered ({[l]} ∪ held) k held'
  | Unlock l k => l ∈ held ∧ ordered (held ∖ {[l]}) k held'
  end.

Lemma ordered_bind {A B} held p held' held'' (k : A → prog B) :
  ordered held p held' → (∀ a, ordered held' (k a) held'') → ordered held (p ≫= k) held''.
Proof.
  intros Hp Hk. revert held Hp.
  induction p as [a|e|X f j IH|X f j IH|l j IH|l j IH]; cbn; intros held Hp.
  - subst. apply Hk.
  - done.
  - intros x. apply IH, Hp.
  - intros x. apply IH, Hp.
  - destruct Hp. split; [done|]. by apply IH.
  - destruct Hp. split; [done|]. by apply IH.
Qed.

(** What the pool keeps: each thread goes on in order with the locks it owns. *)
Definition disciplined (pl : Pool) : Prop :=
  ∃ helds : list (gset lock),
    Forall2 (λ h p, ordered h p ∅) helds (pl_threads pl) ∧
    ∀ l i, pl_owner pl !! l = Some i ↔ ∃ h, helds !! i = Some h ∧ l ∈ h.

#[export] Instance finished_dec pl : Decision (finished pl).
Proof. unfold finished. apply _. Defined.

Lemma disciplined_start s threads :
  (∀ p, p ∈ threads → ordered ∅ p ∅) → disciplined (start s threads).
Proof.
  intros Hp. exists (replicate (length threads) ∅). split.
  - apply Forall2_replicate_l; [done|]. apply Forall_forall. exact Hp.
  - intros l i. cbn. rewrite lookup_empty. split; [done|].
    intros (h & [-> _]%lookup_replicate & []%elem_of_empty).
Qed.

(** Thread [i] moves from [h] to [h']; the owners change accordingly. *)
Lemma disciplined_resume i pl helds h h' p p' s owner' hist :
  Forall2 (λ h p, ordered h p ∅) helds (pl_threads pl) →
  (∀ l j, pl_owner pl !! l = Some j ↔ ∃ h, helds !! j = Some h ∧ l ∈ h) →
  helds !! i = Some h → pl_threads pl !! i = Some p → ordered h' p' ∅ →
  (∀ l, l ∈ h' → owner' !! l = Some i) → (∀ l, owner' !! l = Some i → l ∈ h') →
  (∀ l j, j ≠ i → owner' !! l = Some j ↔ pl_owner pl !! l = Some j) →
  disciplined (resume i s owner' hist p' pl).
Proof.
  intros Hall Hown Hh Hp Ho Hin Hout Hother. exists (<[i := h']> helds). split.
  - cbn. by apply Forall2_insert.
  - intros l j. cbn. pose proof (lookup_lt_Some _ _ _ Hh). destruct (decide (j = i)) as [->|Hne].
    + rewrite list_lookup_insert_eq by done. split; [intros Hl; eauto|].
      intros (h1 & [= <-] & Hl). auto.
    + rewrite list_lookup_insert_ne by done. by rewrite Hother.
Qed.

(** A step keeps the discipline and never releases a lock it does not own. *)
Lemma disciplined_step i got pl :
  disciplined pl →
  match step_thread i got pl with
  | Some (Ok pl') => disciplined pl'
  | _ => True
  end ∧ ∀ l k, pl_threads pl !! i = Some (Unlock l k) → pl_owner pl !! l = Some i.
Proof.
  intros (helds & Hall & Hown). unfold step_thread.
  destruct (pl_threads pl !! i) as [p|] eqn:Hp; [|done].
  destruct (Forall2_lookup_r _ _ _ _ _ Hall Hp) as (h & Hh & Ho).
  assert (Hmine : ∀ l, pl_owner pl !! l = Some i ↔ l ∈ h).
  { intros l. rewrite Hown. split; [|by eauto]. intros (h1 & Hh1 & Hl). by simplify_eq. }
  split.
  2: { intros l k [= ->]. apply Hmine, Ho. }
  destruct p as [a|e|X f k|X f k|l k|l k]; cbn in Ho; [done|done| | | |].
  - destruct (f got (pl_state pl)) as [[x s']|e]; cbn; [|done].
    apply (disciplined_resume i pl helds h h (Atomic f k)); [done..|apply Ho|apply Hmine|apply Hmine|done].
  - destruct (f (pl_state pl)) as [[[x e] s']|];
      (apply (disciplined_resume i pl helds h h (Access f k)); [done..|apply Ho|apply Hmine|apply Hmine|done]).
  - destruct Ho as [_ Ho]. destruct (pl_owner pl !! l) eqn:Hl; [done|].
    apply (disciplined_resume i pl helds h ({[l]} ∪ h) (Lock l k)); [done..| | |].
    + intros l' [->%elem_of_singleton|Hl']%elem_of_union; [by rewrite lookup_insert_eq|].
      rewrite lookup_insert_ne; [by apply Hmine|]. intros <-. apply Hmine in Hl'. congruence.
    + intros l'. rewrite lookup_insert_Some. rewrite Hmine. set_solver.
    + intros l' j Hne. rewrite lookup_insert_Some. naive_solver.
  - destruct Ho as [Hl Ho]. apply Hmine in Hl as Hli. rewrite decide_True by done.
    apply (disciplined_resume i pl helds h (h ∖ {[l]}) (Unlock l k)); [done..| | |].
    + intros l' [Hl' Hn]%elem_of_difference. rewrite lookup_delete_ne; [by apply Hmine|set_solver].
    + intros l'. rewrite lookup_delete_Some, Hmine. set_solver.
    + intros l' j Hne. rewrite lookup_delete_Some. naive_solver.
Qed.

Lemma disciplined_reachable kernel pl pl' :
  disciplined pl → rtc (step kernel) pl pl' → disciplined pl'.
Proof.
  intros Hd Hr. induction Hr as [|a b c (i & got & _ & Hs) _ IH]; [done|]. apply IH.
  pose proof (proj1 (disciplined_step i got a Hd)) as Hd'. by rewrite Hs in Hd'.
Qed.

(** The owner of a lock that is highest among the owned ones is not blocked. *)
Lemma disciplined_progress pl :
  disciplined pl → finished pl ∨ ∃ i, ∀ got, is_Some (step_thread i got pl).
Proof.
  intros (helds & Hall & Hown).
  assert (Hgo : ∀ i p, pl_threads pl !! i = Some p → returned p ≠ true →
    (∀ l k, p = Lock l k → pl_owner pl !! l = None) → ∃ i, ∀ got, is_Some (step_thread i got pl)).
  { intros i p Hp Hr Hl. exists i. intros got. unfold step_thread. rewrite Hp.
    destruct p; try by eauto. by rewrite (Hl l p). }
  destruct (decide (pl_owner pl = ∅)) as [Hempty|Hne].
  - destruct (decide (finished pl)) as [Hf|Hf]; [by left|right].
    apply not_Forall_Exists, Exists_exists in Hf as (p & [i Hp]%list_elem_of_lookup & Hn); [|apply _].
    apply (Hgo i p Hp); [done|]. intros. by rewrite Hempty, lookup_empty.
  - right. destruct (minimal_exists_elem_of_L (flip lock_lt) (dom (pl_owner pl))) as (l & Hl & Hmin).
    { intros E. apply Hne. by apply dom_empty_inv_L. }
    apply elem_of_dom in Hl as [i Hi]. apply Hown in Hi as (h & Hh & Hlh).
    destruct (Forall2_lookup_l _ _ _ _ _ Hall Hh) as (p & Hp & Ho).
    apply (Hgo i p Hp).
    + destruct p; cbn in Ho; try done. subst h. set_solver.
    + intros l' k ->. destruct (pl_owner pl !! l') eqn:Hl'; [|done]. exfalso.
      pose proof (proj1 Ho l Hlh) as Hlt.
      specialize (Hmin l' ltac:(by apply elem_of_dom) Hlt). cbn in Hmin.
      apply (lock_lt_irrefl l). by etrans.
Qed.
End Programs.

Arguments prog St Ev A : clear implicits.
Arguments Pool St Ev : clear implicits.
Arguments Ret {St Ev A} a.
Arguments Crash {St Ev A} e.
Arguments Atomic {St Ev A X} f k.
Arguments Access {St Ev A X} f k.
Arguments Lock {St Ev A} l k.
Arguments Unlock {St Ev A} l k.

(** ** An invariant that every section keeps

    Each thread owes a list of obligations to the others; [I] is the invariant of the
    shared state and history given what all threads owe together, [E] the errors that
    may end the process. *)
Section Invariant.
Context {St Ev T : Type}.
Context (kernel : St → option Z → Prop) (I : list T → St → list Ev → Prop) (E : error → Prop).
Context (I_perm : ∀ l l' s h, l ≡ₚ l' → I l s h → I l' s h).

Fixpoint safe {A} (Q : list T → A → Prop) (owes : list T) (p : prog St Ev A) : Prop :=
  match p with
  | Ret a => Q owes a
  | Crash e => E e
  | Atomic f k => ∀ others got s h, I (owes ++ others) s h → kernel s got →
      match f got s with
      | Ok (x, s') => ∃ owes', I (owes' ++ others) s' h ∧ safe Q owes' (k x)
      | Err e => E e
      end
  | Access f k => ∀ others s h, I (owes ++ others) s h →
      match f s with
      | Some (x, e, s') => I (owes ++ others) s' (h ++ [e]) ∧ safe Q owes (k (Some x))
      | None => safe Q owes (k None)
      end
  | Lock _ k | Unlock _ k => safe Q owes k
  end.

Lemma safe_bind {A B} (Q : list T → B → Prop) owes (p : prog St Ev A) k :
  safe (λ o a, safe Q o (k a)) owes p → safe Q owes (p ≫= k).
Proof.
  revert owes. induction p as [a|e|X f j IH|X f j IH|l j IH|l j IH]; cbn; intros owes Hp; auto.
  - intros others got s h Hi Hk. specialize (Hp others got s h Hi Hk).
    destruct (f got s) as [[x s']|e]; [|done]. destruct Hp as (o & Ho & Hs). eauto.
  - intros others s h Hi. specialize (Hp others s h Hi).
    destruct (f s) as [[[x e] s']|]; [destruct Hp; auto|auto].
Qed.

Lemma safe_weaken {A} (Q Q' : list T → A → Prop) owes (p : prog St Ev A) :
  (∀ o a, Q o a → Q' o a) → safe Q owes p → safe Q' owes p.
Proof.
  intros HQ. revert owes. induction p as [a|e|X f j IH|X f j IH|l j IH|l j IH]; cbn; intros owes Hp; auto.
  - intros others got s h Hi Hk. specialize (Hp others got s h Hi Hk).
    destruct (f got s) as [[x s']|e]; [|done]. destruct Hp as (o & Ho & Hs). eauto.
  - intros others s h Hi. specialize (Hp others s h Hi).
    destruct (f s) as [[[x e] s']|]; [destruct Hp; auto|auto].
Qed.

(** A thread that owes nothing when it returns. *)
Definition safe_thread (owes : list T) (p : prog St Ev unit) : Prop := safe (λ o _, o = []) owes p.

Definition pool_safe (pl : Pool St Ev) : Prop :=
  disciplined pl ∧
  ∃ owed, Forall2 safe_thread owed (pl_threads pl) ∧ I (concat owed) (pl_state pl) (pl_history pl).

(** The obligations of one thread apart from those of the others. *)
Lemma owed_split (owed : list (list T)) i o :
  owed !! i = Some o → ∃ others, concat owed ≡ₚ o ++ others ∧
    (∀ o', concat (<[i := o']> owed) ≡ₚ o' ++ others) ∧
    ∀ t, t ∈ others → ∃ j o', j ≠ i ∧ owed !! j = Some o' ∧ t ∈ o'.
Proof.
  intros Hi. exists (concat (take i owed ++ drop (S i) owed)). rewrite concat_app. split; [|split].
  - rewrite <- (take_drop_middle owed i o Hi) at 1. rewrite concat_app. cbn. solve_Permutation.
  - intros o'. rewrite insert_take_drop by (by eapply lookup_lt_Some).
    rewrite concat_app. cbn. solve_Permutation.
  - intros t. rewrite <- concat_app, list_elem_of_In, in_concat.
    intros (o' & [Ho'|Ho']%list_elem_of_In%elem_of_app & Ht%list_elem_of_In);
      apply list_elem_of_lookup in Ho' as [j Hj].
    + apply lookup_take_Some in Hj as [Hj Hlt]. exists j, o'. split; [lia|done].
    + rewrite lookup_drop in Hj. exists (S i + j)%nat, o'. split; [lia|done].
Qed.

Lemma pool_safe_step i got pl :
  pool_safe pl → kernel (pl_state pl) got →
  match step_thread i got pl with
  | Some (Ok pl') => pool_safe pl'
  | Some (Err e) => E e
  | None => True
  end.
Proof.
  intros [Hd (owed & Hall & Hi)] Hk.
  destruct (disciplined_step i got pl Hd) as [Hd' Hunlock].
  unfold step_thread in *. destruct (pl_threads pl !! i) as [p|] eqn:Hp; [|done].
  destruct (Forall2_lookup_r _ _ _ _ _ Hall Hp) as (o & Ho & Hs).
  destruct (owed_split owed i o Ho) as (others & Hsplit & Hins & _).
  apply (I_perm _ _ _ _ Hsplit) in Hi.
  assert (Hnext : ∀ o' p' s' own h', disciplined (resume i s' own h' p' pl) →
    safe_thread o' p' → I (o' ++ others) s' h' → pool_safe (resume i s' own h' p' pl)).
  { intros o' p' s' own h' Hdis Hs' Hi'. split; [done|]. exists (<[i := o']> owed). split.
    - cbn. by apply Forall2_insert.
    - cbn. eapply I_perm; [symmetry; apply Hins|done]. }
  destruct p as [a|e|X f k|X f k|l k|l k]; cbn in Hs; [done|done| | | |].
  - specialize (Hs others got _ _ Hi Hk). destruct (f got (pl_state pl)) as [[x s']|e]; cbn in *; [|done].
    destruct Hs as (o' & Hi' & Hs'). by apply (Hnext o').
  - specialize (Hs others _ _ Hi). destruct (f (pl_state pl)) as [[[x e] s']|].
    + destruct Hs as [Hi' Hs']. by apply (Hnext o).
    + by apply (Hnext o).
  - destruct (pl_owner pl !! l); [done|]. by apply (Hnext o).
  - rewrite decide_True in * by (by eapply Hunlock). by apply (Hnext o).
Qed.

Lemma pool_safe_start s threads :
  (∀ p, p ∈ threads → ordered ∅ p ∅ ∧ safe_thread [] p) → I [] s [] → pool_safe (start s threads).
Proof.
  intros Hp Hi. split; [apply disciplined_start; intros; by apply Hp|].
  exists (replicate (length threads) []). split.
  - apply Forall2_replicate_l; [done|]. apply Forall_forall. intros; by apply Hp.
  - cbn. replace (concat (replicate (length threads) [])) with ([] : list T); [done|].
    induction (length threads); done.
Qed.

Lemma pool_safe_reachable pl pl' :
  pool_safe pl → rtc (step kernel) pl pl' → pool_safe pl'.
Proof.
  intros Hd Hr. induction Hr as [|a b c (i & got & Hk & Hs) _ IH]; [done|]. apply IH.
  pose proof (pool_safe_step i got a Hd Hk) as H. by rewrite Hs in H.
Qed.

(** When all threads have returned nothing is owed. *)
Lemma pool_safe_finished pl :
  pool_safe pl → finished pl → I [] (pl_state pl) (pl_history pl).
Proof.
  intros [_ (owed & Hall & Hi)] Hf. eapply I_perm; [|exact Hi]. clear Hi.
  unfold finished in Hf. induction Hall as [|o p owed threads Hs Hall IH]; [done|].
  apply Forall_cons in Hf as [Hr Hf]. cbn. rewrite IH by done.
  destruct p; try done. cbn in Hs. by subst o.
Qed.
End Invariant.
