(* ===== verification/ThreadTokens.v ===== *)
(** * What a thread owes under a mutex

    [Threads] proves that an invariant holds in every state of a pool when each section
    keeps it whatever the other threads owe.  Here each obligation belongs to a mutex:
    a thread may owe only what belongs to the mutexes it holds, so a section knows that
    no other thread owes anything that belongs to a mutex held by its thread. *)

From stdpp Require Import relations fin_sets.
From S2P Require Import Prelude Threads.

Section Tokens.
Context {St Ev T : Type}.
Context (kernel : St → option Z → Prop) (I : list T → St → list Ev → Prop) (E : error → Prop).
Context (guard : T → lock).
Context (I_perm : ∀ l l' s h, l ≡ₚ l' → I l s h → I l' s h).

(** The mutexes of what is owed are held; none is. *)
Definition covered (held : gset lock) (owes : list T) : Prop := ∀ t, t ∈ owes → guard t ∈ held.
Definition apart (held : gset lock) (owes : list T) : Prop := ∀ t, t ∈ owes → guard t ∉ held.

Lemma covered_nil held : covered held [].
Proof. by intros t ?%elem_of_nil. Qed.

Lemma covered_one held t : guard t ∈ held → covered held [t].
Proof. by intros Ht t' ->%list_elem_of_singleton. Qed.

(** [p] keeps the invariant when its thread holds [held] and owes [owes]; [Q] holds of
    what it holds, owes and returns at the end. *)
Fixpoint guarded {A} (Q : gset lock → list T → A → Prop) (held : gset lock) (owes : list T)
    (p : prog St Ev A) : Prop :=
  match p with
  | Ret a => Q held owes a
  | Crash e => E e
  | Atomic f k => ∀ others got s h, apart held others → I (owes ++ others) s h → kernel s got →
      match f got s with
      | Ok (x, s') => ∃ owes', covered held owes' ∧ I (owes' ++ others) s' h ∧ guarded Q held owes' (k x)
      | Err e => E e
      end
  | Access f k => ∀ others s h, I (owes ++ others) s h →
      match f s with
      | Some (x, e, s') => I (owes ++ others) s' (h ++ [e]) ∧ guarded Q held owes (k (Some x))
      | None => guarded Q held owes (k None)
      end
  | Lock l k => guarded Q ({[l]} ∪ held) owes k
  | Unlock l k => l ∈ held ∧ covered (held ∖ {[l]}) owes ∧ guarded Q (held ∖ {[l]}) owes k
  end.

Lemma guarded_bind {A B} (Q : gset lock → list T → B → Prop) held owes (p : prog St Ev A) k :
  guarded (λ h o a, guarded Q h o (k a)) held owes p → guarded Q held owes (p ≫= k).
Proof.
  revert held owes. induction p as [a|e|X f j IH|X f j IH|l j IH|l j IH]; cbn; intros held owes Hp; auto.
  - intros others got s h Ha Hi Hk. specialize (Hp others got s h Ha Hi Hk).
    destruct (f got s) as [[x s']|e]; [|done]. destruct Hp as (o & Hc & Ho & Hs). eauto 6.
  - intros others s h Hi. specialize (Hp others s h Hi).
    destruct (f s) as [[[x e] s']|]; [destruct Hp; auto|auto].
  - destruct Hp as (Hl & Hc & Hs). eauto.
Qed.

Lemma guarded_weaken {A} (Q Q' : gset lock → list T → A → Prop) held owes (p : prog St Ev A) :
  (∀ h o a, Q h o a → Q' h o a) → guarded Q held owes p → guarded Q' held owes p.
Proof.
  intros HQ. revert held owes.
  induction p as [a|e|X f j IH|X f j IH|l j IH|l j IH]; cbn; intros held owes Hp; auto.
  - intros others got s h Ha Hi Hk. specialize (Hp others got s h Ha Hi Hk).
    destruct (f got s) as [[x s']|e]; [|done]. destruct Hp as (o & Hc & Ho & Hs). eauto 6.
  - intros others s h Hi. specialize (Hp others s h Hi).
    destruct (f s) as [[[x e] s']|]; [destruct Hp; auto|auto].
  - destruct Hp as (Hl & Hc & Hs). eauto.
Qed.

(** A thread that owes nothing when it returns. *)
Definition guarded_thread (held : gset lock) (owes : list T) (p : prog St Ev unit) : Prop :=
  guarded (λ _ o _, o = []) held owes p.

(** What is known of each thread: the mutexes it holds and what it owes. *)
Definition pool_guarded (pl : Pool St Ev) : Prop :=
  ∃ ghosts : list (gset lock * list T),
    length ghosts = length (pl_threads pl) ∧
    (∀ i held owes p, ghosts !! i = Some (held, owes) → pl_threads pl !! i = Some p →
       guarded_thread held owes p ∧ covered held owes ∧ ∀ l, l ∈ held ↔ pl_owner pl !! l = Some i) ∧
    I (concat (snd <$> ghosts)) (pl_state pl) (pl_history pl).

Lemma concat_replicate_nil {A} n : concat (replicate n []) = ([] : list A).
Proof. induction n; [done|]. exact IHn. Qed.

Lemma pool_guarded_start s threads :
  (∀ p, p ∈ threads → guarded_thread ∅ [] p) → I [] s [] → pool_guarded (start s threads).
Proof.
  intros Hp Hi. exists (replicate (length threads) (∅, [])). split; [by rewrite length_replicate|]. split.
  - intros i held owes p [[= -> ->] _]%lookup_replicate Hl. split; [|split].
    + by eapply Hp, list_elem_of_lookup_2.
    + apply covered_nil.
    + intros l. cbn. by rewrite lookup_empty, elem_of_empty.
  - cbn. rewrite fmap_replicate. cbn [snd]. by rewrite concat_replicate_nil.
Qed.

(** Thread [i] goes on with other mutexes and obligations. *)
Lemma pool_guarded_resume i pl ghosts others held o p s own h :
  length ghosts = length (pl_threads pl) →
  (∀ j held owes p, ghosts !! j = Some (held, owes) → pl_threads pl !! j = Some p →
     guarded_thread held owes p ∧ covered held owes ∧ ∀ l, l ∈ held ↔ pl_owner pl !! l = Some j) →
  (i < length ghosts)%nat → concat (<[i := o]> (snd <$> ghosts)) ≡ₚ o ++ others →
  guarded_thread held o p → covered held o → (∀ l, l ∈ held ↔ own !! l = Some i) →
  (∀ l j, j ≠ i → own !! l = Some j ↔ pl_owner pl !! l = Some j) →
  I (o ++ others) s h → pool_guarded (resume i s own h p pl).
Proof.
  intros Hlen Hall Hlt Hins Hs Hc Hh Hown Hi. exists (<[i := (held, o)]> ghosts).
  split; [cbn; by rewrite !length_insert|]. split.
  - intros j hj oj q Hgj Hq. change (<[i := p]> (pl_threads pl) !! j = Some q) in Hq.
    destruct (decide (j = i)) as [->|Hne].
    + rewrite (list_lookup_insert_eq ghosts) in Hgj by done.
      rewrite (list_lookup_insert_eq (pl_threads pl)) in Hq by lia.
      injection Hgj as <- <-. by injection Hq as <-.
    + rewrite (list_lookup_insert_ne ghosts) in Hgj by done.
      rewrite (list_lookup_insert_ne (pl_threads pl)) in Hq by done. destruct (Hall j hj oj q Hgj Hq) as (? & ? & Hj).
      do 2 (split; [done|]). intros l. rewrite Hj. symmetry. by apply Hown.
  - cbn. rewrite list_fmap_insert. eapply I_perm; [symmetry; apply Hins|done].
Qed.

Lemma pool_guarded_step i got pl :
  pool_guarded pl → kernel (pl_state pl) got →
  match step_thread i got pl with
  | Some (Ok pl') => pool_guarded pl'
  | Some (Err e) => E e
  | None => True
  end.
Proof.
  intros (ghosts & Hlen & Hall & Hi) Hk. unfold step_thread.
  destruct (pl_threads pl !! i) as [p|] eqn:Hp; [|done].
  destruct (lookup_lt_is_Some_2 ghosts i) as [[held o] Hg]; [rewrite Hlen; by eapply lookup_lt_Some|].
  destruct (Hall i held o p Hg Hp) as (Hs & Hc & Hh).
  destruct (owed_split (snd <$> ghosts) i o) as (others & Hsplit & Hins & Hoth);
    [by rewrite list_lookup_fmap, Hg|].
  assert (Hap : apart held others).
  { intros t Ht. destruct (Hoth t Ht) as (j & o' & Hne & Hj & Hin).
    rewrite list_lookup_fmap in Hj. destruct (ghosts !! j) as [[h' o2]|] eqn:Hgj; [|done]. injection Hj as ->.
    destruct (lookup_lt_is_Some_2 (pl_threads pl) j) as [q Hq]; [rewrite <- Hlen; by eapply lookup_lt_Some|].
    destruct (Hall j h' o' q Hgj Hq) as (_ & Hc' & Hh'). rewrite Hh.
    rewrite (proj1 (Hh' _) (Hc' t Hin)). congruence. }
  apply (I_perm _ _ _ _ Hsplit) in Hi.
  assert (Hnext : ∀ held' o' p' s' own h', guarded_thread held' o' p' → covered held' o' →
    (∀ l, l ∈ held' ↔ own !! l = Some i) → (∀ l j, j ≠ i → own !! l = Some j ↔ pl_owner pl !! l = Some j) →
    I (o' ++ others) s' h' → pool_guarded (resume i s' own h' p' pl)).
  { intros held' o' p' s' own h'. apply (pool_guarded_resume _ _ ghosts); [done|done| |apply Hins].
    by eapply lookup_lt_Some. }
  destruct p as [a|e|X f k|X f k|l k|l k]; cbn in Hs; [done|done| | | |].
  - specialize (Hs others got _ _ Hap Hi Hk). destruct (f got (pl_state pl)) as [[x s']|e]; cbn; [|done].
    destruct Hs as (o' & Hc' & Hi' & Hs'). by apply (Hnext held o').
  - specialize (Hs others _ _ Hi). destruct (f (pl_state pl)) as [[[x e] s']|].
    + destruct Hs as [Hi' Hs']. by apply (Hnext held o).
    + by apply (Hnext held o).
  - destruct (pl_owner pl !! l) eqn:Hl; [done|]. apply (Hnext ({[l]} ∪ held) o); [done| | | |done].
    + intros t Ht. apply elem_of_union_r. by apply Hc.
    + intros l'. rewrite lookup_insert_Some, elem_of_union, elem_of_singleton, Hh. naive_solver.
    + intros l' j Hne. rewrite lookup_insert_Some. naive_solver.
  - destruct Hs as (Hl & Hc' & Hs'). rewrite decide_True by (by apply Hh).
    apply (Hnext (held ∖ {[l]}) o); [done|done| | |done].
    + intros l'. rewrite lookup_delete_Some, elem_of_difference, elem_of_singleton, Hh. naive_solver.
    + intros l' j Hne. rewrite lookup_delete_Some. apply Hh in Hl. naive_solver.
Qed.

Lemma pool_guarded_reachable pl pl' :
  pool_guarded pl → rtc (step kernel) pl pl' → pool_guarded pl'.
Proof.
  intros Hd Hr. induction Hr as [|a b c (i & got & Hk & Hs) _ IH]; [done|]. apply IH.
  pose proof (pool_guarded_step i got a Hd Hk) as H. by rewrite Hs in H.
Qed.

(** When all threads have returned nothing is owed. *)
Lemma pool_guarded_finished pl :
  pool_guarded pl → finished pl → I [] (pl_state pl) (pl_history pl).
Proof.
  intros (ghosts & Hlen & Hall & Hi) Hf. replace (concat (snd <$> ghosts)) with ([] : list T) in Hi; [done|].
  assert (Hnil : ∀ i g, ghosts !! i = Some g → snd g = []).
  { intros i [held o] Hg. destruct (lookup_lt_is_Some_2 (pl_threads pl) i) as [p Hp];
      [rewrite <- Hlen; by eapply lookup_lt_Some|].
    destruct (Hall i held o p Hg Hp) as [Hs _]. apply (Forall_lookup_1 _ _ _ _ Hf) in Hp.
    by destruct p. }
  clear Hlen Hall Hi Hf. induction ghosts as [|g ghosts IH]; [done|]. cbn.
  rewrite (Hnil 0%nat g) by done. apply IH. intros i g' Hg. by apply (Hnil (S i)).
Qed.
End Tokens.
