(* ===== verification/ThreadOps.v ===== *)
(** * The methods of the library as threads run them

    Each method is a program of [Threads]: its critical sections with the mutexes the
    code takes around them, in the order the code takes them.  What the code does
    between two lock operations is one [Atomic] section; a loop over segments is one
    section per segment, also under the mutexes.  The sections are those of [Mapping],
    [System] and [GlobalHandler]: a thread that runs alone does what those files say
    (the [_alone] lemmas).

    The recursive locking of a policy's mutex by [getStorageInfo] inside a section that
    holds it is not repeated here. *)

From S2P Require Import Prelude ListElement Policy PolicyInterface OS Driver Mapping MappingInv System SystemInv Registry GlobalHandler Threads.

(** What the application does to mapped memory, by address. *)
Inductive access_event : Type :=
  | Loaded (a b : Z)
  | Stored (a b : Z).

#[export] Instance access_event_eq_dec : EqDecision access_event.
Proof. solve_decision. Defined.

(** ** Mutexes *)

(** [std::lock_guard] around [p]. *)
Definition locked {St Ev X : Type} (l : lock) (p : prog St Ev X) : prog St Ev X :=
  Lock l (x ← p; Unlock l (Ret x)).

(** Loops that lock and unlock several mutexes of a mapping. *)
Definition lockAll {St Ev : Type} (mid : Z) (idx : list Z) (k : prog St Ev unit) : prog St Ev unit :=
  foldr (λ i k, Lock (SegmentMutex mid i) k) k idx.
Definition unlockAll {St Ev : Type} (mid : Z) (idx : list Z) (k : prog St Ev unit) : prog St Ev unit :=
  foldr (λ i k, Unlock (SegmentMutex mid i) k) k idx.

(** The mutexes [getMutexRange] marks. *)
Definition marked (toLock : list bool) : list Z :=
  filter (λ i, toLock !! Z.to_nat i = Some true) (seqZ 0 (Z.of_nat (length toLock))).

(** A thread alone always gets its mutexes. *)
Lemma exec_locked {St Ev X : Type} got l (p : prog St Ev X) s : exec got (locked l p) s = exec got p s.
Proof. cbn. rewrite exec_bind. by destruct (exec got p s) as [[x s']|e]. Qed.

Lemma exec_lockAll {St Ev : Type} got mid idx (k : prog St Ev unit) s :
  exec got (lockAll mid idx k) s = exec got k s.
Proof. induction idx as [|i idx IH]; [done|]. exact IH. Qed.
Lemma exec_unlockAll {St Ev : Type} got mid idx (k : prog St Ev unit) s :
  exec got (unlockAll mid idx k) s = exec got k s.
Proof. induction idx as [|i idx IH]; [done|]. exact IH. Qed.

(** The mutex of a segment. *)
Definition segment_lock (mid : Z) (m : Mapping) (segmentId : Z) : lock :=
  SegmentMutex mid (segmentId mod segmentMutexesCnt m).

Section Programs.
Context {D P : Type} `{DriverOps D} `{PolicyOps P}.
Abbreviation G := (GlobalHandler D P).
Abbreviation W := (World D P).
Abbreviation program := (prog G access_event).

(** ** Sections *)

(** A section that changes the process; one that only reads it; one on the handler. *)
Definition act {X} (f : option Z → W → result (X * W)) : program X :=
  Atomic (λ got g, '(x, w) ← f got (process g); Ok (x, set_process g w)) Ret.
Definition peek {X} (f : W → result X) : program X :=
  Atomic (λ _ g, x ← f (process g); Ok (x, g)) Ret.
Definition run (f : W → result W) : program unit := act (λ _ w, w' ← f w; Ok (tt, w')).
Definition act_handler {X} (f : G → result (X * G)) : program X := Atomic (λ _, f) Ret.

(** The mutex of a policy. *)
Definition policy_mutex (w : W) (pid : Z) : result Z :=
  p ← deref (w_policies w !! pid); Ok (mutexPtr (pol_base p)).
Definition mapping_of (w : W) (mid : Z) : result Mapping :=
  mo ← deref (w_mappings w !! mid); Ok (mo_mapping mo).

(** A method of [Mapping] on the mapping object [mid]. *)
Definition with_mapping {X} (w : W) (mid : Z)
    (f : Mapping → vm → D → result (X * (Mapping * vm * D))) : result (X * W) :=
  mo ← deref (w_mappings w !! mid);
  d ← deref (w_drivers w !! mo_driver mo);
  '(x, (m', v', d')) ← f (mo_mapping mo) (w_vm w) d;
  Ok (x, set_mapping w mid mo m' v' d').

(** ** [Mapping::flush] *)

(** One section per segment. *)
Fixpoint flushRounds (fuel : nat) (mid : Z) (unmap : bool) (last curOffset : Z) : program unit :=
  match fuel with
  | O => Crash OutOfFuel
  | S fuel' =>
      if curOffset <? last then
        segSize ← act (λ _ w, with_mapping w mid (λ m v d,
          s ← flushSegment unmap (m, v, d) curOffset; Ok (segmentSize m, s)));
        flushRounds fuel' mid unmap last (curOffset ⊕ segSize)
      else Ret tt
  end.

(** The checks and the direct [msync]. *)
Definition flush_entry (mid offset size : Z) (w : W) : result (option (list bool * Mapping) * W) :=
  with_mapping w mid (λ m v d,
    assume (offset <? getSize m) "Offset is not in valid range !";;
    assume (offset ⊕ size <=? getAlignedSize m) "'Offset + size' is not in valid range !";;
    assume (offset mod segmentSize m =? 0) "Should get offset multiple of segment size !";;
    assume (size mod segmentSize m =? 0) "Should get size multiple of segment size !";;
    '(res, (d0, v0)) ← directMSync d v (getAddress m + offset) size (storageOffset m);
    if res : bool then Ok (None, (m, v0, d0))
    else l ← getMutexRange m offset size; Ok (Some (l, m), (m, v0, d0))).

Definition flush_sync (mid offset size : Z) (w : W) : result (unit * W) :=
  with_mapping w mid (λ m v d,
    '(d', v') ← dsync d v (getAddress m) offset size; Ok (tt, (m, v', d'))).

Definition flush_prog (mid offset size flags : Z) : program unit :=
  r ← act (λ _, flush_entry mid offset size);
  match r with
  | None => Ret tt
  | Some (toLock, m) =>
      let idx := if has_flag flags UMMAP_FLUSH_NO_LOCK then [] else marked toLock in
      lockAll mid idx
        (_ ← flushRounds (flush_fuel m) mid (has_flag flags UMMAP_FLUSH_UNMAP) (offset ⊕ size) offset;
         _ ← (if has_flag flags UMMAP_FLUSH_SYNC then act (λ _, flush_sync mid offset size) else Ret tt);
         unlockAll mid idx (Ret tt))
  end.

(** ** [Mapping::dropClean], [Mapping::markCleanAsDirty] *)

(** All the mutexes, then one section per segment. *)
Definition all_segments (f : Mapping * vm → Z → result (Mapping * vm)) (mid : Z) : program unit :=
  m ← peek (λ w, mapping_of w mid);
  let idx := seqZ 0 (segmentMutexesCnt m) in
  lockAll mid idx
    (_ ← foldr (λ i (k : program unit),
           _ ← act (λ _ w, with_mapping w mid (λ m v d, '(m', v') ← f (m, v) i; Ok (tt, (m', v', d))));
           k) (Ret tt) (seqZ 0 (segments m));
     unlockAll mid idx (Ret tt)).

Definition dropClean_prog (mid : Z) : program unit := all_segments dropSegment mid.
Definition markCleanAsDirty_prog (mid : Z) : program unit := all_segments markSegmentDirty mid.

Definition getSegmentStatus_prog (mid offset : Z) : program SegmentStatus :=
  m ← peek (λ w, mapping_of w mid);
  locked (segment_lock mid m (offset / segmentSize m))
    (peek (λ w, m ← mapping_of w mid; getSegmentStatus m offset)).

(** ** Evictions *)

Definition notifyEvict_prog (pid mid index : Z) : program unit :=
  mutex ← peek (λ w, policy_mutex w pid);
  locked (PolicyMutex mutex) (run (λ w, System.notifyEvict w pid mid index)).

(** [Mapping::evict]: the other policy and the flush under the mutex of the segment. *)
Definition evict_prog (sourcePolicy mid segmentId : Z) : program unit :=
  m ← peek (λ w, mapping_of w mid);
  locked (segment_lock mid m segmentId)
    (_ ← (if negb (sourcePolicy =? localPolicy m) && negb (localPolicy m =? 0)
          then notifyEvict_prog (localPolicy m) mid segmentId else Ret tt);
     _ ← (if negb (sourcePolicy =? globalPolicy m) && negb (globalPolicy m =? 0)
          then notifyEvict_prog (globalPolicy m) mid segmentId else Ret tt);
     flush_prog mid (segmentId ⊗ segmentSize m) (segmentSize m)
       (Z.lor UMMAP_FLUSH_UNMAP UMMAP_FLUSH_NO_LOCK)).

Fixpoint evictAll_prog (pid : Z) (ids : list (Z * Z)) : program unit :=
  match ids with
  | [] => Ret tt
  | (mid, index) :: ids' => _ ← evict_prog pid mid index; evictAll_prog pid ids'
  end.

(** [policy->shrinkMemory()]. *)
Definition shrink_section (fuel : nat) (pid : Z) (w : W) : result (list (Z * Z) * W) :=
  p ← deref (w_policies w !! pid);
  '(h', p', ids) ← pol_shrinkMemory (segment_size_of w) fuel (w_heap w) p;
  Ok (ids, set_policy w h' pid p').

Definition shrinkMemory_prog (fuel : nat) (pid : Z) : program unit :=
  mutex ← peek (λ w, policy_mutex w pid);
  ids ← locked (PolicyMutex mutex) (act (λ _, shrink_section fuel pid));
  evictAll_prog pid ids.

(** ** Quotas: the memory of each policy is read on its own, without its mutex *)

Fixpoint getUsedMemory_prog (pids : list Z) (totMem : Z) : program Z :=
  match pids with
  | [] => Ret totMem
  | pid :: pids' => mem ← peek (λ w, getCurrentMemory w pid); getUsedMemory_prog pids' (totMem ⊕ mem)
  end.

Fixpoint findMax_prog (pids : list Z) (polMax : Z) : program Z :=
  match pids with
  | [] => Ret polMax
  | pid :: pids' =>
      a ← peek (λ w, getCurrentMemory w pid);
      b ← peek (λ w, getCurrentMemory w polMax);
      findMax_prog pids' (if b <? a then pid else polMax)
  end.

Fixpoint reduceLoop_prog (inner fuel : nat) (q : PolicyQuota) (averageMem totMem : Z) : program unit :=
  match fuel with
  | O => Crash OutOfFuel
  | S fuel' =>
      if q_staticMaxMemory q <? totMem then
        first ← peek (λ _, deref (head (q_policies q)));
        polMax ← findMax_prog (q_policies q) first;
        mem ← peek (λ w, getCurrentMemory w polMax);
        let limit := averageMem ⊕ (mem ⊖ averageMem) / 2 in
        _ ← run (λ w, update_base w polMax (λ b, Ok (setDynamicMaxMemory b limit)));
        _ ← shrinkMemory_prog inner polMax;
        totMem' ← getUsedMemory_prog (q_policies q) 0;
        reduceLoop_prog inner fuel' q averageMem totMem'
      else Ret tt
  end.

Definition update_prog (fuel : nat) (qid : Z) : program unit :=
  locked (QuotaMutex qid)
    (q ← peek (λ w, deref (w_quotas w !! qid));
     let cntPolicies := Z.of_nat (length (q_policies q)) in
     if cntPolicies =? 0 then Ret tt
     else
       totMem ← getUsedMemory_prog (q_policies q) 0;
       reduceLoop_prog fuel fuel q (q_staticMaxMemory q / cntPolicies) totMem).

(** The critical section of [registerPolicy], then what follows it. *)
Definition join_quota (qid policy : Z) (w : W) : result W :=
  q ← deref (w_quotas w !! qid);
  update_base (set_quota w qid (mkQuota (q_staticMaxMemory q) (q_policies q ++ [policy]))) policy
    (λ b, setQuota b qid).

Definition registerPolicy_prog (fuel : nat) (qid policy : Z) : program unit :=
  _ ← peek (λ _, assume (negb (policy =? 0)) "Invalid NULL policy recived for quota registration !");
  _ ← locked (QuotaMutex qid) (run (join_quota qid policy));
  _ ← run (λ w, updateNotifyLimit w qid);
  update_prog fuel qid.

Definition leave_quota (qid policy : Z) (w : W) : result W :=
  q ← deref (w_quotas w !! qid);
  assume (bool_decide (policy ∈ q_policies q))
    "Did not found the policy to remove in the registed list !";;
  update_base (set_quota w qid (mkQuota (q_staticMaxMemory q) (remove_first policy (q_policies q))))
    policy (λ b, setQuota b 0).

Definition unregisterPolicy_prog (fuel : nat) (qid policy : Z) : program unit :=
  _ ← peek (λ _, assume (negb (policy =? 0)) "Invalid NULL policy recived for quota de-registration !");
  _ ← locked (QuotaMutex qid) (run (leave_quota qid policy));
  _ ← run (λ w, updateNotifyLimit w qid);
  update_prog fuel qid.

Definition destroyPolicy_prog (fuel : nat) (pid : Z) : program unit :=
  qid ← peek (λ w, p ← deref (w_policies w !! pid); Ok (policyQuota (pol_base p)));
  _ ← (if negb (qid =? 0) then unregisterPolicy_prog fuel qid pid else Ret tt);
  run (λ w, Ok (mkWorld (w_heap w) (w_vm w) (w_mappings w) (w_drivers w)
                  (delete pid (w_policies w)) (w_quotas w))).

(** ** Faults *)

Definition touch_policy (fuel : nat) (pid mid index : Z) (w : W) : result (Touched * W) :=
  p ← deref (w_policies w !! pid);
  '(h', p', t) ← pol_notifyTouch (segment_size_of w) fuel (w_heap w) p mid index;
  Ok (t, set_policy w h' pid p').

(** The evictions and the quota are out of the critical section. *)
Definition notifyTouch_prog (fuel : nat) (pid mid index : Z) : program unit :=
  mutex ← peek (λ w, policy_mutex w pid);
  t ← locked (PolicyMutex mutex) (act (λ _, touch_policy fuel pid mid index));
  _ ← evictAll_prog pid (t_evicted t);
  quota ← peek (λ w, p ← deref (w_policies w !! pid);
    Ok (if notifiesQuota (pol_base p) t (pol_getCurrentMemory p)
        then Some (policyQuota (pol_base p)) else None));
  match quota with Some qid => update_prog fuel qid | None => Ret tt end.

(** The test before the critical section, and the section. *)
Definition fault_check (mid address : Z) (w : W) : result Mapping :=
  m ← mapping_of w mid;
  assume ((baseAddress m <=? address) &&
          (address <? baseAddress m + segments m ⊗ segmentSize m))
    "Invalid address, not fit into the current segment !";;
  Ok m.

Definition fault_section (mid address : Z) (isWrite : bool) (got : option Z) (w : W)
    : result (option (Z * SegmentStatus) * W) :=
  with_mapping w mid (λ m v d,
    '(m', v', d', notif) ← Mapping.onSegmentationFault got m v d address isWrite;
    Ok (notif, (m', v', d'))).

(** [Mapping::onSegmentationFault]. *)
Definition handleFault_prog (fuel : nat) (mid address : Z) (isWrite : bool) : program unit :=
  m ← peek (fault_check mid address);
  notif ← locked (segment_lock mid m ((address - baseAddress m) / segmentSize m))
            (act (fault_section mid address isWrite));
  match notif with
  | None => Ret tt
  | Some (segmentId, _) =>
      _ ← (if negb (localPolicy m =? 0) then notifyTouch_prog fuel (localPolicy m) mid segmentId
           else Ret tt);
      if negb (globalPolicy m =? 0) then notifyTouch_prog fuel (globalPolicy m) mid segmentId
      else Ret tt
  end.

(** [MappingRegistry::getMapping] and the other operations of the registry. *)
Definition lookup_prog (addr : Z) : program Z :=
  locked RegistryLock (act_handler (λ g, mid ← Registry.getMapping (mappingRegistry g) addr; Ok (mid, g))).
Definition registerMapping_prog (mid : Z) : program unit :=
  locked RegistryLock (act_handler (λ g, g' ← GlobalHandler.registerMapping g mid; Ok (tt, g'))).
Definition unregisterMapping_prog (mid : Z) : program unit :=
  locked RegistryLock (act_handler (λ g, g' ← GlobalHandler.unregisterMapping g mid; Ok (tt, g'))).

(** [GlobalHandler::onSegFault]. *)
Definition onSegFault_prog (fuel : nat) (addr : Z) (isWrite : bool) : program bool :=
  mid ← lookup_prog addr;
  if mid =? 0 then Ret false
  else _ ← handleFault_prog fuel mid addr isWrite; Ret true.

(** ** Construction and destruction *)

Definition allocateStorage_prog (pid mid count elts flags : Z) : program unit :=
  if pid =? 0 then Ret tt
  else mutex ← peek (λ w, policy_mutex w pid);
       locked (PolicyMutex mutex) (run (λ w, allocateStorage w pid mid count elts flags)).

Definition freeStorage_prog (pid mid : Z) : program unit :=
  if pid =? 0 then Ret tt
  else mutex ← peek (λ w, policy_mutex w pid);
       locked (PolicyMutex mutex) (run (λ w, freeStorage w pid mid)).

(** The constructor up to its first call to a policy. *)
Definition create_section (cpus mid did size segmentSize storageOffset : Z) (protection : prot)
    (flags local global : Z) (got : option Z) (w : W) : result (Mapping * W) :=
  d ← deref (w_drivers w !! did);
  '(m, v', d') ← newMapping_prepare cpus got (w_vm w) d size segmentSize storageOffset
                   protection flags local global;
  w0 ← (if negb (local =? 0) && negb (global =? 0) then
          g ← deref (w_policies w !! global);
          update_base w local (λ b, Ok (forceUsingGroupMutex b (getLocalMutex (pol_base g))))
        else Ok w);
  Ok (m, set_mapping w0 mid (mkMapObj m did) m v' d').

Definition finish_section (flags mid : Z) (w : W) : result (unit * W) :=
  with_mapping w mid (λ m v d, m' ← newMapping_finish flags m; Ok (tt, (m', v, d))).

Definition createMapping_prog (cpus mid did size segmentSize storageOffset : Z) (protection : prot)
    (flags local global : Z) (alloc_l alloc_g : Z * Z) : program unit :=
  m ← act (create_section cpus mid did size segmentSize storageOffset protection flags local global);
  _ ← allocateStorage_prog local mid (segments m) (fst alloc_l) (snd alloc_l);
  _ ← allocateStorage_prog global mid (segments m) (fst alloc_g) (snd alloc_g);
  act (λ _, finish_section flags mid).

Definition unmap_section (mid : Z) (w : W) : result (Mapping * W) :=
  with_mapping w mid (λ m v d, '(v', d') ← deleteMapping m v d; Ok (m, (m, v', d'))).

Definition free_section (mid : Z) (w : W) : result W :=
  mo ← deref (w_mappings w !! mid);
  d ← deref (w_drivers w !! mo_driver mo);
  Ok (mkWorld (w_heap w) (w_vm w) (delete mid (w_mappings w))
        (if hasAutoclean (driver_base d) then delete (mo_driver mo) (w_drivers w) else w_drivers w)
        (w_policies w) (w_quotas w)).

(** [~Mapping]. *)
Definition destroyMapping_prog (fuel : nat) (mid : Z) : program unit :=
  m ← act (λ _, unmap_section mid);
  _ ← freeStorage_prog (localPolicy m) mid;
  _ ← freeStorage_prog (globalPolicy m) mid;
  _ ← (if negb (localPolicy m =? 0) then destroyPolicy_prog fuel (localPolicy m) else Ret tt);
  run (free_section mid).

Fixpoint destroyMappings_prog (fuel : nat) (mids : list Z) : program unit :=
  match mids with
  | [] => Ret tt
  | mid :: mids' => _ ← destroyMapping_prog fuel mid; destroyMappings_prog fuel mids'
  end.

(** [MappingRegistry::deleteAllMappings] holds the spinlock while mappings die. *)
Definition deleteAllMappings_prog (fuel : nat) : program unit :=
  locked RegistryLock
    (entries ← act_handler (λ g, Ok (mappingRegistry g, g));
     _ ← destroyMappings_prog fuel (re_mapping <$> entries);
     act_handler (λ g, Ok (tt, mkHandler [] (policyRegistry g) (process g)))).

(** ** Entry points *)

(** The mapping of an address, with the error of the operations that need one. *)
Definition findMapping_prog (ptr : Z) : program Z :=
  mid ← lookup_prog ptr;
  _ ← peek (λ _, assume (negb (mid =? 0)) "Fail to find ummap mapping to unmap");
  Ret mid.

Definition ummap_prog (cpus size segmentSize storageOffset : Z) (protection : prot)
    (flags did localPolicy : Z) (policyGroup : string) (mid : Z) (alloc_l alloc_g : Z * Z)
    : program Z :=
  globalPolicy ← act_handler (λ g,
    gp ← (if bool_decide (policyGroup = "none") then Ok 0
          else Registry.get (policyRegistry g) policyGroup false); Ok (gp, g));
  _ ← createMapping_prog cpus mid did size segmentSize storageOffset protection flags localPolicy
        globalPolicy alloc_l alloc_g;
  _ ← registerMapping_prog mid;
  m ← peek (λ w, mapping_of w mid);
  Ret (getAddress m).

Definition uunmap_prog (fuel : nat) (ptr : Z) (sync : bool) : program unit :=
  mid ← findMapping_prog ptr;
  _ ← unregisterMapping_prog mid;
  _ ← (if sync : bool then
         m ← peek (λ w, mapping_of w mid); flush_prog mid 0 (getAlignedSize m) UMMAP_FLUSH_SYNC
       else Ret tt);
  destroyMapping_prog fuel mid.

Definition makeDirty_prog (ptr : Z) : program unit :=
  mid ← findMapping_prog ptr; markCleanAsDirty_prog mid.

(** The range [GlobalHandler::flush] computes. *)
Definition umflush_range (m : Mapping) (ptr size : Z) : result (Z * Z) :=
  let offset := wrap (ptr - getAddress m) in
  let size := if size =? 0 then getAlignedSize m ⊖ offset else size in
  let '(offset, size) := alignFlush (getSegmentSize m) offset size in
  assume (ptr + size <=? getAddress m + getAlignedSize m)
    "Invalid flush size, not fit in ummap mapping !";;
  Ok (offset, size).

Definition umflush_prog (ptr size : Z) (evict sync : bool) : program unit :=
  mid ← findMapping_prog ptr;
  range ← peek (λ w, m ← mapping_of w mid; umflush_range m ptr size);
  let '(offset, size) := range in
  flush_prog mid offset size
    (Z.lor (if sync then UMMAP_FLUSH_SYNC else 0) (if evict then UMMAP_FLUSH_UNMAP else 0)).

(** ** The application

    A load or a store that the page protection refuses raises a fault; the handler runs
    in the thread and the instruction is tried again, here at most [tries] times. *)

Definition load_byte (a : Z) (g : G) : option (Z * access_event * G) :=
  let v := w_vm (process g) in
  if readable v a then Some (vm_mem v a, Loaded a (vm_mem v a), g) else None.

Definition store_byte (a b : Z) (g : G) : option (unit * access_event * G) :=
  let v := w_vm (process g) in
  if writable v a
  then Some (tt, Stored a b, set_process g (poke_world (process g) a b)) else None.

(** The signal handler: a fault that is not ours ends the process here. *)
Definition fault_prog (fuel : nat) (a : Z) (isWrite : bool) : program unit :=
  ours ← onSegFault_prog fuel a isWrite;
  if ours : bool then Ret tt else Crash BadAccess.

Fixpoint access_prog {X} (f : G → option (X * access_event * G)) (fuel tries : nat) (a : Z) (isWrite : bool)
    : program unit :=
  Access f (λ r, match r, tries with
                 | Some _, _ | None, O => Ret tt
                 | None, S tries' =>
                     _ ← fault_prog fuel a isWrite; access_prog f fuel tries' a isWrite
                 end).

(** What a thread of the application calls. *)
Inductive call : Type :=
  | CLoad (a : Z)
  | CStore (a b : Z)
  | CFlush (ptr size : Z) (evict sync : bool)
  | CDropClean (mid : Z)
  | CMakeDirty (ptr : Z)
  | CGetStatus (mid offset : Z)
  | CQuotaUpdate (qid : Z)
  | CRegisterPolicy (qid pid : Z)
  | CUnregisterPolicy (qid pid : Z)
  | CUmmap (cpus size segmentSize storageOffset : Z) (protection : prot) (flags did localPolicy : Z)
      (policyGroup : string) (mid : Z) (alloc_l alloc_g : Z * Z)
  | CUunmap (ptr : Z) (sync : bool)
  | CDeleteAll.

Definition call_prog (fuel tries : nat) (c : call) : program unit :=
  match c with
  | CLoad a => access_prog (load_byte a) fuel tries a false
  | CStore a b => access_prog (store_byte a b) fuel tries a true
  | CFlush ptr size evict sync => umflush_prog ptr size evict sync
  | CDropClean mid => dropClean_prog mid
  | CMakeDirty ptr => makeDirty_prog ptr
  | CGetStatus mid offset => _ ← getSegmentStatus_prog mid offset; Ret tt
  | CQuotaUpdate qid => update_prog fuel qid
  | CRegisterPolicy qid pid => registerPolicy_prog fuel qid pid
  | CUnregisterPolicy qid pid => unregisterPolicy_prog fuel qid pid
  | CUmmap cpus size segSize off pr flags did lp group mid al ag =>
      _ ← ummap_prog cpus size segSize off pr flags did lp group mid al ag; Ret tt
  | CUunmap ptr sync => uunmap_prog fuel ptr sync
  | CDeleteAll => deleteAllMappings_prog fuel
  end.

Fixpoint thread_prog (fuel tries : nat) (calls : list call) : program unit :=
  match calls with
  | [] => Ret tt
  | c :: calls' => _ ← call_prog fuel tries c; thread_prog fuel tries calls'
  end.

Definition launch (fuel tries : nat) (g : G) (threads : list (list call)) : Pool G access_event :=
  start g (thread_prog fuel tries <$> threads).
End Programs.
