(* ===== verification/ThreadOrder.v ===== *)
(** * Threads never block each other for ever

    Every method takes its mutexes in the order registry, quota, segments of a mapping
    by increasing index, policy: whatever the threads of the application call, one of
    them can go on until all have returned. *)

From stdpp Require Import relations sorting.
From S2P Require Import Prelude ListElement Policy PolicyInterface OS Driver Mapping System Registry GlobalHandler Threads ThreadOps.

Section Order.
Context {D P : Type} `{DriverOps D} `{PolicyOps P}.
Abbreviation program := (prog (GlobalHandler D P) access_event).

(** [p] only takes locks of level [n] and above, and returns with the ones it had. *)
Definition neutral {A} (n : Z) (p : program A) : Prop :=
  ∀ held, (∀ h, h ∈ held → level h < n) → ordered held p held.

Lemma neutral_le {A} n n' (p : program A) : neutral n' p → n ≤ n' → neutral n p.
Proof. intros Hp Hn held Hh. apply Hp. intros h Hin. pose proof (Hh h Hin). lia. Qed.

Lemma neutral_bind {A B} n (p : program A) (k : A → program B) :
  neutral n p → (∀ a, neutral n (k a)) → neutral n (p ≫= k).
Proof. intros Hp Hk held Hh. eapply ordered_bind; [by apply Hp|]. intros a. by apply Hk. Qed.

Lemma neutral_ret {A} n (a : A) : neutral n (Ret a).
Proof. by intros held _. Qed.
Lemma neutral_crash {A} n e : neutral n (Crash e : program A).
Proof. by intros held _. Qed.
Lemma neutral_act {X} n f : neutral n (act (X := X) f).
Proof. by intros held _. Qed.
Lemma neutral_peek {X} n f : neutral n (peek (X := X) f).
Proof. by intros held _. Qed.
Lemma neutral_run n f : neutral n (run f).
Proof. by intros held _. Qed.
Lemma neutral_act_handler {X} n f : neutral n (act_handler (X := X) f).
Proof. by intros held _. Qed.

Lemma neutral_access {X A} n f (k : option X → program A) :
  (∀ x, neutral n (k x)) → neutral n (Access f k).
Proof. intros Hk held Hh x. by apply Hk. Qed.

Lemma neutral_locked {X} n l (p : program X) :
  n ≤ level l → neutral (level l + 1) p → neutral n (locked l p).
Proof.
  intros Hn Hp held Hh. cbn. split.
  - intros h Hin. left. pose proof (Hh h Hin). lia.
  - eapply ordered_bind; [apply Hp|].
    + intros h [->%elem_of_singleton|Hin]%elem_of_union; [lia|]. pose proof (Hh h Hin). lia.
    + intros x. cbn. assert (l ∉ held) by (intros Hin; pose proof (Hh l Hin); lia). set_solver.
Qed.
End Order.

Create HintDb locks.

(** Go through the sections of a program; the hints [locks] know the methods. *)
Ltac neutral_step :=
  lazymatch goal with
  | |- neutral _ (Ret _) => apply neutral_ret
  | |- neutral _ (Crash _) => apply neutral_crash
  | |- neutral _ (act _) => apply neutral_act
  | |- neutral _ (peek _) => apply neutral_peek
  | |- neutral _ (run _) => apply neutral_run
  | |- neutral _ (act_handler _) => apply neutral_act_handler
  | |- neutral _ (locked _ _) => apply neutral_locked; [cbn; lia|cbn [segment_lock level]]
  | |- neutral _ (match ?x with _ => _ end) => destruct x
  | |- neutral _ (_ ≫= _) => apply neutral_bind; [|intros ?]
  | |- neutral _ _ =>
      first [ solve [eauto 1 with locks nocore]
            | eapply neutral_le; [solve [eauto 1 with locks nocore]|cbn; lia] ]
  end.
Ltac neutral_auto := repeat neutral_step.

Section Programs.
Context {D P : Type} `{DriverOps D} `{PolicyOps P}.
Abbreviation program := (prog (GlobalHandler D P) access_event).

(** ** Several mutexes of a mapping *)

(** The mutexes [idx] of mapping [mid]. *)
Definition mutexes (mid : Z) (idx : list Z) : gset lock := list_to_set (SegmentMutex mid <$> idx).
#[local] Arguments mutexes : simpl never.

Lemma elem_of_mutexes mid idx l : l ∈ mutexes mid idx ↔ ∃ i, l = SegmentMutex mid i ∧ i ∈ idx.
Proof. unfold mutexes. rewrite elem_of_list_to_set, list_elem_of_fmap. done. Qed.

Lemma mutexes_nil mid : mutexes mid [] = ∅.
Proof. done. Qed.

Lemma mutexes_cons mid i idx : mutexes mid (i :: idx) = {[SegmentMutex mid i]} ∪ mutexes mid idx.
Proof. done. Qed.

Lemma ordered_lockAll {St Ev : Type} mid idx held held' (k : prog St Ev unit) :
  StronglySorted Z.lt idx →
  (∀ h, h ∈ held → level h < 2 ∨ ∃ j, h = SegmentMutex mid j ∧ ∀ i, i ∈ idx → j < i) →
  ordered (mutexes mid idx ∪ held) k held' → ordered held (lockAll mid idx k) held'.
Proof.
  intros Hs. revert held. induction Hs as [|i idx Hs IH Hlt]; intros held Hh Hk.
  - cbn. by rewrite mutexes_nil, (left_id_L ∅ (∪)) in Hk.
  - cbn. split.
    + intros h Hin. destruct (Hh h Hin) as [?|(j & -> & Hj)]; [by left|right].
      split; [done|]. apply Hj. by left.
    + apply IH.
      * intros h [->%elem_of_singleton|Hin]%elem_of_union.
        -- right. exists i. split; [done|]. by apply Forall_forall.
        -- destruct (Hh h Hin) as [?|(j & -> & Hj)]; [by left|right].
           exists j. split; [done|]. intros i' Hi'. apply Hj. by right.
      * rewrite mutexes_cons in Hk. by rewrite (assoc_L (∪)), (comm_L (∪) (mutexes mid idx)).
Qed.

Lemma ordered_unlockAll {St Ev : Type} mid idx held held' (k : prog St Ev unit) :
  NoDup idx → (∀ i, SegmentMutex mid i ∉ held) → ordered held k held' →
  ordered (mutexes mid idx ∪ held) (unlockAll mid idx k) held'.
Proof.
  intros Hnd Hh Hk. induction Hnd as [|i idx Hi Hnd IH]; cbn.
  - by rewrite mutexes_nil, (left_id_L ∅ (∪)).
  - rewrite mutexes_cons. split; [set_solver|].
    replace (({[SegmentMutex mid i]} ∪ mutexes mid idx ∪ held) ∖ {[SegmentMutex mid i]})
      with (mutexes mid idx ∪ held); [done|].
    assert (SegmentMutex mid i ∉ mutexes mid idx).
    { rewrite elem_of_mutexes. intros (j & [= <-] & Hj). done. }
    pose proof (Hh i). set_solver.
Qed.

Lemma sorted_NoDup idx : StronglySorted Z.lt idx → NoDup idx.
Proof.
  induction 1 as [|i idx Hs IH Hlt]; [constructor|]. constructor; [|done].
  intros Hi. rewrite Forall_forall in Hlt. specialize (Hlt i Hi). lia.
Qed.

Lemma sorted_seqZ lo n : StronglySorted Z.lt (seqZ lo n).
Proof.
  destruct (Z.lt_ge_cases n 0); [by rewrite seqZ_nil by lia; constructor|].
  revert lo. pattern n. apply Zlt_0_ind; [|done]. clear. intros n IH Hn lo.
  destruct (decide (n = 0)) as [->|]; [constructor|]. rewrite seqZ_cons by lia. constructor.
  - apply IH. lia.
  - apply Forall_forall. intros i Hi%elem_of_seqZ. lia.
Qed.

Lemma sorted_marked toLock : StronglySorted Z.lt (marked toLock).
Proof.
  unfold marked. induction (sorted_seqZ 0 (Z.of_nat (length toLock))) as [|i idx Hs IH Hlt]; [constructor|].
  rewrite filter_cons. case_decide; [|done]. constructor; [done|].
  rewrite Forall_forall in Hlt |- *. intros j [_ Hj]%list_elem_of_filter. by apply Hlt.
Qed.

(** What runs between the loops that lock and unlock. *)
Lemma neutral_lockAll mid idx (q : program unit) :
  StronglySorted Z.lt idx →
  (∀ held, (∀ i, SegmentMutex mid i ∉ held) → ordered (mutexes mid idx ∪ held) q held) →
  neutral 2 (lockAll mid idx q).
Proof.
  intros Hs Hq held Hh. apply ordered_lockAll; [done|intros h Hin; left; by apply Hh|].
  apply Hq. intros i Hin. pose proof (Hh _ Hin). cbn in *. lia.
Qed.

(** ** The methods *)

Lemma flushRounds_ordered fuel mid unmap last curOffset held :
  ordered held (flushRounds fuel mid unmap last curOffset : program unit) held.
Proof.
  revert curOffset. induction fuel as [|fuel IH]; intros curOffset; cbn; [done|].
  destruct (curOffset <? last); [|done]. intros x. apply IH.
Qed.

(** The rounds and the sync take no lock. *)
Lemma flush_body_ordered fuel mid unmap last curOffset (sync : bool) f held held' (k : program unit) :
  ordered held k held' →
  ordered held (_ ← flushRounds fuel mid unmap last curOffset;
                _ ← (if sync then act f else Ret tt); k) held'.
Proof.
  intros Hk. eapply ordered_bind; [apply flushRounds_ordered|]. intros _.
  eapply ordered_bind; [|by intros _]. by destruct sync.
Qed.

Lemma flush_neutral mid offset size flags : neutral 2 (flush_prog mid offset size flags : program unit).
Proof.
  unfold flush_prog. neutral_step; [neutral_step|]. destruct a as [[toLock m]|]; [|neutral_step].
  assert (Hs : ∀ b : bool, StronglySorted Z.lt (if b then [] else marked toLock))
    by (intros []; [constructor|apply sorted_marked]).
  apply neutral_lockAll; [apply Hs|]. intros held Hh. apply flush_body_ordered.
  apply ordered_unlockAll; [apply sorted_NoDup, Hs|done|done].
Qed.

(** With [UMMAP_FLUSH_NO_LOCK], no lock at all. *)
Lemma flush_nolock_neutral n mid offset size flags :
  has_flag flags UMMAP_FLUSH_NO_LOCK = true → neutral n (flush_prog mid offset size flags : program unit).
Proof.
  intros Hf. unfold flush_prog. neutral_step; [neutral_step|].
  destruct a as [[toLock m]|]; [|neutral_step]. rewrite Hf. intros held _. cbn [lockAll unlockAll foldr].
  by apply flush_body_ordered.
Qed.

Lemma all_segments_neutral f mid : neutral 2 (all_segments f mid : program unit).
Proof.
  unfold all_segments. neutral_step; [neutral_step|].
  apply neutral_lockAll; [apply sorted_seqZ|]. intros held Hh. eapply ordered_bind.
  - induction (seqZ 0 (segments a)) as [|i idx IH]; cbn; [done|]. by intros x.
  - intros _. apply ordered_unlockAll; [apply NoDup_seqZ|done|done].
Qed.

#[local] Hint Resolve flush_neutral all_segments_neutral : locks.

Lemma notifyEvict_neutral pid mid index : neutral 3 (notifyEvict_prog pid mid index : program unit).
Proof. unfold notifyEvict_prog. neutral_auto. Qed.
#[local] Hint Resolve notifyEvict_neutral : locks.

Lemma evict_neutral source mid i : neutral 2 (evict_prog source mid i : program unit).
Proof.
  unfold evict_prog. repeat first [by apply flush_nolock_neutral|neutral_step].
Qed.
#[local] Hint Resolve evict_neutral : locks.

Lemma evictAll_neutral pid ids : neutral 2 (evictAll_prog pid ids : program unit).
Proof. induction ids as [|[mid i] ids IH]; cbn [evictAll_prog]; neutral_auto. Qed.
#[local] Hint Resolve evictAll_neutral : locks.

Lemma shrinkMemory_neutral fuel pid : neutral 2 (shrinkMemory_prog fuel pid : program unit).
Proof. unfold shrinkMemory_prog. neutral_auto. Qed.
#[local] Hint Resolve shrinkMemory_neutral : locks.

Lemma getUsedMemory_neutral n pids tot : neutral n (getUsedMemory_prog pids tot : program Z).
Proof. revert tot. induction pids as [|pid pids IH]; intros tot; cbn [getUsedMemory_prog]; neutral_auto. Qed.

Lemma findMax_neutral n pids m : neutral n (findMax_prog pids m : program Z).
Proof. revert m. induction pids as [|pid pids IH]; intros m; cbn [findMax_prog]; neutral_auto. Qed.
#[local] Hint Resolve getUsedMemory_neutral findMax_neutral : locks.

Lemma reduceLoop_neutral inner fuel q avg tot :
  neutral 2 (reduceLoop_prog inner fuel q avg tot : program unit).
Proof.
  revert tot. induction fuel as [|fuel IH]; intros tot; cbn [reduceLoop_prog]; neutral_auto.
Qed.
#[local] Hint Resolve reduceLoop_neutral : locks.

Lemma update_neutral fuel qid : neutral 1 (update_prog fuel qid : program unit).
Proof. unfold update_prog. neutral_auto. Qed.
#[local] Hint Resolve update_neutral : locks.

Lemma registerPolicy_neutral fuel qid pid : neutral 1 (registerPolicy_prog fuel qid pid : program unit).
Proof. unfold registerPolicy_prog. neutral_auto. Qed.

Lemma unregisterPolicy_neutral fuel qid pid : neutral 1 (unregisterPolicy_prog fuel qid pid : program unit).
Proof. unfold unregisterPolicy_prog. neutral_auto. Qed.
#[local] Hint Resolve registerPolicy_neutral unregisterPolicy_neutral : locks.

Lemma destroyPolicy_neutral fuel pid : neutral 1 (destroyPolicy_prog fuel pid : program unit).
Proof. unfold destroyPolicy_prog. neutral_auto. Qed.

Lemma notifyTouch_neutral fuel pid mid i : neutral 1 (notifyTouch_prog fuel pid mid i : program unit).
Proof. unfold notifyTouch_prog. neutral_auto. Qed.
#[local] Hint Resolve destroyPolicy_neutral notifyTouch_neutral : locks.

Lemma handleFault_neutral fuel mid a w : neutral 1 (handleFault_prog fuel mid a w : program unit).
Proof. unfold handleFault_prog. neutral_auto. Qed.

Lemma lookup_neutral a : neutral 0 (lookup_prog a : program Z).
Proof. unfold lookup_prog. neutral_auto. Qed.
#[local] Hint Resolve handleFault_neutral lookup_neutral : locks.

Lemma onSegFault_neutral fuel a w : neutral 0 (onSegFault_prog fuel a w : program bool).
Proof. unfold onSegFault_prog. neutral_auto. Qed.

Lemma allocateStorage_neutral pid mid count elts flags :
  neutral 3 (allocateStorage_prog pid mid count elts flags : program unit).
Proof. unfold allocateStorage_prog. neutral_auto. Qed.
Lemma freeStorage_neutral pid mid : neutral 3 (freeStorage_prog pid mid : program unit).
Proof. unfold freeStorage_prog. neutral_auto. Qed.
#[local] Hint Resolve onSegFault_neutral allocateStorage_neutral freeStorage_neutral : locks.

Lemma createMapping_neutral cpus mid did size ss off pr flags l g al ag :
  neutral 3 (createMapping_prog cpus mid did size ss off pr flags l g al ag : program unit).
Proof. unfold createMapping_prog. neutral_auto. Qed.

Lemma destroyMapping_neutral fuel mid : neutral 1 (destroyMapping_prog fuel mid : program unit).
Proof. unfold destroyMapping_prog. neutral_auto. Qed.
#[local] Hint Resolve createMapping_neutral destroyMapping_neutral : locks.

Lemma destroyMappings_neutral fuel mids : neutral 1 (destroyMappings_prog fuel mids : program unit).
Proof. induction mids as [|mid mids IH]; cbn [destroyMappings_prog]; neutral_auto. Qed.
#[local] Hint Resolve destroyMappings_neutral : locks.

Lemma access_neutral {X} (f : GlobalHandler D P → option (X * access_event * GlobalHandler D P)) fuel tries a w :
  neutral 0 (access_prog f fuel tries a w : program unit).
Proof.
  induction tries as [|tries IH]; cbn [access_prog]; apply neutral_access; intros [x|]; [neutral_auto..|].
  apply neutral_bind; [|by intros _]. unfold fault_prog. neutral_auto.
Qed.
#[local] Hint Resolve access_neutral : locks.

Lemma call_neutral fuel tries c : neutral 0 (call_prog fuel tries c : program unit).
Proof.
  destruct c; cbn [call_prog]; unfold umflush_prog, makeDirty_prog, dropClean_prog,
    markCleanAsDirty_prog, getSegmentStatus_prog, uunmap_prog, ummap_prog, deleteAllMappings_prog,
    findMapping_prog, registerMapping_prog, unregisterMapping_prog; neutral_auto.
Qed.

Lemma thread_ordered fuel tries calls : ordered ∅ (thread_prog fuel tries calls : program unit) ∅.
Proof.
  induction calls as [|c calls IH]; cbn [thread_prog]; [done|].
  eapply ordered_bind; [|by intros _]. apply call_neutral. set_solver.
Qed.

(** C7: threads never deadlock.  Whatever calls the threads make, faults included, and
    however their steps interleave, either every thread has returned or some thread can
    step: the mutexes of the registry, the quotas, the segments and the policies are
    always taken in one order, and a mutex released is one its thread holds.  This says
    nothing of a thread that goes round a loop of its own for ever while it holds mutexes
    (as those of [quota_update_spins_on_window]): in a program the loop runs out of its
    fuel, and the step that ends the process stands for it. *)
Theorem threads_never_deadlock fuel tries (g : GlobalHandler D P) (threads : list (list call)) kernel pl :
  rtc (step kernel) (launch fuel tries g threads) pl →
  finished pl ∨ ∃ i, ∀ got, is_Some (step_thread i got pl).
Proof.
  intros Hr. apply disciplined_progress. eapply disciplined_reachable; [|exact Hr].
  apply disciplined_start. intros p (calls & -> & _)%list_elem_of_fmap. apply thread_ordered.
Qed.
End Programs.

(** Two threads read the same page: the second waits for the mutex of the segment. *)
Definition waiting_threads : list (list call) := [[CLoad 65536]; [CLoad 65537]].
Definition waiting : result (Pool (GlobalHandler MemoryDriver FifoPolicy.FifoPolicy) access_event) :=
  run_schedule (λ _ _, true) (replicate 6 (0%nat, None) ++ replicate 6 (1%nat, None))
    (launch 10 3 demo_handler waiting_threads).

Lemma threads_never_deadlock_witness :
  ∃ pl, waiting = Ok pl ∧ ¬ finished pl ∧ step_thread 1 None pl = None ∧
    ∃ i, ∀ got, is_Some (step_thread i got pl).
Proof.
  destruct waiting as [pl|e] eqn:E.
  - assert (match waiting with
            | Ok pl => bool_decide (¬ finished pl) && match step_thread 1 None pl with None => true | _ => false end
            | Err _ => false end = true) as Hb by (vm_compute; reflexivity).
    rewrite E in Hb. apply andb_true_iff in Hb as [Hf%bool_decide_eq_true Hs].
    exists pl. split; [done|]. split; [done|]. split; [by destruct (step_thread 1 None pl)|].
    assert (Hr : rtc (step (λ _ _, True)) (launch 10 3 demo_handler waiting_threads) pl)
      by (eapply run_schedule_steps; [by intros|exact E]).
    destruct (threads_never_deadlock 10 3 demo_handler waiting_threads (λ _ _, True) pl Hr) as [Hd|Hi]; [by destruct (Hf Hd)|exact Hi].
  - assert (match waiting with Ok _ => true | Err _ => false end = true) as Hb by (vm_compute; reflexivity).
    by rewrite E in Hb.
Defined.
