(* ===== verification/ThreadAlone.v ===== *)
(** * A thread that runs alone

    The programs of [ThreadOps] split each method in sections between its locks.  When
    nothing else runs, the sections together do what the sequential definitions of
    [Mapping], [System] and [GlobalHandler] say, errors included. *)

From Stdlib Require Import FunctionalExtensionality.
From S2P Require Import Prelude ListElement Policy PolicyInterface OS Driver Mapping MappingInv System SystemInv Registry GlobalHandler Threads ThreadOps.

Section Alone.
Context {D P : Type} `{DriverOps D} `{PolicyOps P}.
Abbreviation G := (GlobalHandler D P).
Abbreviation W := (World D P).
Abbreviation program := (prog G access_event).

(** ** Sections *)

(** A change of the process, as the end of a program. *)
Definition changes (g : G) (r : result W) : result (unit * G) := w ← r; Ok (tt, set_process g w).

Lemma set_process_id (g : G) : set_process g (process g) = g.
Proof. by destruct g. Qed.

Lemma exec_run got (f : W → result W) (g : G) : exec got (run f : program unit) g = changes g (f (process g)).
Proof. cbn. unfold changes. by destruct (f (process g)). Qed.

Lemma exec_peek {X} got (f : W → result X) (g : G) :
  exec got (peek f : program X) g = (x ← f (process g); Ok (x, g)).
Proof. cbn. by destruct (f (process g)). Qed.

Lemma exec_act {X} got (f : option Z → W → result (X * W)) (g : G) :
  exec got (act f : program X) g = ('(x, w) ← f got (process g); Ok (x, set_process g w)).
Proof. cbn. by destruct (f got (process g)) as [[x w]|e]. Qed.

Lemma changes_bind {X} got (g : G) (r : result W) (k : unit → program X) :
  ('(x, g') ← changes g r; exec got (k x) g') = (w ← r; exec got (k tt) (set_process g w)).
Proof. unfold changes. by destruct r. Qed.

Lemma changes_changes (g : G) (r : result W) (f : W → result W) :
  (w ← r; changes (set_process g w) (f w)) = changes g (w ← r; f w).
Proof. unfold changes. destruct r; cbn; [|done]. by destruct (f a). Qed.

Lemma changes_ok (g : G) : Ok (tt, g) = changes g (Ok (process g)).
Proof. unfold changes. cbn. by rewrite set_process_id. Qed.

(** ** One mapping *)

Lemma set_mapping_twice (w : W) mid mo m v d m' v' d' :
  set_mapping (set_mapping w mid mo m v d) mid (mkMapObj m (mo_driver mo)) m' v' d' =
  set_mapping w mid mo m' v' d'.
Proof. unfold set_mapping. cbn. by rewrite !insert_insert_eq. Qed.

Lemma with_mapping_eq {X} (w : W) mid mo d (f : Mapping → vm → D → result (X * (Mapping * vm * D))) :
  w_mappings w !! mid = Some mo → w_drivers w !! mo_driver mo = Some d →
  with_mapping w mid f =
  ('(x, (m', v', d')) ← f (mo_mapping mo) (w_vm w) d; Ok (x, set_mapping w mid mo m' v' d')).
Proof. intros Hmo Hd. unfold with_mapping. by rewrite Hmo; cbn; rewrite Hd. Qed.

(** After a change of the mapping, the next section finds the result. *)
Lemma with_mapping_set {X} (w : W) mid mo m v d (f : Mapping → vm → D → result (X * (Mapping * vm * D))) :
  with_mapping (set_mapping w mid mo m v d) mid f =
  ('(x, (m', v', d')) ← f m v d; Ok (x, set_mapping w mid mo m' v' d')).
Proof.
  rewrite (with_mapping_eq _ mid (mkMapObj m (mo_driver mo)) d); [|cbn; by rewrite lookup_insert_eq..].
  cbn [w_vm set_mapping mo_mapping]. destruct (f m v d) as [[x [[m' v'] d']]|]; [|done].
  cbn. by rewrite set_mapping_twice.
Qed.

Lemma flushRounds_alone got fuel mid unmap last off (g : G) w mo m v d :
  exec got (flushRounds fuel mid unmap last off : program unit) (set_process g (set_mapping w mid mo m v d)) =
  changes g ('(m', v', d') ← flushLoop fuel unmap last (m, v, d) off; Ok (set_mapping w mid mo m' v' d')).
Proof.
  revert off m v d. induction fuel as [|fuel IH]; intros off m v d; [done|]. cbn [flushRounds flushLoop].
  destruct (off <? last); [|done]. rewrite exec_bind, exec_act. cbn [process set_process].
  rewrite with_mapping_set. destruct (flushSegment unmap (m, v, d) off) as [[[m' v'] d']|e]; [|done]. apply IH.
Qed.

(** The rounds do not move the mapping. *)
Lemma flushLoop_address fuel unmap last m v (d : D) off m' v' d' :
  flushLoop fuel unmap last (m, v, d) off = Ok (m', v', d') → getAddress m' = getAddress m.
Proof.
  revert off m v d. induction fuel as [|fuel IH]; intros off m v d; cbn [flushLoop]; [done|].
  destruct (off <? last); [|by intros [= <- _ _]]. intros Hr. inv_bind Hr. destruct a as [[m1 v1] d1].
  rewrite (IH _ _ _ _ Hr). unfold flushSegment in Hstep. inv_bind Hstep. inv_bind Hstep.
  destruct a0 as [[v2 d2] s2]. inv_bind Hstep. destruct a0 as [v3 s3]. by injection Hstep as <- _ _.
Qed.

(** [on_mapping] of the sequential code. *)
Lemma flush_alone got mid offset size flags (g : G) mo d :
  w_mappings (process g) !! mid = Some mo → w_drivers (process g) !! mo_driver mo = Some d →
  exec got (flush_prog mid offset size flags : program unit) g =
  changes g ('(m', v', d') ← Mapping.flush (mo_mapping mo) (w_vm (process g)) d offset size flags;
             Ok (set_mapping (process g) mid mo m' v' d')).
Proof.
  intros Hmo Hd. unfold flush_prog. rewrite exec_bind, exec_act. unfold flush_entry.
  rewrite (with_mapping_eq _ _ mo d) by done. unfold Mapping.flush. set (m := mo_mapping mo).
  destruct (assume (offset <? getSize m) _); [|done]. cbn [mbind result_bind].
  destruct (assume (offset ⊕ size <=? getAlignedSize m) _); [|done]. cbn [mbind result_bind].
  destruct (assume (offset mod segmentSize m =? 0) _); [|done]. cbn [mbind result_bind].
  destruct (assume (size mod segmentSize m =? 0) _); [|done]. cbn [mbind result_bind].
  destruct (directMSync _ _ _ _ _) as [[[] [d0 v0]]|e]; [done| |done]. cbn [mbind result_bind].
  destruct (getMutexRange m offset size) as [l|e]; [|done]. cbn [mbind result_bind].
  rewrite exec_lockAll, exec_bind, flushRounds_alone, changes_bind.
  destruct (flushLoop _ _ _ _ _) as [[[m1 v1] d1]|e] eqn:Hl; [|done]. cbn [mbind result_bind].
  rewrite exec_bind. apply flushLoop_address in Hl. destruct (has_flag flags UMMAP_FLUSH_SYNC).
  - rewrite exec_act. cbn [process set_process]. unfold flush_sync. rewrite with_mapping_set, Hl.
    destruct (dsync _ _ _ _ _) as [[d2 v2]|e]; [|done]. cbn [mbind result_bind].
    by rewrite exec_unlockAll.
  - cbn [exec mbind result_bind]. by rewrite exec_unlockAll.
Qed.

(** A step on a mapping of the sequential code, [on_mapping], as the end of a program. *)
Lemma flush_on_mapping got mid offset size flags (g : G) mo :
  w_mappings (process g) !! mid = Some mo →
  exec got (flush_prog mid offset size flags : program unit) g =
  changes g (on_mapping (process g) mid mo (λ m v d, Mapping.flush m v d offset size flags)).
Proof.
  intros Hmo. unfold on_mapping. destruct (w_drivers (process g) !! mo_driver mo) as [d|] eqn:Hd.
  - by rewrite (flush_alone _ _ _ _ _ _ mo d).
  - unfold flush_prog. rewrite exec_bind, exec_act. unfold flush_entry, with_mapping.
    rewrite Hmo. cbn [deref mbind result_bind]. by rewrite Hd.
Qed.

(** ** Evictions *)

Lemma notifyEvict_alone got pid mid i (g : G) :
  exec got (notifyEvict_prog pid mid i : program unit) g =
  changes g (System.notifyEvict (process g) pid mid i).
Proof.
  unfold notifyEvict_prog. rewrite exec_bind, exec_peek. unfold policy_mutex.
  destruct (w_policies (process g) !! pid) eqn:Hp; cbn [deref mbind result_bind].
  - by rewrite exec_locked, exec_run.
  - unfold System.notifyEvict. by rewrite Hp.
Qed.

(** A call that may not be made. *)
Lemma exec_when got (b : bool) (p : program unit) (g : G) (r : result W) :
  exec got p g = changes g r → exec got (if b then p else Ret tt) g = changes g (if b then r else Ok (process g)).
Proof. intros Hp. destruct b; [done|]. apply changes_ok. Qed.

Lemma notifyEvict_mappings (b : bool) (w : W) pid mid i w' :
  (if b then System.notifyEvict w pid mid i else Ok w) = Ok w' → w_mappings w' = w_mappings w.
Proof.
  destruct b; [|by intros [= <-]]. unfold System.notifyEvict. intros Hr. inv_bind Hr. inv_bind Hr.
  destruct a0. by injection Hr as <-.
Qed.

Lemma evict_alone got source mid i (g : G) :
  exec got (evict_prog source mid i : program unit) g = changes g (evict (process g) source mid i).
Proof.
  unfold evict_prog, evict. rewrite exec_bind, exec_peek. unfold mapping_of.
  destruct (w_mappings (process g) !! mid) as [mo|] eqn:Hmo; [|done]. cbn [deref mbind result_bind].
  set (m := mo_mapping mo). rewrite exec_locked, exec_bind.
  rewrite (exec_when _ _ _ _ _ (notifyEvict_alone _ _ _ _ _)), changes_bind.
  destruct (if _ && _ then System.notifyEvict (process g) (localPolicy m) mid i else _) as [w1|e] eqn:H1;
    [|done]. apply notifyEvict_mappings in H1. cbn [mbind result_bind].
  rewrite exec_bind, (exec_when _ _ _ _ _ (notifyEvict_alone _ _ _ _ _)), changes_bind.
  cbn [process set_process].
  destruct (if _ && _ then System.notifyEvict w1 (globalPolicy m) mid i else _) as [w2|e] eqn:H2;
    [|done]. apply notifyEvict_mappings in H2. cbn [mbind result_bind].
  rewrite (flush_on_mapping _ _ _ _ _ _ mo) by (cbn; congruence). done.
Qed.

Lemma evictAll_alone got pid ids (g : G) :
  exec got (evictAll_prog pid ids : program unit) g = changes g (evictAll (process g) pid ids).
Proof.
  revert g. induction ids as [|[mid i] ids IH]; intros g; cbn [evictAll_prog]; [apply changes_ok|].
  rewrite exec_bind, evict_alone, changes_bind. cbn [evictAll foldM].
  destruct (evict (process g) pid mid i); [|done]. apply IH.
Qed.

Lemma shrinkMemory_alone got fuel pid (g : G) :
  exec got (shrinkMemory_prog fuel pid : program unit) g = changes g (shrinkMemory fuel (process g) pid).
Proof.
  unfold shrinkMemory_prog, shrinkMemory. rewrite exec_bind, exec_peek. unfold policy_mutex.
  destruct (w_policies (process g) !! pid) as [p|] eqn:Hp; [|done]. cbn [deref mbind result_bind].
  rewrite exec_bind, exec_locked, exec_act. unfold shrink_section. rewrite Hp. cbn [deref mbind result_bind].
  destruct (pol_shrinkMemory _ _ _ _) as [[[h' p'] ids]|e]; [|done]. cbn [mbind result_bind].
  by rewrite evictAll_alone.
Qed.

(** ** Quotas *)

Lemma getUsedMemory_alone got pids tot (g : G) :
  exec got (getUsedMemory_prog pids tot : program Z) g =
  (x ← foldM (λ totMem pid, mem ← getCurrentMemory (process g) pid; Ok (totMem ⊕ mem)) tot pids; Ok (x, g)).
Proof.
  revert tot. induction pids as [|pid pids IH]; intros tot; [done|]. cbn [getUsedMemory_prog foldM].
  rewrite exec_bind, exec_peek. destruct (getCurrentMemory (process g) pid); [|done]. apply IH.
Qed.

Lemma findMax_alone got pids m (g : G) :
  exec got (findMax_prog pids m : program Z) g =
  (x ← foldM (λ polMax pid,
     a ← getCurrentMemory (process g) pid;
     b ← getCurrentMemory (process g) polMax;
     Ok (if b <? a then pid else polMax)) m pids; Ok (x, g)).
Proof.
  revert m. induction pids as [|pid pids IH]; intros m; [done|]. cbn [findMax_prog foldM].
  rewrite exec_bind, exec_peek. destruct (getCurrentMemory (process g) pid); [|done].
  cbn [mbind result_bind]. rewrite exec_bind, exec_peek.
  destruct (getCurrentMemory (process g) m); [|done]. apply IH.
Qed.

Lemma reduceLoop_alone got inner fuel q avg tot (g : G) :
  exec got (reduceLoop_prog inner fuel q avg tot : program unit) g =
  changes g (reduceLoop inner fuel (process g) q avg tot).
Proof.
  revert tot g. induction fuel as [|fuel IH]; intros tot g; [done|]. cbn [reduceLoop_prog reduceLoop].
  destruct (q_staticMaxMemory q <? tot); [|apply changes_ok].
  rewrite exec_bind, exec_peek. unfold findMax. destruct (deref _) as [first|]; [|done].
  cbn [mbind result_bind]. rewrite exec_bind, findMax_alone.
  destruct (foldM _ first (q_policies q)) as [polMax|]; [|done]. cbn [mbind result_bind].
  rewrite exec_bind, exec_peek. destruct (getCurrentMemory (process g) polMax) as [mem|]; [|done].
  cbn [mbind result_bind]. rewrite exec_bind, exec_run, changes_bind.
  destruct (update_base _ _ _) as [w1|]; [|done]. cbn [mbind result_bind].
  rewrite exec_bind, shrinkMemory_alone, changes_bind. cbn [process set_process].
  destruct (shrinkMemory inner w1 polMax) as [w2|]; [|done]. cbn [mbind result_bind].
  rewrite exec_bind, getUsedMemory_alone. cbn [process set_process]. unfold getUsedMemory.
  destruct (foldM _ 0 (q_policies q)) as [tot'|]; [|done]. apply IH.
Qed.

Lemma update_alone got fuel qid (g : G) :
  exec got (update_prog fuel qid : program unit) g = changes g (update fuel (process g) qid).
Proof.
  unfold update_prog, update. rewrite exec_locked, exec_bind, exec_peek.
  destruct (deref (w_quotas (process g) !! qid)) as [q|]; [|done]. cbn [mbind result_bind].
  destruct (Z.of_nat (length (q_policies q)) =? 0); [apply changes_ok|].
  rewrite exec_bind, getUsedMemory_alone. unfold getUsedMemory.
  destruct (foldM _ 0 (q_policies q)) as [tot|]; [|done]. apply reduceLoop_alone.
Qed.

(** ** Faults *)

Lemma notifyTouch_alone got fuel pid mid i (g : G) :
  exec got (notifyTouch_prog fuel pid mid i : program unit) g =
  changes g (notifyTouch fuel (process g) pid mid i).
Proof.
  unfold notifyTouch_prog, notifyTouch. rewrite exec_bind, exec_peek. unfold policy_mutex.
  destruct (w_policies (process g) !! pid) as [p|] eqn:Hp; [|done]. cbn [deref mbind result_bind].
  rewrite exec_bind, exec_locked, exec_act. unfold touch_policy. rewrite Hp. cbn [deref mbind result_bind].
  destruct (pol_notifyTouch _ _ _ _ _ _) as [[[h' p'] t]|e]; [|done]. cbn [mbind result_bind].
  rewrite exec_bind, evictAll_alone, changes_bind. cbn [process set_process].
  destruct (evictAll _ _ _) as [w1|]; [|done]. cbn [mbind result_bind].
  rewrite exec_bind, exec_peek. cbn [process set_process].
  destruct (deref (w_policies w1 !! pid)) as [p1|]; [|done]. cbn [mbind result_bind].
  destruct (notifiesQuota _ _ _); [apply update_alone|]. apply (changes_ok (set_process g w1)).
Qed.

(** The test on the address comes before the first use of the driver in the code: the
    driver has to exist. *)
Lemma handleFault_alone got fuel mid a isWrite (g : G) :
  (∀ mo, w_mappings (process g) !! mid = Some mo → is_Some (w_drivers (process g) !! mo_driver mo)) →
  exec got (handleFault_prog fuel mid a isWrite : program unit) g =
  changes g (handleFault fuel got (process g) mid a isWrite).
Proof.
  intros Hdrv. unfold handleFault_prog, handleFault. rewrite exec_bind, exec_peek.
  unfold fault_check, mapping_of.
  destruct (w_mappings (process g) !! mid) as [mo|] eqn:Hmo; [|done]. cbn [deref mbind result_bind].
  destruct (Hdrv mo eq_refl) as [d Hd]. rewrite Hd. cbn [deref mbind result_bind].
  set (m := mo_mapping mo).
  set (inside := (baseAddress m <=? a) && (a <? baseAddress m + segments m ⊗ segmentSize m)).
  destruct inside eqn:Hin; cbn [assume mbind result_bind].
  2: { unfold Mapping.onSegmentationFault. fold inside. by rewrite Hin. }
  rewrite exec_bind, exec_locked, exec_act. unfold fault_section.
  rewrite (with_mapping_eq _ _ mo d) by done. fold m.
  destruct (Mapping.onSegmentationFault got m (w_vm (process g)) d a isWrite)
    as [[[[m' v'] d'] notif]|e]; [|done]. cbn [mbind result_bind].
  destruct notif as [[id s]|]; [|done].
  rewrite exec_bind, (exec_when _ _ _ _ _ (notifyTouch_alone _ _ _ _ _ _)), changes_bind.
  cbn [process set_process].
  destruct (if negb (localPolicy m =? 0) then _ else _) as [w2|]; [|done]. cbn [mbind result_bind].
  rewrite (exec_when _ _ _ _ _ (notifyTouch_alone _ _ _ _ _ _)). done.
Qed.

(** ** Entry points *)

Lemma lookup_alone got a (g : G) :
  exec got (lookup_prog a : program Z) g =
  (mid ← Registry.getMapping (mappingRegistry g) a; Ok (mid, g)).
Proof. unfold lookup_prog. rewrite exec_locked. cbn. by destruct (Registry.getMapping _ _). Qed.

Definition drivers_exist (g : G) : Prop :=
  ∀ mid mo, w_mappings (process g) !! mid = Some mo → is_Some (w_drivers (process g) !! mo_driver mo).

Lemma onSegFault_alone got fuel a isWrite (g : G) :
  drivers_exist g →
  exec got (onSegFault_prog fuel a isWrite : program bool) g = onSegFault fuel got g a isWrite.
Proof.
  intros Hd. unfold onSegFault_prog, onSegFault. rewrite exec_bind, lookup_alone.
  destruct (Registry.getMapping _ _) as [mid|]; [|done]. cbn [mbind result_bind].
  destruct (mid =? 0); [done|]. rewrite exec_bind, handleFault_alone by (intros mo; apply Hd).
  rewrite changes_bind. by destruct (handleFault _ _ _ _ _ _).
Qed.

Lemma findMapping_alone {X} got ptr (g : G) (k : Z → program X) (r : Z * MapObj → result (X * G)) :
  (∀ mid, w_mappings (process g) !! mid = None → exec got (k mid) g = Err BadAccess) →
  (∀ mid mo, w_mappings (process g) !! mid = Some mo → exec got (k mid) g = r (mid, mo)) →
  exec got (mid ← findMapping_prog ptr; k mid) g = (x ← findMapping g ptr; r x).
Proof.
  intros Hnone Hsome. unfold findMapping_prog, findMapping. rewrite !exec_bind, lookup_alone.
  destruct (Registry.getMapping _ _) as [mid|]; [|done]. cbn [mbind result_bind].
  rewrite exec_bind, exec_peek. destruct (assume _ _); [|done]. cbn [mbind result_bind exec].
  destruct (w_mappings (process g) !! mid) as [mo|] eqn:Hmo; cbn [deref mbind result_bind]; auto.
Qed.

Lemma umflush_alone got ptr size evict sync (g : G) :
  exec got (umflush_prog ptr size evict sync : program unit) g =
  (g' ← GlobalHandler.flush g ptr size evict sync; Ok (tt, g')).
Proof.
  unfold umflush_prog.
  set (flags := Z.lor (if sync then UMMAP_FLUSH_SYNC else 0) (if evict then UMMAP_FLUSH_UNMAP else 0)).
  rewrite (findMapping_alone _ _ _ _ (λ '(mid, mo),
    '(offset, size) ← umflush_range (mo_mapping mo) ptr size;
    changes g (on_mapping (process g) mid mo (λ m v d, Mapping.flush m v d offset size flags)))).
  - unfold GlobalHandler.flush. destruct (findMapping g ptr) as [[mid mo]|]; [|done].
    cbn [mbind result_bind]. unfold umflush_range. destruct (alignFlush _ _ _) as [offset size'].
    destruct (assume _ _); [|done]. cbn [mbind result_bind]. unfold changes. by destruct (on_mapping _ _ _ _).
  - intros mid Hmo. rewrite exec_bind, exec_peek. unfold mapping_of. by rewrite Hmo.
  - intros mid mo Hmo. rewrite exec_bind, exec_peek. unfold mapping_of. rewrite Hmo.
    cbn [deref mbind result_bind]. destruct (umflush_range _ _ _) as [[offset size']|]; [|done].
    by apply flush_on_mapping.
Qed.

(** A thread alone runs the sequential code.  Run without other threads, the programs of
    the fault handler, of [umflush], of the shrinking of a policy and of the update of a
    quota, section by section between their locks, do what the sequential definitions of
    [GlobalHandler] and [System] do, errors included. *)
Theorem thread_alone got fuel (g : G) :
  drivers_exist g →
  (∀ a isWrite, exec got (onSegFault_prog fuel a isWrite : program bool) g = onSegFault fuel got g a isWrite) ∧
  (∀ ptr size evict sync, exec got (umflush_prog ptr size evict sync : program unit) g =
     (g' ← GlobalHandler.flush g ptr size evict sync; Ok (tt, g'))) ∧
  (∀ pid, exec got (shrinkMemory_prog fuel pid : program unit) g =
     changes g (shrinkMemory fuel (process g) pid)) ∧
  (∀ qid, exec got (update_prog fuel qid : program unit) g = changes g (update fuel (process g) qid)).
Proof.
  intros Hd. split; [intros; by apply onSegFault_alone|]. split; [intros; apply umflush_alone|].
  split; intros; [apply shrinkMemory_alone|apply update_alone].
Qed.
End Alone.

Lemma demo_drivers_exist : drivers_exist demo_handler.
Proof. intros mid mo. cbn. rewrite lookup_singleton_Some. intros [<- <-]. by eexists. Qed.

Lemma thread_alone_witness :
  exec (Some 1048576) (onSegFault_prog 10 65541 true : prog _ access_event bool) demo_handler =
    onSegFault 10 (Some 1048576) demo_handler 65541 true ∧
  match onSegFault 10 (Some 1048576) demo_handler 65541 true with Ok (ours, _) => ours | Err _ => false end = true.
Proof.
  split; [|vm_compute; reflexivity].
  apply (thread_alone (Some 1048576) 10 demo_handler demo_drivers_exist).
Defined.
