(* ===== verification/ThreadInv.v ===== *)
(** * Threads that load, store and flush at the same time

    Whatever the order of their steps, threads that access the mappings of a process
    see arrays of bytes: every load returns the last store to its address, and faults,
    evictions and flushes in the other threads are not seen.  When the threads have
    returned, the memory of the mapped segments of each policy fits its limit.

    Each thread owes the segments it has opened and not yet told the policy, and those
    the policy told it to evict; the invariant of the process is [world_inv] with all
    the segments owed.  Late read faults can close a dirty segment: the invariant is the
    weak one of [MappingInv]. *)

From Stdlib Require Import FunctionalExtensionality.
From stdpp Require Import relations.
From S2P Require Import Prelude ListElement Policy PolicyInterface OS Driver Mapping MappingInv MappingSpec System SystemInv Registry GlobalHandler Threads ThreadOps ThreadOrder.

(** Faults may be handled late. *)
Definition late_faults : Strictness := false.

(** ** The strong invariant implies the weak one *)
Section Weaken.
Context {D P : Type} `{StorageDriver D} `{TrackingPolicy P}.

Lemma mapping_inv_weaken m v (d : D) : mapping_inv m v d → mapping_inv (Str := late_faults) m v d.
Proof.
  intros [Hg Hd Hc Hb]. split; [done|done|done|]. intros x Hx. specialize (Hb x Hx).
  unfold byte_inv, strict, one_fault_at_a_time, late_faults in *. destruct (mapped _); [|done].
  destruct (dirty _); [tauto|done].
Qed.

Lemma world_inv_weaken pend (w : World D P) : world_inv pend w → world_inv (Str := late_faults) pend w.
Proof.
  intros [H1' H2' H3' H4' H5']. split; [|done..]. intros mid mo Hmo.
  destruct (H1' mid mo Hmo) as [(d & Hd & Hi) Ho]. split; [|done]. exists d. split; [done|].
  by apply mapping_inv_weaken.
Qed.
End Weaken.

Section Concurrent.
Context {D P : Type} `{StorageDriver D} `{TrackingPolicy P}.
Abbreviation G := (GlobalHandler D P).
Abbreviation W := (World D P).
#[local] Existing Instance late_faults.

(** The byte at address [a]: a byte of the mapping registered there. *)
Definition app_view (g : G) (a : Z) : option Z :=
  match Registry.getMapping (mappingRegistry g) a with
  | Ok mid => mo ← w_mappings (process g) !! mid;
              world_view (process g) mid (a - baseAddress (mo_mapping mo))
  | Err _ => None
  end.

(** The accesses of a history, on an array: [None] if a load saw another byte. *)
Fixpoint replay (h : list access_event) (f : Z → option Z) : option (Z → option Z) :=
  match h with
  | [] => Some f
  | Loaded a b :: h' => if decide (f a = Some b) then replay h' f else None
  | Stored a b :: h' => replay h' (λ y, if y =? a then Some b else f y)
  end.

Lemma replay_snoc h e f : replay (h ++ [e]) f = (f' ← replay h f; replay [e] f').
Proof.
  revert f. induction h as [|[a b|a b] h IH]; intros f; cbn [app replay]; [done| |apply IH].
  case_decide; [apply IH|done].
Qed.

(** The kernel gives memory that no mapping uses. *)
Definition kernel_ok (g : G) (got : option Z) : Prop :=
  ∀ mid mo, w_mappings (process g) !! mid = Some mo →
    fresh_temp (mo_mapping mo) got ∧
    ∀ mid' mo', w_mappings (process g) !! mid' = Some mo' →
      outside (mo_mapping mo') (temp_area (mo_mapping mo) got).

(** ** The invariant of the threads *)

Section Run.
Context (g0 : G) (fuel : nat) (Hg0 : handler_inv g0).
Let w0 := process g0.

(** Only statuses and what the policies track change; policies stay within limits. *)
Record same_objects (w : W) : Prop := {
  so_mapping : ∀ mid, match w_mappings w0 !! mid, w_mappings w !! mid with
    | Some mo0, Some mo => ∃ l, mo = mkMapObj (set_segmentStatus (mo_mapping mo0) l) (mo_driver mo0)
    | None, None => True
    | _, _ => False end;
  so_policy : ∀ pid, match w_policies w0 !! pid, w_policies w !! pid with
    | Some p0, Some p => pol_base p = pol_base p0 ∧ pol_getCurrentMemory p ≤ dynamicMaxMemory (pol_base p0)
    | None, None => True
    | _, _ => False end;
}.

Record conc_inv (owed : list (Z * Z)) (g : G) (h : list access_event) : Prop := {
  ci_world : world_inv owed (process g);
  ci_same : same_objects (process g);
  ci_registry : mappingRegistry g = mappingRegistry g0;
  ci_array : ∃ f, replay h (app_view g0) = Some f ∧ ∀ a, app_view g a = f a;
}.

Lemma so_mapping_of w mid mo :
  same_objects w → w_mappings w !! mid = Some mo →
  ∃ mo0 l, w_mappings w0 !! mid = Some mo0 ∧
    mo = mkMapObj (set_segmentStatus (mo_mapping mo0) l) (mo_driver mo0).
Proof.
  intros [Hs _] Hmo. specialize (Hs mid). rewrite Hmo in Hs.
  destruct (w_mappings w0 !! mid) as [mo0|]; [|done]. destruct Hs as [l ->]. eauto.
Qed.

Lemma so_mapping_to w mid mo0 :
  same_objects w → w_mappings w0 !! mid = Some mo0 →
  ∃ l, w_mappings w !! mid = Some (mkMapObj (set_segmentStatus (mo_mapping mo0) l) (mo_driver mo0)).
Proof.
  intros [Hs _] Hmo. specialize (Hs mid). rewrite Hmo in Hs.
  destruct (w_mappings w !! mid) as [mo|]; [|done]. destruct Hs as [l ->]. eauto.
Qed.

Lemma so_policy_to w pid p0 :
  same_objects w → w_policies w0 !! pid = Some p0 →
  ∃ p, w_policies w !! pid = Some p ∧ pol_base p = pol_base p0 ∧
    pol_getCurrentMemory p ≤ dynamicMaxMemory (pol_base p0).
Proof.
  intros [_ Hs] Hp. specialize (Hs pid). rewrite Hp in Hs.
  destruct (w_policies w !! pid) as [p|]; [|done]. destruct Hs. eauto.
Qed.

(** The invariant with other obligations. *)
Lemma conc_inv_mono owed owed' g h :
  conc_inv owed g h →
  (∀ mid i, (mid, i) ∈ owed → (mid, i) ∈ owed' ∨
     ∃ mo0, w_mappings w0 !! mid = Some mo0 ∧ policy_of (mo_mapping mo0) = 0) →
  conc_inv owed' g h.
Proof.
  intros [Hw Hs Hr Ha] Ho. split; [|done..]. eapply world_inv_mono; [exact Hw|].
  intros mid i Hin. destruct (Ho mid i Hin) as [?|(mo0 & Hmo0 & Hp)]; [by left|right].
  destruct (so_mapping_to _ _ _ Hs Hmo0) as [l Hl]. by eexists.
Qed.

Lemma conc_inv_perm owed owed' g h : owed ≡ₚ owed' → conc_inv owed g h → conc_inv owed' g h.
Proof. intros Hp Hc. eapply conc_inv_mono; [exact Hc|]. intros mid i. rewrite Hp. by left. Qed.

(** ** Steps *)

(** A change of one mapping that the application does not see. *)
Lemma conc_mapping owed owed' g h mid mo d T m' v' d' :
  conc_inv owed g h → w_mappings (process g) !! mid = Some mo →
  w_drivers (process g) !! mo_driver mo = Some d →
  refits T (mo_mapping mo) (w_vm (process g)) d m' v' d' →
  (∀ mid' mo', w_mappings (process g) !! mid' = Some mo' → outside (mo_mapping mo') T) →
  (∀ i, 0 ≤ i < segments (mo_mapping mo) → mapped (status_at m' i) = true →
     (mapped (status_at (mo_mapping mo) i) = true ∧ (mid, i) ∉ owed) ∨ (mid, i) ∈ owed') →
  (∀ mid' i, mid' ≠ mid → (mid', i) ∈ owed → (mid', i) ∈ owed') →
  conc_inv owed' (set_process g (set_mapping (process g) mid mo m' v' d')) h.
Proof.
  intros [Hw Hs Hr Ha] Hmo Hd Hk HT Hst Hother. split; cbn.
  - by eapply (step_inv owed).
  - destruct Hs as [Hs1 Hs2]. split; [|exact Hs2]. intros mid'. specialize (Hs1 mid'). cbn.
    destruct (decide (mid' = mid)) as [->|Hne]; [|by rewrite lookup_insert_ne].
    rewrite lookup_insert_eq. rewrite Hmo in Hs1. destruct (w_mappings w0 !! mid) as [mo0|]; [|done].
    destruct Hs1 as [l ->]. destruct (r_const _ _ _ _ _ _ _ Hk) as [l' ->]. by exists l'.
  - done.
  - destruct Ha as (f & Hf & Hv). exists f. split; [done|]. intros a. rewrite <- Hv. unfold app_view. cbn.
    destruct (Registry.getMapping _ _) as [mid'|]; [|done]. destruct (decide (mid' = mid)) as [->|Hne].
    + rewrite lookup_insert_eq, Hmo. cbn. destruct (r_const _ _ _ _ _ _ _ Hk) as [l' Hm'].
      assert (baseAddress m' = baseAddress (mo_mapping mo)) as -> by (by rewrite Hm').
      by eapply (step_view owed).
    + rewrite lookup_insert_ne by done. destruct (w_mappings (process g) !! mid'); [|done]. cbn.
      by eapply (step_view owed).
Qed.

(** A change of one policy. *)
Lemma conc_policy owed owed' g h pid p p' h' :
  conc_inv owed g h → w_policies (process g) !! pid = Some p → pol_base p' = pol_base p →
  pol_getCurrentMemory p' ≤ dynamicMaxMemory (pol_base p) →
  world_inv owed' (set_policy (process g) h' pid p') →
  conc_inv owed' (set_process g (set_policy (process g) h' pid p')) h.
Proof.
  intros [Hw [Hs1 Hs2] Hr Ha] Hp Hb Hle Hw'. split; [done| |done|done].
  split; [exact Hs1|]. intros pid'. specialize (Hs2 pid'). cbn.
  destruct (decide (pid' = pid)) as [->|Hne]; [|by rewrite lookup_insert_ne].
  rewrite lookup_insert_eq. rewrite Hp in Hs2. destruct (w_policies w0 !! pid) as [p0|]; [|done].
  destruct Hs2 as [Hb0 _]. rewrite Hb0 in *. done.
Qed.

(** ** Rules for the sections *)

Abbreviation program := (prog G access_event).
Abbreviation csafe := (safe kernel_ok conc_inv (λ e, e = tooMany)).

Lemma safe_peek {X A} (Q : list (Z * Z) → A → Prop) owes (f : W → result X) (k : X → program A) :
  (∀ others g h, conc_inv (owes ++ others) g h → ∃ x, f (process g) = Ok x ∧ csafe Q owes (k x)) →
  csafe Q owes (peek f ≫= k).
Proof.
  intros Hf others got g h Hi _. destruct (Hf others g h Hi) as (x & -> & Hk). cbn. by exists owes.
Qed.

Lemma safe_act {X A} (Q : list (Z * Z) → A → Prop) owes (f : option Z → W → result (X * W)) (k : X → program A) :
  (∀ others got g h, conc_inv (owes ++ others) g h → kernel_ok g got →
     f got (process g) = Err tooMany ∨
     ∃ x w' owes', f got (process g) = Ok (x, w') ∧
       conc_inv (owes' ++ others) (set_process g w') h ∧ csafe Q owes' (k x)) →
  csafe Q owes (act f ≫= k).
Proof.
  intros Hf others got g h Hi Hk.
  destruct (Hf others got g h Hi Hk) as [->|(x & w' & o & -> & Hi' & Hs)]; cbn; [done|by exists o].
Qed.

Lemma safe_locked {X A} (Q : list (Z * Z) → A → Prop) owes l (p : program X) (k : X → program A) :
  csafe (λ o x, csafe Q o (k x)) owes p → csafe Q owes (locked l p ≫= k).
Proof. intros Hp. cbn. apply safe_bind, safe_bind. exact Hp. Qed.

Lemma safe_ret {A} (Q : list (Z * Z) → A → Prop) owes a : Q owes a → csafe Q owes (Ret a).
Proof. done. Qed.

Lemma safe_lockAll (Q : list (Z * Z) → unit → Prop) owes mid idx (k : program unit) :
  csafe Q owes k → csafe Q owes (lockAll mid idx k).
Proof. intros Hk. induction idx as [|i idx IH]; [exact Hk|exact IH]. Qed.
Lemma safe_unlockAll (Q : list (Z * Z) → unit → Prop) owes mid idx (k : program unit) :
  csafe Q owes k → csafe Q owes (unlockAll mid idx k).
Proof. intros Hk. induction idx as [|i idx IH]; [exact Hk|exact IH]. Qed.

(** A section at the end of a program. *)
Lemma bind_ret_r {A} (p : program A) : p ≫= Ret = p.
Proof.
  induction p as [a|e|X f j IH|X f j IH|l j IH|l j IH]; cbn; try done; f_equal; try done;
    apply functional_extensionality; exact IH.
Qed.

(** ** Flush and evictions *)

Section Mapping.
Context (mid : Z) (mo0 : MapObj) (Hmo0 : w_mappings w0 !! mid = Some mo0).
Let m0 := mo_mapping mo0.

(** The mapping as it is now. *)
Lemma now owed g h :
  conc_inv owed g h → ∃ l d, let m := set_segmentStatus m0 l in
    w_mappings (process g) !! mid = Some (mkMapObj m (mo_driver mo0)) ∧
    w_drivers (process g) !! mo_driver mo0 = Some d ∧ mapping_inv m (w_vm (process g)) d ∧
    (localPolicy m0 = 0 ∨ globalPolicy m0 = 0).
Proof.
  intros [Hw Hs _ _]. destruct (so_mapping_to _ _ _ Hs Hmo0) as [l Hl].
  destruct (wo_mapping _ _ Hw _ _ Hl) as [(d & Hd & Hi) Ho]. by exists l, d.
Qed.

Lemma now_geom owed g h : conc_inv owed g h → wf_geometry m0.
Proof.
  intros Hc. destruct (wo_mapping _ _ (hi_world _ Hg0) _ _ Hmo0) as [(d & _ & Hi) _]. apply Hi.
Qed.

(** A change of segments that maps none. *)
Lemma conc_change owed owed' g h mo d T m' v' d' :
  conc_inv owed g h → w_mappings (process g) !! mid = Some mo →
  w_drivers (process g) !! mo_driver mo = Some d →
  refits T (mo_mapping mo) (w_vm (process g)) d m' v' d' → (∀ a, ¬ T a) →
  (∀ i, 0 ≤ i < segments (mo_mapping mo) → mapped (status_at m' i) = true →
     mapped (status_at (mo_mapping mo) i) = true) →
  (∀ s, s ∈ owed → s ∈ owed' ∨ ∃ i, s = (mid, i) ∧ mapped (status_at m' i) = false) →
  conc_inv owed' (set_process g (set_mapping (process g) mid mo m' v' d')) h.
Proof.
  intros Hc Hmo Hd Hk HT Hst Ho. eapply conc_mapping; eauto.
  - intros mid' mo' _ a Ha. by destruct (HT a).
  - intros i Hi Hm. destruct (decide ((mid, i) ∈ owed)) as [Hin|]; [right|left; auto].
    destruct (Ho _ Hin) as [?|(j & [= <-] & Hj)]; [done|congruence].
  - intros mid' i Hne Hin. destruct (Ho _ Hin) as [?|(j & [= ? ?] & _)]; done.
Qed.

(** One round of [flush]. *)
Lemma round_conc owed owed' g h unmap i :
  conc_inv owed g h → 0 ≤ i < segments m0 →
  (∀ s, s ∈ owed → (unmap = true ∧ s = (mid, i)) ∨ s ∈ owed') →
  ∃ w', with_mapping (process g) mid (λ m v d,
      s ← flushSegment unmap (m, v, d) (i * segmentSize m0); Ok (segmentSize m, s)) =
      Ok (segmentSize m0, w') ∧ conc_inv owed' (set_process g w') h.
Proof.
  intros Hc Hi Ho. destruct (now owed g h Hc) as (l & d & Hmo & Hd & Hinv & _).
  set (m := set_segmentStatus m0 l) in *.
  destruct (flush_round m _ d Hinv unmap i Hi) as (s & v' & d' & Hrun & Hsu & Hcl & Hmap & _).
  unfold with_mapping. rewrite Hmo. cbn [deref mbind result_bind mo_driver mo_mapping]. rewrite Hd.
  cbn [deref mbind result_bind]. change (segmentSize m0) with (segmentSize m). rewrite Hrun.
  cbn [mbind result_bind]. eexists. split; [done|].
  apply (conc_change owed _ _ _ _ d (λ _, False)); [done|done|done| |by intros ? []| |].
  - apply keeps_refits, seg_update_keeps; [done|done|by intros ? ?|done].
  - cbn. intros j Hj. destruct (decide (j = i)) as [->|Hne].
    + rewrite (status_set_same m) by (done || apply (mi_geom _ _ _ Hinv)). rewrite Hmap.
      by intros [? _]%andb_true_iff.
    + by rewrite (status_set_other m) by lia.
  - intros p Hp. destruct (Ho p Hp) as [[-> ->]|?]; [right|by left]. exists i. split; [done|].
    rewrite (status_set_same m) by (done || apply (mi_geom _ _ _ Hinv)). by rewrite Hmap, andb_false_r.
Qed.

Lemma flushRounds_safe (Q : list (Z * Z) → unit → Prop) owes owes' unmap n rounds lo :
  wf_geometry m0 → 0 ≤ lo → lo + Z.of_nat (S n) ≤ segments m0 → (S n < rounds)%nat →
  (∀ s, s ∈ owes → (unmap = true ∧ ∃ i, s = (mid, i) ∧ lo ≤ i < lo + Z.of_nat (S n)) ∨ s ∈ owes') →
  Q owes' tt →
  csafe Q owes (flushRounds rounds mid unmap ((lo + Z.of_nat (S n)) * segmentSize m0) (lo * segmentSize m0)).
Proof.
  intros Hg. pose proof (geom_segmentSize m0 Hg). pose proof (wg_fits _ Hg).
  revert owes lo rounds. induction n as [|n IH]; intros owes lo rounds Hlo Hhi Hr Ho HQ;
    (destruct rounds as [|rounds]; [lia|]); cbn [flushRounds];
    (match goal with |- context [?x <? ?y] => destruct (Z.ltb_spec x y); [|nia] end);
    apply safe_act; intros others got g h Hc _; right.
  - destruct (round_conc (owes ++ others) (owes' ++ others) g h unmap lo Hc) as (w' & Hrun & Hc'); [lia| |].
    { intros s [Hs|Hs]%elem_of_app; [|right; apply elem_of_app; by right].
      destruct (Ho s Hs) as [(Hu & i & -> & Hi)|?]; [left; split; [done|f_equal; lia]|right].
      apply elem_of_app. by left. }
    exists (segmentSize m0), w', owes'. split; [exact Hrun|]. split; [done|].
    pose proof (geom_end m0 Hg lo ltac:(lia)). pose proof (geom_segment m0 Hg lo ltac:(lia)).
    rewrite size_add by lia. destruct rounds as [|rounds]; [lia|]. cbn [flushRounds].
    destruct (Z.ltb_spec (lo * segmentSize m0 + segmentSize m0) ((lo + Z.of_nat 1) * segmentSize m0)); [lia|done].
  - set (mids := filter (λ s, ¬ (unmap = true ∧ s = (mid, lo))) owes).
    destruct (round_conc (owes ++ others) (mids ++ others) g h unmap lo Hc) as (w' & Hrun & Hc'); [lia| |].
    { intros s [Hs|Hs]%elem_of_app; [|right; apply elem_of_app; by right].
      destruct (decide (unmap = true ∧ s = (mid, lo))) as [?|Hn]; [by left|right].
      apply elem_of_app. left. by apply list_elem_of_filter. }
    exists (segmentSize m0), w', mids. split; [exact Hrun|]. split; [done|].
    pose proof (geom_end m0 Hg lo ltac:(lia)). pose proof (geom_segment m0 Hg lo ltac:(lia)).
    rewrite size_add by lia.
    replace (lo * segmentSize m0 + segmentSize m0) with ((lo + 1) * segmentSize m0) by lia.
    replace (lo + Z.of_nat (S (S n))) with (lo + 1 + Z.of_nat (S n)) by lia.
    apply IH; [lia|lia|lia| |done]. intros s [Hn Hs]%list_elem_of_filter.
    destruct (Ho s Hs) as [(Hu & i & -> & Hi)|?]; [left|by right]. split; [done|]. exists i. split; [done|].
    assert (i ≠ lo) by (intros ->; by apply Hn). lia.
Qed.

(** A section that leaves the mapping, its memory and its driver as they are. *)
Lemma same_mapping {X} owed g h (f : Mapping → vm → D → result (X * (Mapping * vm * D))) (x : Mapping → X) :
  conc_inv owed g h →
  (∀ l v d, let m := set_segmentStatus m0 l in mapping_inv m v d → f m v d = Ok (x m, (m, v, d))) →
  ∃ l, let m := set_segmentStatus m0 l in wf_geometry m ∧
    with_mapping (process g) mid f = Ok (x m, process g).
Proof.
  intros Hc Hf. destruct (now owed g h Hc) as (l & d & Hmo & Hd & Hinv & _).
  exists l. split; [apply Hinv|]. unfold with_mapping. rewrite Hmo.
  cbn [deref mbind result_bind mo_driver mo_mapping]. rewrite Hd. cbn [deref mbind result_bind].
  rewrite Hf by done. cbn [mbind result_bind]. do 2 f_equal. by apply (set_mapping_id _ _ (mkMapObj _ _) d).
Qed.

Lemma flush_safe (Q : list (Z * Z) → unit → Prop) owes owes' lo n flags :
  0 ≤ lo → 0 < n → lo + n ≤ segments m0 →
  (∀ s, s ∈ owes → (has_flag flags UMMAP_FLUSH_UNMAP = true ∧ ∃ i, s = (mid, i) ∧ lo ≤ i < lo + n) ∨ s ∈ owes') →
  Q owes' tt →
  csafe Q owes (flush_prog mid (lo * segmentSize m0) (n * segmentSize m0) flags).
Proof.
  intros Hlo Hn Hhi Ho HQ. unfold flush_prog. apply safe_act. intros others got g h Hc _. right.
  pose proof (now_geom _ _ _ Hc) as Hg. pose proof (wg_fits _ Hg). pose proof (wg_size _ Hg).
  destruct (range_checks m0 Hg lo n ltac:(lia) ltac:(lia) Hhi) as (H1' & H2' & H3' & H4' & H5').
  destruct (getMutexRange_ok m0 Hg lo n ltac:(lia) ltac:(lia) Hhi) as (toLock & Hmx & _).
  destruct (same_mapping (owes ++ others) g h (λ m v d,
    assume (lo * segmentSize m0 <? getSize m) "Offset is not in valid range !";;
    assume (lo * segmentSize m0 ⊕ n * segmentSize m0 <=? getAlignedSize m) "'Offset + size' is not in valid range !";;
    assume ((lo * segmentSize m0) mod segmentSize m =? 0) "Should get offset multiple of segment size !";;
    assume ((n * segmentSize m0) mod segmentSize m =? 0) "Should get size multiple of segment size !";;
    '(res, (d0, v0)) ← directMSync d v (getAddress m + lo * segmentSize m0) (n * segmentSize m0) (storageOffset m);
    if res : bool then Ok (None, (m, v0, d0))
    else l ← getMutexRange m (lo * segmentSize m0) (n * segmentSize m0); Ok (Some (l, m), (m, v0, d0)))
    (λ m, Some (toLock, m)) Hc) as (l & Hwf & Hrun).
  { intros l v d m Hi. change (getSize m) with (getSize m0). change (getAlignedSize m) with (getAlignedSize m0).
    change (segmentSize m) with (segmentSize m0). rewrite H1', H2', H4', H5'. cbn [assume mbind result_bind Z.eqb].
    rewrite directMSync_law by exact (mi_driver _ _ _ Hi). cbn [mbind result_bind].
    change (getMutexRange m) with (getMutexRange m0). by rewrite Hmx. }
  set (m := set_segmentStatus m0 l) in *.
  exists (Some (toLock, m)), (process g), owes. split; [exact Hrun|]. split; [by destruct g|].
  apply safe_lockAll, safe_bind. rewrite H3'.
  replace n with (Z.of_nat (S (Z.to_nat (n - 1)))) in Ho |- * by lia.
  apply (flushRounds_safe _ owes owes'); [done|done|lia|unfold flush_fuel; cbn; lia|done|].
  apply safe_bind. destruct (has_flag flags UMMAP_FLUSH_SYNC); [|by apply safe_unlockAll].
  rewrite <- (bind_ret_r (act _)). apply safe_act. clear Hc Hwf Hrun. intros others' got' g' h' Hc _. right.
  destruct (same_mapping (owes' ++ others') g' h' (λ m v d,
    '(d', v') ← dsync d v (getAddress m) (lo * segmentSize m0)
      (Z.of_nat (S (Z.to_nat (n - 1))) * segmentSize m0); Ok (tt, (m, v', d'))) (λ _, tt) Hc) as (l' & _ & Hrun).
  { intros l' v d m' Hi. rewrite dsync_law; [done|apply Hi|].
    pose proof (mi_capacity _ _ _ Hi). pose proof (wg_offset _ Hg).
    pose proof (geom_segment m0 Hg lo ltac:(lia)). cbn in *. lia. }
  exists tt, (process g'), owes'. split; [exact Hrun|]. split; [by destruct g'|]. cbn. by apply safe_unlockAll.
Qed.

(** [peek] of the mapping. *)
Lemma safe_mapping {A} (Q : list (Z * Z) → A → Prop) owes (k : Mapping → program A) :
  (∀ l, wf_geometry m0 → (localPolicy m0 = 0 ∨ globalPolicy m0 = 0) → csafe Q owes (k (set_segmentStatus m0 l))) →
  csafe Q owes (peek (λ w, mapping_of w mid) ≫= k).
Proof.
  intros Hk. apply safe_peek. intros others g h Hc. pose proof (now_geom _ _ _ Hc) as Hg.
  destruct (now _ _ _ Hc) as (l & d & Hmo & _ & _ & Ho). exists (set_segmentStatus m0 l).
  unfold mapping_of. rewrite Hmo. split; [done|]. by apply Hk.
Qed.

(** Segment [i] is what the thread has to evict next. *)
Lemma evict_safe (Q : list (Z * Z) → unit → Prop) owes i :
  policy_of m0 ≠ 0 → 0 ≤ i < segments m0 → Q owes tt →
  csafe Q ((mid, i) :: owes) (evict_prog (policy_of m0) mid i).
Proof.
  intros Hpol Hi HQ. unfold evict_prog. apply safe_mapping. intros l Hg Hone.
  change (localPolicy (set_segmentStatus m0 l)) with (localPolicy m0).
  change (globalPolicy (set_segmentStatus m0 l)) with (globalPolicy m0).
  change (segmentSize (set_segmentStatus m0 l)) with (segmentSize m0).
  rewrite !no_other_policy by auto. rewrite (proj2 (segment_offset m0 Hg i Hi)).
  rewrite <- (bind_ret_r (locked _ _)). apply safe_locked. cbn [mbind prog_bind].
  rewrite <- (Z.mul_1_l (segmentSize m0)) at 2.
  apply (flush_safe _ _ owes); [lia|lia|lia| |done].
  intros s [->|Hs]%elem_of_cons; [left|by right]. split; [done|]. exists i. split; [done|lia].
Qed.
(** A loop over all the segments that maps none. *)
Lemma all_segments_safe (Q : list (Z * Z) → unit → Prop) owes f change :
  round_ok (D := D) f change → (∀ p s, mapped (change p s) = true → mapped s = true) → Q owes tt →
  csafe Q owes (all_segments f mid).
Proof.
  intros Hf Hmap HQ. unfold all_segments. apply safe_mapping. intros l Hg _.
  apply safe_lockAll, safe_bind. change (segments (set_segmentStatus m0 l)) with (segments m0).
  assert (Hin : ∀ i, i ∈ seqZ 0 (segments m0) → 0 ≤ i < segments m0)
    by (intros i Hi%elem_of_seqZ; lia).
  induction (seqZ 0 (segments m0)) as [|i idx IH]; cbn [foldr]; [by apply safe_ret, safe_unlockAll|].
  apply safe_act. intros others got g h Hc _. right.
  assert (Hi : 0 ≤ i < segments m0) by (apply Hin; left).
  destruct (now _ _ _ Hc) as (l' & d & Hmo & Hd & Hinv & _). set (m := set_segmentStatus m0 l') in *.
  destruct (Hf m _ d i Hinv Hi) as (v' & Hrun & Hsu).
  exists tt. eexists _, owes. split.
  { unfold with_mapping. rewrite Hmo. cbn [deref mbind result_bind mo_driver mo_mapping]. rewrite Hd.
    cbn [deref mbind result_bind]. rewrite Hrun. reflexivity. }
  split; [|apply IH; intros j Hj; apply Hin; by right].
  apply (conc_change (owes ++ others) _ _ _ _ d (λ _, False)); [done|done|done| |by intros ? []| |by left].
  - apply keeps_refits, seg_update_keeps; [done|done|by intros ? ?|done].
  - cbn. intros j Hj. destruct (decide (j = i)) as [->|Hne].
    + rewrite (status_set_same m) by (done || apply (mi_geom _ _ _ Hinv)). apply Hmap.
    + by rewrite (status_set_other m) by lia.
Qed.

Lemma getSegmentStatus_safe owes offset :
  0 ≤ offset < m_size m0 →
  csafe (λ o _, o = owes) owes (getSegmentStatus_prog mid offset).
Proof.
  intros Hx. unfold getSegmentStatus_prog. apply safe_mapping. intros l Hg _.
  rewrite <- (bind_ret_r (locked _ _)). apply safe_locked. rewrite <- (bind_ret_r (peek _)).
  apply safe_peek. intros others g h Hc. pose proof (now_geom _ _ _ Hc) as Hg0'.
  destruct (now _ _ _ Hc) as (l' & d & Hmo & _ & Hinv & _). eexists. split; [|done].
  unfold mapping_of. rewrite Hmo. cbn [deref mbind result_bind mo_mapping]. unfold getSegmentStatus.
  change (getSize (set_segmentStatus m0 l')) with (m_size m0).
  destruct (Z.ltb_spec offset (m_size m0)); [|lia]. cbn [cassert assume mbind result_bind].
  apply get_status_ok; [apply Hinv|]. cbn. pose proof (wg_size _ Hg0').
  apply (segment_lt m0); [done|lia].
Qed.
End Mapping.

Lemma evictAll_safe (Q : list (Z * Z) → unit → Prop) pid ids :
  pid ≠ 0 →
  (∀ mid i, (mid, i) ∈ ids → ∃ mo0, w_mappings w0 !! mid = Some mo0 ∧
     policy_of (mo_mapping mo0) = pid ∧ 0 ≤ i < segments (mo_mapping mo0)) →
  Q [] tt → csafe Q ids (evictAll_prog pid ids).
Proof.
  intros Hpid Hids HQ. induction ids as [|[mid i] ids IH]; cbn [evictAll_prog]; [exact HQ|].
  destruct (Hids mid i) as (mo0 & Hmo0 & Hpol & Hi); [left|]. apply safe_bind.
  rewrite <- Hpol. apply (evict_safe mid mo0 Hmo0); [congruence|done|]. rewrite Hpol.
  apply IH. intros mid' i' Hin. apply Hids. by right.
Qed.

(** ** Touches *)

Lemma notifyTouch_safe (Q : list (Z * Z) → unit → Prop) mid mo0 p0 index :
  let m0 := mo_mapping mo0 in let pid := policy_of m0 in
  w_mappings w0 !! mid = Some mo0 → pid ≠ 0 → w_policies w0 !! pid = Some p0 →
  segmentSize m0 ≤ dynamicMaxMemory (pol_base p0) → policyQuota (pol_base p0) = 0 →
  (S (length (all_elems (pol_base p0))) < fuel)%nat → 0 ≤ index < segments m0 → Q [] tt →
  csafe Q [(mid, index)] (notifyTouch_prog fuel pid mid index).
Proof.
  intros m0 pid Hmo0 Hpid Hp0 Hlim Hquota Hfuel Hix HQ. unfold notifyTouch_prog.
  apply safe_peek. intros others g h Hc. destruct (so_policy_to _ _ _ (ci_same _ _ _ Hc) Hp0) as (p & Hp & Hb & _).
  exists (mutexPtr (pol_base p0)). unfold policy_mutex. rewrite Hp. cbn [deref mbind result_bind]. rewrite Hb.
  split; [done|]. clear others g h Hc p Hp Hb.
  apply safe_locked. rewrite <- (bind_ret_r (act _)). apply safe_act. intros others got g h Hc _.
  destruct (so_policy_to _ _ _ (ci_same _ _ _ Hc) Hp0) as (p & Hp & Hb & _).
  destruct (so_mapping_to _ _ _ (ci_same _ _ _ Hc) Hmo0) as [l Hmo]. unfold touch_policy. rewrite Hp.
  cbn [deref mbind result_bind].
  destruct (SystemInv.touch_section fuel (process g) ([(mid, index)] ++ others) others pid p mid
    (mkMapObj (set_segmentStatus m0 l) (mo_driver mo0)) index (ci_world _ _ _ Hc)) as
    [->|(h' & p' & t & ids & -> & Hev & Hb' & Hle & Hw' & Hnd & _ & Hids)]; try done.
  { intros s [->%list_elem_of_singleton|Hs]%elem_of_app; auto. }
  { by rewrite Hb. }
  { by rewrite Hb. }
  { by left. }
  right. cbn [mbind result_bind]. exists t, (set_policy (process g) h' pid p'), ids. split; [done|].
  split; [by eapply conc_policy|]. apply safe_ret. apply safe_bind. rewrite Hev. apply evictAll_safe; [done| |].
  { intros mid' i Hin. destruct (Hids mid' i Hin) as (mo & Hmo' & Hpol & Hi).
    destruct (so_mapping_of _ _ _ (ci_same _ _ _ Hc) Hmo') as (mo1 & l1 & Hmo1 & ->).
    exists mo1. split; [done|]. cbn in Hpol, Hi. done. }
  clear Hc. apply safe_peek. intros others2 g2 h2 Hc2.
  destruct (so_policy_to _ _ _ (ci_same _ _ _ Hc2) Hp0) as (p2 & Hp2 & Hb2 & _). rewrite Hp2.
  cbn [deref mbind result_bind]. exists None. unfold notifiesQuota. rewrite Hb2, Hquota.
  cbn [Z.eqb negb]. rewrite andb_false_r. done.
Qed.

(** ** Faults *)

(** What the process needs: thread safe mappings, policies that can hold a segment. *)
Definition threads_ready (w : W) : Prop :=
  (∀ mid mo, w_mappings w !! mid = Some mo →
     threadSafe (mo_mapping mo) = true ∧ policy_fits fuel w (mo_mapping mo)) ∧
  ∀ pid p, w_policies w !! pid = Some p → pol_getCurrentMemory p ≤ dynamicMaxMemory (pol_base p).

Context (Hready : threads_ready w0).

(** The calls to the policies after the critical section, for one policy or none. *)
Lemma notify_safe mid mo0 index :
  let m0 := mo_mapping mo0 in
  w_mappings w0 !! mid = Some mo0 → (localPolicy m0 = 0 ∨ globalPolicy m0 = 0) →
  0 ≤ index < segments m0 →
  csafe (λ o _, o = []) (if decide (policy_of m0 = 0) then [] else [(mid, index)])
    (_ ← (if negb (localPolicy m0 =? 0) then notifyTouch_prog fuel (localPolicy m0) mid index else Ret tt);
     if negb (globalPolicy m0 =? 0) then notifyTouch_prog fuel (globalPolicy m0) mid index else Ret tt).
Proof.
  intros m0 Hmo0 Hone Hix. destruct (proj1 Hready mid mo0 Hmo0) as [_ Hfit]. fold m0 in Hfit.
  assert (Ht : policy_of m0 ≠ 0 → ∀ Q : list (Z * Z) → unit → Prop, Q [] tt →
    csafe Q [(mid, index)] (notifyTouch_prog fuel (policy_of m0) mid index)).
  { intros Hnz Q HQ. destruct (Hfit Hnz) as (p & Hp & Hlim & Hq & Hf).
    by apply (notifyTouch_safe Q mid mo0 p). }
  unfold policy_of in *. destruct (Z.eqb_spec (localPolicy m0) 0) as [El|El]; cbn [negb].
  - cbn [mbind prog_bind]. destruct (Z.eqb_spec (globalPolicy m0) 0) as [Eg|Eg]; cbn [negb].
    + by rewrite decide_True.
    + rewrite decide_False by done. by apply Ht.
  - rewrite decide_False by done. destruct Hone as [|Hg]; [done|]. rewrite Hg. cbn [Z.eqb negb].
    apply safe_bind. by apply Ht.
Qed.

(** A fault on a byte of a mapping, at any time after the access was refused. *)
Lemma handleFault_safe mid mo0 x isWrite :
  let m0 := mo_mapping mo0 in
  w_mappings w0 !! mid = Some mo0 → 0 ≤ x < m_size m0 →
  protection m0 ≠ PROT_NONE_bits → (isWrite = true → p_write (protection m0) = true) →
  csafe (λ o _, o = []) [] (handleFault_prog fuel mid (baseAddress m0 + x) isWrite).
Proof.
  intros m0 Hmo0 Hx Hprot Hwr. unfold handleFault_prog. apply safe_peek. intros others g h Hc.
  pose proof (now_geom mid mo0 Hmo0 _ _ _ Hc) as Hg. fold m0 in Hg. pose proof (wg_size _ Hg).
  destruct (now mid mo0 Hmo0 _ _ _ Hc) as (l & d & Hmo & _ & _ & Hone). fold m0 in Hmo, Hone.
  exists (set_segmentStatus m0 l). split.
  { unfold fault_check, mapping_of. rewrite Hmo. cbn [deref mbind result_bind mo_mapping].
    pose proof (aligned_size m0 Hg) as Hal. unfold getAlignedSize in Hal. cbn.
    rewrite (Z.mul_comm (segments m0)), Hal.
    destruct (Z.leb_spec (baseAddress m0) (baseAddress m0 + x)); [|lia].
    by destruct (Z.ltb_spec (baseAddress m0 + x) (baseAddress m0 + segments m0 * segmentSize m0)); [|lia]. }
  clear others h Hc Hmo d. clear g. apply safe_locked. rewrite <- (bind_ret_r (act _)). apply safe_act.
  intros others got g h Hc Hk. right. destruct (now mid mo0 Hmo0 _ _ _ Hc) as (l' & d & Hmo & Hd & Hinv & _).
  fold m0 in Hmo, Hinv. set (m := set_segmentStatus m0 l') in *.
  destruct (Hk mid _ Hmo) as [Hfresh Hout]. cbn [mo_mapping] in Hfresh, Hout.
  unfold fault_section, with_mapping. rewrite Hmo. cbn [deref mbind result_bind mo_driver mo_mapping].
  rewrite Hd. cbn [deref mbind result_bind]. change (baseAddress m0) with (baseAddress m).
  set (id := x / segmentSize m0).
  assert (Hid : 0 ≤ id < segments m0) by (apply segment_lt; [done|lia]).
  destruct (fault_any m _ d Hinv got x isWrite) as [(_ & _ & ->)|(v' & -> & Hsu)];
    [cbn; lia|done|done|done|by left| |]; cbn [mbind result_bind].
  - eexists None, _, []. split; [done|]. split; [|done].
    rewrite (set_mapping_id _ _ (mkMapObj m (mo_driver mo0)) d) by done. by destruct g.
  - set (s' := mkStatus _ _ _) in *. change (segmentSize m) with (segmentSize m0) in *. fold id in Hsu |- *.
    eexists (Some (id, status_at m id)), _, (if decide (policy_of m0 = 0) then [] else [(mid, id)]).
    split; [done|]. split; [|by apply notify_safe].
    assert (Hc' : conc_inv ((mid, id) :: others)
      (set_process g (set_mapping (process g) mid (mkMapObj m (mo_driver mo0)) (set_status m id s') v' d)) h).
    { eapply conc_mapping; [exact Hc|done|done| |exact Hout| |].
      - apply keeps_refits, seg_update_keeps; [done|done|by apply fresh_temp_outside|done].
      - cbn. intros j Hj Hm. destruct (decide (j = id)) as [->|Hne]; [right; left|].
        rewrite (status_set_other m) in Hm by lia.
        destruct (decide ((mid, j) ∈ others)); [right; by right|by left].
      - intros mid' j _ Hin. by right. }
    case_decide as Hz; [|exact Hc']. eapply conc_inv_mono; [exact Hc'|].
    intros mid' j [[= -> ->]|Hin]%elem_of_cons; [right|by left]. by exists mo0.
Qed.
(** ** Accesses and calls *)

(** An address of the application: a byte of a mapping of the process. *)
Definition address_of (mid : Z) (mo0 : MapObj) (a : Z) : Prop :=
  w_mappings w0 !! mid = Some mo0 ∧
  baseAddress (mo_mapping mo0) ≤ a < baseAddress (mo_mapping mo0) + m_size (mo_mapping mo0).

Lemma lookup_safe {A} (Q : list (Z * Z) → A → Prop) owes mid mo0 a (k : Z → program A) :
  address_of mid mo0 a → csafe Q owes (k mid) → csafe Q owes (lookup_prog a ≫= k).
Proof.
  intros [Hmo0 Ha] Hk. destruct (findMapping_ok g0 mid mo0 a Hg0 Hmo0 Ha) as (Hget & _ & _).
  apply safe_locked. intros others got g h Hc _. rewrite (ci_registry _ _ _ Hc), Hget. cbn. by exists owes.
Qed.

Lemma findMapping_safe {A} (Q : list (Z * Z) → A → Prop) owes mid mo0 a (k : Z → program A) :
  address_of mid mo0 a → csafe Q owes (k mid) → csafe Q owes (findMapping_prog a ≫= k).
Proof.
  intros Ha Hk. destruct Ha as [Hmo0 Ha].
  destruct (findMapping_ok g0 mid mo0 a Hg0 Hmo0 Ha) as (_ & Hnz & _).
  apply safe_bind. unfold findMapping_prog. apply (lookup_safe _ _ mid mo0); [done|].
  apply safe_peek. intros others g h Hc. exists tt. apply Z.eqb_neq in Hnz. rewrite Hnz. done.
Qed.

Lemma fault_safe mid mo0 a isWrite :
  address_of mid mo0 a → protection (mo_mapping mo0) ≠ PROT_NONE_bits →
  (isWrite = true → p_write (protection (mo_mapping mo0)) = true) →
  csafe (λ o _, o = []) [] (fault_prog fuel a isWrite).
Proof.
  intros Ha Hprot Hw. pose proof Ha as [Hmo0 Hin].
  destruct (findMapping_ok g0 mid mo0 a Hg0 Hmo0 Hin) as (_ & Hnz & _).
  unfold fault_prog. apply safe_bind. unfold onSegFault_prog. apply (lookup_safe _ _ mid mo0); [done|].
  apply Z.eqb_neq in Hnz. rewrite Hnz. apply safe_bind.
  replace a with (baseAddress (mo_mapping mo0) + (a - baseAddress (mo_mapping mo0))) at 1 by lia.
  eapply safe_weaken; [|apply (handleFault_safe mid mo0); [done|lia|done|done]]. by intros o [] ->.
Qed.

(** What the byte of the application is. *)
Lemma app_view_at owed g h mid mo0 a :
  conc_inv owed g h → address_of mid mo0 a → ∃ l d,
    let m := set_segmentStatus (mo_mapping mo0) l in
    w_mappings (process g) !! mid = Some (mkMapObj m (mo_driver mo0)) ∧
    mapping_inv m (w_vm (process g)) d ∧
    app_view g a = Some (view m (w_vm (process g)) d (a - baseAddress m)).
Proof.
  intros Hc [Hmo0 Ha]. destruct (findMapping_ok g0 mid mo0 a Hg0 Hmo0 Ha) as (Hget & _ & _).
  destruct (now mid mo0 Hmo0 _ _ _ Hc) as (l & d & Hmo & Hd & Hinv & _). exists l, d.
  split; [done|]. split; [done|]. unfold app_view, world_view. rewrite (ci_registry _ _ _ Hc), Hget, Hmo.
  cbn. rewrite Hd. cbn. by rewrite decide_True by lia.
Qed.

Lemma load_conc owed g h mid mo0 a x e g' :
  conc_inv owed g h → address_of mid mo0 a → load_byte a g = Some (x, e, g') →
  conc_inv owed g' (h ++ [e]).
Proof.
  intros Hc Ha. destruct (app_view_at _ _ _ _ _ _ Hc Ha) as (l & d & Hmo & Hinv & Hv).
  destruct Ha as [Hmo0 Ha]. unfold load_byte. destruct (readable (w_vm (process g)) a) eqn:Hr; [|done].
  intros [= <- <- <-]. destruct Hc as [Hw Hs Hreg (f & Hf & Hvf)]. split; [done..|].
  exists f. split; [|done]. rewrite replay_snoc, Hf. cbn. rewrite decide_True; [done|].
  set (m := set_segmentStatus (mo_mapping mo0) l) in *. pose proof (wg_size _ (mi_geom _ _ _ Hinv)) as Hsz.
  rewrite <- Hvf, Hv. f_equal. rewrite (permitted_view m _ d); [f_equal; lia|done|cbn in *; lia|].
  by replace (baseAddress m + (a - baseAddress m)) with a by lia.
Qed.

Lemma store_conc owed g h mid mo0 a b x e g' :
  conc_inv owed g h → address_of mid mo0 a → store_byte a b g = Some (x, e, g') →
  conc_inv owed g' (h ++ [e]).
Proof.
  intros Hc Ha. destruct (app_view_at _ _ _ _ _ _ Hc Ha) as (l & d & Hmo & Hinv & Hv).
  unfold store_byte. destruct (writable (w_vm (process g)) a) eqn:Hwr; [|done].
  intros [= <- <- <-]. pose proof Ha as [Hmo0 Hin].
  destruct (findMapping_ok g0 mid mo0 a Hg0 Hmo0 Hin) as (Hget & _ & _).
  destruct Hc as [Hw Hs Hreg (f & Hf & Hvf)].
  set (m := set_segmentStatus (mo_mapping mo0) l) in *. set (x0 := a - baseAddress m).
  destruct (poke_world_ok owed (process g) mid _ x0 b Hw Hmo) as [Hw' Hview'].
  { cbn in *. subst x0. lia. }
  { cbn. subst x0. by replace (baseAddress (mo_mapping mo0) + (a - baseAddress m)) with a by (cbn; lia). }
  cbn [mo_mapping] in Hw', Hview'. replace (baseAddress m + x0) with a in * by (subst x0; lia).
  split; [exact Hw'|by split; apply Hs|exact Hreg|].
  exists (λ y, if y =? a then Some b else f y). split; [by rewrite replay_snoc, Hf|]. intros y.
  rewrite <- Hvf. unfold app_view. cbn [set_process mappingRegistry process poke_world w_mappings].
  destruct (Z.eqb_spec y a) as [->|Hne].
  - rewrite Hreg, Hget, Hmo. cbn [mbind option_bind mo_mapping]. rewrite Hview'. by rewrite decide_True.
  - destruct (Registry.getMapping _ y) as [mid'|]; [|done].
    destruct (w_mappings (process g) !! mid') as [mo'|] eqn:Hmo'; cbn [mbind option_bind]; [|done].
    rewrite Hview', decide_False; [done|]. intros [-> Hy]. rewrite Hmo in Hmo'. injection Hmo' as <-.
    cbn in Hy. subst x0. cbn in Hy. lia.
Qed.

Lemma access_safe {X} (f : G → option (X * access_event * G)) tries mid mo0 a isWrite :
  address_of mid mo0 a → protection (mo_mapping mo0) ≠ PROT_NONE_bits →
  (isWrite = true → p_write (protection (mo_mapping mo0)) = true) →
  (∀ owed g h x e g', conc_inv owed g h → f g = Some (x, e, g') → conc_inv owed g' (h ++ [e])) →
  csafe (λ o _, o = []) [] (access_prog f fuel tries a isWrite).
Proof.
  intros Ha Hprot Hw Hf. induction tries as [|tries IH]; cbn [access_prog]; intros others g h Hc;
    (destruct (f g) as [[[x e] g']|] eqn:E; [split; [by eauto|done]|]); [done|].
  apply safe_bind. eapply safe_weaken; [|by apply (fault_safe mid mo0)]. by intros o [] ->.
Qed.

(** The calls of the theorem: accesses the protection of the mapping allows, flushes of
    whole segments of a mapping, and the operations on whole mappings. *)
Definition legal_call (c : call) : Prop :=
  match c with
  | CLoad a => ∃ mid mo, address_of mid mo a ∧ protection (mo_mapping mo) ≠ PROT_NONE_bits
  | CStore a _ => ∃ mid mo, address_of mid mo a ∧ p_write (protection (mo_mapping mo)) = true
  | CFlush ptr size _ _ => ∃ mid mo lo n, w_mappings w0 !! mid = Some mo ∧
      let m := mo_mapping mo in
      ptr = baseAddress m + lo * segmentSize m ∧ 0 ≤ lo < segments m ∧ 0 < n ∧ lo + n ≤ segments m ∧
      (size = n * segmentSize m ∨ size = 0 ∧ lo + n = segments m)
  | CDropClean mid => is_Some (w_mappings w0 !! mid)
  | CMakeDirty ptr => ∃ mid mo, address_of mid mo ptr
  | CGetStatus mid offset => ∃ mo, w_mappings w0 !! mid = Some mo ∧ 0 ≤ offset < m_size (mo_mapping mo)
  | _ => False
  end.

Lemma umflush_safe mid mo lo n size evict sync :
  w_mappings w0 !! mid = Some mo →
  let m := mo_mapping mo in
  0 ≤ lo < segments m → 0 < n → lo + n ≤ segments m →
  (size = n * segmentSize m ∨ size = 0 ∧ lo + n = segments m) →
  csafe (λ o _, o = []) [] (umflush_prog (baseAddress m + lo * segmentSize m) size evict sync).
Proof.
  intros Hmo m Hlo Hn Hhi Hsize. destruct (wo_mapping _ _ (hi_world _ Hg0) _ _ Hmo) as [(d & _ & Hinv) _].
  pose proof (mi_geom _ _ _ Hinv) as Hg. fold m in Hg. pose proof (geom_segment m Hg lo Hlo).
  unfold umflush_prog. apply (findMapping_safe _ _ mid mo); [split; [done|fold m; lia]|].
  apply safe_peek. intros others g h Hc. destruct (now mid mo Hmo _ _ _ Hc) as (l & _ & Hmo' & _).
  exists (lo * segmentSize m, n * segmentSize m). split.
  { unfold mapping_of. rewrite Hmo'. cbn [deref mbind result_bind mo_mapping].
    unfold umflush_range. destruct (flush_range m lo n size Hg Hlo Hn Hhi Hsize) as (E1 & E2 & E3 & E4).
    fold m. change (getAddress (set_segmentStatus m l)) with (getAddress m).
    change (getAlignedSize (set_segmentStatus m l)) with (getAlignedSize m).
    change (getSegmentSize (set_segmentStatus m l)) with (getSegmentSize m). by rewrite E1, E2, E3, E4. }
  by apply (flush_safe mid mo Hmo _ [] []); [lia|lia|done|intros ? ?%elem_of_nil|].
Qed.

Lemma call_safe tries c : legal_call c → csafe (λ o _, o = []) [] (call_prog fuel tries c).
Proof.
  destruct c as [a|a b|ptr size evict sync|mid|ptr|mid offset|qid|qid pid|qid pid|? ? ? ? ? ? ? ? ? ? ? ?|? ?|];
    cbn [legal_call call_prog]; try by intros [].
  - intros (mid & mo & Ha & Hp). apply (access_safe _ _ mid mo); [done|done|done|].
    intros owed g h x e g' Hc. by eapply load_conc.
  - intros (mid & mo & Ha & Hp). apply (access_safe _ _ mid mo); [done|by intros E; rewrite E in Hp|done|].
    intros owed g h x e g' Hc. by eapply store_conc.
  - intros (mid & mo & lo & n & Hmo & -> & H1' & H2' & H3' & H4'). by apply (umflush_safe mid mo lo n).
  - intros [mo Hmo]. apply (all_segments_safe mid mo Hmo _ _ _ drop_status); [apply dropSegment_ok| |done].
    intros p s. unfold drop_status. by destruct (mapped s) eqn:E, (dirty s); cbn; rewrite ?E.
  - intros (mid & mo & Ha). apply (findMapping_safe _ _ mid mo); [done|].
    apply (all_segments_safe mid mo (proj1 Ha) _ _ _ mark_status); [apply markSegmentDirty_ok| |done].
    intros p s. unfold mark_status. by destruct (mapped s) eqn:E, (dirty s); cbn; rewrite ?E.
  - intros (mo & Hmo & Hx). apply safe_bind. eapply safe_weaken; [|by apply (getSegmentStatus_safe mid mo Hmo [])].
    by intros o s ->.
Qed.

Lemma thread_safe tries calls :
  Forall legal_call calls → csafe (λ o _, o = []) [] (thread_prog fuel tries calls).
Proof.
  induction 1 as [|c calls Hc _ IH]; cbn [thread_prog]; [done|]. apply safe_bind.
  eapply safe_weaken; [|by apply call_safe]. by intros o [] ->.
Qed.

Lemma conc_inv_start : conc_inv [] g0 [].
Proof.
  split; [apply world_inv_weaken, Hg0| |done|by exists (app_view g0)]. split.
  - intros mid. destruct (w_mappings w0 !! mid) as [mo|] eqn:E; fold w0; rewrite E; [|done].
    exists (segmentStatus (mo_mapping mo)). by destruct mo as [[]].
  - intros pid. destruct (w_policies w0 !! pid) as [p|] eqn:E; fold w0; rewrite E; [|done].
    split; [done|]. by apply (proj2 Hready pid).
Qed.
End Run.
(** C3: threads refine an array.  Several threads load, store, flush, drop, make dirty
    and query at the same time, in any interleaving of their critical sections.  At any
    moment the history of the completed loads and stores is that of one array of bytes,
    the one the process showed at the start (each load returned the last byte stored to
    its address), and the process shows that array now; the only error that can end the
    process is the list of 128 segments to evict being full; and when the threads have
    returned, the memory of the mapped segments of each policy is within its limit. *)
Theorem threads_refine_arrays fuel tries g0 (threads : list (list call)) pl :
  handler_inv g0 → threads_ready fuel (process g0) → Forall (Forall (legal_call g0)) threads →
  rtc (step kernel_ok) (launch fuel tries g0 threads) pl →
  (∃ f, replay (pl_history pl) (app_view g0) = Some f ∧ ∀ a, app_view (pl_state pl) a = f a) ∧
  (∀ i got e, kernel_ok (pl_state pl) got → step_thread i got pl = Some (Err e) → e = tooMany) ∧
  (finished pl → ∀ pid p, w_policies (process (pl_state pl)) !! pid = Some p →
     resident (process (pl_state pl)) p ≤ pol_getCurrentMemory p ≤ dynamicMaxMemory (pol_base p)).
Proof.
  intros Hg0 Hready Hlegal Hr.
  assert (Hps : pool_safe kernel_ok (conc_inv g0) (λ e, e = tooMany) pl).
  { eapply pool_safe_reachable; [apply (conc_inv_perm g0)| |exact Hr].
    apply pool_safe_start; [|by apply (conc_inv_start g0 fuel)].
    intros p (calls & -> & Hin)%list_elem_of_fmap. split; [apply thread_ordered|].
    apply (thread_safe g0 fuel Hg0 Hready tries). by eapply Forall_forall in Hlegal. }
  split; [|split].
  - destruct Hps as (_ & owed & _ & Hc). apply Hc.
  - intros i got e Hk Hs. pose proof (pool_safe_step _ _ _ (conc_inv_perm g0) i got pl Hps Hk) as Hstep.
    by rewrite Hs in Hstep.
  - intros Hf pid p Hp. pose proof (pool_safe_finished _ _ _ (conc_inv_perm g0) pl Hps Hf) as Hc.
    destruct (wo_policy _ _ (ci_world _ _ _ _ Hc) pid p Hp) as (_ & Hreg & l & Hl & Hcov).
    split; [by eapply resident_tracked|].
    pose proof (so_policy _ _ (ci_same _ _ _ _ Hc) pid) as Hs. rewrite Hp in Hs.
    destruct (w_policies (process g0) !! pid) as [p0|]; [|done]. by destruct Hs as [-> ?].
Qed.
End Concurrent.

(** ** A run of two threads

    The mapping of [demo_handler] under its FIFO policy of one segment: one thread stores
    in the first segment and loads from the second, the other loads the byte stored and
    flushes the mapping. *)
Section Demo.
Definition demo_threads : list (list call) :=
  [[CStore 65541 9; CLoad (65536 + 4096)]; [CLoad 65541; CFlush 65536 0 true true]].

(** What the kernel gives, and a check that it is outside the mapping. *)
Definition demo_kernel (g : GlobalHandler MemoryDriver FifoPolicy.FifoPolicy) (got : option Z) : bool :=
  bool_decide (got = Some 1048576 ∧
    map_Forall (λ _ mo, baseAddress (mo_mapping mo) = 65536 ∧ segments (mo_mapping mo) = 2 ∧
      segmentSize (mo_mapping mo) = 4096) (w_mappings (process g))).

Lemma demo_kernel_ok g got : demo_kernel g got = true → kernel_ok g got.
Proof.
  intros [-> Hall]%bool_decide_eq_true mid mo Hmo. destruct (Hall mid mo Hmo) as (Hb & Hs & Hss).
  assert (Hout : ∀ mid' mo', w_mappings (process g) !! mid' = Some mo' →
    outside (mo_mapping mo') (temp_area (mo_mapping mo) (Some 1048576))).
  { intros mid' mo' Hmo' a. destruct (Hall mid' mo' Hmo') as (-> & -> & ->). cbn. rewrite Hss. lia. }
  split; [|exact Hout]. split; [|by eapply Hout].
  rewrite Hss. split; [lia|]. split; [reflexivity|]. split; [lia|reflexivity].
Qed.

(** The second thread steps twice for each step of the first. *)
Definition demo_schedule : list (nat * option Z) :=
  concat (replicate 50 [(0%nat, Some 1048576); (1%nat, Some 1048576); (1%nat, Some 1048576)]).

Definition demo_launch : Pool (GlobalHandler MemoryDriver FifoPolicy.FifoPolicy) access_event :=
  launch 10 3 demo_handler demo_threads.

Definition demo_final : Pool (GlobalHandler MemoryDriver FifoPolicy.FifoPolicy) access_event :=
  match run_schedule demo_kernel demo_schedule demo_launch with Ok pl => pl | Err _ => demo_launch end.

Lemma demo_threads_run : run_schedule demo_kernel demo_schedule demo_launch = Ok demo_final.
Proof.
  unfold demo_final. destruct (run_schedule _ _ _) as [pl|e] eqn:E; [done|].
  assert (match run_schedule demo_kernel demo_schedule demo_launch with Ok _ => true | Err _ => false end = true) as H
    by (vm_compute; reflexivity). by rewrite E in H.
Qed.

Lemma demo_ready : threads_ready 10 (process demo_handler).
Proof.
  destruct demo_fields as (_ & _ & Hss & _). split.
  - intros mid mo. cbn. rewrite lookup_singleton_Some. intros [<- <-]. split; [reflexivity|].
    intros _. exists (snd demo_fifo). split; [reflexivity|]. cbn. rewrite Hss.
    split; [vm_compute; congruence|]. split; [reflexivity|vm_compute; lia].
  - intros pid p. cbn. rewrite lookup_singleton_Some. intros [<- <-]. vm_compute. congruence.
Qed.

Lemma demo_legal_calls : Forall (Forall (legal_call demo_handler)) demo_threads.
Proof.
  destruct demo_fields as (Hb & Hs & Hss & Hsz & _ & Hp & _).
  assert (Ha : ∀ a, 65536 ≤ a < 65536 + 6000 → address_of demo_handler 7 (mkMapObj (attach demo_m 100 0) 1) a)
    by (intros a Ha; split; [reflexivity|cbn; rewrite Hb, Hsz; lia]).
  repeat constructor; exists 7, (mkMapObj (attach demo_m 100 0) 1).
  - split; [apply Ha; lia|]. cbn. by rewrite Hp.
  - split; [apply Ha; lia|]. cbn. by rewrite Hp.
  - split; [apply Ha; lia|]. cbn. by rewrite Hp.
  - exists 0, 2. split; [reflexivity|]. cbn. rewrite Hb, Hs, Hss. split; [lia|]. split; [lia|].
    split; [lia|]. split; [lia|]. by right.
Qed.
End Demo.

Lemma threads_refine_arrays_witness :
  rtc (step kernel_ok) demo_launch demo_final ∧ finished demo_final ∧
  length (pl_history demo_final) = 3%nat ∧
  (∃ f, replay (pl_history demo_final) (app_view demo_handler) = Some f ∧
     ∀ a, app_view (pl_state demo_final) a = f a) ∧
  ∀ pid p, w_policies (process (pl_state demo_final)) !! pid = Some p →
    resident (process (pl_state demo_final)) p ≤ dynamicMaxMemory (pol_base p).
Proof.
  assert (Hr : rtc (step kernel_ok) demo_launch demo_final)
    by (eapply run_schedule_steps; [exact demo_kernel_ok|exact demo_threads_run]).
  assert (Hf : finished demo_final) by (apply (bool_decide_unpack _); vm_compute; exact I).
  destruct (threads_refine_arrays 10 3 demo_handler demo_threads demo_final demo_handler_inv demo_ready
    demo_legal_calls Hr) as (Hv & _ & Hmem).
  split; [exact Hr|]. split; [exact Hf|]. split; [vm_compute; reflexivity|]. split; [exact Hv|].
  intros pid p Hp. destruct (Hmem Hf pid p Hp). lia.
Defined.
