(* ===== verification/ThreadRace.v ===== *)
(** * Two policies on one mapping, and two threads

    [Mapping::onSegmentationFault] tells the local policy, then the global one, each in
    its own critical section: between the two, the segment is tracked by the local policy
    only.  A fault of another thread can evict it there, and the eviction tells the global
    policy, which asserts that it tracks the segment. *)

From S2P Require Import Prelude ListElement Policy PolicyInterface FifoPolicy OS Driver Mapping System Registry GlobalHandler Threads ThreadOps ThreadAlone.

(** ** The state between the two notifications *)

(** The room a touch of a new segment needs is made by the oldest one, of the same size. *)
Lemma evicts_oldest sz max l e new :
  0 ≤ sz new → sz new = sz e → sumZ sz (l ++ [e]) ≤ max < sumZ sz (l ++ [e]) + sz new →
  victims_of sz max 0 (new :: l ++ [e]) = [e].
Proof.
  intros Hnew Heq Hmem. unfold victims_of. rewrite reverse_cons, reverse_snoc. cbn [app drop_oldest].
  assert (Hr : ∀ k, sumZ sz (reverse k) = sumZ sz k) by (intros k; by rewrite reverse_Permutation).
  rewrite sumZ_app in Hmem. cbn [sumZ] in *. rewrite !sumZ_app, Hr. cbn [sumZ].
  destruct (Z.leb_spec (0 + (sz e + (sumZ sz l + (sz new + 0)))) max); [lia|].
  assert (drop_oldest sz max 0 (reverse l ++ [new]) = (reverse l ++ [new], [])) as ->; [|done].
  assert (0 + sumZ sz (reverse l ++ [new]) ≤ max) as Hle%Z.leb_le by (rewrite sumZ_app, Hr; cbn [sumZ]; lia).
  destruct (reverse l ++ [new]) as [|a k] eqn:E; [done|]. cbn [drop_oldest]. by rewrite Hle.
Qed.

Section Between.
Context {D : Type} `{DriverOps D}.
Abbreviation program := (prog (GlobalHandler D FifoPolicy.FifoPolicy) access_event).

(** A policy that is told of the eviction of a segment it does not track. *)
Lemma notifyEvict_untracked gs h pg lg mid stg i :
  fifo_inv gs h pg lg → Policy.getStorageInfo (FifoPolicy.base pg) mid = Ok stg → 0 ≤ i < elementCount stg →
  element stg i ∉ lg → FifoPolicy.notifyEvict gs h pg mid i = Err (AssertFail "cur.isInList()").
Proof.
  intros Hg Hst Hi Hn. unfold FifoPolicy.notifyEvict. rewrite Hst. cbn [mbind result_bind].
  apply getStorageInfo_inv in Hst as [Hin _].
  rewrite (pool_isInList _ _ _ _ _ (tr_pool _ _ _ _ _ _ Hg)) by (by apply element_in).
  by rewrite bool_decide_eq_false_2.
Qed.

(** C36: a segment can be evicted between the notifications of its two policies.  In any
    state where the local FIFO policy of a mapping tracks segment [i], its oldest one, and
    the global FIFO policy does not track it yet (a thread that faults on [i] told the first
    policy and not the second, as in [two_readers_race]), a thread that faults on a new
    segment [j] of the mapping and finds the local policy full evicts [i], and this
    eviction fails the assertion of the global policy that it tracks the segment: the
    process stops. *)
Theorem eviction_between_notifications got fuel (g : GlobalHandler D FifoPolicy.FifoPolicy) mid mo pl pg l lg st stg i j :
  let w := process g in
  let m := mo_mapping mo in
  let gs := segment_size_of w in
  w_mappings w !! mid = Some mo → localPolicy m ≠ globalPolicy m → globalPolicy m ≠ 0 →
  w_policies w !! localPolicy m = Some pl → w_policies w !! globalPolicy m = Some pg →
  fifo_inv gs (w_heap w) pl (l ++ [element st i]) → fifo_inv gs (w_heap w) pg lg →
  (∀ x, x ∈ all_elems (FifoPolicy.base pg) ++ [FifoPolicy.root pg] →
        x ∉ all_elems (FifoPolicy.base pl) ++ [FifoPolicy.root pl]) →
  Policy.getStorageInfo (FifoPolicy.base pl) mid = Ok st → Policy.getStorageInfo (FifoPolicy.base pg) mid = Ok stg →
  0 ≤ i < elementCount st → 0 ≤ i < elementCount stg → element stg i ∉ lg →
  0 ≤ j < elementCount st → element st j ∉ l ++ [element st i] →
  FifoPolicy.currentMemory pl ≤ dynamicMaxMemory (FifoPolicy.base pl) < FifoPolicy.currentMemory pl + gs mid →
  (S (S (length l)) < fuel)%nat →
  exec got (notifyTouch_prog fuel (localPolicy m) mid j : program unit) g = Err (AssertFail "cur.isInList()").
Proof.
  intros w m gs Hmo Hne Hg0 Hpl Hpg Hil Hig Hdis Hst Hstg Hi Hig' Hnot Hj Hnew Hmem Hfuel.
  apply getStorageInfo_inv in Hst as Hst'. destruct Hst' as [Hin Hmid].
  pose proof (tr_wf _ _ _ _ _ _ Hil) as Hwf. pose proof (wfs_segment _ _ (wfr_storage _ _ Hwf st Hin)) as Hpos.
  assert (Hsz : ∀ k, 0 ≤ k < elementCount st → elt_size gs (FifoPolicy.base pl) (element st k) = gs mid).
  { intros k Hk. rewrite (elt_size_element _ _ Hwf) by done. by rewrite Hmid. }
  pose proof (fifo_touch_run gs (w_heap w) pl _ mid st j fuel Hil Hst Hj) as Hrun. cbv zeta in Hrun.
  rewrite without_notin in Hrun by done. pose proof (tr_mem _ _ _ _ _ _ Hil) as Hcur.
  rewrite (evicts_oldest (elt_size gs (FifoPolicy.base pl)) _ l (element st i) (element st j)) in Hrun.
  2-3: rewrite !Hsz by done; rewrite Hmid in Hpos; (done || lia).
  2: { rewrite Hsz by done. unfold mem_of in Hcur. rewrite <- Hcur. exact Hmem. }
  rewrite decide_True in Hrun by done.
  destruct Hrun as (h' & p' & Hrun & _ & _ & _ & _ & Hfr).
  { pose proof (tracked_bound _ _ _ _ _ _ Hil). lia. }
  { rewrite length_app. cbn [length]. lia. }
  assert (Hig2 : fifo_inv gs h' pg lg).
  { unfold fifo_inv. eapply (tracked_frame gs _ _ _ (w_heap w)); [exact Hig|]. intros x Hx.
    apply Hdis in Hx. apply not_own in Hx as [Hx Hxr]. by apply Hfr. }
  rewrite notifyTouch_alone. fold w.
  assert (notifyTouch fuel w (localPolicy m) mid j = Err (AssertFail "cur.isInList()")) as ->; [|done].
  unfold notifyTouch. rewrite Hpl. cbn [deref mbind result_bind pol_notifyTouch Fifo_ops]. fold gs. rewrite Hrun.
  cbn [mbind result_bind t_evicted fmap list_fmap]. rewrite (elt_segment_element _ _ Hwf) by done. rewrite Hmid.
  unfold evictAll. cbn [foldM]. unfold evict. cbn [w_mappings set_policy]. rewrite Hmo. cbn [deref mbind result_bind].
  fold m. rewrite Z.eqb_refl. cbn [negb andb mbind result_bind].
  apply Z.eqb_neq in Hne as Hneb. rewrite Hneb. apply Z.eqb_neq in Hg0. rewrite Hg0. cbn [negb andb].
  unfold System.notifyEvict. cbn [w_policies set_policy w_heap]. rewrite lookup_insert_ne by done. rewrite Hpg.
  cbn [deref mbind result_bind pol_notifyEvict Fifo_ops].
  change (segment_size_of (set_policy w h' (localPolicy m) p')) with gs.
  by rewrite (notifyEvict_untracked gs h' pg lg mid stg i).
Qed.
End Between.

(** ** Two threads *)

(** A process with a local FIFO policy [100] of one page, a global one [200] of four pages
    in the group "shared", and two pages of storage mapped by [ummap]. *)
Definition race_start : GlobalHandler MemoryDriver FifoPolicy.FifoPolicy :=
  let '(h1, local) := FifoPolicy.newFifoPolicy ∅ 100 108 4096 true in
  let '(h2, global) := FifoPolicy.newFifoPolicy h1 200 208 16384 false in
  mkHandler [] {["shared" := 200]}
    (mkWorld h2 (mkVm (λ _, 0) (λ _, None)) ∅
       {[1 := mkMemory newDriver 8192 (replicate 8192 7)]} {[100 := local; 200 := global]} ∅).

Definition race_handler : GlobalHandler MemoryDriver FifoPolicy.FifoPolicy :=
  match exec (Some 65536) (ummap_prog 1 8192 4096 0 (mkProt true true false) 0 1 100 "shared" 7
          (1024, 0) (2048, 0)) race_start with
  | Ok (_, g) => g
  | Err _ => race_start
  end.

(** One thread reads the first page, one the second. *)
Definition race_threads : list (list call) := [[CLoad 65536]; [CLoad (65536 + 4096)]].

Abbreviation demo_result := (result (Pool (GlobalHandler MemoryDriver FifoPolicy.FifoPolicy) access_event)).

Definition run_race (sched : list nat) : demo_result :=
  run_schedule (λ _ _, true) ((λ i, (i, Some 1048576)) <$> sched)
    (launch 10 3 race_handler race_threads).

(** What a run leaves: the accesses done, when all the threads have returned. *)
Definition accesses (r : demo_result) : option (list access_event) :=
  match r with Ok pl => if decide (finished pl) then Some (pl_history pl) else None | Err _ => None end.

(** One thread after the other, both reads succeed.  But when the first thread has told the
    local policy of its page and not yet the global one, the fault of the second thread
    ends the process. *)
Lemma two_readers_race :
  accesses (run_race (replicate 60 0%nat ++ replicate 60 1%nat)) =
    Some [Loaded 65536 7; Loaded (65536 + 4096) 7] ∧
  run_race (replicate 12 0%nat ++ replicate 60 1%nat) = Err (AssertFail "cur.isInList()").
Proof. split; vm_compute; reflexivity. Qed.

(** The process of these threads when the first page is known to the local policy only. *)
Definition race_between : World MemoryDriver FifoPolicy.FifoPolicy :=
  match notifyTouch 10 (process race_handler) 100 7 0 with Ok w => w | Err _ => process race_handler end.
Definition race_policy (pid : Z) : FifoPolicy.FifoPolicy :=
  default (snd (FifoPolicy.newFifoPolicy ∅ 0 0 0 true)) (w_policies race_between !! pid).
Definition race_map : MapObj := default (mkMapObj (mkMapping 0 0 PROT_NONE_bits 0 0 0 0 0 [] 0 0 true) 0) (w_mappings race_between !! 7).

Lemma race_local : fifo_inv (segment_size_of race_between) (w_heap race_between) (race_policy 100) ([] ++ [1024]).
Proof.
  split.
  - apply (pool_intro _ _ [1024; 1040]); apply (bool_decide_unpack _); vm_compute; exact I.
  - eapply (wf_single _ _ (mkStorage 7 1024 2 16 0)); [vm_compute; reflexivity|split; vm_compute; congruence|vm_compute; reflexivity].
  - vm_compute. reflexivity.
Qed.

Lemma race_global : fifo_inv (segment_size_of race_between) (w_heap race_between) (race_policy 200) [].
Proof.
  split.
  - apply (pool_intro _ _ [2048; 2064]); apply (bool_decide_unpack _); vm_compute; exact I.
  - eapply (wf_single _ _ (mkStorage 7 2048 2 16 0)); [vm_compute; reflexivity|split; vm_compute; congruence|vm_compute; reflexivity].
  - vm_compute. reflexivity.
Qed.

Lemma eviction_between_notifications_witness :
  exec None (notifyTouch_prog 10 100 7 1 : prog _ access_event unit) (set_process race_handler race_between) =
    Err (AssertFail "cur.isInList()").
Proof.
  apply (eviction_between_notifications None 10 (set_process race_handler race_between) 7 race_map (race_policy 100) (race_policy 200) [] []
    (mkStorage 7 1024 2 16 0) (mkStorage 7 2048 2 16 0) 0 1).
  - vm_compute. reflexivity.
  - vm_compute. discriminate.
  - vm_compute. discriminate.
  - vm_compute. reflexivity.
  - vm_compute. reflexivity.
  - exact race_local.
  - exact race_global.
  - apply (proj1 (Forall_forall _ _)). apply (bool_decide_unpack _). vm_compute. exact I.
  - vm_compute. reflexivity.
  - vm_compute. reflexivity.
  - cbn. lia.
  - cbn. lia.
  - apply not_elem_of_nil.
  - cbn. lia.
  - apply (bool_decide_unpack _). vm_compute. exact I.
  - vm_compute. intuition congruence.
  - cbn. lia.
Defined.

(** ** A store that is never let through

    The first thread stores a byte of a page, the second reads it.  The read is refused
    first, then the store; the fault of the store opens the page, and the fault of the
    read, which comes later, closes it for writing although it is dirty: the read is
    done, and each try of the store is refused ([blocked_faults] of [RwWrapper]: its
    faults change nothing). *)
Definition run_late (sched : list nat) : demo_result :=
  run_schedule (λ _ _, true) ((λ i, (i, Some 1048576)) <$> sched)
    (launch 10 20 demo_handler [[CStore 65541 9]; [CLoad 65541]]).

Lemma late_read_starves_store :
  accesses (run_late (replicate 100 0%nat ++ replicate 100 1%nat)) = Some [Stored 65541 9; Loaded 65541 9] ∧
  accesses (run_late ([1%nat] ++ replicate 13 0%nat ++ replicate 40 1%nat ++ replicate 300 0%nat)) =
    Some [Loaded 65541 7].
Proof. split; vm_compute; reflexivity. Qed.
