(* ===== verification/SectionSteps.v ===== *)
(** * The system calls of a critical section

    [Mapping] and [ThreadOps] run what a method does under a mutex, one segment at a
    time, as one section.  Here each method of a mapping without policies is a program
    whose steps are the system calls, the calls to the driver and the assignments to the
    status of a segment (src/src/core/Mapping.cpp): the application can access the
    mapped memory between two of them.  The programs take the fields of the mapping that
    no method changes from [m], and the statuses from the shared state.

    [_alone] lemmas: a thread that runs alone does what the section does. *)

From stdpp Require Import fin_sets sorting.
From S2P Require Import Prelude OS Driver Mapping Threads ThreadOps ThreadOrder.

Section Steps.
Context {D : Type} `{DriverOps D}.
Abbreviation program := (prog (Mapping * vm * D) access_event).

(** ** Steps *)

(** A call to the system or to the driver. *)
Definition sys {X} (f : option Z → vm → D → result (X * (vm * D))) : program X :=
  Atomic (λ got '(m, v, d), '(x, (v', d')) ← f got v d; Ok (x, (m, v', d'))) Ret.
(** The status of a segment, read and assigned under its mutex. *)
Definition read_status (id : Z) : program SegmentStatus :=
  Atomic (λ _ '(m, v, d), s ← get_status m id; Ok (s, (m, v, d))) Ret.
Definition write_status (id : Z) (s : SegmentStatus) : program unit :=
  Atomic (λ _ '(m, v, d), Ok (tt, (set_status m id s, v, d))) Ret.
(** Computations on local values. *)
Definition local {X} (r : result X) : program X :=
  match r with Ok x => Ret x | Err e => Crash e end.

Definition protect (ptr size : Z) (read write exec : bool) : program unit :=
  sys (λ _ v d, v' ← mprotect v ptr size read write exec; Ok (tt, (v', d))).
Definition dont_need (ptr size : Z) : program unit :=
  sys (λ _ v d, Ok (tt, (madviseDontNeed v ptr size, d))).

Section Methods.
Context (m : Mapping) (mid : Z).
Let exec := p_exec (protection m).

(** ** [Mapping::loadAndSwapSegment], [Mapping::onSegmentationFault] *)

Definition loadAndSwapSegment_steps (offset : Z) (writeAccess : bool) : program unit :=
  ptr ← (if threadSafe m then
           sys (λ got v d, '(ptr, v') ← mmapProtFull v got (segmentSize m) exec; Ok (ptr, (v', d)))
         else
           let ptr := baseAddress m + offset in
           _ ← protect ptr (segmentSize m) true true exec; Ret ptr);
  res ← sys (λ _ v d, '(res, (d', v')) ← pread d v ptr (readWriteSize m offset) (storageOffset m ⊕ offset);
                      Ok (res, (v', d')));
  _ ← local (assume (0 <=? res) "Fail to read all data");
  _ ← (if writeAccess then Ret tt else protect ptr (segmentSize m) true false exec);
  if threadSafe m then
    sys (λ _ v d, v' ← mremapForced v ptr (segmentSize m) (baseAddress m + offset); Ok (tt, (v', d)))
  else Ret tt.

(** Under the mutex of the segment. *)
Definition fault_steps (segmentId : Z) (isWrite : bool) : program (option (Z * SegmentStatus)) :=
  let offset := segmentSize m ⊗ segmentId in
  let segmentBase := baseAddress m + offset in
  status ← read_status segmentId;
  if eqb isWrite (dirty status) && mapped status then Ret None
  else
    dirty' ←
      (if negb (mapped status) && needRead status then
         _ ← loadAndSwapSegment_steps offset isWrite;
         Ret (if isWrite then true else dirty status)
       else if isWrite then
         _ ← protect segmentBase (segmentSize m) true true exec; Ret true
       else
         _ ← protect segmentBase (segmentSize m) true false exec; Ret (dirty status));
    _ ← write_status segmentId (mkStatus true dirty' (needRead status));
    Ret (Some (segmentId, status)).

Definition onSegmentationFault_steps (address : Z) (isWrite : bool) : program (option (Z * SegmentStatus)) :=
  _ ← local (
    assume ((baseAddress m <=? address) &&
            (address <? baseAddress m + segments m ⊗ segmentSize m))
      "Invalid address, not fit into the current segment !";;
    assume (negb (bool_decide (protection m = PROT_NONE_bits)))
      "Try to access a segment which is PROT_NONE";;
    assume (negb (isWrite && negb (p_write (protection m))))
      "Try to write access a segment which is not writable");
  let segmentId := (address - baseAddress m) / segmentSize m in
  locked (segment_lock mid m segmentId) (fault_steps segmentId isWrite).

(** ** [Mapping::flush], [Mapping::evict] *)

(** A round of the loop: the write back of a dirty segment, then its end. *)
Definition writeback_steps (curOffset : Z) (status : SegmentStatus) : program SegmentStatus :=
  let segmentPtr := baseAddress m + curOffset in
  _ ← (if threadSafe m then protect segmentPtr (segmentSize m) true (negb (threadSafe m)) exec
       else Ret tt);
  res ← sys (λ _ v d, '(res, d') ← pwrite d v segmentPtr (readWriteSize m curOffset)
                                     (storageOffset m ⊕ curOffset);
                      Ok (res, (v, d')));
  _ ← local (assume (negb (res =? -1)) "Fail to pwrite";;
             assume (0 <=? res) "Fail to fully write the segment");
  let status' := mkStatus (mapped status) false true in
  _ ← write_status (curOffset / segmentSize m) status';
  Ret status'.

Definition flushSegment_steps (unmap : bool) (curOffset : Z) : program unit :=
  let id := curOffset / segmentSize m in
  let segmentPtr := baseAddress m + curOffset in
  status ← read_status id;
  status1 ← (if dirty status && mapped status then writeback_steps curOffset status else Ret status);
  if mapped status1 then
    if unmap then
      _ ← protect segmentPtr (segmentSize m) false false exec;
      _ ← dont_need segmentPtr (segmentSize m);
      write_status id (mkStatus false (dirty status1) (needRead status1))
    else if negb (threadSafe m) then protect segmentPtr (segmentSize m) true false exec
    else Ret tt
  else Ret tt.

Fixpoint flushLoop_steps (fuel : nat) (unmap : bool) (last curOffset : Z) : program unit :=
  match fuel with
  | O => Crash OutOfFuel
  | S fuel' =>
      if curOffset <? last then
        _ ← flushSegment_steps unmap curOffset;
        flushLoop_steps fuel' unmap last (curOffset ⊕ segmentSize m)
      else Ret tt
  end.

Definition flush_steps (offset size flags : Z) : program unit :=
  _ ← local (
    assume (offset <? getSize m) "Offset is not in valid range !";;
    assume (offset ⊕ size <=? getAlignedSize m) "'Offset + size' is not in valid range !";;
    assume (offset mod segmentSize m =? 0) "Should get offset multiple of segment size !";;
    assume (size mod segmentSize m =? 0) "Should get size multiple of segment size !");
  res ← sys (λ _ v d, '(res, (d', v')) ← directMSync d v (getAddress m + offset) size (storageOffset m);
                      Ok (res, (v', d')));
  if res : bool then Ret tt
  else
    toLock ← local (getMutexRange m offset size);
    let idx := if has_flag flags UMMAP_FLUSH_NO_LOCK then [] else marked toLock in
    lockAll mid idx
      (_ ← flushLoop_steps (flush_fuel m) (has_flag flags UMMAP_FLUSH_UNMAP) (offset ⊕ size) offset;
       _ ← (if has_flag flags UMMAP_FLUSH_SYNC then
              sys (λ _ v d, '(d', v') ← dsync d v (getAddress m) offset size; Ok (tt, (v', d')))
            else Ret tt);
       unlockAll mid idx (Ret tt)).

Definition evict_steps (segmentId : Z) : program unit :=
  locked (segment_lock mid m segmentId)
    (flush_steps (segmentId ⊗ segmentSize m) (segmentSize m)
       (Z.lor UMMAP_FLUSH_UNMAP UMMAP_FLUSH_NO_LOCK)).

(** ** [Mapping::dropClean], [Mapping::markCleanAsDirty] *)

Definition dropSegment_steps (i : Z) : program unit :=
  status ← read_status i;
  if mapped status && negb (dirty status) then
    let addr := baseAddress m + segmentSize m ⊗ i in
    _ ← protect addr (segmentSize m) false false exec;
    _ ← dont_need addr (segmentSize m);
    write_status i (mkStatus false (dirty status) (needRead status))
  else Ret tt.

Definition markSegmentDirty_steps (i : Z) : program unit :=
  status ← read_status i;
  if mapped status && negb (dirty status) && p_write (protection m) then
    let addr := baseAddress m + segmentSize m ⊗ i in
    _ ← protect addr (segmentSize m) true true exec;
    write_status i (mkStatus (mapped status) true (needRead status))
  else Ret tt.

Definition each_segment (f : Z → program unit) (ids : list Z) : program unit :=
  foldr (λ i k, _ ← f i; k) (Ret tt) ids.

Definition all_segments_steps (f : Z → program unit) : program unit :=
  let idx := seqZ 0 (segmentMutexesCnt m) in
  lockAll mid idx (_ ← each_segment f (seqZ 0 (segments m)); unlockAll mid idx (Ret tt)).

Definition dropClean_steps : program unit := all_segments_steps dropSegment_steps.
Definition markCleanAsDirty_steps : program unit := all_segments_steps markSegmentDirty_steps.

(** ** The application *)

Definition load_at (a : Z) (s : Mapping * vm * D) : option (Z * access_event * (Mapping * vm * D)) :=
  let '(_, v, _) := s in
  if readable v a then Some (vm_mem v a, Loaded a (vm_mem v a), s) else None.
Definition store_at_address (a b : Z) (s : Mapping * vm * D)
    : option (unit * access_event * (Mapping * vm * D)) :=
  let '(m, v, d) := s in
  if writable v a then Some (tt, Stored a b, (m, poke v a b, d)) else None.

(** An instruction that is refused raises a fault and is tried again, [tries] times. *)
Fixpoint access_steps {X} (f : Mapping * vm * D → option (X * access_event * (Mapping * vm * D)))
    (tries : nat) (a : Z) (isWrite : bool) : program unit :=
  Access f (λ r,
    match r, tries with
    | Some _, _ | None, O => Ret tt
    | None, S tries' => _ ← onSegmentationFault_steps a isWrite; access_steps f tries' a isWrite
    end).

Inductive mapping_call : Type :=
  | MLoad (a : Z)
  | MStore (a b : Z)
  | MFault (a : Z) (isWrite : bool)
  | MFlush (offset size flags : Z)
  | MEvict (segmentId : Z)
  | MDropClean
  | MMarkCleanAsDirty.

Definition call_steps (tries : nat) (c : mapping_call) : program unit :=
  match c with
  | MLoad a => access_steps (load_at a) tries a false
  | MStore a b => access_steps (store_at_address a b) tries a true
  | MFault a isWrite => _ ← onSegmentationFault_steps a isWrite; Ret tt
  | MFlush offset size flags => flush_steps offset size flags
  | MEvict segmentId => evict_steps segmentId
  | MDropClean => dropClean_steps
  | MMarkCleanAsDirty => markCleanAsDirty_steps
  end.

Definition thread_steps (tries : nat) (calls : list mapping_call) : program unit :=
  foldr (λ c k, _ ← call_steps tries c; k) (Ret tt) calls.
End Methods.
End Steps.

(** ** A thread alone *)

Section Alone.
Context {D : Type} `{DriverOps D}.
Context (m : Mapping) (mid : Z) (got : option Z).
Abbreviation program := (prog (Mapping * vm * D) access_event).

(** The result of a section that returns nothing. *)
Definition returns {S : Type} (r : result S) : result (unit * S) := s ← r; Ok (tt, s).

Lemma exec_sys {X} f (m' : Mapping) v (d : D) :
  exec got (sys (X := X) f) (m', v, d) = ('(x, (v', d')) ← f got v d; Ok (x, (m', v', d'))).
Proof. cbn. by destruct (f got v d) as [[x [v' d']]|]. Qed.

Lemma exec_read_status id (m' : Mapping) v (d : D) :
  exec got (read_status id) (m', v, d) = (s ← get_status m' id; Ok (s, (m', v, d))).
Proof. cbn. by destruct (get_status m' id). Qed.

Lemma exec_local {X} (r : result X) (s : Mapping * vm * D) :
  exec got (local r) s = (x ← r; Ok (x, s)).
Proof. by destruct r. Qed.

Lemma exec_protect ptr size r w x (m' : Mapping) v (d : D) :
  exec got (protect ptr size r w x) (m', v, d) = (v' ← mprotect v ptr size r w x; Ok (tt, (m', v', d))).
Proof. unfold protect. rewrite exec_sys. by destruct (mprotect v ptr size r w x). Qed.

Lemma exec_ret {X} (x : X) (s : Mapping * vm * D) :
  exec got (Ret x : program X) s = Ok (x, s).
Proof. done. Qed.
Lemma bind_err {A B} e (k : A → result B) : (Err e ≫= k) = Err e.
Proof. done. Qed.

(** Run the steps of both sides, with a case for each call that can fail. *)
Ltac run_step :=
  first
    [ reflexivity
    | rewrite exec_bind
    | rewrite exec_sys
    | rewrite exec_read_status
    | rewrite exec_local
    | rewrite exec_protect
    | rewrite exec_lockAll
    | rewrite exec_unlockAll
    | rewrite exec_locked
    | rewrite exec_ret
    | rewrite bind_ok
    | rewrite bind_err
    | progress cbv beta iota
    | match goal with x : (_ * _)%type |- _ => destruct x end
    | match goal with
      | |- context [@mbind result result_bind _ _ _ ?r] =>
          lazymatch r with
          | context [@mbind result _ _ _ _ _] => fail
          | exec _ _ _ => fail
          | if ?b then _ else _ => destruct b
          | _ => destruct r
          end
      | |- context [if ?b then _ else _] => is_var b; destruct b
      end ].
Ltac run_steps := repeat run_step.

(** Statuses change, the rest of the mapping does not. *)
Lemma set_status_twice m' id s s' : set_status (set_status m' id s) id s' = set_status m' id s'.
Proof. unfold set_status. cbn. by rewrite list_insert_insert_eq. Qed.

Lemma set_status_get m' id s : get_status m' id = Ok s → set_status m' id s = m'.
Proof.
  unfold get_status, set_status. destruct (segmentStatus m' !! Z.to_nat id) eqn:E; [|done].
  intros [= ->]. rewrite list_insert_id by done. by destruct m'.
Qed.

Definition same_fields (m' : Mapping) : Prop := ∃ l, m' = set_segmentStatus m l.

Lemma same_fields_refl : same_fields m.
Proof. exists (segmentStatus m). by destruct m. Qed.
Lemma same_fields_set m' id s : same_fields m' → same_fields (set_status m' id s).
Proof. intros [l ->]. by eexists. Qed.

Lemma loadAndSwapSegment_alone m' v (d : D) offset w :
  same_fields m' →
  exec got (loadAndSwapSegment_steps m offset w) (m', v, d) =
  ('(v', d') ← loadAndSwapSegment got m' v d offset w; Ok (tt, (m', v', d'))).
Proof.
  intros [l ->]. unfold loadAndSwapSegment_steps, loadAndSwapSegment, readWriteSize.
  cbn [set_segmentStatus threadSafe segmentSize protection baseAddress storageOffset m_size].
  destruct (threadSafe m); run_steps.
Qed.

Lemma fault_alone m' v (d : D) segmentId w :
  same_fields m' →
  exec got (fault_steps m segmentId w) (m', v, d) =
  (status ← get_status m' segmentId;
   if eqb w (dirty status) && mapped status then Ok (None, (m', v, d))
   else
     '(v', d', dirty') ←
       (if negb (mapped status) && needRead status then
          '(v', d') ← loadAndSwapSegment got m' v d (segmentSize m ⊗ segmentId) w;
          Ok (v', d', if w then true else dirty status)
        else if w then
          v' ← mprotect v (baseAddress m + segmentSize m ⊗ segmentId) (segmentSize m) true true
                 (p_exec (protection m)); Ok (v', d, true)
        else
          v' ← mprotect v (baseAddress m + segmentSize m ⊗ segmentId) (segmentSize m) true false
                 (p_exec (protection m)); Ok (v', d, dirty status));
     Ok (Some (segmentId, status), (set_status m' segmentId (mkStatus true dirty' (needRead status)), v', d'))).
Proof.
  intros Hm. unfold fault_steps. rewrite exec_bind, exec_read_status.
  destruct (get_status m' segmentId) as [s|]; [|done]. rewrite !bind_ok.
  destruct (eqb w (dirty s) && mapped s); [done|].
  destruct (negb (mapped s) && needRead s); [|destruct w; run_steps].
  rewrite !exec_bind, loadAndSwapSegment_alone by done.
  by destruct (loadAndSwapSegment got m' v d _ w) as [[v' d']|].
Qed.

Lemma onSegmentationFault_alone v (d : D) address w :
  exec got (onSegmentationFault_steps m mid address w) (m, v, d) =
  ('(m', v', d', notif) ← onSegmentationFault got m v d address w; Ok (notif, (m', v', d'))).
Proof.
  unfold onSegmentationFault_steps, onSegmentationFault. rewrite exec_bind, exec_local.
  destruct (_ && (address <? _)); [|done].
  destruct (bool_decide (protection m = PROT_NONE_bits)); [done|].
  destruct (w && negb (p_write (protection m))); [done|].
  cbn [assume negb]. rewrite !bind_ok, exec_locked, fault_alone by apply same_fields_refl.
  destruct (get_status m _) as [s|]; [|done]. rewrite !bind_ok.
  destruct (eqb w (dirty s) && mapped s); [done|].
  match goal with |- (?r ≫= _) = _ => by destruct r as [[[]]|] end.
Qed.

Lemma writeback_alone m' v (d : D) curOffset status :
  same_fields m' →
  exec got (writeback_steps m curOffset status) (m', v, d) =
  (v1 ← (if threadSafe m then mprotect v (baseAddress m + curOffset) (segmentSize m) true
           (negb (threadSafe m)) (p_exec (protection m)) else Ok v);
   '(res, d1) ← pwrite d v1 (baseAddress m + curOffset) (readWriteSize m curOffset)
                  (storageOffset m ⊕ curOffset);
   assume (negb (res =? -1)) "Fail to pwrite";;
   assume (0 <=? res) "Fail to fully write the segment";;
   let s := mkStatus (mapped status) false true in
   Ok (s, (set_status m' (curOffset / segmentSize m) s, v1, d1))).
Proof.
  intros Hm. unfold writeback_steps, write_status.
  destruct (threadSafe m); run_steps.
Qed.

Lemma exec_write_status id s (m' : Mapping) v (d : D) :
  exec got (write_status id s) (m', v, d) = Ok (tt, (set_status m' id s, v, d)).
Proof. done. Qed.

(** The end of a round. *)
Lemma closing_alone unmap curOffset s m' v (d : D) :
  same_fields m' → get_status m' (curOffset / segmentSize m) = Ok s →
  exec got
    (if mapped s then
       if unmap : bool then
         _ ← protect (baseAddress m + curOffset) (segmentSize m) false false (p_exec (protection m));
         _ ← dont_need (baseAddress m + curOffset) (segmentSize m);
         write_status (curOffset / segmentSize m) (mkStatus false (dirty s) (needRead s))
       else if negb (threadSafe m)
         then protect (baseAddress m + curOffset) (segmentSize m) true false (p_exec (protection m))
         else Ret tt
     else Ret tt) (m', v, d) =
  ('(v2, s2) ←
     (if mapped s then
        if unmap then
          v2 ← mprotect v (baseAddress m + curOffset) (segmentSize m) false false (p_exec (protection m));
          Ok (madviseDontNeed v2 (baseAddress m + curOffset) (segmentSize m),
              mkStatus false (dirty s) (needRead s))
        else if negb (threadSafe m) then
          v2 ← mprotect v (baseAddress m + curOffset) (segmentSize m) true false (p_exec (protection m));
          Ok (v2, s)
        else Ok (v, s)
      else Ok (v, s));
   Ok (tt, (set_status m' (curOffset / segmentSize m) s2, v2, d))).
Proof.
  intros Hm Hs. pose proof (set_status_get _ _ _ Hs) as Hsame. unfold dont_need.
  destruct (mapped s); [destruct unmap; [|destruct (threadSafe m); cbn [negb]]|];
    run_steps; by rewrite ?exec_write_status, ?Hsame.
Qed.

(** A mapping with the fields of [m] computes what [m] computes. *)
Ltac same_as_m m' :=
  change (segmentSize m') with (segmentSize m); change (baseAddress m') with (baseAddress m);
  change (protection m') with (protection m); change (threadSafe m') with (threadSafe m);
  change (storageOffset m') with (storageOffset m);
  change (readWriteSize m') with (readWriteSize m).

Lemma flushSegment_alone unmap curOffset m' v (d : D) :
  same_fields m' →
  exec got (flushSegment_steps m unmap curOffset) (m', v, d) = returns (flushSegment unmap (m', v, d) curOffset).
Proof.
  intros Hm. assert (Hm' := Hm). destruct Hm' as [l Hl]. unfold flushSegment_steps, flushSegment, returns.
  rewrite exec_bind, exec_read_status. subst m'. set (m' := set_segmentStatus m l) in *. same_as_m m'.
  destruct (get_status m' (curOffset / segmentSize m)) as [s|] eqn:Hs; [|done]. rewrite !bind_ok, exec_bind.
  destruct (dirty s && mapped s).
  - rewrite writeback_alone by done. set (v1 := if threadSafe m then _ else _). destruct v1 as [v1|]; [|done].
    rewrite !bind_ok. destruct (pwrite d v1 _ _ _) as [[res d1]|]; [|done]. rewrite !bind_ok.
    destruct (assume (negb (res =? -1)) _) as [[]|]; [|done]. rewrite !bind_ok.
    destruct (assume (0 <=? res) _) as [[]|]; [|done]. cbv zeta. rewrite !bind_ok, closing_alone.
    + match goal with |- (?r ≫= _) = _ => destruct r as [[v2 s2]|]; [|done] end.
      by rewrite !bind_ok, set_status_twice.
    + by apply same_fields_set.
    + unfold get_status, set_status in *. cbn. destruct (segmentStatus m' !! _) eqn:E; [|done].
      rewrite list_lookup_insert_eq by (by eapply lookup_lt_Some). done.
  - rewrite exec_ret, !bind_ok, closing_alone by done.
    match goal with |- (?r ≫= _) = _ => by destruct r as [[v2 s2]|] end.
Qed.

Lemma flushSegment_fields unmap curOffset m' v (d : D) m2 v2 d2 :
  flushSegment unmap (m', v, d) curOffset = Ok (m2, v2, d2) → same_fields m' → same_fields m2.
Proof.
  unfold flushSegment. intros Hrun Hm.
  repeat match goal with
  | H : (_ ≫= _) = Ok _ |- _ => inv_bind H
  | x : (_ * _)%type |- _ => destruct x
  end.
  injection Hrun as <- <- <-. by apply same_fields_set.
Qed.

Lemma flushLoop_alone fuel unmap last curOffset m' v (d : D) :
  same_fields m' →
  exec got (flushLoop_steps m fuel unmap last curOffset) (m', v, d) =
  returns (flushLoop fuel unmap last (m', v, d) curOffset).
Proof.
  revert curOffset m' v d. induction fuel as [|fuel IH]; intros curOffset m' v d Hm; [done|].
  cbn [flushLoop_steps flushLoop]. destruct (curOffset <? last); [|done].
  rewrite exec_bind, flushSegment_alone by done. unfold returns at 1.
  destruct (flushSegment unmap (m', v, d) curOffset) as [[[m2 v2] d2]|] eqn:Hf; [|done].
  rewrite !bind_ok. pose proof (flushSegment_fields _ _ _ _ _ _ _ _ Hf Hm) as Hm2. rewrite IH by done.
  cbn [fst]. by destruct Hm as [l ->].
Qed.

Lemma flush_steps_alone v (d : D) offset size flags m' :
  same_fields m' →
  exec got (flush_steps m mid offset size flags) (m', v, d) = returns (flush m' v d offset size flags).
Proof.
  intros Hm. assert (Hm' := Hm). destruct Hm' as [l Hl]. unfold flush_steps, flush, returns. subst m'.
  set (m' := set_segmentStatus m l) in *. same_as_m m'.
  change (getSize m') with (getSize m). change (getAlignedSize m') with (getAlignedSize m).
  change (getAddress m') with (getAddress m). change (getMutexRange m') with (getMutexRange m).
  change (flush_fuel m') with (flush_fuel m).
  rewrite exec_bind, exec_local.
  destruct (offset <? getSize m); [|done]. destruct (offset ⊕ size <=? getAlignedSize m); [|done].
  destruct (offset mod segmentSize m =? 0); [|done]. destruct (size mod segmentSize m =? 0); [|done].
  cbn [assume]. rewrite !bind_ok, exec_bind, exec_sys.
  destruct (directMSync d v _ size (storageOffset m)) as [[[] [d1 v1]]|]; [done| |done]. rewrite !bind_ok.
  rewrite exec_bind, exec_local. destruct (getMutexRange m offset size) as [toLock|]; [|done].
  rewrite !bind_ok, exec_lockAll, exec_bind, flushLoop_alone by done. unfold returns at 1.
  destruct (flushLoop _ _ _ _ _) as [[[m2 v2] d2]|]; [|done]. rewrite !bind_ok, exec_bind.
  destruct (has_flag flags UMMAP_FLUSH_SYNC); rewrite ?exec_sys, ?exec_ret; rewrite ?bind_ok.
  - destruct (dsync d2 v2 _ offset size) as [[d3 v3]|]; [|done]. by rewrite !bind_ok, exec_unlockAll.
  - by rewrite exec_unlockAll.
Qed.

Lemma evict_steps_alone v (d : D) segmentId :
  exec got (evict_steps m mid segmentId) (m, v, d) = returns (evict_segment m v d segmentId).
Proof. unfold evict_steps. rewrite exec_locked. apply flush_steps_alone, same_fields_refl. Qed.

(** Loops over all the segments. *)
Lemma all_segments_alone (f : Z → program unit) (g : Mapping * vm → Z → result (Mapping * vm)) v (d : D) :
  (∀ i m' v, same_fields m' → exec got (f i) (m', v, d) = ('(m2, v2) ← g (m', v) i; Ok (tt, (m2, v2, d)))) →
  (∀ i m' v m2 v2, g (m', v) i = Ok (m2, v2) → same_fields m' → same_fields m2) →
  exec got (all_segments_steps m mid f) (m, v, d) =
  ('(m2, v2) ← foldM g (m, v) (seqZ 0 (segments m)); Ok (tt, (m2, v2, d))).
Proof.
  intros Hf Hg. unfold all_segments_steps. rewrite exec_lockAll, exec_bind.
  assert (Hloop : ∀ ids m' v, same_fields m' →
    exec got (each_segment f ids) (m', v, d) = ('(m2, v2) ← foldM g (m', v) ids; Ok (tt, (m2, v2, d)))).
  { induction ids as [|i ids IH]; intros m' v' Hm; [done|]. cbn [each_segment foldr foldM].
    rewrite exec_bind, Hf by done. destruct (g (m', v') i) as [[m2 v2]|] eqn:E; [|done]. rewrite !bind_ok.
    apply IH. by eapply Hg. }
  rewrite Hloop by apply same_fields_refl. destruct (foldM g (m, v) _) as [[m2 v2]|]; [|done].
  by rewrite !bind_ok, exec_unlockAll.
Qed.

Lemma dropClean_alone v (d : D) :
  exec got (dropClean_steps m mid) (m, v, d) = ('(m', v') ← dropClean m v; Ok (tt, (m', v', d))).
Proof.
  apply (all_segments_alone _ dropSegment).
  - intros i m' v' [l ->]. unfold dropSegment_steps, dropSegment, dont_need. rewrite exec_bind, exec_read_status.
    set (m' := set_segmentStatus m l). same_as_m m'. destruct (get_status m' i) as [s|]; [|done].
    rewrite !bind_ok. destruct (mapped s && negb (dirty s)); [|done]. cbv zeta. run_steps.
  - intros i m' v' m2 v2. unfold dropSegment. destruct (get_status m' i) as [s|]; [|done]. rewrite bind_ok.
    destruct (mapped s && negb (dirty s)); [|by intros [= <- <-]]. cbv zeta.
    destruct (mprotect _ _ _ _ _ _); [|done]. intros [= <- <-]. apply same_fields_set.
Qed.

Lemma markCleanAsDirty_alone v (d : D) :
  exec got (markCleanAsDirty_steps m mid) (m, v, d) = ('(m', v') ← markCleanAsDirty m v; Ok (tt, (m', v', d))).
Proof.
  apply (all_segments_alone _ markSegmentDirty).
  - intros i m' v' [l ->]. unfold markSegmentDirty_steps, markSegmentDirty. rewrite exec_bind, exec_read_status.
    set (m' := set_segmentStatus m l). same_as_m m'. destruct (get_status m' i) as [s|]; [|done].
    rewrite !bind_ok. destruct (mapped s && negb (dirty s) && p_write (protection m)); [|done].
    cbv zeta. run_steps.
  - intros i m' v' m2 v2. unfold markSegmentDirty. destruct (get_status m' i) as [s|]; [|done]. rewrite bind_ok.
    destruct (mapped s && negb (dirty s) && _); [|by intros [= <- <-]]. cbv zeta.
    destruct (mprotect _ _ _ _ _ _); [|done]. intros [= <- <-]. apply same_fields_set.
Qed.

End Alone.

(** ** Order of the mutexes *)

Section Order.
Context {D : Type} `{DriverOps D}.
Context (m : Mapping) (mid : Z).
Abbreviation program := (prog (Mapping * vm * D) access_event).

(** [p] returns with the mutexes it had. *)
Definition balanced {A} (p : program A) : Prop := ∀ held, ordered held p held.

Lemma balanced_bind {A B} (p : program A) (k : A → program B) :
  balanced p → (∀ a, balanced (k a)) → balanced (p ≫= k).
Proof. intros Hp Hk held. eapply ordered_bind; [apply Hp|]. intros a. apply Hk. Qed.

Lemma balanced_ret {A} (a : A) : balanced (Ret a).
Proof. done. Qed.
Lemma balanced_crash {A} e : balanced (Crash e : program A).
Proof. done. Qed.
Lemma balanced_atomic {X} f : balanced (Atomic f (Ret : X → program X)).
Proof. done. Qed.

(** It takes no mutex: the sections of one segment. *)
Ltac balanced_auto :=
  repeat lazymatch goal with
  | |- balanced (Ret _) => apply balanced_ret
  | |- balanced (Crash _) => apply balanced_crash
  | |- balanced (local ?r) => destruct r; cbn [local]
  | |- balanced (protect _ _ _ _ _) => apply balanced_atomic
  | |- balanced (dont_need _ _) => apply balanced_atomic
  | |- balanced (sys _) => apply balanced_atomic
  | |- balanced (read_status _) => apply balanced_atomic
  | |- balanced (write_status _ _) => apply balanced_atomic
  | |- balanced (match ?x with _ => _ end) => destruct x
  | |- balanced (_ ≫= _) => apply balanced_bind; [|intros ?]
  end.

Lemma fault_balanced segmentId w : balanced (fault_steps m segmentId w).
Proof. unfold fault_steps, loadAndSwapSegment_steps. cbv zeta. balanced_auto. Qed.

Lemma flushSegment_balanced unmap curOffset : balanced (flushSegment_steps m unmap curOffset).
Proof. unfold flushSegment_steps, writeback_steps. cbv zeta. balanced_auto. Qed.

Lemma flushLoop_balanced fuel unmap last curOffset : balanced (flushLoop_steps m fuel unmap last curOffset).
Proof.
  revert curOffset. induction fuel as [|fuel IH]; intros curOffset; [apply balanced_crash|].
  cbn [flushLoop_steps]. destruct (curOffset <? last); [|apply balanced_ret].
  apply balanced_bind; [apply flushSegment_balanced|]. intros _. apply IH.
Qed.

Lemma dropSegment_balanced i : balanced (dropSegment_steps m i).
Proof. unfold dropSegment_steps. cbv zeta. balanced_auto. Qed.

Lemma markSegmentDirty_balanced i : balanced (markSegmentDirty_steps m i).
Proof. unfold markSegmentDirty_steps. cbv zeta. balanced_auto. Qed.

Lemma each_segment_balanced (f : Z → program unit) ids :
  (∀ i, balanced (f i)) → balanced (each_segment f ids).
Proof.
  intros Hf. induction ids as [|i ids IH]; [apply balanced_ret|]. apply balanced_bind; [apply Hf|].
  intros _. exact IH.
Qed.

(** One mutex, when none is held; several in increasing order. *)
Lemma locked_ordered {X} l (p : program X) : balanced p → ordered ∅ (locked l p) ∅.
Proof.
  intros Hp. cbn. split; [by intros h ?%elem_of_empty|]. eapply ordered_bind; [apply Hp|].
  intros x. cbn. set_solver.
Qed.

Lemma range_ordered idx (p : program unit) :
  StronglySorted Z.lt idx → balanced p →
  ordered ∅ (lockAll mid idx (_ ← p; unlockAll mid idx (Ret tt))) ∅.
Proof.
  intros Hs Hp. apply ordered_lockAll; [done|by intros h ?%elem_of_empty|].
  eapply ordered_bind; [apply Hp|]. intros _.
  apply ordered_unlockAll; [by apply sorted_NoDup|by intros i ?%elem_of_empty|done].
Qed.

Lemma flush_ordered held offset size flags :
  has_flag flags UMMAP_FLUSH_NO_LOCK = true ∨ held = ∅ →
  ordered held (flush_steps m mid offset size flags) held.
Proof.
  intros Hheld. unfold flush_steps. eapply ordered_bind with (held' := held); [by destruct (assume _ _ ≫= _)|].
  intros _. eapply ordered_bind; [by apply balanced_atomic|]. intros []; [done|].
  eapply ordered_bind with (held' := held); [by destruct (getMutexRange m offset size)|]. intros toLock.
  destruct (has_flag flags UMMAP_FLUSH_NO_LOCK).
  - cbn [lockAll unlockAll foldr]. eapply ordered_bind; [apply flushLoop_balanced|]. intros _.
    eapply ordered_bind; [|by intros _]. by destruct (has_flag flags UMMAP_FLUSH_SYNC).
  - destruct Hheld as [?| ->]; [done|]. apply ordered_lockAll; [apply sorted_marked|by intros h ?%elem_of_empty|].
    eapply ordered_bind; [apply flushLoop_balanced|]. intros _.
    eapply ordered_bind with (held' := mutexes mid (marked toLock) ∪ ∅);
      [by destruct (has_flag flags UMMAP_FLUSH_SYNC)|]. intros _.
    apply ordered_unlockAll; [apply sorted_NoDup, sorted_marked|by intros i ?%elem_of_empty|done].
Qed.

Lemma access_ordered {X} (f : Mapping * vm * D → option (X * access_event * (Mapping * vm * D))) tries a w :
  ordered ∅ (access_steps m mid f tries a w) ∅.
Proof.
  induction tries as [|tries IH]; cbn [access_steps]; intros [x|]; try done.
  eapply ordered_bind; [|by intros _]. unfold onSegmentationFault_steps.
  eapply ordered_bind with (held' := ∅); [by destruct (assume _ _ ≫= _)|]. intros _.
  apply locked_ordered, fault_balanced.
Qed.

Lemma call_ordered tries c : ordered ∅ (call_steps m mid tries c) ∅.
Proof.
  destruct c as [a|a b|a w|offset size flags|id| |]; cbn [call_steps].
  - apply access_ordered.
  - apply access_ordered.
  - eapply ordered_bind; [|done]. unfold onSegmentationFault_steps.
    eapply ordered_bind with (held' := ∅); [by destruct (assume _ _ ≫= _)|]. intros _.
    apply locked_ordered, fault_balanced.
  - apply flush_ordered. by right.
  - apply locked_ordered. intros held. apply flush_ordered. by left.
  - apply range_ordered; [apply sorted_seqZ|]. apply each_segment_balanced, dropSegment_balanced.
  - apply range_ordered; [apply sorted_seqZ|]. apply each_segment_balanced, markSegmentDirty_balanced.
Qed.

Lemma thread_ordered_steps tries calls : ordered ∅ (thread_steps m mid tries calls) ∅.
Proof.
  induction calls as [|c calls IH]; [done|]. eapply ordered_bind; [apply call_ordered|]. intros _. exact IH.
Qed.
End Order.

Section Claim.
Context {D : Type} `{DriverOps D}.
Context (m : Mapping) (mid : Z) (got : option Z).

(** The steps of the methods of a mapping, run without interruption by the kernel
    that gives [got], are the sections of [Mapping]: the same result, the same state and
    the same error, whatever the mapping, the address space, the driver and the
    arguments. *)
Theorem steps_are_the_sections v (d : D) :
  (∀ address isWrite,
     exec got (onSegmentationFault_steps m mid address isWrite) (m, v, d) =
     ('(m', v', d', notif) ← onSegmentationFault got m v d address isWrite; Ok (notif, (m', v', d')))) ∧
  (∀ offset size flags,
     exec got (flush_steps m mid offset size flags) (m, v, d) = returns (flush m v d offset size flags)) ∧
  (∀ segmentId, exec got (evict_steps m mid segmentId) (m, v, d) = returns (evict_segment m v d segmentId)) ∧
  exec got (dropClean_steps m mid) (m, v, d) = ('(m', v') ← dropClean m v; Ok (tt, (m', v', d))) ∧
  exec got (markCleanAsDirty_steps m mid) (m, v, d) = ('(m', v') ← markCleanAsDirty m v; Ok (tt, (m', v', d))).
Proof.
  split; [intros; apply onSegmentationFault_alone|]. split; [intros; apply flush_steps_alone, same_fields_refl|].
  split; [intros; apply evict_steps_alone|]. split; [apply dropClean_alone|apply markCleanAsDirty_alone].
Qed.
End Claim.
