(* ===== verification/SectionInv.v ===== *)
(** * Accesses between the system calls of a section

    The programs of [SectionSteps] on one thread safe mapping: some threads run faults,
    flushes, evictions, [dropClean] and [markCleanAsDirty] one system call at a time,
    and the application loads and stores between any two of them.

    A thread in the middle of a section owes its segment, at the stage its last step
    has reached, under the mutex of the segment ([ThreadTokens]).  A stage says what
    the application can read and write in the segment and where its bytes are; each
    system call moves a segment from one stage to another, and a load or a store that
    the page protection lets through keeps every stage. *)

From stdpp Require Import relations fin_sets.
From S2P Require Import Prelude OS Driver Mapping MappingInv MappingSpec Threads ThreadTokens ThreadOps ThreadOrder ThreadInv SectionSteps.

(** ** Stages *)

(** [s] is the status of the segment.
    - [Known]: nothing in progress;
    - [Closed]: dirty and closed for writing, about to be written back;
    - [Written]: and written back;
    - [Hidden]: clean and closed, about to be dropped, or [dropped];
    - [Mapped t]: not mapped, its temporary segment mapped at [t];
    - [Read t w]: and filled from the storage, open for writing if [w];
    - [Opened w]: open, for writing if [w], the status not yet assigned. *)
Inductive stage : Type :=
  | Known (s : SegmentStatus)
  | Closed (s : SegmentStatus)
  | Written (s : SegmentStatus)
  | Hidden (s : SegmentStatus) (dropped : bool)
  | Mapped (s : SegmentStatus) (t : Z)
  | Read (s : SegmentStatus) (t : Z) (w : bool)
  | Opened (s : SegmentStatus) (w : bool).

Definition stage_status (g : stage) : SegmentStatus :=
  match g with
  | Known s | Closed s | Written s | Hidden s _ | Mapped s _ | Read s _ _ | Opened s _ => s
  end.

Section Interleaved.
Context {D : Type} `{StorageDriver D}.
#[local] Existing Instance late_faults.
Context (m : Mapping) (mid : Z).

(** The temporary segment of a stage. *)
Definition stage_temp (g : stage) (a : Z) : Prop :=
  match g with
  | Mapped _ t | Read _ t _ => t ≤ a < t + segmentSize m
  | _ => False
  end.

(** Byte [x] of the segment; [f] is the array the application sees. *)
Definition stage_byte (f : Z → option Z) (v : vm) (d : D) (g : stage) (x : Z) : Prop :=
  let a := baseAddress m + x in
  let is_memory := x < m_size m → f a = Some (vm_mem v a) in
  match g with
  | Known s => byte_inv m v d s x ∧ (x < m_size m → f a = Some (view_byte m v d s x))
  | Closed s => readable v a = true ∧ writable v a = false ∧ is_memory
  | Written s => readable v a = true ∧ writable v a = false ∧ is_memory ∧
      (x < m_size m → vm_mem v a = content d (storageOffset m + x))
  | Hidden s dropped => readable v a = false ∧ writable v a = false ∧
      (x < m_size m → f a = Some (backing m d s x)) ∧ (dropped = true → vm_mem v a = 0)
  | Mapped s _ | Read s _ _ => mapped s = false ∧ needRead s = true ∧
      byte_inv m v d s x ∧ (x < m_size m → f a = Some (view_byte m v d s x))
  | Opened s w => readable v a = true ∧ is_memory ∧
      (w || dirty s = true → p_write (protection m) = true) ∧
      (w = false → writable v a = false ∧
         (dirty s = false → x < m_size m → vm_mem v a = backing m d s x))
  end.

(** The temporary segment of segment [id]. *)
Definition stage_temp_ok (v : vm) (d : D) (id : Z) (g : stage) : Prop :=
  let exec := p_exec (protection m) in
  match g with
  | Mapped _ t => page_aligned t (segmentSize m) ∧ outside m (stage_temp g) ∧
      ∀ a, stage_temp g a → vm_mem v a = 0 ∧ vm_prot v a = Some (mkProt true true exec)
  | Read _ t w => page_aligned t (segmentSize m) ∧ outside m (stage_temp g) ∧
      ∀ a, stage_temp g a →
        let x := id * segmentSize m + (a - t) in
        vm_mem v a = (if x <? m_size m then content d (storageOffset m + x) else 0) ∧
        vm_prot v a = Some (mkProt true w exec)
  | _ => True
  end.

(** ** The invariant *)

(** Segment [id] is at stage [g]: a thread owes it there, or nothing is in progress. *)
Definition at_stage (owed : list (Z * stage)) (m' : Mapping) (id : Z) (g : stage) : Prop :=
  (id, g) ∈ owed ∨ (id ∉ owed.*1 ∧ g = Known (status_at m' id)).

Record segment_ok (f : Z → option Z) (m' : Mapping) (v : vm) (d : D) (id : Z) (g : stage) : Prop := {
  so_status : status_at m' id = stage_status g;
  so_bytes : ∀ x, in_segment m id x → stage_byte f v d g x;
  so_temp : stage_temp_ok v d id g;
}.

Record array_inv (f : Z → option Z) (owed : list (Z * stage)) (m' : Mapping) (v : vm) (d : D) : Prop := {
  ai_fields : same_fields m m';
  ai_geom : wf_geometry m';
  ai_driver : driver_ok d;
  ai_capacity : storageOffset m + m_size m ≤ capacity d;
  ai_once : NoDup owed.*1;
  ai_range : ∀ id, id ∈ owed.*1 → 0 ≤ id < segments m;
  ai_segment : ∀ id g, 0 ≤ id < segments m → at_stage owed m' id g → segment_ok f m' v d id g;
  ai_apart : ∀ id1 g1 id2 g2 a, (id1, g1) ∈ owed → (id2, g2) ∈ owed → id1 ≠ id2 →
    stage_temp g1 a → ¬ stage_temp g2 a;
}.

(** The history is that of the array, from [f0]. *)
Definition steps_inv (f0 : Z → option Z) (owed : list (Z * stage)) (s : Mapping * vm * D)
    (h : list access_event) : Prop :=
  let '(m', v, d) := s in ∃ f, replay h f0 = Some f ∧ array_inv f owed m' v d.

(** The kernel maps unused memory, outside the mapping. *)
Definition mmap_ok (s : Mapping * vm * D) (got : option Z) : Prop :=
  let '(_, v, _) := s in
  match got with
  | Some t => page_aligned t (segmentSize m) ∧ outside m (temp_area m got) ∧
      ∀ a, temp_area m got a → vm_prot v a = None
  | None => False
  end.

Definition stage_guard (t : Z * stage) : lock := segment_lock mid m (fst t).

Lemma array_inv_perm f l l' m' v d : l ≡ₚ l' → array_inv f l m' v d → array_inv f l' m' v d.
Proof.
  intros Hp [Hf Hg Hd Hc Ho Hr Hs Ha]. split; try done.
  - by rewrite <- Hp.
  - intros id. rewrite <- Hp. apply Hr.
  - intros id g Hid Hat. apply Hs; [done|]. unfold at_stage in *. by rewrite Hp.
  - intros id1 g1 id2 g2 a. rewrite <- Hp. apply Ha.
Qed.

Lemma steps_inv_perm f0 l l' s h : l ≡ₚ l' → steps_inv f0 l s h → steps_inv f0 l' s h.
Proof.
  destruct s as [[m' v] d]. intros Hp (f & Hf & Hi). exists f. split; [done|]. by eapply array_inv_perm.
Qed.

(** ** A change of one stage *)

Record stage_change (f : Z → option Z) (m' : Mapping) (v : vm) (d : D) (id : Z) (g : stage)
    (m2 : Mapping) (v2 : vm) (d2 : D) (g2 : stage) : Prop := {
  sc_mapping : m2 = set_status m' id (stage_status g2);
  sc_vm : ∀ a, ¬ in_segment m id (a - baseAddress m) → ¬ stage_temp g a → ¬ stage_temp g2 a →
    vm_mem v2 a = vm_mem v a ∧ vm_prot v2 a = vm_prot v a;
  sc_content : ∀ y, ¬ (in_segment m id (y - storageOffset m) ∧ y < storageOffset m + m_size m) →
    content d2 y = content d y;
  sc_driver : driver_ok d2 ∧ capacity d2 = capacity d;
  sc_segment : segment_ok f m2 v2 d2 id g2;
  sc_temp : ∀ a, stage_temp g2 a → stage_temp g a ∨ vm_prot v a = None;
}.

Section Rules.
Context (Hg : wf_geometry m).

(** What a stage says depends on the bytes of its segment, of its temporary segment and
    of the storage. *)
Lemma segment_frame f m' v d m2 v2 (d2 : D) id g :
  status_at m2 id = status_at m' id →
  (∀ x, in_segment m id x → vm_mem v2 (baseAddress m + x) = vm_mem v (baseAddress m + x) ∧
     vm_prot v2 (baseAddress m + x) = vm_prot v (baseAddress m + x) ∧
     content d2 (storageOffset m + x) = content d (storageOffset m + x)) →
  (∀ a, stage_temp g a → vm_mem v2 a = vm_mem v a ∧ vm_prot v2 a = vm_prot v a) →
  segment_ok f m' v d id g → segment_ok f m2 v2 d2 id g.
Proof.
  intros Hst Hseg Htemp [H1' H2' H3']. split.
  - by rewrite Hst.
  - intros x Hx. specialize (H2' x Hx). destruct (Hseg x Hx) as (Em & Ep & Ec).
    destruct g; cbn [stage_byte] in *; unfold byte_inv, view_byte, backing, readable, writable in *;
      by rewrite ?Em, ?Ep, ?Ec.
  - destruct g as [s|s|s|s dr|s t|s t w|s w]; cbn [stage_temp_ok] in *; try done.
    + destruct H3' as (? & ? & Ht). do 2 (split; [done|]). intros a Ha.
      destruct (Htemp a Ha) as [-> ->]. by apply Ht.
    + destruct H3' as (? & ? & Ht). do 2 (split; [done|]). intros a Ha.
      destruct (Htemp a Ha) as [-> ->]. destruct (Ht a Ha) as [-> ->]. split; [|done].
      cbn [stage_temp] in Ha. destruct (Hseg (id * segmentSize m + (a - t))) as (_ & _ & ->); [|done].
      unfold in_segment. lia.
Qed.

Lemma temp_outside v (d : D) id g : stage_temp_ok v d id g → outside m (stage_temp g).
Proof. destruct g; cbn; try tauto; by intros _ a. Qed.

Lemma temp_mapped v (d : D) id g a : stage_temp_ok v d id g → stage_temp g a → vm_prot v a ≠ None.
Proof.
  destruct g; cbn; try done; intros (_ & _ & Ht) Ha; destruct (Ht a Ha) as [_ ->]; congruence.
Qed.

(** Each segment is at one stage. *)
Lemma stage_exists owed m' id : ∃ g, at_stage owed m' id g.
Proof.
  destruct (decide (id ∈ owed.*1)) as [Hin|Hn]; [|by exists (Known (status_at m' id)); right].
  apply list_elem_of_fmap in Hin as ([id' g] & -> & Hin). exists g. by left.
Qed.

Lemma stage_unique owed m' id g g' : NoDup owed.*1 → (id, g) ∈ owed → at_stage owed m' id g' → g' = g.
Proof.
  intros Hnd Hin [Hin'|[Hn _]].
  - apply list_elem_of_lookup in Hin as [i Hi], Hin' as [j Hj].
    assert (i = j) as ->; [|congruence].
    eapply NoDup_lookup; [done| |]; by rewrite list_lookup_fmap, ?Hi, ?Hj.
  - exfalso. apply Hn, list_elem_of_fmap. by exists (id, g).
Qed.

(** A thread that holds the mutex of a segment starts to owe it, and stops. *)
Lemma array_inv_enter f others m' v (d : D) id :
  array_inv f others m' v d → 0 ≤ id < segments m → id ∉ others.*1 →
  array_inv f ((id, Known (status_at m' id)) :: others) m' v d.
Proof.
  intros [Hf Hg' Hd Hc Ho Hr Hs Ha] Hid Hn. split; try done.
  - cbn. by constructor.
  - intros id2. cbn. by intros [->|Hin]%elem_of_cons; [|apply Hr].
  - intros id2 g Hid2 [[[= -> ->]|Hin]%elem_of_cons|[Hn2 ->]].
    + apply Hs; [done|]. by right.
    + apply Hs; [done|]. by left.
    + apply Hs; [done|]. right. split; [|done]. cbn in Hn2. set_solver.
  - intros id1 g1 id2 g2 a [[= -> ->]|H1']%elem_of_cons [[= -> ->]|H2']%elem_of_cons Hne; cbn; try tauto.
    by eapply Ha.
Qed.

Lemma array_inv_leave f others m' v (d : D) id s :
  array_inv f ((id, Known s) :: others) m' v d → array_inv f others m' v d.
Proof.
  intros [Hf Hg' Hd Hc Ho Hr Hs Ha]. cbn in Ho. apply NoDup_cons in Ho as [Hn Ho]. split; try done.
  - intros id2 Hin. apply Hr. cbn. by right.
  - intros id2 g Hid2 [Hin|[Hn2 ->]].
    + apply Hs; [done|]. left. by right.
    + destruct (decide (id2 = id)) as [->|Hne].
      * assert (Hk : segment_ok f m' v d id (Known s)) by (apply Hs; [done|left; by left]).
        by rewrite (so_status _ _ _ _ _ _ Hk).
      * apply Hs; [done|]. right. split; [|done]. cbn. set_solver.
  - intros id1 g1 id2 g2 a H1' H2'. apply (Ha id1 g1 id2 g2); by right.
Qed.

Lemma owed_segment f others m' v (d : D) id g :
  array_inv f ((id, g) :: others) m' v d → 0 ≤ id < segments m ∧ segment_ok f m' v d id g.
Proof.
  intros Hi. assert (Hid : 0 ≤ id < segments m) by (apply (ai_range _ _ _ _ _ Hi); cbn; by left).
  split; [done|]. apply (ai_segment _ _ _ _ _ Hi); [done|]. left. by left.
Qed.
Lemma segment_bounds id x : 0 ≤ id < segments m → in_segment m id x →
  0 ≤ x < segments m * segmentSize m.
Proof.
  intros Hid Hx. pose proof (geom_end m Hg id Hid). pose proof (geom_segment m Hg id Hid).
  unfold in_segment in Hx. lia.
Qed.

(** The memory a change may touch is not that of another segment. *)
Lemma change_elsewhere f others m' v (d : D) id g m2 v2 d2 g2 id2 g' :
  array_inv f ((id, g) :: others) m' v d → stage_change f m' v d id g m2 v2 d2 g2 →
  (id2, g') ∈ others → id2 ≠ id → ∀ a, stage_temp g' a → ¬ stage_temp g a ∧ ¬ stage_temp g2 a.
Proof.
  intros Hi Hch Hin Hne a Ha.
  assert (Hn : ¬ stage_temp g a)
    by (apply (ai_apart _ _ _ _ _ Hi id2 g' id g a); [by right|by left|done|done]).
  split; [done|]. intros H2'. destruct (sc_temp _ _ _ _ _ _ _ _ _ _ Hch a H2') as [?|Hnone]; [done|].
  assert (Hs : segment_ok f m' v d id2 g').
  { apply (ai_segment _ _ _ _ _ Hi); [|left; by right]. apply (ai_range _ _ _ _ _ Hi). cbn. right.
    apply list_elem_of_fmap. by exists (id2, g'). }
  by eapply temp_mapped; [apply Hs| |].
Qed.

Lemma other_segment f others m' v (d : D) id g m2 v2 d2 g2 id2 g' :
  array_inv f ((id, g) :: others) m' v d → stage_change f m' v d id g m2 v2 d2 g2 →
  0 ≤ id2 < segments m → id2 ≠ id → at_stage others m2 id2 g' → segment_ok f m2 v2 d2 id2 g'.
Proof.
  intros Hi Hch Hid2 Hne Hat. destruct (owed_segment _ _ _ _ _ _ _ Hi) as [Hid Hsg].
  assert (Hst : status_at m2 id2 = status_at m' id2).
  { rewrite (sc_mapping _ _ _ _ _ _ _ _ _ _ Hch). apply status_set_other; [lia|lia|done]. }
  assert (Hold : segment_ok f m' v d id2 g').
  { apply (ai_segment _ _ _ _ _ Hi); [done|]. destruct Hat as [Hin|[Hn ->]]; [left; by right|right].
    rewrite Hst. split; [cbn; set_solver|done]. }
  assert (Hfar : ∀ x, in_segment m id2 x → ¬ in_segment m id x)
    by (intros x Hx; rewrite in_segment_div in Hx |- * by done; lia).
  pose proof (temp_outside _ _ _ _ (so_temp _ _ _ _ _ _ Hsg)) as Hout.
  pose proof (temp_outside _ _ _ _ (so_temp _ _ _ _ _ _ (sc_segment _ _ _ _ _ _ _ _ _ _ Hch))) as Hout2.
  eapply segment_frame; [exact Hst| | |exact Hold].
  - intros x Hx. pose proof (segment_bounds id2 x Hid2 Hx) as Hb.
    destruct (sc_vm _ _ _ _ _ _ _ _ _ _ Hch (baseAddress m + x)) as [-> ->].
    + replace (baseAddress m + x - baseAddress m) with x by lia. by apply Hfar.
    + intros Ht. apply (Hout _ Ht). lia.
    + intros Ht. apply (Hout2 _ Ht). lia.
    + do 2 (split; [done|]). apply (sc_content _ _ _ _ _ _ _ _ _ _ Hch).
      replace (storageOffset m + x - storageOffset m) with x by lia. intros [Hx' _]. by apply (Hfar x).
  - intros a Ha. destruct Hat as [Hin|[_ ->]]; [|done].
    destruct (change_elsewhere _ _ _ _ _ _ _ _ _ _ _ id2 g' Hi Hch Hin Hne a Ha) as [Hna Hna2].
    apply (sc_vm _ _ _ _ _ _ _ _ _ _ Hch); [|done|done]. intros Hx.
    apply (temp_outside _ _ _ _ (so_temp _ _ _ _ _ _ Hold) a Ha).
    pose proof (segment_bounds id _ Hid Hx). lia.
Qed.

Lemma array_inv_change f others m' v (d : D) id g m2 v2 d2 g2 :
  array_inv f ((id, g) :: others) m' v d → stage_change f m' v d id g m2 v2 d2 g2 →
  array_inv f ((id, g2) :: others) m2 v2 d2.
Proof.
  intros Hi Hch. pose proof Hi as [Hf Hg' Hd Hc Ho Hr Hs Ha].
  destruct (sc_driver _ _ _ _ _ _ _ _ _ _ Hch) as [Hd2 Hc2].
  pose proof (sc_mapping _ _ _ _ _ _ _ _ _ _ Hch) as Hm2. cbn in Ho. apply NoDup_cons in Ho as [Hn Ho].
  assert (Hne : ∀ id2 g', (id2, g') ∈ others → id2 ≠ id).
  { intros id2 g' Hin ->. apply Hn, list_elem_of_fmap. by exists (id, g'). }
  split.
  - rewrite Hm2. by apply same_fields_set.
  - rewrite Hm2. by apply wf_set_status.
  - done.
  - lia.
  - cbn. by constructor.
  - exact Hr.
  - intros id2 g' Hid2 Hat. destruct (decide (id2 = id)) as [->|Hne2].
    + rewrite (stage_unique ((id, g2) :: others) m2 id g2 g'); [apply Hch|cbn; by constructor|by left|done].
    + eapply other_segment; [done|done|done|done|].
      destruct Hat as [[[= ? _]|Hin]%elem_of_cons|[Hn2 ->]]; [done|by left|right].
      split; [cbn in Hn2; set_solver|done].
  - assert (Hel : ∀ id' g' a, (id', g') ∈ others → stage_temp g2 a → stage_temp g' a → False).
    { intros id' g' a Hin H1' H2'.
      destruct (change_elsewhere _ _ _ _ _ _ _ _ _ _ _ id' g' Hi Hch Hin (Hne _ _ Hin) a H2'). done. }
    intros id1 g1 id2 g3 a [[= -> ->]|H1']%elem_of_cons [[= -> ->]|H2']%elem_of_cons Hne2 Ht1 Ht2; [done|eauto..|].
    by eapply (Ha id1 g1 id2 g3); [right|right|..].
Qed.

(** ** Accesses of the application *)

(** What it can read is the array, and what it can write it changes there. *)
Lemma stage_byte_load f v (d : D) g x :
  stage_byte f v d g x → readable v (baseAddress m + x) = true → x < m_size m →
  f (baseAddress m + x) = Some (vm_mem v (baseAddress m + x)).
Proof.
  intros Hb Hr Hx.
  assert (Hknown : ∀ s, byte_inv m v d s x → (x < m_size m → f (baseAddress m + x) = Some (view_byte m v d s x)) →
    f (baseAddress m + x) = Some (vm_mem v (baseAddress m + x))).
  { intros s Hbi Hf. rewrite Hf by done. unfold view_byte, byte_inv in *. rewrite Hr in Hbi.
    destruct (mapped s); [done|]. by destruct Hbi as (_ & ? & _). }
  destruct g as [s|s|s|s dr|s t|s t w|s w]; cbn [stage_byte] in Hb.
  - destruct Hb. by apply (Hknown s).
  - tauto.
  - tauto.
  - destruct Hb. congruence.
  - destruct Hb as (_ & _ & Hb & Hf). by apply (Hknown s).
  - destruct Hb as (_ & _ & Hb & Hf). by apply (Hknown s).
  - tauto.
Qed.

Definition poked (f : Z → option Z) (a b : Z) (y : Z) : option Z := if y =? a then Some b else f y.

Lemma stage_byte_store f v (d : D) g x b :
  stage_byte f v d g x → writable v (baseAddress m + x) = true →
  let a := baseAddress m + x in stage_byte (poked f a b) (poke v a b) d g x.
Proof.
  intros Hb Hw a.
  assert (Hmem : vm_mem (poke v a b) a = b) by (cbn; by rewrite Z.eqb_refl).
  assert (Hf : poked f a b a = Some b) by (unfold poked; by rewrite Z.eqb_refl).
  assert (Hknown : ∀ s, byte_inv m v d s x → mapped s = true ∧ dirty s = true).
  { intros s. unfold byte_inv. fold a. subst a. rewrite Hw. destruct (mapped s); [|naive_solver].
    destruct (dirty s); naive_solver. }
  destruct g as [s|s|s|s dr|s t|s t w|s w]; cbn [stage_byte] in *; fold a in Hb |- *; fold a in Hw;
    rewrite ?Hmem, ?Hf.
  - destruct Hb as [Hbi _]. destruct (Hknown s Hbi) as [Hm Hd]. unfold byte_inv, view_byte in *.
    rewrite Hm, Hd in *. fold a in Hbi |- *. rewrite Hmem. done.
  - destruct Hb as (_ & ? & _). congruence.
  - destruct Hb as (_ & ? & _). congruence.
  - destruct Hb as (_ & ? & _). congruence.
  - destruct Hb as (Hm & _ & Hbi & _). destruct (Hknown s Hbi). congruence.
  - destruct Hb as (Hm & _ & Hbi & _). destruct (Hknown s Hbi). congruence.
  - destruct Hb as (Hr & _ & Hp & Hc). split; [exact Hr|]. split; [done|]. split; [exact Hp|].
    intros Hwf. destruct (Hc Hwf). congruence.
Qed.

Lemma stage_byte_elsewhere f v (d : D) g x a b :
  stage_byte f v d g x → baseAddress m + x ≠ a → stage_byte (poked f a b) (poke v a b) d g x.
Proof.
  intros Hb Hne. assert (Hm : vm_mem (poke v a b) (baseAddress m + x) = vm_mem v (baseAddress m + x))
    by (cbn; by apply Z.eqb_neq in Hne as ->).
  assert (Hf : poked f a b (baseAddress m + x) = f (baseAddress m + x))
    by (unfold poked; by apply Z.eqb_neq in Hne as ->).
  destruct g; cbn [stage_byte] in *; unfold byte_inv, view_byte in *; by rewrite ?Hm, ?Hf.
Qed.

(** The address of a byte of the mapping. *)
Definition byte_address (a : Z) : Prop := baseAddress m ≤ a < baseAddress m + m_size m.

Lemma byte_segment a : byte_address a →
  let x := a - baseAddress m in let id := x / segmentSize m in
  0 ≤ id < segments m ∧ in_segment m id x ∧ x < m_size m ∧ baseAddress m + x = a.
Proof.
  intros Ha x id. pose proof (wg_size _ Hg). unfold byte_address in Ha. subst x id.
  split; [apply segment_lt; [done|lia]|]. split; [by apply segment_of|lia].
Qed.

Lemma array_load f owed m' v (d : D) a :
  array_inv f owed m' v d → byte_address a → readable v a = true → f a = Some (vm_mem v a).
Proof.
  intros Hi Ha Hr. destruct (byte_segment a Ha) as (Hid & Hx & Hlt & Hb). cbv zeta in *.
  destruct (stage_exists owed m' ((a - baseAddress m) / segmentSize m)) as [g Hat].
  destruct (ai_segment _ _ _ _ _ Hi _ _ Hid Hat) as [_ Hbytes _].
  rewrite <- Hb at 1 2. eapply stage_byte_load; [by apply Hbytes|by rewrite Hb|done].
Qed.

Lemma array_store f owed m' v (d : D) a b :
  array_inv f owed m' v d → byte_address a → writable v a = true →
  array_inv (poked f a b) owed m' (poke v a b) d.
Proof.
  intros [Hf Hg' Hd Hc Ho Hr Hs Ha] Hin Hw. split; try done. intros id g Hid Hat.
  destruct (Hs id g Hid Hat) as [Hst Hbytes Htemp]. split; [done| |].
  - intros x Hx. destruct (decide (baseAddress m + x = a)) as [<-|Hne].
    + apply stage_byte_store; [by apply Hbytes|done].
    + apply stage_byte_elsewhere; [by apply Hbytes|done].
  - pose proof (temp_outside _ _ _ _ Htemp) as Hout. pose proof (wg_size _ Hg). unfold byte_address in Hin.
    assert (Hmem : ∀ y, stage_temp g y → vm_mem (poke v a b) y = vm_mem v y).
    { intros y Hy. cbn. destruct (Z.eqb_spec y a) as [->|]; [|done]. destruct (Hout a Hy). lia. }
    destruct g as [s|s|s|s dr|s t|s t w|s w]; cbn [stage_temp_ok] in *; try done;
      destruct Htemp as (? & ? & Ht); do 2 (split; [done|]); intros y Hy; rewrite Hmem by done; by apply Ht.
Qed.

(** ** Rules for the steps *)

Context (f0 : Z → option Z).

Abbreviation program := (prog (Mapping * vm * D) access_event).
Abbreviation pguarded := (guarded mmap_ok (steps_inv f0) (λ _, False) stage_guard).

(** What a thread may find of the segment it owes. *)
Definition finds (got : option Z) (f : Z → option Z) (m' : Mapping) (v : vm) (d : D) (id : Z) (g : stage) : Prop :=
  0 ≤ id < segments m ∧ same_fields m m' ∧ wf_geometry m' ∧ driver_ok d ∧
  storageOffset m + m_size m ≤ capacity d ∧ segment_ok f m' v d id g ∧ mmap_ok (m', v, d) got.

Lemma rule_read {A} (Q : gset lock → list (Z * stage) → A → Prop) held id k :
  0 ≤ id < segments m → segment_lock mid m id ∈ held →
  (∀ s, pguarded Q held [(id, Known s)] (k s) ∨ pguarded Q held [] (k s)) →
  pguarded Q held [] (read_status id ≫= k : program A).
Proof.
  intros Hid Hheld Hk others got [[m' v] d] h Hap (f & Hf & Hi) _. cbn [app] in Hi.
  destruct (ai_fields _ _ _ _ _ Hi) as [l Hl].
  assert (Hst : get_status m' id = Ok (status_at m' id))
    by (apply get_status_ok; [apply Hi|by rewrite Hl]).
  cbn [read_status]. rewrite Hst, bind_ok. destruct (Hk (status_at m' id)) as [Hs|Hs].
  - exists [(id, Known (status_at m' id))]. split; [by apply covered_one|]. split; [|exact Hs].
    exists f. split; [done|]. cbn [app]. apply array_inv_enter; [done|done|].
    intros ([id' g] & -> & Hin)%list_elem_of_fmap. by apply (Hap _ Hin).
  - exists []. split; [apply covered_nil|]. split; [by exists f|exact Hs].
Qed.

(** A step that moves the segment the thread owes from a stage to another. *)
Lemma rule_step {A X} (Q : gset lock → list (Z * stage) → A → Prop) held id g
    (F : option Z → Mapping * vm * D → result (X * (Mapping * vm * D))) (k : X → program A) :
  segment_lock mid m id ∈ held →
  (∀ got f m' v d, finds got f m' v d id g →
     ∃ x m2 v2 d2 g2, F got (m', v, d) = Ok (x, (m2, v2, d2)) ∧ stage_change f m' v d id g m2 v2 d2 g2 ∧
       (pguarded Q held [(id, g2)] (k x) ∨ (∃ s, g2 = Known s) ∧ pguarded Q held [] (k x))) →
  pguarded Q held [(id, g)] (Atomic F Ret ≫= k).
Proof.
  intros Hheld HF others got [[m' v] d] h Hap (f & Hf & Hi) Hk. cbn [app] in Hi.
  destruct (owed_segment _ _ _ _ _ _ _ Hi) as [Hid Hseg].
  destruct (HF got f m' v d) as (x & m2 & v2 & d2 & g2 & -> & Hch & Hs).
  { split; [done|]. split; [apply Hi|]. split; [apply Hi|]. split; [apply Hi|]. split; [apply Hi|]. done. }
  pose proof (array_inv_change _ _ _ _ _ _ _ _ _ _ _ Hi Hch) as Hi2.
  destruct Hs as [Hs|[[s ->] Hs]].
  - exists [(id, g2)]. split; [by apply covered_one|]. split; [by exists f|exact Hs].
  - exists []. split; [apply covered_nil|]. split; [|exact Hs]. exists f. split; [done|].
    by eapply array_inv_leave.
Qed.

(** *** Steps on the segment itself *)

Definition no_temp (g : stage) : bool := match g with Mapped _ _ | Read _ _ _ => false | _ => true end.

Lemma no_temp_ok v (d : D) id g : no_temp g = true → stage_temp_ok v d id g ∧ ∀ a, ¬ stage_temp g a.
Proof. destruct g; cbn; try done; intros _; split; try done; by intros a ?. Qed.

Lemma change_bytes f m' v d id g v2 (d2 : D) g2 :
  0 ≤ id < segments m → same_fields m m' → wf_geometry m' → segment_ok f m' v d id g →
  stage_status g2 = stage_status g → no_temp g2 = true →
  (∀ a, ¬ in_segment m id (a - baseAddress m) → ¬ stage_temp g a →
     vm_mem v2 a = vm_mem v a ∧ vm_prot v2 a = vm_prot v a) →
  (∀ y, ¬ (in_segment m id (y - storageOffset m) ∧ y < storageOffset m + m_size m) →
     content d2 y = content d y) →
  driver_ok d2 ∧ capacity d2 = capacity d →
  (∀ x, in_segment m id x → stage_byte f v2 d2 g2 x) →
  stage_change f m' v d id g m' v2 d2 g2.
Proof.
  intros Hid [l Hl] Hwf Hs Hst Hnt Hvm Hc Hd Hb. destruct (no_temp_ok v2 d2 id g2 Hnt) as [Hok Hno].
  split; [|intros; by apply Hvm|done|done|split; [by rewrite Hst; apply Hs|done|done]|by intros a ?%Hno].
  rewrite Hst, <- (so_status _ _ _ _ _ _ Hs). symmetry. apply set_status_id; [by rewrite Hl|done].
Qed.

Lemma rule_protect {A} (Q : gset lock → list (Z * stage) → A → Prop) held id g g2 r w k :
  segment_lock mid m id ∈ held → stage_status g2 = stage_status g → no_temp g2 = true →
  (∀ f v v2 d x, vm_mem v2 (baseAddress m + x) = vm_mem v (baseAddress m + x) →
     vm_prot v2 (baseAddress m + x) = Some (mkProt r w (p_exec (protection m))) →
     stage_byte f v d g x → stage_byte f v2 d g2 x) →
  pguarded Q held [(id, g2)] (k tt) →
  pguarded Q held [(id, g)] (protect (baseAddress m + id * segmentSize m) (segmentSize m) r w
                               (p_exec (protection m)) ≫= k : program A).
Proof.
  intros Hheld Hst Hnt Hb Hk. apply rule_step; [done|].
  intros got f m' v d (Hid & Hf & Hwf & Hd & Hc & Hs & _).
  rewrite mprotect_ok by (by apply segment_aligned). rewrite !bind_ok.
  eexists tt, m', _, d, g2. split; [reflexivity|]. split; [|by left].
  apply change_bytes; try done.
  - intros a Ha _. unfold in_segment in Ha. cbn. case_range; [lia|done].
  - intros x Hx. apply (Hb f v); [done| |by apply Hs]. unfold in_segment in Hx. cbn. case_range; [done|lia].
Qed.

(** The assignment of the status: the end of a section, or not. *)
Lemma rule_status {A} (Q : gset lock → list (Z * stage) → A → Prop) held id g s2 k :
  segment_lock mid m id ∈ held → no_temp g = true →
  (∀ f v d x, stage_byte f v d g x → stage_byte f v d (Known s2) x) →
  pguarded Q held [(id, Known s2)] (k tt) ∨ pguarded Q held [] (k tt) →
  pguarded Q held [(id, g)] (write_status id s2 ≫= k : program A).
Proof.
  intros Hheld Hnt Hb Hk. apply rule_step; [done|].
  intros got f m' v d (Hid & [l Hl] & Hwf & Hd & Hc & Hs & _).
  eexists tt, _, v, d, (Known s2). split; [reflexivity|]. split.
  - split; try done. split; [|intros x Hx; by eapply Hb, Hs|done].
    apply status_set_same; [done|by rewrite Hl].
  - destruct Hk as [Hk|Hk]; [by left|right; eauto].
Qed.

Lemma rule_dont_need {A} (Q : gset lock → list (Z * stage) → A → Prop) held id s k :
  segment_lock mid m id ∈ held → pguarded Q held [(id, Hidden s true)] (k tt) →
  pguarded Q held [(id, Hidden s false)]
    (dont_need (baseAddress m + id * segmentSize m) (segmentSize m) ≫= k : program A).
Proof.
  intros Hheld Hk. apply rule_step; [done|]. intros got f m' v d (Hid & Hf & Hwf & Hd & Hc & Hs & _).
  eexists tt, m', _, d, (Hidden s true). split; [reflexivity|]. split; [|by left].
  apply change_bytes; try done.
  - intros a Ha _. unfold in_segment in Ha. cbn. case_range; [lia|done].
  - intros x Hx. destruct (so_bytes _ _ _ _ _ _ Hs x Hx) as (H1' & H2' & H3' & _).
    split; [exact H1'|]. split; [exact H2'|]. split; [exact H3'|]. intros _. unfold in_segment in Hx.
    cbn. case_range; [done|lia].
Qed.

(** The write back. *)
Lemma rule_pwrite {A} (Q : gset lock → list (Z * stage) → A → Prop) held id s (k : Z → program A) :
  segment_lock mid m id ∈ held →
  (∀ res, 0 ≤ res → pguarded Q held [(id, Written s)] (k res)) →
  pguarded Q held [(id, Closed s)]
    (sys (λ _ v d, '(res, d') ← pwrite d v (baseAddress m + id * segmentSize m)
                     (readWriteSize m (id * segmentSize m)) (storageOffset m ⊕ id * segmentSize m);
                   Ok (res, (v, d'))) ≫= k).
Proof.
  intros Hheld Hk. apply rule_step; [done|]. intros got f m' v d (Hid & Hf & Hwf & Hd & Hc & Hs & _).
  destruct (readWriteSize_spec m Hg id Hid) as [Hrw Hpos].
  pose proof (geom_segment m Hg id Hid) as Hseg. pose proof (wg_offset _ Hg).
  pose proof (capacity_law d Hd) as Hcap. pose proof (wg_base _ Hg) as (? & _ & ? & _).
  rewrite size_add by lia.
  destruct (pwrite_law d v (baseAddress m + id * segmentSize m) (readWriteSize m (id * segmentSize m))
    (storageOffset m + id * segmentSize m)) as (n & d2 & -> & Hn & Hd2 & Hc2 & Hcon); [done|lia|done|lia|lia|].
  rewrite !bind_ok. eexists n, m', v, d2, (Written s). split; [reflexivity|]. split; [|left; by apply Hk].
  apply change_bytes; try done.
  - intros y Hy. rewrite Hcon. case_range; [|done]. exfalso. apply Hy. unfold in_segment. lia.
  - intros x Hx. destruct (so_bytes _ _ _ _ _ _ Hs x Hx) as (H1' & H2' & H3').
    split; [exact H1'|]. split; [exact H2'|]. split; [exact H3'|]. intros Hlt. rewrite Hcon.
    unfold in_segment in Hx. case_range; [|lia]. f_equal. lia.
Qed.

(** *** Steps on the temporary segment *)

Let exec := p_exec (protection m).

Lemma change_temp f m' v d id g v2 s g2 :
  0 ≤ id < segments m → same_fields m m' → wf_geometry m' → segment_ok f m' v d id g →
  stage_status g2 = s → stage_status g = s →
  (∀ a, (baseAddress m ≤ a < baseAddress m + segments m * segmentSize m) ∨
        (¬ stage_temp g a ∧ ¬ stage_temp g2 a) → vm_mem v2 a = vm_mem v a ∧ vm_prot v2 a = vm_prot v a) →
  driver_ok d → stage_temp_ok v2 d id g2 →
  (∀ a, stage_temp g2 a → stage_temp g a ∨ vm_prot v a = None) →
  (∀ v x, stage_byte f v d g x → stage_byte f v d g2 x) →
  stage_change f m' v d id g m' v2 (d : D) g2.
Proof.
  intros Hid [l Hl] Hwf Hs Hst2 Hst Hvm Hd Ht Hnew Hb.
  split; [|intros a _ H1' H2'; apply Hvm; by right|done|done| |done].
  - rewrite Hst2, <- Hst, <- (so_status _ _ _ _ _ _ Hs). symmetry. apply set_status_id; [by rewrite Hl|done].
  - split; [by rewrite (so_status _ _ _ _ _ _ Hs), Hst, Hst2| |done]. intros x Hx. apply Hb.
    pose proof (segment_bounds id x Hid Hx). destruct (Hvm (baseAddress m + x)) as [Em Ep]; [left; lia|].
    pose proof (so_bytes _ _ _ _ _ _ Hs x Hx) as Hbx.
    destruct g; cbn [stage_byte] in *; unfold byte_inv, view_byte, readable, writable in *; by rewrite ?Em, ?Ep.
Qed.

Lemma rule_mmap {A} (Q : gset lock → list (Z * stage) → A → Prop) held id s (k : Z → program A) :
  segment_lock mid m id ∈ held → mapped s = false → needRead s = true →
  (∀ t, page_aligned t (segmentSize m) → pguarded Q held [(id, Mapped s t)] (k t)) →
  pguarded Q held [(id, Known s)]
    (sys (λ got v d, '(ptr, v') ← mmapProtFull v got (segmentSize m) exec; Ok (ptr, (v', d))) ≫= k).
Proof.
  intros Hheld Hm Hn Hk. apply rule_step; [done|].
  intros got f m' v d (Hid & Hf & Hwf & Hd & Hc & Hs & Hgot). destruct got as [t|]; [|done].
  destruct Hgot as (Hal & Hout & Hnone). rewrite mmapProtFull_ok by done. rewrite !bind_ok.
  eexists t, m', _, d, (Mapped s t). split; [reflexivity|]. split; [|left; by apply Hk].
  apply (change_temp _ _ _ _ _ _ _ s); try done.
  - intros a Ha. cbn. case_range; [|done]. exfalso. cbn in Ha.
    destruct Ha as [Ha|[_ Ha]]; [|done]. by apply (Hout a).
  - split; [done|]. split; [done|]. intros a Ha. cbn in *. case_range; [done|done].
  - intros a Ha. right. by apply Hnone.
Qed.

Lemma rule_pread {A} (Q : gset lock → list (Z * stage) → A → Prop) held id s t (k : Z → program A) :
  segment_lock mid m id ∈ held →
  (∀ res, 0 ≤ res → pguarded Q held [(id, Read s t true)] (k res)) →
  pguarded Q held [(id, Mapped s t)]
    (sys (λ _ v d, '(res, (d', v')) ← pread d v t (readWriteSize m (id * segmentSize m))
                     (storageOffset m ⊕ id * segmentSize m); Ok (res, (v', d'))) ≫= k).
Proof.
  intros Hheld Hk. apply rule_step; [done|]. intros got f m' v d (Hid & Hf & Hwf & Hd & Hc & Hs & _).
  destruct (so_temp _ _ _ _ _ _ Hs) as (Hal & Hout & Ht). cbn [stage_temp] in Ht, Hout.
  destruct (readWriteSize_spec m Hg id Hid) as [Hrw Hpos].
  pose proof (geom_segment m Hg id Hid) as Hseg. pose proof (wg_offset _ Hg).
  pose proof (capacity_law d Hd) as Hcap. destruct Hal as (Ht0 & Hal). rewrite size_add by lia.
  destruct (pread_law d v t (readWriteSize m (id * segmentSize m)) (storageOffset m + id * segmentSize m))
    as (n & v2 & -> & Hn & Hprot & Hmem); [done|lia|done|lia|lia| |].
  { intros a Ha. apply Ht. lia. }
  rewrite !bind_ok. eexists n, m', v2, d, (Read s t true). split; [reflexivity|]. split; [|left; by apply Hk].
  apply (change_temp _ _ _ _ _ _ _ s); try done.
  - intros a Ha. rewrite Hmem, Hprot. case_range; [|done]. exfalso. cbn in Ha.
    destruct Ha as [Ha|[Ha _]]; [apply (Hout a); [cbn; lia|lia]|lia].
  - split; [done|]. split; [done|]. intros a Ha. cbn [stage_temp] in Ha. cbv zeta.
    destruct (Ht a Ha) as [Hz Hp]. rewrite Hmem, Hprot, Hp. split; [|done].
    destruct (Z.ltb_spec (id * segmentSize m + (a - t)) (m_size m)); case_range; try lia; try done.
    f_equal. lia.
  - intros a Ha. left. exact Ha.
Qed.

Lemma rule_protect_temp {A} (Q : gset lock → list (Z * stage) → A → Prop) held id s t (k : unit → program A) :
  segment_lock mid m id ∈ held → pguarded Q held [(id, Read s t false)] (k tt) →
  pguarded Q held [(id, Read s t true)] (protect t (segmentSize m) true false exec ≫= k).
Proof.
  intros Hheld Hk. apply rule_step; [done|]. intros got f m' v d (Hid & Hf & Hwf & Hd & Hc & Hs & _).
  destruct (so_temp _ _ _ _ _ _ Hs) as (Hal & Hout & Ht). rewrite mprotect_ok by done. rewrite !bind_ok.
  eexists tt, m', _, d, (Read s t false). split; [reflexivity|]. split; [|by left].
  apply (change_temp _ _ _ _ _ _ _ s); try done.
  - intros a Ha. cbn. case_range; [|done]. exfalso. cbn in Ha.
    destruct Ha as [Ha|[Ha _]]; [by apply (Hout a)|done].
  - split; [done|]. split; [done|]. intros a Ha. destruct (Ht a Ha) as [Hm _]. cbn in Ha |- *.
    split; [exact Hm|]. case_range; [done|done].
  - intros a Ha. left. exact Ha.
Qed.

Lemma rule_mremap {A} (Q : gset lock → list (Z * stage) → A → Prop) held id s t w (k : unit → program A) :
  segment_lock mid m id ∈ held → (w = true → p_write (protection m) = true) →
  pguarded Q held [(id, Opened s w)] (k tt) →
  pguarded Q held [(id, Read s t w)]
    (sys (λ _ v d, v' ← mremapForced v t (segmentSize m) (baseAddress m + id * segmentSize m);
                   Ok (tt, (v', d))) ≫= k).
Proof.
  intros Hheld Hpw Hk. apply rule_step; [done|]. intros got f m' v d (Hid & Hf & Hwf & Hd & Hc & Hs & _).
  destruct (so_temp _ _ _ _ _ _ Hs) as (Hal & Hout & Ht). cbn [stage_temp] in Ht, Hout.
  pose proof (segment_aligned m Hg id Hid) as Hal2. pose proof (geom_segmentSize m Hg).
  pose proof (geom_segment m Hg id Hid). pose proof (geom_end m Hg id Hid).
  rewrite mremapForced_ok; [|done|done|].
  2: { intros He. apply (Hout t); cbn; lia. }
  rewrite !bind_ok. eexists tt, m', _, d, (Opened s w). split; [reflexivity|]. split; [|by left].
  apply change_bytes; try done.
  - intros a Ha Hta. unfold in_segment in Ha. cbn in Hta |- *. case_range; try lia; done.
  - intros x Hx. destruct (so_bytes _ _ _ _ _ _ Hs x Hx) as (Hm & Hn & Hb & Hv).
    unfold byte_inv in Hb. rewrite Hm in Hb. destruct Hb as (Hdirty & _).
    assert (Hin : in_range (baseAddress m + id * segmentSize m) (segmentSize m) (baseAddress m + x) = true)
      by (apply in_range_spec; unfold in_segment in Hx; lia).
    replace (t + (baseAddress m + x - (baseAddress m + id * segmentSize m)))
      with (t + (x - id * segmentSize m)) by lia.
    destruct (Ht (t + (x - id * segmentSize m))) as [Hmem Hp]; [unfold in_segment in Hx; lia|].
    cbv zeta in Hmem.
    replace (id * segmentSize m + (t + (x - id * segmentSize m) - t)) with x in Hmem by lia.
    unfold view_byte, backing in Hv. rewrite Hm, Hn in Hv.
    unfold stage_byte, readable, writable, backing. cbn [vm_mem vm_prot]. rewrite Hin.
    replace (t + (baseAddress m + x - (baseAddress m + id * segmentSize m)))
      with (t + (x - id * segmentSize m)) by lia.
    rewrite Hp, Hmem, Hdirty, Hn, orb_false_r. cbn [p_read p_write].
    split; [done|]. split; [intros Hlt; rewrite Hv by done; by apply Z.ltb_lt in Hlt as ->|].
    split; [done|]. intros ->. split; [done|]. intros _ Hlt. by apply Z.ltb_lt in Hlt as ->.
Qed.

(** ** The sections *)

(** A last step is a step followed by nothing. *)
Ltac last_step :=
  match goal with
  | |- guarded _ _ _ _ ?Q ?held ?owes ?p =>
      change (guarded mmap_ok (steps_inv f0) (λ _, False) stage_guard Q held owes (p ≫= Ret))
  end.

Context (Hts : threadSafe m = true).

Lemma load_steps_ok (Q : gset lock → list (Z * stage) → unit → Prop) held id s w :
  segment_lock mid m id ∈ held → mapped s = false → needRead s = true →
  (w = true → p_write (protection m) = true) → Q held [(id, Opened s w)] tt →
  pguarded Q held [(id, Known s)] (loadAndSwapSegment_steps m (id * segmentSize m) w).
Proof.
  intros Hheld Hm Hn Hw HQ. unfold loadAndSwapSegment_steps. rewrite Hts.
  apply rule_mmap; [done..|]. intros t Hal. apply rule_pread; [done|]. intros res Hres.
  apply Z.leb_le in Hres as ->. cbn [assume local].
  assert (Hend : ∀ w', w' = w → pguarded Q held [(id, Read s t w')]
    (sys (λ _ v d, v' ← mremapForced v t (segmentSize m) (baseAddress m + id * segmentSize m); Ok (tt, (v', d))))).
  { intros w' ->. last_step. by apply rule_mremap. }
  destruct w; [by apply Hend|]. apply rule_protect_temp; [done|]. by apply Hend.
Qed.

(** The stages of the bytes: an open segment takes its status, as does a closed one. *)
Lemma opened_known f v (d : D) x s w :
  stage_byte f v d (Opened s w) x →
  stage_byte f v d (Known (mkStatus true (w || dirty s) (needRead s))) x.
Proof.
  intros (Hr & Hf & Hp & Hc). split; [|done]. unfold byte_inv. cbn.
  destruct (w || dirty s) eqn:E; [by auto|]. apply orb_false_iff in E as [-> Hd].
  destruct (Hc eq_refl) as [Hwr Hb]. split; [done|]. split; [done|]. intros Hlt. by apply Hb.
Qed.

Lemma known_opened f v v2 (d : D) x s w e :
  vm_mem v2 (baseAddress m + x) = vm_mem v (baseAddress m + x) →
  vm_prot v2 (baseAddress m + x) = Some (mkProt true w e) →
  (w = true → p_write (protection m) = true) →
  (mapped s = false → needRead s = false) →
  (w = false → mapped s = true → dirty s = true) →
  stage_byte f v d (Known s) x → stage_byte f v2 d (Opened s w) x.
Proof.
  intros Hm Hp Hpw Hnr Hwd [Hb Hf]. unfold stage_byte, readable, writable. rewrite Hm, Hp. cbn.
  assert (Hmem : x < m_size m → view_byte m v d s x = vm_mem v (baseAddress m + x)).
  { intros _. unfold view_byte, byte_inv, backing in *. destruct (mapped s); [done|].
    destruct Hb as (_ & _ & _ & ->). by rewrite Hnr. }
  split; [done|]. split; [intros Hlt; by rewrite Hf, Hmem|]. split.
  { intros [?|Hd]%orb_true_iff; [by auto|]. unfold byte_inv in Hb. rewrite Hd in Hb.
    destruct (mapped s); [tauto|]. by destruct Hb. }
  intros ->. split; [done|].
  intros Hd Hlt. unfold byte_inv, backing in *. destruct (mapped s); [by rewrite Hwd in Hd|].
  rewrite Hnr by done. tauto.
Qed.

Lemma fault_steps_ok held id w :
  0 ≤ id < segments m → segment_lock mid m id ∈ held → (w = true → p_write (protection m) = true) →
  pguarded (λ h o _, h = held ∧ o = []) held [] (fault_steps m id w).
Proof.
  intros Hid Hheld Hw. unfold fault_steps. cbv zeta. apply rule_read; [done|done|]. intros s.
  destruct (eqb w (dirty s) && mapped s) eqn:E; [by right|left]. apply guarded_bind.
  rewrite (proj1 (segment_offset m Hg id Hid)).
  assert (Hend : ∀ dy, dy = w || dirty s → pguarded (λ h o _, h = held ∧ o = []) held [(id, Opened s w)]
    (_ ← write_status id (mkStatus true dy (needRead s)); Ret (Some (id, s)))).
  { intros dy ->. apply rule_status; [done|done|intros f v d x; apply opened_known|by right]. }
  destruct (negb (mapped s) && needRead s) eqn:E2.
  - apply andb_true_iff in E2 as [Hm%negb_true_iff Hn]. apply guarded_bind, load_steps_ok; [done..|].
    apply Hend. by destruct w.
  - assert (Hnr : mapped s = false → needRead s = false) by (intros Hm; by rewrite Hm in E2).
    destruct w.
    + apply (rule_protect _ held id (Known s) (Opened s true)); [done..| |by apply Hend].
      intros f v v2 d x Hm Hp. by eapply known_opened.
    + apply (rule_protect _ held id (Known s) (Opened s false)); [done..| |by apply Hend].
      intros f v v2 d x Hm Hp. eapply known_opened; [done..|]. intros _ Hmp. rewrite Hmp, andb_true_r in E.
      by destruct (dirty s).
Qed.

(** A round of [flush]. *)
Lemma writeback_steps_ok (Q : gset lock → list (Z * stage) → SegmentStatus → Prop) held id s :
  segment_lock mid m id ∈ held → mapped s = true → dirty s = true →
  (let s' := mkStatus true false true in Q held [(id, Known s')] s' ∨ Q held [] s') →
  pguarded Q held [(id, Known s)] (writeback_steps m (id * segmentSize m) s).
Proof.
  intros Hheld Hm Hd HQ. unfold writeback_steps. rewrite Hts. cbv zeta. cbn [negb].
  apply (rule_protect _ held id (Known s) (Closed s)); [done..| |].
  { intros f v v2 d x Hmem Hp [Hb Hf]. unfold stage_byte, readable, writable. rewrite Hp, Hmem. cbn.
    do 2 (split; [done|]). intros Hlt. rewrite Hf by done. unfold view_byte. by rewrite Hm. }
  apply rule_pwrite; [done|]. intros res Hres. destruct (Z.eqb_spec res (-1)); [lia|].
  apply Z.leb_le in Hres as ->. cbn [assume negb local mbind result_bind].
  rewrite Z.div_mul by (pose proof (geom_segmentSize m Hg); lia). rewrite Hm.
  apply rule_status; [done|done| |exact HQ].
  intros f v d x (Hr & Hw & Hf & Hc). split; [by repeat split|]. intros Hlt. by rewrite Hf.
Qed.

(** The end of a section that closes a clean segment. *)
Lemma hide_steps_ok held id s :
  segment_lock mid m id ∈ held → mapped s = true → dirty s = false →
  pguarded (λ h o _, h = held ∧ o = []) held [(id, Known s)]
    (_ ← protect (baseAddress m + id * segmentSize m) (segmentSize m) false false exec;
     _ ← dont_need (baseAddress m + id * segmentSize m) (segmentSize m);
     write_status id (mkStatus false false (needRead s))).
Proof.
  intros Hheld Hm Hd. apply (rule_protect _ held id (Known s) (Hidden s false)); [done..| |].
  { intros f v v2 d x Hmem Hp [Hb Hf]. unfold stage_byte, readable, writable. rewrite Hp. cbn.
    do 2 (split; [done|]). split; [|done]. intros Hlt. rewrite Hf by done. unfold view_byte, byte_inv in *.
    rewrite Hm, Hd in *. f_equal. tauto. }
  apply rule_dont_need; [done|]. last_step. apply rule_status; [done|done| |by right].
  intros f v d x (Hr & Hw & Hf & Hz). split; [|done]. unfold byte_inv. cbn. auto.
Qed.

Lemma flushSegment_steps_ok held unmap id :
  0 ≤ id < segments m → segment_lock mid m id ∈ held →
  pguarded (λ h o _, h = held ∧ o = []) held [] (flushSegment_steps m unmap (id * segmentSize m)).
Proof.
  intros Hid Hheld. unfold flushSegment_steps. cbv zeta.
  rewrite Z.div_mul by (pose proof (geom_segmentSize m Hg); lia). rewrite Hts. cbn [negb].
  apply rule_read; [done|done|]. intros s. destruct (mapped s) eqn:Hm; [|right].
  2: { rewrite andb_false_r. cbn. rewrite Hm. done. }
  rewrite andb_true_r. destruct (dirty s) eqn:Hd.
  - left. apply guarded_bind, writeback_steps_ok; [done..|]. cbn [mapped dirty needRead].
    destruct unmap; [left|right; done]. by apply (hide_steps_ok held id (mkStatus true false true)).
  - destruct unmap; [left|right]; cbn [mbind prog_bind]; rewrite Hm, ?Hd; [|done].
    by apply hide_steps_ok.
Qed.

(** ** The methods *)

(** A method returns with the mutexes it had and owes nothing. *)
Abbreviation method_ok held p := (pguarded (λ h o _, h = held ∧ o = []) held [] p).

Lemma method_bind {A B} (Q : gset lock → list (Z * stage) → B → Prop) held (p : program A) (k : A → program B) :
  method_ok held p → (∀ a, pguarded Q held [] (k a)) → pguarded Q held [] (p ≫= k).
Proof.
  intros Hp Hk. apply guarded_bind. eapply guarded_weaken; [|exact Hp]. by intros h o a [-> ->].
Qed.

Lemma rule_lockAll (Q : gset lock → list (Z * stage) → unit → Prop) held idx (k : program unit) :
  pguarded Q (mutexes mid idx ∪ held) [] k → pguarded Q held [] (lockAll mid idx k).
Proof.
  revert held. induction idx as [|i idx IH]; intros held Hk.
  - by rewrite mutexes_nil, (left_id_L ∅ (∪)) in Hk.
  - cbn. apply IH. rewrite mutexes_cons in Hk. by rewrite (assoc_L (∪)), (comm_L (∪) (mutexes mid idx)).
Qed.

Lemma rule_unlockAll (Q : gset lock → list (Z * stage) → unit → Prop) held idx (k : program unit) :
  NoDup idx → (∀ i, SegmentMutex mid i ∉ held) → pguarded Q held [] k →
  pguarded Q (mutexes mid idx ∪ held) [] (unlockAll mid idx k).
Proof.
  intros Hnd Hh Hk. induction Hnd as [|i idx Hi Hnd IH].
  - by rewrite mutexes_nil, (left_id_L ∅ (∪)).
  - rewrite mutexes_cons. split; [set_solver|]. split; [apply covered_nil|].
    replace (({[SegmentMutex mid i]} ∪ mutexes mid idx ∪ held) ∖ {[SegmentMutex mid i]})
      with (mutexes mid idx ∪ held); [done|].
    assert (SegmentMutex mid i ∉ mutexes mid idx).
    { rewrite elem_of_mutexes. intros (j & [= <-] & Hj). done. }
    pose proof (Hh i). set_solver.
Qed.

Lemma locked_section_ok {A} id (p : program A) :
  (∀ held, held = {[segment_lock mid m id]} → method_ok held p) → method_ok ∅ (locked (segment_lock mid m id) p).
Proof.
  intros Hp. unfold locked. cbn. rewrite (right_id_L ∅ (∪)). apply (method_bind _ _ p); [by apply Hp|].
  intros a. split; [set_solver|]. split; [apply covered_nil|]. split; [set_solver|done].
Qed.

(** A call that changes nothing. *)
Lemma rule_idle {A X} (Q : gset lock → list (Z * stage) → A → Prop) held
    (f : option Z → vm → D → result (X * (vm * D))) (x : X) (k : X → program A) :
  (∀ got v d, driver_ok d → storageOffset m + m_size m ≤ capacity d → f got v d = Ok (x, (v, d))) →
  pguarded Q held [] (k x) → pguarded Q held [] (sys f ≫= k).
Proof.
  intros Hf Hk others got [[m' v] d] h _ (g & Hr & Hi) _. cbn [app] in Hi.
  rewrite (Hf got v d) by apply Hi. rewrite bind_ok. exists []. split; [apply covered_nil|].
  split; [by exists g|exact Hk].
Qed.

Lemma flushLoop_steps_ok held unmap n fuel lo :
  0 ≤ lo → lo + Z.of_nat n ≤ segments m → (n < fuel)%nat →
  (∀ i, lo ≤ i < lo + Z.of_nat n → segment_lock mid m i ∈ held) →
  method_ok held (flushLoop_steps m fuel unmap ((lo + Z.of_nat n) * segmentSize m) (lo * segmentSize m)).
Proof.
  revert fuel lo. induction n as [|n IH]; intros fuel lo Hlo Hhi Hf Hl;
    (destruct fuel as [|fuel]; [lia|]); cbn [flushLoop_steps].
  - by rewrite Z.add_0_r, Z.ltb_irrefl.
  - pose proof (geom_segmentSize m Hg) as Hss. assert (Hid : 0 ≤ lo < segments m) by lia.
    pose proof (wg_fits _ Hg). pose proof (geom_end m Hg lo Hid).
    destruct (Z.ltb_spec (lo * segmentSize m) ((lo + Z.of_nat (S n)) * segmentSize m)); [|nia].
    apply method_bind; [apply flushSegment_steps_ok; [done|apply Hl; lia]|]. intros _.
    rewrite size_add by lia. replace (lo * segmentSize m + segmentSize m) with ((lo + 1) * segmentSize m) by lia.
    replace (lo + Z.of_nat (S n)) with (lo + 1 + Z.of_nat n) by lia.
    apply IH; [lia|lia|lia|]. intros i Hi. apply Hl. lia.
Qed.

(** The mutexes [getMutexRange] marks are those of the segments of the range. *)
Lemma marked_range lo n toLock :
  0 ≤ lo < segments m → 0 ≤ n → lo + n ≤ segments m →
  getMutexRange m (lo * segmentSize m) (n * segmentSize m) = Ok toLock →
  ∀ i, lo ≤ i < lo + n → segment_lock mid m i ∈ mutexes mid (marked toLock).
Proof.
  intros Hlo Hn Hhi Hrun i Hi. destruct (getMutexRange_ok m Hg lo n Hlo Hn Hhi) as (l & Hl & Hlen & Hk).
  rewrite Hrun in Hl. injection Hl as <-. apply elem_of_mutexes. eexists. split; [reflexivity|].
  pose proof (wg_mutexes _ Hg). pose proof (Z.mod_pos_bound i (segmentMutexesCnt m)).
  unfold marked. rewrite list_elem_of_filter, elem_of_seqZ. split; [|lia]. apply Hk; [lia|by exists i].
Qed.

Lemma flush_steps_ok held lo n flags :
  0 ≤ lo < segments m → 0 ≤ n → lo + n ≤ segments m →
  (if has_flag flags UMMAP_FLUSH_NO_LOCK then ∀ i, lo ≤ i < lo + n → segment_lock mid m i ∈ held
   else held = ∅) →
  method_ok held (flush_steps m mid (lo * segmentSize m) (n * segmentSize m) flags).
Proof.
  intros Hlo Hn Hhi Hheld. destruct (range_checks m Hg lo n Hlo Hn Hhi) as (H1' & H2' & H3' & H4' & H5').
  destruct (getMutexRange_ok m Hg lo n Hlo Hn Hhi) as (toLock & Hrange & _).
  pose proof (marked_range lo n toLock Hlo Hn Hhi Hrange) as Hmarked.
  unfold flush_steps. rewrite H1', H2', H4', H5', Hrange, H3'. cbn [assume mbind result_bind local Z.eqb].
  apply (rule_idle _ _ _ false); [intros got v d Hd _; by rewrite directMSync_law|]. cbn [mbind prog_bind].
  assert (Hbody : ∀ (Q : gset lock → list (Z * stage) → unit → Prop) held' (k : program unit),
    (∀ i, lo ≤ i < lo + n → segment_lock mid m i ∈ held') → pguarded Q held' [] k →
    pguarded Q held' []
      (_ ← flushLoop_steps m (flush_fuel m) (has_flag flags UMMAP_FLUSH_UNMAP) ((lo + n) * segmentSize m)
             (lo * segmentSize m);
       _ ← (if has_flag flags UMMAP_FLUSH_SYNC then
              sys (λ _ v d, '(d', v') ← dsync d v (getAddress m) (lo * segmentSize m) (n * segmentSize m);
                            Ok (tt, (v', d')))
            else Ret tt); k)).
  { intros Q held' k Hl Hk. apply method_bind.
    - replace n with (Z.of_nat (Z.to_nat n)) at 1 by lia.
      apply flushLoop_steps_ok; [lia|lia|unfold flush_fuel; lia|]. intros i Hi. apply Hl. lia.
    - intros _. destruct (has_flag flags UMMAP_FLUSH_SYNC); [|done].
      apply (rule_idle _ _ _ tt); [|done]. intros got v d Hd Hc. rewrite dsync_law; [done|done|].
      pose proof (geom_segment m Hg lo Hlo). pose proof (wg_offset _ Hg). lia. }
  destruct (has_flag flags UMMAP_FLUSH_NO_LOCK).
  - cbn [lockAll unlockAll foldr]. by apply Hbody.
  - subst held. apply rule_lockAll. apply Hbody.
    + intros i Hi. apply elem_of_union_l. by apply Hmarked.
    + apply rule_unlockAll; [apply sorted_NoDup, sorted_marked|by intros i ?%elem_of_empty|done].
Qed.

Lemma evict_steps_ok id : 0 ≤ id < segments m → method_ok ∅ (evict_steps m mid id).
Proof.
  intros Hid. apply locked_section_ok. intros held ->. rewrite (proj2 (segment_offset m Hg id Hid)).
  rewrite <- (Z.mul_1_l (segmentSize m)) at 2. apply flush_steps_ok; [lia..|].
  change (has_flag (Z.lor UMMAP_FLUSH_UNMAP UMMAP_FLUSH_NO_LOCK) UMMAP_FLUSH_NO_LOCK) with true.
  intros i Hi. replace i with id by lia. by apply elem_of_singleton.
Qed.

Lemma all_segments_ok (f : Z → program unit) :
  (∀ held i, 0 ≤ i < segments m → segment_lock mid m i ∈ held → method_ok held (f i)) →
  method_ok ∅ (all_segments_steps m mid f).
Proof.
  intros Hf. unfold all_segments_steps. apply rule_lockAll. set (idx := seqZ 0 (segmentMutexesCnt m)).
  apply method_bind.
  - assert (Hall : ∀ i, i ∈ seqZ 0 (segments m) → method_ok (mutexes mid idx ∪ ∅) (f i)).
    { intros i Hi%elem_of_seqZ. apply Hf; [lia|]. apply elem_of_union_l, elem_of_mutexes.
      eexists. split; [reflexivity|]. apply elem_of_seqZ. pose proof (wg_mutexes _ Hg).
      pose proof (Z.mod_pos_bound i (segmentMutexesCnt m)). lia. }
    induction (seqZ 0 (segments m)) as [|i ids IH]; [done|]. cbn [each_segment foldr].
    apply method_bind; [apply Hall; by left|]. intros _. apply IH. intros j Hj. apply Hall. by right.
  - intros _. apply rule_unlockAll; [apply NoDup_seqZ|by intros i ?%elem_of_empty|done].
Qed.

Lemma dropSegment_steps_ok held i :
  0 ≤ i < segments m → segment_lock mid m i ∈ held → method_ok held (dropSegment_steps m i).
Proof.
  intros Hi Hheld. apply rule_read; [done|done|]. intros s.
  destruct (mapped s && negb (dirty s)) eqn:E; [left|by right].
  apply andb_true_iff in E as [Hm Hd%negb_true_iff]. rewrite (proj1 (segment_offset m Hg i Hi)), Hd.
  by apply hide_steps_ok.
Qed.

Lemma markSegmentDirty_steps_ok held i :
  0 ≤ i < segments m → segment_lock mid m i ∈ held → method_ok held (markSegmentDirty_steps m i).
Proof.
  intros Hi Hheld. apply rule_read; [done|done|]. intros s.
  destruct (mapped s && negb (dirty s) && p_write (protection m)) eqn:E; [left|by right].
  apply andb_true_iff in E as [[Hm Hd%negb_true_iff]%andb_true_iff Hw].
  rewrite (proj1 (segment_offset m Hg i Hi)), Hm.
  apply (rule_protect _ held i (Known s) (Opened s true)); [done..| |].
  { intros f v v2 d x Hmem Hp. eapply known_opened; [done|done|done|congruence|done]. }
  last_step. apply rule_status; [done|done|intros f v d x; apply (opened_known f v d x s true)|by right].
Qed.

(** ** Threads *)

(** Accesses the protection of the mapping allows, library calls on whole segments. *)
Definition legal_steps (c : mapping_call) : Prop :=
  match c with
  | MLoad a => byte_address a ∧ protection m ≠ PROT_NONE_bits
  | MStore a _ => byte_address a ∧ p_write (protection m) = true
  | MFault a isWrite => byte_address a ∧ protection m ≠ PROT_NONE_bits ∧
      (isWrite = true → p_write (protection m) = true)
  | MFlush offset size flags => ∃ lo n, offset = lo * segmentSize m ∧ size = n * segmentSize m ∧
      0 ≤ lo < segments m ∧ 0 ≤ n ∧ lo + n ≤ segments m ∧ has_flag flags UMMAP_FLUSH_NO_LOCK = false
  | MEvict id => 0 ≤ id < segments m
  | MDropClean | MMarkCleanAsDirty => True
  end.

Lemma onSegmentationFault_steps_ok a w :
  byte_address a → protection m ≠ PROT_NONE_bits → (w = true → p_write (protection m) = true) →
  method_ok ∅ (onSegmentationFault_steps m mid a w).
Proof.
  intros Ha Hnone Hw. destruct (byte_segment a Ha) as (Hid & _). pose proof (wg_size _ Hg).
  unfold onSegmentationFault_steps. pose proof (aligned_size m Hg) as Hal. unfold getAlignedSize in Hal.
  rewrite (Z.mul_comm (segments m)), Hal. unfold byte_address in Ha.
  destruct (Z.leb_spec (baseAddress m) a); [|lia].
  destruct (Z.ltb_spec a (baseAddress m + segments m * segmentSize m)); [|lia].
  rewrite bool_decide_eq_false_2 by done.
  replace (w && negb (p_write (protection m))) with false by (destruct w; cbn; [by rewrite Hw|done]).
  cbn [andb negb assume mbind result_bind local]. apply locked_section_ok. intros held ->.
  apply fault_steps_ok; [done|by apply elem_of_singleton|done].
Qed.

Lemma access_steps_ok {X} (f : Mapping * vm * D → option (X * access_event * (Mapping * vm * D))) tries a w :
  byte_address a → protection m ≠ PROT_NONE_bits → (w = true → p_write (protection m) = true) →
  (∀ owed s h x e s', steps_inv f0 owed s h → f s = Some (x, e, s') → steps_inv f0 owed s' (h ++ [e])) →
  method_ok ∅ (access_steps m mid f tries a w).
Proof.
  intros Ha Hnone Hw Hf. induction tries as [|tries IH]; cbn [access_steps]; intros others s h Hi;
    (destruct (f s) as [[[x e] s']|] eqn:E; [split; [by eapply Hf|done]|]); [done|].
  apply method_bind; [by apply onSegmentationFault_steps_ok|]. intros _. exact IH.
Qed.

Lemma load_inv owed s h a x e s' :
  byte_address a → steps_inv f0 owed s h → load_at a s = Some (x, e, s') → steps_inv f0 owed s' (h ++ [e]).
Proof.
  destruct s as [[m' v] d]. intros Ha (f & Hf & Hi). unfold load_at.
  destruct (readable v a) eqn:Hr; [|done]. intros [= <- <- <-]. exists f. split; [|done].
  rewrite replay_snoc, Hf. cbn. by rewrite decide_True by (by eapply array_load).
Qed.

Lemma store_inv owed s h a b x e s' :
  byte_address a → steps_inv f0 owed s h → store_at_address a b s = Some (x, e, s') →
  steps_inv f0 owed s' (h ++ [e]).
Proof.
  destruct s as [[m' v] d]. intros Ha (f & Hf & Hi). unfold store_at_address.
  destruct (writable v a) eqn:Hw; [|done]. intros [= <- <- <-]. exists (poked f a b).
  split; [by rewrite replay_snoc, Hf|]. by apply array_store.
Qed.

Lemma call_steps_ok tries c : legal_steps c → method_ok ∅ (call_steps m mid tries c).
Proof.
  destruct c as [a|a b|a w|offset size flags|id| |]; cbn [legal_steps call_steps].
  - intros [Ha Hp]. apply access_steps_ok; [done|done|done|]. intros. by eapply load_inv.
  - intros [Ha Hp]. apply access_steps_ok; [done|by intros E; rewrite E in Hp|done|]. intros. by eapply store_inv.
  - intros (Ha & Hp & Hw). apply method_bind; [by apply onSegmentationFault_steps_ok|done].
  - intros (lo & n & -> & -> & H1' & H2' & H3' & Hfl). apply flush_steps_ok; [done..|]. by rewrite Hfl.
  - apply evict_steps_ok.
  - intros _. apply all_segments_ok, dropSegment_steps_ok.
  - intros _. apply all_segments_ok, markSegmentDirty_steps_ok.
Qed.

Lemma thread_steps_ok tries calls : Forall legal_steps calls → method_ok ∅ (thread_steps m mid tries calls).
Proof.
  induction 1 as [|c calls Hc _ IH]; [done|]. cbn [thread_steps foldr].
  apply method_bind; [by apply call_steps_ok|]. intros _. exact IH.
Qed.

(** ** The start and the end *)

Lemma array_inv_start v (d : D) :
  mapping_inv m v d → (∀ x, 0 ≤ x < m_size m → f0 (baseAddress m + x) = Some (view m v d x)) →
  array_inv f0 [] m v d.
Proof.
  intros Hi Hf. split; try apply Hi; [apply same_fields_refl|constructor|by intros id ?%elem_of_nil| |by intros ? ? ? ? ? ?%elem_of_nil].
  intros id g Hid [?%elem_of_nil|[_ ->]]; [done|]. split; [done| |done].
  intros x Hx. destruct (inv_segment m v d Hi id x Hid Hx) as [Hr Hb]. split; [done|]. intros Hlt.
  rewrite Hf by lia. unfold view. by apply (in_segment_div m Hg) in Hx as ->.
Qed.

Lemma array_inv_end f m' v (d : D) :
  array_inv f [] m' v d → mapping_inv m' v d ∧
  ∀ x, 0 ≤ x < m_size m → f (baseAddress m + x) = Some (view m' v d x).
Proof.
  intros [[l ->] Hwf Hd Hc _ _ Hs _]. set (m' := set_segmentStatus m l) in *.
  assert (Hk : ∀ x, 0 ≤ x < segments m * segmentSize m →
    stage_byte f v d (Known (status_at m' (x / segmentSize m))) x).
  { intros x Hx. apply (Hs (x / segmentSize m)); [by apply segment_lt| |by apply segment_of].
    right. split; [apply not_elem_of_nil|done]. }
  pose proof (wg_size _ Hg). split.
  - split; [done|done|done|]. intros x Hx. apply (Hk x Hx).
  - intros x Hx. apply (Hk x); lia.
Qed.
End Rules.

End Interleaved.

(** ** Any interleaving *)

(** The bytes the application sees, by address. *)
Definition array_of {D} `{StorageDriver D} (m : Mapping) (v : vm) (d : D) (a : Z) : option Z :=
  if in_range (baseAddress m) (m_size m) a then Some (view m v d (a - baseAddress m)) else None.

Lemma array_of_at {D} `{StorageDriver D} m v (d : D) x :
  0 ≤ x < m_size m → array_of m v d (baseAddress m + x) = Some (view m v d x).
Proof. intros Hx. unfold array_of. case_range; [|lia]. do 2 f_equal. lia. Qed.

(** C4: loads and stores between the system calls.  Several threads run faults, flushes,
    evictions, [dropClean] and [markCleanAsDirty] on one thread safe mapping, one system
    call at a time, and load and store between any two of these calls.  In any
    interleaving, at any moment: the loads and stores done are those of one array of
    bytes, the one the mapping showed at the start; no thread has made an assertion or
    a system call fail; a thread can go on until all have returned.  When all have
    returned the mapping is well formed again (dirty segments may be closed by a late
    fault) and shows that array. *)
Theorem steps_refine_array {D} `{StorageDriver D} m mid v (d : D) tries threads pl :
  mapping_inv (Str := late_faults) m v d → threadSafe m = true →
  Forall (Forall (legal_steps m)) threads →
  rtc (step (mmap_ok m)) (start (m, v, d) (thread_steps m mid tries <$> threads)) pl →
  (∃ f, replay (pl_history pl) (array_of m v d) = Some f ∧
     (finished pl → let '(m', v', d') := pl_state pl in
        mapping_inv (Str := late_faults) m' v' d' ∧
        ∀ a, byte_address m a → array_of m' v' d' a = f a)) ∧
  (∀ i got e, mmap_ok m (pl_state pl) got → step_thread i got pl ≠ Some (Err e)) ∧
  (finished pl ∨ ∃ i, ∀ got, is_Some (step_thread i got pl)).
Proof.
  intros Hinv Hts Hlegal Hrun. pose proof (mi_geom _ _ _ Hinv) as Hg. set (f0 := array_of m v d).
  assert (Hperm : ∀ l l' s h, l ≡ₚ l' → steps_inv (D := D) m f0 l s h → steps_inv m f0 l' s h)
    by apply steps_inv_perm.
  assert (Hps : pool_guarded (mmap_ok m) (steps_inv m f0) (λ _, False) (stage_guard m mid) pl).
  { eapply pool_guarded_reachable; [exact Hperm| |exact Hrun]. apply pool_guarded_start.
    - intros p (calls & -> & Hin)%list_elem_of_fmap. eapply guarded_weaken.
      2: { apply thread_steps_ok; [done|done|]. by eapply Forall_forall in Hlegal. }
      by intros h o a [_ ->].
    - exists f0. split; [done|]. apply array_inv_start; [done|done|]. intros x Hx. by apply array_of_at. }
  split; [|split].
  - pose proof Hps as (ghosts & _ & _ & Hi). destruct (pl_state pl) as [[m' v'] d'] eqn:E.
    destruct Hi as (f & Hf & Hi). exists f. split; [done|]. intros Hfin.
    pose proof (pool_guarded_finished _ _ _ _ pl Hps Hfin) as Hend. rewrite E in Hend.
    destruct Hend as (f' & Hf' & Hend). assert (f' = f) as -> by congruence.
    destruct (array_inv_end m Hg f m' v' d' Hend) as [Hm Hv]. split; [done|]. intros a Ha.
    destruct (ai_fields _ _ _ _ _ _ Hend) as [l ->].
    replace a with (baseAddress m + (a - baseAddress m)) by lia. unfold byte_address in Ha.
    rewrite Hv by lia. apply (array_of_at (set_segmentStatus m l)). cbn. lia.
  - intros i got e Hk Hs. pose proof (pool_guarded_step _ _ _ _ Hperm i got pl Hps Hk) as Hstep.
    by rewrite Hs in Hstep.
  - apply disciplined_progress. eapply disciplined_reachable; [|exact Hrun]. apply disciplined_start.
    intros p (calls & -> & _)%list_elem_of_fmap. apply thread_ordered_steps.
Qed.

(** ** A run of two threads

    One thread handles the fault of a store to the first page of [demo_m]; the other
    loads a byte of it when the new page is in place and its status is not yet
    assigned. *)
Section Demo.
Abbreviation demo_pool := (Pool (Mapping * vm * MemoryDriver) access_event).

(** The kernel gives a page that nothing uses. *)
Definition demo_steps_kernel (s : Mapping * vm * MemoryDriver) (got : option Z) : bool :=
  let '(_, v, _) := s in
  match got with
  | Some t => (1048576 <=? t) && (t mod 4096 =? 0) &&
      forallb (λ i, match vm_prot v (t + i) with None => true | Some _ => false end) (seqZ 0 4096)
  | None => false
  end.

Lemma demo_steps_kernel_ok s got : demo_steps_kernel s got = true → mmap_ok demo_m s got.
Proof.
  destruct demo_fields as (Hb & Hs & Hss & _). destruct s as [[m' v] d], got as [t|]; cbn [demo_steps_kernel]; [|done].
  intros [[H1%Z.leb_le H2%Z.eqb_eq]%andb_true_iff H3]%andb_true_iff. unfold mmap_ok, temp_area. rewrite Hss.
  split; [split; [lia|]; split; [exact H2|]; split; [lia|reflexivity]|].
  split; [intros a; rewrite Hb, Hs, Hss; lia|]. intros a Ha.
  rewrite forallb_forall in H3. specialize (H3 (a - t)). replace (t + (a - t)) with a in H3 by lia.
  destruct (vm_prot v a); [|done]. discriminate H3. apply list_elem_of_In, elem_of_seqZ. lia.
Qed.

Definition demo_steps_calls : list (list mapping_call) := [[MFault 65541 true]; [MLoad 65541]].

Definition demo_steps_launch : demo_pool :=
  start (demo_m, demo_v, demo_driver) (thread_steps demo_m 7 0 <$> demo_steps_calls).

(** A page of its own for each step. *)
Definition demo_steps_order : list (nat * option Z) :=
  imap (λ n i, (i, Some (1048576 + 4096 * Z.of_nat n))) [0; 0; 0; 0; 0; 1; 0; 0]%nat.

Definition demo_steps_result : result demo_pool :=
  run_schedule demo_steps_kernel demo_steps_order demo_steps_launch.

Definition final_pool (r : result demo_pool) : demo_pool :=
  match r with Ok pl => pl | Err _ => demo_steps_launch end.

Definition demo_steps_final : demo_pool := final_pool demo_steps_result.

(** It ends, after one load. *)
Definition demo_steps_check (r : result demo_pool) : bool :=
  match r with
  | Ok pl => bool_decide (finished pl) && bool_decide (pl_history pl = [Loaded 65541 7])
  | Err _ => false
  end.

Lemma demo_steps_run :
  demo_steps_result = Ok demo_steps_final ∧ finished demo_steps_final ∧
  pl_history demo_steps_final = [Loaded 65541 7].
Proof.
  assert (Hc : demo_steps_check demo_steps_result = true) by (vm_compute; reflexivity).
  unfold demo_steps_final. destruct demo_steps_result as [pl|e]; [|discriminate Hc].
  cbn [demo_steps_check final_pool] in *. apply andb_true_iff in Hc as [Hf Hh].
  split; [reflexivity|]. by split; eapply bool_decide_eq_true.
Qed.
End Demo.

Lemma steps_refine_array_witness :
  finished demo_steps_final ∧ pl_history demo_steps_final = [Loaded 65541 7] ∧
  ∃ m' v' d', pl_state demo_steps_final = (m', v', d') ∧
    mapping_inv (Str := late_faults) m' v' d' ∧ array_of m' v' d' 65541 = Some 7.
Proof.
  destruct demo_fields as (Hb & _ & _ & Hsz & _ & Hp & _).
  destruct demo_steps_run as (Hrun & Hfin & Hhist).
  assert (Ha : byte_address demo_m 65541) by (unfold byte_address; rewrite Hb, Hsz; lia).
  destruct (steps_refine_array demo_m 7 demo_v demo_driver 0 demo_steps_calls demo_steps_final
    (mapping_inv_weaken _ _ _ demo_inv)) as ((f & Hf & Hend) & _ & _).
  - reflexivity.
  - assert (Hl : ∀ w, protection demo_m ≠ PROT_NONE_bits ∧ (w = true → p_write (protection demo_m) = true))
      by (intros w; rewrite Hp; by split).
    apply Forall_cons. split; [apply Forall_singleton; split; [exact Ha|apply Hl]|].
    apply Forall_singleton, Forall_singleton. split; [exact Ha|apply (Hl true)].
  - eapply run_schedule_steps; [exact demo_steps_kernel_ok|exact Hrun].
  - split; [exact Hfin|]. split; [exact Hhist|]. specialize (Hend Hfin).
    destruct (pl_state demo_steps_final) as [[m' v'] d']. destruct Hend as [Hi Hv].
    exists m', v', d'. split; [reflexivity|]. split; [exact Hi|]. rewrite Hv by exact Ha. rewrite Hhist in Hf. cbn [replay] in Hf.
    destruct (decide (array_of demo_m demo_v demo_driver 65541 = Some 7)) as [E|]; [|discriminate Hf].
    injection Hf as <-. exact E.
Defined.

(** ** Why the mapping must be thread safe

    A mapping made with UMMAP_THREAD_UNSAFE leaves a segment open while it writes it
    back: a store between the write back and the assignment of the status is lost when
    the segment is evicted, and the next load reads the old byte.  A thread safe mapping
    refuses the store there, and lets it through later. *)
Section Unsafe.
Definition lossy_calls : list (list mapping_call) :=
  [[MFault 65541 true; MFlush 0 4096 0; MEvict 0]; [MStore 65541 9]; [MLoad 65541]].

Definition lossy_run (m : Mapping) (order : list nat) : result (Pool (Mapping * vm * MemoryDriver) access_event) :=
  run_schedule (λ _ _, true) ((λ i, (i, Some 1048576)) <$> order)
    (start (m, demo_v, demo_driver) (thread_steps m 7 1 <$> lossy_calls)).

Definition finished_history (r : result (Pool (Mapping * vm * MemoryDriver) access_event))
    : option (list access_event) :=
  match r with
  | Ok pl => if decide (finished pl) then Some (pl_history pl) else None
  | Err _ => None
  end.

(** [n] steps of thread 0, a try of the store, then each thread to its end. *)
Definition lossy_order (n : nat) : list nat :=
  replicate n 0%nat ++ [1%nat] ++ replicate 20 0%nat ++ replicate 20 1%nat ++ replicate 20 2%nat.
End Unsafe.

(** After the [pwrite] of thread 0: its tenth step, its twelfth with the temporary
    segment and the first [mprotect]. *)
Lemma unsafe_mapping_loses_store :
  finished_history (lossy_run (disableThreadSafety demo_m) (lossy_order 10)) =
    Some [Stored 65541 9; Loaded 65541 7] ∧
  finished_history (lossy_run demo_m (lossy_order 12)) = Some [Stored 65541 9; Loaded 65541 9].
Proof. split; vm_compute; reflexivity. Qed.
