(* ===== verification/JsonExport.v ===== *)
(** * The export of the mappings to a monitoring page

    [convertToJson] of a segment, a mapping and the registry (src/src/core/Mapping.cpp,
    MappingRegistry.cpp) and the page of src/src/htopml.  The writer is the one of the
    htopml library: what the code gives it is the sequence of its calls.  [printValue] of
    an object is the [convertToJson] of its class. *)

From Stdlib Require Import String.
From S2P Require Import Prelude ListElement Policy PolicyInterface OS Driver Mapping MappingInv System SystemInv Registry GlobalHandler.

(** Calls to [htopml::JsonState]. *)
Inductive json_call : Type :=
  | openStruct | closeStruct
  | openArray | closeArray
  | openFieldArray (name : string) | closeFieldArray (name : string)
  | printField_bool (name : string) (b : bool)
  | printField_size (name : string) (n : Z)
  | printField_string (name s : string).

Section Calls.
Context {D P : Type} `{DriverOps D} `{PolicyOps P}.
Abbreviation W := (World D P).

Definition SegmentStatus_toJson (value : SegmentStatus) : list json_call :=
  [openStruct; printField_bool "mapped" (mapped value); printField_bool "dirty" (dirty value);
   printField_bool "needRead" (needRead value); closeStruct].

Definition policy_uri (w : W) (name : string) (policy : Z) : result json_call :=
  if policy =? 0 then Ok (printField_string name "none://")
  else p ← deref (w_policies w !! policy); Ok (printField_string name (Policy.getUri (pol_base p))).

Definition segments_toJson (m : Mapping) : result (list json_call) :=
  foldM (λ calls i, s ← get_status m i; Ok (calls ++ SegmentStatus_toJson s)) [] (seqZ 0 (segments m)).

Definition Mapping_toJson (w : W) (mid : Z) : result (list json_call) :=
  mo ← deref (w_mappings w !! mid);
  let m := mo_mapping mo in
  d ← deref (w_drivers w !! mo_driver mo);
  local ← policy_uri w "localPolicyUri" (localPolicy m);
  global ← policy_uri w "globalPolicyUri" (globalPolicy m);
  status ← segments_toJson m;
  Ok ([openStruct; printField_size "size" (m_size m); printField_size "segments" (segments m);
       printField_size "segmentSize" (segmentSize m); printField_size "offset" (storageOffset m);
       printField_string "driverUri" (driver_getUri (driver_base d)); local; global;
       openFieldArray "status"] ++ status ++ [closeFieldArray "status"; closeStruct]).

Definition entries_toJson (w : W) (entries : MappingRegistry) : result (list json_call) :=
  foldM (λ calls it, c ← Mapping_toJson w (re_mapping it); Ok (calls ++ c)) [] entries.

Definition MappingRegistry_toJson (w : W) (value : MappingRegistry) : result (list json_call) :=
  calls ← entries_toJson w value; Ok ([openArray] ++ calls ++ [closeArray]).

(** [HtopmlMappingsHttpNode::registry], set by the constructor of the global handler. *)
Definition MappingPointer_toJson (g : option (GlobalHandler D P)) : result (list json_call) :=
  g ← deref g; MappingRegistry_toJson (process g) (mappingRegistry g).
End Calls.

(** ** Brackets

    The writer is given a value at every place it expects one: opened and closed
    structures match, fields come inside structures, values inside arrays. *)
Inductive frame := InStruct | InArray | InFieldArray (name : string).

Definition json_step (stack : list frame) (c : json_call) : option (list frame) :=
  match c, stack with
  | openStruct, ([] | InArray :: _ | InFieldArray _ :: _) => Some (InStruct :: stack)
  | openArray, ([] | InArray :: _) => Some (InArray :: stack)
  | openFieldArray name, InStruct :: _ => Some (InFieldArray name :: stack)
  | (printField_bool _ _ | printField_size _ _ | printField_string _ _), InStruct :: _ => Some stack
  | closeStruct, InStruct :: stack' => Some stack'
  | closeArray, InArray :: stack' => Some stack'
  | closeFieldArray name, InFieldArray name' :: stack' => if String.eqb name name' then Some stack' else None
  | _, _ => None
  end.

Fixpoint json_run (stack : list frame) (calls : list json_call) : option (list frame) :=
  match calls with
  | [] => Some stack
  | c :: calls' => stack' ← json_step stack c; json_run stack' calls'
  end.

Lemma json_run_app stack a b : json_run stack (a ++ b) = (stack' ← json_run stack a; json_run stack' b).
Proof.
  revert stack. induction a as [|c a IH]; intros stack; [done|]. cbn.
  destruct (json_step stack c); cbn; [apply IH|done].
Qed.

(** ** Values

    What the page receives: the value written by a sequence of calls. *)
Inductive json : Type :=
  | JBool (b : bool)
  | JNumber (n : Z)
  | JString (s : string)
  | JArray (l : list json)
  | JObject (fields : list (string * json)).

(** What is open: the fields or the values written so far. *)
Inductive open_value : Type :=
  | Page (values : list json)
  | Struct (fields : list (string * json))
  | Values (values : list json)
  | FieldValues (name : string) (values : list json).

(** A value is complete. *)
Definition put (v : json) (stack : list open_value) : option (list open_value) :=
  match stack with
  | Page l :: rest => Some (Page (l ++ [v]) :: rest)
  | Values l :: rest => Some (Values (l ++ [v]) :: rest)
  | FieldValues name l :: rest => Some (FieldValues name (l ++ [v]) :: rest)
  | _ => None
  end.

Definition put_field (name : string) (v : json) (stack : list open_value) : option (list open_value) :=
  match stack with
  | Struct fields :: rest => Some (Struct (fields ++ [(name, v)]) :: rest)
  | _ => None
  end.

Definition write_call (stack : list open_value) (c : json_call) : option (list open_value) :=
  match c, stack with
  | openStruct, _ => Some (Struct [] :: stack)
  | openArray, _ => Some (Values [] :: stack)
  | openFieldArray name, _ => Some (FieldValues name [] :: stack)
  | closeStruct, Struct fields :: rest => put (JObject fields) rest
  | closeArray, Values l :: rest => put (JArray l) rest
  | closeFieldArray name, FieldValues name' l :: rest =>
      if String.eqb name name' then put_field name (JArray l) rest else None
  | printField_bool name b, _ => put_field name (JBool b) stack
  | printField_size name n, _ => put_field name (JNumber n) stack
  | printField_string name v, _ => put_field name (JString v) stack
  | _, _ => None
  end.

Fixpoint write_calls (stack : list open_value) (calls : list json_call) : option (list open_value) :=
  match calls with
  | [] => Some stack
  | c :: calls' => stack' ← write_call stack c; write_calls stack' calls'
  end.

Lemma write_calls_app stack a b :
  write_calls stack (a ++ b) = (stack' ← write_calls stack a; write_calls stack' b).
Proof.
  revert stack. induction a as [|c a IH]; intros stack; [done|]. cbn.
  destruct (write_call stack c); cbn; [apply IH|done].
Qed.

(** The type of the page: fields with their names, in order. *)
Inductive json_type : Type :=
  | TBool | TNumber | TString
  | TArray (t : json_type)
  | TObject (fields : list (string * json_type)).

Inductive has_type : json → json_type → Prop :=
  | type_bool b : has_type (JBool b) TBool
  | type_number n : has_type (JNumber n) TNumber
  | type_string s : has_type (JString s) TString
  | type_array l t : Forall (λ v, has_type v t) l → has_type (JArray l) (TArray t)
  | type_object fields types :
      Forall2 (λ f t, fst f = fst t ∧ has_type (snd f) (snd t)) fields types →
      has_type (JObject fields) (TObject types).

Definition status_type : json_type :=
  TObject [("mapped", TBool); ("dirty", TBool); ("needRead", TBool)].
Definition mapping_type : json_type :=
  TObject [("size", TNumber); ("segments", TNumber); ("segmentSize", TNumber); ("offset", TNumber);
           ("driverUri", TString); ("localPolicyUri", TString); ("globalPolicyUri", TString);
           ("status", TArray status_type)].

Section Theorems.
Context {D P : Type} `{DriverOps D} `{PolicyOps P}.
Abbreviation W := (World D P).

(** A loop that appends values to an array. *)
Lemma json_loop {A} (f : A → result (list json_call)) stack l acc calls :
  json_run stack acc = Some stack →
  (∀ a c, a ∈ l → f a = Ok c → json_run stack c = Some stack) →
  foldM (λ calls a, c ← f a; Ok (calls ++ c)) acc l = Ok calls → json_run stack calls = Some stack.
Proof.
  revert acc. induction l as [|a l IH]; intros acc Hacc Hf; cbn [foldM]; [by intros [= <-]|].
  destruct (f a) as [c|] eqn:E; [|done]. cbn [mbind result_bind]. apply IH.
  - rewrite json_run_app, Hacc. cbn. apply (Hf a); [left|done].
  - intros b c' Hb. apply Hf. by right.
Qed.

Lemma segments_loop m :
  segments_toJson m =
  foldM (λ calls i, c ← (s ← get_status m i; Ok (SegmentStatus_toJson s)); Ok (calls ++ c)) [] (seqZ 0 (segments m)).
Proof.
  unfold segments_toJson. generalize (@nil json_call).
  induction (seqZ 0 (segments m)) as [|i l IH]; intros acc; [done|].
  cbn [foldM]. destruct (get_status m i); cbn; [apply IH|done].
Qed.

Lemma segments_json m calls stack :
  segments_toJson m = Ok calls → json_run (InFieldArray "status" :: stack) calls = Some (InFieldArray "status" :: stack).
Proof.
  intros Hrun.
  rewrite segments_loop in Hrun.
  eapply (json_loop (λ i, s ← get_status m i; Ok (SegmentStatus_toJson s)) _ (seqZ 0 (segments m)) []); [done| |exact Hrun].
  intros i c _ Hc. inv_bind Hc. by inv_ok.
Qed.

Lemma Mapping_json (w : W) mid calls rest :
  Mapping_toJson w mid = Ok calls → json_run (InArray :: rest) calls = Some (InArray :: rest).
Proof.
  assert (Hpol : ∀ name p c stack, policy_uri w name p = Ok c → json_step (InStruct :: stack) c = Some (InStruct :: stack)).
  { unfold policy_uri. intros name p c stack. destruct (p =? 0); [by intros [= <-]|].
    intros Hc. inv_bind Hc. by inv_ok. }
  unfold Mapping_toJson. intros Hrun. inv_bind Hrun. inv_bind Hrun.
  destruct (policy_uri w "localPolicyUri" _) as [cl|] eqn:El in Hrun; [|done].
  destruct (policy_uri w "globalPolicyUri" _) as [cg|] eqn:Eg in Hrun; [|done].
  destruct (segments_toJson _) as [cs|] eqn:Es in Hrun; [|done]. cbn in Hrun. injection Hrun as <-.
  cbn. rewrite (Hpol _ _ _ _ El). cbn. rewrite (Hpol _ _ _ _ Eg). cbn.
  rewrite json_run_app, (segments_json _ _ _ Es). reflexivity.
Qed.

(** The page gets one array with the mappings of the registry, its brackets closed. *)
Lemma export_well_formed g calls :
  MappingPointer_toJson (D := D) (P := P) (Some g) = Ok calls → json_run [] calls = Some [].
Proof.
  unfold MappingPointer_toJson, MappingRegistry_toJson. cbn. intros Hrun.
  destruct (entries_toJson _ _) as [c|] eqn:E in Hrun; [|done]. cbn in Hrun. injection Hrun as <-.
  cbn. rewrite json_run_app. unfold entries_toJson in E.
  rewrite (json_loop (λ it, Mapping_toJson (process g) (re_mapping it)) [InArray] (mappingRegistry g) [] c); [done|done| |exact E].
  intros it c' _. apply Mapping_json.
Qed.

(** *** The value of the page *)

Definition status_value (s : SegmentStatus) : json :=
  JObject [("mapped", JBool (mapped s)); ("dirty", JBool (dirty s)); ("needRead", JBool (needRead s))].

Definition uri_value (w : W) (policy : Z) : json :=
  JString (if policy =? 0 then "none://"
           else from_option (λ p, Policy.getUri (pol_base p)) EmptyString (w_policies w !! policy)).

Definition mapping_value (w : W) (mo : MapObj) : json :=
  let m := mo_mapping mo in
  JObject [("size", JNumber (m_size m)); ("segments", JNumber (segments m));
           ("segmentSize", JNumber (segmentSize m)); ("offset", JNumber (storageOffset m));
           ("driverUri", JString (from_option (λ d, driver_getUri (driver_base d)) EmptyString
                                    (w_drivers w !! mo_driver mo)));
           ("localPolicyUri", uri_value w (localPolicy m)); ("globalPolicyUri", uri_value w (globalPolicy m));
           ("status", JArray (status_value <$> segmentStatus m))].

Definition entry_value (w : W) (e : MappingRegistryEntry) : json :=
  from_option (mapping_value w) (JArray []) (w_mappings w !! re_mapping e).

Definition page_value (g : GlobalHandler D P) : json :=
  JArray (entry_value (process g) <$> mappingRegistry g).

(** A loop that writes values one after the other, in the list [K]. *)
Lemma write_loop {A} (f : A → result (list json_call)) (value : A → json) (K : list json → open_value) l acc :
  (∀ v vs rest, put v (K vs :: rest) = Some (K (vs ++ [v]) :: rest)) →
  (∀ a, a ∈ l → ∃ c, f a = Ok c ∧ ∀ stack stack', put (value a) stack = Some stack' → write_calls stack c = Some stack') →
  ∃ calls, foldM (λ calls a, c ← f a; Ok (calls ++ c)) acc l = Ok calls ∧
    ∀ stack vs rest, write_calls stack acc = Some (K vs :: rest) →
      write_calls stack calls = Some (K (vs ++ (value <$> l)) :: rest).
Proof.
  intros HK. revert acc. induction l as [|a l IH]; intros acc Hf; cbn [foldM fmap list_fmap].
  - exists acc. split; [done|]. intros stack vs rest ->. by rewrite app_nil_r.
  - destruct (Hf a) as (c & -> & Hc); [by left|]. cbn [mbind result_bind].
    destruct (IH (acc ++ c)) as (calls & -> & Hcalls); [intros b Hb; apply Hf; by right|].
    exists calls. split; [done|]. intros stack vs rest Hacc.
    rewrite (Hcalls stack (vs ++ [value a]) rest); [by rewrite <- app_assoc|].
    rewrite write_calls_app, Hacc. cbn. by apply Hc.
Qed.

Lemma status_writes s stack stack' :
  put (status_value s) stack = Some stack' → write_calls stack (SegmentStatus_toJson s) = Some stack'.
Proof. intros Hp. unfold status_value in Hp. cbn. cbn in Hp. by rewrite Hp. Qed.

Lemma fmap_seqZ_lookup {A B} (f : A → B) (b : B) (l : list A) n :
  Z.of_nat (length l) = n → (λ i, from_option f b (l !! Z.to_nat i)) <$> seqZ 0 n = f <$> l.
Proof.
  intros <-. apply list_eq. intros i. rewrite !list_lookup_fmap.
  destruct (decide (i < length l)%nat) as [Hi|Hi].
  - rewrite lookup_seqZ_lt by lia. cbn [fmap option_fmap option_map]. rewrite Z.add_0_l, Nat2Z.id.
    by destruct (lookup_lt_is_Some_2 l i Hi) as [a ->].
  - rewrite lookup_seqZ_ge by lia. cbn. by rewrite lookup_ge_None_2 by lia.
Qed.

(** All the statuses of the mapping, in order. *)
Lemma segments_write m name rest :
  Z.of_nat (length (segmentStatus m)) = segments m →
  ∃ calls, segments_toJson m = Ok calls ∧
    write_calls (FieldValues name [] :: rest) calls =
      Some (FieldValues name (status_value <$> segmentStatus m) :: rest).
Proof.
  intros Hlen. rewrite segments_loop.
  destruct (write_loop (λ i, s ← get_status m i; Ok (SegmentStatus_toJson s))
    (λ i, from_option status_value (JArray []) (segmentStatus m !! Z.to_nat i))
    (FieldValues name) (seqZ 0 (segments m)) []) as (calls & Hrun & Hcalls); [done| |].
  { intros i [H1' H2']%elem_of_seqZ. unfold get_status.
    destruct (lookup_lt_is_Some_2 (segmentStatus m) (Z.to_nat i)) as [s ->]; [lia|].
    eexists. split; [reflexivity|]. apply status_writes. }
  exists calls. split; [exact Hrun|]. rewrite (Hcalls _ [] rest) by done.
  by rewrite fmap_seqZ_lookup.
Qed.

(** The policies of the mappings are alive. *)
Definition policies_alive (w : W) : Prop :=
  ∀ mid mo, w_mappings w !! mid = Some mo →
    ∀ pid, pid = localPolicy (mo_mapping mo) ∨ pid = globalPolicy (mo_mapping mo) →
      pid = 0 ∨ is_Some (w_policies w !! pid).

Lemma policy_uri_writes w name pid :
  pid = 0 ∨ is_Some (w_policies w !! pid) →
  ∃ c, policy_uri w name pid = Ok c ∧ ∀ stack, write_call stack c = put_field name (uri_value w pid) stack.
Proof.
  unfold policy_uri, uri_value. destruct (Z.eqb_spec pid 0) as [->|Hne]; [by eexists|].
  intros [?|[p Hp]]; [done|]. rewrite Hp. by eexists.
Qed.

Lemma mapping_writes (w : W) mid mo d :
  policies_alive w → w_mappings w !! mid = Some mo → w_drivers w !! mo_driver mo = Some d →
  Z.of_nat (length (segmentStatus (mo_mapping mo))) = segments (mo_mapping mo) →
  ∃ c, Mapping_toJson w mid = Ok c ∧
    ∀ stack stack', put (mapping_value w mo) stack = Some stack' → write_calls stack c = Some stack'.
Proof.
  intros Hal Hmo Hd Hlen. unfold Mapping_toJson, mapping_value. rewrite Hmo. cbn [deref mbind result_bind].
  rewrite Hd. cbn [deref mbind result_bind].
  destruct (policy_uri_writes w "localPolicyUri" (localPolicy (mo_mapping mo))) as (cl & -> & Hl); [eapply Hal; eauto|].
  destruct (policy_uri_writes w "globalPolicyUri" (globalPolicy (mo_mapping mo))) as (cg & -> & Hg); [eapply Hal; eauto|].
  cbn [mbind result_bind].
  destruct (segments_write (mo_mapping mo) "status" [] Hlen) as (cs & Hcs & _). rewrite Hcs. cbn [mbind result_bind].
  eexists. split; [reflexivity|]. intros stack stack' Hput.
  destruct (segments_write (mo_mapping mo) "status"
    (Struct [("size", JNumber (m_size (mo_mapping mo))); ("segments", JNumber (segments (mo_mapping mo)));
             ("segmentSize", JNumber (segmentSize (mo_mapping mo)));
             ("offset", JNumber (storageOffset (mo_mapping mo)));
             ("driverUri", JString (driver_getUri (driver_base d)));
             ("localPolicyUri", uri_value w (localPolicy (mo_mapping mo)));
             ("globalPolicyUri", uri_value w (globalPolicy (mo_mapping mo)))] :: stack) Hlen) as (cs' & Hcs' & Hw).
  rewrite Hcs in Hcs'. injection Hcs' as <-. cbn [app write_calls]. cbn [write_call put_field mbind option_bind app].
  rewrite Hl. cbn [put_field mbind option_bind app]. rewrite Hg. cbn [put_field mbind option_bind app write_call].
  rewrite write_calls_app, Hw. cbn. cbn in Hput. by rewrite Hput.
Qed.

(** Types. *)
Lemma status_typed s : has_type (status_value s) status_type.
Proof. repeat constructor. Qed.

Lemma mapping_typed w mo : has_type (mapping_value w mo) mapping_type.
Proof.
  constructor. repeat (constructor; [split; [done|]; cbn; by constructor|]).
  constructor; [|constructor]. split; [done|]. constructor. apply Forall_fmap, Forall_true.
  intros s. apply status_typed.
Qed.

End Theorems.

Section Typed.
Context {D P : Type} `{StorageDriver D} `{TrackingPolicy P}.

Lemma export_ok (g : GlobalHandler D P) :
  handler_inv g → policies_alive (process g) →
  ∃ calls, MappingPointer_toJson (Some g) = Ok calls ∧
    write_calls [Page []] calls = Some [Page [page_value g]] ∧ has_type (page_value g) (TArray mapping_type).
Proof.
  intros Hg Hal. unfold MappingPointer_toJson, MappingRegistry_toJson, entries_toJson.
  cbn [deref mbind result_bind].
  assert (Hentry : ∀ e, e ∈ mappingRegistry g → ∃ mo, w_mappings (process g) !! re_mapping e = Some mo)
    by (intros e He; apply (hi_entries _ Hg) in He as (mo & Hmo & _); by exists mo).
  destruct (write_loop (λ e, Mapping_toJson (process g) (re_mapping e)) (entry_value (process g)) Values
    (mappingRegistry g) []) as (calls & Hrun & Hcalls); [done| |].
  { intros e He. destruct (Hentry e He) as [mo Hmo].
    destruct (wo_mapping _ _ (hi_world _ Hg) _ _ Hmo) as [(d & Hd & Hi) _].
    unfold entry_value. rewrite Hmo. cbn [from_option].
    eapply mapping_writes; [done|done|done|apply (mi_geom _ _ _ Hi)]. }
  rewrite Hrun. cbn [mbind result_bind]. eexists. split; [reflexivity|]. split.
  - cbn [app write_calls write_call mbind option_bind]. rewrite write_calls_app, (Hcalls _ [] [Page []]) by done. done.
  - constructor. apply Forall_fmap, Forall_forall. intros e He. destruct (Hentry e He) as [mo Hmo].
    cbn. unfold entry_value. rewrite Hmo. apply mapping_typed.
Qed.

(** C32: the monitoring page is typed.  In a well formed process whose mappings have their
    policies, the export of the registry succeeds, its calls write one value, with every
    bracket closed, and that value is the array of the registered mappings in the order
    of the registry, each an object with the fields of [mapping_type] and the status of
    each of its segments. *)
Theorem export_typed (g : GlobalHandler D P) :
  handler_inv g → policies_alive (process g) →
  ∃ calls, MappingPointer_toJson (Some g) = Ok calls ∧ json_run [] calls = Some [] ∧
    write_calls [Page []] calls = Some [Page [page_value g]] ∧ has_type (page_value g) (TArray mapping_type).
Proof.
  intros Hg Hal. destruct (export_ok g Hg Hal) as (calls & Hrun & Hw & Ht). exists calls.
  split; [exact Hrun|]. split; [by apply (export_well_formed g)|done].
Qed.
End Typed.

(** The mapping of [demo_handler]: two segments, not read yet. *)
Lemma export_typed_witness :
  ∃ calls, MappingPointer_toJson (Some demo_handler) = Ok calls ∧ length calls = 23%nat ∧
    json_run [] calls = Some [] ∧ write_calls [Page []] calls = Some [Page [page_value demo_handler]].
Proof.
  destruct (export_typed demo_handler demo_handler_inv) as (calls & Hrun & Hb & Hw & _).
  - intros mid mo. cbn. rewrite lookup_singleton_Some. intros [<- <-] pid. cbn.
    intros [-> | ->]; [right; by eexists|by left].
  - exists calls. split; [exact Hrun|]. split; [|by split].
    assert (Hl : length <$> MappingPointer_toJson (Some demo_handler) = Ok 23%nat) by (vm_compute; reflexivity).
    rewrite Hrun in Hl. by injection Hl.
Defined.
