(* ===== verification/Lifecycle.v ===== *)
(** * The life of a mapping

    [createMapping] and [destroyMapping] of [System], [ummap] and [uunmap] of
    [GlobalHandler]: they keep the invariant of the process and of the registry, so
    that it holds in every state a program can reach.  The theorems are for mappings
    attached to at most one policy, and for policies without a quota. *)

From Stdlib Require Import FunctionalExtensionality.
From S2P Require Import Prelude ListElement Policy PolicyInterface OS Driver Mapping MappingInv MappingSpec System SystemInv Registry GlobalHandler.

Section Worlds.
Context {D P : Type} `{StorageDriver D} `{TrackingPolicy P}.
Abbreviation W := (World D P).

(** The memory a policy keeps for itself: its list elements and roots. *)
Definition own (p : P) : list Z := all_elems (pol_base p) ++ pol_roots p.

(** ** A mapping leaves *)

(** [p'] is [p] without the mapping [mid], tracking what it did of the others. *)
Definition released (w : W) (mid : Z) (h' : heap) (p p' : P) : Prop :=
  local (pol_base p') = local (pol_base p) ∧ pol_roots p' = pol_roots p ∧
  storageRegistry (pol_base p') =
    filter (λ it, ps_mapping it ≠ mid) (storageRegistry (pol_base p)) ∧
  ∀ l, pol_inv (segment_size_of w) (w_heap w) p l →
    ∃ l', pol_inv (segment_size_of w) h' p' l' ∧
      ∀ st i, st ∈ storageRegistry (pol_base p') → 0 ≤ i < elementCount st →
        element st i ∈ l → element st i ∈ l'.

Lemma released_own w mid h' p p' x : released w mid h' p p' → x ∈ own p' → x ∈ own p.
Proof.
  unfold own. intros (_ & -> & Hreg & _). rewrite !elem_of_app, !(elem_of_all_elems (λ _, 0)), Hreg.
  intros [(st & [_ Hst]%list_elem_of_filter & He)|Hr]; [left; eauto|by right].
Qed.

(** The other mappings of the policy are still found. *)
Lemma released_storage w mid h' p p' mid' st :
  released w mid h' p p' → mid' ≠ mid → getStorageInfo (pol_base p) mid' = Ok st →
  getStorageInfo (pol_base p') mid' = Ok st.
Proof.
  intros (Hloc & _ & Hreg & _) Hne. unfold getStorageInfo. rewrite Hloc, Hreg.
  destruct (local (pol_base p)).
  - destruct (storageRegistry (pol_base p)) as [|s [|s' r]]; try done. cbn.
    destruct (Z.eqb_spec (ps_mapping s) mid') as [<-|]; [|done]. cbn. intros [= <-].
    rewrite decide_True by done. cbn. by rewrite Z.eqb_refl.
  - assert (Hf : find (λ it, ps_mapping it =? mid')
        (filter (λ it, ps_mapping it ≠ mid) (storageRegistry (pol_base p))) =
      find (λ it, ps_mapping it =? mid') (storageRegistry (pol_base p))); [|by rewrite Hf].
    clear Hreg. induction (storageRegistry (pol_base p)) as [|s r IH]; [done|].
    rewrite filter_cons. case_decide as Hs; cbn [find]; [by rewrite IH|].
    destruct (Z.eqb_spec (ps_mapping s) mid'); [congruence|done].
Qed.

(** A policy that never heard of the mapping. *)
Lemma released_refl w mid h' pid p :
  registered w pid p → (∀ mo, w_mappings w !! mid = Some mo → policy_of (mo_mapping mo) ≠ pid) →
  (∀ x, x ∈ own p → h' !! x = w_heap w !! x) → released w mid h' p p.
Proof.
  intros [Hr _] Hmid Hfr. split; [done|]. split; [done|]. split.
  - symmetry. apply filter_all. intros st Hst E. destruct (Hr st Hst) as (mo & Hmo & Hpol & _).
    rewrite E in Hmo. by apply (Hmid mo).
  - intros l Hl. exists l. split; [by eapply pol_frame|done].
Qed.

(** The policies after the mapping is gone. *)
Lemma remove_policies (w : W) mid h' v' (drvs' : gmap Z D) pols' quotas' :
  world_inv [] w →
  (∀ pid p', pols' !! pid = Some p' → ∃ p, w_policies w !! pid = Some p ∧ released w mid h' p p') →
  let w' := mkWorld h' v' (delete mid (w_mappings w)) drvs' pols' quotas' in
  ∀ pid p', pols' !! pid = Some p' → pid ≠ 0 ∧ registered w' pid p' ∧
    ∃ l, pol_inv (segment_size_of w') h' p' l ∧ covers w' [] pid p' l.
Proof.
  intros Hw Hp w' pid p' Hp'. destruct (Hp pid p' Hp') as (p & Hpid & Hrel).
  assert (Hgs : ∀ mid', mid' ≠ mid → segment_size_of w' mid' = segment_size_of w mid').
  { intros mid' Hne. unfold segment_size_of. cbn. by rewrite lookup_delete_ne. }
  destruct (wo_policy _ _ Hw pid p Hpid) as (Hnz & [Hr1 Hr2] & l & Hl & Hcov).
  destruct Hrel as (Hloc & Hroots & Hreg & Hinv) eqn:E. clear E.
  assert (Hst : ∀ st, st ∈ storageRegistry (pol_base p') →
    st ∈ storageRegistry (pol_base p) ∧ ps_mapping st ≠ mid).
  { intros st. rewrite Hreg, list_elem_of_filter. tauto. }
  split; [done|]. split; [split|].
  - intros st [Hin Hne]%Hst. destruct (Hr1 st Hin) as (mo1 & Hmo1 & Hrest).
    exists mo1. cbn. by rewrite lookup_delete_ne.
  - intros mid1 mo1. cbn. rewrite lookup_delete_Some. intros [Hne Hmo1] Hpol.
    destruct (Hr2 mid1 mo1 Hmo1 Hpol) as [st Hsi]. exists st. by eapply released_storage.
  - destruct (Hinv l Hl) as (l' & Hl' & Hkeep). exists l'. split.
    + eapply pol_resize; [done|]. intros st [_ Hne]%Hst. by apply Hgs.
    + intros mid1 mo1 i. cbn. rewrite lookup_delete_Some. intros [Hne Hmo1] Hpol Hi Hm.
      destruct (Hcov mid1 mo1 i Hmo1 Hpol Hi Hm) as [(st & Hin & Hmid & He)|Hnil];
        [|by apply elem_of_nil in Hnil].
      assert (Hin' : st ∈ storageRegistry (pol_base p'))
        by (rewrite Hreg; apply list_elem_of_filter; split; [congruence|done]).
      left. exists st. split; [done|]. split; [done|]. apply Hkeep; [done| |done].
      destruct (Hr1 st Hin) as (mo2 & Hmo2 & _ & ->). congruence.
Qed.

Lemma remove_inv w mid mo h' v' drvs' pols' quotas' :
  world_inv [] w → w_mappings w !! mid = Some mo →
  (∀ a, ¬ (baseAddress (mo_mapping mo) ≤ a <
           baseAddress (mo_mapping mo) + segments (mo_mapping mo) * segmentSize (mo_mapping mo)) →
     vm_mem v' a = vm_mem (w_vm w) a ∧ vm_prot v' a = vm_prot (w_vm w) a) →
  (∀ did, did ≠ mo_driver mo → drvs' !! did = w_drivers w !! did) →
  (∀ pid p', pols' !! pid = Some p' → ∃ p, w_policies w !! pid = Some p ∧ released w mid h' p p') →
  let w' := mkWorld h' v' (delete mid (w_mappings w)) drvs' pols' quotas' in
  world_inv [] w' ∧ ∀ mid' x, mid' ≠ mid → world_view w' mid' x = world_view w mid' x.
Proof.
  intros Hw Hmo Hv Hd Hp w'.
  assert (Hother : ∀ mid' mo', mid' ≠ mid → w_mappings w !! mid' = Some mo' →
    ∃ d, w_drivers w !! mo_driver mo' = Some d ∧ drvs' !! mo_driver mo' = Some d ∧
      mapping_inv (mo_mapping mo') v' d ∧
      ∀ x, 0 ≤ x < m_size (mo_mapping mo') →
        view (mo_mapping mo') v' d x = view (mo_mapping mo') (w_vm w) d x).
  { intros mid' mo' Hne Hmo'. destruct (wo_mapping _ _ Hw mid' mo' Hmo') as [(d & Hd1 & Hi) _].
    exists d. split; [done|]. split.
    - rewrite Hd; [done|]. intros E. apply Hne. by eapply (wo_driver _ _ Hw).
    - apply mapping_inv_frame; [done|]. intros a Ha. apply Hv.
      by eapply (wo_disjoint _ _ Hw mid' mid). }
  split; [split|]; cbn.
  - intros mid1 mo1. rewrite lookup_delete_Some. intros [Hne Hmo1].
    destruct (Hother mid1 mo1 ltac:(done) Hmo1) as (d & _ & Hd1 & Hi & _).
    split; [by exists d|]. by apply (wo_mapping _ _ Hw mid1).
  - intros mid1 mid2 mo1 mo2. rewrite !lookup_delete_Some. intros [_ H1'] [_ H2'].
    by eapply (wo_driver _ _ Hw).
  - intros mid1 mid2 mo1 mo2 a. rewrite !lookup_delete_Some. intros [_ H1'] [_ H2'].
    by eapply (wo_disjoint _ _ Hw).
  - by apply (remove_policies w mid h' v' drvs' pols' quotas').
  - intros pid pid' p p' x H1' H2' Hne. destruct (Hp pid p H1') as (p0 & Hp0 & Hr0).
    destruct (Hp pid' p' H2') as (p1 & Hp1 & Hr1). intros Hx%(released_own _ _ _ _ _ _ Hr0) Hx'%(released_own _ _ _ _ _ _ Hr1).
    by apply (wo_own _ _ Hw pid pid' p0 p1 x).
  - intros mid1 x Hne. unfold world_view. cbn. rewrite lookup_delete_ne by done.
    destruct (w_mappings w !! mid1) as [mo1|] eqn:Hmo1; [|done]. cbn.
    destruct (Hother mid1 mo1 Hne Hmo1) as (d & Hd1 & Hd2 & _ & Hview). rewrite Hd1, Hd2. cbn.
    case_decide; [|done]. by rewrite Hview.
Qed.

(** ** A mapping arrives *)

(** [p'] is [p] with the array [st] of the mapping [mid], nothing of it tracked. *)
Definition granted (w : W) (gs' : Z → Z) (mid : Z) (st : PolicyStorage) (h' : heap) (p p' : P) : Prop :=
  local (pol_base p') = local (pol_base p) ∧ pol_roots p' = pol_roots p ∧
  storageRegistry (pol_base p') = storageRegistry (pol_base p) ++ [st] ∧
  ps_mapping st = mid ∧ (local (pol_base p) = true → storageRegistry (pol_base p) = []) ∧
  ∀ l, pol_inv (segment_size_of w) (w_heap w) p l → pol_inv gs' h' p' l.

Lemma granted_own w gs' mid st h' p p' x :
  granted w gs' mid st h' p p' → x ∈ own p' ↔ x ∈ own p ∨ x ∈ storage_elems st.
Proof.
  unfold own, all_elems. intros (_ & -> & -> & _). rewrite bind_app, !elem_of_app. cbn.
  rewrite app_nil_r. tauto.
Qed.

(** The new array is found, and so are those of the other mappings. *)
Lemma granted_storage w gs' mid st h' p p' :
  granted w gs' mid st h' p p' → mid ≠ 0 →
  (∀ st', st' ∈ storageRegistry (pol_base p) → ps_mapping st' ≠ mid) →
  getStorageInfo (pol_base p') mid = Ok st ∧
  ∀ mid' st', getStorageInfo (pol_base p) mid' = Ok st' → getStorageInfo (pol_base p') mid' = Ok st'.
Proof.
  intros (Hloc & _ & Hreg & Hst & Hempty & _) Hmid Hno. unfold getStorageInfo. rewrite Hloc, Hreg.
  destruct (local (pol_base p)).
  - rewrite Hempty by done. cbn. rewrite Hst, Z.eqb_refl. done.
  - clear Hreg Hempty. induction (storageRegistry (pol_base p)) as [|s r IH]; cbn [app find].
    + rewrite Hst, Z.eqb_refl, Hst. apply Z.eqb_neq in Hmid. by rewrite Hmid.
    + destruct IH as [IH1 IH2]; [intros st' Hin; apply Hno; by right|].
      destruct (Z.eqb_spec (ps_mapping s) mid) as [E|_]; [destruct (Hno s); [left|done]|].
      split; [done|]. intros mid' st'. destruct (ps_mapping s =? mid'); [done|]. apply IH2.
Qed.

Section Add.
Context (w : W) (mid : Z) (mo : MapObj) (d : D) (h' : heap) (v' : vm) (pols' : gmap Z P).
Context (Hw : world_inv [] w) (Hmid : mid ≠ 0) (Hnew : w_mappings w !! mid = None).
Context (Hdrv : ∀ mid' mo', w_mappings w !! mid' = Some mo' → mo_driver mo' ≠ mo_driver mo).
Context (Hinv : mapping_inv (mo_mapping mo) v' d).
Context (Hone : localPolicy (mo_mapping mo) = 0 ∨ globalPolicy (mo_mapping mo) = 0).
Context (Hun : ∀ i, 0 ≤ i < segments (mo_mapping mo) → mapped (status_at (mo_mapping mo) i) = false).
Context (Hv : ∀ a, ¬ (baseAddress (mo_mapping mo) ≤ a <
           baseAddress (mo_mapping mo) + segments (mo_mapping mo) * segmentSize (mo_mapping mo)) →
     vm_mem v' a = vm_mem (w_vm w) a ∧ vm_prot v' a = vm_prot (w_vm w) a).
Context (Hdis : ∀ mid' mo' a, w_mappings w !! mid' = Some mo' →
  baseAddress (mo_mapping mo') ≤ a <
    baseAddress (mo_mapping mo') + segments (mo_mapping mo') * segmentSize (mo_mapping mo') →
  ¬ (baseAddress (mo_mapping mo) ≤ a <
       baseAddress (mo_mapping mo) + segments (mo_mapping mo) * segmentSize (mo_mapping mo))).
Let w' := mkWorld h' v' (<[mid := mo]> (w_mappings w)) (<[mo_driver mo := d]> (w_drivers w)) pols' (w_quotas w).
Context (st : PolicyStorage) (Hcnt : elementCount st = segments (mo_mapping mo)).
(** The policy of the mapping gets the array, the others are not touched. *)
Context (Hpol : ∀ pid p', pols' !! pid = Some p' → ∃ p, w_policies w !! pid = Some p ∧
  if decide (policy_of (mo_mapping mo) = pid)
  then granted w (segment_size_of w') mid st h' p p' ∧
       ∀ pid2 p2 x, pid2 ≠ pid → w_policies w !! pid2 = Some p2 → x ∈ own p2 → x ∉ storage_elems st
  else p' = p ∧ ∀ x, x ∈ own p → h' !! x = w_heap w !! x).

Lemma add_other mid' mo' :
  w_mappings w !! mid' = Some mo' →
  ∃ d0, w_drivers w !! mo_driver mo' = Some d0 ∧ w_drivers w' !! mo_driver mo' = Some d0 ∧
    mapping_inv (mo_mapping mo') v' d0 ∧
    ∀ x, 0 ≤ x < m_size (mo_mapping mo') →
      view (mo_mapping mo') v' d0 x = view (mo_mapping mo') (w_vm w) d0 x.
Proof.
  intros Hmo'. destruct (wo_mapping _ _ Hw mid' mo' Hmo') as [(d0 & Hd0 & Hi) _].
  exists d0. split; [done|]. split.
  - cbn. rewrite lookup_insert_ne; [done|]. intros E. by apply (Hdrv mid' mo').
  - apply mapping_inv_frame; [done|]. intros a Ha. apply Hv. by eapply Hdis.
Qed.

Lemma add_known pid p st' :
  w_policies w !! pid = Some p → st' ∈ storageRegistry (pol_base p) →
  ps_mapping st' ≠ mid ∧ segment_size_of w' (ps_mapping st') = segment_size_of w (ps_mapping st').
Proof.
  intros Hp Hin. destruct (wo_policy _ _ Hw pid p Hp) as (_ & [Hr _] & _).
  destruct (Hr st' Hin) as (mo' & Hmo' & _).
  assert (ps_mapping st' ≠ mid) as Hne by congruence. split; [done|].
  unfold segment_size_of. cbn. by rewrite lookup_insert_ne.
Qed.

(** What a policy is in the new state. *)
Lemma add_policy pid p' :
  pols' !! pid = Some p' → pid ≠ 0 ∧ registered w' pid p' ∧
  ∃ l, pol_inv (segment_size_of w') h' p' l ∧ covers w' [] pid p' l.
Proof.
  intros Hp'. destruct (Hpol pid p' Hp') as (p & Hp & Hcase).
  destruct (wo_policy _ _ Hw pid p Hp) as (Hnz & [Hr1 Hr2] & l & Hl & Hcov).
  assert (Hold : ∀ mid1 mo1, w_mappings w !! mid1 = Some mo1 →
    mid1 ≠ mid ∧ w_mappings w' !! mid1 = Some mo1).
  { intros mid1 mo1 H1'. assert (mid1 ≠ mid) by congruence. split; [done|].
    cbn. by rewrite lookup_insert_ne. }
  assert (Hnewi : ∀ mid1 mo1, w_mappings w' !! mid1 = Some mo1 →
    mid1 = mid ∧ mo1 = mo ∨ w_mappings w !! mid1 = Some mo1).
  { intros mid1 mo1. cbn. rewrite lookup_insert_Some. naive_solver. }
  split; [done|]. case_decide as Hc.
  - destruct Hcase as [Hg _].
    destruct (granted_storage _ _ _ _ _ _ _ Hg Hmid) as [Hs1 Hs2].
    { intros st' Hin. by apply (add_known pid p st'). }
    destruct Hg as (_ & _ & Hreg & Hst & _ & Hgi). split; [split|].
    + intros st'. rewrite Hreg, elem_of_app, list_elem_of_singleton. intros [Hin| ->].
      * destruct (Hr1 st' Hin) as (mo1 & Hmo1 & Hrest). exists mo1. split; [by apply Hold|done].
      * exists mo. rewrite Hst. cbn. by rewrite lookup_insert_eq.
    + intros mid1 mo1 [[-> ->]|Hmo1]%Hnewi Hpo; [by eexists|].
      destruct (Hr2 mid1 mo1 Hmo1 Hpo) as [st' Hs']. exists st'. by apply Hs2.
    + exists l. split; [by apply Hgi|].
      intros mid1 mo1 i [[-> ->]|Hmo1]%Hnewi Hpo Hi Hm; [by rewrite Hun in Hm|].
      destruct (Hcov mid1 mo1 i Hmo1 Hpo Hi Hm) as [(st' & Hin & Hrest)|?]; [left|by right].
      exists st'. rewrite Hreg, elem_of_app. tauto.
  - destruct Hcase as [-> Hfr]. split; [split|].
    + intros st' Hin. destruct (Hr1 st' Hin) as (mo1 & Hmo1 & Hrest). exists mo1.
      split; [by apply Hold|done].
    + intros mid1 mo1 [[-> ->]|Hmo1]%Hnewi Hpo; [done|]. by apply (Hr2 mid1 mo1).
    + exists l. split.
      * apply (pol_resize (segment_size_of w)); [by apply (pol_frame _ (w_heap w))|].
        intros st' Hin. by apply (add_known pid p st').
      * intros mid1 mo1 i [[-> ->]|Hmo1]%Hnewi Hpo Hi Hm; [done|]. by apply (Hcov mid1 mo1).
Qed.

Lemma add_own pid pid' p p' x :
  pols' !! pid = Some p → pols' !! pid' = Some p' → pid ≠ pid' → x ∈ own p → x ∉ own p'.
Proof.
  intros H1' H2' Hne Hx Hx'. destruct (Hpol pid p H1') as (q & Hq & Hc1).
  destruct (Hpol pid' p' H2') as (q' & Hq' & Hc2).
  pose proof (wo_own _ _ Hw pid pid' q q' x Hq Hq' Hne) as Hqq.
  change (x ∈ own q → x ∉ own q') in Hqq.
  destruct (decide (policy_of (mo_mapping mo) = pid)) as [E1|E1];
    destruct (decide (policy_of (mo_mapping mo) = pid')) as [E2|E2]; [congruence|..].
  - destruct Hc1 as [Hg Hf]. destruct Hc2 as [-> _].
    apply (granted_own _ _ _ _ _ _ _ _ Hg) in Hx as [?|Hs]; [by apply Hqq|].
    by apply (Hf pid' q' x).
  - destruct Hc2 as [Hg Hf]. destruct Hc1 as [-> _].
    apply (granted_own _ _ _ _ _ _ _ _ Hg) in Hx' as [?|Hs]; [by apply Hqq|].
    by apply (Hf pid q x).
  - destruct Hc1 as [-> _], Hc2 as [-> _]. by apply Hqq.
Qed.

Lemma add_inv :
  world_inv [] w' ∧ ∀ mid' x, mid' ≠ mid → world_view w' mid' x = world_view w mid' x.
Proof.
  split; [split|].
  - intros mid1 mo1. cbn. rewrite lookup_insert_Some. intros [[<- <-]|[Hne Hmo1]].
    + split; [|done]. exists d. split; [by rewrite lookup_insert_eq|done].
    + destruct (add_other mid1 mo1 Hmo1) as (d0 & _ & Hd0 & Hi & _).
      split; [by exists d0|]. by apply (wo_mapping _ _ Hw mid1).
  - intros mid1 mid2 mo1 mo2. cbn. rewrite !lookup_insert_Some.
    intros [[<- <-]|[Hn1 H1']] [[<- <-]|[Hn2 H2']] E; try done.
    + by destruct (Hdrv mid2 mo2).
    + by destruct (Hdrv mid1 mo1).
    + by eapply (wo_driver _ _ Hw).
  - intros mid1 mid2 mo1 mo2 a. cbn. rewrite !lookup_insert_Some.
    intros [[<- <-]|[Hn1 H1']] [[<- <-]|[Hn2 H2']] Hne; try done.
    + intros Ha Ha'. by apply (Hdis mid2 mo2 a).
    + by apply Hdis with mid1.
    + by eapply (wo_disjoint _ _ Hw).
  - exact add_policy.
  - intros pid pid' p p' x. apply add_own.
  - intros mid1 x Hne. unfold world_view. cbn. rewrite lookup_insert_ne by done.
    destruct (w_mappings w !! mid1) as [mo1|] eqn:Hmo1; [|done]. cbn.
    destruct (add_other mid1 mo1 Hmo1) as (d0 & Hd1 & Hd2 & _ & Hview). cbn in Hd2. rewrite Hd1, Hd2. cbn.
    case_decide; [|done]. by rewrite Hview.
Qed.
End Add.

(** ** [createMapping] *)

(** The number of segments of a mapping of [size] bytes. *)
Definition segment_count (size ss : Z) : Z := (size + ss - 1) / ss.

Lemma segment_count_ok m : wf_geometry m → segments m = segment_count (m_size m) (segmentSize m).
Proof.
  intros Hg. pose proof (wg_size _ Hg). pose proof (geom_segmentSize m Hg). unfold segment_count.
  apply Z.div_unique with (m_size m + segmentSize m - 1 - segments m * segmentSize m); lia.
Qed.

(** The segment sizes once mapping [mid] exists. *)
Definition size_with (w : W) (mid ss : Z) : Z → Z :=
  λ i, if decide (i = mid) then ss else segment_size_of w i.

(** The policy [pid] can take the array [st] of a mapping of segment size [ss]. *)
Record has_room (w : W) (pid : Z) (p : P) (st : PolicyStorage) (ss : Z) : Prop := {
  hr_fresh : fresh_storage (size_with w (ps_mapping st) ss) (pol_base p) (pol_roots p) st;
  hr_static : ss ≤ staticMaxMemory (pol_base p);
  hr_enough : checkHasEnoughMem (size_with w (ps_mapping st) ss)
    (set_storageRegistry (pol_base p) (storageRegistry (pol_base p) ++ [st])) = true;
  hr_local : local (pol_base p) = true → storageRegistry (pol_base p) = [];
  hr_other : ∀ pid2 p2 x, pid2 ≠ pid → w_policies w !! pid2 = Some p2 → x ∈ own p2 →
    x ∉ storage_elems st;
}.

(** What the caller and the kernel give to a new mapping [mid] at [base]. *)
Record can_map (w : W) (cpus base mid did size ss off pid elts : Z) (d : D) : Prop := {
  cm_args : good_args cpus base size ss off d;
  cm_driver : w_drivers w !! did = Some d;
  cm_private : ∀ mid' mo', w_mappings w !! mid' = Some mo' → mo_driver mo' ≠ did;
  cm_mid : mid ≠ 0;
  cm_new : w_mappings w !! mid = None;
  cm_free : ∀ mid' mo' a, w_mappings w !! mid' = Some mo' →
    baseAddress (mo_mapping mo') ≤ a <
      baseAddress (mo_mapping mo') + segments (mo_mapping mo') * segmentSize (mo_mapping mo') →
    ¬ (base ≤ a < base + segment_count size ss * ss);
  cm_policy : pid ≠ 0 → ∃ p, w_policies w !! pid = Some p ∧
    has_room w pid p (mkStorage mid elts (segment_count size ss) sizeof_ListElement 0) ss;
}.

(** [allocateElementStorage] on the policy of the mapping. *)
Lemma allocate_ok (w w1 : W) pid p mid ss n elts flags :
  world_inv [] w → w_policies w !! pid = Some p →
  has_room w pid p (mkStorage mid elts n sizeof_ListElement 0) ss →
  w_heap w1 = w_heap w →
  (∀ i, segment_size_of w1 i = size_with w mid ss i) → w_mappings w !! mid = None →
  let st := mkStorage mid elts n sizeof_ListElement 0 in
  ∃ h' p', pol_allocateElementStorage (segment_size_of w1) (w_heap w1) p mid n elts flags = Ok (h', p') ∧
    granted w (segment_size_of w1) mid st h' p p' ∧ ∀ x, x ∉ storage_elems st → h' !! x = w_heap w !! x.
Proof.
  intros Hw Hp [Hf Hs He Hl Ho] Hh Hgs Hnew st.
  replace (segment_size_of w1) with (size_with w mid ss)
    by (symmetry; by apply functional_extensionality).
  rewrite Hh. destruct (wo_policy _ _ Hw pid p Hp) as (_ & [Hr _] & l & Hi & _).
  assert (Hres : ∀ l, pol_inv (segment_size_of w) (w_heap w) p l → pol_inv (size_with w mid ss) (w_heap w) p l).
  { intros l' Hi'. apply (pol_resize (segment_size_of w)); [done|]. intros st' Hin.
    destruct (Hr st' Hin) as (mo & Hmo & _). unfold size_with. rewrite decide_False; [done|congruence]. }
  destruct (pol_allocate (size_with w mid ss) (w_heap w) p l mid n elts flags) as
    (h' & p' & Hrun & Hb & Hroots & _ & Hfr); [by apply Hres|done| |done|].
  { unfold size_with. by rewrite decide_True. }
  exists h', p'. split; [done|]. split; [|done]. rewrite <- Hb in *. 
  split; [by rewrite Hb|]. split; [done|]. split; [by rewrite Hb|]. split; [done|]. split; [done|].
  intros l' Hi'. destruct (pol_allocate (size_with w mid ss) (w_heap w) p l' mid n elts flags) as
    (h2 & p2 & Hrun2 & _ & _ & Hi2 & _); [by apply Hres|done| |by rewrite <- Hb|congruence].
  unfold size_with. by rewrite decide_True.
Qed.

(** The policies after the allocation for a mapping of the policy [pid]. *)
Definition policies_with (w : W) (gs' : Z → Z) (mid pid : Z) (st : PolicyStorage) (h' : heap)
    (pols' : gmap Z P) : Prop :=
  (∀ pid', pid' ≠ pid → pols' !! pid' = w_policies w !! pid') ∧
  ∀ pid' p', pols' !! pid' = Some p' → ∃ p, w_policies w !! pid' = Some p ∧
    if decide (pid = pid')
    then granted w gs' mid st h' p p' ∧
         ∀ pid2 p2 x, pid2 ≠ pid' → w_policies w !! pid2 = Some p2 → x ∈ own p2 → x ∉ storage_elems st
    else p' = p ∧ ∀ x, x ∈ own p → h' !! x = w_heap w !! x.

Lemma allocateStorage_ok (w w1 : W) pid mid ss n elts flags :
  world_inv [] w → w_mappings w !! mid = None →
  (pid ≠ 0 → ∃ p, w_policies w !! pid = Some p ∧
     has_room w pid p (mkStorage mid elts n sizeof_ListElement 0) ss) →
  w_heap w1 = w_heap w → w_policies w1 = w_policies w →
  (∀ i, segment_size_of w1 i = size_with w mid ss i) →
  ∃ h' pols', allocateStorage w1 pid mid n elts flags =
      Ok (mkWorld h' (w_vm w1) (w_mappings w1) (w_drivers w1) pols' (w_quotas w1)) ∧
    policies_with w (segment_size_of w1) mid pid (mkStorage mid elts n sizeof_ListElement 0) h' pols'.
Proof.
  intros Hw Hnew Hroom Hh Hpols Hgs. unfold allocateStorage. destruct (Z.eqb_spec pid 0) as [->|Hpid].
  - exists (w_heap w1), (w_policies w1). split; [by destruct w1|]. rewrite Hpols, Hh. split; [done|].
    intros pid' p' Hp'. destruct (wo_policy _ _ Hw pid' p' Hp') as (Hnz & _).
    exists p'. split; [done|]. by rewrite decide_False.
  - destruct (Hroom Hpid) as (p & Hp & Hr). rewrite Hpols, Hp. cbn [deref mbind result_bind].
    destruct (allocate_ok w w1 pid p mid ss n elts flags Hw Hp Hr Hh Hgs Hnew)
      as (h' & p1 & Hrun & Hg & Hfr). rewrite Hrun. cbn [mbind result_bind].
    unfold set_policy. rewrite Hpols. eexists _, _. split; [reflexivity|]. split.
    { intros pid' Hne. by rewrite lookup_insert_ne. }
    intros pid' p'. rewrite lookup_insert_Some. intros [[<- <-]|[Hne Hp']].
    + exists p. split; [done|]. rewrite decide_True by done. split; [done|].
      apply (hr_other _ _ _ _ _ Hr).
    + exists p'. split; [done|]. rewrite decide_False by done. split; [done|].
      intros x Hx. apply Hfr. by apply (hr_other _ _ _ _ _ Hr pid' p').
Qed.

(** The constructor calls at most one policy. *)
Lemma one_allocation (w w2 : W) l g mid n al ag {A} (k : W → result A) :
  l = 0 ∨ g = 0 →
  (let a := if l =? 0 then ag else al in
   allocateStorage w (if l =? 0 then g else l) mid n (fst a) (snd a) = Ok w2) →
  (w3 ← allocateStorage w l mid n (fst al) (snd al);
   w4 ← allocateStorage w3 g mid n (fst ag) (snd ag); k w4) = k w2.
Proof.
  intros Hone. destruct (Z.eqb_spec l 0) as [->|Hl]; cbv zeta.
  - intros Hrun. cbn [allocateStorage Z.eqb mbind result_bind]. by rewrite Hrun.
  - intros Hrun. rewrite Hrun. destruct Hone as [?|E]; [done|]. by rewrite E.
Qed.

Lemma createMapping_ok cpus base w mid did size ss off prot flags l g alloc_l alloc_g d :
  let alloc := if l =? 0 then alloc_g else alloc_l in
  let pid := if l =? 0 then g else l in
  world_inv [] w → l = 0 ∨ g = 0 →
  can_map w cpus base mid did size ss off pid (fst alloc) d →
  ∃ w' m, createMapping cpus (Some base) w mid did size ss off prot flags l g alloc_l alloc_g = Ok w' ∧
    world_inv [] w' ∧
    (∀ mid' x, mid' ≠ mid → world_view w' mid' x = world_view w mid' x) ∧
    (∀ x, 0 ≤ x < size → world_view w' mid x =
       Some (if has_flag flags UMMAP_NO_FIRST_READ then 0 else content d (off + x))) ∧
    w_mappings w' = <[mid := mkMapObj m did]> (w_mappings w) ∧
    baseAddress m = base ∧ m_size m = size ∧ segmentSize m = ss ∧ storageOffset m = off ∧
    protection m = prot ∧ localPolicy m = l ∧ globalPolicy m = g ∧
    ∀ pid', pid' ≠ pid → w_policies w' !! pid' = w_policies w !! pid'.
Proof.
  intros alloc pid Hw Hone [Hargs Hd Hpriv Hmid Hnew Hfree Hpol].
  destruct (newMapping_steps cpus base (w_vm w) d size ss off prot flags l g Hargs)
    as (m & m' & v' & Hprep & Hfin & Hss & Hseg & Hinv & Hlp & Hgp & Hpr & Hb & Hsz & Hss' & Hoff & _ &
        Hun & Hview & Hvm).
  unfold getAddress in Hb. unfold getSize in Hsz. unfold getSegmentSize in Hss'. unfold getStorageOffset in Hoff.
  pose proof (mi_geom _ _ _ Hinv) as Hgeo. pose proof (segment_count_ok m' Hgeo) as Hcount.
  rewrite Hsz, Hss' in Hcount. rewrite (aligned_size m' Hgeo) in Hvm.
  set (w1 := set_mapping w mid (mkMapObj m did) m v' d).
  assert (Hgs : ∀ i, segment_size_of w1 i = size_with w mid ss i).
  { intros i. unfold size_with, segment_size_of. cbn. case_decide as E; [subst i|].
    - by rewrite lookup_insert_eq.
    - by rewrite lookup_insert_ne. }
  destruct (allocateStorage_ok w w1 pid mid ss (segments m) (fst alloc) (snd alloc) Hw Hnew)
    as (h' & pols' & Hrun & Hoffp & Hpols); [by rewrite Hseg, Hcount|done|done|done|].
  eexists _, m'. split.
  { unfold createMapping. rewrite Hd. cbn [deref mbind result_bind]. rewrite Hprep.
    cbn [mbind result_bind].
    assert (negb (l =? 0) && negb (g =? 0) = false) as ->.
    { destruct Hone as [-> | ->]; [done|]. by rewrite andb_false_r. }
    cbn [mbind result_bind]. fold w1.
    rewrite (one_allocation w1 _ l g mid (segments m) alloc_l alloc_g _ Hone Hrun).
    rewrite Hfin. cbn [mbind result_bind]. reflexivity. }
  set (w' := set_mapping _ _ _ _ _ _).
  assert (Hw' : w' = mkWorld h' v' (<[mid := mkMapObj m' did]> (w_mappings w))
    (<[did := d]> (w_drivers w)) pols' (w_quotas w)).
  { subst w' w1. unfold set_mapping. cbn. by rewrite !insert_insert_eq. }
  destruct (add_inv w mid (mkMapObj m' did) d h' v' pols' Hw Hmid Hnew Hpriv Hinv) with
    (st := mkStorage mid (fst alloc) (segments m) sizeof_ListElement 0) as [Hinv' Hviews]; cbn.
  - by rewrite Hlp, Hgp.
  - done.
  - rewrite Hb. done.
  - rewrite Hb, Hcount, Hss'. done.
  - done.
  - unfold policy_of. rewrite Hlp, Hgp. fold pid.
    assert (segment_size_of w1 = segment_size_of (mkWorld h' v' (<[mid := mkMapObj m' did]> (w_mappings w))
      (<[did := d]> (w_drivers w)) pols' (w_quotas w))) as <-; [|exact Hpols].
    apply functional_extensionality. intros i. rewrite Hgs. unfold size_with, segment_size_of. cbn.
    case_decide as E; [subst i; by rewrite lookup_insert_eq|by rewrite lookup_insert_ne].
  - rewrite Hw'. split; [exact Hinv'|]. split; [exact Hviews|]. split; [|split_and!; try done; apply insert_insert_eq].
    intros x Hx. unfold world_view. cbn. rewrite !lookup_insert_eq. cbn. rewrite lookup_insert_eq. cbn.
    rewrite decide_True by (by rewrite Hsz). by rewrite Hview.
Qed.

(** ** [destroyMapping] *)

(** [freeElementStorage] on the policy of the mapping. *)
Lemma free_ok (w : W) pid p mid mo :
  world_inv [] w → w_policies w !! pid = Some p → w_mappings w !! mid = Some mo →
  policy_of (mo_mapping mo) = pid →
  ∃ h' p', pol_freeElementStorage (segment_size_of w) (w_heap w) p mid = Ok (h', p') ∧
    released w mid h' p p' ∧ policyQuota (pol_base p') = policyQuota (pol_base p) ∧
    ∀ x, x ∉ own p → h' !! x = w_heap w !! x.
Proof.
  intros Hw Hp Hmo Hpol. destruct (wo_policy _ _ Hw pid p Hp) as (_ & [_ Hr2] & l & Hl & _).
  destruct (Hr2 mid mo Hmo Hpol) as [st Hst].
  destruct (pol_free _ _ _ _ _ _ Hl Hst) as (h' & p' & Hrun & Hb & Hroots & _ & Hfr).
  exists h', p'. split; [done|]. split; [|split; [by rewrite Hb|exact Hfr]].
  split; [by rewrite Hb|]. split; [done|]. split; [by rewrite Hb|].
  intros l' Hl'. destruct (pol_free _ _ _ _ _ _ Hl' Hst) as (h2 & p2 & Hrun2 & _ & _ & Hl2 & _).
  rewrite Hrun in Hrun2. injection Hrun2 as <- <-. eexists. split; [exact Hl2|].
  intros st' i Hin Hi He. apply list_elem_of_filter. split; [|done].
  rewrite Hb in Hin. apply list_elem_of_filter in Hin as [Hne Hin].
  pose proof (pol_wf _ _ _ _ Hl) as Hwf. apply getStorageInfo_inv in Hst as [Hst Hmid].
  intros (j & Hj & Heq)%elem_of_storage_elems. apply Hne. rewrite <- Hmid. f_equal.
  apply (wfr_disjoint _ _ Hwf st' st (element st' i) Hin Hst); [|rewrite Heq];
    apply (element_contains (segment_size_of w)); try done; by apply (wfr_storage _ _ Hwf).
Qed.

Lemma freeStorage_ok (w w1 : W) mid mo :
  let pid := policy_of (mo_mapping mo) in
  world_inv [] w → w_mappings w !! mid = Some mo →
  (pid ≠ 0 → is_Some (w_policies w !! pid)) →
  w_heap w1 = w_heap w → w_policies w1 = w_policies w → segment_size_of w1 = segment_size_of w →
  ∃ h' pols', freeStorage w1 pid mid =
      Ok (mkWorld h' (w_vm w1) (w_mappings w1) (w_drivers w1) pols' (w_quotas w1)) ∧
    (∀ pid', pid' ≠ pid → pols' !! pid' = w_policies w !! pid') ∧
    (∀ pid' p', pols' !! pid' = Some p' → ∃ p, w_policies w !! pid' = Some p ∧
       released w mid h' p p' ∧ policyQuota (pol_base p') = policyQuota (pol_base p)) ∧
    (pid ≠ 0 → is_Some (pols' !! pid)).
Proof.
  intros pid Hw Hmo Hsome Hh Hpols Hgs. unfold freeStorage. rewrite Hh, Hpols, Hgs.
  assert (Hsame : ∀ h' pid' p', pid' ≠ pid → w_policies w !! pid' = Some p' →
    (∀ x, x ∈ own p' → h' !! x = w_heap w !! x) → released w mid h' p' p').
  { intros h' pid' p' Hne Hp' Hfr. destruct (wo_policy _ _ Hw pid' p' Hp') as (_ & Hr & _).
    apply (released_refl w mid h' pid'); [done| |done]. intros mo' Hmo'.
    assert (mo' = mo) as -> by congruence. by apply not_eq_sym. }
  destruct (Z.eqb_spec pid 0) as [E|Hpid].
  - exists (w_heap w), (w_policies w). split; [by destruct w1; cbn in *; subst|]. split; [done|].
    split; [|by rewrite E]. intros pid' p' Hp'. exists p'. split; [done|]. split; [|done].
    apply (Hsame _ pid'); [|done|done]. rewrite E. by destruct (wo_policy _ _ Hw pid' p' Hp') as (? & _).
  - destruct (Hsome Hpid) as [p Hp]. rewrite Hp. cbn [deref mbind result_bind].
    destruct (free_ok w pid p mid mo Hw Hp Hmo eq_refl) as (h' & p1 & Hrun & Hrel & Hq & Hfr).
    rewrite Hrun. cbn [mbind result_bind]. unfold set_policy. rewrite Hpols.
    eexists _, _. split; [reflexivity|]. split; [intros pid' Hne; by rewrite lookup_insert_ne|].
    split; [|intros _; by rewrite lookup_insert_eq].
    intros pid' p'. rewrite lookup_insert_Some. intros [[<- <-]|[Hne Hp']]; [by exists p|].
    exists p'. split; [done|]. split; [|done]. apply (Hsame _ pid'); [done|done|].
    intros x Hx. apply Hfr. by eapply (wo_own _ _ Hw pid' pid).
Qed.

(** The destructor calls at most one policy. *)
Lemma one_release (w w2 : W) l g mid {A} (k : W → result A) :
  l = 0 ∨ g = 0 → freeStorage w (if l =? 0 then g else l) mid = Ok w2 →
  (w3 ← freeStorage w l mid; w4 ← freeStorage w3 g mid; k w4) = k w2.
Proof.
  intros Hone. destruct (Z.eqb_spec l 0) as [->|Hl].
  - intros Hrun. cbn [freeStorage Z.eqb mbind result_bind]. by rewrite Hrun.
  - intros Hrun. rewrite Hrun. destruct Hone as [?|E]; [done|]. by rewrite E.
Qed.

(** The local policy, which has no quota to leave, is deleted. *)
Lemma destroy_local fuel (w : W) l :
  (l ≠ 0 → ∃ p, w_policies w !! l = Some p ∧ policyQuota (pol_base p) = 0) →
  (if negb (l =? 0) then destroyPolicy fuel w l else Ok w) =
  Ok (mkWorld (w_heap w) (w_vm w) (w_mappings w) (w_drivers w)
        (if negb (l =? 0) then delete l (w_policies w) else w_policies w) (w_quotas w)).
Proof.
  intros Hp. destruct (Z.eqb_spec l 0) as [E|E]; cbn [negb]; [by destruct w|].
  destruct (Hp E) as (p & Hpl & Hq). unfold destroyPolicy. rewrite Hpl.
  cbn [deref mbind result_bind]. by rewrite Hq.
Qed.

Lemma destroyMapping_ok fuel w mid mo d :
  let m := mo_mapping mo in
  world_inv [] w → w_mappings w !! mid = Some mo → w_drivers w !! mo_driver mo = Some d →
  (policy_of m ≠ 0 → ∃ p, w_policies w !! policy_of m = Some p ∧ policyQuota (pol_base p) = 0) →
  ∃ w', destroyMapping fuel w mid = Ok w' ∧ world_inv [] w' ∧
    (∀ mid' x, mid' ≠ mid → world_view w' mid' x = world_view w mid' x) ∧
    w_mappings w' = delete mid (w_mappings w) ∧
    w_drivers w' = (if hasAutoclean (driver_base d) then delete (mo_driver mo) (w_drivers w)
                    else w_drivers w) ∧
    (∀ a, baseAddress m ≤ a < baseAddress m + segments m * segmentSize m → vm_prot (w_vm w') a = None) ∧
    (∀ pid, pid ≠ policy_of m → w_policies w' !! pid = w_policies w !! pid) ∧
    (localPolicy m ≠ 0 → w_policies w' !! localPolicy m = None) ∧
    w_vm w' = set_prot (w_vm w) (baseAddress m) (segments m * segmentSize m) None ∧
    (∀ pid p', w_policies w' !! pid = Some p' →
       ∃ p, w_policies w !! pid = Some p ∧ policyQuota (pol_base p') = policyQuota (pol_base p)) ∧
    ∀ pid, pid ≠ 0 → pid ≠ localPolicy m → is_Some (w_policies w !! pid) → is_Some (w_policies w' !! pid).
Proof.
  intros m Hw Hmo Hd Hpol.
  destruct (wo_mapping _ _ Hw mid mo Hmo) as [(d0 & Hd0 & Hinv) Hone].
  assert (d0 = d) as -> by congruence. fold m in Hinv, Hone.
  set (v' := set_prot (w_vm w) (baseAddress m) (segments m * segmentSize m) None).
  set (w1 := set_mapping w mid mo m v' d).
  assert (Hw1 : w1 = mkWorld (w_heap w) v' (w_mappings w) (w_drivers w) (w_policies w) (w_quotas w)).
  { unfold w1, set_mapping. rewrite !insert_id; [done|done|]. rewrite Hmo. by destruct mo. }
  destruct (freeStorage_ok w w1 mid mo Hw Hmo) as (h' & pols' & Hrun & Hoff & Hrel & Hin);
    [intros (p & Hp & _)%Hpol; by eexists|by rewrite Hw1..|].
  fold m in Hrun, Hoff, Hin. rewrite Hw1 in Hrun. cbn in Hrun.
  set (w3 := mkWorld h' v' (w_mappings w) (w_drivers w) pols' (w_quotas w)) in *.
  set (pols := if negb (localPolicy m =? 0) then delete (localPolicy m) pols' else pols').
  assert (Hlp : localPolicy m ≠ 0 → policy_of m = localPolicy m)
    by (unfold policy_of; intros ->%Z.eqb_neq; done).
  assert (Hdel := destroy_local fuel w3 (localPolicy m)). cbn in Hdel. fold pols in Hdel.
  assert (Hrel' : ∀ pid p', pols !! pid = Some p' → ∃ p, w_policies w !! pid = Some p ∧ released w mid h' p p').
  { intros pid p' Hp'. destruct (Hrel pid p') as (p & H1' & H2' & _); [|by exists p].
    unfold pols in Hp'. destruct (negb _); [by apply lookup_delete_Some in Hp' as [_ ?]|done]. }
  eexists. split.
  { unfold destroyMapping. rewrite Hmo. cbn [deref mbind result_bind]. rewrite Hd. cbn [deref mbind result_bind].
    fold m. rewrite (deleteMapping_ok m (w_vm w) d Hinv). cbn [mbind result_bind]. fold v'. fold w1. rewrite Hw1.
    rewrite (one_release _ w3 (localPolicy m) (globalPolicy m) mid _ Hone Hrun).
    rewrite Hdel; [reflexivity|]. intros E. pose proof (Hlp E) as Epol. rewrite Epol in Hin, Hpol.
    destruct (Hin E) as [p' Hp']. destruct (Hrel _ _ Hp') as (p & Hp & _ & Hq).
    destruct (Hpol E) as (p0 & Hp0 & Hq0). exists p'. split; [done|]. congruence. }
  cbn. destruct (remove_inv w mid mo h' v' (if hasAutoclean (driver_base d)
    then delete (mo_driver mo) (w_drivers w) else w_drivers w) pols (w_quotas w) Hw Hmo)
    as [Hinv' Hviews].
  - intros a Ha. fold m in Ha. cbn. case_range; [lia|done].
  - intros did Hne. destruct (hasAutoclean _); [by rewrite lookup_delete_ne|done].
  - done.
  - split; [done|]. split; [done|]. do 2 (split; [done|]).
    split; [intros a Ha; cbn; case_range; [done|lia]|].
    unfold pols. split_and!.
    + intros pid Hne. rewrite <- Hoff by done. destruct (Z.eqb_spec (localPolicy m) 0); [done|].
      cbn [negb]. rewrite lookup_delete_ne; [done|]. rewrite <- Hlp by done. by apply not_eq_sym.
    + intros E. apply Z.eqb_neq in E. rewrite E. cbn. by rewrite lookup_delete_eq.
    + done.
    + intros pid p' Hp'. destruct (Hrel pid p') as (p & H1' & _ & H3'); [|by exists p].
      destruct (negb _); [by apply lookup_delete_Some in Hp' as [_ ?]|done].
    + intros pid Hpid Hne Hp.
      assert (is_Some (pols' !! pid)) as Hp'.
      { destruct (decide (pid = policy_of m)) as [->|Hnp]; [by apply Hin|by rewrite Hoff]. }
      destruct (negb _); [by rewrite lookup_delete_ne by done|done].
Qed.
End Worlds.
