(* ===== verification/Sessions.v ===== *)
(** * Whole sessions

    What a program does between [ummap_init] and [ummap_finalize]: it creates
    policies, maps and unmaps files, loads and stores bytes through the fault handler,
    flushes.  [ummap] and [uunmap] keep the invariant of [GlobalHandler], and every
    legal session behaves like arrays of bytes, one per live mapping: [run_event] runs
    an event on the state of the library, [spec_event] on the arrays. *)

From S2P Require Import Prelude ListElement Policy PolicyInterface OS Driver Mapping MappingInv MappingSpec System SystemInv Registry GlobalHandler Lifecycle.

Section Handler.
Context {D P : Type} `{StorageDriver D} `{TrackingPolicy P}.
Abbreviation G := (GlobalHandler D P).

(** ** [ummap] *)

(** The global policy the caller names. *)
Definition named_policy (g : G) (policyGroup : string) (global : Z) : Prop :=
  policyGroup = "none" ∧ global = 0 ∨
  policyGroup ≠ "none" ∧ policyGroup ≠ "" ∧ policyRegistry g !! policyGroup = Some global.

Lemma named_policy_get g policyGroup global :
  named_policy g policyGroup global →
  (if bool_decide (policyGroup = "none") then Ok 0
   else Registry.get (policyRegistry g) policyGroup false) = Ok global.
Proof.
  intros [[-> ->]|(Hn & He & Hg)]; [done|]. rewrite bool_decide_eq_false_2 by done.
  unfold Registry.get. rewrite bool_decide_eq_false_2 by done. cbn [negb cassert mbind result_bind].
  by rewrite Hg.
Qed.

(** The registry with the new mapping. *)
Lemma register_world g (w' : World D P) mid mo :
  handler_inv g → world_inv [] w' → mid ≠ 0 → w_mappings (process g) !! mid = None →
  w_mappings w' = <[mid := mo]> (w_mappings (process g)) →
  let e := mkEntry mid (baseAddress (mo_mapping mo)) (baseAddress (mo_mapping mo) + m_size (mo_mapping mo)) in
  registerMapping (set_process g w') mid = Ok (mkHandler (mappingRegistry g ++ [e]) (policyRegistry g) w') ∧
  handler_inv (mkHandler (mappingRegistry g ++ [e]) (policyRegistry g) w').
Proof.
  intros [Hw Hr He] Hw' Hmid Hnew Hmaps e.
  assert (Hno : ∀ e', e' ∈ mappingRegistry g → re_mapping e' ≠ mid).
  { intros e' Hin E. apply He in Hin as (mo' & Hmo' & _). congruence. }
  assert (Hmo : w_mappings w' !! mid = Some mo) by (by rewrite Hmaps, lookup_insert_eq).
  destruct (wo_mapping _ _ Hw' mid mo Hmo) as [(d & _ & Hinv) _].
  pose proof (mi_geom _ _ _ Hinv) as Hgeo. pose proof (wg_size _ Hgeo).
  split.
  - unfold registerMapping. cbn. rewrite Hmo. cbn [deref mbind result_bind].
    rewrite (register_ok _ _ _ _ Hmid Hno). reflexivity.
  - split; cbn; [done| |].
    + apply registry_inv_register; [done|done|apply (wg_base _ Hgeo)|done|].
      intros e' a Hin Ha Ha'. pose proof (Hno e' Hin) as Hne.
      apply He in Hin as (mo' & Hmo' & Hb & Hend). rewrite Hb, Hend in Ha. cbn in Ha'.
      assert (Hmo1 : w_mappings w' !! re_mapping e' = Some mo')
        by (rewrite Hmaps, lookup_insert_ne; [done|by apply not_eq_sym]).
      destruct (wo_mapping _ _ Hw' _ mo' Hmo1) as [(d' & _ & Hinv') _].
      pose proof (wg_size _ (mi_geom _ _ _ Hinv')).
      apply (wo_disjoint _ _ Hw' (re_mapping e') mid mo' mo a Hmo1 Hmo Hne); lia.
    + intros e'. rewrite elem_of_app, list_elem_of_singleton, He, Hmaps. split.
      * intros [(mo' & Hmo' & Hrest)| ->]; [|exists mo; cbn; by rewrite lookup_insert_eq].
        exists mo'. rewrite lookup_insert_ne; [done|]. intros E. rewrite <- E in Hmo'. congruence.
      * intros (mo' & Hmo' & Hb & Hend). apply lookup_insert_Some in Hmo' as [[E <-]|[Hne Hmo']]; [right|left; eauto].
        destruct e'. cbn in *. by subst.
Qed.

Lemma ummap_run cpus base g addr size ss off prot flags did l policyGroup global mid alloc_l alloc_g d :
  let alloc := if l =? 0 then alloc_g else alloc_l in
  let pid := if l =? 0 then global else l in
  handler_inv g → named_policy g policyGroup global → l = 0 ∨ global = 0 →
  can_map (process g) cpus base mid did size ss off pid (fst alloc) d →
  ∃ g' m, ummap cpus (Some base) g addr size ss off prot flags did l policyGroup mid alloc_l alloc_g
      = Ok (base, g') ∧
    handler_inv g' ∧
    (∀ mid' x, mid' ≠ mid → world_view (process g') mid' x = world_view (process g) mid' x) ∧
    (∀ x, 0 ≤ x < size → world_view (process g') mid x =
       Some (if has_flag flags UMMAP_NO_FIRST_READ then 0 else content d (off + x))) ∧
    w_mappings (process g') = <[mid := mkMapObj m did]> (w_mappings (process g)) ∧
    baseAddress m = base ∧ m_size m = size ∧ segmentSize m = ss ∧ storageOffset m = off ∧
    protection m = prot ∧ localPolicy m = l ∧ globalPolicy m = global ∧
    (∀ pid', pid' ≠ pid → w_policies (process g') !! pid' = w_policies (process g) !! pid') ∧
    mappingRegistry g' = mappingRegistry g ++ [mkEntry mid base (base + size)].
Proof.
  intros alloc pid Hg Hname Hone Hcan.
  destruct (createMapping_ok cpus base (process g) mid did size ss off prot flags l global alloc_l alloc_g d
    (hi_world _ Hg) Hone Hcan) as (w' & m & Hrun & Hw' & Hv & Hv' & Hmaps & Hb & Hrest).
  destruct (register_world g w' mid (mkMapObj m did) Hg Hw' (cm_mid _ _ _ _ _ _ _ _ _ _ _ Hcan)
    (cm_new _ _ _ _ _ _ _ _ _ _ _ Hcan) Hmaps) as [Hreg Hg'].
  eexists _, m. split; [|split; [exact Hg'|]].
  - unfold ummap. rewrite (named_policy_get _ _ _ Hname). cbn [mbind result_bind]. rewrite Hrun.
    cbn [mbind result_bind]. rewrite Hreg. cbn [mbind result_bind]. rewrite Hmaps, lookup_insert_eq.
    cbn. unfold getAddress. by rewrite Hb.
  - destruct Hrest as (Hsz & ? & ? & ? & ? & ? & ?). split_and!; try done. cbn. by rewrite Hb, Hsz.
Qed.

(** ** [uunmap] *)

Lemma unregister_world g (w' : World D P) mid mo :
  handler_inv g → world_inv [] w' → w_mappings (process g) !! mid = Some mo →
  (∀ mid', w_mappings w' !! mid' = None ↔ mid' = mid ∨ w_mappings (process g) !! mid' = None) →
  (∀ mid' mo', w_mappings w' !! mid' = Some mo' → ∃ mo l, w_mappings (process g) !! mid' = Some mo ∧
     mo_mapping mo' = set_segmentStatus (mo_mapping mo) l) →
  handler_inv (mkHandler (filter (λ e, re_mapping e ≠ mid) (mappingRegistry g)) (policyRegistry g) w').
Proof.
  intros [Hw Hr He] Hw' Hmo Hdom Hmaps. split; cbn; [done|by apply registry_inv_unregister|].
  intros e. rewrite list_elem_of_filter, He. split.
  - intros [Hne (mo1 & Hmo1 & Hb & Hend)].
    destruct (w_mappings w' !! re_mapping e) as [mo2|] eqn:Hmo2.
    + exists mo2. split; [done|]. destruct (Hmaps _ _ Hmo2) as (mo3 & l & Hmo3 & ->).
      assert (mo3 = mo1) as -> by congruence. done.
    + apply Hdom in Hmo2 as [?|?]; [done|congruence].
  - intros (mo2 & Hmo2 & Hb & Hend). split.
    + intros E. assert (w_mappings w' !! re_mapping e = None) by (apply Hdom; by left). congruence.
    + destruct (Hmaps _ _ Hmo2) as (mo3 & l & Hmo3 & E). exists mo3. rewrite E in Hb, Hend. done.
Qed.

(** The flush of the whole mapping that [sync] asks for. *)
Definition sync_mapping (sync : bool) (w : World D P) (mid : Z) (mo : MapObj) : result (World D P) :=
  if sync
  then on_mapping w mid mo (λ m v d, Mapping.flush m v d 0 (getAlignedSize m) UMMAP_FLUSH_SYNC)
  else Ok w.

(** Every byte of the mapping that was ever read or written is in the storage. *)
Definition durable (m : Mapping) (v : vm) (d d' : D) : Prop :=
  ∀ x, 0 ≤ x < m_size m →
    needRead (status_at m (x / segmentSize m)) || dirty (status_at m (x / segmentSize m)) = true →
    content d' (storageOffset m + x) = view m v d x.

Lemma sync_run g mid mo d sync :
  let w := process g in let m := mo_mapping mo in
  handler_inv g → w_mappings w !! mid = Some mo → w_drivers w !! mo_driver mo = Some d →
  ∃ w1 d1 l, sync_mapping sync w mid mo = Ok w1 ∧ world_inv [] w1 ∧
    (∀ mid' x, world_view w1 mid' x = world_view w mid' x) ∧
    w_mappings w1 = <[mid := mkMapObj (set_segmentStatus m l) (mo_driver mo)]> (w_mappings w) ∧
    w_drivers w1 = <[mo_driver mo := d1]> (w_drivers w) ∧ w_policies w1 = w_policies w ∧
    if sync then durable m (w_vm w) d d1 else d1 = d.
Proof.
  intros w m Hg Hmo Hd. destruct (wo_mapping _ _ (hi_world _ Hg) mid mo Hmo) as [(d0 & Hd0 & Hinv) _].
  assert (d0 = d) as -> by (unfold w in Hd; congruence). fold m in Hinv. pose proof (mi_geom _ _ _ Hinv) as Hgeo.
  pose proof (wg_segments _ Hgeo). pose proof (wg_size _ Hgeo). unfold sync_mapping. destruct sync.
  - destruct (flush_ok m (w_vm w) d Hinv 0 (segments m) UMMAP_FLUSH_SYNC) as (m' & v' & d' & Hrun & Hk & Hst & _);
      [lia..|]. rewrite Z.mul_0_l in Hrun. rewrite <- (aligned_size m Hgeo) in Hrun.
    assert (Hfl : ∀ i, 0 ≤ i < segments m → flushed_status false (status_at m i) (status_at m' i)).
    { intros i Hi. specialize (Hst i Hi). by rewrite decide_True in Hst by lia. }
    destruct (on_mapping_keeps g mid mo d m' v' d' Hg Hmo Hd Hk) as [Hg' Hview].
    { intros i Hi Hm. destruct (Hfl i Hi) as (_ & Hst' & _). rewrite Hst' in Hm.
      by apply andb_true_iff in Hm as [? _]. }
    destruct (k_const _ _ _ _ _ _ _ Hk) as [l Hl].
    exists (set_mapping w mid mo m' v' d'), d', l. split.
    { unfold on_mapping. rewrite Hd. cbn [deref mbind result_bind]. fold m. by rewrite Hrun. }
    split; [apply Hg'|]. split; [exact Hview|]. split; [by rewrite <- Hl|]. do 2 (split; [done|]).
    intros x Hx Hnr. assert (Hid : 0 ≤ x / segmentSize m < segments m) by (apply segment_lt; [done|lia]).
    destruct (Hfl _ Hid) as (Hcl & _ & Hnr'). rewrite Hnr in Hnr'.
    rewrite <- (k_view _ _ _ _ _ _ _ Hk x Hx). pose proof (k_inv _ _ _ _ _ _ _ Hk) as Hi'. subst m'.
    rewrite (clean_view _ v' d' x Hi' Hx Hcl). unfold backing. cbn in *. by rewrite Hnr'.
  - exists w, d, (segmentStatus m). split; [done|]. split; [apply Hg|]. split; [done|].
    split; [|split; [by rewrite insert_id|done]]. rewrite insert_id; [done|]. rewrite Hmo. f_equal.
    subst m. by destruct mo as [[]].
Qed.

Lemma uunmap_run fuel g mid mo d ptr sync :
  let m := mo_mapping mo in let w := process g in
  handler_inv g → w_mappings w !! mid = Some mo → w_drivers w !! mo_driver mo = Some d →
  baseAddress m ≤ ptr < baseAddress m + m_size m →
  (policy_of m ≠ 0 → ∃ p, w_policies w !! policy_of m = Some p ∧ policyQuota (pol_base p) = 0) →
  ∃ w' d', uunmap fuel g ptr sync =
      Ok (mkHandler (filter (λ e, re_mapping e ≠ mid) (mappingRegistry g)) (policyRegistry g) w') ∧
    handler_inv (mkHandler (filter (λ e, re_mapping e ≠ mid) (mappingRegistry g)) (policyRegistry g) w') ∧
    (∀ mid' x, mid' ≠ mid → world_view w' mid' x = world_view w mid' x) ∧
    w_mappings w' = delete mid (w_mappings w) ∧
    w_drivers w' = (if hasAutoclean (driver_base d') then delete (mo_driver mo) (w_drivers w)
                    else <[mo_driver mo := d']> (w_drivers w)) ∧
    (∀ a, baseAddress m ≤ a < baseAddress m + segments m * segmentSize m → vm_prot (w_vm w') a = None) ∧
    (∀ pid, pid ≠ policy_of m → w_policies w' !! pid = w_policies w !! pid) ∧
    (localPolicy m ≠ 0 → w_policies w' !! localPolicy m = None) ∧
    if sync then durable m (w_vm w) d d' else d' = d.
Proof.
  intros m w Hg Hmo Hd Hptr Hpol. destruct (findMapping_ok g mid mo ptr Hg Hmo Hptr) as (_ & Hmid & Hfind).
  destruct (sync_run g mid mo d sync Hg Hmo Hd) as (w1 & d1 & l & Hsync & Hw1 & Hv1 & Hm1 & Hd1 & Hp1 & Hdur).
  fold m w in Hm1, Hd1, Hdur, Hv1, Hp1.
  destruct (destroyMapping_ok fuel w1 mid (mkMapObj (set_segmentStatus m l) (mo_driver mo)) d1 Hw1)
    as (w' & Hrun & Hw' & Hv & Hmaps & Hdrv & Hprot & Hpols & Hlocal & _).
  { by rewrite Hm1, lookup_insert_eq. }
  { by rewrite Hd1, lookup_insert_eq. }
  { cbn. by rewrite Hp1. }
  cbn in Hprot, Hpols, Hlocal, Hdrv. rewrite Hm1, delete_insert_eq in Hmaps. rewrite Hd1 in Hdrv. rewrite Hp1 in Hpols.
  exists w', d1. split.
  { unfold uunmap. rewrite Hfind. cbn [mbind result_bind]. unfold unregisterMapping.
    rewrite (unregister_ok _ _ (hi_registry _ Hg) Hmid). cbn [mbind result_bind].
    fold (sync_mapping sync w mid mo). cbn [process]. fold (sync_mapping sync (process g) mid mo).
    rewrite Hsync. cbn [mbind result_bind]. by rewrite Hrun. }
  split.
  { eapply unregister_world; [done|done|done| |].
    - intros mid'. rewrite Hmaps, lookup_delete_None. fold w. naive_solver.
    - intros mid' mo'. rewrite Hmaps, lookup_delete_Some. intros [_ Hmo']. exists mo', (segmentStatus (mo_mapping mo')).
      split; [done|]. by destruct (mo_mapping mo'). }
  split; [intros mid' x Hne; by rewrite Hv|]. split; [done|]. split; [|done].
  rewrite Hdrv. destruct (hasAutoclean _); [by rewrite delete_insert_eq|done].
Qed.

(** ** Faults and accesses *)

(** A segment of a mapping without a policy is tracked by nobody. *)
Lemma pending_untracked (w : World D P) mid mo id :
  world_inv [(mid, id)] w → w_mappings w !! mid = Some mo → policy_of (mo_mapping mo) = 0 →
  world_inv [] w.
Proof.
  intros Hw Hmo Hpol. eapply world_inv_mono; [exact Hw|].
  intros mid' i [= -> ->]%list_elem_of_singleton. right. eauto.
Qed.

Lemma fault_step fuel got w mid mo x isWrite :
  let m := mo_mapping mo in
  world_inv [] w → w_mappings w !! mid = Some mo → policy_fits fuel w m →
  0 ≤ x < m_size m → fresh_temp m got →
  (∀ mid' mo', w_mappings w !! mid' = Some mo' → outside (mo_mapping mo') (temp_area m got)) →
  protection m ≠ PROT_NONE_bits → (isWrite = true → p_write (protection m) = true) →
  permitted (w_vm w) isWrite (baseAddress m + x) = false →
  handleFault fuel got w mid (baseAddress m + x) isWrite = Err tooMany ∨
  ∃ w', handleFault fuel got w mid (baseAddress m + x) isWrite = Ok w' ∧
    world_inv [] w' ∧ (∀ mid' y, world_view w' mid' y = world_view w mid' y) ∧
    permitted (w_vm w') isWrite (baseAddress m + x) = true ∧ keep_mappings w w'.
Proof.
  intros m Hw Hmo Hfit Hx Hgot HT Hprot Hwr Hacc. destruct (decide (policy_of m = 0)) as [Hpol|Hpol].
  - right. destruct (wo_mapping _ _ Hw mid mo Hmo) as [(d & Hd & Hinv) Hone]. fold m in Hinv, Hone.
    destruct (fault_opens m (w_vm w) d got x isWrite Hinv Hx Hgot Hprot Hwr Hacc)
      as (m1 & v1 & Hrun & Hk & Hperm & Hst & Hother).
    destruct (k_const _ _ _ _ _ _ _ Hk) as [l1 Hm1].
    exists (set_mapping w mid mo m1 v1 d). split; [|split; [|split; [|split; [done|]]]].
    + unfold handleFault. rewrite Hmo. cbn [deref mbind result_bind]. rewrite Hd.
      cbn [deref mbind result_bind]. fold m. rewrite Hrun. cbn [mbind result_bind].
      unfold policy_of in Hpol. destruct (Z.eqb_spec (localPolicy m) 0) as [|]; [|done].
      cbn [negb mbind result_bind]. by rewrite Hpol.
    + apply (pending_untracked _ mid (mkMapObj m1 (mo_driver mo)) (x / segmentSize m));
        [|cbn; by rewrite lookup_insert_eq|by subst m1].
      eapply (step_inv []); eauto; [|intros ? ? ? []%elem_of_nil].
      intros i Hi Hm. fold m in Hi |- *. destruct (decide (i = x / segmentSize m)) as [->|Hne]; [right; left|left].
      rewrite Hother in Hm by done. split; [done|]. by apply not_elem_of_nil.
    + intros. eapply (step_view []); eauto.
    + by eapply set_mapping_keep.
  - destruct (Hfit Hpol) as (p & Hp & Hlim & Hq & Hf).
    destruct (handleFault_ok fuel got w mid mo p x isWrite) as
      [Herr|(w' & p' & Hrun & Hw' & Hv' & Hperm & Hkeep & _)]; try done; [by left|right].
    by exists w'.
Qed.

(** An access of the program: the instruction, and the fault handler before it if the
    page protection refuses it. *)
Definition access (fuel : nat) (got : option Z) (g : G) (addr : Z) (isWrite : bool) : result G :=
  if permitted (w_vm (process g)) isWrite addr then Ok g
  else
    '(ours, g') ← onSegFault fuel got g addr isWrite;
    assume ours "Segmentation fault";;
    if permitted (w_vm (process g')) isWrite addr then Ok g' else Err OutOfFuel.

(** What the program and the kernel respect when they access byte [x] of [mid]. *)
Definition legal_access (fuel : nat) (got : option Z) (g : G) (mid x : Z) (isWrite : bool) : Prop :=
  ∃ mo, w_mappings (process g) !! mid = Some mo ∧
    let m := mo_mapping mo in
    policy_fits fuel (process g) m ∧ 0 ≤ x < m_size m ∧ fresh_temp m got ∧
    (∀ mid' mo', w_mappings (process g) !! mid' = Some mo' → outside (mo_mapping mo') (temp_area m got)) ∧
    protection m ≠ PROT_NONE_bits ∧ (isWrite = true → p_write (protection m) = true).

Definition byte_address (g : G) (mid x : Z) : result Z :=
  mo ← deref (w_mappings (process g) !! mid); Ok (baseAddress (mo_mapping mo) + x).

Lemma access_ok fuel got g mid x isWrite :
  handler_inv g → legal_access fuel got g mid x isWrite →
  ∃ a, byte_address g mid x = Ok a ∧
    (access fuel got g a isWrite = Err tooMany ∨
     ∃ g', access fuel got g a isWrite = Ok g' ∧ handler_inv g' ∧
       (∀ mid' y, world_view (process g') mid' y = world_view (process g) mid' y) ∧
       permitted (w_vm (process g')) isWrite a = true ∧ byte_address g' mid x = Ok a).
Proof.
  intros Hg (mo & Hmo & Hfit & Hx & Hgot & HT & Hprot & Hwr). cbv zeta in *. set (m := mo_mapping mo) in *.
  exists (baseAddress m + x). unfold byte_address. rewrite Hmo. split; [done|]. unfold access.
  destruct (permitted (w_vm (process g)) isWrite (baseAddress m + x)) eqn:Hperm.
  { right. exists g. rewrite Hmo. done. }
  destruct (wo_mapping _ _ (hi_world _ Hg) mid mo Hmo) as [(d & _ & Hinv) _].
  destruct (findMapping_ok g mid mo (baseAddress m + x) Hg Hmo ltac:(fold m; lia)) as (Hfind & Hmid & _).
  unfold onSegFault. rewrite Hfind. cbn [mbind result_bind]. apply Z.eqb_neq in Hmid. rewrite Hmid.
  destruct (fault_step fuel got (process g) mid mo x isWrite (hi_world _ Hg) Hmo Hfit Hx Hgot HT Hprot Hwr Hperm)
    as [Herr|(w' & Hrun & Hw' & Hv' & Hperm' & Hkeep)]; [fold m in Herr|fold m in Hrun, Hperm'].
  - left. by rewrite Herr.
  - right. rewrite Hrun. cbn [mbind result_bind assume]. cbn [set_process process]. rewrite Hperm'.
    exists (set_process g w'). split; [done|]. split; [by apply set_process_inv|].
    split; [done|]. split; [done|]. destruct (Hkeep mid mo Hmo) as [l Hl]. cbn. by rewrite Hl.
Qed.

(** A byte the program may read is the byte of the view. *)
Lemma readable_view g mid x a :
  handler_inv g → byte_address g mid x = Ok a → permitted (w_vm (process g)) false a = true →
  (∃ mo, w_mappings (process g) !! mid = Some mo ∧ 0 ≤ x < m_size (mo_mapping mo)) →
  world_view (process g) mid x = Some (vm_mem (w_vm (process g)) a).
Proof.
  intros Hg Ha Hperm (mo & Hmo & Hx). unfold byte_address in Ha. rewrite Hmo in Ha. cbn in Ha.
  injection Ha as <-. destruct (wo_mapping _ _ (hi_world _ Hg) mid mo Hmo) as [(d & Hd & Hinv) _].
  pose proof (wg_size _ (mi_geom _ _ _ Hinv)). unfold world_view. rewrite Hmo. cbn. rewrite Hd. cbn.
  rewrite decide_True by done. f_equal. apply permitted_view; [done|lia|done].
Qed.

(** ** Events *)

(** What happens in a session.  The addresses a constructor or the kernel returns are
    part of the event; [EvPolicy] and [EvDriver] are the construction of the objects. *)
Inductive event : Type :=
  | EvPolicy (pid : Z) (h' : heap) (p : P)
  | EvRegister (name : string) (pid : Z)
  | EvDriver (did : Z) (d : D)
  | EvMap (cpus base : Z) (bytes : Z → Z) (size ss off : Z) (prot : prot) (flags did l : Z)
      (policyGroup : string) (mid : Z) (alloc_l alloc_g : Z * Z)
  | EvLoad (fuel : nat) (got : option Z) (mid x : Z)
  | EvStore (fuel : nat) (got : option Z) (mid x b : Z)
  | EvFlush (mid lo n size : Z) (evict sync : bool)
  | EvDirty (mid x : Z)
  | EvUnmap (fuel : nat) (mid x : Z) (sync : bool).

(** The bytes the program loads, and the state. *)
Definition run_event (s : list Z * G) (ev : event) : result (list Z * G) :=
  let '(out, g) := s in
  match ev with
  | EvPolicy pid h' p => Ok (out, set_process g (set_policy (process g) h' pid p))
  | EvRegister name pid => g' ← registerPolicy g name pid; Ok (out, g')
  | EvDriver did d =>
      let w := process g in
      Ok (out, set_process g (mkWorld (w_heap w) (w_vm w) (w_mappings w) (<[did := d]> (w_drivers w))
                                (w_policies w) (w_quotas w)))
  | EvMap cpus base _ size ss off prot flags did l group mid alloc_l alloc_g =>
      '(_, g') ← ummap cpus (Some base) g 0 size ss off prot flags did l group mid alloc_l alloc_g;
      Ok (out, g')
  | EvLoad fuel got mid x =>
      a ← byte_address g mid x;
      g' ← access fuel got g a false;
      Ok (out ++ [vm_mem (w_vm (process g')) a], g')
  | EvStore fuel got mid x b =>
      a ← byte_address g mid x;
      g' ← access fuel got g a true;
      Ok (out, set_process g' (poke_world (process g') a b))
  | EvFlush mid lo n size evict sync =>
      mo ← deref (w_mappings (process g) !! mid);
      g' ← flush g (baseAddress (mo_mapping mo) + lo * segmentSize (mo_mapping mo)) size evict sync;
      Ok (out, g')
  | EvDirty mid x => a ← byte_address g mid x; g' ← makeDirty g a; Ok (out, g')
  | EvUnmap fuel mid x sync => a ← byte_address g mid x; g' ← uunmap fuel g a sync; Ok (out, g')
  end.

(** The specification: an array of bytes per live mapping. *)
Definition spec_event (s : list Z * (Z → Z → option Z)) (ev : event) : list Z * (Z → Z → option Z) :=
  let '(out, a) := s in
  match ev with
  | EvMap _ _ bytes size _ off _ flags _ _ _ mid _ _ =>
      (out, λ mid' x, if decide (mid' = mid)
                      then if decide (0 ≤ x < size)
                           then Some (if has_flag flags UMMAP_NO_FIRST_READ then 0 else bytes (off + x))
                           else None
                      else a mid' x)
  | EvLoad _ _ mid x => (out ++ [default 0 (a mid x)], a)
  | EvStore _ _ mid x b => (out, λ mid' y, if decide (mid' = mid ∧ y = x) then Some b else a mid' y)
  | EvUnmap _ mid _ _ => (out, λ mid' x, if decide (mid' = mid) then None else a mid' x)
  | _ => (out, a)
  end.

(** A policy fresh from its constructor, at an address no mapping refers to. *)
Definition new_policy (w : World D P) (pid : Z) (h' : heap) (p : P) : Prop :=
  pid ≠ 0 ∧ w_policies w !! pid = None ∧ storageRegistry (pol_base p) = [] ∧
  (∀ gs, pol_inv gs h' p []) ∧ (∀ x, x ∉ own p → h' !! x = w_heap w !! x) ∧
  (∀ pid' p' x, w_policies w !! pid' = Some p' → x ∈ own p' → x ∉ own p) ∧
  ∀ mid mo, w_mappings w !! mid = Some mo → policy_of (mo_mapping mo) ≠ pid.

Lemma new_policy_inv (w : World D P) pid h' p :
  world_inv [] w → new_policy w pid h' p → world_inv [] (set_policy w h' pid p).
Proof.
  intros Hw (Hpid & Hnone & Hreg & Hinv & Hfr & Hown & Hno). split; [apply Hw|apply Hw|apply Hw| |]; cbn.
  - intros pid1 p1. rewrite lookup_insert_Some. intros [[<- <-]|[Hne Hp1]].
    + split; [done|]. split; [split|].
      * intros st. rewrite Hreg. by intros ?%elem_of_nil.
      * intros mid mo Hmo Hpo. by destruct (Hno mid mo).
      * exists []. split; [apply Hinv|]. intros mid mo i Hmo Hpo. by destruct (Hno mid mo).
    + destruct (wo_policy _ _ Hw pid1 p1 Hp1) as (Hpid1 & Hr & l & Hl & Hc). split; [done|]. split; [done|].
      exists l. split; [|done]. eapply pol_frame; [exact Hl|]. intros x Hx. apply Hfr. by apply (Hown pid1 p1).
  - intros pid1 pid2 p1 p2 x. rewrite !lookup_insert_Some.
    intros [[<- <-]|[Hn1 H1']] [[<- <-]|[Hn2 H2']] Hne Hx; try done.
    + intros Hx2. by apply (Hown pid2 p2 x).
    + by apply (Hown pid1 p1 x).
    + by eapply (wo_own _ _ Hw pid1 pid2).
Qed.

Lemma new_driver_inv (w : World D P) did d :
  world_inv [] w → (∀ mid mo, w_mappings w !! mid = Some mo → mo_driver mo ≠ did) →
  let w' := mkWorld (w_heap w) (w_vm w) (w_mappings w) (<[did := d]> (w_drivers w)) (w_policies w) (w_quotas w) in
  world_inv [] w' ∧ ∀ mid x, world_view w' mid x = world_view w mid x.
Proof.
  intros [H1' H2' H3' H4' H5'] Hfree w'. split.
  - split; [|done..]. intros mid mo Hmo. destruct (H1' mid mo Hmo) as [(d' & Hd' & Hi) Ho].
    split; [|done]. exists d'. split; [|done]. cbn. rewrite lookup_insert_ne; [done|].
    intros E. by apply (Hfree mid mo Hmo).
  - intros mid x. unfold world_view. cbn. destruct (w_mappings w !! mid) as [mo|] eqn:Hmo; [|done]. cbn.
    rewrite lookup_insert_ne; [done|]. intros E. by apply (Hfree mid mo Hmo).
Qed.

(** What the program, the kernel and the allocator respect. *)
Definition legal_event (g : G) (ev : event) : Prop :=
  let w := process g in
  match ev with
  | EvPolicy pid h' p => new_policy w pid h' p
  | EvRegister name pid => name ≠ "" ∧ policyRegistry g !! name = None
  | EvDriver did d => ∀ mid mo, w_mappings w !! mid = Some mo → mo_driver mo ≠ did
  | EvMap cpus base bytes size ss off prot flags did l group mid alloc_l alloc_g =>
      ∃ global d, named_policy g group global ∧ (l = 0 ∨ global = 0) ∧
        can_map w cpus base mid did size ss off (if l =? 0 then global else l)
          (fst (if l =? 0 then alloc_g else alloc_l)) d ∧
        ∀ x, 0 ≤ x < size → content d (off + x) = bytes (off + x)
  | EvLoad fuel got mid x => legal_access fuel got g mid x false
  | EvStore fuel got mid x b => legal_access fuel got g mid x true
  | EvFlush mid lo n size evict sync => ∃ mo, w_mappings w !! mid = Some mo ∧
      0 ≤ lo < segments (mo_mapping mo) ∧ 0 < n ∧ lo + n ≤ segments (mo_mapping mo) ∧
      (size = n * segmentSize (mo_mapping mo) ∨ size = 0 ∧ lo + n = segments (mo_mapping mo))
  | EvDirty mid x => ∃ mo, w_mappings w !! mid = Some mo ∧ 0 ≤ x < m_size (mo_mapping mo)
  | EvUnmap fuel mid x sync => ∃ mo, w_mappings w !! mid = Some mo ∧ 0 ≤ x < m_size (mo_mapping mo) ∧
      (policy_of (mo_mapping mo) ≠ 0 → ∃ p, w_policies w !! policy_of (mo_mapping mo) = Some p ∧
         policyQuota (pol_base p) = 0)
  end.

(** The state of the library stands for the arrays. *)
Definition session_rel (s : list Z * G) (t : list Z * (Z → Z → option Z)) : Prop :=
  fst s = fst t ∧ handler_inv (snd s) ∧ ∀ mid x, world_view (process (snd s)) mid x = snd t mid x.

Lemma view_domain g mid mo x :
  handler_inv g → w_mappings (process g) !! mid = Some mo →
  is_Some (world_view (process g) mid x) ↔ 0 ≤ x < m_size (mo_mapping mo).
Proof.
  intros Hg Hmo. destruct (wo_mapping _ _ (hi_world _ Hg) mid mo Hmo) as [(d & Hd & _) _].
  unfold world_view. rewrite Hmo. cbn. rewrite Hd. cbn. case_decide; by split.
Qed.

Lemma run_access_event out g a ev fuel got mid x isWrite :
  ev = EvLoad fuel got mid x ∧ isWrite = false ∨ (∃ b, ev = EvStore fuel got mid x b) ∧ isWrite = true →
  session_rel (out, g) (out, a) → legal_access fuel got g mid x isWrite →
  run_event (out, g) ev = Err tooMany ∨
  ∃ s, run_event (out, g) ev = Ok s ∧ session_rel s (spec_event (out, a) ev).
Proof.
  intros Hev (_ & Hg & Ha) Hacc. cbn in Hg, Ha.
  destruct (access_ok fuel got g mid x isWrite Hg Hacc) as (addr & Haddr & [Herr|(g' & Hrun & Hg' & Hv & Hperm & Haddr')]).
  { left. destruct Hev as [[-> ->]|[[b ->] ->]]; cbn [run_event]; rewrite Haddr; cbn [mbind result_bind];
      by rewrite Herr. }
  right. destruct Hacc as (mo & Hmo & _ & Hx & _).
  assert (∃ mo', w_mappings (process g') !! mid = Some mo') as [mo' Hmo'].
  { unfold byte_address in Haddr'. destruct (w_mappings (process g') !! mid) as [mo'|]; [by exists mo'|done]. }
  assert (Hx' : 0 ≤ x < m_size (mo_mapping mo')).
  { apply (view_domain g' mid mo' x Hg' Hmo'). rewrite Hv. by apply (view_domain g mid mo x Hg Hmo). }
  destruct Hev as [[-> ->]|[[b ->] ->]]; cbn [run_event]; rewrite Haddr; cbn [mbind result_bind];
    rewrite Hrun; cbn [mbind result_bind].
  - eexists. split; [done|]. split; [|split; [done|intros; cbn; by rewrite Hv]]. cbn. do 2 f_equal.
    rewrite <- Ha, <- Hv, (readable_view g' mid x addr Hg' Haddr' Hperm); [done|]. by exists mo'.
  - eexists. split; [done|]. split; [done|]. cbn.
    assert (addr = baseAddress (mo_mapping mo') + x) as ->.
    { unfold byte_address in Haddr'. rewrite Hmo' in Haddr'. cbn in Haddr'. congruence. }
    destruct (poke_world_ok [] (process g') mid mo' x b (hi_world _ Hg') Hmo' Hx' Hperm) as [Hw Hview].
    split; [|intros mid' y; by rewrite Hview, Hv, Ha].
    split; [exact Hw|apply Hg'|exact (hi_entries _ Hg')].
Qed.

(** The events of the library itself, which never fail. *)
Definition program_access (ev : event) : bool :=
  match ev with EvLoad _ _ _ _ | EvStore _ _ _ _ _ => true | _ => false end.

Lemma run_map_event out g a cpus base bytes size ss off prot flags did l group mid alloc_l alloc_g :
  let ev := EvMap cpus base bytes size ss off prot flags did l group mid alloc_l alloc_g in
  session_rel (out, g) (out, a) → legal_event g ev →
  ∃ s, run_event (out, g) ev = Ok s ∧ session_rel s (spec_event (out, a) ev).
Proof.
  intros ev (_ & Hg & Ha) (global & d & Hname & Hone & Hcan & Hbytes). cbn in Hg, Ha.
  destruct (ummap_run cpus base g 0 size ss off prot flags did l group global mid alloc_l alloc_g d
    Hg Hname Hone Hcan) as (g' & m & Hrun & Hg' & Hv & Hv' & Hmaps & _ & Hsz & _).
  exists (out, g'). cbn [run_event ev]. rewrite Hrun. split; [done|]. split; [done|]. split; [done|].
  cbn. intros mid' x. destruct (decide (mid' = mid)) as [->|Hne]; [|by rewrite Hv].
  assert (Hmo : w_mappings (process g') !! mid = Some (mkMapObj m did)) by (by rewrite Hmaps, lookup_insert_eq).
  pose proof (view_domain g' mid _ x Hg' Hmo) as Hdom. cbn in Hdom. rewrite Hsz in Hdom.
  case_decide as Hx; [rewrite Hv' by done; by rewrite Hbytes|].
  destruct (world_view (process g') mid x) eqn:E; [|done]. destruct Hx. apply Hdom. by eexists.
Qed.

Lemma run_flush_event out g a mid lo n size evict sync :
  let ev := EvFlush mid lo n size evict sync in
  session_rel (out, g) (out, a) → legal_event g ev →
  ∃ s, run_event (out, g) ev = Ok s ∧ session_rel s (spec_event (out, a) ev).
Proof.
  intros ev (_ & Hg & Ha) (mo & Hmo & Hlo & Hn & Hhi & Hsize). cbn in Hg, Ha.
  destruct (wo_mapping _ _ (hi_world _ Hg) mid mo Hmo) as [(d & Hd & _) _].
  destruct (flush_run g mid mo d lo n size evict sync Hg Hmo Hd Hlo Hn Hhi Hsize) as (m' & v' & d' & Hrun & Hk & Hst).
  destruct (on_mapping_keeps g mid mo d m' v' d' Hg Hmo Hd Hk) as [Hg' Hview].
  { intros i Hi Hm. specialize (Hst i Hi). case_decide; [|by rewrite Hst in Hm].
    destruct Hst as (_ & Hst & _). rewrite Hst in Hm. by apply andb_true_iff in Hm as [? _]. }
  eexists. cbn [run_event ev]. rewrite Hmo. cbn [deref mbind result_bind]. rewrite Hrun. split; [done|].
  split; [done|]. split; [done|]. intros mid' x. cbn. by rewrite Hview.
Qed.

Lemma run_dirty_event out g a mid x :
  let ev := EvDirty mid x in
  session_rel (out, g) (out, a) → legal_event g ev →
  ∃ s, run_event (out, g) ev = Ok s ∧ session_rel s (spec_event (out, a) ev).
Proof.
  intros ev (_ & Hg & Ha) (mo & Hmo & Hx). cbn in Hg, Ha.
  destruct (wo_mapping _ _ (hi_world _ Hg) mid mo Hmo) as [(d & Hd & Hinv) _].
  destruct (markCleanAsDirty_ok (mo_mapping mo) (w_vm (process g)) d Hinv) as (m' & v' & Hrun & Hk & Hst).
  destruct (on_mapping_keeps g mid mo d m' v' d Hg Hmo Hd Hk) as [Hg' Hview].
  { intros i Hi Hm. rewrite Hst in Hm by done. unfold mark_status in Hm.
    destruct (mapped (status_at (mo_mapping mo) i)) eqn:E; [done|]. cbn in Hm. congruence. }
  destruct (findMapping_ok g mid mo (baseAddress (mo_mapping mo) + x) Hg Hmo ltac:(lia)) as (_ & _ & Hfind).
  eexists. cbn [run_event ev]. unfold byte_address. rewrite Hmo. cbn [deref mbind result_bind].
  unfold makeDirty. rewrite Hfind. cbn [mbind result_bind]. unfold on_mapping. rewrite Hd.
  cbn [deref mbind result_bind]. rewrite Hrun. cbn [mbind result_bind]. split; [done|].
  split; [done|]. split; [done|]. intros mid' y. cbn. by rewrite Hview.
Qed.

Lemma run_unmap_event out g a fuel mid x sync :
  let ev := EvUnmap fuel mid x sync in
  session_rel (out, g) (out, a) → legal_event g ev →
  ∃ s, run_event (out, g) ev = Ok s ∧ session_rel s (spec_event (out, a) ev).
Proof.
  intros ev (_ & Hg & Ha) (mo & Hmo & Hx & Hpol). cbn in Hg, Ha.
  destruct (wo_mapping _ _ (hi_world _ Hg) mid mo Hmo) as [(d & Hd & _) _].
  destruct (uunmap_run fuel g mid mo d (baseAddress (mo_mapping mo) + x) sync Hg Hmo Hd ltac:(lia) Hpol)
    as (w' & d' & Hrun & Hg' & Hv & Hmaps & _).
  eexists. cbn [run_event ev]. unfold byte_address. rewrite Hmo. cbn [deref mbind result_bind].
  rewrite Hrun. split; [done|]. split; [done|]. split; [done|]. intros mid' y. cbn.
  case_decide as E; [|by rewrite Hv]. subst mid'. unfold world_view. by rewrite Hmaps, lookup_delete_eq.
Qed.

Lemma run_event_ok out g a ev :
  session_rel (out, g) (out, a) → legal_event g ev →
  program_access ev = true ∧ run_event (out, g) ev = Err tooMany ∨
  ∃ s, run_event (out, g) ev = Ok s ∧ session_rel s (spec_event (out, a) ev).
Proof.
  intros Hrel Hev. pose proof Hrel as (_ & Hg & Ha). cbn in Hg, Ha.
  destruct ev as [pid h' p|name pid|did d| |fuel got mid x|fuel got mid x b| | |];
    [right|right|right|right; by apply run_map_event| | |right; by apply run_flush_event
    |right; by apply run_dirty_event|right; by apply run_unmap_event].
  - eexists. split; [done|]. split; [done|]. split; [|done].
    split; [by apply new_policy_inv, Hev; apply Hg|apply Hg|apply Hg].
  - destruct Hev as [Hne Hfree]. eexists. cbn [run_event]. unfold registerPolicy, Registry.registerPolicy.
    rewrite (bool_decide_eq_false_2 (name = "")) by done. rewrite bool_decide_eq_true_2 by exact Hfree.
    split; [reflexivity|].
    split; [done|]. split; [|done]. split; apply Hg.
  - destruct (new_driver_inv (process g) did d (hi_world _ Hg) Hev) as [Hw Hview].
    eexists. split; [done|]. split; [done|]. split; [split; [exact Hw|apply Hg|apply Hg]|].
    intros mid x. cbn. by rewrite Hview.
  - destruct (run_access_event out g a (EvLoad fuel got mid x) fuel got mid x false); auto.
  - destruct (run_access_event out g a (EvStore fuel got mid x b) fuel got mid x true); eauto.
Qed.

(** ** Sessions *)

(** Each event is legal in the state the ones before it lead to. *)
Fixpoint legal_session (s : list Z * G) (evs : list event) : Prop :=
  match evs with
  | [] => True
  | ev :: evs' => legal_event (snd s) ev ∧ ∀ s', run_event s ev = Ok s' → legal_session s' evs'
  end.

Lemma run_session_ok evs s t :
  session_rel s t → legal_session s evs →
  foldM run_event s evs = Err tooMany ∨
  ∃ s', foldM run_event s evs = Ok s' ∧ session_rel s' (foldl spec_event t evs).
Proof.
  revert s t. induction evs as [|ev evs IH]; intros [out g] [out' a] Hrel Hleg; [right; by eexists|].
  destruct Hleg as [Hev Hleg]. pose proof Hrel as [E _]. cbn in E. subst out'. cbn [foldM foldl].
  destruct (run_event_ok out g a ev Hrel Hev) as [[_ ->]|(s' & Hrun & Hrel')]; [by left|].
  rewrite Hrun. cbn [mbind result_bind]. by apply IH, Hleg.
Qed.

Lemma legal_session_take n s evs : legal_session s evs → legal_session s (take n evs).
Proof.
  revert s evs. induction n as [|n IH]; intros s [|ev evs]; try done. intros [Hev Hevs].
  split; [done|]. intros s' Hs'. by apply IH, Hevs.
Qed.
End Handler.
Arguments event : clear implicits.

(** ** The properties *)

Section Theorems.
Context {D P : Type} `{StorageDriver D} `{TrackingPolicy P}.
Abbreviation G := (GlobalHandler D P).

(** C10: [ummap] of a free range shows the storage.  It returns the address the kernel
    chose, keeps the invariant of the library, changes nothing in the other mappings,
    and from then on the program sees the bytes of the storage from [off] on (zeroes
    with [UMMAP_NO_FIRST_READ]); every address of the range, and no other new one,
    leads to the mapping. *)
Theorem ummap_shows_storage cpus base (g : G) addr size ss off prot flags did l group global mid
    alloc_l alloc_g d :
  handler_inv g → named_policy g group global → l = 0 ∨ global = 0 →
  can_map (process g) cpus base mid did size ss off (if l =? 0 then global else l)
    (fst (if l =? 0 then alloc_g else alloc_l)) d →
  ∃ g', ummap cpus (Some base) g addr size ss off prot flags did l group mid alloc_l alloc_g = Ok (base, g') ∧
    handler_inv g' ∧
    (∀ mid' x, mid' ≠ mid → world_view (process g') mid' x = world_view (process g) mid' x) ∧
    (∀ x, 0 ≤ x < size → world_view (process g') mid x =
       Some (if has_flag flags UMMAP_NO_FIRST_READ then 0 else content d (off + x))) ∧
    ∀ a, a ≠ 0 → Registry.getMapping (mappingRegistry g') a =
      if decide (base ≤ a < base + size) then Ok mid else Registry.getMapping (mappingRegistry g) a.
Proof.
  intros Hg Hname Hone Hcan.
  destruct (ummap_run cpus base g addr size ss off prot flags did l group global mid alloc_l alloc_g d
    Hg Hname Hone Hcan) as (g' & m & Hrun & Hg' & Hv & Hv' & Hmaps & Hb & Hsz & _ & _ & _ & _ & _ & _ & Hreg).
  exists g'. do 4 (split; [done|]). intros a Ha.
  assert (Hmo : w_mappings (process g') !! mid = Some (mkMapObj m did)) by (by rewrite Hmaps, lookup_insert_eq).
  case_decide as Hin.
  - destruct (findMapping_ok g' mid _ a Hg' Hmo) as (Hget & _); [cbn; by rewrite Hb, Hsz|done].
  - rewrite Hreg. by apply getMapping_register.
Qed.

(** C9: [uunmap] saves what the program wrote.  Called with any address of the mapping,
    it succeeds and keeps the invariant of the library; the other mappings show the same
    bytes; the addresses of the mapping are unmapped and no longer known to the library;
    a local policy is deleted with the mapping and the other policies stay.  With
    [sync], the driver ends up holding every byte the program saw in the segments it
    ever read or wrote; without it, the driver is left as it is, and what was only in
    memory is lost. *)
Theorem uunmap_saves_storage fuel (g : G) mid mo d ptr sync :
  let m := mo_mapping mo in
  handler_inv g → w_mappings (process g) !! mid = Some mo → w_drivers (process g) !! mo_driver mo = Some d →
  baseAddress m ≤ ptr < baseAddress m + m_size m →
  (policy_of m ≠ 0 → ∃ p, w_policies (process g) !! policy_of m = Some p ∧ policyQuota (pol_base p) = 0) →
  ∃ g' d', uunmap fuel g ptr sync = Ok g' ∧ handler_inv g' ∧
    (∀ mid' x, mid' ≠ mid → world_view (process g') mid' x = world_view (process g) mid' x) ∧
    (∀ a, baseAddress m ≤ a < baseAddress m + m_size m →
       vm_prot (w_vm (process g')) a = None ∧ Registry.getMapping (mappingRegistry g') a = Ok 0) ∧
    w_drivers (process g') !! mo_driver mo = (if hasAutoclean (driver_base d') then None else Some d') ∧
    (localPolicy m ≠ 0 → w_policies (process g') !! localPolicy m = None) ∧
    (∀ pid, pid ≠ policy_of m → w_policies (process g') !! pid = w_policies (process g) !! pid) ∧
    if sync then durable m (w_vm (process g)) d d' else d' = d.
Proof.
  intros m Hg Hmo Hd Hptr Hpol. destruct (uunmap_run fuel g mid mo d ptr sync Hg Hmo Hd Hptr Hpol)
    as (w' & d' & Hrun & Hg' & Hv & Hmaps & Hdrv & Hprot & Hpols & Hlocal & Hdur).
  destruct (wo_mapping _ _ (hi_world _ Hg) mid mo Hmo) as [(d0 & _ & Hinv) _].
  pose proof (wg_size _ (mi_geom _ _ _ Hinv)). pose proof (wg_base _ (mi_geom _ _ _ Hinv)) as (Hb & _).
  fold m in Hb, H3, Hinv. eexists _, d'. split; [exact Hrun|]. split; [exact Hg'|]. split; [exact Hv|]. split.
  - intros a Ha. split; [apply Hprot; fold m; lia|]. apply getMapping_unknown; [lia|].
    intros e [Hne He]%list_elem_of_filter Hin.
    apply (rg_disjoint _ (hi_registry _ Hg) e (mkEntry mid (baseAddress m) (baseAddress m + m_size m)) a) in Hin;
      [by subst e|done| |done].
    apply (hi_entries _ Hg). by exists mo.
  - split; [|done]. cbn. rewrite Hdrv. destruct (hasAutoclean _);
      [by rewrite lookup_delete_eq|by rewrite lookup_insert_eq].
Qed.

(** The library after [ummap_init], in an address space [v]. *)
Definition empty_handler (v : vm) : G := mkHandler [] ∅ (mkWorld ∅ v ∅ ∅ ∅ ∅).

Lemma empty_rel v : session_rel ([], empty_handler v) ([], λ _ _, None).
Proof.
  split; [done|]. split; [|done]. split; [split|split|]; cbn; try done; try apply NoDup_nil_2.
  - by intros ? ?%elem_of_nil.
  - by intros ? ? ? ?%elem_of_nil.
  - intros e. split; [by intros ?%elem_of_nil|by intros (? & ? & _)].
Qed.

(** C2: a session behaves like arrays of bytes.  Whatever a program does after
    [ummap_init] (constructions of policies and drivers, [ummap] with local, named or no
    policy, loads and stores through the fault handler and the evictions it causes,
    flushes, [ummap_make_dirty], [umunmap]), as long as each call is legal where it is
    made, no call and no access fails, but for an access whose policy would have to
    evict 128 segments or more; each load returns the byte the same sequence leaves in
    arrays that start with the contents of the drivers; and the invariant of the
    library holds at the end. *)
Theorem sessions_refine_arrays v (evs : list (event D P)) :
  legal_session ([], empty_handler v) evs →
  foldM run_event ([], empty_handler v) evs = Err tooMany ∨
  ∃ out g, foldM run_event ([], empty_handler v) evs = Ok (out, g) ∧
    out = fst (foldl spec_event ([], λ _ _, None) evs) ∧ handler_inv g ∧
    ∀ mid x, world_view (process g) mid x = snd (foldl spec_event ([], λ _ _, None) evs) mid x.
Proof.
  intros Hleg. destruct (run_session_ok evs _ _ (empty_rel v) Hleg) as [?|([out g] & Hrun & Hout & Hg & Hv)];
    [by left|right]. by exists out, g.
Qed.
End Theorems.

(** ** A concrete session

    A file of 16 bytes of value 7, mapped for 10 bytes under a local FIFO policy of one
    page: store 42 in byte 3, load bytes 3 and 4, unmap. *)
Section Demo.
Abbreviation DG := (GlobalHandler MemoryDriver AnyPolicy).

Definition small_driver : MemoryDriver := mkMemory newDriver 16 (replicate 16 7).
Definition small_fifo : heap * FifoPolicy.FifoPolicy := FifoPolicy.newFifoPolicy ∅ 100 108 4096 true.
Definition small_temp : option Z := Some 1048576.

Definition demo_session : list (event MemoryDriver AnyPolicy) :=
  [EvDriver 1 small_driver;
   EvPolicy 100 (fst small_fifo) (PFifo (snd small_fifo));
   EvMap 1 65536 (λ _, 7) 10 4096 0 (mkProt true true false) 0 1 100 "none" 7 (1024, 0) (0, 0);
   EvStore 10 small_temp 7 3 42;
   EvLoad 10 small_temp 7 3;
   EvLoad 10 small_temp 7 4;
   EvUnmap 10 7 0 true].

Definition demo_start : list Z * DG := ([], empty_handler demo_vm).
Definition demo_at (n : nat) : list Z * DG :=
  match foldM run_event demo_start (take n demo_session) with Ok s => s | Err _ => demo_start end.

Lemma legal_session_cons {D P} `{StorageDriver D} `{TrackingPolicy P} (s s' : list Z * GlobalHandler D P) ev evs :
  legal_event (snd s) ev → run_event s ev = Ok s' → legal_session s' evs → legal_session s (ev :: evs).
Proof. intros Hev Hrun Hevs. split; [done|]. intros s2 Hrun2. rewrite Hrun in Hrun2. by injection Hrun2 as <-. Qed.

Lemma demo_run n ev :
  demo_session !! n = Some ev →
  match foldM run_event demo_start (take (S n) demo_session) with Ok _ => true | Err _ => false end = true →
  run_event (demo_at n) ev = Ok (demo_at (S n)).
Proof.
  intros Hev. unfold demo_at. rewrite (take_S_r _ _ _ Hev), foldM_app.
  destruct (foldM run_event demo_start (take n demo_session)) as [s|]; [|done]. cbn [mbind result_bind foldM].
  by destruct (run_event s ev).
Qed.

(** The objects of the process while the file is mapped. *)
Definition small_map (m d r : bool) : MapObj :=
  mkMapObj (mkMapping 100 0 (mkProt true true false) 65536 1 4096 10 0 [mkStatus m d r] 0 1 true) 1.
Definition small_policy (mem : Z) : AnyPolicy :=
  PFifo (FifoPolicy.mkFifo (mkPolicy true 4096 4096 [mkStorage 7 1024 1 16 0] 100 100 "" 0) 108 mem).

Lemma demo_states :
  w_mappings (process (snd (demo_at 3))) = {[7 := small_map false false true]} ∧
  w_policies (process (snd (demo_at 3))) = {[100 := small_policy 0]} ∧
  (∀ n, n = 4%nat ∨ n = 5%nat ∨ n = 6%nat → w_mappings (process (snd (demo_at n))) = {[7 := small_map true true true]} ∧
     w_policies (process (snd (demo_at n))) = {[100 := small_policy 4096]}).
Proof.
  split; [vm_compute; reflexivity|]. split; [vm_compute; reflexivity|].
  intros n [->|[->| ->]]; split; vm_compute; reflexivity.
Qed.

Lemma small_access g st mem x isWrite :
  w_mappings (process g) = {[7 := st]} → w_policies (process g) = {[100 := small_policy mem]} →
  (∃ m d r, st = small_map m d r) → 0 ≤ x < 10 → legal_access (D := MemoryDriver) 10 small_temp g 7 x isWrite.
Proof.
  intros Hm Hp (m & d & r & ->) Hx. exists (small_map m d r). rewrite Hm. split; [by rewrite lookup_singleton_eq|].
  assert (Ht : fresh_temp (mo_mapping (small_map m d r)) small_temp).
  { split; [|unfold outside, temp_area, small_temp; cbn; lia]. cbn. unfold page_aligned.
    split; [lia|]. split; [reflexivity|]. split; [lia|reflexivity]. }
  split; [|split; [done|split; [done|split; [|done]]]].
  - intros _. exists (small_policy mem). rewrite Hp. split; [by rewrite lookup_singleton_eq|].
    cbn. split; [done|]. split; [done|vm_compute; lia].
  - intros mid' mo'. rewrite lookup_singleton_Some. intros [<- <-]. apply Ht.
Qed.

Lemma small_can_map :
  can_map (process (snd (demo_at 2))) 1 65536 7 1 10 4096 0 100 1024 small_driver.
Proof.
  assert (Hm : w_mappings (process (snd (demo_at 2))) = ∅) by (vm_compute; reflexivity).
  assert (Hp : w_policies (process (snd (demo_at 2))) = {[100 := PFifo (snd small_fifo)]})
    by (vm_compute; reflexivity).
  split; try (rewrite Hm; done); [| |done|].
  - split; try lia; [split; [lia|]; split; [reflexivity|]; split; [lia|reflexivity]
      |unfold SIZE_MOD; lia| |cbn; lia]. split; [reflexivity|cbn; lia].
  - vm_compute. reflexivity.
  - intros _. exists (PFifo (snd small_fifo)). rewrite Hp. split; [by rewrite lookup_singleton_eq|].
    split; [|cbn; lia|vm_compute; reflexivity|done|].
    + split; cbn; [split; cbn; [done|vm_compute; congruence|done|vm_compute; reflexivity]
        |by intros ?%elem_of_nil|by intros ? ? ?%elem_of_nil
        |intros r ->%list_elem_of_singleton; vm_compute; reflexivity|vm_compute; reflexivity].
    + intros pid2 p2 x Hne. rewrite Hp. intros [E _]%lookup_singleton_Some. congruence.
Qed.

Ltac demo_step := eapply (demo_run _); [reflexivity|vm_compute; reflexivity].

Lemma demo_legal_session : legal_session demo_start demo_session.
Proof.
  destruct demo_states as (Hm3 & Hp3 & H456).
  destruct (H456 4%nat) as [Hm4 Hp4]; [tauto|]. destruct (H456 5%nat) as [Hm5 Hp5]; [tauto|].
  destruct (H456 6%nat) as [Hm6 Hp6]; [tauto|]. change demo_start with (demo_at 0). unfold demo_session.
  apply (legal_session_cons _ (demo_at 1)); [done|demo_step|].
  apply (legal_session_cons _ (demo_at 2)); [|demo_step|].
  { split; [done|]. split; [vm_compute; reflexivity|]. split; [done|].
    split; [intros gs; by eapply FifoPolicy.fifo_new_inv|]. split; [|split; [|by intros ? ? ?]].
    - intros x Hx. change (x ∉ [108]) in Hx. rewrite list_elem_of_singleton in Hx. cbn.
      unfold newElement. by rewrite lookup_insert_ne.
    - by intros ? ? ? ?. }
  apply (legal_session_cons _ (demo_at 3)); [|demo_step|].
  { exists 0, small_driver. split; [left; split; reflexivity|]. split; [right; reflexivity|]. split; [exact small_can_map|].
    intros x Hx. change (byte_at (replicate 16 7) (0 + x) = 7). unfold byte_at. destruct (Z.ltb_spec (0 + x) 0); [lia|].
    rewrite lookup_replicate_2; [done|lia]. }
  apply (legal_session_cons _ (demo_at 4)); [eapply small_access; eauto; lia|demo_step|].
  apply (legal_session_cons _ (demo_at 5)); [eapply small_access; eauto; lia|demo_step|].
  apply (legal_session_cons _ (demo_at 6)); [eapply small_access; eauto; lia|demo_step|].
  apply (legal_session_cons _ (demo_at 7)); [|demo_step|done].
  exists (small_map true true true). rewrite Hm6. split; [by rewrite lookup_singleton_eq|]. split; [cbn; lia|].
  intros _. exists (small_policy 4096). rewrite Hp6. split; [apply lookup_singleton_eq|reflexivity].
Qed.

(** A run that evaluates to a state is a run to [demo_at]. *)
Definition runs (n : nat) : bool :=
  match foldM run_event demo_start (take n demo_session) with Ok _ => true | Err _ => false end.

Lemma demo_at_ok n : runs n = true → foldM run_event demo_start (take n demo_session) = Ok (demo_at n).
Proof. unfold runs, demo_at. by destruct (foldM _ _ _). Qed.

Lemma demo_rel n :
  runs n = true → session_rel (demo_at n) (foldl spec_event ([], λ _ _, None) (take n demo_session)).
Proof.
  intros Hn%demo_at_ok.
  destruct (run_session_ok (take n demo_session) demo_start _ (empty_rel demo_vm)) as [E|(s & Hrun & Hrel)].
  - by apply legal_session_take, demo_legal_session.
  - by rewrite Hn in E.
  - rewrite Hn in Hrun. by injection Hrun as <-.
Qed.
End Demo.

Lemma sessions_refine_arrays_witness :
  ∃ g, foldM run_event demo_start demo_session = Ok ([42; 7], g) ∧ handler_inv g.
Proof.
  destruct (sessions_refine_arrays demo_vm demo_session demo_legal_session) as [Herr|(out & g & Hrun & Hout & Hg & _)].
  - exfalso. assert (runs 7 = true) as Hok%demo_at_ok by (vm_compute; reflexivity).
    change (take 7 demo_session) with demo_session in Hok. unfold demo_start in Hok. rewrite Herr in Hok. discriminate Hok.
  - exists g. split; [|exact Hg]. etransitivity; [exact Hrun|]. f_equal. f_equal. etransitivity; [exact Hout|].
    vm_compute. reflexivity.
Defined.

Lemma ummap_shows_storage_witness :
  ∃ g' : GlobalHandler MemoryDriver AnyPolicy,
    ummap 1 (Some 65536) (snd (demo_at 2)) 0 10 4096 0 (mkProt true true false) 0 1 100 "none" 7 (1024, 0) (0, 0)
      = Ok (65536, g') ∧
    handler_inv g' ∧ world_view (process g') 7 3 = Some 7.
Proof.
  assert (runs 2 = true) as (_ & Hg & _)%demo_rel by (vm_compute; reflexivity).
  destruct (ummap_shows_storage 1 65536 (snd (demo_at 2)) 0 10 4096 0 (mkProt true true false) 0 1 100 "none" 0 7
    (1024, 0) (0, 0) small_driver Hg) as (g' & Hmap & Hg' & _ & Hv & _).
  - left. split; reflexivity.
  - right. reflexivity.
  - exact small_can_map.
  - exists g'. split; [exact Hmap|]. split; [exact Hg'|]. rewrite Hv by lia. vm_compute. reflexivity.
Defined.

Lemma uunmap_saves_storage_witness :
  ∃ (g' : GlobalHandler MemoryDriver AnyPolicy) (d' : MemoryDriver),
    uunmap 10 (snd (demo_at 6)) 65540 true = Ok g' ∧ handler_inv g' ∧
    w_drivers (process g') !! 1 = (if hasAutoclean (driver_base d') then None else Some d') ∧
    content d' 3 = 42.
Proof.
  assert (runs 6 = true) as (_ & Hg & Hv)%demo_rel by (vm_compute; reflexivity).
  destruct demo_states as (_ & _ & H6). destruct (H6 6%nat) as [Hm Hp]; [tauto|]. clear H6.
  assert (Hmo : w_mappings (process (snd (demo_at 6))) !! 7 = Some (small_map true true true))
    by (rewrite Hm; apply lookup_singleton_eq).
  assert (w_drivers (process (snd (demo_at 6))) = {[1 := small_driver]}) as Hd by (vm_compute; reflexivity).
  destruct (uunmap_saves_storage 10 (snd (demo_at 6)) 7 (small_map true true true) small_driver 65540 true Hg Hmo)
    as (g' & d' & Hrun & Hg' & _ & _ & Hdrv & _ & _ & Hdur).
  - rewrite Hd. apply lookup_singleton_eq.
  - cbn. lia.
  - intros _. exists (small_policy 4096). rewrite Hp. split; [apply lookup_singleton_eq|reflexivity].
  - exists g', d'. split; [exact Hrun|]. split; [exact Hg'|]. split; [exact Hdrv|].
    change (content d' 3) with (content d' (storageOffset (mo_mapping (small_map true true true)) + 3)).
    rewrite (Hdur 3); [|cbn; lia|reflexivity].
    specialize (Hv 7 3). change (snd (foldl _ _ _) 7 3) with (Some 42) in Hv.
    unfold world_view in Hv. rewrite Hmo in Hv. cbn [mbind option_bind] in Hv.
    assert (w_drivers (process (snd (demo_at 6))) !! 1 = Some small_driver) as Hd1
      by (rewrite Hd; apply lookup_singleton_eq).
    change (mo_driver (small_map true true true)) with 1 in Hv. rewrite Hd1 in Hv.
    cbn [mbind option_bind] in Hv. rewrite decide_True in Hv by (cbn; lia). exact (inj Some _ _ Hv).
Defined.
