(* ===== verification/Library.v ===== *)
(** * The lifetime of the library (src/src/public-api/ummap.cpp, core/GlobalHandler.cpp)

    [ummap_init] and [ummap_finalize] count their calls; the first one makes the global
    handler and takes the segmentation faults, the last one gives them back and deletes
    the handler, with every mapping and every registered policy that is left. *)

From S2P Require Import Prelude ListElement Policy PolicyInterface OS Driver Mapping MappingInv MappingSpec System SystemInv Registry GlobalHandler Lifecycle Sessions.

(** ** The action of SIGSEGV *)

Inductive Action : Type :=
  | SIG_DFL
  | SegfaultHandler
  | OtherHandler (function : Z).
#[export] Instance Action_eq_dec : EqDecision Action.
Proof. solve_decision. Defined.

(** The action in force, and the one saved in [gblOldHandler]. *)
Record Signals := mkSignals { sigsegv : Action; gblOldHandler : Action }.

Section Lib.
Context {D P : Type} `{DriverOps D} `{PolicyOps P}.
Abbreviation G := (GlobalHandler D P).

(** The static variables: [gblCntInit], whether [gblHandler] is set; the action of SIGSEGV;
    [lib] is the global handler and the process. *)
Record Library := mkLibrary { gblCntInit : Z; gblHandler : bool; signals : Signals; lib : G }.

Definition set_signals (l : Library) (s : Signals) : Library := mkLibrary (gblCntInit l) (gblHandler l) s (lib l).

Definition setupSegfaultHandler (l : Library) : Library :=
  set_signals l (mkSignals SegfaultHandler (sigsegv (signals l))).
Definition unsetSegfaultHandler (l : Library) : Library :=
  set_signals l (mkSignals (gblOldHandler (signals l)) (gblOldHandler (signals l))).

(** The handler of the signal, with the error code of the fault; a fault that is not ours
    goes to the function of the saved action, which is returned.  The default action is
    not a function, and our own is a recursive call. *)
Fixpoint segfaultHandler (depth fuel : nat) (got : option Z) (l : Library) (addr reg_err : Z)
    : result (option Z * Library) :=
  g ← deref (if gblHandler l then Some (lib l) else None);
  '(ours, g') ← onSegFault fuel got g addr (fault_is_write reg_err);
  let l' := mkLibrary (gblCntInit l) (gblHandler l) (signals l) g' in
  if ours : bool then Ok (None, l')
  else
    match gblOldHandler (signals l'), depth with
    | SIG_DFL, _ => Err BadAccess
    | OtherHandler f, _ => Ok (Some f, l')
    | SegfaultHandler, O => Err OutOfFuel
    | SegfaultHandler, S depth' => segfaultHandler depth' fuel got l' addr reg_err
    end.

(** [new GlobalHandler()] and [setGlobalHandler]. *)
Definition setGlobalHandler (l : Library) : result Library :=
  assume (negb (gblHandler l)) "Try to re-init ummap-io without previously destroy states !";;
  Ok (mkLibrary (gblCntInit l) true (signals l) (mkHandler [] ∅ (process (lib l)))).

(** [~GlobalHandler]: the mappings, then, with its members, the registered policies. *)
Definition deleteGlobalHandler (fuel : nat) (g : G) : result G :=
  g1 ← (if negb (Registry.isEmpty (mappingRegistry g)) then deleteAllMappings fuel g else Ok g);
  let '(policies, r) := Registry.deleteAll (policyRegistry g1) in
  w ← foldM (destroyPolicy fuel) (process g1) policies;
  Ok (mkHandler (mappingRegistry g1) r w).

Definition clearGlobalHandler (fuel : nat) (l : Library) : result Library :=
  if gblHandler l then
    g ← deleteGlobalHandler fuel (lib l); Ok (mkLibrary (gblCntInit l) false (signals l) g)
  else Ok l.

Definition getGlobalhandler (l : Library) : result G :=
  assume (gblHandler l) "Missing initialization of ummap-io before use !";; Ok (lib l).

Definition set_count (l : Library) (n : Z) : Library := mkLibrary n (gblHandler l) (signals l) (lib l).

Definition ummap_init (l : Library) : result Library :=
  l1 ← (if gblCntInit l =? 0 then l0 ← setGlobalHandler l; Ok (setupSegfaultHandler l0) else Ok l);
  Ok (set_count l1 (gblCntInit l1 + 1)).

Definition ummap_finalize (fuel : nat) (l : Library) : result Library :=
  let l1 := set_count l (gblCntInit l - 1) in
  if gblCntInit l1 =? 0 then clearGlobalHandler fuel (unsetSegfaultHandler l1) else Ok l1.

(** An entry point of the public interface, on the global handler. *)
Definition with_handler {A} (l : Library) (f : G → result (A * G)) : result (A * Library) :=
  g ← getGlobalhandler l;
  '(a, g') ← f g;
  Ok (a, mkLibrary (gblCntInit l) (gblHandler l) (signals l) g').

(** ** Balanced calls *)

(** The handler is there and the faults are ours exactly while a call is pending; [original]
    is the action of the program, in force or saved. *)
Definition lib_inv (original : Action) (l : Library) : Prop :=
  0 ≤ gblCntInit l ∧ gblHandler l = (0 <? gblCntInit l) ∧ original ≠ SegfaultHandler ∧
  if 0 <? gblCntInit l then signals l = mkSignals SegfaultHandler original else sigsegv (signals l) = original.

Inductive lib_step (fuel : nat) : Library → Library → Prop :=
  | step_init l l' : ummap_init l = Ok l' → lib_step fuel l l'
  | step_finalize l l' : 0 < gblCntInit l → ummap_finalize fuel l = Ok l' → lib_step fuel l l'
  | step_use l A (a : A) f l' : with_handler l f = Ok (a, l') → lib_step fuel l l'.

Lemma init_run original l : lib_inv original l →
  ∃ l', ummap_init l = Ok l' ∧ lib_inv original l' ∧ gblHandler l' = true ∧ (0 < gblCntInit l → lib l' = lib l).
Proof.
  intros (Hn & Hh & Ho & Hs). unfold ummap_init, setGlobalHandler.
  destruct (Z.ltb_spec 0 (gblCntInit l)) as [Hpos|Hz].
  - destruct (Z.eqb_spec (gblCntInit l) 0); [lia|]. cbn. eexists. split; [done|]. unfold lib_inv. cbn.
    rewrite Hh. destruct (Z.ltb_spec 0 (gblCntInit l + 1)); [|lia]. split_and!; done || lia.
  - destruct (Z.eqb_spec (gblCntInit l) 0) as [E|]; [|lia]. rewrite Hh. cbn. eexists. split; [done|].
    unfold lib_inv. cbn. rewrite E, Hs. split_and!; done || lia.
Qed.

Lemma lib_step_inv original fuel l l' : lib_inv original l → lib_step fuel l l' → lib_inv original l'.
Proof.
  intros Hl Hstep. destruct Hstep as [l l' Hrun|l l' Hpos Hrun|l A a f l' Hrun].
  - destruct (init_run original l Hl) as (l1 & Hrun1 & Hl1 & _). congruence.
  - destruct Hl as (Hn & Hh & Ho & Hs). apply Z.ltb_lt in Hpos as Hpos'. rewrite Hpos' in Hh, Hs.
    unfold ummap_finalize, clearGlobalHandler in Hrun.
    cbn [set_count set_signals gblCntInit unsetSegfaultHandler gblHandler lib signals] in Hrun.
    destruct (Z.eqb_spec (gblCntInit l - 1) 0) as [E|E].
    + rewrite Hh in Hrun. inv_bind Hrun. inv_ok. unfold lib_inv. cbn. rewrite E, Hs. done.
    + inv_ok. unfold lib_inv. cbn. destruct (Z.ltb_spec 0 (gblCntInit l - 1)); [|lia]. split_and!; done || lia.
  - unfold with_handler in Hrun. do 2 inv_bind Hrun. destruct a1 as [a1 g']. inv_ok. done.
Qed.

(** A fault that is not ours reaches the function the program had installed. *)
Lemma foreign_fault_forwarded original l depth fuel got addr reg_err f :
  lib_inv original l → gblHandler l = true → original = OtherHandler f →
  onSegFault fuel got (lib l) addr (fault_is_write reg_err) = Ok (false, lib l) →
  segfaultHandler depth fuel got l addr reg_err = Ok (Some f, l).
Proof.
  intros (_ & Hh & _ & Hs) Hg -> Hrun. rewrite Hg in Hh. rewrite <- Hh in Hs.
  destruct depth; cbn [segfaultHandler]; rewrite Hg; cbn [deref mbind result_bind]; rewrite Hrun; cbn [mbind result_bind signals];
    rewrite Hs; cbn [gblOldHandler]; by destruct l; cbn in *; subst.
Qed.

(** A second installation, as after the start of the Mero client, saves our own handler: a
    fault that is not ours then never leaves it. *)
Lemma second_setup_loops original l depth fuel got addr reg_err :
  lib_inv original l → gblHandler l = true →
  onSegFault fuel got (lib l) addr (fault_is_write reg_err) = Ok (false, lib l) →
  segfaultHandler depth fuel got (setupSegfaultHandler l) addr reg_err = Err OutOfFuel.
Proof.
  intros (_ & Hh & _ & Hs) Hg Hrun. rewrite Hg in Hh. rewrite <- Hh in Hs.
  assert (Hold : gblOldHandler (signals (setupSegfaultHandler l)) = SegfaultHandler) by (cbn; by rewrite Hs).
  assert (Hg2 : gblHandler (setupSegfaultHandler l) = true) by done.
  change (lib l) with (lib (setupSegfaultHandler l)) in Hrun. revert Hold Hg2 Hrun.
  generalize (setupSegfaultHandler l). clear. intros l Hold Hg Hrun.
  induction depth as [|depth IH]; cbn [segfaultHandler]; rewrite Hg; cbn [deref mbind result_bind];
    rewrite Hrun; cbn [mbind result_bind signals]; rewrite Hold; [done|].
  rewrite <- IH. f_equal. destruct l. cbn in *. by subst.
Qed.
End Lib.
Arguments Library : clear implicits.

Section Finalize.
Context {D P : Type} `{StorageDriver D} `{TrackingPolicy P}.
Abbreviation W := (World D P).

(** No policy is in a quota, mappings have the policies they name, and a local policy is
    not used by another mapping. *)
Record detachable (w : W) : Prop := {
  dt_quota : ∀ pid p, w_policies w !! pid = Some p → policyQuota (pol_base p) = 0;
  dt_policy : ∀ mid mo, w_mappings w !! mid = Some mo → policy_of (mo_mapping mo) ≠ 0 →
    is_Some (w_policies w !! policy_of (mo_mapping mo));
  dt_local : ∀ mid mid' mo mo', w_mappings w !! mid = Some mo → w_mappings w !! mid' = Some mo' → mid ≠ mid' →
    localPolicy (mo_mapping mo) ≠ 0 → policy_of (mo_mapping mo') ≠ localPolicy (mo_mapping mo);
}.

(** The bytes of a mapping of [w] among [mids]. *)
Definition bytes_of (w : W) (mids : list Z) (a : Z) : Prop :=
  ∃ mid mo, mid ∈ mids ∧ w_mappings w !! mid = Some mo ∧
    baseAddress (mo_mapping mo) ≤ a <
      baseAddress (mo_mapping mo) + segments (mo_mapping mo) * segmentSize (mo_mapping mo).

(** [w'] is [w] without the mappings [mids]. *)
Record dismantled (w : W) (mids : list Z) (w' : W) : Prop := {
  dm_inv : world_inv [] w';
  dm_detachable : detachable w';
  dm_mappings : ∀ mid, w_mappings w' !! mid = if decide (mid ∈ mids) then None else w_mappings w !! mid;
  dm_unmapped : ∀ a, bytes_of w mids a → vm_prot (w_vm w') a = None;
  dm_vm : ∀ a, ¬ bytes_of w mids a →
    vm_prot (w_vm w') a = vm_prot (w_vm w) a ∧ vm_mem (w_vm w') a = vm_mem (w_vm w) a;
  dm_drivers : ∀ did d, w_drivers w !! did = Some d →
    w_drivers w' !! did = Some d ∨ hasAutoclean (driver_base d) = true ∧ w_drivers w' !! did = None;
  dm_no_driver : ∀ did, w_drivers w !! did = None → w_drivers w' !! did = None;
  dm_policies : ∀ pid, pid ≠ 0 → is_Some (w_policies w !! pid) →
    (∀ mid mo, w_mappings w !! mid = Some mo → localPolicy (mo_mapping mo) ≠ pid) → is_Some (w_policies w' !! pid);
}.

Lemma dismantle_one fuel w mid mo :
  world_inv [] w → detachable w → w_mappings w !! mid = Some mo →
  ∃ w', destroyMapping fuel w mid = Ok w' ∧ dismantled w [mid] w' ∧ w_mappings w' = delete mid (w_mappings w).
Proof.
  intros Hw Hd Hmo. destruct (wo_mapping _ _ Hw mid mo Hmo) as [(d & Hdrv & Hinv) Hone].
  destruct (destroyMapping_ok fuel w mid mo d Hw Hmo Hdrv)
    as (w' & Hrun & Hw' & Hview & Hmaps & Hdrivers & Hprot & Hpols & Hlocal & Hvm & Hquota & Hstay).
  { intros Hp. destruct (dt_policy _ Hd mid mo Hmo Hp) as [p Hp']. exists p. split; [done|].
    by apply (dt_quota _ Hd _ _ Hp'). }
  exists w'. split; [done|]. split; [|done]. split.
  - done.
  - split.
    + intros pid p' Hp'. destruct (Hquota pid p' Hp') as (p & Hp & ->). by apply (dt_quota _ Hd pid).
    + intros mid' mo' Hmo' Hp. rewrite Hmaps in Hmo'. apply lookup_delete_Some in Hmo' as [Hne Hmo'].
      apply Hstay; [done| |by apply (dt_policy _ Hd mid')]. intros E. rewrite E in Hp.
      by apply (dt_local _ Hd mid mid' mo mo').
    + intros mid1 mid2 mo1 mo2. rewrite Hmaps. intros [_ H1']%lookup_delete_Some [_ H2']%lookup_delete_Some.
      by apply (dt_local _ Hd mid1 mid2).
  - intros mid'. rewrite Hmaps. case_decide as E; [apply list_elem_of_singleton in E as ->; apply lookup_delete_eq|].
    apply lookup_delete_ne. intros ->. apply E. by left.
  - intros a (mid' & mo' & ->%list_elem_of_singleton & Hmo' & Ha).
    assert (mo' = mo) as -> by congruence. by apply Hprot.
  - intros a Ha. rewrite Hvm. cbn. case_range; [|done]. exfalso. apply Ha. exists mid, mo. split; [by left|done].
  - intros did d' Hd'. rewrite Hdrivers. destruct (hasAutoclean (driver_base d)) eqn:Ha; [|by left].
    destruct (decide (did = mo_driver mo)) as [->|Hne]; [|left; by rewrite lookup_delete_ne].
    right. assert (d' = d) as -> by congruence. split; [done|apply lookup_delete_eq].
  - intros did Hnone. rewrite Hdrivers. destruct (hasAutoclean (driver_base d)); [|done].
    apply lookup_delete_None. by right.
  - intros pid Hpid Hp Hno. apply Hstay; [done| |done]. intros E. by apply (Hno mid mo Hmo).
Qed.

Lemma dismantled_cons w mid mids w1 w2 :
  mid ∉ mids → dismantled w [mid] w1 → dismantled w1 mids w2 → dismantled w (mid :: mids) w2.
Proof.
  intros Hnin H1' H2'.
  assert (Hb : ∀ a, bytes_of w (mid :: mids) a ↔ bytes_of w [mid] a ∨ bytes_of w1 mids a).
  { intros a. split.
    - intros (m & mo & [->|Hin]%elem_of_cons & Hmo & Ha); [left; exists mid, mo; split; [by left|done]|].
      right. exists m, mo. split; [done|]. rewrite (dm_mappings _ _ _ H1').
      case_decide as E; [by apply list_elem_of_singleton in E; subst m|done].
    - intros [(m & mo & ->%list_elem_of_singleton & Hmo & Ha)|(m & mo & Hin & Hmo & Ha)].
      + exists mid, mo. split; [by left|done].
      + rewrite (dm_mappings _ _ _ H1') in Hmo. case_decide; [done|]. exists m, mo. split; [by right|done]. }
  split; [apply H2'|apply H2'|..].
  - intros m. rewrite (dm_mappings _ _ _ H2'), (dm_mappings _ _ _ H1').
    repeat case_decide; try done; set_solver.
  - intros a Ha. destruct (decide (vm_prot (w_vm w2) a = None)) as [|Hne]; [done|]. exfalso.
    assert (¬ bytes_of w1 mids a) as Hno by (intros Hx; by apply Hne, (dm_unmapped _ _ _ H2')).
    apply Hb in Ha as [Ha|Ha]; [|done]. apply Hne. rewrite (proj1 (dm_vm _ _ _ H2' a Hno)). by apply (dm_unmapped _ _ _ H1').
  - intros a Ha. rewrite Hb in Ha. destruct (dm_vm _ _ _ H2' a) as [-> ->]; [tauto|].
    apply (dm_vm _ _ _ H1'). tauto.
  - intros did d Hd. destruct (dm_drivers _ _ _ H1' did d Hd) as [E|[Ha E]].
    + by apply (dm_drivers _ _ _ H2').
    + right. split; [done|by apply (dm_no_driver _ _ _ H2')].
  - intros did Hnone. by apply (dm_no_driver _ _ _ H2'), (dm_no_driver _ _ _ H1').
  - intros pid Hpid Hp Hno. apply (dm_policies _ _ _ H2'); [done|by apply (dm_policies _ _ _ H1')|].
    intros m mo. rewrite (dm_mappings _ _ _ H1'). case_decide; [done|]. apply Hno.
Qed.

Lemma dismantled_nil w : world_inv [] w → detachable w → dismantled w [] w.
Proof.
  intros Hw Hd. split; try done.
  - intros a (m & mo & Hin & _). by apply elem_of_nil in Hin.
  - intros did d Hdr. by left.
Qed.

(** [MappingRegistry::deleteAllMappings]. *)
Lemma deleteAll_ok fuel r : ∀ w,
  world_inv [] w → detachable w → NoDup (re_mapping <$> r) →
  (∀ e, e ∈ r → is_Some (w_mappings w !! re_mapping e)) →
  ∃ w', foldM (λ w it, destroyMapping fuel w (re_mapping it)) w r = Ok w' ∧ dismantled w (re_mapping <$> r) w'.
Proof.
  induction r as [|e r IH]; intros w Hw Hd Hnd Hin; [exists w; split; [done|by apply dismantled_nil]|].
  rewrite fmap_cons, NoDup_cons in Hnd. destruct Hnd as [Hne Hnd].
  destruct (Hin e) as [mo Hmo]; [by left|].
  destruct (dismantle_one fuel w (re_mapping e) mo Hw Hd Hmo) as (w1 & Hrun1 & H1' & Hm1).
  destruct (IH w1) as (w2 & Hrun2 & H2'); [apply H1'|apply H1'|done| |].
  { intros e' He'. rewrite Hm1, lookup_delete_ne; [apply Hin; by right|].
    intros E. apply Hne. rewrite E. by apply list_elem_of_fmap_2. }
  exists w2. cbn [foldM]. rewrite Hrun1. cbn [mbind result_bind]. split; [done|].
  rewrite fmap_cons. by eapply dismantled_cons.
Qed.

(** A policy that no mapping uses can go. *)
Lemma drop_policy_inv w pid :
  world_inv [] w → w_mappings w = ∅ →
  world_inv [] (mkWorld (w_heap w) (w_vm w) (w_mappings w) (w_drivers w) (delete pid (w_policies w)) (w_quotas w)).
Proof.
  intros [H1' H2' H3' H4' H5'] Hnone. split; cbn; try done.
  - intros pid' p' [_ Hp']%lookup_delete_Some. by apply H4'.
  - intros pid1 pid2 p1 p2 x [_ Hp1]%lookup_delete_Some [_ Hp2]%lookup_delete_Some. by apply (H5' pid1 pid2).
Qed.

(** [PolicyRegistry::deleteAll]. *)
Lemma destroyPolicies_ok fuel pids : ∀ w,
  world_inv [] w → w_mappings w = ∅ → (∀ pid p, w_policies w !! pid = Some p → policyQuota (pol_base p) = 0) →
  NoDup pids → (∀ pid, pid ∈ pids → is_Some (w_policies w !! pid)) →
  ∃ w', foldM (destroyPolicy fuel) w pids = Ok w' ∧ world_inv [] w' ∧ w_mappings w' = ∅ ∧ w_vm w' = w_vm w ∧
    w_drivers w' = w_drivers w ∧ ∀ pid, w_policies w' !! pid = if decide (pid ∈ pids) then None else w_policies w !! pid.
Proof.
  induction pids as [|pid pids IH]; intros w Hw Hm Hq Hnd Hin; [by exists w|].
  apply NoDup_cons in Hnd as [Hne Hnd]. destruct (Hin pid) as [p Hp]; [by left|].
  assert (destroyPolicy fuel w pid = Ok (mkWorld (w_heap w) (w_vm w) (w_mappings w) (w_drivers w)
    (delete pid (w_policies w)) (w_quotas w))) as Hone.
  { unfold destroyPolicy. rewrite Hp. cbn [deref mbind result_bind]. by rewrite (Hq pid p Hp). }
  cbn [foldM]. rewrite Hone. cbn [mbind result_bind].
  destruct (IH (mkWorld (w_heap w) (w_vm w) (w_mappings w) (w_drivers w) (delete pid (w_policies w)) (w_quotas w)))
    as (w' & Hrun & Hw' & Hm' & Hvm & Hd & Hpols); cbn; try done.
  - by apply drop_policy_inv.
  - intros pid' p' [_ Hp']%lookup_delete_Some. by apply (Hq pid').
  - intros pid' Hin'. rewrite lookup_delete_ne; [apply Hin; by right|by intros <-].
  - exists w'. do 5 (split; [done|]). intros pid'. rewrite Hpols. cbn.
    destruct (decide (pid' = pid)) as [->|Hx].
    + rewrite lookup_delete_eq. repeat case_decide; try done. set_solver.
    + rewrite lookup_delete_ne by done. repeat case_decide; try done; set_solver.
Qed.

(** The registered policies can go: they are there, each once, and no mapping has one as its
    local policy. *)
Record removable (w : W) (groups : list Z) : Prop := {
  rm_once : NoDup groups;
  rm_there : ∀ pid, pid ∈ groups → pid ≠ 0 ∧ is_Some (w_policies w !! pid);
  rm_shared : ∀ mid mo, w_mappings w !! mid = Some mo → localPolicy (mo_mapping mo) ∉ groups;
}.

(** [w'] is [w] without its mappings and the policies [groups]. *)
Record taken_down (w : W) (groups : list Z) (w' : W) : Prop := {
  td_mappings : w_mappings w' = ∅;
  td_unmapped : ∀ mid mo a, w_mappings w !! mid = Some mo →
    baseAddress (mo_mapping mo) ≤ a < baseAddress (mo_mapping mo) + segments (mo_mapping mo) * segmentSize (mo_mapping mo) →
    vm_prot (w_vm w') a = None;
  td_vm : ∀ a, (∀ mid mo, w_mappings w !! mid = Some mo → ¬ (baseAddress (mo_mapping mo) ≤ a <
      baseAddress (mo_mapping mo) + segments (mo_mapping mo) * segmentSize (mo_mapping mo))) →
    vm_prot (w_vm w') a = vm_prot (w_vm w) a ∧ vm_mem (w_vm w') a = vm_mem (w_vm w) a;
  td_policies : ∀ pid, pid ∈ groups → w_policies w' !! pid = None;
  td_drivers : ∀ did d, w_drivers w !! did = Some d → hasAutoclean (driver_base d) = false →
    w_drivers w' !! did = Some d;
}.

(** [~GlobalHandler]. *)
Lemma deleteGlobalHandler_ok fuel (g : GlobalHandler D P) :
  let w := process g in
  let groups := (map_to_list (policyRegistry g)).*2 in
  handler_inv g → detachable w → removable w groups →
  ∃ w', deleteGlobalHandler fuel g = Ok (mkHandler [] ∅ w') ∧ world_inv [] w' ∧ taken_down w groups w'.
Proof.
  intros w groups Hg Hd [Hnd Hgroups Hlocals]. pose proof Hg as [Hw Hr He]. fold w in Hw, He.
  destruct (deleteAll_ok fuel (mappingRegistry g) w Hw Hd (rg_keys _ Hr)) as (w1 & Hrun1 & Hdm).
  { intros e Hin. apply He in Hin as (mo & Hmo & _). by exists mo. }
  assert (Hall : ∀ mid mo, w_mappings w !! mid = Some mo → mid ∈ re_mapping <$> mappingRegistry g).
  { intros mid mo Hmo. apply list_elem_of_fmap.
    exists (mkEntry mid (baseAddress (mo_mapping mo)) (baseAddress (mo_mapping mo) + m_size (mo_mapping mo))).
    split; [done|]. apply He. by exists mo. }
  assert (Hempty : w_mappings w1 = ∅).
  { apply map_empty. intros mid. rewrite (dm_mappings _ _ _ Hdm). case_decide as E; [done|].
    destruct (w_mappings w !! mid) as [mo|] eqn:Hmo; [|done]. by destruct E; eapply Hall. }
  destruct (destroyPolicies_ok fuel groups w1) as (w2 & Hrun2 & Hw2 & Hm2 & Hvm2 & Hdr2 & Hpols2);
    [apply Hdm|done|apply (dt_quota _ (dm_detachable _ _ _ Hdm))|done| |].
  { intros pid Hin. destruct (Hgroups pid Hin) as [Hpid Hp]. apply (dm_policies _ _ _ Hdm); [done|done|].
    intros mid mo Hmo <-. by apply (Hlocals mid mo). }
  exists w2. split; [|split; [done|split]].
  - unfold deleteGlobalHandler, deleteAllMappings. fold w. destruct (mappingRegistry g) as [|e r] eqn:Er.
    + assert (w1 = w) as E by (cbn in Hrun1; congruence). rewrite E in Hrun2.
      change (Registry.isEmpty []) with true. cbn [negb mbind result_bind Registry.deleteAll]. fold groups. fold w.
      rewrite Hrun2. cbn. by rewrite Er.
    + change (Registry.isEmpty (e :: r)) with false. cbn [negb]. rewrite Hrun1.
      cbn [mbind result_bind Registry.deleteAll policyRegistry process]. fold groups. by rewrite Hrun2.
  - done.
  - intros mid mo a Hmo Ha. rewrite Hvm2. apply (dm_unmapped _ _ _ Hdm). exists mid, mo. split; [by eapply Hall|done].
  - intros a Ha. rewrite Hvm2. apply (dm_vm _ _ _ Hdm). intros (mid & mo & _ & Hmo & Hin). by apply (Ha mid mo).
  - intros pid Hin. by rewrite Hpols2, decide_True.
  - intros did d Hdr Ha. rewrite Hdr2. destruct (dm_drivers _ _ _ Hdm did d Hdr) as [|[E _]]; [done|congruence].
Qed.

(** C13: [ummap_finalize] takes everything down at the call that balances the first
    [ummap_init], and only then: an earlier call changes the count and nothing else.  The
    last one restores the action the program had for SIGSEGV and deletes the handler; every
    mapping is gone and its addresses are unmapped, no other address changes, the registered
    policies are deleted, and the drivers the library does not own stay as they are: what
    was only in memory is not written.  No policy is in a quota. *)
Theorem finalize_takes_down original fuel (l : Library D P) :
  let w := process (lib l) in
  let groups := (map_to_list (policyRegistry (lib l))).*2 in
  lib_inv original l → 0 < gblCntInit l → handler_inv (lib l) → detachable w → removable w groups →
  if decide (1 < gblCntInit l) then
    ummap_finalize fuel l = Ok (mkLibrary (gblCntInit l - 1) true (mkSignals SegfaultHandler original) (lib l))
  else
    ∃ l', ummap_finalize fuel l = Ok l' ∧ lib_inv original l' ∧ gblHandler l' = false ∧
      sigsegv (signals l') = original ∧ handler_inv (lib l') ∧ taken_down w groups (process (lib l')).
Proof.
  intros w groups (_ & Hh & Ho & Hs) Hcnt Hg Hd Hrm. apply Z.ltb_lt in Hcnt as Hpos. rewrite Hpos in Hh, Hs.
  unfold ummap_finalize, clearGlobalHandler.
  cbn [set_count set_signals gblCntInit unsetSegfaultHandler gblHandler lib signals]. rewrite Hh, Hs.
  destruct (decide (1 < gblCntInit l)) as [Hmore|Hlast].
  { destruct (Z.eqb_spec (gblCntInit l - 1) 0); [lia|]. unfold set_count. by rewrite Hh, Hs. }
  assert (gblCntInit l = 1) as -> by lia. cbn [Z.sub Z.eqb].
  destruct (deleteGlobalHandler_ok fuel (lib l) Hg Hd Hrm) as (w2 & Hrun & Hw2 & Hdown).
  rewrite Hrun. cbn [mbind result_bind]. eexists. split; [reflexivity|].
  cbn [gblCntInit gblHandler signals lib process gblOldHandler sigsegv].
  split; [done|]. split; [done|]. split; [done|]. split; [|done]. split; cbn.
  - done.
  - split; [by intros e ?%elem_of_nil|constructor|by intros e ? ? ?%elem_of_nil].
  - intros e. split; [by intros ?%elem_of_nil|]. intros (mo & Hmo & _).
    by rewrite (td_mappings _ _ _ Hdown), lookup_empty in Hmo.
Qed.
End Finalize.

(** A file of 16 bytes mapped, with a byte stored in memory only: after the end the page is
    unmapped and the file has its old byte. *)
Lemma finalize_takes_down_witness :
  ∃ l', ummap_finalize 10 (mkLibrary 1 true (mkSignals SegfaultHandler (OtherHandler 99)) (snd (demo_at 6))) = Ok l' ∧ gblHandler l' = false ∧
    sigsegv (signals l') = OtherHandler 99 ∧ w_mappings (process (lib l')) = ∅ ∧ vm_prot (w_vm (process (lib l'))) 65539 = None ∧
    w_drivers (process (lib l')) !! 1 = Some small_driver.
Proof.
  assert (runs 6 = true) as (_ & Hg & _)%demo_rel by (vm_compute; reflexivity).
  destruct demo_states as (_ & _ & H6). destruct (H6 6%nat) as [Hm Hp]; [tauto|]. clear H6.
  assert (w_drivers (process (snd (demo_at 6))) = {[1 := small_driver]}) as Hd by (vm_compute; reflexivity).
  assert ((map_to_list (policyRegistry (snd (demo_at 6)))).*2 = []) as Hr by (vm_compute; reflexivity).
  destruct (finalize_takes_down (OtherHandler 99) 10 (mkLibrary 1 true (mkSignals SegfaultHandler (OtherHandler 99)) (snd (demo_at 6))))
    as (l' & Hrun & _ & Hh & Hsig & _ & Hdown); cbn [lib].
  - split; [cbn; lia|]. split; [reflexivity|]. split; [discriminate|reflexivity].
  - reflexivity.
  - exact Hg.
  - split; rewrite ?Hm, ?Hp.
    + intros pid p [<- <-]%lookup_singleton_Some. reflexivity.
    + intros mid mo [<- <-]%lookup_singleton_Some _. exists (small_policy 4096). apply lookup_singleton_eq.
    + intros mid mid' mo mo' [<- _]%lookup_singleton_Some [<- _]%lookup_singleton_Some Hne. destruct (Hne eq_refl).
  - split; rewrite Hr.
    + constructor.
    + intros pid E%elem_of_nil. destruct E.
    + intros mid mo _. apply not_elem_of_nil.
  - exists l'. split; [exact Hrun|]. split; [exact Hh|]. split; [exact Hsig|]. split; [exact (td_mappings _ _ _ Hdown)|]. cbn [lib] in Hdown. split.
    + apply (td_unmapped _ _ _ Hdown 7 (small_map true true true)); [rewrite Hm; apply lookup_singleton_eq|cbn; lia].
    + apply (td_drivers _ _ _ Hdown); [rewrite Hd; apply lookup_singleton_eq|reflexivity].
Defined.
