(* ===== verification/RwWrapper.v ===== *)
(** * The input/output wrapper (src/src/rw-wrapper/rw-wrapper.cpp)

    A library to preload: its [write], [read], [fread] and [fwrite] call those of the C
    library and, when the kernel refuses a buffer because it is a mapping whose pages are
    not there (EFAULT), touch the pages through the fault handler and call again. *)

From Stdlib Require Import FunctionalExtensionality.
From S2P Require Import Prelude OS Driver Mapping MappingInv MappingSpec Policy PolicyInterface System SystemInv Registry GlobalHandler Sessions Library.

Inductive errno : Type := EFAULT | EAGAIN | EOTHER.
#[export] Instance errno_eq_dec : EqDecision errno.
Proof. solve_decision. Defined.

(** The functions of the C library: the value returned, [errno], and the state of the
    files with, for the reads, the memory. *)
Class Libc (K : Type) := {
  libc_write : K → vm → Z → Z → Z → Z * errno * K;
  libc_read : K → vm → Z → Z → Z → Z * errno * (K * vm);
  libc_fread : K → vm → Z → Z → Z → Z → Z * errno * (K * vm);
  libc_fwrite : K → vm → Z → Z → Z → Z → Z * errno * K;
}.

Definition failed (res : Z) (e : errno) (why : errno) : bool := (res =? -1) && bool_decide (e = why).

Section Wrapper.
Context {D P K : Type} `{DriverOps D} `{PolicyOps P} `{Libc K}.
(** Fuel of the quota loop of a fault, and where the kernel maps the temporary segment of
    the fault at an address. *)
Context (fuel : nat) (got : Z → option Z).
Abbreviation L := (Library D P).
Abbreviation W := (World D P).

Definition with_process (l : L) (w : W) : L :=
  mkLibrary (gblCntInit l) (gblHandler l) (signals l) (set_process (lib l) w).
Definition memory (l : L) : vm := w_vm (process (lib l)).
Definition set_memory (l : L) (v : vm) : L :=
  let w := process (lib l) in
  with_process l (mkWorld (w_heap w) v (w_mappings w) (w_drivers w) (w_policies w) (w_quotas w)).

(** The loop of [ummap_touch]; [i] is signed. *)
Fixpoint touchLoop (rounds : nat) (w : W) (mid buf i : Z) (isWrite : bool) : result W :=
  if 0 <=? i then
    match rounds with
    | O => Err OutOfFuel
    | S rounds' =>
        w1 ← handleFault fuel (got (buf + i)) w mid (buf + i) isWrite;
        touchLoop rounds' w1 mid buf (i - 4096) isWrite
    end
  else Ok w.

Definition ummap_touch (w : W) (mid buf size : Z) (isWrite : bool) : result W :=
  if size =? 0 then Ok w
  else
    w1 ← touchLoop (S (Z.to_nat (size / 4096))) w mid buf (to_signed (size ⊖ 1)) isWrite;
    handleFault fuel (got buf) w1 mid buf isWrite.

(** The limit of the policies of a mapping. *)
Definition policy_limit (w : W) (m : Mapping) : Z :=
  getPolicyMaxMemory
    (λ pid, match w_policies w !! pid with Some p => getStaticMaxMemory (pol_base p) | None => 0 end) m.

Definition find_mapping (l : L) (buf : Z) : result Z :=
  g ← getGlobalhandler l; GlobalHandler.getMapping g buf false.

(** The number of bytes to prefetch for a request of [count]. *)
Definition prefetch_size (l : L) (mid count : Z) : result Z :=
  mo ← deref (w_mappings (process (lib l)) !! mid);
  Ok (Z.min count (policy_limit (process (lib l)) (mo_mapping mo))).

Definition prefetch (l : L) (mid buf fetch : Z) (isWrite : bool) : result L :=
  w ← ummap_touch (process (lib l)) mid buf fetch isWrite; Ok (with_process l w).


Definition call_read (s : K * L) (fd buf count : Z) : Z * errno * (K * L) :=
  let '(res, e, (k, v)) := libc_read (fst s) (memory (snd s)) fd buf count in (res, e, (k, set_memory (snd s) v)).

Definition read (s : K * L) (fd buf count : Z) : result (Z * errno * (K * L)) :=
  let '(res, e, s1) := call_read s fd buf count in
  if failed res e EFAULT then
    mid ← find_mapping (snd s1) buf;
    if mid =? 0 then Ok (-1, e, s1)
    else
      fetch ← prefetch_size (snd s1) mid count;
      l1 ← prefetch (snd s1) mid buf fetch true;
      Ok (call_read (fst s1, l1) fd buf count)
  else Ok (res, e, s1).

(** [do { ... } while (res == -1 && errno == EAGAIN)]. *)
Fixpoint retry {S : Type} (rounds : nat) (call : S → result (Z * errno * S)) (s : S) : result (Z * errno * S) :=
  match rounds with
  | O => Err OutOfFuel
  | S rounds' => '(res, e, s1) ← call s; if failed res e EAGAIN then retry rounds' call s1 else Ok (res, e, s1)
  end.

Definition call_fread (s : K * L) (ptr size nmemb stream : Z) : Z * errno * (K * L) :=
  let '(res, e, (k, v)) := libc_fread (fst s) (memory (snd s)) ptr size nmemb stream in
  (to_signed res, e, (k, set_memory (snd s) v)).

(** [fetch -= fetch % size] and the check after it; a division by 0 is undefined. *)
Definition fetch_elements (fetch size : Z) : result Z :=
  if size =? 0 then Err BadAccess
  else
    let fetch := fetch - fetch mod size in
    assume (size <? fetch) "Invalid fetch (%1) smaller than size (%2)";; Ok fetch.

(** The rest of a transfer, by the wrapper itself, after [res] elements. *)
Definition recall (rounds : nat) (call : K * L → result (Z * errno * (K * L))) (res nmemb : Z) (e : errno) (s : K * L)
    : result (Z * errno * (K * L)) :=
  if (0 <? res) && (wrap res <? nmemb) then
    '(res2, e2, s2) ← retry rounds call s;
    assume (0 <=? res2) "Invalid status %1";;
    Ok (res + res2, e2, s2)
  else Ok (res, e, s).

Fixpoint fread (rounds : nat) (s : K * L) (ptr size nmemb stream : Z) : result (Z * errno * (K * L)) :=
  match rounds with
  | O => Err OutOfFuel
  | S rounds' =>
      let '(res, e, s1) := call_fread s ptr size nmemb stream in
      if (res =? 0) || failed res e EFAULT then
        mid ← find_mapping (snd s1) ptr;
        if mid =? 0 then Ok (res, e, s1)
        else
          fetch ← prefetch_size (snd s1) mid (size ⊗ nmemb);
          fetch ← fetch_elements fetch size;
          l1 ← prefetch (snd s1) mid ptr fetch true;
          '(res, e, s2) ← retry rounds' (λ s, Ok (call_fread s ptr size (fetch / size) stream)) (fst s1, l1);
          recall rounds' (λ s, fread rounds' s (ptr + res * size) size (nmemb ⊖ res) stream) res nmemb e s2
      else Ok (res, e, s1)
  end.

(** The first attempt is tested as a system call; the loop after the prefetch calls the
    wrapper, from an address computed with the status of the failed attempt.  The second
    loop tests the status of the first. *)
Fixpoint fwrite (rounds : nat) (s : K * L) (ptr size nmemb stream : Z) : result (Z * errno * (K * L)) :=
  match rounds with
  | O => Err OutOfFuel
  | S rounds' =>
      let '(k, l) := s in
      let '(res, e, k1) := libc_fwrite k (memory l) ptr size nmemb stream in
      let res := to_signed res in
      if failed res e EFAULT then
        mid ← find_mapping l ptr;
        if mid =? 0 then Ok (-1, e, (k1, l))
        else
          fetch ← prefetch_size l mid (size ⊗ nmemb);
          fetch ← fetch_elements fetch size;
          l1 ← prefetch l mid ptr fetch true;
          '(res, e, s2) ← retry rounds' (λ s, fwrite rounds' s (ptr + res * size) size (nmemb ⊖ res) stream) (k1, l1);
          if (0 <? res) && (wrap res <? nmemb) then
            '(res2, e2, s3) ← fwrite rounds' s2 (ptr + res * size) size (nmemb ⊖ res) stream;
            assume (0 <=? res2) "Invalid status %1";;
            Ok (res + res2, e2, s3)
          else Ok (res, e, s2)
      else Ok (res, e, (k1, l))
  end.
End Wrapper.

(** ** What is known of the C library *)

Definition all_writable (v : vm) (buf n : Z) : Prop := ∀ a, buf ≤ a < buf + n → writable v a = true.

(** [incoming] is what a descriptor delivers for a request, or an error, and the state
    after it.  A read returns that for the whole request, or, when it cannot write all of
    the buffer, for a shorter one, or fails with EFAULT and no effect. *)
Class LibcFiles (K : Type) `{Libc K} := {
  incoming : K → Z → Z → option (list Z) * K;
  incoming_length k fd n data k' : 0 ≤ n → incoming k fd n = (Some data, k') → Z.of_nat (length data) ≤ n;
  delivers (k : K) (v : vm) (fd buf n : Z) (out : Z * errno * (K * vm)) : Prop :=
    match incoming k fd n with
    | (Some data, k') => all_writable v buf (Z.of_nat (length data)) ∧
        ∃ e, out = (Z.of_nat (length data), e, (k', write_bytes v buf data))
    | (None, k') => ∃ e, e ≠ EFAULT ∧ out = (-1, e, (k', v))
    end;
  libc_read_law k v fd buf count :
    0 < count →
    (∃ n, 0 < n ≤ count ∧ delivers k v fd buf n (libc_read k v fd buf count)) ∨
    libc_read k v fd buf count = (-1, EFAULT, (k, v)) ∧ ¬ all_writable v buf count;
}.

Section Theorems.
Context {D P K : Type} `{StorageDriver D} `{TrackingPolicy P} `{LibcFiles K}.
Context (fuel : nat) (got : Z → option Z).
Abbreviation L := (Library D P).
Abbreviation W := (World D P).

(** What a program and the kernel respect for a mapping without policy. *)
Record touchable (w : W) (mid : Z) (mo : MapObj) : Prop := {
  tc_mapping : w_mappings w !! mid = Some mo;
  tc_policy : policy_of (mo_mapping mo) = 0;
  tc_write : p_write (protection (mo_mapping mo)) = true;
  tc_temp a : fresh_temp (mo_mapping mo) (got a);
  tc_temps a mid' mo' : w_mappings w !! mid' = Some mo' → outside (mo_mapping mo') (temp_area (mo_mapping mo) (got a));
}.

(** A segment open for writing. *)
Definition opened (m : Mapping) (i : Z) : Prop := mapped (status_at m i) = true ∧ dirty (status_at m i) = true.

(** The process after some touches. *)
Record touched (w : W) (mid : Z) (mo : MapObj) (w' : W) (mo' : MapObj) : Prop := {
  td_inv : world_inv [] w';
  td_views : ∀ mid' y, world_view w' mid' y = world_view w mid' y;
  td_keep : keep_mappings w w';
  td_back : ∀ mid' mo1, w_mappings w' !! mid' = Some mo1 →
    ∃ mo0 l, w_mappings w !! mid' = Some mo0 ∧ mo_mapping mo1 = set_segmentStatus (mo_mapping mo0) l;
  td_mapping : w_mappings w' !! mid = Some mo';
  td_const : ∃ l, mo_mapping mo' = set_segmentStatus (mo_mapping mo) l;
  td_opened : ∀ i, 0 ≤ i < segments (mo_mapping mo) → opened (mo_mapping mo) i → opened (mo_mapping mo') i;
}.

Lemma touched_refl w mid mo : world_inv [] w → w_mappings w !! mid = Some mo → touched w mid mo w mo.
Proof.
  intros Hw Hmo. split; try done.
  - intros mid1 mo1 Hmo1. exists (segmentStatus (mo_mapping mo1)). rewrite Hmo1. by destruct mo1 as [[] ?].
  - intros mid1 mo1 Hmo1. exists mo1, (segmentStatus (mo_mapping mo1)). split; [done|]. by destruct (mo_mapping mo1).
  - exists (segmentStatus (mo_mapping mo)). by destruct (mo_mapping mo).
Qed.

Lemma touched_trans w mid mo w1 mo1 w2 mo2 :
  touched w mid mo w1 mo1 → touched w1 mid mo1 w2 mo2 → touched w mid mo w2 mo2.
Proof.
  intros [A1 A2 A3 A4 A5 [l1 A6] A7] [B1 B2 B3 B4 B5 [l2 B6] B7]. split; try done.
  - intros. by rewrite B2, A2.
  - by eapply keep_mappings_trans.
  - intros mid' mo' Hmo'. destruct (B4 _ _ Hmo') as (mo0 & l & Hmo0 & E). destruct (A4 _ _ Hmo0) as (mo3 & l3 & Hmo3 & E3).
    exists mo3, l. split; [done|]. by rewrite E, E3.
  - exists l2. by rewrite B6, A6.
  - intros i Hi Ho. apply B7; [by rewrite A6|]. by apply A7.
Qed.

Lemma touched_touchable w mid mo w' mo' : touched w mid mo w' mo' → touchable w mid mo → touchable w' mid mo'.
Proof.
  intros [A1 A2 A3 A4 A5 [l A6] A7] [B1 B2 B3 B4 B5]. split; rewrite ?A6; try done.
  - intros a mid1 mo1 Hmo1. destruct (A4 _ _ Hmo1) as (mo0 & l0 & Hmo0 & ->). exact (B5 a _ _ Hmo0).
Qed.

Lemma set_mapping_same (w : W) mid mo d :
  w_mappings w !! mid = Some mo → w_drivers w !! mo_driver mo = Some d →
  set_mapping w mid mo (mo_mapping mo) (w_vm w) d = w.
Proof.
  intros Hmo Hd. unfold set_mapping. replace (mkMapObj (mo_mapping mo) (mo_driver mo)) with mo by (by destruct mo).
  rewrite !insert_id by done. by destruct w.
Qed.

(** A byte the program may write is in an open segment. *)
Lemma writable_opened m v (d : D) x :
  mapping_inv m v d → 0 ≤ x < segments m * segmentSize m → writable v (baseAddress m + x) = true →
  opened m (x / segmentSize m).
Proof.
  intros [_ _ _ Hb] Hx Hwr. specialize (Hb x Hx). unfold byte_inv in Hb. unfold opened.
  destruct (mapped _); [|destruct Hb as (_ & _ & Hb & _); congruence].
  destruct (dirty _); [done|]. destruct Hb as (_ & Hb & _). congruence.
Qed.

(** A fault on a byte that cannot be accessed. *)
Lemma open_step w mid mo x isWrite :
  let m := mo_mapping mo in
  world_inv [] w → touchable w mid mo → 0 ≤ x < m_size m →
  permitted (w_vm w) isWrite (baseAddress m + x) = false →
  ∃ w' mo', handleFault fuel (got (baseAddress m + x)) w mid (baseAddress m + x) isWrite = Ok w' ∧
    touched w mid mo w' mo' ∧
    mapped (status_at (mo_mapping mo') (x / segmentSize m)) = true ∧
    dirty (status_at (mo_mapping mo') (x / segmentSize m)) = isWrite ∧
    ∀ i, 0 ≤ i < segments m → i ≠ x / segmentSize m → status_at (mo_mapping mo') i = status_at m i.
Proof.
  intros m Hw [Hmo Hpol Hwr Hgot HT] Hx Hperm. set (a := baseAddress m + x) in *. fold m in Hpol, Hwr, Hgot, HT.
  destruct (wo_mapping _ _ Hw mid mo Hmo) as [(d & Hd & Hinv) _]. fold m in Hinv.
  pose proof (mi_geom _ _ _ Hinv) as Hg. pose proof (wg_size _ Hg) as Hsz.
  assert (Hprot : protection m ≠ PROT_NONE_bits) by (intros E; by rewrite E in Hwr).
  destruct (fault_opens m (w_vm w) d (got a) x isWrite Hinv Hx (Hgot a) Hprot (λ _, Hwr) Hperm)
    as (m1 & v1 & Hrun & Hk & _ & Hst & Hother).
  destruct (k_const _ _ _ _ _ _ _ Hk) as [l1 Hm1].
  exists (set_mapping w mid mo m1 v1 d), (mkMapObj m1 (mo_driver mo)).
  cbn [mo_mapping]. rewrite Hst. split; [|split; [split|done]].
  - unfold handleFault. rewrite Hmo. cbn [deref mbind result_bind]. rewrite Hd. cbn [deref mbind result_bind].
    fold m. fold a in Hrun. rewrite Hrun. cbn [mbind result_bind]. unfold policy_of in Hpol.
    destruct (Z.eqb_spec (localPolicy m) 0) as [|]; [|done]. cbn [negb mbind result_bind]. by rewrite Hpol.
  - apply (pending_untracked _ mid (mkMapObj m1 (mo_driver mo)) (x / segmentSize m));
      [|cbn; by rewrite lookup_insert_eq|by subst m1].
    eapply (step_inv []); eauto; [|intros ? ? ? []%elem_of_nil].
    intros i Hi Hm. fold m in Hi |- *. destruct (decide (i = x / segmentSize m)) as [->|Hne]; [right; left|left].
    rewrite Hother in Hm by done. split; [done|]. by apply not_elem_of_nil.
  - intros. eapply (step_view []); eauto.
  - by eapply set_mapping_keep.
  - intros mid1 mo1. cbn. destruct (decide (mid1 = mid)) as [->|Hne].
    + rewrite lookup_insert_eq. intros [= <-]. exists mo, l1. done.
    + rewrite lookup_insert_ne by done. intros Hmo1. exists mo1, (segmentStatus (mo_mapping mo1)).
      split; [done|]. by destruct (mo_mapping mo1).
  - cbn. by rewrite lookup_insert_eq.
  - by exists l1.
  - intros i Hi [Hm Hdi]. fold m in Hi, Hm, Hdi. unfold opened. cbn.
    destruct (decide (i = x / segmentSize m)) as [->|Hne]; [|by rewrite Hother].
    rewrite Hst. destruct isWrite; [done|]. exfalso.
    pose proof (mi_bytes _ _ _ Hinv x ltac:(lia)) as Hb. unfold byte_inv in Hb. rewrite Hm, Hdi in Hb.
    unfold permitted in Hperm. destruct Hb as (_ & Hb & _). fold a in Hb. congruence.
Qed.

(** A fault that changes nothing. *)
Lemma idle_step w mid mo x isWrite :
  let m := mo_mapping mo in
  world_inv [] w → touchable w mid mo → 0 ≤ x < m_size m →
  mapped (status_at m (x / segmentSize m)) = true → dirty (status_at m (x / segmentSize m)) = isWrite →
  ∀ fuel' got', handleFault fuel' got' w mid (baseAddress m + x) isWrite = Ok w.
Proof.
  intros m Hw [Hmo _ Hwr _ _] Hx Hm Hdi fuel' got'. fold m in Hwr.
  destruct (wo_mapping _ _ Hw mid mo Hmo) as [(d & Hd & Hinv) _]. fold m in Hinv.
  pose proof (wg_size _ (mi_geom _ _ _ Hinv)) as Hsz.
  assert (Hprot : protection m ≠ PROT_NONE_bits) by (intros E; by rewrite E in Hwr).
  unfold handleFault. rewrite Hmo. cbn [deref mbind result_bind]. rewrite Hd. cbn [deref mbind result_bind]. fold m.
  rewrite (fault_entry m (w_vm w) d Hinv got') by (done || lia). cbv zeta.
  rewrite Hm, Hdi, eqb_reflx. cbn [andb mbind result_bind]. by rewrite set_mapping_same.
Qed.

Lemma touch_step w mid mo x :
  world_inv [] w → touchable w mid mo → 0 ≤ x < m_size (mo_mapping mo) →
  ∃ w' mo', handleFault fuel (got (baseAddress (mo_mapping mo) + x)) w mid (baseAddress (mo_mapping mo) + x) true = Ok w' ∧
    touched w mid mo w' mo' ∧ opened (mo_mapping mo') (x / segmentSize (mo_mapping mo)).
Proof.
  intros Hw Ht Hx. destruct (permitted (w_vm w) true (baseAddress (mo_mapping mo) + x)) eqn:Hperm.
  - destruct (wo_mapping _ _ Hw mid mo (tc_mapping _ _ _ Ht)) as [(d & Hd & Hinv) _].
    pose proof (wg_size _ (mi_geom _ _ _ Hinv)).
    assert (Ho : opened (mo_mapping mo) (x / segmentSize (mo_mapping mo)))
      by (eapply writable_opened; [exact Hinv|lia|exact Hperm]).
    exists w, mo. split; [by apply idle_step; try apply Ho|]. split; [apply touched_refl; [done|apply Ht]|done].
  - destruct (open_step w mid mo x true Hw Ht Hx Hperm) as (w' & mo' & Hrun & Htd & Hm & Hdi & _).
    exists w', mo'. done.
Qed.

(** The touched addresses are at most a page apart. *)
Lemma touchLoop_ok rounds w mid mo x i :
  world_inv [] w → touchable w mid mo → 0 ≤ x → -4096 ≤ i → x + i < m_size (mo_mapping mo) →
  i < 4096 * Z.of_nat rounds →
  ∃ w' mo', touchLoop fuel got rounds w mid (baseAddress (mo_mapping mo) + x) i true = Ok w' ∧
    touched w mid mo w' mo' ∧
    ∀ y, 0 ≤ y ≤ i → (i - y) mod 4096 = 0 → opened (mo_mapping mo') ((x + y) / segmentSize (mo_mapping mo)).
Proof.
  revert w mo i. induction rounds as [|rounds IH]; intros w mo i Hw Ht Hx Hlo Hhi Hr; cbn [touchLoop];
    (destruct (Z.leb_spec 0 i) as [Hi|Hi]; [|exists w, mo; split; [done|]; split;
      [by apply touched_refl; [|apply Ht]|intros; lia]]); [lia|].
  destruct (touch_step w mid mo (x + i)) as (w1 & mo1 & Hrun & Ht1 & Ho); [done|done|lia|].
  rewrite Z.add_assoc in Hrun. rewrite Hrun. cbn [mbind result_bind].
  destruct (td_const _ _ _ _ _ Ht1) as [l1 E1].
  destruct (IH w1 mo1 (i - 4096)) as (w2 & mo2 & Hrun2 & Ht2 & Hops);
    [apply Ht1|by eapply touched_touchable|done|lia|rewrite E1; cbn; lia|lia|].
  rewrite E1 in Hrun2. cbn in Hrun2. exists w2, mo2. split; [done|]. split; [by eapply touched_trans|].
  intros y Hy Hmod. destruct (decide (y = i)) as [->|Hne].
  - destruct (wo_mapping _ _ Hw mid mo (tc_mapping _ _ _ Ht)) as [(d & _ & Hinv) _].
    pose proof (mi_geom _ _ _ Hinv) as Hg. pose proof (wg_size _ Hg).
    apply (td_opened _ _ _ _ _ Ht2); [|done]. rewrite E1. cbn. apply segment_lt; [done|lia].
  - rewrite E1 in Hops. cbn in Hops. apply Hops.
    + split; [lia|]. apply Z.mod_divide in Hmod as [q Hq]; [|lia]. lia.
    + replace (i - 4096 - y) with (i - y + (-1) * 4096) by lia. by rewrite Z.mod_add.
Qed.

Lemma page_cover ss x y j prev :
  4096 ≤ ss → prev ≤ y ≤ j → j - prev ≤ 4096 → (x + y) / ss = (x + j) / ss ∨ (x + y) / ss = (x + prev) / ss.
Proof.
  intros Hss Hy Hj. set (q := (x + y) / ss).
  assert (Hq : q * ss ≤ x + y < (q + 1) * ss) by (unfold q; pose proof (Z.div_mod (x + y) ss); pose proof (Z.mod_pos_bound (x + y) ss); nia).
  destruct (decide (x + j < (q + 1) * ss)); [left|right].
  - apply (Z.div_unique_pos _ _ _ (x + j - q * ss)); nia.
  - apply (Z.div_unique_pos _ _ _ (x + prev - q * ss)); nia.
Qed.

Lemma ummap_touch_ok w mid mo x n :
  world_inv [] w → touchable w mid mo → 0 ≤ x → 0 < n < 2 ^ 63 → x + n ≤ m_size (mo_mapping mo) →
  ∃ w' mo', ummap_touch fuel got w mid (baseAddress (mo_mapping mo) + x) n true = Ok w' ∧
    touched w mid mo w' mo' ∧
    ∀ y, 0 ≤ y < n → opened (mo_mapping mo') ((x + y) / segmentSize (mo_mapping mo)).
Proof.
  intros Hw Ht Hx Hn Hsz. set (m := mo_mapping mo) in *. assert (2 ^ 63 < SIZE_MOD) by done.
  destruct (wo_mapping _ _ Hw mid mo (tc_mapping _ _ _ Ht)) as [(d & _ & Hinv) _]. fold m in Hinv.
  pose proof (mi_geom _ _ _ Hinv) as Hg. pose proof (wg_size _ Hg).
  assert (Hss : 4096 ≤ segmentSize m).
  { destruct (wg_base _ Hg) as (_ & _ & Hpos & Hmod). unfold UMMAP_PAGE_SIZE in Hmod.
    apply Z.mod_divide in Hmod as [q Hq]; lia. }
  unfold ummap_touch. destruct (Z.eqb_spec n 0); [lia|]. rewrite size_sub, to_signed_small by lia.
  destruct (touchLoop_ok (S (Z.to_nat (n / 4096))) w mid mo x (n - 1)) as (w1 & mo1 & Hrun1 & Ht1 & Ho1);
    [done|done|lia|lia|fold m; lia| |].
  { pose proof (Z.div_mod n 4096). pose proof (Z.mod_pos_bound n 4096). pose proof (Z.div_pos n 4096). lia. }
  fold m in Hrun1, Ho1. rewrite Hrun1. cbn [mbind result_bind]. destruct (td_const _ _ _ _ _ Ht1) as [l1 E1]. fold m in E1.
  destruct (touch_step w1 mid mo1 x) as (w2 & mo2 & Hrun & Ht2 & Ho2);
    [apply Ht1|by eapply touched_touchable|rewrite E1; cbn; lia|].
  rewrite E1 in Hrun, Ho2. cbn in Hrun, Ho2. exists w2, mo2. split; [done|]. split; [by eapply touched_trans|].
  assert (Hkeep : ∀ y, 0 ≤ y < n → opened (mo_mapping mo1) ((x + y) / segmentSize m) →
    opened (mo_mapping mo2) ((x + y) / segmentSize m)).
  { intros y Hy. apply (td_opened _ _ _ _ _ Ht2). rewrite E1. cbn. apply segment_lt; [done|lia]. }
  intros y Hy. set (j := y + (n - 1 - y) mod 4096).
  pose proof (Z.div_mod (n - 1 - y) 4096). pose proof (Z.mod_pos_bound (n - 1 - y) 4096).
  pose proof (Z.mod_le (n - 1 - y) 4096).
  assert (Hjm : (n - 1 - j) mod 4096 = 0).
  { replace (n - 1 - j) with ((n - 1 - y) / 4096 * 4096) by lia. by apply Z.mod_mul. }
  assert (Hj : 0 ≤ j < n) by lia.
  destruct (decide (0 ≤ j - 4096)) as [Hp|Hp].
  - destruct (page_cover (segmentSize m) x y j (j - 4096)) as [E | E]; [lia|lia|lia|rewrite E..].
    + apply Hkeep; [lia|]. apply Ho1; [lia|done].
    + apply Hkeep; [lia|]. apply Ho1; [lia|].
      replace (n - 1 - (j - 4096)) with (n - 1 - j + 1 * 4096) by lia. by rewrite Z.mod_add.
  - destruct (page_cover (segmentSize m) x y j 0) as [E | E]; [lia|lia|lia|rewrite E..].
    + apply Hkeep; [lia|]. apply Ho1; [lia|done].
    + rewrite Z.add_0_r. exact Ho2.
Qed.

(** ** Bytes written by the kernel *)

Lemma write_bytes_snoc v a data b :
  write_bytes v a (data ++ [b]) = poke (write_bytes v a data) (a + Z.of_nat (length data)) b.
Proof.
  unfold write_bytes, poke. cbn. f_equal. apply functional_extensionality. intros y. rewrite length_app. cbn.
  destruct (Z.eqb_spec y (a + Z.of_nat (length data))) as [->|Hne].
  - case_range; [|lia]. replace (Z.to_nat _) with (length data) by lia. by rewrite list_lookup_middle.
  - case_range; try lia; try done. by rewrite lookup_app_l by lia.
Qed.

Definition fill_world (w : W) (a : Z) (data : list Z) : W :=
  mkWorld (w_heap w) (write_bytes (w_vm w) a data) (w_mappings w) (w_drivers w) (w_policies w) (w_quotas w).

Lemma fill_world_ok w mid mo x data :
  world_inv [] w → w_mappings w !! mid = Some mo → 0 ≤ x → x + Z.of_nat (length data) ≤ m_size (mo_mapping mo) →
  all_writable (w_vm w) (baseAddress (mo_mapping mo) + x) (Z.of_nat (length data)) →
  let w' := fill_world w (baseAddress (mo_mapping mo) + x) data in
  world_inv [] w' ∧ ∀ mid' y, world_view w' mid' y =
    if decide (mid' = mid ∧ x ≤ y < x + Z.of_nat (length data)) then data !! Z.to_nat (y - x) else world_view w mid' y.
Proof.
  intros Hw Hmo Hx. induction data as [|b data IH] using rev_ind; intros Hsz Hwr; cbv zeta.
  - replace (fill_world w _ []) with w.
    + split; [done|]. intros. rewrite decide_False by (cbn; lia). done.
    + unfold fill_world, write_bytes. cbn. destruct w as [h [mem pr] ? ? ? ?]. cbn. do 2 f_equal.
      apply functional_extensionality. intros y. case_range; [lia|done].
  - rewrite length_app in Hsz, Hwr. cbn in Hsz, Hwr.
    destruct IH as [Hw1 Hv1]; [lia|intros a Ha; apply Hwr; lia|].
    set (a := baseAddress (mo_mapping mo) + x) in *. set (w1 := fill_world w a data) in *.
    destruct (poke_world_ok [] w1 mid mo (x + Z.of_nat (length data)) b Hw1 Hmo) as [Hw2 Hv2]; [lia| |].
    { apply Hwr. lia. }
    assert (E : fill_world w a (data ++ [b]) = poke_world w1 (baseAddress (mo_mapping mo) + (x + Z.of_nat (length data))) b).
    { unfold fill_world, poke_world. rewrite write_bytes_snoc. cbn. do 2 f_equal. lia. }
    rewrite E. split; [done|]. intros mid' y. rewrite Hv2, Hv1, length_app. cbn.
    destruct (decide (mid' = mid)) as [->|]; [|rewrite !decide_False by tauto; done].
    destruct (decide (y = x + Z.of_nat (length data))) as [->|].
    + rewrite (decide_True (P := mid = mid ∧ _ = _)) by done. rewrite (decide_True (P := mid = mid ∧ _ ≤ _ < _)) by lia.
      replace (Z.to_nat _) with (length data) by lia. by rewrite list_lookup_middle.
    + rewrite (decide_False (P := mid = mid ∧ y = _)) by tauto.
      destruct (decide (x ≤ y < x + Z.of_nat (length data))).
      * rewrite !decide_True by lia. by rewrite lookup_app_l by lia.
      * rewrite !decide_False by lia. done.
Qed.

Lemma find_mapping_ok (l : L) mid mo buf :
  gblHandler l = true → handler_inv (lib l) → w_mappings (process (lib l)) !! mid = Some mo →
  baseAddress (mo_mapping mo) ≤ buf < baseAddress (mo_mapping mo) + m_size (mo_mapping mo) →
  find_mapping l buf = Ok mid ∧ (mid =? 0) = false ∧ Registry.getMapping (mappingRegistry (lib l)) buf = Ok mid.
Proof.
  intros Hl Hg Hmo Hbuf. destruct (findMapping_ok (lib l) mid mo buf Hg Hmo Hbuf) as (Hget & Hmid & _).
  destruct (wo_mapping _ _ (hi_world _ Hg) mid mo Hmo) as [(d & _ & Hinv) _].
  pose proof (wg_base _ (mi_geom _ _ _ Hinv)) as (Hbase & _).
  split; [|split; [by apply Z.eqb_neq|done]].
  unfold find_mapping, getGlobalhandler, GlobalHandler.getMapping. rewrite Hl. cbn [assume mbind result_bind].
  destruct (Z.eqb_spec buf 0); [lia|]. cbn [negb assume mbind result_bind]. by rewrite Hget.
Qed.

(** Without policy everything asked is prefetched. *)
Lemma prefetch_all (l : L) mid mo count :
  w_mappings (process (lib l)) !! mid = Some mo → policy_of (mo_mapping mo) = 0 → count < SIZE_MOD →
  prefetch_size l mid count = Ok count.
Proof.
  intros Hmo Hpol Hc. unfold prefetch_size. rewrite Hmo. cbn [deref mbind result_bind].
  replace (policy_limit (process (lib l)) (mo_mapping mo)) with SIZE_MAX.
  - rewrite Z.min_l by (unfold SIZE_MAX; lia). done.
  - unfold policy_of in Hpol. unfold policy_limit, getPolicyMaxMemory.
    destruct (Z.eqb_spec (localPolicy (mo_mapping mo)) 0) as [E|]; [|done]. by rewrite Hpol.
Qed.

(** ** A read into a mapping *)

(** The bytes [o] arrived at byte [x] of mapping [mid], or an error that is not EFAULT. *)
Definition received (mid x : Z) (l : L) (o : option (list Z)) (res : Z) (e : errno) (l' : L) : Prop :=
  handler_inv (lib l') ∧ gblHandler l' = gblHandler l ∧
  match o with
  | Some data => res = Z.of_nat (length data) ∧ ∀ mid' y, world_view (process (lib l')) mid' y =
      if decide (mid' = mid ∧ x ≤ y < x + Z.of_nat (length data)) then data !! Z.to_nat (y - x)
      else world_view (process (lib l)) mid' y
  | None => res = -1 ∧ e ≠ EFAULT ∧
      ∀ mid' y, world_view (process (lib l')) mid' y = world_view (process (lib l)) mid' y
  end.

Lemma call_read_ok (k : K) (l : L) fd mid mo x n count :
  handler_inv (lib l) → w_mappings (process (lib l)) !! mid = Some mo →
  0 ≤ x → 0 < n ≤ count → x + count ≤ m_size (mo_mapping mo) →
  let buf := baseAddress (mo_mapping mo) + x in
  delivers k (memory l) fd buf n (libc_read k (memory l) fd buf count) →
  ∃ res e o k' l', call_read (k, l) fd buf count = (res, e, (k', l')) ∧ incoming k fd n = (o, k') ∧
    failed res e EFAULT = false ∧ received mid x l o res e l'.
Proof.
  intros Hg Hmo Hx Hn Hsz buf Hdel. unfold delivers in Hdel. unfold call_read. cbn [fst snd].
  destruct (incoming k fd n) as [[data|] k'] eqn:E.
  - destruct Hdel as (Hwr & e & Hout). rewrite Hout. pose proof (incoming_length k fd n data k' ltac:(lia) E) as Hlen.
    destruct (fill_world_ok (process (lib l)) mid mo x data (hi_world _ Hg) Hmo Hx ltac:(lia) Hwr) as [Hw' Hv'].
    eexists _, e, (Some data), k', _. split; [done|]. split; [done|]. split.
    { unfold failed. destruct (Z.eqb_spec (Z.of_nat (length data)) (-1)); [lia|done]. }
    split; [|split; [done|split; [done|exact Hv']]].
    destruct Hg as [_ Hr He]. split; [exact Hw'|exact Hr|exact He].
  - destruct Hdel as (e & He & Hout). rewrite Hout. eexists _, e, None, k', _. split; [done|]. split; [done|].
    split; [unfold failed; by rewrite bool_decide_eq_false_2|].
    assert (El : set_memory l (memory l) = l) by (destruct l as [? ? ? [? ? []]]; reflexivity).
    rewrite El. done.
Qed.

(** C17: A program that preloads the wrapper may read into a mapping: for a
    buffer inside a mapping without policy that the program may write, [read] never
    fails with EFAULT; it returns what the descriptor delivers for a request of the whole
    count or less, those bytes are what the program then sees in the buffer, every other
    byte of every mapping is as before, and the invariant of the library is kept. *)
Theorem read_fills_mapping (k : K) (l : L) fd mid mo x count :
  gblHandler l = true → handler_inv (lib l) → touchable (process (lib l)) mid mo →
  0 ≤ x → 0 < count < 2 ^ 63 → x + count ≤ m_size (mo_mapping mo) →
  ∃ n o res e k' l', read fuel got (k, l) fd (baseAddress (mo_mapping mo) + x) count = Ok (res, e, (k', l')) ∧
    0 < n ≤ count ∧ incoming k fd n = (o, k') ∧ received mid x l o res e l'.
Proof.
  intros Hl Hg Ht Hx Hn Hsz. pose proof (tc_mapping _ _ _ Ht) as Hmo. set (m := mo_mapping mo) in *.
  set (buf := baseAddress m + x). unfold read.
  destruct (libc_read_law k (memory l) fd buf count) as [(n & Hnc & Hdel)|[Hfault Hnw]]; [lia| |].
  { destruct (call_read_ok k l fd mid mo x n count Hg Hmo Hx Hnc Hsz Hdel) as (res & e & o & k' & l' & Hrun & Hin & Hf & Hrec).
    fold m buf in Hrun. rewrite Hrun, Hf. by exists n, o, res, e, k', l'. }
  unfold call_read at 1. cbn [fst snd]. rewrite Hfault.
  change (failed (-1) EFAULT EFAULT) with true. cbv iota.
  assert (El : set_memory l (memory l) = l) by (destruct l as [? ? ? [? ? []]]; reflexivity). rewrite El. cbn [fst snd].
  destruct (wo_mapping _ _ (hi_world _ Hg) mid mo Hmo) as [(d & _ & Hinv) _]. fold m in Hinv.
  pose proof (wg_size _ (mi_geom _ _ _ Hinv)).
  destruct (find_mapping_ok l mid mo buf Hl Hg Hmo ltac:(unfold buf, m in *; lia)) as (Hfind & Hmid & _).
  rewrite Hfind. cbn [mbind result_bind]. rewrite Hmid.
  rewrite (prefetch_all l mid mo count Hmo (tc_policy _ _ _ Ht)) by (unfold SIZE_MOD; lia). cbn [mbind result_bind].
  destruct (ummap_touch_ok (process (lib l)) mid mo x count (hi_world _ Hg) Ht Hx Hn Hsz)
    as (w1 & mo1 & Hrun1 & Ht1 & Hopen).
  unfold prefetch. fold m buf in Hrun1. rewrite Hrun1. cbn [mbind result_bind].
  destruct (td_const _ _ _ _ _ Ht1) as [l1 E1]. fold m in E1.
  assert (Hwr : all_writable (memory (with_process l w1)) buf count).
  { intros a Ha. cbn. pose proof (world_permitted w1 mid mo1 (a - baseAddress m) true (td_inv _ _ _ _ _ Ht1)
      (td_mapping _ _ _ _ _ Ht1)) as Hp. rewrite E1 in Hp. cbn in Hp. unfold buf in Ha.
    replace (baseAddress m + (a - baseAddress m)) with a in Hp by lia.
    specialize (Hopen (a - buf) ltac:(unfold buf; lia)). rewrite E1 in Hopen. unfold opened, buf in Hopen.
    replace (x + (a - (baseAddress m + x))) with (a - baseAddress m) in Hopen by lia.
    apply Hp; [lia|apply Hopen|apply Hopen]. }
  assert (Hg1 : handler_inv (set_process (lib l) w1)) by (apply set_process_inv; [done|apply Ht1..]).
  destruct (libc_read_law k (memory (with_process l w1)) fd buf count) as [(n & Hnc & Hdel)|[_ Hbad]]; [lia| |done].
  destruct (call_read_ok k (with_process l w1) fd mid mo1 x n count) as (res & e & o & k' & l' & Hrun & Hin & Hf & Hrec);
    [exact Hg1|apply Ht1|done|done|rewrite E1; exact Hsz|rewrite E1; exact Hdel|].
  rewrite E1 in Hrun. change (baseAddress (set_segmentStatus m l1) + x) with buf in Hrun.
  exists n, o, res, e, k', l'. rewrite Hrun. split; [done|]. split; [done|]. split; [done|].
  destruct Hrec as (H1' & H2' & H3'). split; [done|]. split; [done|].
  destruct o as [data|].
  - destruct H3' as [-> Hv]. split; [done|]. intros mid' y. rewrite Hv. destruct (decide _); [done|].
    apply (td_views _ _ _ _ _ Ht1).
  - destruct H3' as (-> & He & Hv). split; [done|]. split; [done|]. intros mid' y. rewrite Hv. apply (td_views _ _ _ _ _ Ht1).
Qed.
End Theorems.

(** ** A write from a mapping *)

(** [write] touches for reading what the program may have open for writing, and a read
    fault on such a segment closes it for ever. *)
Section Blocked.
Context {D P K : Type} `{StorageDriver D} `{TrackingPolicy P} `{Libc K}.
Context (fuel : nat) (got : Z → option Z).
Abbreviation L := (Library D P).
Abbreviation W := (World D P).
Context (mid : Z) (m : Mapping) (x count : Z).
Let buf := baseAddress m + x.



Context (Hx : 0 ≤ x) (Hcount : 0 < count) (Hsz : x + count ≤ m_size m).





End Blocked.

Section WriteTheorem.
Context {D P K : Type} `{StorageDriver D} `{TrackingPolicy P} `{Libc K}.
Context (fuel : nat) (got : Z → option Z).

End WriteTheorem.

(** ** A concrete C library

    One descriptor delivers the bytes of a pipe, and a read checks the buffer first. *)
Section Demo.
Record Pipe := mkPipe { pending : list Z }.

Definition can_write (v : vm) (buf n : Z) : bool := forallb (λ a, writable v a) (seqZ buf n).
Definition can_read (v : vm) (buf n : Z) : bool := forallb (λ a, readable v a) (seqZ buf n).

Definition pipe_read (k : Pipe) (v : vm) (fd buf count : Z) : Z * errno * (Pipe * vm) :=
  if can_write v buf count then
    let data := take (Z.to_nat count) (pending k) in
    (Z.of_nat (length data), EOTHER, (mkPipe (drop (Z.to_nat count) (pending k)), write_bytes v buf data))
  else (-1, EFAULT, (k, v)).

Definition pipe_write (k : Pipe) (v : vm) (fd buf count : Z) : Z * errno * Pipe :=
  if can_read v buf count then (count, EOTHER, mkPipe (pending k ++ read_bytes v buf count))
  else (-1, EFAULT, k).

#[export] Instance Pipe_libc : Libc Pipe := {
  libc_read := pipe_read; libc_write := pipe_write;
  libc_fread k v ptr size nmemb _ :=
    let '(res, e, s) := pipe_read k v 0 ptr (size * nmemb) in (if res <? 0 then 0 else res / size, e, s);
  libc_fwrite k v ptr size nmemb _ :=
    let '(res, e, k) := pipe_write k v 0 ptr (size * nmemb) in (if res <? 0 then 0 else res / size, e, k) }.

Lemma can_write_spec v buf n : can_write v buf n = true ↔ all_writable v buf n.
Proof.
  unfold can_write, all_writable. rewrite forallb_forall. split; intros Hall a Ha.
  - apply Hall. apply list_elem_of_In, elem_of_seqZ. exact Ha.
  - apply list_elem_of_In, elem_of_seqZ in Ha. by apply Hall.
Qed.

#[export] Instance Pipe_files : LibcFiles Pipe.
Proof.
  refine {| incoming k _ n := (Some (take (Z.to_nat n) (pending k)), mkPipe (drop (Z.to_nat n) (pending k))) |}.
  - intros k _ n data k' Hn [= <- <-]. rewrite length_take. lia.
  - intros k v fd buf count Hc. cbn. unfold pipe_read. destruct (can_write v buf count) eqn:E.
    + left. exists count. split; [lia|]. apply can_write_spec in E. split; [|by eexists].
      intros a Ha. apply E. rewrite length_take in Ha. lia.
    + right. split; [done|]. intros Hall. apply can_write_spec in Hall. congruence.
Defined.

(** The mapping of [demo_m], without a policy. *)
Definition rw_world : World MemoryDriver FifoPolicy.FifoPolicy :=
  mkWorld ∅ demo_v {[7 := mkMapObj demo_m 1]} {[1 := demo_driver]} ∅ ∅.
Definition rw_library : Library MemoryDriver FifoPolicy.FifoPolicy :=
  mkLibrary 1 true (mkSignals SegfaultHandler SIG_DFL) (mkHandler [mkEntry 7 65536 (65536 + 6000)] ∅ rw_world).

Lemma rw_mappings mid mo : w_mappings rw_world !! mid = Some mo → mid = 7 ∧ mo = mkMapObj demo_m 1.
Proof. cbn [rw_world w_mappings]. rewrite lookup_singleton_Some. intros [<- <-]. split; reflexivity. Qed.

Lemma rw_policy : localPolicy demo_m = 0 ∧ globalPolicy demo_m = 0.
Proof. vm_compute. split; reflexivity. Qed.

Lemma rw_handler_inv : handler_inv (lib rw_library).
Proof.
  destruct demo_fields as (Hb & _ & _ & Hsz & _). split.
  - split.
    + intros mid mo [-> ->]%rw_mappings. split; [|left; apply rw_policy]. exists demo_driver. split; [reflexivity|exact demo_inv].
    + intros mid mid' mo mo' [-> _]%rw_mappings [-> _]%rw_mappings. reflexivity.
    + intros mid mid' mo mo' a [-> _]%rw_mappings [-> _]%rw_mappings. congruence.
    + intros pid p. cbn [rw_library lib process rw_world w_policies]. rewrite lookup_empty. discriminate.
    + intros pid pid' p p' x. cbn [rw_library lib process rw_world w_policies]. rewrite lookup_empty. discriminate.
  - split; cbn; [intros e ->%list_elem_of_singleton; cbn; lia|apply NoDup_singleton|].
    intros e e' a ->%list_elem_of_singleton ->%list_elem_of_singleton. congruence.
  - intros [mid b e]. cbn [rw_library lib mappingRegistry process]. rewrite list_elem_of_singleton. split.
    + intros [= -> -> ->]. eexists. split; [reflexivity|]. cbn [mo_mapping re_base re_end]. rewrite Hb, Hsz. split; reflexivity.
    + intros (mo & [E1 ->]%rw_mappings & Hbase & Hend). cbn [re_mapping re_base re_end mo_mapping] in *. subst mid.
      rewrite Hb in Hbase, Hend. rewrite Hsz in Hend. by subst.
Qed.

Lemma rw_touchable : touchable (λ _, Some 1048576) rw_world 7 (mkMapObj demo_m 1).
Proof.
  destruct demo_fields as (_ & _ & _ & _ & _ & Hp & _). split.
  - reflexivity.
  - reflexivity.
  - cbn [mo_mapping]. rewrite Hp. reflexivity.
  - intros _. exact demo_temp.
  - intros _ mid mo [_ ->]%rw_mappings. exact (proj2 demo_temp).
Qed.

Lemma read_fills_mapping_witness :
  ∃ n res e k' l', read 10 (λ _, Some 1048576) (mkPipe [9; 8; 7; 6], rw_library) 3 (65536 + 4094) 3 =
      Ok (res, e, (k', l')) ∧ 0 < n ≤ 3 ∧ res = n ∧ world_view (process (lib l')) 7 4094 = Some 9.
Proof.
  destruct demo_fields as (Hb & Hs & Hss & Hsz & _ & Hp & _).
  destruct (read_fills_mapping (K := Pipe) 10 (λ _, Some 1048576) (mkPipe [9; 8; 7; 6]) rw_library 3 7 (mkMapObj demo_m 1) 4094 3)
    as (n & o & res & e & k' & l' & Hrun & Hn & Hin & _ & _ & Hrec).
  - reflexivity.
  - exact rw_handler_inv.
  - exact rw_touchable.
  - lia.
  - lia.
  - cbn [mo_mapping]. rewrite Hsz. lia.
  - cbn [mo_mapping] in Hrun. rewrite Hb in Hrun. exists n, res, e, k', l'. split; [exact Hrun|]. split; [exact Hn|].
    assert (n = 1 ∨ n = 2 ∨ n = 3) as Hcases by lia.
    destruct Hcases as [-> | [-> | ->]]; injection Hin as <- <-; destruct Hrec as [Hres Hv];
      (split; [exact Hres|rewrite Hv; reflexivity]).
Defined.

End Demo.
