(* ===== verification/Regex.v ===== *)
(** * Regular expressions

    The part of [std::regex] the sources use: character classes, concatenation,
    alternatives and repetition, on strings as lists of characters.  [re_match] is
    [std::regex_match] (the whole string has to match), computed with derivatives;
    [re_lang] is the language of an expression. *)

From Stdlib Require Strings.String.
From Stdlib Require Import Ascii.
From S2P Require Import Prelude.

Abbreviation chars := (list ascii).

(** A C string literal. *)
Definition str (s : string) : chars := Strings.String.list_ascii_of_string s.

Inductive regex : Type :=
  | RNone
  | REps
  | RClass (c : ascii → bool)
  | RCat (r1 r2 : regex)
  | RAlt (r1 r2 : regex)
  | RStar (r : regex).

Definition RPlus (r : regex) : regex := RCat r (RStar r).
Definition ROpt (r : regex) : regex := RAlt r REps.
Definition RChar (c : ascii) : regex := RClass (λ x, bool_decide (x = c)).
Fixpoint RString (s : chars) : regex :=
  match s with [] => REps | c :: s' => RCat (RChar c) (RString s') end.

Inductive re_lang : regex → chars → Prop :=
  | lang_eps : re_lang REps []
  | lang_class c p : p c = true → re_lang (RClass p) [c]
  | lang_cat r1 r2 s1 s2 : re_lang r1 s1 → re_lang r2 s2 → re_lang (RCat r1 r2) (s1 ++ s2)
  | lang_alt_l r1 r2 s : re_lang r1 s → re_lang (RAlt r1 r2) s
  | lang_alt_r r1 r2 s : re_lang r2 s → re_lang (RAlt r1 r2) s
  | lang_star_nil r : re_lang (RStar r) []
  | lang_star_app r s1 s2 : re_lang r s1 → re_lang (RStar r) s2 → re_lang (RStar r) (s1 ++ s2).

#[export] Hint Constructors re_lang : ummap.

Fixpoint nullable (r : regex) : bool :=
  match r with
  | RNone => false
  | REps => true
  | RClass _ => false
  | RCat r1 r2 => nullable r1 && nullable r2
  | RAlt r1 r2 => nullable r1 || nullable r2
  | RStar _ => true
  end.

Fixpoint deriv (a : ascii) (r : regex) : regex :=
  match r with
  | RNone => RNone
  | REps => RNone
  | RClass p => if p a then REps else RNone
  | RCat r1 r2 =>
      if nullable r1 then RAlt (RCat (deriv a r1) r2) (deriv a r2) else RCat (deriv a r1) r2
  | RAlt r1 r2 => RAlt (deriv a r1) (deriv a r2)
  | RStar r' => RCat (deriv a r') (RStar r')
  end.

Definition re_match (r : regex) (s : chars) : bool := nullable (foldl (λ r a, deriv a r) r s).

(** ** The matcher decides the language *)

Lemma lang_class_inv p s : re_lang (RClass p) s ↔ ∃ c, s = [c] ∧ p c = true.
Proof. split; [inversion 1; eauto|intros (c & -> & Hc); eauto with ummap]. Qed.

Lemma lang_cat_inv r1 r2 s :
  re_lang (RCat r1 r2) s ↔ ∃ s1 s2, s = s1 ++ s2 ∧ re_lang r1 s1 ∧ re_lang r2 s2.
Proof. split; [inversion 1; eauto|intros (s1 & s2 & -> & H1 & H2); eauto with ummap]. Qed.

Lemma lang_alt_inv r1 r2 s : re_lang (RAlt r1 r2) s ↔ re_lang r1 s ∨ re_lang r2 s.
Proof. split; [inversion 1; eauto|intros [?|?]; eauto with ummap]. Qed.

Lemma lang_eps_inv s : re_lang REps s ↔ s = [].
Proof. split; [by inversion 1|intros ->; constructor]. Qed.

Lemma lang_opt_inv r s : re_lang (ROpt r) s ↔ re_lang r s ∨ s = [].
Proof. unfold ROpt. by rewrite lang_alt_inv, lang_eps_inv. Qed.

Lemma nullable_lang r : nullable r = true ↔ re_lang r [].
Proof.
  induction r as [| |p|r1 IH1 r2 IH2|r1 IH1 r2 IH2|r IH]; cbn.
  - split; [done|inversion 1].
  - split; [constructor|done].
  - split; [done|inversion 1].
  - rewrite andb_true_iff, IH1, IH2, lang_cat_inv. split; [intros [??]; by exists [], []|].
    intros (s1 & s2 & [-> ->]%eq_sym%app_nil & ? & ?). done.
  - by rewrite orb_true_iff, IH1, IH2, lang_alt_inv.
  - split; [constructor|done].
Qed.

(** A non-empty string of [r*] starts with a non-empty string of [r]. *)
Lemma lang_star_cons r a s :
  re_lang (RStar r) (a :: s) ↔ ∃ s1 s2, s = s1 ++ s2 ∧ re_lang r (a :: s1) ∧ re_lang (RStar r) s2.
Proof.
  split.
  - intros Hs. remember (RStar r) as r' eqn:Er. remember (a :: s) as t eqn:Et. revert Er Et.
    induction Hs as [| | | | |r0|r0 s1 s2 H1 _ H2 IH2]; intros Er Et; try discriminate.
    injection Er as ->. destruct s1 as [|b s1]; [by apply IH2|].
    injection Et as -> <-. eauto.
  - intros (s1 & s2 & -> & H1 & H2). change (a :: s1 ++ s2) with ((a :: s1) ++ s2). by constructor.
Qed.

Lemma deriv_lang a r s : re_lang (deriv a r) s ↔ re_lang r (a :: s).
Proof.
  revert s. induction r as [| |p|r1 IH1 r2 IH2|r1 IH1 r2 IH2|r IH]; intros s; cbn.
  - split; inversion 1.
  - split; inversion 1.
  - rewrite lang_class_inv. destruct (p a) eqn:Hp.
    + rewrite lang_eps_inv. split; [intros ->; eauto|by intros (c & [= <- ->] & _)].
    + split; [inversion 1|intros (c & [= <- ->] & Hc); congruence].
  - assert (Hcat : re_lang (RCat (deriv a r1) r2) s ↔
      ∃ s1 s2, s = s1 ++ s2 ∧ re_lang r1 (a :: s1) ∧ re_lang r2 s2).
    { rewrite lang_cat_inv. by setoid_rewrite IH1. }
    assert (Hsplit : re_lang (RCat r1 r2) (a :: s) ↔
      re_lang (RCat (deriv a r1) r2) s ∨ re_lang r1 [] ∧ re_lang r2 (a :: s)).
    { rewrite Hcat, lang_cat_inv. split.
      - intros ([|b s1] & s2 & Hs & H1 & H2); cbn in Hs; [subst s2; by right|].
        injection Hs as -> ->. left. eauto.
      - intros [(s1 & s2 & -> & H1 & H2)|[H1 H2]]; [by exists (a :: s1), s2|by exists [], (a :: s)]. }
    rewrite Hsplit, <- nullable_lang. destruct (nullable r1).
    + rewrite lang_alt_inv, IH2. naive_solver.
    + naive_solver.
  - by rewrite !lang_alt_inv, IH1, IH2.
  - rewrite lang_cat_inv, lang_star_cons. by setoid_rewrite IH.
Qed.

Lemma re_match_lang r s : re_match r s = true ↔ re_lang r s.
Proof.
  unfold re_match. revert r. induction s as [|a s IH]; intros r; cbn; [apply nullable_lang|].
  by rewrite IH, deriv_lang.
Qed.

(** ** Common shapes *)

Lemma lang_star_class p s : re_lang (RStar (RClass p)) s ↔ Forall (λ c, p c = true) s.
Proof.
  induction s as [|a s IH]; [split; constructor|]. rewrite lang_star_cons, Forall_cons, <- IH. split.
  - intros (s1 & s2 & -> & (c & [= <- ->] & Hc)%lang_class_inv & H2). done.
  - intros [Ha Hs]. exists [], s. split; [done|]. split; [by constructor|done].
Qed.

Lemma lang_plus_class p s : re_lang (RPlus (RClass p)) s ↔ s ≠ [] ∧ Forall (λ c, p c = true) s.
Proof.
  unfold RPlus. rewrite lang_cat_inv. split.
  - intros (s1 & s2 & -> & (c & -> & Hc)%lang_class_inv & H2%lang_star_class). split; [done|by constructor].
  - intros [Hne Hall]. destruct s as [|c s]; [done|]. apply Forall_cons in Hall as [Hc Hs].
    exists [c], s. split; [done|]. split; [by constructor|]. by apply lang_star_class.
Qed.

Lemma lang_char c s : re_lang (RChar c) s ↔ s = [c].
Proof.
  unfold RChar. rewrite lang_class_inv. setoid_rewrite bool_decide_eq_true. split; [|eauto].
  by intros (? & -> & ->).
Qed.

Lemma lang_string t s : re_lang (RString t) s ↔ s = t.
Proof.
  revert s. induction t as [|c t IH]; intros s; cbn; [apply lang_eps_inv|].
  rewrite lang_cat_inv. setoid_rewrite IH. setoid_rewrite lang_char. split.
  - by intros (s1 & s2 & -> & -> & ->).
  - intros ->. by exists [c], t.
Qed.

(** ** Runs of a class *)

Fixpoint span (p : ascii → bool) (s : chars) : chars * chars :=
  match s with
  | [] => ([], [])
  | c :: s' => if p c then let '(a, b) := span p s' in (c :: a, b) else ([], s)
  end.

Lemma span_app p s1 s2 :
  Forall (λ c, p c = true) s1 → (∀ c, head s2 = Some c → p c = false) → span p (s1 ++ s2) = (s1, s2).
Proof.
  induction s1 as [|c s1 IH]; intros H1 H2; cbn.
  - destruct s2 as [|c s2]; [done|]. cbn. by rewrite (H2 c).
  - apply Forall_cons in H1 as [Hc H1]. by rewrite Hc, IH.
Qed.

Lemma span_eq p s :
  s = fst (span p s) ++ snd (span p s) ∧ Forall (λ c, p c = true) (fst (span p s)) ∧
  ∀ c, head (snd (span p s)) = Some c → p c = false.
Proof.
  induction s as [|c s IH]; cbn; [done|]. destruct (p c) eqn:Hc.
  - destruct (span p s) as [a b]. cbn in *. destruct IH as (-> & Ha & Hb). split; [done|]. split; [by constructor|done].
  - cbn. split; [done|]. split; [constructor|]. by intros ? [= <-].
Qed.
