(* ===== verification/HumanUnits.v ===== *)
(** * Numbers and sizes as text (src/src/common/HumanUnits.cpp)

    [atol] and [atoi] of the C library (a number too large is cut to the largest
    [long], as strtol does), and the two parsers of sizes such as 8MB. *)

From Stdlib Require Import Ascii.
From S2P Require Import Prelude Regex.

(** ** Numbers *)

Definition code (c : ascii) : Z := Z.of_N (N_of_ascii c).
Definition between (a b : Z) (c : ascii) : bool := (a <=? code c) && (code c <=? b).
Definition is_digit : ascii → bool := between 48 57.
Definition is_space (c : ascii) : bool := (code c =? 32) || between 9 13 c.

Definition digits_value (s : chars) : Z := foldl (λ acc c, 10 * acc + (code c - 48)) 0 s.

Definition LONG_MAX : Z := 2 ^ 63 - 1.
Definition LONG_MIN : Z := - 2 ^ 63.

Definition atol (s : chars) : Z :=
  let s := snd (span is_space s) in
  let '(neg, s) := match s with
                   | c :: s' => if code c =? 45 then (true, s') else
                                if code c =? 43 then (false, s') else (false, s)
                   | [] => (false, s)
                   end in
  let n := digits_value (fst (span is_digit s)) in
  if (neg : bool) then Z.max LONG_MIN (- n) else Z.min LONG_MAX n.

(** [(int) strtol(...)]. *)
Definition atoi (s : chars) : Z := to_int (atol s).

(** [%ld]: leading spaces, a sign, at least one digit. *)
Definition scan_long (s : chars) : option (Z * chars) :=
  let s := snd (span is_space s) in
  let '(sign, s') := match s with
                     | c :: s1 => if (code c =? 45) || (code c =? 43) then ([c], s1) else ([], s)
                     | [] => ([], s)
                     end in
  let '(digits, rest) := span is_digit s' in
  match digits with
  | [] => None
  | _ => Some (atol (sign ++ digits), rest)
  end.

(** [%d]: the same, stored in an [int]. *)
Definition scan_int (s : chars) : option (Z * chars) :=
  match scan_long s with Some (n, rest) => Some (to_int n, rest) | None => None end.

(** ** Sizes *)

Definition invalidFormat : error := Fatal "Fail to match human memory size, invalid format : '%1'".

Definition is_unit_char (c : ascii) : bool :=
  bool_decide (c ∈ ["K"; "M"; "G"; "T"; "B"]%char).

(** The loop of [fromHumanMemSizeNoRegexp] over the characters. *)
Definition scanChar (s : chars * chars) (c : ascii) : result (chars * chars) :=
  let '(number, unit) := s in
  if is_digit c then
    (if bool_decide (unit = []) then Ok (number ++ [c], unit) else Err invalidFormat)
  else if is_unit_char c then Ok (number, unit ++ [c])
  else Err invalidFormat.

Definition fromHumanMemSizeNoRegexp (value : chars) : result Z :=
  '(number, unit) ← foldM scanChar ([], []) value;
  let res := wrap (atol number) in
  assume (0 <? res) "Invalid null size : %1";;
  if bool_decide (unit = str "") || bool_decide (unit = str "B") then Ok res
  else if bool_decide (unit = str "KB") then Ok (res ⊗ 1024)
  else if bool_decide (unit = str "MB") then Ok (res ⊗ (1024 * 1024))
  else if bool_decide (unit = str "GB") then Ok (res ⊗ (1024 * 1024 * 1024))
  else if bool_decide (unit = str "TB") then Ok (res ⊗ (1024 * 1024 * 1024 * 1024))
  else Err (Fatal "Invalid unit: %1").

(** [cstHumanMemSizeRegex]: its groups are the digits and the unit. *)
Definition re_number : regex := RPlus (RClass is_digit).
Definition re_unit : regex :=
  ROpt (RCat (ROpt (RClass (λ c, bool_decide (c ∈ ["K"; "M"; "G"; "T"]%char)))) (RChar "B"%char)).
Definition cstHumanMemSizeRegex : regex := RCat re_number re_unit.

(** Both groups of the only way to match: [matches_groups] proves it. *)
Definition matchHumanSize (value : chars) : option (chars * chars) :=
  if re_match cstHumanMemSizeRegex value then Some (span is_digit value) else None.

Definition fromHumanMemSizeRegexp (value : chars) : result Z :=
  match matchHumanSize value with
  | Some (number, unit) =>
      let res := wrap (atol number) in
      assume (0 <? res) "Invalid null size : %1";;
      if bool_decide (unit = str "KB") then Ok (res ⊗ 1024)
      else if bool_decide (unit = str "MB") then Ok (res ⊗ (1024 * 1024))
      else if bool_decide (unit = str "GB") then Ok (res ⊗ (1024 * 1024 * 1024))
      else if bool_decide (unit = str "TB") then Ok (res ⊗ (1024 * 1024 * 1024 * 1024))
      else Ok res
  | None => Err invalidFormat
  end.

(** [regex]: the C++ library supports the expression, else its constructor throws. *)
Definition fromHumanMemSize (regex : bool) (value : chars) : result Z :=
  if regex then fromHumanMemSizeRegexp value else fromHumanMemSizeNoRegexp value.

(** ** The groups *)

Definition units : list chars := [str ""; str "B"; str "KB"; str "MB"; str "GB"; str "TB"].

Lemma re_unit_lang u : re_lang re_unit u ↔ u ∈ units.
Proof.
  unfold re_unit. rewrite lang_opt_inv, lang_cat_inv. setoid_rewrite lang_opt_inv.
  setoid_rewrite lang_char. setoid_rewrite lang_class_inv. setoid_rewrite bool_decide_eq_true. split.
  - intros [(s1 & s2 & -> & [(c & -> & Hc) | ->] & ->) | ->]; [|by vm_compute; right; left|by left].
    rewrite !elem_of_cons, elem_of_nil in Hc. unfold units. rewrite !elem_of_cons.
    destruct Hc as [-> | [-> | [-> | [-> | []]]]]; vm_compute; tauto.
  - unfold units. rewrite !elem_of_cons, elem_of_nil.
    intros [-> | [-> | [-> | [-> | [-> | [-> | []]]]]]]; [by right|left..].
    + exists [], ["B"%char]. split; [done|]. by split; [right|].
    + exists ["K"%char], ["B"%char]. split; [done|]. split; [left|done]. eexists. split; [done|]. by left.
    + exists ["M"%char], ["B"%char]. split; [done|]. split; [left|done]. eexists. split; [done|]. set_solver.
    + exists ["G"%char], ["B"%char]. split; [done|]. split; [left|done]. eexists. split; [done|]. set_solver.
    + exists ["T"%char], ["B"%char]. split; [done|]. split; [left|done]. eexists. split; [done|]. set_solver.
Qed.

Lemma unit_no_digit u c : u ∈ units → c ∈ u → is_digit c = false ∧ is_unit_char c = true.
Proof.
  unfold units. rewrite !elem_of_cons, elem_of_nil.
  intros [-> | [-> | [-> | [-> | [-> | [-> | []]]]]]]; cbn; rewrite ?elem_of_cons, elem_of_nil;
    intros Hc; repeat destruct Hc as [-> | Hc]; try done.
Qed.

Lemma unit_head u c : u ∈ units → head u = Some c → is_digit c = false.
Proof.
  intros Hu Hc. apply (unit_no_digit u c Hu). destruct u as [|c' u]; [done|]. injection Hc as ->. by left.
Qed.

(** A value matches exactly when it is digits followed by a unit, and then the
    groups are those. *)
Lemma matches_groups value number unit :
  matchHumanSize value = Some (number, unit) ↔
  value = number ++ unit ∧ number ≠ [] ∧ Forall (λ c, is_digit c = true) number ∧ unit ∈ units.
Proof.
  unfold matchHumanSize. destruct (re_match cstHumanMemSizeRegex value) eqn:E.
  - apply re_match_lang, lang_cat_inv in E as (s1 & s2 & -> & [H1 H2]%lang_plus_class & H3%re_unit_lang).
    rewrite span_app; [|done|intros c; by apply unit_head]. split.
    + intros [= <- <-]. done.
    + intros (Heq & Hne & Hd & Hu). f_equal.
      rewrite <- (span_app is_digit s1 s2), Heq; [|done|intros c; by apply unit_head].
      apply span_app; [done|]. intros c. by apply unit_head.
  - split; [done|]. intros (-> & Hne & Hd & Hu). exfalso.
    assert (re_match cstHumanMemSizeRegex (number ++ unit) = true); [|congruence].
    apply re_match_lang. constructor; [by apply lang_plus_class|by apply re_unit_lang].
Qed.

(** ** The scanner without regular expression *)

Lemma scan_unit number unit s r :
  unit ≠ [] → foldM scanChar (number, unit) s = Ok r →
  r = (number, unit ++ s) ∧ Forall (λ c, is_digit c = false) s.
Proof.
  revert unit. induction s as [|c s IH]; intros unit Hne; cbn; intros Hrun.
  - inv_ok. by rewrite app_nil_r.
  - inv_bind Hrun. destruct (is_digit c) eqn:Hd.
    + by destruct unit.
    + destruct (is_unit_char c); [|discriminate]. inv_ok.
      destruct (IH (unit ++ [c])) as [-> Hs]; [by destruct unit|done|].
      rewrite <- app_assoc. split; [done|by constructor].
Qed.

Lemma scan_inv number s r :
  Forall (λ c, is_digit c = true) number → foldM scanChar (number, []) s = Ok r →
  number ++ s = fst r ++ snd r ∧ Forall (λ c, is_digit c = true) (fst r) ∧
  Forall (λ c, is_digit c = false) (snd r).
Proof.
  revert number. induction s as [|c s IH]; intros number Hn; cbn; intros Hrun.
  - inv_ok. split; [done|]. split; [done|constructor].
  - inv_bind Hrun. destruct (is_digit c) eqn:Hd.
    + cbn in Hstep. inv_ok.
      destruct (IH (number ++ [c])) as (H1 & H2 & H3); [|done|by rewrite <- H1, <- app_assoc].
      apply Forall_app. split; [done|]. by repeat constructor.
    + destruct (is_unit_char c); [|discriminate]. inv_ok.
      apply scan_unit in Hrun as [-> Hs]; [|done]. cbn. split; [done|]. split; [done|by constructor].
Qed.

Lemma scan_digits number s unit :
  Forall (λ c, is_digit c = true) s →
  foldM scanChar (number, []) (s ++ unit) = foldM scanChar (number ++ s, []) unit.
Proof.
  revert number. induction s as [|c s IH]; intros number Hs; cbn; [by rewrite app_nil_r|].
  apply Forall_cons in Hs as [Hc Hs]. rewrite Hc. cbn. rewrite IH by done. by rewrite <- app_assoc.
Qed.

Lemma scan_units number u s :
  (∀ c, c ∈ s → is_digit c = false ∧ is_unit_char c = true) →
  foldM scanChar (number, u) s = Ok (number, u ++ s).
Proof.
  revert u. induction s as [|c s IH]; intros u Hs; cbn; [by rewrite app_nil_r|].
  destruct (Hs c) as [H1 H2]; [left|]. rewrite H1, H2. cbn. rewrite IH; [by rewrite <- app_assoc|].
  intros. apply Hs. by right.
Qed.

(** What the scanner accepts is digits followed by characters that are not. *)
Lemma scan_ok value number unit :
  foldM scanChar ([], []) value = Ok (number, unit) →
  value = number ++ unit ∧ Forall (λ c, is_digit c = true) number.
Proof. intros Hrun. apply scan_inv in Hrun; [|constructor]. cbn in Hrun. tauto. Qed.

Lemma scan_matched number unit :
  Forall (λ c, is_digit c = true) number → unit ∈ units →
  foldM scanChar ([], []) (number ++ unit) = Ok (number, unit).
Proof.
  intros Hn Hu. rewrite scan_digits by done. apply scan_units. intros c Hc. by eapply unit_no_digit.
Qed.

Lemma atol_empty : atol [] = 0.
Proof. reflexivity. Qed.

(** Both parsers on a number and a unit. *)
Lemma parsers_on_match number unit :
  number ≠ [] → Forall (λ c, is_digit c = true) number → unit ∈ units →
  fromHumanMemSizeNoRegexp (number ++ unit) = fromHumanMemSizeRegexp (number ++ unit).
Proof.
  intros Hne Hn Hu. unfold fromHumanMemSizeNoRegexp, fromHumanMemSizeRegexp.
  rewrite scan_matched by done.
  rewrite (proj2 (matches_groups (number ++ unit) number unit)) by done.
  cbn [mbind result_bind]. destruct (assume _ _); [|done]. cbn [mbind result_bind].
  unfold units in Hu. rewrite !elem_of_cons, elem_of_nil in Hu.
  by destruct Hu as [-> | [-> | [-> | [-> | [-> | [-> | []]]]]]].
Qed.

(** The parser without regular expression only succeeds on digits and a unit. *)
Lemma noRegexp_ok value n :
  fromHumanMemSizeNoRegexp value = Ok n →
  ∃ number unit, value = number ++ unit ∧ number ≠ [] ∧
    Forall (λ c, is_digit c = true) number ∧ unit ∈ units.
Proof.
  unfold fromHumanMemSizeNoRegexp. intros Hrun. inv_bind Hrun. destruct a as [number unit].
  apply scan_ok in Hstep as [-> Hd]. exists number, unit. split; [done|].
  split; [intros ->; by rewrite atol_empty in Hrun|]. split; [done|].
  inv_bind Hrun. unfold units. rewrite !elem_of_cons.
  repeat (case_bool_decide; [tauto|cbn [orb] in Hrun]). discriminate.
Qed.

(** C28: The two parsers of sizes accept the same texts and give the same
    size, so the size does not depend on the support of regular expressions, and the mode
    with regular expressions is not the more strict one, as the comment of
    [fromHumanMemSize] says it is. *)
Theorem human_parsers_agree value n :
  fromHumanMemSize true value = Ok n ↔ fromHumanMemSize false value = Ok n.
Proof.
  cbn. split; intros Hrun.
  - assert (∃ number unit, matchHumanSize value = Some (number, unit)) as (number & unit & Hm).
    { unfold fromHumanMemSizeRegexp in Hrun. destruct (matchHumanSize value) as [[??]|]; [eauto|done]. }
    apply matches_groups in Hm as (-> & Hne & Hd & Hu). by rewrite parsers_on_match.
  - destruct (noRegexp_ok value n Hrun) as (number & unit & -> & Hne & Hd & Hu).
    by rewrite <- parsers_on_match.
Qed.

(** ** Printing *)

Definition digit_char (d : Z) : ascii := ascii_of_N (Z.to_N (48 + d)).

Fixpoint show_fuel (fuel : nat) (n : Z) (acc : chars) : chars :=
  match fuel with
  | O => acc
  | S fuel' =>
      let acc := digit_char (n mod 10) :: acc in
      if n / 10 =? 0 then acc else show_fuel fuel' (n / 10) acc
  end.

(** The decimal text of a [size_t] (at most 20 digits). *)
Definition show (n : Z) : chars := show_fuel 20 n [].

Lemma digit_char_code d : 0 ≤ d < 10 → code (digit_char d) = 48 + d.
Proof.
  intros Hd. unfold code, digit_char. rewrite N_ascii_embedding by lia. lia.
Qed.

Lemma digit_char_digit d : 0 ≤ d < 10 → is_digit (digit_char d) = true.
Proof. intros Hd. unfold is_digit, between. rewrite digit_char_code by done. apply andb_true_iff. split; apply Z.leb_le; lia. Qed.

Lemma show_fuel_spec fuel n acc :
  0 ≤ n < 10 ^ Z.of_nat fuel → Forall (λ c, is_digit c = true) acc →
  Forall (λ c, is_digit c = true) (show_fuel fuel n acc) ∧
  (acc ≠ [] ∨ fuel ≠ 0%nat → show_fuel fuel n acc ≠ []) ∧
  ∃ s, show_fuel fuel n acc = s ++ acc ∧ digits_value s = n.
Proof.
  revert n acc. induction fuel as [|fuel IH]; intros n acc Hn Hacc; cbn [show_fuel].
  - split; [done|]. split; [naive_solver|]. exists []. split; [done|]. cbn in *. lia.
  - pose proof (Z.mod_pos_bound n 10). pose proof (Z.div_mod n 10).
    assert (Hacc' : Forall (λ c, is_digit c = true) (digit_char (n mod 10) :: acc))
      by (constructor; [apply digit_char_digit; lia|done]).
    destruct (Z.eqb_spec (n / 10) 0) as [E|E].
    + split; [done|]. split; [done|]. exists [digit_char (n mod 10)]. split; [done|].
      unfold digits_value. cbn [foldl]. rewrite digit_char_code; lia.
    + destruct (IH (n / 10) (digit_char (n mod 10) :: acc)) as (H1 & H2 & s & H3 & H4); [|done|].
      { split; [apply Z.div_pos; lia|]. apply Z.div_lt_upper_bound; [lia|].
        rewrite Nat2Z.inj_succ, Z.pow_succ_r in Hn by lia. lia. }
      split; [done|]. split; [intros _; apply H2; by left|].
      exists (s ++ [digit_char (n mod 10)]). rewrite H3, <- app_assoc. split; [done|].
      unfold digits_value in *. rewrite foldl_app, H4. cbn [foldl]. rewrite digit_char_code; lia.
Qed.

Lemma digit_no_space c : is_digit c = true → is_space c = false ∧ code c ≠ 45 ∧ code c ≠ 43.
Proof.
  unfold is_digit, is_space, between. intros Hc. bool_prop.
  split; [apply orb_false_iff; split; [apply Z.eqb_neq; lia|apply andb_false_iff; right; apply Z.leb_gt; lia]|lia].
Qed.

Lemma atol_digits s :
  s ≠ [] → Forall (λ c, is_digit c = true) s → atol s = Z.min LONG_MAX (digits_value s).
Proof.
  intros Hne Hs. destruct s as [|c s]; [done|]. pose proof Hs as [Hc _]%Forall_cons.
  destruct (digit_no_space c Hc) as (Hsp & H45 & H43). unfold atol. cbn [span]. rewrite Hsp. cbn [snd].
  apply Z.eqb_neq in H45 as ->. apply Z.eqb_neq in H43 as ->.
  rewrite <- (app_nil_r (c :: s)), span_app by done. by rewrite app_nil_r.
Qed.

Lemma scan_long_digits s rest :
  s ≠ [] → Forall (λ c, is_digit c = true) s → (∀ c, head rest = Some c → is_digit c = false) →
  scan_long (s ++ rest) = Some (Z.min LONG_MAX (digits_value s), rest).
Proof.
  intros Hne Hs Hr. rewrite <- atol_digits by done. destruct s as [|c s]; [done|].
  pose proof Hs as [Hc _]%Forall_cons. destruct (digit_no_space c Hc) as (Hsp & H45 & H43).
  unfold scan_long. cbn [span app]. rewrite Hsp. cbn [snd].
  apply Z.eqb_neq in H45, H43. rewrite H45, H43. cbn [orb].
  change (c :: s ++ rest) with ((c :: s) ++ rest). by rewrite span_app.
Qed.

Lemma length_show_fuel fuel n acc : (length (show_fuel fuel n acc) ≤ fuel + length acc)%nat.
Proof.
  revert n acc. induction fuel as [|fuel IH]; intros n acc; cbn [show_fuel]; [lia|].
  destruct (n / 10 =? 0); [cbn; lia|]. specialize (IH (n / 10) (digit_char (n mod 10) :: acc)). cbn in IH. lia.
Qed.

Lemma show_digits n : 0 ≤ n < 10 ^ 20 →
  show n ≠ [] ∧ Forall (λ c, is_digit c = true) (show n) ∧ digits_value (show n) = n ∧ (length (show n) ≤ 20)%nat.
Proof.
  intros Hn. destruct (show_fuel_spec 20 n []) as (H1 & H2 & s & H3 & H4); [done|constructor|].
  split; [apply H2; by right|]. split; [done|]. split; [unfold show; by rewrite H3, app_nil_r, H4|].
  pose proof (length_show_fuel 20 n []) as Hl. cbn [length] in Hl. unfold show. lia.
Qed.

Lemma atol_show n : 0 ≤ n ≤ LONG_MAX →
  atol (show n) = n ∧ show n ≠ [] ∧ Forall (λ c, is_digit c = true) (show n).
Proof.
  intros Hn. destruct (show_fuel_spec 20 n []) as (H1 & H2 & s & H3 & H4).
  { unfold LONG_MAX in Hn. lia. } { constructor. }
  assert (Hne : show n ≠ []) by (apply H2; by right). split; [|done].
  rewrite atol_digits by done. unfold show. rewrite H3, app_nil_r, H4. lia.
Qed.

(** The factor of each unit. *)
Definition unit_table : list (chars * Z) :=
  [(str "", 1); (str "B", 1); (str "KB", 1024); (str "MB", 1024 ^ 2); (str "GB", 1024 ^ 3);
   (str "TB", 1024 ^ 4)].

Lemma size_reads regex n unit factor :
  0 < n ≤ LONG_MAX → (unit, factor) ∈ unit_table →
  fromHumanMemSize regex (show n ++ unit) = Ok (n ⊗ factor).
Proof.
  intros Hn Hu. destruct (atol_show n) as (Hval & Hne & Hd); [lia|].
  assert (Hin : unit ∈ units) by (apply (list_elem_of_fmap_2 fst) in Hu; exact Hu).
  assert (fromHumanMemSizeRegexp (show n ++ unit) = Ok (n ⊗ factor)) as Hok.
  { unfold fromHumanMemSizeRegexp. rewrite (proj2 (matches_groups _ (show n) unit)) by done.
    rewrite Hval, (wrap_small n) by (unfold is_size, SIZE_MOD, LONG_MAX in *; lia).
    destruct (Z.ltb_spec 0 n); [|lia]. cbn [assume mbind result_bind].
    unfold unit_table in Hu. rewrite !elem_of_cons, elem_of_nil in Hu.
    destruct Hu as [E | [E | [E | [E | [E | [E | []]]]]]]; injection E as -> ->;
      repeat (first [rewrite bool_decide_eq_true_2 by done | rewrite bool_decide_eq_false_2 by done]);
      try reflexivity; rewrite Z.mul_1_r, wrap_small by (unfold is_size, SIZE_MOD, LONG_MAX in *; lia); done. }
  destruct regex; [exact Hok|]. cbn [fromHumanMemSize]. by rewrite parsers_on_match.
Qed.

(** A positive size written in decimal with a unit is read back, by
    either parser, as the number times the factor of the unit, modulo 2^64: the product
    is not checked, so 16777216TB is the size 0. *)
Theorem human_size_roundtrip regex n unit factor :
  0 < n ≤ LONG_MAX → (unit, factor) ∈ unit_table →
  fromHumanMemSize regex (show n ++ unit) = Ok (n ⊗ factor).
Proof. apply size_reads. Qed.

Lemma human_size_roundtrip_witness :
  show 16777216 ++ str "TB" = str "16777216TB" ∧
  fromHumanMemSize false (show 16777216 ++ str "TB") = Ok 0 ∧
  fromHumanMemSize true (show 8 ++ str "MB") = Ok 8388608.
Proof.
  split; [reflexivity|]. split.
  - rewrite (human_size_roundtrip false 16777216 (str "TB") (1024 ^ 4)); [reflexivity| |set_solver].
    unfold LONG_MAX. lia.
  - rewrite (human_size_roundtrip true 8 (str "MB") (1024 ^ 2)); [reflexivity| |set_solver].
    unfold LONG_MAX. lia.
Defined.
