(* ===== verification/Uri.v ===== *)
(** * Resource identifiers (src/src/uri/Uri.cpp)

    Both parsers of [Uri]: the one with [std::regex] and the scanner used when the
    C++ library has none, with the accessors to the parameters. *)

From Stdlib Require Import Ascii.
From S2P Require Import Prelude Regex HumanUnits.

Record Uri := mkUri { uri : chars; path : chars; type : chars; params : gmap chars chars }.

(** [reset]. *)
Definition reset (u : Uri) : Uri := mkUri [] [] [] ∅.

Definition invalidUri : error := Fatal "Unrecongnized ummap URI format : %1".

(** ** The scanner *)

(** What [cur] points to. *)
Inductive field : Type := FType | FPath | FKey | FValue.

Record Scan := mkScan {
  s_type : chars; s_path : chars; s_key : chars; s_value : chars;
  s_params : gmap chars chars; s_state : Z; s_cur : field;
}.

(** [*cur += c]. *)
Definition push (s : Scan) (c : ascii) : Scan :=
  let '(mkScan t p k v m st cur) := s in
  match cur with
  | FType => mkScan (t ++ [c]) p k v m st cur
  | FPath => mkScan t (p ++ [c]) k v m st cur
  | FKey => mkScan t p (k ++ [c]) v m st cur
  | FValue => mkScan t p k (v ++ [c]) m st cur
  end.

Definition goto (s : Scan) (st : Z) (cur : field) : Scan :=
  mkScan (s_type s) (s_path s) (s_key s) (s_value s) (s_params s) st cur.

(** [strncmp(s, "://", 3) == 0]. *)
Definition starts_sep (s : chars) : bool := bool_decide (take 3 s = str "://").

(** The case of an ampersand and of the end of the string. *)
Definition endParam (s : Scan) : result Scan :=
  if (s_state s =? 3) || (s_state s =? 1) then
    Ok (if s_state s =? 3
        then mkScan (s_type s) (s_path s) [] [] (<[s_key s := s_value s]> (s_params s)) 2 FKey
        else s)
  else Err invalidUri.

(** The loop over the string and its final zero. *)
Fixpoint scanUri (s : Scan) (rest : chars) : result Scan :=
  match rest with
  | [] => endParam s
  | c :: rest1 =>
      if starts_sep rest then
        if s_state s =? 0 then
          match rest1 with
          | _ :: _ :: rest3 => scanUri (goto s 1 FPath) rest3
          | _ => Err BadAccess
          end
        else Err invalidUri
      else if bool_decide (c = "?"%char) then
        if s_state s =? 1 then scanUri (goto s 2 FKey) rest1 else Err invalidUri
      else if bool_decide (c = "&"%char) || bool_decide (c = "000"%char) then
        s' ← endParam s; scanUri s' rest1
      else if bool_decide (c = "="%char) then
        if s_state s =? 2 then scanUri (goto s 3 FValue) rest1 else Err invalidUri
      else scanUri (push s c) rest1
  end.

Definition noRegexParse (u : Uri) (text : chars) : result Uri :=
  s ← scanUri (mkScan [] [] [] [] (params u) 0 FType) text;
  Ok (mkUri text (s_path s) (s_type s) (s_params s)).

(** ** The regular expression *)

Definition is_alnum (c : ascii) : bool := between 97 122 c || between 65 90 c || is_digit c.
Definition one_of (s : string) (c : ascii) : bool := bool_decide (c ∈ str s).
Definition type_char (c : ascii) : bool := is_alnum c || one_of "-" c.
Definition path_char (c : ascii) : bool := is_alnum c || one_of "_/.:-" c.
Definition value_char (c : ascii) : bool := is_alnum c || one_of "._/+-" c.

Definition re_param : regex :=
  RCat (RPlus (RClass is_alnum)) (RCat (RChar "="%char) (RPlus (RClass value_char))).
Definition re_params : regex :=
  ROpt (RCat (RChar "?"%char) (RCat (ROpt re_param) (RStar (RCat (RChar "&"%char) re_param)))).
Definition cst_uri_regexp : regex :=
  RCat (RPlus (RClass type_char)) (RCat (RString (str "://"))
    (RCat (RPlus (RClass path_char)) re_params)).

(** The groups 1, 2 and 3 of the only way to match ([uri_groups]). *)
Definition matchUri (text : chars) : option (chars * chars * chars) :=
  if re_match cst_uri_regexp text then
    let '(t, r) := span type_char text in
    let '(p, q) := span path_char (drop 3 r) in
    Some (t, p, q)
  else None.

(** One character of the parameters. *)
Definition paramChar (s : gmap chars chars * chars * chars) (c : ascii)
    : gmap chars chars * chars * chars :=
  let '(m, name, buf) := s in
  if bool_decide (c = "&"%char) then (<[name := buf]> m, [], [])
  else if bool_decide (c = "="%char) then (m, buf, [])
  else (m, name, buf ++ [c]).

Definition regexParse (u : Uri) (text : chars) : result Uri :=
  match matchUri text with
  | Some (t, p, q) =>
      let m := if bool_decide (q = []) then params u
               else fst (fst (foldl paramChar (params u, [], []) (drop 1 (q ++ str "&")))) in
      Ok (mkUri text p t m)
  | None => Err invalidUri
  end.

(** [regex]: the C++ library supports the expression, else its constructor throws. *)
Definition parse (regex : bool) (u : Uri) (text : chars) : result Uri :=
  if regex then regexParse (reset u) text else noRegexParse (reset u) text.

Definition newUri (regex : bool) (text : chars) : result Uri := parse regex (mkUri [] [] [] ∅) text.

(** ** Accessors *)

Definition getURI (u : Uri) : chars := uri u.
Definition getType (u : Uri) : chars := type u.
Definition getPath (u : Uri) : chars := path u.

Definition missingParam : error := Fatal "Fail to find required parameter '%1' in uri: %2".

Definition getParam (u : Uri) (name : chars) : result chars :=
  match params u !! name with Some v => Ok v | None => Err missingParam end.
Definition getParam_default (u : Uri) (name defaultValue : chars) : chars :=
  match params u !! name with Some v => v | None => defaultValue end.
Definition getParamAsInt (u : Uri) (name : chars) : result Z :=
  match params u !! name with Some v => Ok (atoi v) | None => Err missingParam end.
Definition getParamAsInt_default (u : Uri) (name : chars) (defaultValue : Z) : Z :=
  match params u !! name with Some v => atoi v | None => defaultValue end.
Definition getParamAsSizet (u : Uri) (name : chars) : result Z :=
  match params u !! name with Some v => Ok (wrap (atol v)) | None => Err missingParam end.
Definition getParamAsSizet_default (u : Uri) (name : chars) (defaultValue : Z) : Z :=
  match params u !! name with Some v => wrap (atol v) | None => defaultValue end.

(** ** Well-formed identifiers *)

Definition param_ok (kv : chars * chars) : Prop :=
  fst kv ≠ [] ∧ Forall (λ c, is_alnum c = true) (fst kv) ∧
  snd kv ≠ [] ∧ Forall (λ c, value_char c = true) (snd kv).

Definition param_text (kv : chars * chars) : chars := fst kv ++ "="%char :: snd kv.

Definition params_text (kvs : list (chars * chars)) : chars :=
  match kvs with
  | [] => []
  | kv :: kvs' => "?"%char :: param_text kv ++ (kvs' ≫= λ kv, "&"%char :: param_text kv)
  end.

Definition uri_text (t p : chars) (kvs : list (chars * chars)) : chars :=
  t ++ str "://" ++ p ++ params_text kvs.

(** The last value of a name wins. *)
Definition add_param (m : gmap chars chars) (kv : chars * chars) : gmap chars chars :=
  <[fst kv := snd kv]> m.
Definition params_of (kvs : list (chars * chars)) : gmap chars chars := foldl add_param ∅ kvs.

Record uri_ok (t p : chars) (kvs : list (chars * chars)) : Prop := {
  uk_type : t ≠ [] ∧ Forall (λ c, type_char c = true) t;
  uk_path : p ≠ [] ∧ Forall (λ c, path_char c = true) p;
  uk_params : Forall param_ok kvs;
}.

(** The separator does not occur again in the path. *)
Definition no_sep (p : chars) : Prop := ∀ a b, p ≠ a ++ str "://" ++ b.

(** ** Character classes *)

(** The characters the scanner treats apart. *)
Definition special (c : ascii) : bool := bool_decide (c ∈ str ":?&=" ++ ["000"%char]).

Lemma one_of_elem s c : one_of s c = true ↔ c ∈ str s.
Proof. apply bool_decide_eq_true. Qed.

(** A property of all characters, by computation. *)
Definition all_ascii : list ascii := ascii_of_N <$> (N.of_nat <$> seq 0 256).

Lemma all_ascii_elem c : c ∈ all_ascii.
Proof.
  unfold all_ascii. apply list_elem_of_fmap. exists (N_of_ascii c). split; [by rewrite ascii_N_embedding|].
  apply list_elem_of_fmap. exists (N.to_nat (N_of_ascii c)). split; [lia|].
  apply elem_of_seq. pose proof (N_ascii_bounded c). lia.
Qed.

Lemma check_ascii (f : ascii → bool) : forallb f all_ascii = true → ∀ c, f c = true.
Proof.
  intros Hf c. rewrite forallb_forall in Hf. apply Hf, list_elem_of_In, all_ascii_elem.
Qed.

Lemma class_special c :
  (type_char c || is_alnum c || value_char c = true → special c = false) ∧
  (path_char c = true → special c = true → c = ":"%char).
Proof.
  assert (H1 : ∀ c, implb (type_char c || is_alnum c || value_char c) (negb (special c)) = true)
    by (apply check_ascii; vm_compute; reflexivity).
  assert (H2 : ∀ c, implb (path_char c && special c) (bool_decide (c = ":"%char)) = true)
    by (apply check_ascii; vm_compute; reflexivity).
  specialize (H1 c). specialize (H2 c).
  destruct (type_char c || is_alnum c || value_char c), (path_char c), (special c), (decide (c = ":"%char));
    split; intros; try done. by rewrite bool_decide_eq_false_2 in H2.
Qed.

Lemma plain_class (p : ascii → bool) s :
  (∀ c, p c = true → type_char c || is_alnum c || value_char c = true) →
  Forall (λ c, p c = true) s → Forall (λ c, special c = false) s.
Proof.
  intros Hp Hs. eapply Forall_impl; [exact Hs|]. intros c Hc. by apply (proj1 (class_special c)), Hp.
Qed.

Lemma plain_type s : Forall (λ c, type_char c = true) s → Forall (λ c, special c = false) s.
Proof. apply plain_class. intros c ->. done. Qed.
Lemma plain_alnum s : Forall (λ c, is_alnum c = true) s → Forall (λ c, special c = false) s.
Proof. apply plain_class. intros c ->. by rewrite orb_true_r. Qed.
Lemma plain_value s : Forall (λ c, value_char c = true) s → Forall (λ c, special c = false) s.
Proof. apply plain_class. intros c ->. by rewrite orb_true_r. Qed.

Lemma special_ne c d : special c = false → d ∈ str ":?&=" ++ ["000"%char] → c ≠ d.
Proof. intros Hc Hd ->. apply bool_decide_eq_false in Hc. done. Qed.

Ltac not_special Hc :=
  repeat rewrite (bool_decide_eq_false_2 (_ = _))
    by (apply (special_ne _ _ Hc); unfold str; cbn; set_solver).

(** ** The scanner on well-formed parts *)

Definition pushes (s : Scan) (l : chars) : Scan := foldl push s l.

Lemma starts_sep_cons c s : c ≠ ":"%char → starts_sep (c :: s) = false.
Proof. intros Hc. apply bool_decide_eq_false_2. cbn. congruence. Qed.

Lemma scan_plain s l rest :
  Forall (λ c, special c = false) l → scanUri s (l ++ rest) = scanUri (pushes s l) rest.
Proof.
  revert s. induction l as [|c l IH]; intros s Hl; [done|]. apply Forall_cons in Hl as [Hc Hl].
  cbn [app scanUri]. rewrite starts_sep_cons by (apply (special_ne _ _ Hc); cbn; set_solver).
  not_special Hc. cbn [orb]. by apply IH.
Qed.

(** A path, which may hold colons, up to its end or to the parameters. *)
Lemma scan_path s p rest :
  Forall (λ c, path_char c = true) p → no_sep p →
  (∀ c, head rest = Some c → c = "?"%char) →
  scanUri s (p ++ rest) = scanUri (pushes s p) rest.
Proof.
  intros Hp Hn Hrest. revert s Hn. induction p as [|c p IH]; intros s Hn; [done|].
  apply Forall_cons in Hp as [Hc Hp].
  assert (Hn' : no_sep p) by (intros a b E; apply (Hn (c :: a) b); by rewrite E).
  cbn [app scanUri].
  assert (starts_sep (c :: p ++ rest) = false) as ->.
  { apply bool_decide_eq_false_2. cbn. intros E. destruct p as [|c1 [|c2 p]]; cbn in E.
    - destruct rest as [|r1 rest]; [done|]. rewrite (Hrest r1) in E by done. done.
    - destruct rest as [|r1 rest]; [done|]. rewrite (Hrest r1) in E by done. done.
    - injection E as -> -> ->. by apply (Hn [] p). }
  destruct (special c) eqn:Hs.
  - apply (proj2 (class_special c)) in Hs as ->; [|done]. cbn. by apply IH.
  - not_special Hs. cbn [orb]. by apply IH.
Qed.

(** ** The parameters *)

(** What a scanner in a key holds: type, path and the parameters read. *)
Definition in_key (t p : chars) (m : gmap chars chars) : Scan := mkScan t p [] [] m 2 FKey.

Lemma pushes_field s l :
  pushes s l =
  match s_cur s with
  | FType => mkScan (s_type s ++ l) (s_path s) (s_key s) (s_value s) (s_params s) (s_state s) FType
  | FPath => mkScan (s_type s) (s_path s ++ l) (s_key s) (s_value s) (s_params s) (s_state s) FPath
  | FKey => mkScan (s_type s) (s_path s) (s_key s ++ l) (s_value s) (s_params s) (s_state s) FKey
  | FValue => mkScan (s_type s) (s_path s) (s_key s) (s_value s ++ l) (s_params s) (s_state s) FValue
  end.
Proof.
  revert s. induction l as [|c l IH]; intros [t p k v m st cur].
  - cbn. destruct cur; by rewrite app_nil_r.
  - change (pushes ?s (c :: l)) with (pushes (push s c) l). rewrite IH.
    destruct cur; cbn; by rewrite <- app_assoc.
Qed.

Lemma scan_param t p m kv rest :
  param_ok kv →
  scanUri (in_key t p m) (param_text kv ++ rest) =
  scanUri (mkScan t p (fst kv) (snd kv) m 3 FValue) rest.
Proof.
  intros (_ & Hk & _ & Hv). unfold param_text. rewrite <- app_assoc, scan_plain by by apply plain_alnum.
  rewrite pushes_field. cbn. rewrite scan_plain by by apply plain_value. by rewrite pushes_field.
Qed.

Lemma scan_amp s rest : scanUri s ("&"%char :: rest) = (s' ← endParam s; scanUri s' rest).
Proof. cbn [scanUri]. by rewrite starts_sep_cons. Qed.

Lemma scan_params t p m kv kvs :
  Forall param_ok (kv :: kvs) →
  scanUri (in_key t p m) (param_text kv ++ (kvs ≫= λ kv, "&"%char :: param_text kv)) =
  Ok (in_key t p (foldl add_param m (kv :: kvs))).
Proof.
  revert m kv. induction kvs as [|kv' kvs IH]; intros m kv [Hkv Hkvs]%Forall_cons.
  - cbn [mbind list_bind]. rewrite scan_param by done. reflexivity.
  - cbn [mbind list_bind]. rewrite scan_param by done.
    change ((("&"%char :: param_text kv') ++ ?x)) with ("&"%char :: param_text kv' ++ x).
    rewrite scan_amp. unfold endParam. cbn [s_state Z.eqb orb mbind result_bind s_type s_path s_params s_key s_value].
    change (mkScan t p [] [] ?m' 2 FKey) with (in_key t p m'). apply IH. done.
Qed.

(** The scanner reads a well-formed identifier without a second separator. *)
Lemma noRegexParse_text t p kvs u :
  uri_ok t p kvs → no_sep p → params u = ∅ →
  noRegexParse u (uri_text t p kvs) = Ok (mkUri (uri_text t p kvs) p t (params_of kvs)).
Proof.
  intros [[Htn Ht] [Hpn Hp] Hkvs] Hsep Hu. unfold noRegexParse, uri_text. rewrite Hu.
  rewrite scan_plain by by apply plain_type. rewrite pushes_field. cbn [app s_cur s_type s_path s_key s_value s_params s_state].
  cbn [str Strings.String.list_ascii_of_string app scanUri].
  assert (starts_sep (":"%char :: "/"%char :: "/"%char :: p ++ params_text kvs) = true) as -> by done.
  cbn [s_state Z.eqb goto s_type s_path s_key s_value s_params].
  rewrite scan_path; [|done|done|].
  2: { destruct kvs as [|kv kvs]; cbn; [done|]. by intros ? [= <-]. }
  rewrite pushes_field. unfold goto. cbn [s_cur s_type s_path s_key s_value s_params s_state app].
  destruct kvs as [|kv kvs]; [reflexivity|]. cbn [params_text scanUri]. rewrite starts_sep_cons by done.
  rewrite bool_decide_eq_true_2 by done. unfold goto. cbn [s_state Z.eqb s_type s_path s_key s_value s_params].
  change (scanUri _ _) with (scanUri (in_key t p ∅) (param_text kv ++ (kvs ≫= λ kv, "&"%char :: param_text kv))).
  by rewrite scan_params.
Qed.

(** ** The groups of the regular expression *)

Lemma re_param_lang s : re_lang re_param s ↔ ∃ kv, param_ok kv ∧ s = param_text kv.
Proof.
  unfold re_param. rewrite lang_cat_inv. setoid_rewrite lang_plus_class. setoid_rewrite lang_cat_inv.
  setoid_rewrite lang_char. setoid_rewrite lang_plus_class. split.
  - intros (k & s2 & -> & [Hk1 Hk2] & e & v & -> & -> & Hv1 & Hv2). by exists (k, v).
  - intros ([k v] & (H1 & H2 & H3 & H4) & ->). exists k, ("="%char :: v). split; [done|]. split; [done|].
    by exists ["="%char], v.
Qed.

Lemma re_more_lang s :
  re_lang (RStar (RCat (RChar "&"%char) re_param)) s →
  ∃ kvs, Forall param_ok kvs ∧ s = (kvs ≫= λ kv, "&"%char :: param_text kv).
Proof.
  remember (RStar (RCat (RChar "&"%char) re_param)) as r eqn:Er. intros Hs. revert Er.
  induction Hs as [| | | | |r0|r0 s1 s2 H1 _ H2 IH2]; intros Er; try discriminate.
  - by exists [].
  - injection Er as ->. destruct IH2 as (kvs & Hkvs & ->); [done|].
    apply lang_cat_inv in H1 as (a & b & -> & ->%lang_char & (kv & Hkv & ->)%re_param_lang).
    exists (kv :: kvs). split; [by constructor|done].
Qed.

Lemma more_lang kvs :
  Forall param_ok kvs →
  re_lang (RStar (RCat (RChar "&"%char) re_param)) (kvs ≫= λ kv, "&"%char :: param_text kv).
Proof.
  induction 1 as [|kv kvs Hkv _ IH]; cbn; [constructor|].
  change ("&"%char :: param_text kv ++ ?x) with (("&"%char :: param_text kv) ++ x).
  constructor; [|done]. apply lang_cat_inv. exists ["&"%char], (param_text kv).
  split; [done|]. split; [by apply lang_char|]. apply re_param_lang. eauto.
Qed.

(** The parameters: none, a list of them, or a question mark with no first one. *)
Lemma re_params_lang q :
  re_lang re_params q →
  (∃ kvs, Forall param_ok kvs ∧ q = params_text kvs) ∨ q = str "?" ∨ ∃ b, q = str "?&" ++ b.
Proof.
  unfold re_params. rewrite lang_opt_inv, lang_cat_inv. setoid_rewrite lang_char.
  setoid_rewrite lang_cat_inv. setoid_rewrite lang_opt_inv.
  intros [(q1 & q2 & -> & -> & s1 & s2 & -> & H1 & (kvs & Hkvs & ->)%re_more_lang) | ->].
  - destruct H1 as [(kv & Hkv & ->)%re_param_lang | ->].
    + left. exists (kv :: kvs). split; [by constructor|done].
    + right. destruct kvs as [|kv kvs]; [by left|right]. eexists. reflexivity.
  - left. by exists [].
Qed.

Lemma params_lang kvs : Forall param_ok kvs → re_lang re_params (params_text kvs).
Proof.
  intros Hkvs. unfold re_params. apply lang_opt_inv. destruct kvs as [|kv kvs]; [by right|left].
  apply Forall_cons in Hkvs as [Hkv Hkvs].
  apply lang_cat_inv. exists ["?"%char], (param_text kv ++ (kvs ≫= λ kv, "&"%char :: param_text kv)).
  split; [done|]. split; [by apply lang_char|]. constructor; [|by apply more_lang].
  apply lang_opt_inv. left. apply re_param_lang. eauto.
Qed.

Lemma params_head q c : re_lang re_params q → head q = Some c → c = "?"%char.
Proof.
  unfold re_params. rewrite lang_opt_inv, lang_cat_inv. setoid_rewrite lang_char.
  intros [(q1 & q2 & -> & -> & _) | ->]; [by intros [= <-]|done].
Qed.

Lemma uri_groups text t p q :
  matchUri text = Some (t, p, q) ↔
  text = t ++ str "://" ++ p ++ q ∧ (t ≠ [] ∧ Forall (λ c, type_char c = true) t) ∧
  (p ≠ [] ∧ Forall (λ c, path_char c = true) p) ∧ re_lang re_params q.
Proof.
  assert (Hspan : ∀ t p q, Forall (λ c, type_char c = true) t → Forall (λ c, path_char c = true) p →
    re_lang re_params q →
    (let '(t', r) := span type_char (t ++ str "://" ++ p ++ q) in
     let '(p', q') := span path_char (drop 3 r) in Some (t', p', q')) = Some (t, p, q)).
  { clear. intros t p q Ht Hp Hq.
    rewrite span_app; [|done|by intros c [= <-]].
    change (drop 3 (str "://" ++ ?x)) with x.
    rewrite span_app; [done|done|]. intros c Hc. by rewrite (params_head q c). }
  unfold matchUri. destruct (re_match cst_uri_regexp text) eqn:E.
  - apply re_match_lang in E. unfold cst_uri_regexp in E.
    apply lang_cat_inv in E as (t1 & r1 & -> & Ht1%lang_plus_class & E).
    apply lang_cat_inv in E as (s1 & r2 & -> & ->%lang_string & E).
    apply lang_cat_inv in E as (p1 & q1 & -> & Hp1%lang_plus_class & Hq1).
    rewrite Hspan by tauto. split; [by intros [= <- <- <-]|].
    intros (Heq & [_ Ht] & [_ Hp] & Hq). rewrite <- (Hspan t1 p1 q1) by tauto. rewrite Heq. by apply Hspan.
  - split; [done|]. intros (-> & Ht & Hp & Hq). exfalso.
    assert (re_match cst_uri_regexp (t ++ str "://" ++ p ++ q) = true); [|congruence].
    apply re_match_lang. constructor; [by apply lang_plus_class|]. constructor; [by apply lang_string|].
    constructor; [by apply lang_plus_class|done].
Qed.

(** ** The loop over the matched parameters *)

Lemma paramChar_plain m name buf l rest :
  Forall (λ c, special c = false) l →
  foldl paramChar (m, name, buf) (l ++ rest) = foldl paramChar (m, name, buf ++ l) rest.
Proof.
  revert buf. induction l as [|c l IH]; intros buf Hl; cbn; [by rewrite app_nil_r|].
  apply Forall_cons in Hl as [Hc Hl]. not_special Hc. rewrite IH by done. by rewrite <- app_assoc.
Qed.

Lemma paramChar_param m kv rest :
  param_ok kv →
  foldl paramChar (m, [], []) (param_text kv ++ "&"%char :: rest) =
  foldl paramChar (add_param m kv, [], []) rest.
Proof.
  intros (_ & Hk & _ & Hv). unfold param_text. rewrite <- app_assoc, paramChar_plain by by apply plain_alnum.
  cbn. rewrite (bool_decide_eq_false_2 ("="%char = "&"%char)) by done.
  rewrite (bool_decide_eq_true_2 ("="%char = "="%char)) by done.
  rewrite paramChar_plain by by apply plain_value. reflexivity.
Qed.

Lemma paramChar_params m kv kvs :
  Forall param_ok (kv :: kvs) →
  foldl paramChar (m, [], []) (param_text kv ++ (kvs ≫= λ kv, "&"%char :: param_text kv) ++ str "&") =
  (foldl add_param m (kv :: kvs), [], []).
Proof.
  revert m kv. induction kvs as [|kv' kvs IH]; intros m kv [Hkv Hkvs]%Forall_cons; cbn [mbind list_bind app].
  - cbn. by rewrite paramChar_param.
  - rewrite <- app_assoc. cbn [app].
    by rewrite paramChar_param, IH.
Qed.

Lemma regexParse_text t p kvs u :
  uri_ok t p kvs → params u = ∅ →
  regexParse u (uri_text t p kvs) = Ok (mkUri (uri_text t p kvs) p t (params_of kvs)).
Proof.
  intros [Ht Hp Hkvs] Hu. unfold regexParse.
  rewrite (proj2 (uri_groups (uri_text t p kvs) t p (params_text kvs))) by (by repeat split; try apply params_lang; try apply Ht; try apply Hp).
  rewrite Hu. destruct kvs as [|kv kvs]; [reflexivity|].
  rewrite bool_decide_eq_false_2 by done. cbn [params_text].
  change (drop 1 (("?"%char :: ?x) ++ ?y)) with (x ++ y). rewrite <- app_assoc.
  by rewrite paramChar_params.
Qed.

(** ** Theorems *)

(** C26: A well-formed identifier, type://path?name=value&..., whose path has
    no second separator is read by either parser: the type, the path, and for each name
    the value given last. *)
Theorem uri_roundtrip regex u t p kvs :
  uri_ok t p kvs → no_sep p →
  parse regex u (uri_text t p kvs) = Ok (mkUri (uri_text t p kvs) p t (params_of kvs)).
Proof.
  intros Hok Hsep. destruct regex; [by apply regexParse_text|by apply noRegexParse_text].
Qed.

(** The scanner is a substitute for the regular expression: whatever text
    the expression accepts, the scanner reads to the same parts, provided the path has
    no second separator and the text does not end with a question mark nor follow one
    with an ampersand. *)
Theorem uri_parsers_agree u u' text parsed :
  parse true u text = Ok parsed → no_sep (getPath parsed) →
  (∀ a, text ≠ a ++ str "?") → (∀ a b, text ≠ a ++ str "?&" ++ b) →
  parse false u' text = Ok parsed.
Proof.
  cbn. intros Hrun Hsep Hend Hamp. unfold regexParse in Hrun.
  destruct (matchUri text) as [[[t p] q]|] eqn:Hm; [|done].
  apply uri_groups in Hm as (-> & Ht & Hp & Hq).
  apply re_params_lang in Hq as [(kvs & Hkvs & ->)|[-> | [b ->]]].
  - assert (Hok : uri_ok t p kvs) by done.
    pose proof (regexParse_text t p kvs (reset u) Hok eq_refl) as Hre. unfold regexParse, uri_text in Hre.
    assert (parsed = mkUri (uri_text t p kvs) p t (params_of kvs)) as ->.
    { rewrite (proj2 (uri_groups _ t p (params_text kvs))) in Hre by (repeat split; try apply params_lang; try apply Ht; try apply Hp; done).
      unfold uri_text. congruence. }
    by apply noRegexParse_text.
  - exfalso. apply (Hend (t ++ str "://" ++ p)). by rewrite <- !app_assoc.
  - exfalso. apply (Hamp (t ++ str "://" ++ p) b). by rewrite <- !app_assoc.
Qed.

(** ** Examples *)

Definition demo_params : list (chars * chars) := [(str "name", str "a1"); (str "size", str "8M+B/2")].

Lemma demo_uri_ok : uri_ok (str "mmap") (str "/tmp/f:1") demo_params.
Proof.
  split; [split; [done|]|split; [done|]|].
  - apply (bool_decide_unpack _). vm_compute. exact I.
  - apply (bool_decide_unpack _). vm_compute. exact I.
  - repeat constructor; try done; apply (bool_decide_unpack _); vm_compute; exact I.
Qed.

(** A separator, as a test. *)
Fixpoint has_sep (s : chars) : bool :=
  match s with [] => false | _ :: s' => starts_sep s || has_sep s' end.

Lemma has_sep_no p : has_sep p = false → no_sep p.
Proof.
  intros Hp a b ->. induction a as [|c a IH]; [done|].
  cbn [app has_sep] in Hp. apply orb_false_iff in Hp as [_ Hp]. by apply IH.
Qed.

Lemma uri_roundtrip_witness :
  uri_text (str "mmap") (str "/tmp/f:1") demo_params = str "mmap:///tmp/f:1?name=a1&size=8M+B/2" ∧
  ∃ u, newUri false (str "mmap:///tmp/f:1?name=a1&size=8M+B/2") = Ok u ∧
    getPath u = str "/tmp/f:1" ∧ getParam u (str "name") = Ok (str "a1").
Proof.
  split; [vm_compute; reflexivity|]. eexists. split; [|split].
  - exact (uri_roundtrip false (mkUri [] [] [] ∅) _ _ _ demo_uri_ok (has_sep_no (str "/tmp/f:1") eq_refl)).
  - reflexivity.
  - vm_compute. reflexivity.
Defined.

(** Texts on which the parsers differ. *)
Example uri_parsers_differ :
  forallb (λ text, is_ok (newUri true text) && negb (is_ok (newUri false text)))
    [str "file://a://b"; str "file://a?"; str "file://a?&x=1"] = true ∧
  forallb (λ text, negb (is_ok (newUri true text)) && is_ok (newUri false text))
    [str "file://"; str "a b://c"; str "file://a&b"] = true.
Proof. vm_compute. done. Qed.

Lemma uri_parsers_agree_witness :
  ∃ u, newUri true (str "dummy://0?x=1") = Ok u ∧ newUri false (str "dummy://0?x=1") = Ok u.
Proof.
  destruct (newUri true (str "dummy://0?x=1")) as [u|] eqn:E; [|vm_compute in E; discriminate].
  exists u. split; [done|].
  refine (uri_parsers_agree (mkUri [] [] [] ∅) (mkUri [] [] [] ∅) _ u E _ _ _).
  - apply has_sep_no. vm_compute in E. injection E as <-. reflexivity.
  - intros a Ha. assert (last (str "dummy://0?x=1") = last (a ++ str "?")) as El by (by rewrite <- Ha).
    change (str "?") with ["?"%char] in El. rewrite last_snoc in El. discriminate.
  - intros a b Ha.
    do 11 (destruct a as [|? a]; [vm_compute in Ha; discriminate|injection Ha as _ Ha]).
    destruct a as [|? a]; [vm_compute in Ha; discriminate|injection Ha as _ Ha].
    destruct a as [|? a]; [vm_compute in Ha; discriminate|injection Ha as _ Ha]. by destruct a.
Defined.
