(* ===== verification/InterProc.v ===== *)
(** * The quota shared between processes (src/src/core/PolicyQuotaInterProc.cpp)

    A segment of shared memory holds a lock, the number of processes and a table of
    process identifiers; every process gets an equal share of the total.  Each critical
    section is one step; [alive] is what [kill(pid, 0)] answers at that time.  The
    system calls that open the segment are arguments. *)

From S2P Require Import Prelude ListElement Policy PolicyInterface OS Driver Mapping System.

Definition SHARED_TAB_ENTRIES : Z := (1024 * 1024 - 4 * 4) / 4.

(** [PolicyQuotaInterProcShared]; [indexMax] is the length of [pids]: the entries of
    the table past it are zero and never looked at. *)
Record Shared := mkShared { spinlock : Z; processes : Z; pids : list Z }.

(** A new segment is all zero. *)
Definition newShared : Shared := mkShared 0 0 [].

(** ** The lock *)

(** One round of [lock]: [None] while another process holds the lock. *)
Definition try_lock (s : Shared) : option Shared :=
  if spinlock s =? 0 then Some (mkShared 1 (processes s) (pids s)) else None.

Definition unlock (s : Shared) : result Shared :=
  assume (spinlock s =? 1) "Fail to unlock, got invalid value on the spinlock !";;
  Ok (mkShared 0 (processes s) (pids s)).

(** A critical section that finds the lock free. *)
Definition locked {A} (s : Shared) (body : Shared → result (A * Shared)) : result (A * Shared) :=
  match try_lock s with
  | None => Err OutOfFuel
  | Some s1 => '(a, s2) ← body s1; s3 ← unlock s2; Ok (a, s3)
  end.

(** ** Registration *)

Section Calls.
Context (alive : Z → bool).

(** The first slot that is free or whose process is dead is taken. *)
Fixpoint take_slot (l : list Z) (pid : Z) : option (list Z) :=
  match l with
  | [] => None
  | p :: l' => if (p =? 0) || negb (alive p) then Some (pid :: l')
               else (λ l, p :: l) <$> take_slot l' pid
  end.

(** The critical section of the constructor.  Without a free slot the table grows,
    without any check of its size. *)
Definition registerProcess (s : Shared) (pid : Z) : result Shared :=
  '(_, s') ← locked s (λ s,
    let n := processes s + 1 in
    match take_slot (pids s) pid with
    | Some l => Ok (tt, mkShared (spinlock s) n l)
    | None =>
        if Z.of_nat (length (pids s)) <? SHARED_TAB_ENTRIES
        then Ok (tt, mkShared (spinlock s) n (pids s ++ [pid]))
        else Err BadAccess
    end);
  Ok s'.

(** The first slot of the process is freed. *)
Fixpoint free_slot (l : list Z) (pid : Z) : option (list Z) :=
  match l with
  | [] => None
  | p :: l' => if p =? pid then Some (0 :: l') else (λ l, p :: l) <$> free_slot l' pid
  end.

(** The destructor: the number of processes is decremented before the search. *)
Definition unregisterProcess (s : Shared) (pid : Z) : result Shared :=
  '(found, s') ← locked s (λ s,
    let n := processes s - 1 in
    match free_slot (pids s) pid with
    | Some l => Ok (true, mkShared (spinlock s) n l)
    | None => Ok (false, mkShared (spinlock s) n (pids s))
    end);
  assume found "Fail to found the local PID in the shared->pid[] vector !";;
  Ok s'.

(** Dead processes are removed from the table and from the count. *)
Fixpoint dropDead (n : Z) (l : list Z) : Z * list Z :=
  match l with
  | [] => (n, [])
  | p :: l' =>
      let '(n, p) := if negb (p =? 0) && negb (alive p) then (n - 1, 0) else (n, p) in
      let '(n', l'') := dropDead n l' in (n', p :: l'')
  end.

(** The processes that get the signal are the first component. *)
Definition signalAll (s : Shared) (self : Z) : result (list Z * Shared) :=
  locked s (λ s,
    let '(n, l) := dropDead (processes s) (pids s) in
    Ok (filter (λ p, p ≠ self ∧ p ≠ 0) l, mkShared (spinlock s) n l)).
End Calls.

(** ** The share of a process *)

Definition perProcQuota (s : Shared) (totalAllowed : Z) : result Z :=
  cassert (0 <? processes s) "this->shared->processes > 0";;
  Ok (totalAllowed / processes s).

(** [update] of the quota [qid] of this process: the share becomes its maximum, then
    the quota is enforced as a local one. *)
Definition update_share {D P} `{DriverOps D} `{PolicyOps P} (fuel : nat) (w : World D P) (qid : Z)
    (s : Shared) (totalAllowed : Z) : result (World D P) :=
  share ← perProcQuota s totalAllowed;
  q ← deref (w_quotas w !! qid);
  update fuel (set_quota w qid (mkQuota share (q_policies q))) qid.

(** ** Deferred signals *)

(** The flags of a thread: signals allowed, signal pending. *)
Record SignalFlags := mkFlags { allowSignal : bool; hasPendingSignal : bool }.

(** [instance]: the process has an inter-process quota. *)
Definition deferSignal (instance : bool) (f : SignalFlags) : SignalFlags :=
  if instance then mkFlags false (hasPendingSignal f) else f.

(** The number of calls to [update], and the flags. *)
Definition runDeferedSignal (instance : bool) (f : SignalFlags) : nat * SignalFlags :=
  if instance then
    (if hasPendingSignal f then (1%nat, mkFlags true false) else (0%nat, mkFlags true false))
  else (0%nat, f).

(** [sigHandler] updates at once, whatever the flags: the number of updates. *)
Definition sigHandler (instance : bool) (f : SignalFlags) : nat * SignalFlags :=
  if instance then (1%nat, f) else (0%nat, f).

(** ** Opening the segment *)

(** What [shm_open], [fstat], [ftruncate], [mmap] and [close] answer. *)
Record ShmCalls := mkShmCalls {
  shm_open : Z; fstat : Z; st_size : Z; ftruncate : Z; mmap : option Z; close : Z;
}.

(** The address of the segment and whether it was created with this size. *)
Definition openShm (c : ShmCalls) (size : Z) : result (Z * bool) :=
  cassert (size mod 4096 =? 0) "size % 4096 == 0";;
  assume (0 <=? shm_open c) "Failed to shm_open('%1'): %2";;
  assume (fstat c =? 0) "Failed to fstat the shm file '%1': %2";;
  let fresh := (0 <? size) && (st_size c =? 0) in
  (if fresh then assume (ftruncate c =? 0) "Failed to ftruncate the shm file '%1': %2" else Ok tt);;
  ptr ← match mmap c with
        | Some ptr => Ok ptr
        | None => Err (Fatal "Failed to mmap('%1'): %2") end;
  assume (close c =? 0) "Failed to close the shm file '%1': %2";;
  Ok (ptr, fresh).

(** ** Histories *)

(** What the processes of a machine do to the segment: a process registers and then
    signals, leaves, or asks for the signals; [alive] is the state of the machine. *)
Inductive ipc_op : Type :=
  | Join (alive : Z → bool) (pid : Z)
  | Leave (pid : Z)
  | Sweep (alive : Z → bool) (pid : Z).

Definition run_ipc (s : Shared) (op : ipc_op) : result Shared :=
  match op with
  | Join alive pid =>
      s1 ← registerProcess alive s pid;
      '(_, s2) ← signalAll alive s1 pid; Ok s2
  | Leave pid => unregisterProcess s pid
  | Sweep alive pid => '(_, s1) ← signalAll alive s pid; Ok s1
  end.

(** Slots in use. *)
Definition used (l : list Z) : Z := Z.of_nat (length (filter (λ p, p ≠ 0) l)).

Record shared_inv (s : Shared) : Prop := {
  sh_free : spinlock s = 0;
  sh_count : used (pids s) ≤ processes s;
}.

Lemma used_cons p l : used (p :: l) = (if p =? 0 then 0 else 1) + used l.
Proof.
  unfold used. rewrite filter_cons. destruct (Z.eqb_spec p 0).
  - rewrite decide_False by tauto. lia.
  - rewrite decide_True by done. cbn [length]. lia.
Qed.

Lemma used_nil : used [] = 0.
Proof. reflexivity. Qed.

Lemma used_app l1 l2 : used (l1 ++ l2) = used l1 + used l2.
Proof. unfold used. rewrite filter_app, length_app. lia. Qed.

Lemma used_nonneg l : 0 ≤ used l.
Proof. unfold used. lia. Qed.

Lemma take_slot_used alive l pid l' :
  take_slot alive l pid = Some l' → pid ∈ l' ∧ used l' ≤ used l + 1.
Proof.
  revert l'. induction l as [|p l IH]; intros l'; cbn; [done|].
  destruct ((p =? 0) || negb (alive p)).
  - intros [= <-]. split; [by left|]. rewrite !used_cons.
    destruct (pid =? 0), (p =? 0); lia.
  - intros (l1 & Hl1 & ->)%fmap_Some. destruct (IH l1 Hl1). split; [by right|]. rewrite !used_cons. lia.
Qed.

Lemma free_slot_used l pid l' :
  pid ≠ 0 → free_slot l pid = Some l' → used l' = used l - 1.
Proof.
  intros Hpid. revert l'. induction l as [|p l IH]; intros l'; cbn; [done|].
  destruct (Z.eqb_spec p pid) as [->|Hne].
  - intros [= <-]. rewrite !used_cons. apply Z.eqb_neq in Hpid. rewrite Hpid. cbn. lia.
  - intros (l1 & Hl1 & ->)%fmap_Some. rewrite !used_cons, (IH l1 Hl1). lia.
Qed.

Lemma free_slot_found l pid : pid ∈ l → ∃ l', free_slot l pid = Some l'.
Proof.
  induction l as [|p l IH]; [by intros ?%elem_of_nil|]. intros Hin. cbn.
  destruct (Z.eqb_spec p pid); [eauto|]. apply elem_of_cons in Hin as [?|Hin]; [done|].
  destruct (IH Hin) as [l' ->]. cbn. eauto.
Qed.

Lemma dropDead_spec alive n l :
  let '(n', l') := dropDead alive n l in
  n' - used l' = n - used l ∧ ∀ p, p ≠ 0 → p ∈ l' ↔ p ∈ l ∧ alive p = true.
Proof.
  revert n. induction l as [|p l IH]; intros n; cbn.
  - split; [done|]. intros p _. rewrite elem_of_nil. tauto.
  - destruct (negb (p =? 0) && negb (alive p)) eqn:E.
    + specialize (IH (n - 1)). destruct (dropDead alive (n - 1) l) as [n' l']. destruct IH as [IH1 IH2].
      bool_prop. split.
      * rewrite !used_cons. apply Z.eqb_neq in H as ->. cbn. lia.
      * intros q Hq. rewrite !elem_of_cons, IH2 by done. split; [intros [->|?]; tauto|].
        intros [[->|?] Hal]; [congruence|tauto].
    + specialize (IH n). destruct (dropDead alive n l) as [n' l']. destruct IH as [IH1 IH2].
      split; [rewrite !used_cons; lia|]. intros q Hq. rewrite !elem_of_cons, IH2 by done.
      apply andb_false_iff in E. split; [intros [->|?]; [split; [by left|]|tauto]|tauto].
      destruct E as [E|E]; bool_prop; [done|by destruct (alive p)].
Qed.

(** ** Operations on a free segment *)

(** The drift: processes counted that hold no slot. *)
Definition drift (s : Shared) : Z := processes s - used (pids s).

Lemma locked_ok {A} s (body : Shared → result (A * Shared)) a s2 :
  spinlock s = 0 → body (mkShared 1 (processes s) (pids s)) = Ok (a, s2) → spinlock s2 = 1 →
  locked s body = Ok (a, mkShared 0 (processes s2) (pids s2)).
Proof.
  intros Hs Hb H2. unfold locked, try_lock. rewrite Hs. cbn [Z.eqb]. rewrite Hb.
  cbn [mbind result_bind]. unfold unlock. by rewrite H2.
Qed.

(** The slot taken was free or held a dead process. *)
Lemma take_slot_keeps alive l pid l' p :
  take_slot alive l pid = Some l' → p ∈ l → p ≠ 0 → alive p = true → p ∈ l'.
Proof.
  revert l'. induction l as [|q l IH]; intros l'; cbn; [done|].
  destruct ((q =? 0) || negb (alive q)) eqn:E.
  - intros [= <-] [->|Hp]%elem_of_cons Hp0 Hal; [|by right].
    apply orb_true_iff in E as [E|E]; bool_prop; [done|congruence].
  - intros (l2 & Hl2 & ->)%fmap_Some [->|Hp]%elem_of_cons Hp0 Hal; [by left|right; eauto].
Qed.

(** The table after a registration. *)
Definition slots_after (alive : Z → bool) (l : list Z) (pid : Z) : list Z :=
  default (l ++ [pid]) (take_slot alive l pid).

Lemma slots_after_spec alive l pid :
  pid ∈ slots_after alive l pid ∧ used (slots_after alive l pid) ≤ used l + 1 ∧
  ∀ p, p ∈ l → p ≠ 0 → alive p = true → p ∈ slots_after alive l pid.
Proof.
  unfold slots_after. destruct (take_slot alive l pid) as [l'|] eqn:Ht; cbn.
  - destruct (take_slot_used _ _ _ _ Ht). split; [done|]. split; [done|]. intros. by eapply take_slot_keeps.
  - split; [apply elem_of_app; right; by left|]. split; [rewrite used_app, used_cons, used_nil; destruct (pid =? 0); lia|].
    intros p Hp _ _. apply elem_of_app. by left.
Qed.

(** A registration fails only when the table is full. *)
Lemma registerProcess_run alive s pid :
  spinlock s = 0 →
  registerProcess alive s pid =
  if bool_decide (take_slot alive (pids s) pid = None) && (SHARED_TAB_ENTRIES <=? Z.of_nat (length (pids s)))
  then Err BadAccess
  else Ok (mkShared 0 (processes s + 1) (slots_after alive (pids s) pid)).
Proof.
  intros Hs. unfold registerProcess, slots_after, locked, try_lock. rewrite Hs. cbn [Z.eqb pids processes spinlock].
  destruct (take_slot alive (pids s) pid) as [l|] eqn:Ht.
  - by rewrite bool_decide_eq_false_2 by done.
  - rewrite bool_decide_eq_true_2 by done. cbn [andb default].
    destruct (Z.ltb_spec (Z.of_nat (length (pids s))) SHARED_TAB_ENTRIES);
      destruct (Z.leb_spec SHARED_TAB_ENTRIES (Z.of_nat (length (pids s)))); try lia; done.
Qed.

Lemma signalAll_ok alive s self :
  spinlock s = 0 →
  ∃ l, signalAll alive s self =
      Ok (filter (λ p, p ≠ self ∧ p ≠ 0) l, mkShared 0 (processes s - used (pids s) + used l) l) ∧
    ∀ p, p ≠ 0 → p ∈ l ↔ p ∈ pids s ∧ alive p = true.
Proof.
  intros Hs. unfold signalAll. pose proof (dropDead_spec alive (processes s) (pids s)) as Hd.
  destruct (dropDead alive (processes s) (pids s)) as [n l] eqn:E. destruct Hd as [Hn Hl].
  exists l. split; [|done]. erewrite locked_ok; [|done|cbn; rewrite E; done|done].
  cbn. replace n with (processes s - used (pids s) + used l) by lia. done.
Qed.

Lemma unregisterProcess_ok s pid :
  spinlock s = 0 → pid ≠ 0 → pid ∈ pids s →
  ∃ l, unregisterProcess s pid = Ok (mkShared 0 (processes s - 1) l) ∧
    used l = used (pids s) - 1 ∧ ∀ p, p ∈ pids s → p ≠ pid → p ∈ l.
Proof.
  intros Hs Hpid Hin. destruct (free_slot_found _ _ Hin) as [l Hl]. exists l. unfold unregisterProcess.
  erewrite locked_ok; [|done|cbn; rewrite Hl; done|done]. cbn. split; [done|].
  split; [by apply (free_slot_used _ pid)|]. clear Hin Hs. revert l Hl.
  induction (pids s) as [|q l0 IH]; intros l1; cbn; [done|]. destruct (Z.eqb_spec q pid) as [->|Hne].
  - intros [= <-] p [->|Hp]%elem_of_cons Hp'; [done|by right].
  - intros (l2 & Hl2 & ->)%fmap_Some p [->|Hp]%elem_of_cons Hp'; [by left|right; eauto].
Qed.


(** ** The machine *)

(** The live processes that registered, and the segment.  A process is alive when it
    is one of them, or another program of the machine. *)
Inductive ipc_step : list Z * Shared → list Z * Shared → Prop :=
  | step_join R s s' alive pid :
      pid ≠ 0 → pid ∉ R → (∀ p, p ∈ pid :: R → alive p = true) →
      run_ipc s (Join alive pid) = Ok s' → ipc_step (R, s) (pid :: R, s')
  | step_leave R s s' pid :
      pid ∈ R → run_ipc s (Leave pid) = Ok s' → ipc_step (R, s) (filter (λ p, p ≠ pid) R, s')
  | step_crash R s pid : ipc_step (R, s) (filter (λ p, p ≠ pid) R, s)
  | step_sweep R s s' alive pid :
      pid ∈ R → (∀ p, p ∈ R → alive p = true) →
      run_ipc s (Sweep alive pid) = Ok s' → ipc_step (R, s) (R, s').

Record machine_inv (c : list Z * Shared) : Prop := {
  mc_shared : shared_inv (snd c);
  mc_nodup : NoDup (fst c);
  mc_slots : ∀ p, p ∈ fst c → p ≠ 0 ∧ p ∈ pids (snd c);
}.

Lemma join_ok alive s pid :
  shared_inv s → pid ≠ 0 → alive pid = true →
  run_ipc s (Join alive pid) = Err BadAccess ∧ SHARED_TAB_ENTRIES ≤ Z.of_nat (length (pids s)) ∨
  ∃ s', run_ipc s (Join alive pid) = Ok s' ∧ shared_inv s' ∧ drift s ≤ drift s' ∧
    pid ∈ pids s' ∧ (∀ p, p ∈ pids s → p ≠ 0 → alive p = true → p ∈ pids s') ∧
    drift s' = processes s + 1 - used (slots_after alive (pids s) pid).
Proof.
  intros [Hf Hc] Hpid Hal. cbn [run_ipc]. rewrite registerProcess_run by done.
  destruct (bool_decide _ && _) eqn:E.
  - left. bool_prop. done.
  - right. destruct (slots_after_spec alive (pids s) pid) as (Hin & Hu & Hkeep).
    destruct (signalAll_ok alive (mkShared 0 (processes s + 1) (slots_after alive (pids s) pid)) pid eq_refl)
      as (l & Hsig & Hl).
    cbn [mbind result_bind]. rewrite Hsig. cbn in Hl |- *. eexists. split; [reflexivity|].
    pose proof (used_nonneg l). unfold drift. cbn. split; [split; cbn; [done|lia]|]. split; [lia|].
    split; [by apply Hl|]. split; [|lia]. intros p Hp Hp0 Hal'. apply Hl; [done|]. split; [by apply Hkeep|done].
Qed.

Lemma leave_ok s pid :
  shared_inv s → pid ≠ 0 → pid ∈ pids s →
  ∃ s', run_ipc s (Leave pid) = Ok s' ∧ shared_inv s' ∧ drift s' = drift s ∧
    ∀ p, p ∈ pids s → p ≠ pid → p ∈ pids s'.
Proof.
  intros [Hf Hc] Hpid Hin. destruct (unregisterProcess_ok s pid Hf Hpid Hin) as (l & Hrun & Hu & Hkeep).
  eexists. split; [exact Hrun|]. split; [split; cbn; [done|lia]|]. split; [unfold drift; cbn; lia|done].
Qed.

Lemma sweep_ok alive s pid :
  shared_inv s →
  ∃ s', run_ipc s (Sweep alive pid) = Ok s' ∧ shared_inv s' ∧ drift s' = drift s ∧
    ∀ p, p ∈ pids s → p ≠ 0 → alive p = true → p ∈ pids s'.
Proof.
  intros [Hf Hc]. destruct (signalAll_ok alive s pid Hf) as (l & Hrun & Hl).
  eexists. cbn. rewrite Hrun. split; [reflexivity|]. split; [split; cbn; [done|lia]|].
  split; [unfold drift; cbn; lia|]. intros p Hp Hp0 Hal. by apply Hl.
Qed.

(** ** Theorems *)

Lemma machine_inv_step c c' : ipc_step c c' → machine_inv c → machine_inv c'.
Proof.
  intros Hstep [Hi Hnd Hin]. destruct Hstep as [R s s' alive pid Hpid HnR Hal Hrun|R s s' pid HR Hrun|R s pid|R s s' alive pid HR Hal Hrun];
    cbn in *.
  - destruct (join_ok alive s pid Hi Hpid (Hal pid ltac:(by left)))
      as [[Herr _]|(s1 & Hrun1 & Hi1 & _ & Hp & Hkeep & _)]; cbn [run_ipc] in *; [congruence|].
    assert (s1 = s') as -> by congruence. split; cbn; [done|by apply NoDup_cons|].
    intros p [->|Hp']%elem_of_cons; [done|]. destruct (Hin p Hp'). split; [done|].
    apply Hkeep; [done|done|]. apply Hal. by right.
  - destruct (Hin pid HR) as [Hpid Hslot].
    destruct (leave_ok s pid Hi Hpid Hslot) as (s1 & Hrun1 & Hi1 & _ & Hkeep). cbn [run_ipc] in Hrun1.
    assert (s1 = s') as -> by congruence. split; cbn; [done|by apply NoDup_filter|].
    intros p [Hne Hp]%list_elem_of_filter. destruct (Hin p Hp). auto.
  - split; cbn; [done|by apply NoDup_filter|]. intros p [_ Hp]%list_elem_of_filter. auto.
  - destruct (sweep_ok alive s pid Hi) as (s1 & Hrun1 & Hi1 & _ & Hkeep). cbn [run_ipc] in Hrun1.
    assert (s1 = s') as -> by congruence. split; cbn; [done|done|].
    intros p Hp. destruct (Hin p Hp). split; [done|]. apply Hkeep; [done|done|]. by apply Hal.
Qed.

Lemma machine_inv_reachable R s : rtc ipc_step ([], newShared) (R, s) → machine_inv (R, s).
Proof.
  intros Hreach. remember ([], newShared) as c0 eqn:E0. remember (R, s) as c eqn:E. clear E.
  assert (Hinit : machine_inv c0).
  { subst c0. split; cbn; [split; cbn; [done|by rewrite used_nil]|apply NoDup_nil_2|by intros ? ?%elem_of_nil]. }
  clear E0. induction Hreach as [c|c1 c2 c3 Hstep _ IH]; [done|]. by apply IH, (machine_inv_step c1).
Qed.

Lemma live_counted R s : machine_inv (R, s) → Z.of_nat (length R) ≤ processes s.
Proof.
  intros [[_ Hc] Hnd Hin]. cbn in *. assert (Z.of_nat (length R) ≤ used (pids s)); [|lia].
  unfold used. apply inj_le, submseteq_length, NoDup_submseteq; [done|].
  intros p Hp. destruct (Hin p Hp). by apply list_elem_of_filter.
Qed.

(** The share of a process of a reachable machine. *)
Lemma share_fits R s total :
  machine_inv (R, s) → 0 ≤ total → R ≠ [] →
  ∃ share, perProcQuota s total = Ok share ∧ 0 ≤ share ∧ Z.of_nat (length R) * share ≤ total.
Proof.
  intros Hm Htot HR. pose proof (live_counted _ _ Hm) as Hlive.
  assert (Hpos : 0 < Z.of_nat (length R)) by (destruct R; [done|cbn; lia]).
  unfold perProcQuota. destruct (Z.ltb_spec 0 (processes s)); [|lia]. eexists. split; [reflexivity|].
  pose proof (Z.div_pos total (processes s) Htot ltac:(lia)) as Hsh. split; [done|].
  pose proof (Z.mul_div_le total (processes s) ltac:(lia)). nia.
Qed.

(** The shares never exceed the total: in every state the processes of a
    machine can reach by registering, leaving, crashing and signalling each other, the
    lock is free, a live process can always leave, and the share each one computes,
    times the number of live processes, is at most the total allowed. *)
Theorem interproc_shares_fit R s total :
  rtc ipc_step ([], newShared) (R, s) → 0 ≤ total → R ≠ [] →
  spinlock s = 0 ∧
  (∀ pid, pid ∈ R → ∃ s', run_ipc s (Leave pid) = Ok s') ∧
  ∃ share, perProcQuota s total = Ok share ∧ 0 ≤ share ∧ Z.of_nat (length R) * share ≤ total.
Proof.
  intros Hreach Htot HR. pose proof (machine_inv_reachable _ _ Hreach) as Hm.
  pose proof (share_fits R s total Hm Htot HR) as Hshare. destruct Hm as [Hi _ Hin]. cbn in Hi, Hin.
  split; [apply Hi|]. split; [|exact Hshare]. intros pid Hp. destruct (Hin pid Hp) as [Hpid Hslot].
  destruct (leave_ok s pid Hi Hpid Hslot) as (s' & Hrun & _). eauto.
Qed.

Lemma interproc_shares_fit_witness :
  ∃ s, rtc ipc_step ([], newShared) ([30; 10], s) ∧
    ∃ share, perProcQuota s 1000 = Ok share ∧ Z.of_nat (length [30; 10]) * share ≤ 1000.
Proof.
  eexists. assert (Hreach : rtc ipc_step ([], newShared) ([30; 10], mkShared 0 3 [10; 30])).
  { eapply (rtc_l _ _ ([10], mkShared 0 1 [10])).
    { apply (step_join [] newShared _ (λ p, p =? 10)); [done|by apply not_elem_of_nil| |reflexivity].
      by intros p ->%list_elem_of_singleton. }
    eapply (rtc_l _ _ ([20; 10], mkShared 0 2 [10; 20])).
    { apply (step_join [10] _ _ (λ _, true)); [done|by rewrite list_elem_of_singleton|done|reflexivity]. }
    eapply (rtc_l _ _ ([10], mkShared 0 2 [10; 20])); [exact (step_crash [20; 10] _ 20)|].
    apply rtc_once.
    apply (step_join [10] _ _ (λ p, (p =? 10) || (p =? 30))); [done|by rewrite list_elem_of_singleton| |reflexivity].
    by intros p [-> | ->%list_elem_of_singleton]%elem_of_cons. }
  split; [exact Hreach|].
  destruct (interproc_shares_fit _ _ 1000 Hreach) as (_ & _ & share & Hs & _ & Hle); [lia|done|]. eauto.
Defined.


