(* ===== verification/Spinlocks.v ===== *)
(** * Spinlocks

    The spinlock of the registries, a wrapper of the one of the C library
    (src/src/portability/SpinlockPthread.hpp), and the lock of the quota shared between
    processes (src/src/core/PolicyQuotaInterProc.cpp), an integer in shared memory changed
    by compare-and-exchange.  The latter is a state machine: processes ask for the lock,
    run a round of its loop, release it, and can be killed at any time. *)

From stdpp Require Import relations.
From S2P Require Import Prelude.

(** ** The wrapper *)

Module SpinlockPthread.

(** The functions of the C library on one lock; [None]: the call spins. *)
Class PthreadSpin (L : Type) := {
  pthread_spin_init : L;
  pthread_spin_lock : L → option L;
  pthread_spin_unlock : L → L;
  pthread_spin_trylock : L → Z * L;
}.

Section Methods.
Context {L : Type} `{PthreadSpin L}.

Definition newSpinlock : L := pthread_spin_init.
Definition lock (l : L) : option L := pthread_spin_lock l.
Definition unlock (l : L) : L := pthread_spin_unlock l.
(** The [int] of the C function converted to [bool]. *)
Definition tryLock (l : L) : bool * L :=
  let '(res, l') := pthread_spin_trylock l in (negb (res =? 0), l').
End Methods.

(** What their documentation says, by the state of the lock. *)
Class PthreadSpinLaws (L : Type) `{PthreadSpin L} := {
  taken : L → bool;
  init_law : taken pthread_spin_init = false;
  lock_law l : match pthread_spin_lock l with
               | Some l' => taken l = false ∧ taken l' = true
               | None => taken l = true end;
  unlock_law l : taken l = true → taken (pthread_spin_unlock l) = false;
  trylock_law l : let '(res, l') := pthread_spin_trylock l in
    taken l' = true ∧ (res = 0 ↔ taken l = false);
}.

(** [tryLock] returns [true] when it did not take the lock. *)
Lemma tryLock_inverted {L} `{PthreadSpinLaws L} l :
  fst (tryLock l) = taken l ∧ taken (snd (tryLock l)) = true.
Proof.
  unfold tryLock. pose proof (trylock_law l) as Hl. destruct (pthread_spin_trylock l) as [res l'].
  destruct Hl as [Hl' Hr]. split; [|exact Hl']. cbn. destruct (Z.eqb_spec res 0) as [E|E]; cbn.
  - symmetry. by apply Hr.
  - destruct (taken l); [done|]. by destruct E; apply Hr.
Qed.

(** The lock as a word: the laws can hold. *)
#[local] Instance word_lock : PthreadSpin bool := {
  pthread_spin_init := false;
  pthread_spin_lock := λ l, if l : bool then None else Some true;
  pthread_spin_unlock := λ _, false;
  pthread_spin_trylock := λ l, (if l : bool then 16 else 0, true);
}.
#[local] Instance word_lock_laws : PthreadSpinLaws bool.
Proof. by exists id; [|intros []|intros []|intros []]. Defined.

Lemma tryLock_inverted_word : tryLock false = (false, true) ∧ tryLock true = (true, true).
Proof. split; reflexivity. Qed.
End SpinlockPthread.

(** ** The lock between processes *)

Module ProcessLock.

(** [std::atomic<int>::compare_exchange_weak]: it can fail although the value is the
    expected one. *)
Definition compare_exchange_weak (value expected desired : Z) (spurious : bool) : bool * Z :=
  if negb spurious && (value =? expected) then (true, desired) else (false, value).

(** One round of the loop of [lock]: is the lock taken? *)
Definition lock_round (spinlock : Z) (spurious : bool) : bool * Z :=
  compare_exchange_weak spinlock 0 1 spurious.

Definition unlock_round (spinlock : Z) (spurious : bool) : result Z :=
  let '(status, spinlock') := compare_exchange_weak spinlock 1 0 spurious in
  assume status "Fail to unlock, got invalid value on the spinlock !";;
  Ok spinlock'.

(** Where a process is; a process that ended, and whether it held the lock. *)
Inductive place := Outside | Spinning | Inside | Ended (holding : bool).

#[export] Instance place_eq_dec : EqDecision place.
Proof. solve_decision. Defined.

Record state := mkState { spinlock : Z; places : gmap Z place }.

(** A process calls [lock], runs a round of its loop or leaves the critical section;
    it is killed. *)
Inductive action := Call (p : Z) | Run (p : Z) (spurious : bool) | Kill (p : Z).

Definition goes (s : state) (w p : Z) (x : place) : state := mkState w (<[p := x]> (places s)).

Definition act (s : state) (a : action) : option state :=
  match a with
  | Call p =>
      if decide (places s !! p = Some Outside) then Some (goes s (spinlock s) p Spinning) else None
  | Run p spurious =>
      match places s !! p with
      | Some Spinning =>
          let '(ok, w) := lock_round (spinlock s) spurious in
          Some (goes s w p (if ok : bool then Inside else Spinning))
      | Some Inside =>
          match unlock_round (spinlock s) spurious with
          | Ok w => Some (goes s w p Outside)
          | Err _ => Some (goes s (spinlock s) p (Ended true))
          end
      | _ => None
      end
  | Kill p =>
      match places s !! p with
      | Some (Ended _) | None => None
      | Some x => Some (goes s (spinlock s) p (Ended (bool_decide (x = Inside))))
      end
  end.

Definition step (s s' : state) : Prop := ∃ a, act s a = Some s'.

(** Processes that have opened a new segment. *)
Definition opened (pids : gset Z) : state := mkState 0 (gset_to_gmap Outside pids).

Definition holds (s : state) (p : Z) : Prop :=
  places s !! p = Some Inside ∨ places s !! p = Some (Ended true).

(** *** Invariant *)

Definition lock_inv (s : state) : Prop :=
  (spinlock s = 0 ∧ ∀ p, ¬ holds s p) ∨
  (spinlock s = 1 ∧ ∃ h, holds s h ∧ ∀ p, holds s p → p = h).

Lemma holds_goes s w p x q :
  holds (goes s w p x) q ↔ (q = p ∧ (x = Inside ∨ x = Ended true)) ∨ (q ≠ p ∧ holds s q).
Proof.
  unfold holds. cbn. destruct (decide (q = p)) as [->|Hne].
  - rewrite lookup_insert_eq. naive_solver.
  - rewrite lookup_insert_ne by done. naive_solver.
Qed.

Lemma act_inv s a s' : lock_inv s → act s a = Some s' → lock_inv s'.
Proof.
  intros Hi Ha.
  assert (Hsame : ∀ p x y, places s !! p = Some y → (holds s p ↔ x = Inside ∨ x = Ended true) →
    lock_inv (goes s (spinlock s) p x)).
  { intros p x y Hp Hx. assert (Hh : ∀ q, holds (goes s (spinlock s) p x) q ↔ holds s q).
    { intros q. rewrite holds_goes. destruct (decide (q = p)) as [->|]; naive_solver. }
    unfold lock_inv. setoid_rewrite Hh. exact Hi. }
  destruct a as [p|p spurious|p]; cbn in Ha.
  - case_decide as Hp; simplify_eq. apply (Hsame p _ _ Hp). unfold holds. rewrite Hp. naive_solver.
  - destruct (places s !! p) as [[| | |b]|] eqn:Hp; [done| | |done|done].
    + unfold lock_round, compare_exchange_weak in Ha.
      destruct (negb spurious && (spinlock s =? 0)) eqn:E; cbn in Ha; simplify_eq.
      * apply andb_true_iff in E as [_ E%Z.eqb_eq]. destruct Hi as [[_ Hno]|[? _]]; [|lia].
        right. split; [done|]. exists p. setoid_rewrite holds_goes. naive_solver.
      * apply (Hsame p _ _ Hp). unfold holds. rewrite Hp. naive_solver.
    + assert (Hhp : holds s p) by (left; exact Hp).
      destruct Hi as [[_ Hno]|[Hw (h & Hh & Huniq)]]; [by destruct (Hno p)|].
      unfold unlock_round, compare_exchange_weak in Ha. rewrite Hw in Ha. destruct spurious; cbn in Ha; simplify_eq.
      * rewrite <- Hw. apply (Hsame p _ _ Hp). naive_solver.
      * left. split; [done|]. intros q. rewrite holds_goes. intros [[_ [?|?]]|[Hne Hq]]; [done..|].
        apply Hne. by rewrite (Huniq q Hq), (Huniq p Hhp).
  - destruct (places s !! p) as [x|] eqn:Hp; [|done].
    assert (Ha' : (∀ b, x ≠ Ended b) ∧ s' = goes s (spinlock s) p (Ended (bool_decide (x = Inside))))
      by (destruct x; by simplify_eq).
    destruct Ha' as [Hx ->]. apply (Hsame p _ _ Hp). unfold holds. rewrite Hp.
    destruct (decide (x = Inside)) as [->|Hne]; [rewrite bool_decide_true by done|rewrite bool_decide_false by done];
      naive_solver.
Qed.

(** A process that ended while it held the lock stays so. *)
Lemma act_dead s a s' p :
  places s !! p = Some (Ended true) → act s a = Some s' → places s' !! p = Some (Ended true).
Proof.
  intros Hp Ha.
  assert (Hgoes : ∀ w q x, places s !! q ≠ Some (Ended true) → places (goes s w q x) !! p = Some (Ended true)).
  { intros w q x Hq. cbn. rewrite lookup_insert_ne; [done|]. by intros ->. }
  destruct a as [q|q spurious|q]; cbn in Ha.
  - case_decide as Hq; simplify_eq. apply Hgoes. by rewrite Hq.
  - destruct (places s !! q) as [[| | |b]|] eqn:Hq; [done| | |done|done].
    + destruct (lock_round _ _). simplify_eq. apply Hgoes. by rewrite Hq.
    + destruct (unlock_round _ _); simplify_eq; apply Hgoes; by rewrite Hq.
  - destruct (places s !! q) as [x|] eqn:Hq; [|done]. destruct x; simplify_eq; apply Hgoes; by rewrite Hq.
Qed.

(** C21: the lock between processes.  Whatever the processes do, and whenever one is
    killed: at most one holds the lock, and the word of the lock is 1 exactly when one
    does; a process that spins enters when the lock is free and its exchange does not
    fail for no reason; but once a process has ended with the lock, killed inside its
    critical section or stopped by [unlock] when its exchange failed for no reason, no
    process ever enters again. *)
Theorem process_lock_excludes (pids : gset Z) s :
  rtc step (opened pids) s →
  (∀ p q, holds s p → holds s q → p = q) ∧ (spinlock s = 1 ↔ ∃ p, holds s p) ∧
  (∀ p, places s !! p = Some Spinning → spinlock s = 0 →
     ∃ s', act s (Run p false) = Some s' ∧ places s' !! p = Some Inside) ∧
  (∀ p, places s !! p = Some Inside →
     act s (Run p true) = Some (goes s 1 p (Ended true)) ∧ act s (Kill p) = Some (goes s 1 p (Ended true))) ∧
  (∀ p s', places s !! p = Some (Ended true) → rtc step s s' → ∀ q, places s' !! q ≠ Some Inside).
Proof.
  assert (Hkeep : ∀ s s', lock_inv s → rtc step s s' → lock_inv s').
  { intros s1 s2 Hi Hr. induction Hr as [|? ? ? [a Ha] _ IH]; [done|]. apply IH. by eapply act_inv. }
  intros Hr. assert (Hi : lock_inv s).
  { eapply Hkeep; [|exact Hr]. left. split; [done|]. intros p [H|H];
      apply lookup_gset_to_gmap_Some in H as [_ H]; done. }
  assert (Huniq : ∀ s, lock_inv s → ∀ p q, holds s p → holds s q → p = q).
  { intros s1 [[_ Hno]|[_ (h & _ & Hu)]] p q Hp Hq; [by destruct (Hno p)|]. by rewrite (Hu p), (Hu q). }
  split; [by apply Huniq|]. split; [|split; [|split]].
  - destruct Hi as [[-> Hno]|[-> (h & Hh & _)]]; naive_solver.
  - intros p Hp Hw. cbn. rewrite Hp, Hw. eexists. split; [reflexivity|]. cbn. by rewrite lookup_insert_eq.
  - intros p Hp. assert (spinlock s = 1) as Hw.
    { destruct Hi as [[_ Hno]|[Hw _]]; [|done]. destruct (Hno p). by left. }
    cbn. rewrite Hp, Hw. split; reflexivity.
  - intros p s' Hp Hr' q Hq. assert (Hp' : places s' !! p = Some (Ended true)).
    { clear Hi Hr Hq. induction Hr' as [|? ? ? [a Ha] _ IH]; [done|]. apply IH. by eapply act_dead. }
    assert (p = q) as ->; [|congruence]. apply (Huniq s'); [by eapply Hkeep|by right|by left].
Qed.

(** Two processes: the second spins while the first is killed with the lock. *)
Definition demo_run : option state :=
  foldl (λ o a, s ← o; act s a) (Some (opened {[10; 11]}))
    [Call 10; Call 11; Run 10 true; Run 10 false; Run 11 false; Kill 10].

Lemma foldl_steps s acts s' : foldl (λ o a, s ← o; act s a) (Some s) acts = Some s' → rtc step s s'.
Proof.
  revert s. induction acts as [|a acts IH]; intros s; cbn; [by intros [= ->]|].
  destruct (act s a) as [s1|] eqn:Ha.
  - intros Hf. eapply rtc_l; [by exists a|]. by apply IH.
  - intros Hf. exfalso. clear IH Ha. induction acts; [done|auto].
Qed.

Lemma process_lock_excludes_witness :
  ∃ s, demo_run = Some s ∧ places s !! 11 = Some Spinning ∧
    ∀ s', rtc step s s' → ∀ q, places s' !! q ≠ Some Inside.
Proof.
  eexists. split; [vm_compute; reflexivity|]. split; [reflexivity|]. intros s' Hs'.
  assert (Hr : rtc step (opened {[10; 11]}) (mkState 1 {[10 := Ended true; 11 := Spinning]}))
    by (eapply (foldl_steps _ [Call 10; Call 11; Run 10 true; Run 10 false; Run 11 false; Kill 10]);
        vm_compute; reflexivity).
  destruct (process_lock_excludes _ _ Hr) as (_ & _ & _ & _ & Hdead).
  apply (Hdead 10); [reflexivity|exact Hs'].
Defined.
End ProcessLock.
