(* ===== verification/QuotaProcesses.v ===== *)
(** * Processes that share a quota

    The quota shared between processes composed with the quota loop of each process: a
    process that creates its quota registers in the segment, signals the others and
    computes its share; a process that gets the signal reduces its policies to its new
    share.  [InterProc] has the segment, [QuotaSpec] the loop. *)

From stdpp Require Import relations.
From S2P Require Import Prelude ListElement Policy PolicyInterface OS Driver Mapping MappingInv MappingSpec System SystemInv QuotaSpec InterProc.

(** ** Operations *)

Section Operations.
Context {D P : Type} `{DriverOps D} `{PolicyOps P}.

(** A process: its objects, and the quota [gblPolicyQuotaInterProc] points to. *)
Record Process := mkProcess { pr_world : World D P; pr_quota : option Z }.

Definition sizeof_shared : Z := 4 * 4 + 4 * SHARED_TAB_ENTRIES.

(** The constructor, of the object at [qid] in the process [pid]; the first component is
    the processes that get the signal. *)
Definition newPolicyQuotaInterProc (fuel : nat) (alive : Z → bool) (c : ShmCalls) (pid qid maxMemory : Z)
    (s : Shared) (p : Process) : result (list Z * Shared * Process) :=
  assume (bool_decide (pr_quota p = None))
    "Current basic implementation does not allow to instantiate mulitple inter-proc policy quota !";;
  _ ← openShm c sizeof_shared;
  s1 ← registerProcess alive s pid;
  '(signalled, s2) ← signalAll alive s1 pid;
  w ← update_share fuel (set_quota (pr_world p) qid (mkQuota maxMemory [])) qid s2 maxMemory;
  Ok (signalled, s2, mkProcess w (Some qid)).

(** [sigHandler] in a process. *)
Definition onSignal (fuel : nat) (s : Shared) (maxMemory : Z) (p : Process) : result Process :=
  match pr_quota p with
  | None => Ok p
  | Some qid => w ← update_share fuel (pr_world p) qid s maxMemory; Ok (mkProcess w (Some qid))
  end.

(** The destructor, with the one of [PolicyQuota] that follows. *)
Definition deletePolicyQuotaInterProc (pid qid : Z) (s : Shared) (p : Process) : result (Shared * Process) :=
  s' ← unregisterProcess s pid;
  w ← destroyQuota (pr_world p) qid;
  Ok (s', mkProcess w None).

(** *** The C interface *)

Definition ummap_quota_create_inter_proc := newPolicyQuotaInterProc.

(** The class of the object behind a handle of the C interface. *)
Inductive quota_class := LocalQuota | InterProcQuota.

(** Any handle is deleted as a [PolicyQuotaInterProc]: of an object of another class
    that is undefined. *)
Definition ummap_quota_destroy (class : quota_class) (pid quota : Z) (s : Shared) (p : Process)
    : result (Shared * Process) :=
  if quota =? 0 then Ok (s, p)
  else match class with
       | InterProcQuota => deletePolicyQuotaInterProc pid quota s p
       | LocalQuota => Err BadAccess
       end.

(** A policy deleted as a [Driver], which it is not. *)
Definition ummap_policy_destroy (policy : Z) (w : World D P) : result (World D P) :=
  cassert (negb (policy =? 0)) "policy != NULL";;
  Err BadAccess.
End Operations.
Arguments Process : clear implicits.

(** ** One process *)

Section OneProcess.
Context {D P : Type} `{StorageDriver D} `{TrackingPolicy P}.
Abbreviation W := (World D P).
Context (fuel : nat) (maxMemory : Z) (Hmax : 0 ≤ maxMemory < SIZE_MOD) (Hfuel : (Z.to_nat maxMemory < fuel)%nat).

(** The quota of a process, the policies within its maximum. *)
Record process_ok (p : Process D P) (qid : Z) (q : PolicyQuota) : Prop := {
  pk_quota : pr_quota p = Some qid;
  pk_object : w_quotas (pr_world p) !! qid = Some q;
  pk_world : world_inv [] (pr_world p);
  pk_ready : quota_ready fuel (pr_world p) q;
  pk_max : 0 ≤ q_staticMaxMemory q ≤ maxMemory;
  pk_within : total (pr_world p) (q_policies q) ≤ q_staticMaxMemory q;
}.

Lemma set_quota_inv pend (w : W) qid q : world_inv pend w → world_inv pend (set_quota w qid q).
Proof. intros []. by split. Qed.

Lemma update_share_ok (w : W) qid q s share :
  world_inv [] w → w_quotas w !! qid = Some q → quota_ready fuel w q →
  total w (q_policies q) ≤ maxMemory → perProcQuota s maxMemory = Ok share → 0 ≤ share ≤ maxMemory →
  update_share fuel w qid s maxMemory = Err tooMany ∨
  ∃ w', update_share fuel w qid s maxMemory = Ok w' ∧
    process_ok (mkProcess w' (Some qid)) qid (mkQuota share (q_policies q)) ∧
    ∀ mid x, world_view w' mid x = world_view w mid x.
Proof.
  intros Hw Hq Hready Htot Hs Hshare. unfold update_share. rewrite Hs. cbn [mbind result_bind]. rewrite Hq.
  cbn [deref mbind result_bind]. set (q' := mkQuota share (q_policies q)).
  destruct (update_ok 0 fuel (set_quota w qid q') qid q') as [[? _]|(w' & Hrun & Hw' & Hv & Hr & Hqs & Hle)].
  - by apply set_quota_inv.
  - cbn. by rewrite lookup_insert_eq.
  - exact Hready.
  - intros pid p st Hin Hp Hst. change (segment_size_of (set_quota w qid q')) with (segment_size_of w).
    destruct (wo_policy _ _ Hw pid p Hp) as (_ & _ & l & Hl & _).
    pose proof (wfs_segment _ _ (wfr_storage _ _ (pol_wf _ _ _ _ Hl) st Hst)). lia.
  - done.
  - change (total (set_quota w qid q') (q_policies q')) with (total w (q_policies q)). lia.
  - cbn. lia.
  - change (total (set_quota w qid q') (q_policies q')) with (total w (q_policies q)). lia.
  - by left.
  - right. exists w'. split; [done|]. split; [|done]. split; cbn; [done| |done|done|lia|done].
    rewrite Hqs. cbn. by rewrite lookup_insert_eq.
Qed.

(** The signal, in a process within its share. *)
Lemma onSignal_ok p qid q s share :
  process_ok p qid q → perProcQuota s maxMemory = Ok share → 0 ≤ share ≤ maxMemory →
  onSignal fuel s maxMemory p = Err tooMany ∨
  ∃ p', onSignal fuel s maxMemory p = Ok p' ∧ process_ok p' qid (mkQuota share (q_policies q)) ∧
    ∀ mid x, world_view (pr_world p') mid x = world_view (pr_world p) mid x.
Proof.
  intros [Hqu Hob Hw Hr Hm Hin] Hs Hshare. unfold onSignal. rewrite Hqu.
  destruct (update_share_ok (pr_world p) qid q s share Hw Hob Hr ltac:(lia) Hs Hshare)
    as [->|(w' & -> & Hok & Hv)]; [by left|right]. by eexists.
Qed.

Lemma process_quota p qid q qid' q' : process_ok p qid q → process_ok p qid' q' → q = q'.
Proof. intros [H1' H2' _ _ _ _] [H3' H4' _ _ _ _]. congruence. Qed.

(** The memory of the policies of a process under its quota. *)
Definition quota_memory (p : Process D P) : Z :=
  match pr_quota p with
  | Some qid => match w_quotas (pr_world p) !! qid with
                | Some q => total (pr_world p) (q_policies q)
                | None => 0 end
  | None => 0
  end.

Lemma quota_memory_ok p qid q : process_ok p qid q → quota_memory p = total (pr_world p) (q_policies q).
Proof. intros []. unfold quota_memory. by rewrite pk_quota0, pk_object0. Qed.
End OneProcess.

(** ** The machine *)

Section Machine.
Context {D P : Type} `{StorageDriver D} `{TrackingPolicy P}.
Context (fuel : nat) (maxMemory : Z) (Hmax : 0 ≤ maxMemory < SIZE_MOD) (Hfuel : (Z.to_nat maxMemory < fuel)%nat).
Abbreviation process_ok := (process_ok fuel maxMemory).

(** The live processes with a quota, the segment, and the signals not yet handled. *)
Record Machine := mkMachine {
  m_live : list Z;
  m_process : gmap Z (Process D P);
  m_shared : Shared;
  m_signals : list Z;
}.

Definition without_process (m : Machine) (pid : Z) (s : Shared) : Machine :=
  mkMachine (filter (λ p, p ≠ pid) (m_live m)) (delete pid (m_process m)) s
    (filter (λ p, p ≠ pid) (m_signals m)).

(** A process creates its quota; it runs on its own, within its quota; it handles the
    signal; it deletes its quota; it crashes. *)
Inductive machine_step : Machine → Machine → Prop :=
  | ms_create m alive c pid qid p signalled s' p' :
      pid ≠ 0 → pid ∉ m_live m → (∀ x, x ∈ pid :: m_live m → alive x = true) →
      world_inv [] (pr_world p) →
      newPolicyQuotaInterProc fuel alive c pid qid maxMemory (m_shared m) p = Ok (signalled, s', p') →
      machine_step m (mkMachine (pid :: m_live m) (<[pid := p']> (m_process m)) s' (signalled ++ m_signals m))
  | ms_work m pid p qid q p' q' :
      m_process m !! pid = Some p → process_ok p qid q → process_ok p' qid q' →
      q_staticMaxMemory q' = q_staticMaxMemory q →
      machine_step m (mkMachine (m_live m) (<[pid := p']> (m_process m)) (m_shared m) (m_signals m))
  | ms_signal m pid p p' :
      pid ∈ m_signals m → m_process m !! pid = Some p →
      onSignal fuel (m_shared m) maxMemory p = Ok p' →
      machine_step m (mkMachine (m_live m) (<[pid := p']> (m_process m)) (m_shared m)
        (filter (λ x, x ≠ pid) (m_signals m)))
  | ms_delete m pid qid p s' p' :
      m_process m !! pid = Some p → deletePolicyQuotaInterProc pid qid (m_shared m) p = Ok (s', p') →
      machine_step m (without_process m pid s')
  | ms_crash m pid : machine_step m (without_process m pid (m_shared m)).

Definition new_machine : Machine := mkMachine [] ∅ newShared [].

(** A share that fits beside those of all the live processes. *)
Definition fits (m : Machine) (share : Z) : Prop := Z.of_nat (length (m_live m)) * share ≤ maxMemory.

Record machine_ok (m : Machine) : Prop := {
  mk_shared : machine_inv (m_live m, m_shared m);
  mk_live pid : is_Some (m_process m !! pid) ↔ pid ∈ m_live m;
  mk_process pid p : m_process m !! pid = Some p → ∃ qid q, process_ok p qid q ∧
    (pid ∈ m_signals m ∨ fits m (q_staticMaxMemory q));
}.

Lemma share_bound R s :
  machine_inv (R, s) → R ≠ [] →
  ∃ share, perProcQuota s maxMemory = Ok share ∧ 0 ≤ share ≤ maxMemory ∧
    Z.of_nat (length R) * share ≤ maxMemory.
Proof.
  intros Hm HR. destruct (share_fits R s maxMemory Hm ltac:(lia) HR) as (share & Hs & Hpos & Hle).
  exists share. split; [done|]. split; [|done]. split; [done|]. destruct R; [done|]. cbn [length] in Hle. nia.
Qed.

(** Creation: what the constructor does to the segment is a [Join]. *)
Lemma create_inv alive c pid qid (s : Shared) (p : Process D P) signalled s' p' :
  newPolicyQuotaInterProc fuel alive c pid qid maxMemory s p = Ok (signalled, s', p') → shared_inv s →
  run_ipc s (Join alive pid) = Ok s' ∧
  (∀ x, x ∈ pids s' → x ≠ 0 → x ≠ pid → x ∈ signalled) ∧
  ∃ w, update_share fuel (set_quota (pr_world p) qid (mkQuota maxMemory [])) qid s' maxMemory = Ok w ∧
    p' = mkProcess w (Some qid).
Proof.
  intros Hrun Hi. unfold newPolicyQuotaInterProc in Hrun. destruct (assume _ _); [|done].
  cbn [mbind result_bind] in Hrun. destruct (openShm _ _); [|done]. cbn [mbind result_bind] in Hrun.
  cbn [run_ipc]. destruct (registerProcess alive s pid) as [s1|] eqn:Hreg; [|done].
  cbn [mbind result_bind] in Hrun |- *.
  assert (Hfree : spinlock s1 = 0).
  { rewrite registerProcess_run in Hreg by apply Hi. destruct (bool_decide _ && _); [done|].
    by injection Hreg as <-. }
  destruct (signalAll_ok alive s1 pid Hfree) as (l & Hsig & _). rewrite Hsig in Hrun |- *.
  cbn [mbind result_bind] in Hrun |- *. destruct (update_share _ _ _ _ _) as [w|] eqn:Hup; [|done].
  cbn in Hrun. injection Hrun as <- <- <-. split; [done|]. split; [|by exists w]. cbn.
  intros x Hx H0' Hne. by apply list_elem_of_filter.
Qed.

Lemma fewer_live (R : list Z) pid share :
  0 ≤ share → Z.of_nat (length R) * share ≤ maxMemory →
  Z.of_nat (length (filter (λ p, p ≠ pid) R)) * share ≤ maxMemory.
Proof. intros Hs Hle. pose proof (length_filter (λ p, p ≠ pid) R). nia. Qed.

(** The other processes are as they were. *)
Lemma without_ok m pid s' :
  machine_ok m → machine_inv (filter (λ p, p ≠ pid) (m_live m), s') → machine_ok (without_process m pid s').
Proof.
  intros [Hm Hl Hp] Hm'. split; cbn; [done| |].
  - intros x. rewrite list_elem_of_filter, <- Hl. destruct (decide (x = pid)) as [->|Hne].
    + rewrite lookup_delete_eq. split; [by intros []|tauto].
    + rewrite lookup_delete_ne by done. tauto.
  - intros x p [Hne Hx]%lookup_delete_Some. destruct (Hp x p Hx) as (qid & q & Hok & Hor).
    exists qid, q. split; [done|]. destruct Hor as [Hin|Hfit]; [left|right].
    + apply list_elem_of_filter. split; [congruence|done].
    + apply fewer_live; [apply (pk_max _ _ _ _ _ Hok)|exact Hfit].
Qed.

Lemma machine_step_ok m m' : machine_step m m' → machine_ok m → machine_ok m'.
Proof.
  intros Hstep Hok. destruct Hstep as [m alive c pid qid p sig s' p' Hpid Hnew Hal Hw Hrun
    |m pid p qid q p' q' Hp Hpk Hpk' Hq|m pid p p' Hin Hp Hrun|m pid qid p s' p' Hp Hrun|m pid].
  - destruct Hok as [Hm Hl Hproc]. destruct (create_inv _ _ _ _ _ _ _ _ _ Hrun (mc_shared _ Hm)) as (Hjoin & Hsig & w & Hup & ->).
    assert (Hm' : machine_inv (pid :: m_live m, s')) by (eapply machine_inv_step; [by eapply step_join|exact Hm]).
    destruct (share_bound _ _ Hm') as (share & Hs & Hsh & Hle); [done|].
    destruct (update_share_ok fuel maxMemory Hmax Hfuel (set_quota (pr_world p) qid (mkQuota maxMemory [])) qid
      (mkQuota maxMemory []) s' share) as [?|(w1 & Hup' & Hpk & _)]; [by apply set_quota_inv| | |cbn; lia|done|done|congruence|].
    { cbn. by rewrite lookup_insert_eq. }
    { by intros x ?%elem_of_nil. }
    assert (w1 = w) as -> by congruence. split; cbn; [done| |].
    + intros x. rewrite elem_of_cons, <- Hl. destruct (decide (x = pid)) as [->|Hne].
      * rewrite lookup_insert_eq. naive_solver.
      * rewrite lookup_insert_ne by done. naive_solver.
    + intros x p1. rewrite lookup_insert_Some. intros [[<- <-]|[Hne Hx]].
      * eexists _, _. split; [exact Hpk|]. right. exact Hle.
      * destruct (Hproc x p1 Hx) as (qid1 & q1 & Hok1 & _). exists qid1, q1. split; [done|left].
        apply elem_of_app. left. assert (Hlx : x ∈ m_live m) by (apply Hl; eauto).
        destruct (mc_slots _ Hm' x) as [H0' Hsl]; [cbn; by right|]. by apply Hsig.
  - destruct Hok as [Hm Hl Hproc]. split; cbn; [done| |].
    + intros x. rewrite <- Hl. destruct (decide (x = pid)) as [->|Hne];
        [rewrite lookup_insert_eq|by rewrite lookup_insert_ne]. naive_solver.
    + intros x p1. rewrite lookup_insert_Some. intros [[<- <-]|[Hne Hx]]; [|exact (Hproc x p1 Hx)].
      exists qid, q'. split; [done|]. destruct (Hproc pid p Hp) as (qid1 & q1 & Hok1 & Hor).
      rewrite (process_quota _ _ _ _ _ _ _ Hok1 Hpk) in Hor. by rewrite Hq.
  - destruct Hok as [Hm Hl Hproc]. destruct (Hproc pid p Hp) as (qid & q & Hpk & _).
    assert (Hlive : pid ∈ m_live m) by (apply Hl; eauto).
    destruct (share_bound _ _ Hm) as (share & Hs & Hsh & Hle); [by destruct (m_live m); [apply elem_of_nil in Hlive|]|].
    destruct (onSignal_ok fuel maxMemory Hmax Hfuel p qid q _ share Hpk Hs Hsh) as [?|(p1 & Hrun' & Hpk' & _)]; [congruence|].
    assert (p1 = p') as -> by congruence. split; cbn; [done| |].
    + intros x. rewrite <- Hl. destruct (decide (x = pid)) as [->|Hne];
        [rewrite lookup_insert_eq|by rewrite lookup_insert_ne]. naive_solver.
    + intros x p1. rewrite lookup_insert_Some. intros [[<- <-]|[Hne Hx]].
      * eexists _, _. split; [exact Hpk'|]. right. exact Hle.
      * destruct (Hproc x p1 Hx) as (qid1 & q1 & Hok1 & Hor). exists qid1, q1. split; [done|].
        destruct Hor as [?|?]; [left|by right]. by apply list_elem_of_filter.
  - unfold deletePolicyQuotaInterProc in Hrun. inv_bind Hrun.
    assert (Hlive : pid ∈ m_live m) by (apply (mk_live _ Hok); eauto).
    apply without_ok; [done|]. eapply machine_inv_step; [|exact (mk_shared _ Hok)].
    eapply step_leave; [done|]. cbn [run_ipc]. repeat (inv_bind Hrun). inv_ok. done.
  - apply without_ok; [done|]. eapply machine_inv_step; [apply step_crash|exact (mk_shared _ Hok)].
Qed.

Lemma machine_reachable m : rtc machine_step new_machine m → machine_ok m.
Proof.
  assert (Hgen : ∀ m m', rtc machine_step m m' → machine_ok m → machine_ok m').
  { intros m1 m2 Hr. induction Hr as [|? ? ? Hs _ IH]; [done|]. intros Hok. by eapply IH, machine_step_ok. }
  intros Hr. apply (Hgen _ _ Hr). split; cbn.
  - apply machine_inv_reachable. constructor.
  - intros pid. rewrite lookup_empty. split; [by intros []|by intros ?%elem_of_nil].
  - intros pid p. by rewrite lookup_empty.
Qed.

(** C15: processes share their memory.  Processes of a machine create the quota, work within
    it, handle its signals between two of their operations, delete it and crash, in any
    order.  The handling of a signal
    either stops because a policy would have to evict 128 segments or more at once, or
    succeeds without any change to what the process reads; and whenever the live processes
    have handled their signals, the policies of all of them together use no more memory than
    the total of the quota. *)
Theorem processes_share_memory m :
  rtc machine_step new_machine m →
  (∀ pid p, m_process m !! pid = Some p →
     onSignal fuel (m_shared m) maxMemory p = Err tooMany ∨
     ∃ p', onSignal fuel (m_shared m) maxMemory p = Ok p' ∧
       ∀ mid x, world_view (pr_world p') mid x = world_view (pr_world p) mid x) ∧
  ((∀ pid, pid ∈ m_live m → pid ∉ m_signals m) →
     sumZ (λ pid, from_option quota_memory 0 (m_process m !! pid)) (m_live m) ≤ maxMemory).
Proof.
  intros Hr. destruct (machine_reachable m Hr) as [Hm Hl Hproc]. split.
  - intros pid p Hp. destruct (Hproc pid p Hp) as (qid & q & Hok & _).
    destruct (share_bound _ _ Hm) as (share & Hs & Hsh & _).
    { assert (Hin : pid ∈ m_live m) by (apply Hl; eauto). by destruct (m_live m); [apply elem_of_nil in Hin|]. }
    destruct (onSignal_ok fuel maxMemory Hmax Hfuel p qid q _ share Hok Hs Hsh)
      as [?|(p' & Hrun & _ & Hv)]; [by left|right]. by exists p'.
  - intros Hnone. set (n := Z.of_nat (length (m_live m))).
    assert (Hone : ∀ pid, pid ∈ m_live m →
      n * from_option quota_memory 0 (m_process m !! pid) ≤ maxMemory).
    { intros pid Hin. destruct (proj2 (Hl pid) Hin) as [p Hp]. rewrite Hp. cbn.
      destruct (Hproc pid p Hp) as (qid & q & Hok & Hor). destruct Hor as [Hin'|Hfit]; [by destruct (Hnone pid)|].
      rewrite (quota_memory_ok _ _ _ _ _ Hok). pose proof (pk_within _ _ _ _ _ Hok). unfold fits in Hfit. nia. }
    destruct (decide (n = 0)) as [E|E].
    { subst n. destruct (m_live m); [cbn; lia|done]. }
    assert (Hsum : ∀ l, (∀ pid, pid ∈ l → pid ∈ m_live m) →
      n * sumZ (λ pid, from_option quota_memory 0 (m_process m !! pid)) l ≤ Z.of_nat (length l) * maxMemory).
    { induction l as [|pid l IH]; intros Hin; cbn [sumZ length]; [lia|].
      pose proof (Hone pid (Hin pid ltac:(left))). specialize (IH ltac:(intros; apply Hin; by right)). lia. }
    specialize (Hsum (m_live m) ltac:(done)). fold n in Hsum. nia.
Qed.
End Machine.

(** ** Two processes *)

Section Demo.
Definition demo_shm : ShmCalls := mkShmCalls 3 0 0 0 (Some 4096) 0.
Definition demo_process (w : World MemoryDriver FifoPolicy.FifoPolicy) : Process MemoryDriver FifoPolicy.FifoPolicy :=
  mkProcess w None.
(** The process 10 with its policy under the quota. *)
Definition demo_share (share : Z) : Process MemoryDriver FifoPolicy.FifoPolicy :=
  mkProcess (set_quota demo_world 200 (mkQuota share [100])) (Some 200).
Lemma demo_share_ok share : 0 ≤ share ≤ 8192 →
  process_ok (Z.to_nat 8193) 8192 (demo_share share) 200 (mkQuota share [100]).
Proof.
  intros Hs. split; [reflexivity|apply lookup_insert_eq|apply set_quota_inv, demo_world_inv| |exact Hs|].
  - intros pid ->%list_elem_of_singleton. exists (snd demo_fifo). split; [reflexivity|].
    apply Nat2Z.inj_lt. rewrite Z2Nat.id by lia. vm_compute. reflexivity.
  - change (total _ _) with 0. cbn. lia.
Qed.
End Demo.

Lemma processes_share_memory_witness :
  ∃ m, rtc (machine_step (Z.to_nat 8193) 8192) new_machine m ∧ m_live m = [20; 10] ∧
    m_process m !! 10 = Some (demo_share 4096) ∧
    sumZ (λ pid, from_option quota_memory 0 (m_process m !! pid)) [20; 10] ≤ 8192.
Proof.
  assert (Hr : ∃ m, rtc (machine_step (Z.to_nat 8193) 8192) new_machine m ∧ m_live m = [20; 10] ∧
    m_signals m = [] ∧ m_process m !! 10 = Some (demo_share 4096)).
  { eexists. split.
    - eapply rtc_l.
      { apply (ms_create _ _ _ (λ _, true) demo_shm 10 200 (demo_process demo_world) []
          (mkShared 0 1 [10]) (mkProcess (set_quota demo_world 200 (mkQuota 8192 [])) (Some 200)));
          [done|by apply not_elem_of_nil|done|exact demo_world_inv|reflexivity]. }
      eapply rtc_l.
      { apply (ms_work _ _ _ 10 (mkProcess (set_quota demo_world 200 (mkQuota 8192 [])) (Some 200)) 200
          (mkQuota 8192 []) (demo_share 8192) (mkQuota 8192 [100])); [reflexivity| |by apply demo_share_ok|done].
        split; [reflexivity|reflexivity|apply set_quota_inv, demo_world_inv|by intros ? ?%elem_of_nil|done|done]. }
      eapply rtc_l.
      { apply (ms_create _ _ _ (λ _, true) demo_shm 20 200 (demo_process demo_world) [10]
          (mkShared 0 2 [10; 20]) (mkProcess (set_quota demo_world 200 (mkQuota 4096 [])) (Some 200)));
          [done|by intros ?%list_elem_of_singleton|done|exact demo_world_inv|reflexivity]. }
      apply rtc_once. apply (ms_signal _ _ _ 10 (demo_share 8192) (demo_share 4096)); [left|reflexivity|].
      reflexivity.
    - split; [reflexivity|]. split; [reflexivity|]. reflexivity. }
  destruct Hr as (m & Hr & Hlive & Hsig & Hp). exists m. split; [exact Hr|]. split; [exact Hlive|].
  split; [exact Hp|].
  assert (Hmax : 0 ≤ 8192 < SIZE_MOD) by done.
  assert (Hfuel : (Z.to_nat 8192 < Z.to_nat 8193)%nat) by lia.
  destruct (processes_share_memory (Z.to_nat 8193) 8192 Hmax Hfuel m Hr) as [_ Hsum].
  rewrite Hlive in Hsum. apply Hsum. intros pid _. rewrite Hsig. apply not_elem_of_nil.
Defined.
