(* ===== verification/UriHandler.v ===== *)
(** * Building drivers and policies from text (src/src/uri/UriHandler.cpp)

    The table of variables and their substitution, and the construction of policies and
    drivers from a resource identifier.  The table is a list sorted by name: its order is
    the order of substitution.  Drivers on files, on objects of a Mero store or of an IOC
    server are described by the arguments of their constructor; opening the file is the
    part that is left out. *)

From Stdlib Require Import Ascii.
From S2P Require Import Prelude ListElement Policy PolicyInterface OS Driver Regex HumanUnits Uri.
From S2P Require FifoPolicy LifoPolicy FifoWindowPolicy.

(** ** Variables *)

(** [std::less<std::string>]. *)
Fixpoint chars_ltb (a b : chars) : bool :=
  match a, b with
  | _, [] => false
  | [], _ :: _ => true
  | x :: a', y :: b' => (code x <? code y) || (code x =? code y) && chars_ltb a' b'
  end.

Abbreviation Variables := (list (chars * chars)).

(** [variables[name] = value]. *)
Fixpoint registerVariable (vars : Variables) (name value : chars) : Variables :=
  match vars with
  | [] => [(name, value)]
  | (n, v) :: vars' =>
      if bool_decide (n = name) then (n, value) :: vars'
      else if chars_ltb name n then (name, value) :: vars
      else (n, v) :: registerVariable vars' name value
  end.

(** [%d] and [%zu]. *)
Definition show_int (n : Z) : chars := if n <? 0 then "-"%char :: show (- n) else show n.
Definition registerVariable_int (vars : Variables) (name : chars) (value : Z) : Variables :=
  registerVariable vars name (show_int value).
Definition registerVariable_size (vars : Variables) (name : chars) (value : Z) : Variables :=
  registerVariable vars name (show value).

(** ** Substitution *)

Definition starts_with (var s : chars) : bool := bool_decide (take (length var) s = var).

(** [s.find(var, 0)]. *)
Fixpoint find (var s : chars) : option nat :=
  if starts_with var s then Some 0%nat
  else match s with [] => None | _ :: s' => S <$> find var s' end.

(** [value.find(var, pos)]. *)
Definition find_at (value var : chars) (pos : nat) : option nat :=
  (λ i, (pos + i)%nat) <$> find var (drop pos value).

(** [value.replace(index, n, val)]. *)
Definition replace (value : chars) (index n : nat) (val : chars) : chars :=
  take index value ++ val ++ drop (index + n) value.

(** The inner loop of [replaceVariables], from the result of a [find]. *)
Fixpoint replaceLoop (fuel : nat) (var val value : chars) (index : option nat) : result chars :=
  match fuel, index with
  | O, _ => Err OutOfFuel
  | S fuel', Some i =>
      if bool_decide (var = []) then Ok value
      else
        let value := replace value i (length var) val in
        replaceLoop fuel' var val value (find_at value var (i + length val))
  | S _, None => Ok value
  end.

(** The text of a reference to a variable. *)
Definition reference (name : chars) : chars := "{"%char :: name ++ ["}"%char].

Definition replaceVariable (value : chars) (nv : chars * chars) : result chars :=
  replaceLoop (S (length value)) (reference (fst nv)) (snd nv) value
    (find_at value (reference (fst nv)) 0).

Definition replaceVariables (vars : Variables) (value : chars) : result chars :=
  foldM replaceVariable value vars.

(** ** Policies *)

Definition to_string (s : chars) : string := Strings.String.string_of_list_ascii s.

Definition any_setUri (p : AnyPolicy) (u : chars) : AnyPolicy :=
  pol_set_base p (setUri (pol_base p) (to_string u)).

Definition notPageMultiple : error :=
  Fatal "The given size is not multiple of the page size: %1 in %2".

Definition checkPageMultiple (size : Z) : result unit :=
  if size mod 4096 =? 0 then Ok tt else Err notPageMultiple.

Definition built {P} (c : P → AnyPolicy) (hp : heap * P) : result (heap * option AnyPolicy) :=
  Ok (fst hp, Some (c (snd hp))).

(** The choice of the class and its construction.  [this] and [roots] are the addresses
    of the new object and of its list heads; [None] is the [NULL] of the policy none. *)
Definition constructPolicy (regex : bool) (h : heap) (this : Z) (roots : Z * Z) (parser : Uri)
    (local : bool) : result (heap * option AnyPolicy) :=
  if bool_decide (getType parser = str "fifo") then
    memsize ← fromHumanMemSize regex (getPath parser);
    checkPageMultiple memsize;;
    built PFifo (FifoPolicy.newFifoPolicy h this (fst roots) memsize local)
  else if bool_decide (getType parser = str "lifo") then
    memsize ← fromHumanMemSize regex (getPath parser);
    checkPageMultiple memsize;;
    built PLifo (LifoPolicy.newLifoPolicy h this (fst roots) memsize local)
  else if bool_decide (getType parser = str "fifo-window") then
    memSize ← fromHumanMemSize regex (getPath parser);
    window ← getParam parser (str "window");
    slidingSize ← fromHumanMemSize regex window;
    checkPageMultiple memSize;;
    checkPageMultiple slidingSize;;
    built PWindow (FifoWindowPolicy.newFifoWindowPolicy h this (fst roots) (snd roots)
                     memSize slidingSize local)
  else if bool_decide (getType parser = str "none") then Ok (h, None)
  else Err (Fatal "Invalid ressource type to build policy : %1").

Definition buildPolicy (regex : bool) (vars : Variables) (h : heap) (this : Z) (roots : Z * Z)
    (text : chars) (local : bool) : result (heap * option AnyPolicy) :=
  cassert (negb (bool_decide (text = []))) "uri.empty() == false";;
  realUri ← replaceVariables vars text;
  parser ← newUri regex realUri;
  '(h', policy) ← constructPolicy regex h this roots parser local;
  Ok (h', match policy with Some p => Some (any_setUri p realUri) | None => None end).

(** ** Drivers *)

Record ObjectId := mkObjectId { high : Z; low : Z }.

(** [sscanf(path, "%ld:%ld", ...) == 2]. *)
Definition scan_object_id (s : chars) : option ObjectId :=
  match scan_long s with
  | Some (h, c :: rest) =>
      if bool_decide (c = ":"%char) then
        match scan_long rest with Some (l, _) => Some (mkObjectId h l) | None => None end
      else None
  | _ => None
  end.

(** What [buildDriver] constructs: the class and its arguments. *)
Inductive DriverSpec : Type :=
  | NewFDDriver (fname mode : chars)
  | NewMmapDriver (fname mode : chars)
  | NewMmapAnon (allowNotAligned : bool)
  | NewMemory (d : MemoryDriver)
  | NewDummy (d : DummyDriver)
  | NewClovis (id : ObjectId)
  | NewIoc (id : ObjectId).

Section Build.
(** Support for regular expressions, for Mero and for IOC; the listing look-up. *)
Context (regex hasMero hasIoc : bool) (listing : chars → chars → result ObjectId).

Definition in_types (type : chars) (l : list string) : bool := bool_decide (type ∈ str <$> l).

Definition iocTypes : list string := ["meroioc"; "clovisioc"; "ioc"; "iocfile"].
Definition meroTypes : list string := ["mero"; "clovis"; "merofile"; "motr"].

Definition getIocObjectId (u : Uri) : result ObjectId :=
  if bool_decide (getPath u = str "auto") then
    l ← getParam u (str "listing");
    name ← getParam u (str "name");
    listing l name
  else
    match scan_object_id (getPath u) with
    | Some id => Ok id
    | None => Err (Fatal "Invalid object ID in mero URI : %1")
    end.

(** [%lx:%lx], the file of the fake mode; the hexadecimal text is an argument. *)
Definition buildDriverObject (fake : string) (has : bool) (make : ObjectId → DriverSpec)
    (fname : ObjectId → chars) (u : Uri) : result DriverSpec :=
  id ← getIocObjectId u;
  if has then Ok (make id)
  else if bool_decide (getType u = str fake) then Ok (NewFDDriver (fname id) [])
  else Err (Fatal "Mero is not available, cannot use uri : %1").

Definition constructDriver (fname : ObjectId → chars) (parser : Uri) : result DriverSpec :=
  let type := getType parser in
  if in_types type ["file"] then
    Ok (NewFDDriver (getPath parser) (getParam_default parser (str "mode") []))
  else if in_types type ["mem"] then
    memsize ← fromHumanMemSize regex (getPath parser);
    d ← newMemoryDriver memsize 0;
    Ok (NewMemory d)
  else if in_types type ["dummy"] then
    Ok (NewDummy (newDummyDriver (atol (getPath parser) mod 256)))
  else if in_types type meroTypes then
    buildDriverObject "merofile" hasMero NewClovis fname parser
  else if in_types type iocTypes then
    buildDriverObject "iocfile" hasIoc NewIoc fname parser
  else if in_types type ["mmap"; "dax"] then
    Ok (NewMmapDriver (getPath parser) (getParam_default parser (str "mode") []))
  else if in_types type ["mmapanon"] then Ok (NewMmapAnon true)
  else Err (Fatal "Invalid ressource type to build driver : %1").

Definition buildDriver (fname : ObjectId → chars) (vars : Variables) (text : chars)
    : result (DriverSpec * chars) :=
  cassert (negb (bool_decide (text = []))) "uri.empty() == false";;
  realUri ← replaceVariables vars text;
  parser ← newUri regex realUri;
  d ← constructDriver fname parser;
  Ok (d, realUri).
(** What [applyCow] and [applySwitch] call for a mapping, [None] when there is nothing
    to do. *)
Inductive RetargetCall : Type :=
  | RetargetIoc (id : ObjectId)
  | RetargetClovis (id : ObjectId)
  | RetargetFopen (fname mode : chars)
  | RetargetDax (fname mode : chars).

Definition retarget (invalid : string) (vars : Variables) (text : chars) : result (option RetargetCall) :=
  cassert (negb (bool_decide (text = []))) "uri.empty() == false";;
  realUri ← replaceVariables vars text;
  parser ← newUri regex realUri;
  let type := getType parser in
  if in_types type iocTypes then id ← getIocObjectId parser; Ok (Some (RetargetIoc id))
  else if in_types type meroTypes then id ← getIocObjectId parser; Ok (Some (RetargetClovis id))
  else if in_types type ["dummy"; "mem"; "mapanon"] then Ok None
  else if in_types type ["file"] then
    Ok (Some (RetargetFopen (getPath parser) (getParam_default parser (str "mode") [])))
  else if in_types type ["mmap"; "dax"] then
    Ok (Some (RetargetDax (getPath parser) (getParam_default parser (str "mode") [])))
  else Err (Fatal invalid).

Definition applyCow : Variables → chars → result (option RetargetCall) :=
  retarget "Invalid ressource type to run COW operation : %1".
Definition applySwitch : Variables → chars → result (option RetargetCall) :=
  retarget "Invalid ressource type to run switch operation : %1".
End Build.

(** ** Substitution of one variable *)

(** The specification: read from the left, every occurrence of [var] becomes [val] and
    what was written is not read again. *)
Inductive substituted (var val : chars) : chars → chars → Prop :=
  | sub_nil : substituted var val [] []
  | sub_hit s t : substituted var val s t → substituted var val (var ++ s) (val ++ t)
  | sub_skip c s t :
      starts_with var (c :: s) = false → substituted var val s t →
      substituted var val (c :: s) (c :: t).

Lemma starts_with_true var s : starts_with var s = true ↔ ∃ s', s = var ++ s'.
Proof.
  unfold starts_with. rewrite bool_decide_eq_true. split.
  - intros Ht. exists (drop (length var) s). by rewrite <- Ht at 1; rewrite take_drop.
  - intros [s' ->]. by rewrite take_app_length.
Qed.

Section OneVariable.
Context (var val : chars) (Hvar : var ≠ []).

Lemma find_none s : find var s = None → substituted var val s s.
Proof.
  induction s as [|c s IH]; [constructor|]. cbn [find]. destruct (starts_with var (c :: s)) eqn:E; [done|].
  intros Hf. apply sub_skip; [done|]. apply IH. by destruct (find var s).
Qed.

Lemma find_some s i :
  find var s = Some i →
  ∃ a b, s = a ++ var ++ b ∧ length a = i ∧
    ∀ t, substituted var val b t → substituted var val s (a ++ val ++ t).
Proof.
  revert i. induction s as [|c s IH]; intros i; cbn [find].
  - destruct (starts_with var []) eqn:E; [|done]. apply starts_with_true in E as [s' E].
    symmetry in E. apply app_nil in E as [? _]. done.
  - destruct (starts_with var (c :: s)) eqn:E.
    + intros [= <-]. apply starts_with_true in E as [b E]. exists [], b. split; [done|]. split; [done|].
      intros t Ht. rewrite E. exact (sub_hit var val b t Ht).
    + intros (j & Hj & ->)%fmap_Some. destruct (IH j Hj) as (a & b & -> & <- & Hsub).
      exists (c :: a), b. split; [done|]. split; [done|]. intros t Ht. cbn. apply sub_skip; [done|]. by apply Hsub.
Qed.

Lemma find_at_app pre rest : find_at (pre ++ rest) var (length pre) = (λ i, (length pre + i)%nat) <$> find var rest.
Proof. unfold find_at. by rewrite drop_app_length. Qed.

(** The loop ends and substitutes: [pre] has been treated, [rest] is to be. *)
Lemma replaceLoop_ok fuel pre rest :
  (length rest < fuel)%nat →
  ∃ t, replaceLoop fuel var val (pre ++ rest) (find_at (pre ++ rest) var (length pre)) = Ok (pre ++ t) ∧
    substituted var val rest t.
Proof.
  revert pre rest. induction fuel as [|fuel IH]; intros pre rest Hf; [lia|]. rewrite find_at_app.
  destruct (find var rest) as [i|] eqn:Hfind; cbn [replaceLoop fmap option_fmap option_map].
  - destruct (find_some rest i Hfind) as (a & b & -> & <- & Hsub).
    rewrite bool_decide_eq_false_2 by done.
    assert (replace (pre ++ a ++ var ++ b) (length pre + length a) (length var) val
            = (pre ++ a ++ val) ++ b) as ->.
    { unfold replace. rewrite <- length_app. rewrite (app_assoc pre a (var ++ b)).
      rewrite take_app_length, <- length_app, (app_assoc (pre ++ a) var b), drop_app_length.
      by rewrite <- !app_assoc. }
    replace (length pre + length a + length val)%nat with (length (pre ++ a ++ val))
      by (rewrite !length_app; lia).
    destruct (IH (pre ++ a ++ val) b) as (t & Hrun & Ht).
    { rewrite !length_app in Hf. destruct var; [done|]. cbn in Hf. lia. }
    exists (a ++ val ++ t). rewrite Hrun. split; [by rewrite <- !app_assoc|]. by apply Hsub.
  - exists rest. split; [done|]. by apply find_none.
Qed.

Lemma substituted_fun s t t' : substituted var val s t → substituted var val s t' → t = t'.
Proof.
  intros Hs. revert t'. induction Hs as [|s t _ IH|c s t Hno _ IH]; intros t' Ht'.
  - remember [] as s0 eqn:E in Ht'. destruct Ht' as [|s1 t1|]; [done| |done].
    apply app_nil in E as [? _]. done.
  - remember (var ++ s) as s0 eqn:E. destruct Ht' as [|s1 t1 Ht1|c s1 t1 Hno Ht1].
    + symmetry in E. apply app_nil in E as [? _]. done.
    + apply app_inv_head in E as ->. f_equal. by apply IH.
    + assert (starts_with var (c :: s1) = true) by (apply starts_with_true; eauto). congruence.
  - remember (c :: s) as s0 eqn:E. destruct Ht' as [|s1 t1 Ht1|c1 s1 t1 Hno1 Ht1].
    + done.
    + assert (starts_with var (c :: s) = true) by (apply starts_with_true; eauto). congruence.
    + injection E as -> ->. f_equal. by apply IH.
Qed.
End OneVariable.

(** ** Templates *)

Inductive piece : Type :=
  | Lit (s : chars)
  | Ref (name : chars).

Definition piece_text (p : piece) : chars :=
  match p with Lit s => s | Ref name => reference name end.
Definition template_text (ps : list piece) : chars := ps ≫= piece_text.

Definition no_open (s : chars) : Prop := "{"%char ∉ s.
Definition name_ok (n : chars) : Prop := "{"%char ∉ n ∧ "}"%char ∉ n.
Definition piece_ok (p : piece) : Prop :=
  match p with Lit s => no_open s | Ref n => name_ok n end.
Definition var_ok (nv : chars * chars) : Prop := name_ok (fst nv) ∧ no_open (snd nv).

Definition subst_piece (nv : chars * chars) (p : piece) : piece :=
  match p with
  | Lit s => Lit s
  | Ref n => if bool_decide (n = fst nv) then Lit (snd nv) else Ref n
  end.

(** Text without an opening brace holds no reference. *)
Lemma substituted_plain name val s rest t :
  no_open s → substituted (reference name) val rest t →
  substituted (reference name) val (s ++ rest) (s ++ t).
Proof.
  intros Hs Hr. induction s as [|c s IH]; [done|]. apply not_elem_of_cons in Hs as [Hc Hs]. cbn [app].
  apply sub_skip; [|by apply IH]. apply bool_decide_eq_false_2. unfold reference. cbn. congruence.
Qed.

(** Two references are equal as texts when their names are. *)
Lemma reference_prefix n m rest :
  name_ok n → name_ok m → starts_with (reference n) (reference m ++ rest) = true → n = m.
Proof.
  intros [_ Hn] [_ Hm] (s & E)%starts_with_true. unfold reference in E. cbn in E. injection E as E.
  rewrite <- !app_assoc in E. cbn in E. revert m Hm E.
  induction n as [|c n IH]; intros [|d m] Hm E; cbn in E; [done|injection E as Ec E..].
  - subst d. by apply not_elem_of_cons in Hm as [? _].
  - subst c. by apply not_elem_of_cons in Hn as [? _].
  - subst d. apply not_elem_of_cons in Hn as [_ Hn]. apply not_elem_of_cons in Hm as [_ Hm]. f_equal. by apply IH.
Qed.

Lemma substituted_template nv ps :
  var_ok nv → Forall piece_ok ps →
  substituted (reference (fst nv)) (snd nv) (template_text ps) (template_text (subst_piece nv <$> ps)).
Proof.
  destruct nv as [n v]. intros [Hn Hv]. induction 1 as [|p ps Hp _ IH]; [constructor|].
  cbn [fmap list_fmap]. change (template_text (?p :: ?l)) with (piece_text p ++ template_text l).
  destruct p as [s|m]; cbn [subst_piece piece_text]; [by apply substituted_plain|].
  cbn [fst snd]. case_bool_decide as E.
  - subst m. cbn [piece_text]. by apply sub_hit.
  - change (piece_text (Ref m)) with (reference m). unfold reference at 2 3. cbn [app]. apply sub_skip.
    + destruct (starts_with _ _) eqn:Hst; [|done]. exfalso. apply E. symmetry.
      by apply (reference_prefix n m (template_text ps)).
    + apply substituted_plain; [|done]. destruct Hp as [Ho _]. unfold no_open.
      rewrite elem_of_app, list_elem_of_singleton. by intros [?|?].
Qed.

Lemma subst_piece_ok nv ps : var_ok nv → Forall piece_ok ps → Forall piece_ok (subst_piece nv <$> ps).
Proof.
  intros [_ Hv]. induction 1 as [|p ps Hp _ IH]; [constructor|]. cbn. constructor; [|done].
  destruct p as [s|m]; [done|]. cbn. by case_bool_decide.
Qed.


(** ** Substitution of the table *)

Fixpoint lookup_var (vars : Variables) (n : chars) : option chars :=
  match vars with
  | [] => None
  | (m, v) :: vars' => if bool_decide (m = n) then Some v else lookup_var vars' n
  end.

Lemma lookup_register vars n v m :
  lookup_var (registerVariable vars n v) m = if bool_decide (n = m) then Some v else lookup_var vars m.
Proof.
  induction vars as [|[k w] vars IH]; [done|]. cbn [registerVariable].
  destruct (decide (k = n)) as [->|Hkn].
  - rewrite bool_decide_eq_true_2 by done. cbn. by case_bool_decide.
  - rewrite (bool_decide_eq_false_2 (k = n)) by done. destruct (chars_ltb n k); [done|].
    cbn [lookup_var]. rewrite IH. repeat case_bool_decide; congruence.
Qed.

Definition render (vars : Variables) (p : piece) : piece :=
  match p with
  | Lit s => Lit s
  | Ref n => match lookup_var vars n with Some v => Lit v | None => Ref n end
  end.

Lemma render_cons nv vars p : render (nv :: vars) p = render vars (subst_piece nv p).
Proof.
  destruct nv as [m v], p as [s|n]; [done|]. cbn.
  destruct (decide (n = m)) as [->|Hne].
  - by rewrite !bool_decide_eq_true_2.
  - rewrite !bool_decide_eq_false_2 by congruence. done.
Qed.

Lemma replaceVariable_ok nv ps :
  var_ok nv → Forall piece_ok ps →
  replaceVariable (template_text ps) nv = Ok (template_text (subst_piece nv <$> ps)).
Proof.
  intros Hnv Hps. unfold replaceVariable.
  destruct (replaceLoop_ok (reference (fst nv)) (snd nv) ltac:(done) (S (length (template_text ps))) []
    (template_text ps)) as (t & Hrun & Ht); [lia|]. cbn [app length] in Hrun. rewrite Hrun. f_equal.
  eapply (substituted_fun (reference (fst nv)) (snd nv)); [by unfold reference|exact Ht|by apply substituted_template].
Qed.

Lemma replaceVariables_ok vars ps :
  Forall var_ok vars → Forall piece_ok ps →
  replaceVariables vars (template_text ps) = Ok (template_text (render vars <$> ps)).
Proof.
  intros Hvars. revert ps. unfold replaceVariables.
  induction Hvars as [|nv vars Hnv _ IH]; intros ps Hps; cbn [foldM].
  - f_equal. f_equal. induction ps as [|p ps IH]; [done|]. apply Forall_cons in Hps as [_ Hps].
    cbn. rewrite <- IH by done. by destruct p.
  - rewrite replaceVariable_ok by done. cbn [mbind result_bind].
    rewrite IH; [|by apply subst_piece_ok]. f_equal. f_equal. rewrite <- list_fmap_compose.
    apply list_fmap_ext. intros i p _. symmetry. apply render_cons.
Qed.

Lemma registerVariable_Forall (Q : chars * chars → Prop) vars n v :
  Q (n, v) → Forall Q vars → Forall Q (registerVariable vars n v).
Proof.
  intros Hq. induction 1 as [|[k w] vars Hk Hvars IH]; cbn; [by repeat constructor|].
  case_bool_decide; [subst; by constructor|]. destruct (chars_ltb n k); by repeat constructor.
Qed.

(** The table after a list of registrations. *)
Definition table_of (regs : list (chars * chars)) : Variables :=
  foldl (λ vs nv, registerVariable vs (fst nv) (snd nv)) [] regs.

Lemma table_of_ok regs : Forall var_ok regs → Forall var_ok (table_of regs).
Proof.
  intros Hregs. unfold table_of. assert (Hnil : Forall var_ok []) by constructor. revert Hnil.
  generalize (@nil (chars * chars)) as vs. induction Hregs as [|[n v] regs Hnv _ IH]; intros vs Hvs; [done|].
  cbn. apply IH. by apply registerVariable_Forall.
Qed.

Lemma table_of_lookup regs n : lookup_var (table_of regs) n = params_of regs !! n.
Proof.
  unfold table_of, params_of.
  assert (Heq : ∀ m, lookup_var [] m = (∅ : gmap chars chars) !! m) by (intros m; by rewrite lookup_empty).
  revert Heq. generalize (@nil (chars * chars)) as vs, (∅ : gmap chars chars) as mp.
  induction regs as [|[k v] regs IH]; intros vs mp Heq; [done|]. cbn [foldl]. apply IH. intros m.
  rewrite lookup_register, Heq. unfold add_param. cbn [fst snd]. case_bool_decide as E.
  - subst. by rewrite lookup_insert_eq.
  - by rewrite lookup_insert_ne.
Qed.

(** C27: Variables are replaced by their values: in a text made of pieces
    without braces and of references between braces, and for registered values that hold
    no opening brace, each reference to a registered
    variable becomes the value registered last for that name, the references to unknown
    names stay, and the loop always ends. *)
Theorem replaceVariables_renders regs ps :
  Forall var_ok regs → Forall piece_ok ps →
  replaceVariables (table_of regs) (template_text ps) =
  Ok (ps ≫= λ p, match p with
                 | Lit s => s
                 | Ref n => default (reference n) (params_of regs !! n)
                 end).
Proof.
  intros Hregs Hps. rewrite replaceVariables_ok; [|by apply table_of_ok|done]. f_equal.
  unfold template_text. induction Hps as [|p ps _ _ IH]; [done|]. cbn. f_equal; [|exact IH].
  destruct p as [s|n]; [done|]. cbn. rewrite table_of_lookup. by destruct (params_of regs !! n).
Qed.

Lemma replaceVariables_renders_witness :
  replaceVariables (table_of [(str "rank", str "3"); (str "dir", str "tmp"); (str "rank", str "12")])
    (str "file:///{dir}/out-{rank}-{x}") = Ok (str "file:///tmp/out-12-{x}").
Proof.
  refine (eq_trans (replaceVariables_renders
    [(str "rank", str "3"); (str "dir", str "tmp"); (str "rank", str "12")]
    [Lit (str "file:///"); Ref (str "dir"); Lit (str "/out-"); Ref (str "rank"); Lit (str "-"); Ref (str "x")] _ _) _).
  - apply (bool_decide_unpack _). vm_compute. exact I.
  - unfold piece_ok, no_open, name_ok. repeat constructor; apply (bool_decide_unpack _); vm_compute; exact I.
  - vm_compute. reflexivity.
Defined.

(** ** Policies from text *)

Lemma replaceVariables_plain vars text :
  Forall var_ok vars → no_open text → replaceVariables vars text = Ok text.
Proof.
  intros Hvars Ht. pose proof (replaceVariables_ok vars [Lit text] Hvars) as Hrun.
  cbn in Hrun. rewrite app_nil_r in Hrun. apply Hrun. by repeat constructor.
Qed.

(** What the identifiers of policies are made of. *)
Definition word_char (c : ascii) : bool := is_alnum c || bool_decide (c = "-"%char).

Lemma word_classes c : word_char c = true →
  type_char c = true ∧ path_char c = true ∧ value_char c = true ∧ c ≠ "{"%char ∧ c ≠ ":"%char.
Proof.
  assert (H : ∀ c, implb (word_char c) (type_char c && path_char c && value_char c &&
    bool_decide (c ≠ "{"%char) && bool_decide (c ≠ ":"%char)) = true)
    by (apply check_ascii; vm_compute; reflexivity).
  specialize (H c). intros Hc. rewrite Hc in H. cbn [implb] in H. bool_prop. tauto.
Qed.

Lemma size_word n unit factor :
  0 ≤ n ≤ LONG_MAX → (unit, factor) ∈ unit_table →
  show n ++ unit ≠ [] ∧ Forall (λ c, word_char c = true) (show n ++ unit).
Proof.
  intros Hn Hu. destruct (atol_show n Hn) as (_ & Hne & Hd). split; [by destruct (show n)|].
  apply Forall_app. split.
  - eapply Forall_impl; [exact Hd|]. intros c Hc. unfold word_char, is_alnum. by rewrite Hc, !orb_true_r.
  - unfold unit_table in Hu. rewrite !elem_of_cons, elem_of_nil in Hu.
    destruct Hu as [E | [E | [E | [E | [E | [E | []]]]]]]; injection E as -> _;
      apply (bool_decide_unpack _); vm_compute; exact I.
Qed.

Lemma word_no_sep p : Forall (λ c, word_char c = true) p → no_sep p.
Proof.
  intros Hp a b ->. apply Forall_app in Hp as [_ Hp]. apply Forall_cons in Hp as [Hc _]. done.
Qed.

Lemma word_no_open p : Forall (λ c, word_char c = true) p → no_open p.
Proof.
  intros Hp Hin. rewrite Forall_forall in Hp. apply Hp, word_classes in Hin. tauto.
Qed.

Lemma word_impl (q : ascii → bool) p :
  (∀ c, word_char c = true → q c = true) → Forall (λ c, word_char c = true) p → Forall (λ c, q c = true) p.
Proof. intros Hq Hp. eapply Forall_impl; [exact Hp|]. exact Hq. Qed.

(** A policy identifier without parameter is read as it is written. *)
Lemma policy_text regex vars t p kvs :
  Forall var_ok vars → t ≠ [] → Forall (λ c, word_char c = true) t →
  p ≠ [] → Forall (λ c, word_char c = true) p →
  Forall (λ kv, fst kv = str "window" ∧ snd kv ≠ [] ∧ Forall (λ c, word_char c = true) (snd kv)) kvs →
  (length kvs ≤ 1)%nat →
  replaceVariables vars (uri_text t p kvs) = Ok (uri_text t p kvs) ∧
  newUri regex (uri_text t p kvs) = Ok (mkUri (uri_text t p kvs) p t (params_of kvs)).
Proof.
  intros Hvars Htn Ht Hpn Hp Hkvs Hlen.
  assert (Hok : uri_ok t p kvs).
  { split; [split; [done|]|split; [done|]|].
    - eapply word_impl; [|exact Ht]. intros c Hc. by apply word_classes.
    - eapply word_impl; [|exact Hp]. intros c Hc. by apply word_classes.
    - eapply Forall_impl; [exact Hkvs|]. intros [k v] (Hk & Hvn & Hv). cbn in *. subst k.
      split; [done|]. split; [apply (bool_decide_unpack _); vm_compute; exact I|]. split; [done|].
      eapply word_impl; [|exact Hv]. intros c Hc. by apply word_classes. }
  split.
  - apply replaceVariables_plain; [done|]. unfold no_open, uri_text. rewrite !elem_of_app.
    intros [Hin|[Hin|[Hin|Hin]]].
    + by apply (word_no_open t).
    + revert Hin. apply (bool_decide_unpack _). vm_compute. exact I.
    + by apply (word_no_open p).
    + destruct kvs as [|[k v] [|]]; [by apply elem_of_nil in Hin| |cbn in Hlen; lia].
      apply Forall_cons in Hkvs as [(Hk & _ & Hv) _]. cbn in Hk, Hv. subst k.
      cbn [params_text mbind list_bind] in Hin. unfold param_text in Hin. rewrite app_nil_r in Hin.
      cbn [fst snd] in Hin. assert (Hin' : "{"%char ∈ str "?window=" ++ v) by exact Hin. clear Hin.
      apply elem_of_app in Hin' as [Hin|Hin]; [|by apply (word_no_open v)].
      revert Hin. apply (bool_decide_unpack _). vm_compute. exact I.
  - unfold newUri. pose proof (word_no_sep p Hp). destruct regex; [by apply regexParse_text|by apply noRegexParse_text].
Qed.

Lemma size_checked n factor : (n * factor) mod 4096 = 0 → 0 < n → 0 < factor → n * factor < SIZE_MOD →
  n ⊗ factor = n * factor ∧ checkPageMultiple (n * factor) = Ok tt.
Proof.
  intros Hm Hn Hf Hlt. split; [apply wrap_small; unfold is_size; nia|].
  unfold checkPageMultiple. by rewrite Hm.
Qed.

Lemma unit_factor unit factor : (unit, factor) ∈ unit_table → 0 < factor.
Proof.
  unfold unit_table. rewrite !elem_of_cons, elem_of_nil.
  intros [E | [E | [E | [E | [E | [E | []]]]]]]; injection E as _ ->; lia.
Qed.

(** The limits of a built policy. *)
Definition limits (p : AnyPolicy) : Z * Z :=
  (staticMaxMemory (pol_base p), dynamicMaxMemory (pol_base p)).

(** A policy gets the memory its identifier asks for: fifo://<n><unit> and
    lifo://<n><unit> build a policy of that class limited to n units, whatever variables
    are registered; fifo-window://<n><unit>?window=<n'><unit'> one whose fixed window is
    what remains once the sliding window is taken off; the sizes have to be multiples of
    the page size and representable. *)
Theorem policy_text_gives_limits regex vars h this roots local n unit factor n' unit' factor' :
  Forall var_ok vars → 0 < n ≤ LONG_MAX → (unit, factor) ∈ unit_table →
  0 < n' ≤ LONG_MAX → (unit', factor') ∈ unit_table →
  n * factor < SIZE_MOD → (n * factor) mod 4096 = 0 →
  n' * factor' ≤ n * factor → (n' * factor') mod 4096 = 0 →
  (∀ t, t = str "fifo" ∨ t = str "lifo" →
    ∃ h' p, buildPolicy regex vars h this roots (uri_text t (show n ++ unit) []) local = Ok (h', Some p) ∧
      limits p = (n * factor, n * factor) ∧
      match p with PFifo _ => t = str "fifo" | PLifo _ => t = str "lifo" | PWindow _ => False end) ∧
  ∃ h' p, buildPolicy regex vars h this roots
      (uri_text (str "fifo-window") (show n ++ unit) [(str "window", show n' ++ unit')]) local = Ok (h', Some (PWindow p)) ∧
    limits (PWindow p) = (n * factor, n * factor) ∧
    FifoWindowPolicy.maxSlidingMemory p = n' * factor' ∧
    FifoWindowPolicy.maxFixedMemory p = n * factor - n' * factor'.
Proof.
  intros Hvars Hn Hu Hn' Hu' Hlt Hmod Hle Hmod'.
  pose proof (unit_factor _ _ Hu) as Hf. pose proof (unit_factor _ _ Hu') as Hf'.
  destruct (size_word n unit factor) as [Hpn Hp]; [lia|done|].
  destruct (size_word n' unit' factor') as [Hpn' Hp']; [lia|done|].
  destruct (size_checked n factor) as [Hw Hck]; [done|lia|done|done|].
  destruct (size_checked n' factor') as [Hw' Hck']; [done|lia|done|lia|].
  pose proof (size_reads regex n unit factor Hn Hu) as Hsz. rewrite Hw in Hsz.
  pose proof (size_reads regex n' unit' factor' Hn' Hu') as Hsz'. rewrite Hw' in Hsz'.
  split.
  - intros t Ht.
    assert (Htn : t ≠ [] ∧ Forall (λ c, word_char c = true) t)
      by (destruct Ht as [-> | ->]; (split; [done|apply (bool_decide_unpack _); vm_compute; exact I])).
    destruct (policy_text regex vars t (show n ++ unit) [] Hvars (proj1 Htn) (proj2 Htn) Hpn Hp) as [Hrep Hnew];
      [constructor|cbn; lia|].
    unfold buildPolicy.
    rewrite bool_decide_eq_false_2 by (unfold uri_text; destruct t; [by destruct Htn|done]).
    cbn [negb cassert mbind result_bind]. rewrite Hrep. cbn [mbind result_bind]. rewrite Hnew.
    cbn [mbind result_bind]. unfold constructPolicy, getType, getPath. cbn [type path].
    destruct Ht as [-> | ->].
    + rewrite bool_decide_eq_true_2 by done. rewrite Hsz. cbn [mbind result_bind]. rewrite Hck. by eexists _, _.
    + rewrite bool_decide_eq_false_2 by done. rewrite bool_decide_eq_true_2 by done.
      rewrite Hsz. cbn [mbind result_bind]. rewrite Hck. by eexists _, _.
  - destruct (policy_text regex vars (str "fifo-window") (show n ++ unit) [(str "window", show n' ++ unit')] Hvars)
      as [Hrep Hnew]; [done|apply (bool_decide_unpack _); vm_compute; exact I|done|done|by repeat constructor|cbn; lia|].
    unfold buildPolicy. rewrite bool_decide_eq_false_2 by done.
    cbn [negb cassert mbind result_bind]. rewrite Hrep. cbn [mbind result_bind]. rewrite Hnew.
    cbn [mbind result_bind]. unfold constructPolicy, getType, getPath. cbn [type path].
    rewrite !bool_decide_eq_false_2 by done. rewrite bool_decide_eq_true_2 by done.
    rewrite Hsz. cbn [mbind result_bind]. unfold getParam. cbn [params].
    change (params_of _ !! str "window") with (Some (show n' ++ unit')). cbn [mbind result_bind].
    rewrite Hsz'. cbn [mbind result_bind]. rewrite Hck, Hck'. cbn [mbind result_bind].
    eexists _, _. split; [reflexivity|]. split; [reflexivity|]. split; [reflexivity|]. cbn.
    rewrite size_sub; nia.
Qed.

Lemma policy_text_gives_limits_witness :
  uri_text (str "fifo") (show 8 ++ str "MB") [] = str "fifo://8MB" ∧
  ∃ h' p, buildPolicy false [] ∅ 100 (108, 116) (str "fifo://8MB") true = Ok (h', Some p) ∧
    limits p = (8388608, 8388608).
Proof.
  split; [vm_compute; reflexivity|].
  destruct (policy_text_gives_limits false [] ∅ 100 (108, 116) true 8 (str "MB") (1024 ^ 2) 4 (str "KB") 1024)
    as [H _].
  - constructor.
  - unfold LONG_MAX. lia.
  - set_solver.
  - unfold LONG_MAX. lia.
  - set_solver.
  - unfold SIZE_MOD. lia.
  - reflexivity.
  - lia.
  - reflexivity.
  - destruct (H (str "fifo")) as (h' & p & Hrun & Hlim & _); [by left|]. exists h', p. split; [exact Hrun|exact Hlim].
Defined.
