(* ===== verification/FileDrivers.v ===== *)
(** * Drivers on system calls and callbacks (src/src/drivers)

    [FDDriver] stores in a file through pread and pwrite, [MmapDriver] maps the file
    itself, [CDriver] calls the functions of a C program, [IocDriver] those of the client
    library of an IOC server.  The system calls and the foreign functions are operations
    of a class; what files are known to do is a second class, with laws, that makes
    [FDDriver] a driver on which the theorems of mappings hold. *)

From S2P Require Import Prelude OS Driver Mapping MappingInv MappingSpec MappingCopy.

(** ** System calls *)

(** The state of the kernel's files is threaded; a call returns -1 on error. *)
Class Posix (K : Type) := {
  kdup : K → Z → Z * K;
  kclose : K → Z → K;
  kpwrite : K → Z → list Z → Z → Z * K;
  (** The bytes read come with the returned count. *)
  kpread : K → Z → Z → Z → Z * list Z * K;
  kfdatasync : K → Z → K;
  (** [ioctl(target, FICLONERANGE, ...)] from a descriptor: offset and size. *)
  kclonerange : K → Z → Z → Z → Z → Z * K;
  kfstat : K → Z → Z * Z;
  kftruncate : K → Z → Z → Z * K;
  (** Size, protection, descriptor (0 for anonymous memory) and offset; the address the
      kernel chooses, if the mapping is possible. *)
  kmmap : K → vm → option Z → Z → prot → Z → Z → option Z * (K * vm);
  kmunmap : K → vm → Z → Z → Z * (K * vm);
  kmsync : K → vm → Z → Z → Z * K;
}.

(** What POSIX says of an open regular file that is not full. *)
Class RegularFiles (K : Type) `{Posix K} := {
  (** The bytes of the regular file behind an open descriptor, and the size limit. *)
  file_of : K → Z → option (list Z);
  max_file : Z;
  max_file_law : 0 < max_file < 2 ^ 63;
  (** A read stops at the end of the file. *)
  kpread_law k fd l size off :
    file_of k fd = Some l → 0 < size → 0 ≤ off → off + size ≤ max_file →
    let data := take (Z.to_nat size) (drop (Z.to_nat off) l) in
    kpread k fd size off = (Z.of_nat (length data), data, k);
  (** A write past the end extends the file with zeros. *)
  kpwrite_law k fd l data off :
    file_of k fd = Some l → data ≠ [] → 0 ≤ off → off + Z.of_nat (length data) ≤ max_file →
    ∃ k', kpwrite k fd data off = (Z.of_nat (length data), k') ∧
      file_of k' fd =
        Some (store_at (l ++ replicate (Z.to_nat off + length data - length l) 0) off data);
  kfdatasync_law k fd l : file_of k fd = Some l → kfdatasync k fd = k;
  (** The table of descriptors is not full; a close leaves room in it. *)
  free_descriptor : K → Prop;
  kdup_law k fd l :
    free_descriptor k → file_of k fd = Some l → 0 < fd →
    ∃ fd' k', kdup k fd = (fd', k') ∧ 0 < fd' ∧ fd' ≠ fd ∧
      file_of k' fd' = Some l ∧ file_of k' fd = Some l;
  kclose_law k fd fd' : fd' ≠ fd → file_of (kclose k fd) fd' = file_of k fd';
  kclose_frees k fd l : file_of k fd = Some l → free_descriptor (kclose k fd);
}.

(** Descriptors of the same file, and what a call leaves of the other files. *)
Class SharedFiles (K : Type) `{RegularFiles K} := {
  (** The file behind an open descriptor. *)
  file_id : K → Z → option Z;
  same_file_law k fd fd' : file_id k fd = file_id k fd' → file_of k fd = file_of k fd';
  kpwrite_frame k fd data off n k' fd' :
    kpwrite k fd data off = (n, k') →
    file_id k' fd' = file_id k fd' ∧ (file_id k fd' ≠ file_id k fd → file_of k' fd' = file_of k fd');
  (** A new descriptor was not in use. *)
  kdup_frame k fd fd' k' :
    kdup k fd = (fd', k') → 0 < fd' →
    file_of k fd' = None ∧ file_id k' fd' = file_id k fd ∧
    ∀ fd2, fd2 ≠ fd' → file_id k' fd2 = file_id k fd2 ∧ file_of k' fd2 = file_of k fd2;
  kclose_frame k fd fd' : fd' ≠ fd → file_id (kclose k fd) fd' = file_id k fd';
  (** A clone copies the range from a file to another, or does nothing. *)
  kclonerange_law k target src size off l lt r k' :
    kclonerange k target src size off = (r, k') → file_of k src = Some l → file_of k target = Some lt →
    file_id k target ≠ file_id k src →
    (∀ fd, file_id k' fd = file_id k fd ∧ (file_id k fd ≠ file_id k target → file_of k' fd = file_of k fd)) ∧
    if r =? 0 then ∃ lt', file_of k' target = Some lt' ∧
                     ∀ x, byte_at lt' x = if in_range off size x then byte_at l x else byte_at lt x
    else k' = k;
}.

(** ** FDDriver *)

Section FD.
Context {K : Type} `{Posix K}.

Record FDDriver := mkFD { fd_base : DriverBase; fd : Z; fd_kernel : K }.

Definition failDup : error := Fatal "Fail to dup() the file descriptor : %1".

Definition newFDDriver (k : K) (fd : Z) : result FDDriver :=
  cassert (0 <? fd) "fd > 0";;
  let '(dupFD, k') := kdup k fd in
  if 0 <? dupFD then Ok (mkFD newDriver dupFD k') else Err failDup.

(** [~FDDriver]: what it leaves of the kernel. *)
Definition deleteFDDriver (d : FDDriver) : K := kclose (fd_kernel d) (fd d).

Definition fd_setFd (d : FDDriver) (newFd : Z) : result FDDriver :=
  cassert (0 <? newFd) "newFd > 0";;
  let '(dupFD, k') := kdup (kclose (fd_kernel d) (fd d)) newFd in
  if 0 <? dupFD then Ok (mkFD (fd_base d) dupFD k') else Err failDup.

Definition fd_pwrite (d : FDDriver) (v : vm) (buffer size offset : Z) : result (Z * FDDriver) :=
  cassert (negb (buffer =? 0)) "buffer != NULL";;
  cassert (0 <? size) "size > 0";;
  let '(n, k') := kpwrite (fd_kernel d) (fd d) (read_bytes v buffer size) offset in
  Ok (n, mkFD (fd_base d) (fd d) k').

Definition fd_pread (d : FDDriver) (v : vm) (buffer size offset : Z)
    : result (Z * (FDDriver * vm)) :=
  cassert (negb (buffer =? 0)) "buffer != NULL";;
  cassert (0 <? size) "size > 0";;
  let '(n, data, k') := kpread (fd_kernel d) (fd d) size offset in
  Ok (n, (mkFD (fd_base d) (fd d) k', write_bytes v buffer data)).

Definition fd_sync (d : FDDriver) (v : vm) (ptr offset size : Z) : result (FDDriver * vm) :=
  Ok (mkFD (fd_base d) (fd d) (kfdatasync (fd_kernel d) (fd d)), v).

Definition cloneRange (d : FDDriver) (targetFd offset size : Z) : bool * FDDriver :=
  let '(status, k') := kclonerange (fd_kernel d) targetFd (fd d) size offset in
  (status =? 0, mkFD (fd_base d) (fd d) k').

#[export] Instance FDDriver_ops : DriverOps FDDriver := {
  driver_base := fd_base;
  pwrite := fd_pwrite; pread := fd_pread; dsync := fd_sync;
  directMmap := base_directMmap; directMunmap := base_directMunmap;
  directMSync := base_directMSync; establish_mapping := base_establish_mapping;
  erase_mapping := base_erase_mapping; checkThreadSafety := base_checkThreadSafety }.
End FD.
Arguments FDDriver : clear implicits.

(** ** MmapDriver *)

(** [checkAndSetAlign]: size, offset and the shift of the address. *)
Definition checkAndSetAlign (allowNotAligned : bool) (size offset : Z) : result (Z * Z * Z) :=
  (if negb allowNotAligned then
     assume (size mod UMMAP_PAGE_SIZE =? 0) "Size must be aligned to page size, got : %1 with alignement : %2";;
     assume (offset mod UMMAP_PAGE_SIZE =? 0) "Offset must be aligned to page size, got : %1 with alignement : %2"
   else Ok tt);;
  let '(size, offset, addrOffset) :=
    if negb (offset mod UMMAP_PAGE_SIZE =? 0) then
      let addrOffset := offset mod UMMAP_PAGE_SIZE in (size ⊕ addrOffset, offset ⊖ addrOffset, addrOffset)
    else (size, offset, 0) in
  let size := if negb (size mod UMMAP_PAGE_SIZE =? 0)
              then size ⊕ (UMMAP_PAGE_SIZE - size mod UMMAP_PAGE_SIZE) else size in
  Ok (size, offset, addrOffset).

Section Mmap.
Context {K : Type} `{Posix K}.

Record MmapDriver := mkMmap {
  mmap_base : DriverBase; mmap_fd : Z; allowNotAligned : bool; mmap_kernel : K;
}.

Definition mmap_set_kernel (d : MmapDriver) (k : K) : MmapDriver :=
  mkMmap (mmap_base d) (mmap_fd d) (allowNotAligned d) k.

Definition newMmapDriver (k : K) (fd : Z) (notAligned : bool) : result MmapDriver :=
  if fd =? 0 then Ok (mkMmap newDriver 0 notAligned k)
  else
    let '(dupFD, k') := kdup k fd in
    if 0 <? dupFD then Ok (mkMmap newDriver dupFD notAligned k') else Err failDup.

Definition deleteMmapDriver (d : MmapDriver) : K :=
  if negb (mmap_fd d =? 0) then kclose (mmap_kernel d) (mmap_fd d) else mmap_kernel d.

Definition mmap_setFd (d : MmapDriver) (newFd : Z) : result MmapDriver :=
  cassert (0 <? newFd) "newFd > 0";;
  let '(dupFD, k') := kdup (kclose (mmap_kernel d) (mmap_fd d)) newFd in
  if 0 <? dupFD then Ok (mkMmap (mmap_base d) dupFD (allowNotAligned d) k') else Err failDup.

Definition mmap_pwrite (d : MmapDriver) (v : vm) (buffer size offset : Z) : result (Z * MmapDriver) :=
  cassert false "false";; Ok (to_signed size, d).
Definition mmap_pread (d : MmapDriver) (v : vm) (buffer size offset : Z)
    : result (Z * (MmapDriver * vm)) :=
  cassert false "false";; Ok (to_signed size, (d, v)).
Definition mmap_sync (d : MmapDriver) (v : vm) (ptr offset size : Z) : result (MmapDriver * vm) :=
  cassert false "false";; Ok (d, v).

(** A file shorter than the mapping is extended first. *)
Definition growFile (d : MmapDriver) (last : Z) : result K :=
  let '(status, origSize) := kfstat (mmap_kernel d) (mmap_fd d) in
  assume (status =? 0) "Fail to fstat the file before memory mapping it: %1";;
  if origSize <? last then
    let '(status, k') := kftruncate (mmap_kernel d) (mmap_fd d) last in
    assume (status =? 0) "Fail to truncate the file brefore memory mapping it: %1";; Ok k'
  else Ok (mmap_kernel d).

(** The bit of [PROT_EXEC] follows [write], not [exec]. *)
Definition mmap_directMmap (d : MmapDriver) (v : vm) (got : option Z) (size offset : Z) (p : prot)
    : result (Z * (MmapDriver * vm)) :=
  '(size, offset, addrOffset) ← checkAndSetAlign (allowNotAligned d) size offset;
  k ← (if p_write p && negb (mmap_fd d =? 0) then growFile d (offset ⊕ size) else Ok (mmap_kernel d));
  let bits := mkProt (p_read p) (p_write p) (p_write p) in
  let '(res, (k', v')) := kmmap k v got size bits (mmap_fd d) (if mmap_fd d =? 0 then 0 else offset) in
  match res with
  | Some res => Ok (res + addrOffset, (mmap_set_kernel d k', v'))
  | None => Err (Fatal "Fail to mmap : %1")
  end.

Definition mmap_directMunmap (d : MmapDriver) (v : vm) (base size offset : Z)
    : result (bool * (MmapDriver * vm)) :=
  '(size, offset, addrOffset) ← checkAndSetAlign (allowNotAligned d) size offset;
  let '(res, (k', v')) := kmunmap (mmap_kernel d) v (base - addrOffset) size in
  assume (res =? 0) "Fail to munmap : %1";;
  Ok (true, (mmap_set_kernel d k', v')).

Definition mmap_directMSync (d : MmapDriver) (v : vm) (base size offset : Z)
    : result (bool * (MmapDriver * vm)) :=
  '(size, offset, addrOffset) ← checkAndSetAlign (allowNotAligned d) size offset;
  let '(res, k') := kmsync (mmap_kernel d) v (base - addrOffset) size in
  assume (res =? 0) "Fail to msync(%1, %2, MS_SYNC) : %3";;
  Ok (true, (mmap_set_kernel d k', v)).

#[export] Instance MmapDriver_ops : DriverOps MmapDriver := {
  driver_base := mmap_base;
  pwrite := mmap_pwrite; pread := mmap_pread; dsync := mmap_sync;
  directMmap := mmap_directMmap; directMunmap := mmap_directMunmap;
  directMSync := mmap_directMSync; establish_mapping := base_establish_mapping;
  erase_mapping := base_erase_mapping; checkThreadSafety := base_checkThreadSafety }.
End Mmap.
Arguments MmapDriver : clear implicits.

(** ** CDriver *)

(** [ummap_c_driver_t]: the state behind [driver_data] is threaded; the direct functions
    may be [NULL]. *)
Record ummap_c_driver_t (S : Type) := mkCFunctions {
  c_pwrite : S → vm → Z → Z → Z → Z * S;
  c_pread : S → vm → Z → Z → Z → Z * (S * vm);
  c_sync : S → vm → Z → Z → Z → S * vm;
  c_direct_mmap : option (S → vm → option Z → Z → Z → prot → Z * (S * vm));
  c_direct_munmap : option (S → vm → Z → Z → Z → bool * (S * vm));
  c_direct_msync : option (S → vm → Z → Z → Z → bool * (S * vm));
  c_finalize : S → S;
}.
Arguments mkCFunctions {S}.
Arguments c_pwrite {S}.
Arguments c_pread {S}.
Arguments c_sync {S}.
Arguments c_direct_mmap {S}.
Arguments c_direct_munmap {S}.
Arguments c_direct_msync {S}.
Arguments c_finalize {S}.

Record CDriver (S : Type) := mkCDriver {
  cdriver_base : DriverBase; c_driver : ummap_c_driver_t S; driver_data : S;
}.
Arguments mkCDriver {S}.
Arguments cdriver_base {S}.
Arguments c_driver {S}.
Arguments driver_data {S}.

Section C.
Context {S : Type}.

Definition newCDriver (f : ummap_c_driver_t S) (data : S) : CDriver S := mkCDriver newDriver f data.

Definition c_set_data (d : CDriver S) (data : S) : CDriver S :=
  mkCDriver (cdriver_base d) (c_driver d) data.

Definition deleteCDriver (d : CDriver S) : S := c_finalize (c_driver d) (driver_data d).

Definition cdriver_pwrite (d : CDriver S) (v : vm) (buffer size offset : Z) : result (Z * CDriver S) :=
  let '(n, s) := c_pwrite (c_driver d) (driver_data d) v buffer size offset in Ok (n, c_set_data d s).

Definition cdriver_pread (d : CDriver S) (v : vm) (buffer size offset : Z)
    : result (Z * (CDriver S * vm)) :=
  let '(n, (s, v')) := c_pread (c_driver d) (driver_data d) v buffer size offset in
  Ok (n, (c_set_data d s, v')).

(** It calls [pread], with the offset for the size and the size for the offset. *)
Definition cdriver_sync (d : CDriver S) (v : vm) (ptr offset size : Z) : result (CDriver S * vm) :=
  let '(_, (s, v')) := c_pread (c_driver d) (driver_data d) v ptr offset size in
  Ok (c_set_data d s, v').

Definition cdriver_directMmap (d : CDriver S) (v : vm) (got : option Z) (size offset : Z) (p : prot)
    : result (Z * (CDriver S * vm)) :=
  match c_direct_mmap (c_driver d) with
  | None => Ok (0, (d, v))
  | Some f => let '(ptr, (s, v')) := f (driver_data d) v got size offset p in
              Ok (ptr, (c_set_data d s, v'))
  end.

Definition cdriver_directMunmap (d : CDriver S) (v : vm) (base size offset : Z)
    : result (bool * (CDriver S * vm)) :=
  match c_direct_munmap (c_driver d) with
  | None => Ok (false, (d, v))
  | Some f => let '(b, (s, v')) := f (driver_data d) v base size offset in Ok (b, (c_set_data d s, v'))
  end.

Definition cdriver_directMSync (d : CDriver S) (v : vm) (base size offset : Z)
    : result (bool * (CDriver S * vm)) :=
  match c_direct_msync (c_driver d) with
  | None => Ok (false, (d, v))
  | Some f => let '(b, (s, v')) := f (driver_data d) v base size offset in Ok (b, (c_set_data d s, v'))
  end.

#[export] Instance CDriver_ops : DriverOps (CDriver S) := {
  driver_base := cdriver_base;
  pwrite := cdriver_pwrite; pread := cdriver_pread; dsync := cdriver_sync;
  directMmap := cdriver_directMmap; directMunmap := cdriver_directMunmap;
  directMSync := cdriver_directMSync; establish_mapping := base_establish_mapping;
  erase_mapping := base_erase_mapping; checkThreadSafety := base_checkThreadSafety }.
End C.

(** ** A file is storage *)

Lemma byte_at_zeros l n x : byte_at (l ++ replicate n 0) x = byte_at l x.
Proof.
  unfold byte_at. destruct (x <? 0); [done|]. destruct (decide (Z.to_nat x < length l)%nat).
  - by rewrite lookup_app_l.
  - rewrite (lookup_ge_None_2 l) by lia. rewrite lookup_app_r by lia.
    destruct (replicate n 0 !! _) as [b|] eqn:E; [|done]. by apply lookup_replicate in E as [-> _].
Qed.

Section FDStorage.
Context {K : Type} `{RegularFiles K}.

(** The file behind the driver. *)
Definition fd_file (d : FDDriver K) : list Z := default [] (file_of (fd_kernel d) (fd d)).

#[export] Program Instance FDDriver_storage : StorageDriver (FDDriver K) := {
  content d := byte_at (fd_file d);
  capacity _ := max_file;
  driver_ok d := is_Some (file_of (fd_kernel d) (fd d));
}.
Next Obligation.
  intros d v buf size off [l Hl] Hb Hs Ho Hc Hz. cbn. unfold fd_pread, fd_file. rewrite Hl.
  apply Z.eqb_neq in Hb. rewrite Hb. destruct (Z.ltb_spec 0 size); [|lia]. cbn [negb cassert mbind result_bind].
  rewrite (kpread_law _ _ l) by done. eexists _, _. split; [by destruct d|]. split; [lia|]. split; [done|].
  by apply write_bytes_slice.
Qed.
Next Obligation.
  intros d v buf size off [l Hl] Hb Hs Ho Hc. cbn. unfold fd_pwrite, fd_file. rewrite Hl.
  apply Z.eqb_neq in Hb. rewrite Hb. destruct (Z.ltb_spec 0 size); [|lia]. cbn [negb cassert mbind result_bind].
  pose proof (length_read_bytes v buf size ltac:(lia)) as Hlen.
  destruct (kpwrite_law (fd_kernel d) (fd d) l (read_bytes v buf size) off) as (k' & -> & Hl');
    [done|by intros E; rewrite E in Hlen; cbn in Hlen; lia|done|lia|].
  eexists _, _. split; [done|]. cbn. rewrite Hl'. split; [lia|]. split; [eauto|]. split; [done|].
  intros x. change (default [] (Some ?y)) with y. rewrite byte_at_store_at; [|lia|lia|rewrite length_app, length_replicate; lia].
  by rewrite byte_at_zeros.
Qed.
Next Obligation. intros d _. unfold SIZE_MOD. pose proof max_file_law. lia. Qed.
Next Obligation.
  intros d v ptr off size [l Hl] _. cbn. unfold fd_sync. rewrite (kfdatasync_law _ _ l) by done. by destruct d.
Qed.
Solve All Obligations with done.

#[export] Instance FDDriver_exact : ExactWrites (FDDriver K).
Proof.
  split.
  - intros d v buf size off r d' [l Hl] Hs Ho Hc. cbn. unfold fd_pwrite. intros Hrun. do 2 inv_bind Hrun.
    pose proof (length_read_bytes v buf size ltac:(lia)) as Hlen.
    destruct (kpwrite_law (fd_kernel d) (fd d) l (read_bytes v buf size) off) as (k' & E & _);
      [done|by intros E; rewrite E in Hlen; cbn in Hlen; lia|done|cbn in Hc; lia|].
    rewrite E in Hrun. inv_ok. exact Hlen.
  - intros d _. cbn. apply max_file_law.
Qed.

(** Reads inside the file are full. *)
Lemma fd_reads_fully (d : FDDriver K) l :
  file_of (fd_kernel d) (fd d) = Some l → Z.of_nat (length l) ≤ max_file → reads_fully d (Z.of_nat (length l)).
Proof.
  intros Hl Hmax v buf size off Hb Hs Ho Hlt. cbn. unfold fd_pread.
  apply Z.eqb_neq in Hb. rewrite Hb, (proj2 (Z.ltb_lt 0 size) Hs). cbn [negb cassert mbind result_bind].
  rewrite (kpread_law _ _ l) by (done || lia).
  assert (Hlen : Z.of_nat (length (take (Z.to_nat size) (drop (Z.to_nat off) l))) = size)
    by (rewrite length_take, length_drop; lia).
  rewrite Hlen. eexists. split; [by destruct d|]. split; [done|]. intros x. cbn. rewrite Hlen. case_range; [|done].
  unfold fd_file. rewrite Hl. cbn. unfold byte_at. destruct (Z.ltb_spec (off + (x - buf)) 0); [lia|].
  rewrite lookup_take_lt, lookup_drop by lia. do 2 f_equal. lia.
Qed.

Lemma newFDDriver_ok k fd0 l :
  free_descriptor k → file_of k fd0 = Some l → 0 < fd0 →
  ∃ d, newFDDriver k fd0 = Ok d ∧ driver_ok d ∧ fd d ≠ fd0 ∧ 0 < fd d ∧ fd_file d = l ∧
    file_of (fd_kernel d) fd0 = Some l.
Proof.
  intros Hroom Hl Hfd. unfold newFDDriver. destruct (Z.ltb_spec 0 fd0); [|lia]. cbn [cassert mbind result_bind].
  destruct (kdup_law k fd0 l Hroom Hl Hfd) as (fd' & k' & -> & Hpos & Hne & H1' & H2').
  destruct (Z.ltb_spec 0 fd'); [|lia]. eexists. split; [done|]. cbn. unfold fd_file. cbn. rewrite H1'. eauto.
Qed.

(** The caller may close its descriptor: a driver built on a file holds
    the file, works after the caller closed its own descriptor, and shows the bytes of
    the file; when the driver is given another file, it shows the bytes of that one. *)
Theorem fd_driver_owns_its_descriptor k fd0 l :
  free_descriptor k → file_of k fd0 = Some l → 0 < fd0 →
  ∃ d, newFDDriver k fd0 = Ok d ∧
    let closed := mkFD (fd_base d) (fd d) (kclose (fd_kernel d) fd0) in
    driver_ok closed ∧ (∀ x, content closed x = byte_at l x) ∧
    ∀ fd1 l1, fd1 ≠ fd d → 0 < fd1 → file_of (fd_kernel closed) fd1 = Some l1 →
      ∃ d1, fd_setFd closed fd1 = Ok d1 ∧ driver_ok d1 ∧ ∀ x, content d1 x = byte_at l1 x.
Proof.
  intros Hroom Hl Hfd. destruct (newFDDriver_ok k fd0 l Hroom Hl Hfd) as (d & Hrun & Hok & Hne & Hpos & Hfile & _).
  assert (Hd : file_of (kclose (fd_kernel d) fd0) (fd d) = Some l).
  { rewrite kclose_law by done. destruct Hok as [l' Hl']. rewrite <- Hfile. unfold fd_file. by rewrite Hl'. }
  exists d. split; [done|]. cbn. unfold fd_file. cbn. rewrite kclose_law by done.
  split; [exact Hok|]. split; [by intros x; rewrite <- Hfile|].
  intros fd1 l1 Hne1 Hpos1 Hl1. unfold fd_setFd. destruct (Z.ltb_spec 0 fd1); [|lia]. cbn [cassert mbind result_bind].
  destruct (kdup_law (kclose (kclose (fd_kernel d) fd0) (fd d)) fd1 l1) as (fd' & k' & E & Hpos' & _ & Hf & _);
    [by eapply kclose_frees|by rewrite kclose_law|done|]. cbn. rewrite E.
  destruct (Z.ltb_spec 0 fd'); [|lia]. eexists. split; [done|]. cbn. rewrite Hf. split; [eauto|done].
Qed.
End FDStorage.

(** ** A concrete kernel

    Files are a list of contents, descriptors a list of positions in it. *)
Record Files := mkFiles { contents : list (list Z); descriptors : list (option nat) }.

Definition file_at (k : Files) (fd : Z) : option (list Z) :=
  if fd <? 0 then None
  else i ← descriptors k !! Z.to_nat fd; j ← i; contents k !! j.

Definition files_pwrite (k : Files) (fd : Z) (data : list Z) (off : Z) : Z * Files :=
  match (if fd <? 0 then None else i ← descriptors k !! Z.to_nat fd; j ← i; l ← contents k !! j; Some (j, l)) with
  | Some (j, l) =>
      (Z.of_nat (length data),
       mkFiles (<[j := store_at (l ++ replicate (Z.to_nat off + length data - length l) 0) off data]>
                  (contents k)) (descriptors k))
  | None => (-1, k)
  end.

Definition files_pread (k : Files) (fd size off : Z) : Z * list Z * Files :=
  match file_at k fd with
  | Some l => let data := take (Z.to_nat size) (drop (Z.to_nat off) l) in (Z.of_nat (length data), data, k)
  | None => (-1, [], k)
  end.

Definition files_dup (k : Files) (fd : Z) : Z * Files :=
  match (if fd <? 0 then None else descriptors k !! Z.to_nat fd) with
  | Some (Some j) => (Z.of_nat (length (descriptors k)), mkFiles (contents k) (descriptors k ++ [Some j]))
  | _ => (-1, k)
  end.

Definition files_close (k : Files) (fd : Z) : Files :=
  if fd <? 0 then k else mkFiles (contents k) (<[Z.to_nat fd := None]> (descriptors k)).

#[export] Instance Files_posix : Posix Files := {
  kdup := files_dup; kclose := files_close; kpwrite := files_pwrite; kpread := files_pread;
  kfdatasync k _ := k;
  kclonerange k _ _ _ _ := (-1, k);
  kfstat k fd := match file_at k fd with Some l => (0, Z.of_nat (length l)) | None => (-1, 0) end;
  kftruncate k _ _ := (-1, k);
  kmmap k v _ _ _ _ _ := (None, (k, v));
  kmunmap k v _ _ := (-1, (k, v));
  kmsync k _ _ _ := (-1, k) }.

Lemma file_at_inv k fd l :
  file_at k fd = Some l →
  0 ≤ fd ∧ ∃ j, descriptors k !! Z.to_nat fd = Some (Some j) ∧ contents k !! j = Some l.
Proof.
  unfold file_at. destruct (Z.ltb_spec fd 0); [done|]. intros Hl.
  destruct (descriptors k !! Z.to_nat fd) as [[j|]|]; [|done|done]. cbn in Hl. eauto.
Qed.

Lemma file_at_intro k fd j l :
  0 ≤ fd → descriptors k !! Z.to_nat fd = Some (Some j) → contents k !! j = Some l → file_at k fd = Some l.
Proof. intros Hfd Hj Hl. unfold file_at. destruct (Z.ltb_spec fd 0); [lia|]. by rewrite Hj. Qed.

Lemma files_pwrite_ok k fd l data off :
  file_at k fd = Some l →
  ∃ k', files_pwrite k fd data off = (Z.of_nat (length data), k') ∧
    file_at k' fd = Some (store_at (l ++ replicate (Z.to_nat off + length data - length l) 0) off data).
Proof.
  intros Hl. apply file_at_inv in Hl as (Hfd & j & Hj & Hl). unfold files_pwrite.
  destruct (Z.ltb_spec fd 0); [lia|]. rewrite Hj. cbn. rewrite Hl. cbn. eexists. split; [done|].
  eapply file_at_intro; [done|exact Hj|]. cbn. apply list_lookup_insert_eq. by eapply lookup_lt_Some.
Qed.

Lemma files_dup_ok k fd l :
  file_at k fd = Some l → 0 < fd →
  ∃ fd' k', files_dup k fd = (fd', k') ∧ 0 < fd' ∧ fd' ≠ fd ∧
    file_at k' fd' = Some l ∧ file_at k' fd = Some l.
Proof.
  intros Hl Hpos. apply file_at_inv in Hl as (Hfd & j & Hj & Hl). unfold files_dup.
  destruct (Z.ltb_spec fd 0); [lia|]. rewrite Hj. pose proof (lookup_lt_Some _ _ _ Hj).
  eexists _, _. split; [done|]. split; [lia|]. split; [lia|]. split.
  - eapply file_at_intro; [lia| |exact Hl]. cbn. rewrite Nat2Z.id. by apply list_lookup_middle.
  - eapply file_at_intro; [lia| |exact Hl]. cbn. by apply lookup_app_l_Some.
Qed.

Lemma files_close_ok k fd fd' : fd' ≠ fd → file_at (files_close k fd) fd' = file_at k fd'.
Proof.
  intros Hne. unfold files_close, file_at. destruct (Z.ltb_spec fd 0); [done|].
  destruct (Z.ltb_spec fd' 0); [done|]. cbn. by rewrite list_lookup_insert_ne by lia.
Qed.

#[export] Instance Files_regular : RegularFiles Files.
Proof.
  refine {| file_of := file_at; max_file := 2 ^ 62; free_descriptor _ := True |}.
  - lia.
  - intros k fd l size off Hl _ _ _. cbn. unfold files_pread. by rewrite Hl.
  - intros k fd l data off Hl _ _ _. by apply files_pwrite_ok.
  - done.
  - intros k fd l _. apply files_dup_ok.
  - intros k fd fd'. apply files_close_ok.
  - done.
Defined.

(** The descriptor table. *)
Definition files_id (k : Files) (fd : Z) : option Z :=
  if fd <? 0 then None else i ← descriptors k !! Z.to_nat fd; j ← i; Some (Z.of_nat j).

#[export] Instance Files_shared : SharedFiles Files.
Proof.
  refine {| file_id := files_id |}.
  - intros k fd fd'. cbn. unfold files_id, file_at.
    destruct (fd <? 0), (fd' <? 0), (descriptors k !! Z.to_nat fd) as [[j|]|], (descriptors k !! Z.to_nat fd') as [[j'|]|];
      cbn; intros E; simplify_eq; done.
  - intros k fd data off n k' fd'. cbn. unfold files_pwrite, files_id, file_at.
    destruct (fd <? 0); [by intros [= <- <-]|]. destruct (descriptors k !! Z.to_nat fd) as [[j|]|] eqn:Ej;
      [|by intros [= <- <-]..]. cbn. destruct (contents k !! j) as [l|]; [|by intros [= <- <-]]. cbn.
    intros [= <- <-]. split; [done|]. destruct (fd' <? 0); [done|]. cbn.
    destruct (descriptors k !! Z.to_nat fd') as [[j'|]|]; [|done..]. cbn. intros Hne.
    rewrite list_lookup_insert_ne; [done|]. intros <-. done.
  - intros k fd fd' k'. cbn. unfold files_dup. intros Hrun Hpos.
    destruct (if fd <? 0 then None else descriptors k !! Z.to_nat fd) as [[j|]|] eqn:Ej; simplify_eq; try lia.
    unfold file_at, files_id. destruct (fd <? 0); [done|]. cbn. rewrite Nat2Z.id, Ej.
    destruct (Z.ltb_spec (Z.of_nat (length (descriptors k))) 0); [lia|].
    rewrite (lookup_ge_None_2 (descriptors k)) by lia. rewrite (list_lookup_middle (descriptors k)) by done.
    split; [done|]. split; [done|]. intros fd2 Hne. destruct (Z.ltb_spec fd2 0); [done|].
    destruct (decide (Z.to_nat fd2 < length (descriptors k))%nat); [by rewrite lookup_app_l|].
    rewrite !lookup_ge_None_2 by (rewrite ?length_app; cbn; lia). done.
  - intros k fd fd' Hne. cbn. unfold files_close, files_id. destruct (Z.ltb_spec fd 0); [done|].
    destruct (Z.ltb_spec fd' 0); [done|]. cbn. by rewrite list_lookup_insert_ne by lia.
  - intros k target src size off l lt r k'. cbn. by intros [= <- <-].
Defined.

Definition demo_files : Files := mkFiles [replicate 10 5; [1; 2; 3]] [None; None; None; Some 0%nat; Some 1%nat].

Lemma fd_driver_owns_its_descriptor_witness :
  ∃ d : FDDriver Files, newFDDriver demo_files 3 = Ok d ∧
    content (mkFD (fd_base d) (fd d) (kclose (fd_kernel d) 3)) 4 = 5.
Proof.
  destruct (fd_driver_owns_its_descriptor demo_files 3 (replicate 10 5)) as (d & Hrun & _ & Hc & _);
    [exact I|reflexivity|lia|]. exists d. split; [exact Hrun|]. rewrite Hc. reflexivity.
Defined.

(** ** Alignment of direct mappings *)

(** C29: A direct mapping covers what was asked: the range given to the system
    calls starts and ends on page boundaries, contains the bytes [offset .. offset+size),
    exceeds them by less than a page on each side, and the address handed out is shifted
    by the distance from its start to [offset].  The driver stops exactly when it refuses
    unaligned ranges and the size or the offset is not a whole number of pages. *)
Theorem mmap_align_covers notAligned size offset :
  0 ≤ size → 0 ≤ offset → offset + size + 2 * UMMAP_PAGE_SIZE < SIZE_MOD →
  if notAligned || ((size mod UMMAP_PAGE_SIZE =? 0) && (offset mod UMMAP_PAGE_SIZE =? 0))
  then ∃ size' offset' shift, checkAndSetAlign notAligned size offset = Ok (size', offset', shift) ∧
    size' mod UMMAP_PAGE_SIZE = 0 ∧ offset' mod UMMAP_PAGE_SIZE = 0 ∧
    offset' + shift = offset ∧ 0 ≤ shift < UMMAP_PAGE_SIZE ∧
    offset + size ≤ offset' + size' < offset + size + UMMAP_PAGE_SIZE
  else ∃ msg, checkAndSetAlign notAligned size offset = Err (Fatal msg).
Proof.
  intros Hs Ho Hlt. unfold UMMAP_PAGE_SIZE in *. unfold SIZE_MOD in Hlt.
  assert (Hgo : ∃ size' offset' shift, checkAndSetAlign true size offset = Ok (size', offset', shift) ∧
    size' mod 4096 = 0 ∧ offset' mod 4096 = 0 ∧ offset' + shift = offset ∧ 0 ≤ shift < 4096 ∧
    offset + size ≤ offset' + size' < offset + size + 4096).
  { unfold checkAndSetAlign, UMMAP_PAGE_SIZE. cbn [negb mbind result_bind].
    pose proof (Z.div_mod offset 4096). pose proof (Z.mod_pos_bound offset 4096).
    set (r := offset mod 4096) in *.
    assert (Hr : (if negb (r =? 0) then (size ⊕ r, offset ⊖ r, r) else (size, offset, 0))
      = (size + r, offset - r, r)).
    { destruct (Z.eqb_spec r 0) as [E|E]; cbn [negb]; [by rewrite E, Z.add_0_r, Z.sub_0_r|].
      rewrite size_add, size_sub by (unfold SIZE_MOD; lia). done. }
    rewrite Hr. pose proof (Z.div_mod (size + r) 4096). pose proof (Z.mod_pos_bound (size + r) 4096).
    set (q := (size + r) mod 4096) in *.
    assert (Hoff : (offset - r) mod 4096 = 0).
    { replace (offset - r) with ((offset / 4096) * 4096) by lia. apply Z.mod_mul. lia. }
    destruct (Z.eqb_spec q 0) as [E|E]; cbn [negb].
    - eexists _, _, _. split; [done|]. fold q. rewrite E. lia.
    - rewrite size_add by (unfold SIZE_MOD; lia). eexists _, _, _. split; [done|].
      assert ((size + r + (4096 - q)) mod 4096 = 0).
      { replace (size + r + (4096 - q)) with (((size + r) / 4096 + 1) * 4096) by lia. apply Z.mod_mul. lia. }
      lia. }
  destruct notAligned; [exact Hgo|]. cbn [orb].
  destruct (size mod 4096 =? 0) eqn:E1; cbn [andb].
  - destruct (offset mod 4096 =? 0) eqn:E2.
    + destruct Hgo as (s & o & r & Hrun & Hrest). exists s, o, r. split; [|exact Hrest].
      rewrite <- Hrun. unfold checkAndSetAlign, UMMAP_PAGE_SIZE. cbn [negb]. by rewrite E1, E2.
    + unfold checkAndSetAlign, UMMAP_PAGE_SIZE. cbn [negb]. rewrite E1, E2. by eexists.
  - unfold checkAndSetAlign, UMMAP_PAGE_SIZE. cbn [negb]. rewrite E1. by eexists.
Qed.

Lemma mmap_align_covers_witness :
  ∃ size' offset' shift, checkAndSetAlign true 100 5000 = Ok (size', offset', shift) ∧
    offset' + shift = 5000 ∧ 5100 ≤ offset' + size'.
Proof.
  destruct (mmap_align_covers true 100 5000) as (s & o & r & Hrun & _ & _ & Ho & _ & Hs & _);
    [lia|lia|unfold UMMAP_PAGE_SIZE, SIZE_MOD; lia|].
  exists s, o, r. split; [exact Hrun|]. split; [exact Ho|exact Hs].
Defined.

(** ** The sync of a C driver *)

(** A C driver that stores bytes, whose [sync] does nothing. *)
Definition demo_c_functions : ummap_c_driver_t (list Z) := {|
  c_pwrite s v buffer size offset := (size, store_at s offset (read_bytes v buffer size));
  c_pread s v buffer size offset :=
    (size, (s, write_bytes v buffer (take (Z.to_nat size) (drop (Z.to_nat offset) s))));
  c_sync s v ptr offset size := (s, v);
  c_direct_mmap := None; c_direct_munmap := None; c_direct_msync := None;
  c_finalize s := s |}.

(** Two pages of bytes 7 and 9, mapped; the program reads the first byte of each. *)
Definition demo_c_open : result (Mapping * vm * CDriver (list Z)) :=
  '(m, v, d) ← newMapping 1 (Some 65536) (mkVm (λ _, 0) (λ _, None))
      (newCDriver demo_c_functions (replicate 4096 7 ++ replicate 4096 9)) 8192 4096 0
      (mkProt true true false) UMMAP_THREAD_UNSAFE;
  '(_, (m1, v1, d1)) ← load [None] m v d 0;
  Ok (m1, v1, d1).

(** What the program reads at the first byte, without a fault. *)
Definition first_byte (s : result (Mapping * vm * CDriver (list Z))) : result Z :=
  '(m, v, d) ← s; '(b, _) ← load [] m v d 0; Ok b.

Definition demo_c_flush (flags : Z) : result (Mapping * vm * CDriver (list Z)) :=
  '(m, v, d) ← demo_c_open; flush m v d 4096 4096 flags.

(** A [flush] with sync of the second page of a mapping on a C driver that
    stores bytes overwrites the first page in memory with the bytes of the second,
    because [CDriver::sync] calls the read function with the size and the offset
    exchanged, instead of the sync function; without sync the first page is kept. *)
Theorem cdriver_sync_overwrites_memory :
  first_byte demo_c_open = Ok 7 ∧
  first_byte (demo_c_flush UMMAP_FLUSH_DEFAULT) = Ok 7 ∧
  first_byte (demo_c_flush UMMAP_FLUSH_SYNC) = Ok 9.
Proof. split; [|split]; vm_compute; reflexivity. Qed.
