(* ===== verification/ClovisDriver.v ===== *)
(** * The driver on Mero and Motr objects (src/src/drivers/ClovisDriver.cpp)

    [ClovisDriver] stores in an object, through the client library of Mero (vectors of
    extents) or of Motr (one call).  The calls of the client libraries are operations of
    the class [Mero]; what is known of the store is the class [MeroObjects], with a
    concrete store as an instance. *)

From S2P Require Import Prelude OS Driver.

(** ** ClovisDriver *)

Definition CLOVIS_MAX_DATA_UNIT_PER_OPS : Z := 50.

Record m0_uint128 := mkUint128 { u_hi : Z; u_lo : Z }.

#[export] Instance m0_uint128_eq_dec : EqDecision m0_uint128.
Proof. solve_decision. Defined.

(** The libraries the build found. *)
Inductive MeroBuild := HAVE_MOTR | HAVE_MERO | NO_MERO.

(** The client libraries; an extent is an index in the object and a count of bytes. *)
Class Mero (K : Type) := {
  mero_build : MeroBuild;
  create_object : K → m0_uint128 → K;
  (** The size of a data unit for the default layout of the client. *)
  layout_unit_size : K → Z;
  read_data_from_object : K → m0_uint128 → list (Z * Z) → Z * list (list Z) * K;
  write_data_to_object : K → m0_uint128 → list (Z * Z) → list (list Z) → Z * K;
  (** Motr: the best block size, and transfers of [cnt] blocks of [bsz] bytes. *)
  c0appz_m0bs : K → m0_uint128 → Z → Z → Z;
  c0appz_mr : K → m0_uint128 → Z → Z → Z → Z → Z * list Z * K;
  c0appz_mw : K → m0_uint128 → list Z → Z → Z → Z → Z → Z * K;
}.

Section Clovis.
Context {K : Type} `{Mero K}.

Record ClovisDriver := mkClovis {
  clovis_base : DriverBase; m_object_id : m0_uint128; clovis_store : K;
}.

Definition clovis_set_store (d : ClovisDriver) (k : K) : ClovisDriver :=
  mkClovis (clovis_base d) (m_object_id d) k.

(** The constructor from a [struct m0_uint128], and the one from two [int64_t]. *)
Definition newClovisDriver_id (k : K) (id : m0_uint128) (create : bool) : ClovisDriver :=
  mkClovis newDriver id (if create then create_object k id else k).
Definition newClovisDriver (k : K) (high low : Z) (create : bool) : ClovisDriver :=
  newClovisDriver_id k (mkUint128 (wrap high) (wrap low)) create.

Definition setObjectId (d : ClovisDriver) (high low : Z) : ClovisDriver :=
  mkClovis (clovis_base d) (mkUint128 (wrap high) (wrap low)) (clovis_store d).

(** The extents of one operation, and [last_index] after them.  The index is an [int]
    stored in 64 bits. *)
Fixpoint batch_extents (n : nat) (last_index units : Z) : list (Z * Z) * Z :=
  match n with
  | O => ([], last_index)
  | S n' => let '(ext, last) := batch_extents n' (to_int (last_index ⊕ units)) units in
            ((wrap last_index, units) :: ext, last)
  end.

(** Where unit [i] of operation [j] is in the buffer. *)
Definition unit_address (char_buf units j block_size i : Z) : Z :=
  char_buf + (i ⊗ units) + ((j * block_size) ⊗ units).

(** How many data units the loops have to treat, and their size. *)
Definition data_units (layout size : Z) : result (Z * Z) :=
  cassert (0 <? layout) "data_units_size > 0";;
  if size <? layout then Ok (size, 1)
  else
    cassert (size mod layout =? 0) "We don't handle the case where the IO size is not a multiple of the data units";;
    Ok (layout, to_int (size / layout)).

Definition block_size_of (total : Z) : Z :=
  if CLOVIS_MAX_DATA_UNIT_PER_OPS <? total then CLOVIS_MAX_DATA_UNIT_PER_OPS else total.

(** The copy from the vectors to the buffer. *)
Fixpoint copy_units (v : vm) (addr : Z → Z) (i : Z) (data : list (list Z)) : vm :=
  match data with
  | [] => v
  | bytes :: data' => copy_units (write_bytes v (addr i) bytes) addr (i + 1) data'
  end.

Fixpoint clovis_readLoop (fuel : nat) (k : K) (v : vm) (id : m0_uint128)
    (char_buf units total last_index j : Z) : result (Z * K * vm) :=
  if 0 <? total then
    match fuel with
    | O => Err OutOfFuel
    | S fuel =>
        let block_size := block_size_of total in
        let '(ext, last) := batch_extents (Z.to_nat block_size) last_index units in
        let '(ret, data, k') := read_data_from_object k id ext in
        if negb (ret =? 0) then Ok (ret, k', v)
        else clovis_readLoop fuel k' (copy_units v (unit_address char_buf units j block_size) 0 data) id
               char_buf units (total - block_size) last (j + 1)
    end
  else Ok (0, k, v).

Fixpoint clovis_writeLoop (fuel : nat) (k : K) (v : vm) (id : m0_uint128)
    (char_buf units total last_index j : Z) : result (Z * K) :=
  if 0 <? total then
    match fuel with
    | O => Err OutOfFuel
    | S fuel =>
        let block_size := block_size_of total in
        let '(ext, last) := batch_extents (Z.to_nat block_size) last_index units in
        let data := (λ i, read_bytes v (unit_address char_buf units j block_size i) units)
                      <$> seqZ 0 block_size in
        let '(ret, k') := write_data_to_object k id ext data in
        if negb (ret =? 0) then Ok (ret, k')
        else clovis_writeLoop fuel k' v id char_buf units (total - block_size) last (j + 1)
    end
  else Ok (0, k).

Definition clovis_pread (d : ClovisDriver) (v : vm) (buffer size offset : Z)
    : result (Z * (ClovisDriver * vm)) :=
  let id := m_object_id d in
  let k := clovis_store d in
  cassert (negb (buffer =? 0)) "buffer != NULL";;
  match mero_build with
  | HAVE_MOTR =>
      assume (size mod 4096 =? 0) "Clovis driver work only with size multiple of the page size !";;
      assume (offset mod 4096 =? 0) "Clovis driver work only with offset multiple of the page size !";;
      let m0bs := c0appz_m0bs k id size 0 in
      let '(ret, data, k') := c0appz_mr k id offset 4096 (size / 4096) m0bs in
      let d' := (clovis_set_store d k', write_bytes v buffer data) in
      if ret =? 0 then Ok (to_signed size, d') else Ok (-1, d')
  | HAVE_MERO =>
      '(units, total) ← data_units (layout_unit_size k) size;
      '(ret, k', v') ← clovis_readLoop (Z.to_nat total) k v id buffer units total (to_int offset) 0;
      let d' := (clovis_set_store d k', v') in
      if ret =? 0 then Ok (to_signed size, d') else Ok (-1, d')
  | NO_MERO => Ok (-1, (d, v))
  end.

Definition clovis_pwrite (d : ClovisDriver) (v : vm) (buffer size offset : Z)
    : result (Z * ClovisDriver) :=
  let id := m_object_id d in
  let k := clovis_store d in
  cassert (negb (buffer =? 0)) "buffer != NULL";;
  match mero_build with
  | HAVE_MOTR =>
      assume (size mod 4096 =? 0) "Motr driver work only with size multiple of the page size, got %1 !";;
      assume (offset mod 4096 =? 0) "Motr driver work only with offset multiple of the page size, got %1 !";;
      let m0bs := c0appz_m0bs k id size 0 in
      let '(ret, k') := c0appz_mw k id (read_bytes v buffer size) offset 4096 (size / 4096) m0bs in
      if ret =? 0 then Ok (to_signed size, clovis_set_store d k') else Ok (-1, clovis_set_store d k')
  | HAVE_MERO =>
      '(units, total) ← data_units (layout_unit_size k) size;
      '(ret, k') ← clovis_writeLoop (Z.to_nat total) k v id buffer units total (to_int offset) 0;
      if ret =? 0 then Ok (to_signed size, clovis_set_store d k') else Ok (-1, clovis_set_store d k')
  | NO_MERO => Ok (-1, d)
  end.

Definition clovis_sync (d : ClovisDriver) (v : vm) (ptr offset size : Z) : result (ClovisDriver * vm) :=
  Ok (d, v).

#[export] Instance ClovisDriver_ops : DriverOps ClovisDriver := {
  driver_base := clovis_base;
  pwrite := clovis_pwrite; pread := clovis_pread; dsync := clovis_sync;
  directMmap := base_directMmap; directMunmap := base_directMunmap;
  directMSync := base_directMSync; establish_mapping := base_establish_mapping;
  erase_mapping := base_erase_mapping; checkThreadSafety := base_checkThreadSafety }.
End Clovis.
Arguments ClovisDriver : clear implicits.

(** ** What is known of the stores *)

(** Bytes laid over a function from offsets to bytes, one extent after the other. *)
Definition store_over (f : Z → Z) (off : Z) (bytes : list Z) (x : Z) : Z :=
  if in_range off (Z.of_nat (length bytes)) x then default 0 (bytes !! Z.to_nat (x - off)) else f x.
Definition overlay (f : Z → Z) (ext : list (Z * Z)) (data : list (list Z)) : Z → Z :=
  foldl (λ f p, store_over f (fst (fst p)) (snd p)) f (zip ext data).

Definition slice (f : Z → Z) (off n : Z) : list Z := (λ i, f (off + i)) <$> seqZ 0 n.

(** An extent a store accepts. *)
Definition extent_ok (e : Z * Z) : Prop := 0 ≤ fst e ∧ 0 < snd e ∧ fst e + snd e ≤ 2 ^ 63.

(** What the clients promise while the store answers. *)
Class MeroObjects (K : Type) `{Mero K} := {
  object_byte : K → m0_uint128 → Z → Z;
  store_ok : K → Prop;
  layout_law k : store_ok k → 0 < layout_unit_size k < 2 ^ 31;
  read_law k id ext :
    store_ok k → Forall extent_ok ext →
    read_data_from_object k id ext = (0, (λ e, slice (object_byte k id) (fst e) (snd e)) <$> ext, k);
  write_law k id ext data :
    store_ok k → Forall extent_ok ext → Forall2 (λ e bytes, Z.of_nat (length bytes) = snd e) ext data →
    ∃ k', write_data_to_object k id ext data = (0, k') ∧ store_ok k' ∧
      layout_unit_size k' = layout_unit_size k ∧
      ∀ id' x, object_byte k' id' x =
        if decide (id' = id) then overlay (object_byte k id) ext data x else object_byte k id' x;
  mr_law k id off bsz cnt m0bs :
    store_ok k → extent_ok (off, bsz * cnt) →
    c0appz_mr k id off bsz cnt m0bs = (0, slice (object_byte k id) off (bsz * cnt), k);
  mw_law k id bytes off bsz cnt m0bs :
    store_ok k → extent_ok (off, bsz * cnt) → Z.of_nat (length bytes) = bsz * cnt →
    ∃ k', c0appz_mw k id bytes off bsz cnt m0bs = (0, k') ∧ store_ok k' ∧
      layout_unit_size k' = layout_unit_size k ∧
      ∀ id' x, object_byte k' id' x =
        if decide (id' = id) then store_over (object_byte k id) off bytes x else object_byte k id' x;
}.

(** ** Bytes in units *)

Lemma length_slice f off n : 0 ≤ n → Z.of_nat (length (slice f off n)) = n.
Proof. intros. unfold slice. rewrite length_fmap, length_seqZ. lia. Qed.

Lemma slice_lookup f off n i : 0 ≤ i < n → slice f off n !! Z.to_nat i = Some (f (off + i)).
Proof.
  intros Hi. unfold slice. rewrite list_lookup_fmap, lookup_seqZ_lt by lia. cbn. do 2 f_equal. lia.
Qed.

Lemma store_over_slice f off g base n x :
  0 ≤ n → store_over f off (slice g base n) x = if in_range off n x then g (base + (x - off)) else f x.
Proof.
  intros Hn. unfold store_over. rewrite length_slice by done. case_range; [|done].
  by rewrite slice_lookup by lia.
Qed.

Lemma read_bytes_slice v ptr n : read_bytes v ptr n = slice (vm_mem v) ptr n.
Proof. reflexivity. Qed.

(** The unit that holds an offset. *)
Lemma unit_of y u q : 0 < u → q * u ≤ y < (q + 1) * u → y / u = q ∧ y mod u = y - q * u.
Proof.
  intros Hu Hy. assert (y / u = q) as <-; [|split; [done|rewrite Z.mod_eq by lia; ring]].
  symmetry. apply (Z.div_unique y u q (y - q * u)); lia.
Qed.

(** Consecutive units cover a range, each with its own source. *)
Lemma overlay_units f o u (n : nat) g src x :
  0 < u →
  overlay f ((λ i, (o + i * u, u)) <$> seqZ 0 (Z.of_nat n)) ((λ i, slice g (src i) u) <$> seqZ 0 (Z.of_nat n)) x =
  if in_range o (Z.of_nat n * u) x then g (src ((x - o) / u) + (x - o) mod u) else f x.
Proof.
  intros Hu. revert x. induction n as [|n IH]; intros x.
  - cbn. case_range; [lia|done].
  - rewrite seqZ_S, !fmap_app. unfold overlay in *. cbn [fmap list_fmap].
    rewrite zip_with_app by (by rewrite !length_fmap). rewrite foldl_app. cbn [zip zip_with foldl fst snd].
    rewrite store_over_slice by lia. rewrite IH. rewrite Z.add_0_l.
    destruct (in_range (o + _) u x) eqn:E.
    + apply in_range_spec in E. destruct (unit_of (x - o) u (Z.of_nat n)) as [-> ->]; [lia|nia|].
      case_range; [f_equal; ring|nia].
    + apply in_range_false in E. case_range; [done|nia|nia|done].
Qed.


(** ** The batches of Mero *)

Lemma batch_extents_ok n o u :
  0 ≤ o → 0 < u → o + Z.of_nat n * u < 2 ^ 31 →
  batch_extents n o u = ((λ i, (o + i * u, u)) <$> seqZ 0 (Z.of_nat n), o + Z.of_nat n * u).
Proof.
  intros Ho Hu. revert o Ho. induction n as [|n IH]; intros o Ho Hn; [cbn; f_equal; lia|].
  assert (0 ≤ Z.of_nat n * u) by lia.
  rewrite (seqZ_cons 0) by lia. rewrite Nat2Z.inj_succ, Z.pred_succ in *. cbn [batch_extents fmap list_fmap].
  rewrite size_add by (unfold SIZE_MOD; lia). rewrite to_int_small by lia.
  rewrite IH by lia. rewrite wrap_small by (unfold is_size, SIZE_MOD; lia).
  f_equal; [|lia]. f_equal; [f_equal; lia|]. rewrite <- (fmap_add_seqZ 1 0), <- list_fmap_compose.
  apply list_fmap_ext. intros i x _. cbn. f_equal. lia.
Qed.

Lemma extents_ok o u n : 0 ≤ o → 0 < u → o + n * u < 2 ^ 31 →
  Forall extent_ok ((λ i, (o + i * u, u)) <$> seqZ 0 n).
Proof.
  intros Ho Hu Hn. apply Forall_fmap, Forall_forall. intros i Hi%elem_of_seqZ. unfold extent_ok. cbn. nia.
Qed.

Lemma block_size_bounds total : 0 < total → 0 < block_size_of total ≤ total ∧ block_size_of total ≤ 50.
Proof. unfold block_size_of, CLOVIS_MAX_DATA_UNIT_PER_OPS. intros. destruct (Z.ltb_spec 50 total); lia. Qed.

Lemma unit_address_small b u j bs i :
  0 < u → 0 ≤ i → 0 ≤ j → 0 ≤ bs → i * u < 2 ^ 31 → (j * bs) * u < 2 ^ 31 →
  unit_address b u j bs i = b + (i + j * bs) * u.
Proof.
  intros. unfold unit_address. rewrite !wrap_small by (unfold is_size, SIZE_MOD; nia). lia.
Qed.

(** Unit [q] of the range, in operation [j + q / 50], comes from this unit of the buffer:
    the operations of 50 units are where they should be, a last smaller one is not. *)
Definition source_unit (total j q : Z) : Z :=
  q mod 50 + (j + q / 50) * block_size_of (total - 50 * (q / 50)).

Lemma source_unit_first total j q : 0 ≤ q < 50 → source_unit total j q = q + j * block_size_of total.
Proof. intros Hq. unfold source_unit. rewrite Z.mod_small, Z.div_small by lia. do 2 f_equal; f_equal; lia. Qed.

Lemma source_unit_next total j q : 50 ≤ q → source_unit total j q = source_unit (total - 50) (j + 1) (q - 50).
Proof.
  intros Hq. unfold source_unit. replace q with (q - 50 + 1 * 50) at 1 2 3 by lia.
  rewrite Z.mod_add, Z.div_add by lia. f_equal. f_equal; [lia|]. f_equal. lia.
Qed.

Section ClovisSpec.
Context {K : Type} `{MeroObjects K}.

(** What an operation of the write loop does. *)
Lemma write_batch k v id b u j n o :
  store_ok k → 0 < u → 0 < n → 0 ≤ o → o + n * u < 2 ^ 31 → 0 ≤ j → (j * n) * u < 2 ^ 31 →
  ∃ k', write_data_to_object k id ((λ i, (o + i * u, u)) <$> seqZ 0 n)
          ((λ i, read_bytes v (unit_address b u j n i) u) <$> seqZ 0 n) = (0, k') ∧
    store_ok k' ∧ layout_unit_size k' = layout_unit_size k ∧
    ∀ id' x, object_byte k' id' x =
      if decide (id' = id ∧ o ≤ x < o + n * u)
      then vm_mem v (b + ((x - o) / u + j * n) * u + (x - o) mod u) else object_byte k id' x.
Proof.
  intros Hk Hu Hn Ho Hlt Hj Hjn.
  destruct (write_law k id ((λ i, (o + i * u, u)) <$> seqZ 0 n)
    ((λ i, read_bytes v (unit_address b u j n i) u) <$> seqZ 0 n)) as (k' & Hrun & Hk' & Hl & Hobj);
    [done|by apply extents_ok| |].
  { apply Forall2_fmap, Forall_Forall2_diag, Forall_forall. intros i _. cbn. apply length_read_bytes. lia. }
  exists k'. split; [done|]. split; [done|]. split; [done|]. intros id' x. rewrite Hobj.
  destruct (decide (id' = id)) as [->|Hid]; [|rewrite decide_False; [done|tauto]].
  assert (n = Z.of_nat (Z.to_nat n)) as En by lia. rewrite En at 1 2.
  setoid_rewrite read_bytes_slice.
  rewrite (overlay_units _ o u (Z.to_nat n) (vm_mem v) (λ i, unit_address b u j n i)) by done.
  rewrite <- En. destruct (in_range o (n * u) x) eqn:E.
  - apply in_range_spec in E. rewrite decide_True by done.
    assert (0 ≤ (x - o) / u < n) by (split; [apply Z.div_pos; lia|apply Z.div_lt_upper_bound; lia]).
    rewrite unit_address_small by nia. f_equal.
  - apply in_range_false in E. by rewrite decide_False by tauto.
Qed.

Lemma writeLoop_ok fuel k v id b u total o j :
  store_ok k → 0 < u → 0 ≤ total → (Z.to_nat total ≤ fuel)%nat → 0 ≤ o → o + total * u < 2 ^ 31 →
  0 ≤ j → (total = 0 ∨ (50 * j + total) * u < 2 ^ 31) →
  ∃ k', clovis_writeLoop fuel k v id b u total o j = Ok (0, k') ∧
    store_ok k' ∧ layout_unit_size k' = layout_unit_size k ∧
    ∀ id' x, object_byte k' id' x =
      if decide (id' = id ∧ o ≤ x < o + total * u)
      then vm_mem v (b + source_unit total j ((x - o) / u) * u + (x - o) mod u) else object_byte k id' x.
Proof.
  intros Hk Hu. revert k total o j Hk. induction fuel as [|fuel IH]; intros k total o j Hk Ht Hf Ho Hlt Hj Hjb;
    cbn [clovis_writeLoop]; destruct (Z.ltb_spec 0 total) as [Hpos|Hz]; try lia.
  1,3: exists k; split; [done|]; split; [done|]; split; [done|]; intros id' x; rewrite decide_False; [done|];
    replace total with 0 by lia; lia.
  destruct Hjb as [Hjb|Hjb]; [lia|].
  assert (block_size_of total = total ∨ block_size_of total = 50) as Hcase.
  { unfold block_size_of, CLOVIS_MAX_DATA_UNIT_PER_OPS. destruct (50 <? total); tauto. }
  destruct (block_size_bounds total Hpos) as [Hb1 Hb2]. set (bs := block_size_of total) in *.
  rewrite batch_extents_ok by nia. rewrite Z2Nat.id by lia.
  destruct (write_batch k v id b u j bs o) as (k1 & -> & Hk1 & Hl1 & Hobj1); try nia; try done.
  cbn [negb Z.eqb].
  destruct (IH k1 (total - bs) (o + bs * u) (j + 1)) as (k2 & Hrun & Hk2 & Hl2 & Hobj2);
    [done|nia|lia|nia|nia|lia|destruct Hcase as [->| ->]; [left; lia|right; nia]|].
  exists k2. split; [exact Hrun|]. split; [done|]. split; [congruence|]. intros id' x. rewrite Hobj2, Hobj1.
  destruct (decide (id' = id)) as [->|Hid]; [|by rewrite !decide_False by tauto].
  assert (bs * u ≤ total * u) by nia. destruct (decide (x < o + bs * u)) as [Hx|Hx].
  - rewrite decide_False by lia. destruct (decide (o ≤ x)) as [Hox|Hox].
    2: by rewrite !decide_False by lia.
    rewrite !decide_True by (split; [done|lia]). f_equal.
    assert (0 ≤ (x - o) / u < bs) by (split; [apply Z.div_pos; lia|apply Z.div_lt_upper_bound; lia]).
    rewrite source_unit_first by lia. done.
  - rewrite (decide_False (P := _ ∧ o ≤ x < o + bs * u)) by lia.
    destruct (decide (x < o + total * u)) as [Hxt|Hxt]; [|by rewrite !decide_False by lia].
    rewrite (decide_True (P := _ ∧ o ≤ x < o + total * u)) by (split; [done|lia]).
    rewrite decide_True by (split; [done|lia]).
    assert (bs = 50) as Hbs.
    { destruct Hcase as [E|E]; [rewrite E in *; lia|done]. }
    rewrite Hbs in *. assert (50 ≤ (x - o) / u) by (apply Z.div_le_lower_bound; lia).
    rewrite (source_unit_next total) by done.
    replace (x - (o + 50 * u)) with (x - o + (-50) * u) by lia. rewrite Z.mod_add, Z.div_add by lia.
    done.
Qed.




Lemma data_units_ok layout size :
  0 < layout → 0 < size < 2 ^ 31 → (size < layout ∨ size mod layout = 0) →
  ∃ units total, data_units layout size = Ok (units, total) ∧ 0 < units ∧ 0 < total ∧ total * units = size ∧
    (size < layout ∧ total = 1 ∨ layout ≤ size ∧ total = size / layout ∧ units = layout).
Proof.
  intros Hl Hs Hm. unfold data_units. destruct (Z.ltb_spec 0 layout); [|lia]. cbn [cassert mbind result_bind].
  destruct (Z.ltb_spec size layout); [exists size, 1; split; [done|lia]|].
  destruct Hm as [?|Hm]; [lia|]. rewrite Hm. cbn. pose proof (Z.div_str_pos size layout ltac:(lia)).
  assert (size = layout * (size / layout)) by (pose proof (Z.div_mod size layout); lia).
  eexists _, _. split; [reflexivity|]. rewrite to_int_small by nia. lia.
Qed.



(** The operations of Mero, for any number of units. *)
Lemma clovis_pwrite_mero d v buf size off units total :
  mero_build (K := K) = HAVE_MERO → store_ok (clovis_store d) → buf ≠ 0 →
  data_units (layout_unit_size (clovis_store d)) size = Ok (units, total) →
  0 < units → 0 < total → total * units = size → 0 ≤ off → off + size < 2 ^ 31 →
  ∃ k', clovis_pwrite d v buf size off = Ok (to_signed size, clovis_set_store d k') ∧
    ∀ id x, object_byte k' id x =
      if decide (id = m_object_id d ∧ off ≤ x < off + size)
      then vm_mem v (buf + source_unit total 0 ((x - off) / units) * units + (x - off) mod units)
      else object_byte (clovis_store d) id x.
Proof.
  intros Hb Hk Hbuf Hdu Hu Ht Hs Ho Hlt. unfold clovis_pwrite. rewrite Hb.
  apply Z.eqb_neq in Hbuf. rewrite Hbuf. cbn [negb cassert mbind result_bind]. rewrite Hdu. cbn [mbind result_bind].
  rewrite to_int_small by nia.
  destruct (writeLoop_ok (Z.to_nat total) (clovis_store d) v (m_object_id d) buf units total off 0)
    as (k' & -> & Hk' & Hl & Hobj); try done; try lia.
  cbn. exists k'. split; [done|]. intros id x. by rewrite Hobj, Hs.
Qed.


End ClovisSpec.

(** ** A concrete store *)

(** Objects of bytes in memory and a size of data unit; the build is in the type. *)
Record ObjectStore (b : MeroBuild) := mkStore { os_unit : Z; os_objects : m0_uint128 → Z → Z }.
Arguments mkStore {b}.
Arguments os_unit {b}.
Arguments os_objects {b}.

Definition store_put {b} (k : ObjectStore b) (id : m0_uint128) (f : Z → Z) : ObjectStore b :=
  mkStore (os_unit k) (λ id' x, if decide (id' = id) then f x else os_objects k id' x).

#[export] Instance ObjectStore_mero b : Mero (ObjectStore b) := {
  mero_build := b;
  create_object k _ := k;
  layout_unit_size := os_unit;
  read_data_from_object k id ext := (0, (λ e, slice (os_objects k id) (fst e) (snd e)) <$> ext, k);
  write_data_to_object k id ext data := (0, store_put k id (overlay (os_objects k id) ext data));
  c0appz_m0bs _ _ _ _ := 4096;
  c0appz_mr k id off bsz cnt _ := (0, slice (os_objects k id) off (bsz * cnt), k);
  c0appz_mw k id bytes off _ _ _ := (0, store_put k id (store_over (os_objects k id) off bytes));
}.

#[export] Instance ObjectStore_objects b : MeroObjects (ObjectStore b).
Proof.
  refine {| object_byte := os_objects; store_ok k := 0 < os_unit k < 2 ^ 31 |}; try done.
  - intros k id ext data Hk _ _. by eexists.
  - intros k id bytes off bsz cnt m0bs Hk _ _. by eexists.
Defined.

(** An address space where the byte at [a] is [a mod 251]. *)
Definition pattern_vm : vm := mkVm (λ a, a mod 251) (λ _, None).
Definition demo_object : m0_uint128 := mkUint128 7 9.
(** Data units of two bytes. *)
Definition demo_clovis : ClovisDriver (ObjectStore HAVE_MERO) :=
  newClovisDriver (mkStore 2 (λ _ _, 0)) 7 9 true.

Section ClovisTheorems.
Context {K : Type} `{MeroObjects K}.


(** C40: The Mero loops misplace a last operation of fewer than 50 units.  The offset in the
    buffer is computed with the number of units of the current operation, so after [k]
    operations of 50 units a last one of [r] units takes its bytes from unit [k * r] of
    the buffer instead of unit [50 * k]; the write still returns the full size. *)
Theorem clovis_partial_batch_misplaced (d : ClovisDriver K) v buf k r off :
  let u := layout_unit_size (clovis_store d) in
  let size := (50 * k + r) * u in
  mero_build (K := K) = HAVE_MERO → store_ok (clovis_store d) → buf ≠ 0 →
  0 < k → 0 < r < 50 → 0 ≤ off → off + size < 2 ^ 31 →
  ∃ d', clovis_pwrite d v buf size off = Ok (to_signed size, d') ∧
    ∀ i y, 0 ≤ i < r → 0 ≤ y < u →
      object_byte (clovis_store d') (m_object_id d) (off + (50 * k + i) * u + y) =
      vm_mem v (buf + (k * r + i) * u + y).
Proof.
  intros u size Hb Hk Hbuf Hk0 Hr Ho Hlt. pose proof (layout_law _ Hk) as Hu. fold u in Hu.
  assert (size mod u = 0) as Hm by (apply Z.mod_mul; lia).
  destruct (data_units_ok u size) as (units & total & Hdu & _ & Ht & Hsz & Hcase); [lia|nia|lia|].
  assert (total = 50 * k + r ∧ units = u) as [-> ->].
  { destruct Hcase as [[? ?]|(? & -> & ->)]; [nia|]. split; [apply Z.div_mul; lia|done]. }
  destruct (clovis_pwrite_mero d v buf size off u (50 * k + r)) as (k' & Hrun & Hobj); try done; try lia.
  eexists. split; [exact Hrun|]. intros i y Hi Hy. cbn [clovis_store clovis_set_store]. rewrite Hobj.
  rewrite decide_True by (split; [done|nia]).
  destruct (unit_of (off + (50 * k + i) * u + y - off) u (50 * k + i)) as [-> ->]; [lia|nia|].
  replace (source_unit (50 * k + r) 0 (50 * k + i)) with (k * r + i); [f_equal; lia|].
  unfold source_unit. replace (50 * k + i) with (i + k * 50) by lia.
  rewrite Z.mod_add, Z.div_add, Z.mod_small, Z.div_small by lia. rewrite !Z.add_0_l.
  replace (50 * k + r - 50 * k) with r by lia. unfold block_size_of, CLOVIS_MAX_DATA_UNIT_PER_OPS.
  destruct (Z.ltb_spec 50 r); lia.
Qed.
End ClovisTheorems.


(** 60 units of two bytes: unit 50 of the object is unit 10 of the buffer. *)
Lemma clovis_partial_batch_misplaced_witness :
  ∃ d', clovis_pwrite demo_clovis pattern_vm 4096 120 0 = Ok (120, d') ∧
    os_objects (clovis_store d') demo_object 100 = (4096 + 20) mod 251 ∧
    os_objects (clovis_store d') demo_object 100 ≠ vm_mem pattern_vm (4096 + 100).
Proof.
  destruct (clovis_partial_batch_misplaced demo_clovis pattern_vm 4096 1 10 0) as (d' & Hrun & Hobj);
    [done|done|done|lia|lia|lia|reflexivity|].
  exists d'. split; [exact Hrun|]. pose proof (Hobj 0 0 ltac:(lia) ltac:(cbn; lia)) as E.
  change (os_objects (clovis_store d') demo_object 100 = (4096 + 20) mod 251) in E. split; [exact E|].
  rewrite E. cbn. vm_compute. discriminate.
Defined.
