(* ===== verification/IocDriver.v ===== *)
(** * The driver on objects of an IO catcher (src/src/drivers/IocDriver.cpp)

    [IocDriver] sends every operation to the client library of the IO catcher, registers
    the range of each mapping, and can copy a range to another object on write.  The calls
    of the client library are operations of the class [IocClient]; what is known of the
    objects is the class [IocObjects], with a concrete server as an instance. *)

From S2P Require Import Prelude OS Driver Regex HumanUnits ClovisDriver.

(** ** The client library *)

Class IocClient (K : Type) := {
  ioc_client_obj_create : K → Z → Z → K;
  ioc_client_obj_write : K → Z → Z → list Z → Z → Z * K;
  (** The bytes read come with the returned value. *)
  ioc_client_obj_read : K → Z → Z → Z → Z → Z * list Z * K;
  ioc_client_obj_flush : K → Z → Z → Z → Z → K;
  ioc_client_obj_range_register : K → Z → Z → Z → Z → bool → Z * K;
  ioc_client_obj_range_unregister : K → Z → Z → Z → Z → Z → bool → Z * K;
  ioc_client_obj_cow : K → Z → Z → Z → Z → bool → Z → Z → Z * K;
  (** The status and the release of [uname]. *)
  uname : K → Z * chars;
}.

(** ** The driver *)

Section Ioc.
Context {K : Type} `{IocClient K}.

Record IocDriver := mkIoc { ioc_base : DriverBase; client : K; ioc_high : Z; ioc_low : Z }.

Definition ioc_set_client (d : IocDriver) (k : K) : IocDriver := mkIoc (ioc_base d) k (ioc_high d) (ioc_low d).

Definition newIocDriver (k : K) (high low : Z) (create : bool) : IocDriver :=
  mkIoc newDriver (if create then ioc_client_obj_create k high low else k) high low.

Definition ioc_pwrite (d : IocDriver) (v : vm) (buffer size offset : Z) : result (Z * IocDriver) :=
  let '(n, k') := ioc_client_obj_write (client d) (ioc_high d) (ioc_low d) (read_bytes v buffer size) offset in
  Ok (n, ioc_set_client d k').

(** The loop that touches every page of the buffer. *)
Fixpoint firstTouch (fuel : nat) (v : vm) (buffer size i : Z) : result vm :=
  if i <? size then
    match fuel with
    | O => Err OutOfFuel
    | S fuel => firstTouch fuel (poke v (buffer + i) 0) buffer size (i ⊕ 4096)
    end
  else Ok v.

Definition ioc_pread (d : IocDriver) (v : vm) (buffer size offset : Z) : result (Z * (IocDriver * vm)) :=
  v1 ← firstTouch (Z.to_nat (size / 4096 + 1)) v buffer size 0;
  let '(n, data, k') := ioc_client_obj_read (client d) (ioc_high d) (ioc_low d) size offset in
  Ok (n, (ioc_set_client d k', write_bytes v1 buffer data)).

Definition ioc_sync (d : IocDriver) (v : vm) (ptr offset size : Z) : result (IocDriver * vm) :=
  Ok (ioc_set_client d (ioc_client_obj_flush (client d) (ioc_high d) (ioc_low d) offset size), v).

Definition ioc_establish_mapping (d : IocDriver) (offset size : Z) (write : bool) : result (Z * IocDriver) :=
  let '(id, k') := ioc_client_obj_range_register (client d) (ioc_high d) (ioc_low d) offset size write in
  assume (0 <=? id) "Fail to register range to establish IOC mapping, conflict with another segment already in using on this range in non compatible write mode.";;
  Ok (id, ioc_set_client d k').

Definition ioc_erase_mapping (d : IocDriver) (data offset size : Z) (write : bool) : result IocDriver :=
  let '(res, k') := ioc_client_obj_range_unregister (client d) (to_int data) (ioc_high d) (ioc_low d) offset size write in
  assume (res =? 0) "Fail to unregister the given mapping on the IOC server !";;
  Ok (ioc_set_client d k').

Definition ioc_cow (d : IocDriver) (high low : Z) (allowExist : bool) (offset size : Z)
    : result (Z * IocDriver) :=
  if (ioc_high d =? high) && (ioc_low d =? low) then Ok (0, d)
  else
    let k1 := ioc_client_obj_create (client d) high low in
    let '(status, k2) := ioc_client_obj_cow k1 (ioc_high d) (ioc_low d) high low allowExist offset size in
    assume (status =? 0) "Failed to apply COW (%1:%2 -> %3:%4) [%5:%6] operation of the given driver !";;
    Ok (status, mkIoc (ioc_base d) k2 high low).

Definition switchDestination (d : IocDriver) (high low : Z) : IocDriver :=
  mkIoc (ioc_base d) (ioc_client_obj_create (client d) high low) high low.

(** The static variables of [checkThreadSafety]. *)
Record IocStatic := mkIocStatic { gblChecked : bool; gblHasRecentKernel : bool }.

(** [sscanf(release, "%d.%d.%d", ...) == 3]. *)
Definition scan_version (s : chars) : option (Z * Z * Z) :=
  match scan_int s with
  | Some (major, c1 :: s1) =>
      if negb (code c1 =? 46) then None else
      match scan_int s1 with
      | Some (minor, c2 :: s2) =>
          if negb (code c2 =? 46) then None else
          match scan_int s2 with Some (release, _) => Some (major, minor, release) | None => None end
      | _ => None
      end
  | _ => None
  end.

Definition checkThreadSafety_static (st : IocStatic) (buf : Z * chars) : result (bool * IocStatic) :=
  if negb (gblChecked st) then
    let '(status, release) := buf in
    assume (status =? 0) "Fail to call uname() to check OS version !";;
    match scan_version release with
    | None => Err (Fatal "Fail to parse kernel version: %1")
    | Some (major, _, _) =>
        let recent := 3 <? major in
        if recent then Ok (recent, mkIocStatic true recent)
        else Err (Fatal "You are using 3.X kernel version. IOC is known to lead to kernel deadlock when using ummap-io thread safety semantic, please use UMMAP_THREAD_UNSAFE !")
    end
  else Ok (gblHasRecentKernel st, st).

(** A later call answers like the first one. *)
Lemma checkThreadSafety_cached st buf r st' :
  checkThreadSafety_static st buf = Ok (r, st') → gblChecked st = false →
  r = true ∧ ∀ buf', checkThreadSafety_static st' buf' = Ok (true, st').
Proof.
  unfold checkThreadSafety_static. intros Hrun E. rewrite E in Hrun. cbn [negb] in Hrun. destruct buf as [status release].
  inv_bind Hrun. destruct (scan_version release) as [[[major minor] rel]|]; [|discriminate].
  destruct (3 <? major); [|discriminate]. by inv_ok.
Qed.

Definition ioc_checkThreadSafety (d : IocDriver) : result bool :=
  fst <$> checkThreadSafety_static (mkIocStatic false false) (uname (client d)).

#[export] Instance IocDriver_ops : DriverOps IocDriver := {
  driver_base := ioc_base;
  pwrite := ioc_pwrite; pread := ioc_pread; dsync := ioc_sync;
  directMmap := base_directMmap; directMunmap := base_directMunmap;
  directMSync := base_directMSync; establish_mapping := ioc_establish_mapping;
  erase_mapping := ioc_erase_mapping; checkThreadSafety := ioc_checkThreadSafety }.
End Ioc.
Arguments IocDriver : clear implicits.

(** ** What is known of the objects *)

(** While the server answers it accepts reads and writes; it can refuse a range or a copy. *)
Class IocObjects (K : Type) `{IocClient K} := {
  ioc_byte : K → Z → Z → Z → Z;
  ioc_ok : K → Prop;
  ioc_create_law k hi lo :
    ioc_ok k → ioc_ok (ioc_client_obj_create k hi lo) ∧ ioc_byte (ioc_client_obj_create k hi lo) = ioc_byte k;
  ioc_write_law k hi lo bytes off :
    ioc_ok k → 0 ≤ off →
    ∃ n k', ioc_client_obj_write k hi lo bytes off = (n, k') ∧ 0 ≤ n ∧ ioc_ok k' ∧
      ∀ hi' lo' x, ioc_byte k' hi' lo' x =
        if decide (hi' = hi ∧ lo' = lo) then store_over (ioc_byte k hi lo) off bytes x else ioc_byte k hi' lo' x;
  ioc_read_law k hi lo size off :
    ioc_ok k → 0 ≤ off → 0 ≤ size →
    ∃ n, ioc_client_obj_read k hi lo size off = (n, slice (ioc_byte k hi lo) off size, k) ∧ 0 ≤ n;
  ioc_register_law k hi lo off size w id k' :
    ioc_client_obj_range_register k hi lo off size w = (id, k') → ioc_ok k →
    id < 2 ^ 31 ∧ ioc_ok k' ∧ ioc_byte k' = ioc_byte k;
  (** The destination gets the range of the source. *)
  ioc_cow_law k hi lo hi2 lo2 allow off size k' :
    ioc_client_obj_cow k hi lo hi2 lo2 allow off size = (0, k') → ioc_ok k →
    ioc_ok k' ∧ ∀ hi' lo' x, ioc_byte k' hi' lo' x =
      if decide (hi' = hi2 ∧ lo' = lo2 ∧ off ≤ x < off + size) then ioc_byte k hi lo x
      else ioc_byte k hi' lo' x;
}.

(** ** The operations on the objects *)

Lemma firstTouch_ok fuel v buf size i :
  0 ≤ i → 0 ≤ size < 2 ^ 63 → size ≤ i + 4096 * Z.of_nat fuel →
  ∃ v', firstTouch fuel v buf size i = Ok v' ∧ (∀ a, vm_prot v' a = vm_prot v a) ∧
    ∀ x, in_range buf size x = false → vm_mem v' x = vm_mem v x.
Proof.
  intros Hi Hs. revert v i Hi. induction fuel as [|fuel IH]; intros v i Hi Hf; cbn [firstTouch].
  - destruct (Z.ltb_spec i size); [lia|]. by exists v.
  - destruct (Z.ltb_spec i size); [|by exists v]. rewrite size_add by (unfold SIZE_MOD; lia).
    destruct (IH (poke v (buf + i) 0) (i + 4096)) as (v' & -> & Hp & Hm); [lia|lia|].
    exists v'. split; [done|]. split; [done|]. intros x Hx. rewrite Hm by done. cbn.
    apply in_range_false in Hx. destruct (Z.eqb_spec x (buf + i)); [lia|done].
Qed.

Section IocSpec.
Context {K : Type} `{IocObjects K}.

Lemma ioc_pwrite_ok (d : IocDriver K) v buf size off :
  ioc_ok (client d) → 0 ≤ off → 0 ≤ size →
  ∃ n k', ioc_pwrite d v buf size off = Ok (n, ioc_set_client d k') ∧ 0 ≤ n ∧ ioc_ok k' ∧
    ∀ hi lo x, ioc_byte k' hi lo x =
      if decide (hi = ioc_high d ∧ lo = ioc_low d)
      then store_over (ioc_byte (client d) (ioc_high d) (ioc_low d)) off (read_bytes v buf size) x
      else ioc_byte (client d) hi lo x.
Proof.
  intros Hk Ho Hs. unfold ioc_pwrite.
  destruct (ioc_write_law (client d) (ioc_high d) (ioc_low d) (read_bytes v buf size) off Hk Ho)
    as (n & k' & -> & Hn & Hk' & Hb). by exists n, k'.
Qed.

Lemma ioc_pread_ok (d : IocDriver K) v buf size off :
  ioc_ok (client d) → 0 ≤ off → 0 ≤ size < 2 ^ 63 →
  ∃ n v', ioc_pread d v buf size off = Ok (n, (d, v')) ∧ 0 ≤ n ∧ (∀ a, vm_prot v' a = vm_prot v a) ∧
    ∀ x, vm_mem v' x = if in_range buf size x
                       then ioc_byte (client d) (ioc_high d) (ioc_low d) (off + (x - buf)) else vm_mem v x.
Proof.
  intros Hk Ho Hs. unfold ioc_pread. pose proof (Z.div_mod size 4096 ltac:(lia)).
  pose proof (Z.mod_pos_bound size 4096 ltac:(lia)). pose proof (Z.div_pos size 4096 ltac:(lia) ltac:(lia)).
  destruct (firstTouch_ok (Z.to_nat (size / 4096 + 1)) v buf size 0) as (v1 & -> & Hp & Hm); [lia|lia|lia|].
  destruct (ioc_read_law (client d) (ioc_high d) (ioc_low d) size off Hk Ho) as (n & E & Hn); [lia|].
  cbn [mbind result_bind]. rewrite E. exists n. eexists. split; [by destruct d|]. split; [done|]. split; [done|].
  intros x. cbn. rewrite length_slice by lia. case_range; [by rewrite slice_lookup by lia|].
  apply Hm. by apply in_range_false.
Qed.

(** A sequence of writes (buffer, size, offset) on a function from offsets to bytes. *)
Definition after_writes (v : vm) (ws : list (Z * Z * Z)) (f : Z → Z) : Z → Z :=
  foldl (λ f w, store_over f (snd w) (read_bytes v (fst (fst w)) (snd (fst w)))) f ws.

Lemma after_writes_ext v ws f g :
  (∀ x, f x = g x) → ∀ x, after_writes v ws f x = after_writes v ws g x.
Proof.
  unfold after_writes. revert f g. induction ws as [|w ws IH]; intros f g E; [done|]. cbn. apply IH.
  intros x. unfold store_over. case_range; [done|apply E].
Qed.

(** The same through the driver, as a mapping does it: it stops on a negative result. *)
Definition ioc_writes (d : IocDriver K) (v : vm) (ws : list (Z * Z * Z)) : result (IocDriver K) :=
  foldM (λ d w, '(n, d') ← ioc_pwrite d v (fst (fst w)) (snd (fst w)) (snd w);
                assume (0 <=? n) "Fail to fully write the segment";; Ok d') d ws.

Lemma ioc_writes_ok ws : ∀ (d : IocDriver K) v,
  ioc_ok (client d) → Forall (λ w, 0 ≤ snd (fst w) ∧ 0 ≤ snd w) ws →
  ∃ k', ioc_writes d v ws = Ok (ioc_set_client d k') ∧ ioc_ok k' ∧
    ∀ hi lo x, ioc_byte k' hi lo x =
      if decide (hi = ioc_high d ∧ lo = ioc_low d)
      then after_writes v ws (ioc_byte (client d) (ioc_high d) (ioc_low d)) x
      else ioc_byte (client d) hi lo x.
Proof.
  induction ws as [|w ws IH]; intros d v Hk Hws.
  - exists (client d). split; [by destruct d|]. split; [done|]. intros hi lo x. cbn.
    case_decide as E; [by destruct E as [-> ->]|done].
  - apply Forall_cons in Hws as [[Hsz Hoff] Hws]. unfold ioc_writes. cbn [foldM].
    destruct (ioc_pwrite_ok d v (fst (fst w)) (snd (fst w)) (snd w) Hk Hoff Hsz) as (n & k1 & -> & Hn & Hk1 & Hb1).
    cbn [mbind result_bind]. rewrite (proj2 (Z.leb_le 0 n) Hn). cbn [assume mbind result_bind].
    destruct (IH (ioc_set_client d k1) v Hk1 Hws) as (k2 & Hrun & Hk2 & Hb2).
    exists k2. split; [exact Hrun|]. split; [done|]. intros hi lo x. rewrite Hb2. cbn [ioc_set_client client ioc_high ioc_low].
    destruct (decide (hi = ioc_high d ∧ lo = ioc_low d)) as [E|E]; [|rewrite Hb1; by destruct (decide _)].
    change (after_writes v (w :: ws) ?f x) with
      (after_writes v ws (store_over f (snd w) (read_bytes v (fst (fst w)) (snd (fst w)))) x).
    apply after_writes_ext. intros y. by rewrite Hb1, decide_True.
Qed.

(** C31: [cow] gives the driver its own copy of the object.  When the server accepts the
    copy, the driver moves to the destination, which has the bytes of the source in the
    range; whatever is written through the driver afterwards lands in the destination
    only: the source and every other object keep their bytes, and a read of the range
    through the driver shows the copied bytes under the writes. *)
Theorem ioc_cow_isolates (d : IocDriver K) high low allow off size k1 v ws buf :
  let k0 := client d in
  (high, low) ≠ (ioc_high d, ioc_low d) → ioc_ok k0 → 0 ≤ off → 0 ≤ size < 2 ^ 63 →
  ioc_client_obj_cow (ioc_client_obj_create k0 high low) (ioc_high d) (ioc_low d) high low allow off size = (0, k1) →
  Forall (λ w, 0 ≤ snd (fst w) ∧ 0 ≤ snd w) ws →
  ∃ d1 d2, ioc_cow d high low allow off size = Ok (0, d1) ∧ ioc_writes d1 v ws = Ok d2 ∧
    (∀ hi lo x, (hi, lo) ≠ (high, low) → ioc_byte (client d2) hi lo x = ioc_byte k0 hi lo x) ∧
    ∃ n v', ioc_pread d2 v buf size off = Ok (n, (d2, v')) ∧ 0 ≤ n ∧
      ∀ x, vm_mem v' x =
        if in_range buf size x
        then after_writes v ws (λ y, if in_range off size y then ioc_byte k0 (ioc_high d) (ioc_low d) y
                                     else ioc_byte k0 high low y) (off + (x - buf))
        else vm_mem v x.
Proof.
  intros k0 Hne Hk Hoff Hsize Hcow Hws. unfold ioc_cow.
  assert ((ioc_high d =? high) && (ioc_low d =? low) = false) as ->.
  { apply not_true_is_false. intros [E1%Z.eqb_eq E2%Z.eqb_eq]%andb_true_iff. congruence. }
  fold k0. rewrite Hcow. cbn [assume mbind result_bind Z.eqb].
  destruct (ioc_create_law k0 high low Hk) as [Hc Eb].
  destruct (ioc_cow_law _ _ _ _ _ _ _ _ _ Hcow Hc) as [Hk1 Hb1]. rewrite Eb in Hb1.
  set (d1 := mkIoc (ioc_base d) k1 high low).
  destruct (ioc_writes_ok ws d1 v Hk1 Hws) as (k2 & Hrun & Hk2 & Hb2).
  destruct (ioc_pread_ok (ioc_set_client d1 k2) v buf size off Hk2 Hoff Hsize) as (n & v' & Hread & Hn & _ & Hm).
  exists d1, (ioc_set_client d1 k2). split; [done|]. split; [exact Hrun|]. split.
  - intros hi lo x Hid. cbn [client ioc_set_client]. rewrite Hb2. cbn [ioc_high ioc_low d1 client].
    rewrite decide_False by (by intros [-> ->]). rewrite Hb1, decide_False; [done|]. by intros (-> & -> & _).
  - exists n, v'. split; [exact Hread|]. split; [done|]. intros x. rewrite Hm. case_range; [|done].
    cbn [client ioc_set_client ioc_high ioc_low d1]. rewrite Hb2. cbn [client ioc_high ioc_low d1].
    rewrite decide_True by done. apply after_writes_ext. intros y. rewrite Hb1.
    destruct (in_range off size y) eqn:E; [apply in_range_spec in E|apply in_range_false in E].
    + by rewrite decide_True.
    + by rewrite decide_False by tauto.
Qed.

(** A mapping registers its range and gives it back: the identifier the server returned is
    the one it gets again. *)
Lemma ioc_register_erase (d : IocDriver K) off size w id d1 :
  ioc_ok (client d) → ioc_establish_mapping d off size w = Ok (id, d1) →
  0 ≤ id < 2 ^ 31 ∧ ioc_ok (client d1) ∧ ioc_byte (client d1) = ioc_byte (client d) ∧
  ioc_erase_mapping d1 id off size w =
    (let '(res, k') := ioc_client_obj_range_unregister (client d1) id (ioc_high d) (ioc_low d) off size w in
     assume (res =? 0) "Fail to unregister the given mapping on the IOC server !";; Ok (ioc_set_client d1 k')).
Proof.
  intros Hk. unfold ioc_establish_mapping.
  destruct (ioc_client_obj_range_register (client d) (ioc_high d) (ioc_low d) off size w) as [id' k'] eqn:E.
  intros Hrun. inv_bind Hrun. apply assume_ok_inv, Z.leb_le in Hstep. inv_ok.
  destruct (ioc_register_law _ _ _ _ _ _ _ _ E Hk) as (Hid & Hk' & Hb).
  split; [lia|]. split; [done|]. split; [done|]. unfold ioc_erase_mapping. by rewrite to_int_small by lia.
Qed.
End IocSpec.

(** ** A concrete server *)

(** Objects of bytes, the ranges in use, with their rights, and the release of the system. *)
Record IocServer := mkServer {
  srv_objects : Z → Z → Z → Z; srv_ranges : list (option (Z * Z * Z * Z * bool)); srv_release : chars;
}.

Definition srv_put (k : IocServer) (f : Z → Z → Z → Z) : IocServer := mkServer f (srv_ranges k) (srv_release k).

(** Two ranges of an object overlap and one of them writes. *)
Definition srv_conflict (r1 r2 : Z * Z * Z * Z * bool) : bool :=
  let '(hi1, lo1, o1, s1, w1) := r1 in
  let '(hi2, lo2, o2, s2, w2) := r2 in
  (hi1 =? hi2) && (lo1 =? lo2) && (o1 <? o2 + s2) && (o2 <? o1 + s1) && (w1 || w2).

Definition srv_register (k : IocServer) (r : Z * Z * Z * Z * bool) : Z * IocServer :=
  if existsb (λ o, match o with Some r' => srv_conflict r r' | None => false end) (srv_ranges k) ||
     (2 ^ 31 <=? Z.of_nat (length (srv_ranges k)))
  then (-1, k)
  else (Z.of_nat (length (srv_ranges k)), mkServer (srv_objects k) (srv_ranges k ++ [Some r]) (srv_release k)).

#[export] Instance IocServer_client : IocClient IocServer := {
  ioc_client_obj_create k _ _ := k;
  ioc_client_obj_write k hi lo bytes off :=
    (Z.of_nat (length bytes), srv_put k (λ hi' lo' x,
       if decide (hi' = hi ∧ lo' = lo) then store_over (srv_objects k hi lo) off bytes x else srv_objects k hi' lo' x));
  ioc_client_obj_read k hi lo size off := (size, slice (srv_objects k hi lo) off size, k);
  ioc_client_obj_flush k _ _ _ _ := k;
  ioc_client_obj_range_register k hi lo off size w := srv_register k (hi, lo, off, size, w);
  ioc_client_obj_range_unregister k id hi lo off size w :=
    if bool_decide (srv_ranges k !! Z.to_nat id = Some (Some (hi, lo, off, size, w)))
    then (0, mkServer (srv_objects k) (<[Z.to_nat id := None]> (srv_ranges k)) (srv_release k)) else (-1, k);
  ioc_client_obj_cow k hi lo hi2 lo2 _ off size :=
    (0, srv_put k (λ hi' lo' x, if decide (hi' = hi2 ∧ lo' = lo2 ∧ off ≤ x < off + size)
                                then srv_objects k hi lo x else srv_objects k hi' lo' x));
  uname k := (0, srv_release k);
}.

#[export] Instance IocServer_objects : IocObjects IocServer.
Proof.
  refine {| ioc_byte := srv_objects; ioc_ok _ := True |}; try done.
  - intros k hi lo bytes off _ _. eexists _, _. split; [reflexivity|]. split; [lia|]. done.
  - intros k hi lo size off _ _ Hs. by exists size.
  - intros k hi lo off size w id k'. cbn. unfold srv_register. destruct (existsb _ _ || _) eqn:E.
    + by intros [= <- <-].
    + intros [= <- <-] _. apply orb_false_iff in E as [_ E%Z.leb_gt]. done.
  - intros k hi lo hi2 lo2 allow off size k' [= <-] _. done.
Defined.

(** Object 1:2 holds its offsets modulo 251; it is copied to object 1:3. *)
Definition demo_ioc : IocDriver IocServer :=
  newIocDriver (mkServer (λ hi lo x, if (hi =? 1) && (lo =? 2) then x mod 251 else 0) [] (str "5.4.0-generic")) 1 2 true.

Lemma ioc_cow_isolates_witness :
  ∃ d1 d2 n v', ioc_cow demo_ioc 1 3 true 0 8192 = Ok (0, d1) ∧
    ioc_writes d1 pattern_vm [(4096, 10, 300)] = Ok d2 ∧
    srv_objects (client d2) 1 2 305 = 305 mod 251 ∧
    ioc_pread d2 pattern_vm 16384 8192 0 = Ok (n, (d2, v')) ∧
    vm_mem v' (16384 + 299) = 299 mod 251 ∧ vm_mem v' (16384 + 305) = (4096 + 5) mod 251.
Proof.
  destruct (ioc_cow_isolates demo_ioc 1 3 true 0 8192
    (snd (ioc_client_obj_cow (client demo_ioc) 1 2 1 3 true 0 8192)) pattern_vm [(4096, 10, 300)] 16384)
    as (d1 & d2 & Hcow & Hw & Ho & n & v' & Hr & Hn & Hm);
    [done|exact I|lia|lia|reflexivity|repeat constructor; cbn; lia|].
  exists d1, d2, n, v'. split; [exact Hcow|]. split; [exact Hw|]. split; [exact (Ho 1 2 305 ltac:(done))|].
  split; [exact Hr|]. split; [exact (Hm _)|exact (Hm _)].
Defined.
