(* ===== verification/Listings.v ===== *)
(** * Listings of objects (src/src/uri/Listings.cpp)

    A listing is a text file that gives a name to the objects of a store: one line per
    object, its name, a tabulation and its identifier.  [Listings] reads the files it is
    asked for, draws identifiers for new names and writes every file back when it is
    destroyed.  The files are a map from names to texts; the numbers of [rand] (or of
    [c0appz_generate_id]) are arguments. *)

From Stdlib Require Import Ascii.
From stdpp Require Import sorting.
From S2P Require Import Prelude Regex HumanUnits UriHandler.

(** ** State *)

Abbreviation ObjectMap := (gmap chars ObjectId).
Abbreviation ListingMap := (gmap chars ObjectMap).
(** The text files, by name. *)
Abbreviation TextFiles := (gmap chars chars).

(** The order of [std::map<std::string, ...>]: bytes, the shorter prefix first. *)
Fixpoint string_le (a b : chars) : bool :=
  match a, b with
  | [], _ => true
  | _ :: _, [] => false
  | c :: a', d :: b' => (code c <? code d) || ((code c =? code d) && string_le a' b')
  end.

(** The entries in the order of an iterator. *)
Definition entries {A} (m : gmap chars A) : list (chars * A) :=
  merge_sort (λ x y, string_le (fst x) (fst y)) (map_to_list m).

(** ** Reading *)

Definition newline : ascii := "010"%char.

(** [fgets]: at most [n] characters, up to a newline; the last result is the end of file
    mark of the stream. *)
Fixpoint fgets (n : nat) (s : chars) : chars * chars * bool :=
  match n with
  | O => ([], s, false)
  | S n' => match s with
            | [] => ([], [], true)
            | c :: s' => if bool_decide (c = newline) then ([c], s', false)
                         else let '(line, rest, eof) := fgets n' s' in (c :: line, rest, eof)
            end
  end.

(** A text as a C string. *)
Definition c_str (s : chars) : chars := fst (span (λ c, negb (code c =? 0)) s).

(** [sscanf(buf, "%s\t%ld:%ld", ...) == 3]. *)
Definition scan_line (buf : chars) : option (chars * ObjectId) :=
  let '(objname, rest) := span (λ c, negb (is_space c)) (snd (span is_space (c_str buf))) in
  match objname with
  | [] => None
  | _ => match scan_object_id (snd (span is_space rest)) with
         | Some obj => Some (objname, obj)
         | None => None
         end
  end.

Fixpoint loadLoop (fuel : nat) (store : ObjectMap) (text : chars) (eof : bool) : result ObjectMap :=
  if eof then Ok store
  else
    match fuel with
    | O => Err OutOfFuel
    | S fuel =>
        let '(buf, rest, eof) := fgets 4095 text in
        match buf with
        | [] => loadLoop fuel store rest eof
        | _ =>
            match scan_line buf with
            | Some (objname, obj) => loadLoop fuel (<[objname := obj]> store) rest eof
            | None => Err (Fatal "Invalid format in listing '%1' : %2 ")
            end
        end
    end.

Definition loadListing (files : TextFiles) (listings : ListingMap) (listing : chars) : result ListingMap :=
  let store := default ∅ (listings !! listing) in
  match files !! listing with
  | None => Ok (<[listing := store]> listings)
  | Some text => store' ← loadLoop (S (length text)) store text false; Ok (<[listing := store']> listings)
  end.

(** ** Writing *)

(** [fprintf(fp, "%s\t%lu:%lu\n", ...)]. *)
Definition print_line (it : chars * ObjectId) : chars :=
  c_str (fst it) ++ ["009"%char] ++ show (wrap (high (snd it))) ++ [":"%char] ++
  show (wrap (low (snd it))) ++ [newline].
Definition print_listing (m : ObjectMap) : chars := entries m ≫= print_line.

(** [writable] tells which files [fopen(name, "w+")] can open. *)
Definition saveListing (writable : chars → bool) (files : TextFiles) (listing : ObjectMap) (name : chars)
    : result TextFiles :=
  assume (writable name) "Fail to open listing file '%1' : %2";;
  Ok (<[name := print_listing listing]> files).

Definition saveListings (writable : chars → bool) (files : TextFiles) (listings : ListingMap) : result TextFiles :=
  foldM (λ files it, saveListing writable files (snd it) (fst it)) files (entries listings).

Definition newListings : ListingMap := ∅.
Definition deleteListings : (chars → bool) → TextFiles → ListingMap → result TextFiles := saveListings.

(** ** Identifiers *)

(** Where a new identifier comes from: the status and the values of [c0appz_generate_id],
    or four numbers of [rand]. *)
Inductive IdSource :=
  | GeneratedId (res hi lo : Z)
  | RandomId (r1 r2 r3 r4 : Z).

Definition createId (source : IdSource) : result ObjectId :=
  match source with
  | GeneratedId res hi lo => assume (res =? 0) "Failed to generate object ID !";; Ok (mkObjectId hi lo)
  | RandomId r1 r2 r3 r4 => Ok {| low := Z.shiftl r1 32 + r2; high := Z.shiftl r3 32 + r4 |}
  end.

Definition createObjectId (source : IdSource) (listings : ListingMap) (listing name : chars)
    : result (ObjectId * ListingMap) :=
  id ← createId source;
  Ok (id, <[listing := <[name := id]> (default ∅ (listings !! listing))]> listings).

Definition createListingAndObjectId (source : IdSource) (files : TextFiles) (listings : ListingMap)
    (listing name : chars) : result (ObjectId * ListingMap) :=
  if bool_decide (is_Some (files !! listing)) then
    listings' ← loadListing files listings listing;
    match listings' !! listing ≫= lookup name with
    | Some id => Ok (id, listings')
    | None => createObjectId source listings' listing name
    end
  else createObjectId source listings listing name.

Definition getObjectId (source : IdSource) (files : TextFiles) (listings : ListingMap)
    (listing name : chars) : result (ObjectId * ListingMap) :=
  assume (negb (bool_decide (listing = []))) "Invalid empty listing filename !";;
  assume (negb (bool_decide (name = []))) "Invalid ressource name !";;
  match listings !! listing with
  | None => createListingAndObjectId source files listings listing name
  | Some m =>
      match m !! name with
      | None => createObjectId source listings listing name
      | Some id => Ok (id, listings)
      end
  end.

(** ** Reading back *)

(** A name that is one word of a line of the file, and an identifier [%ld] can read. *)
Definition name_ok (name : chars) : Prop :=
  name ≠ [] ∧ (length name ≤ 4000)%nat ∧ Forall (λ c, is_space c = false ∧ code c ≠ 0) name.
Definition name_check (name : chars) : bool :=
  negb (bool_decide (name = [])) && (Nat.leb (length name) 4000) &&
  forallb (λ c, negb (is_space c) && negb (code c =? 0)) name.
Definition id_ok (id : ObjectId) : Prop := 0 ≤ high id < 2 ^ 63 ∧ 0 ≤ low id < 2 ^ 63.
Definition map_ok (m : ObjectMap) : Prop := map_Forall (λ name id, name_ok name ∧ id_ok id) m.

Lemma name_check_ok name : name_check name = true → name_ok name.
Proof.
  unfold name_check. intros [[Hne%negb_true_iff%bool_decide_eq_false Hlen%Nat.leb_le]%andb_true_iff Hall]%andb_true_iff.
  split; [done|]. split; [done|]. apply Forall_forall. intros c Hc. rewrite forallb_forall in Hall.
  apply list_elem_of_In in Hc. apply Hall, andb_true_iff in Hc as [H1%negb_true_iff H2%negb_true_iff].
  by apply Z.eqb_neq in H2.
Qed.

Lemma c_str_all s rest : Forall (λ c, code c ≠ 0) s → c_str (s ++ rest) = s ++ c_str rest.
Proof.
  intros Hs. induction Hs as [|c s Hc Hs IH]; [done|]. unfold c_str in *. cbn [app span].
  apply Z.eqb_neq in Hc. rewrite Hc. cbn [negb]. destruct (span _ (s ++ rest)) as [a b]. cbn in *. by rewrite IH.
Qed.

Lemma name_c_str name : name_ok name → c_str name = name.
Proof.
  intros (_ & _ & Hn). rewrite <- (app_nil_r name) at 1. rewrite c_str_all; [apply app_nil_r|].
  eapply Forall_impl; [exact Hn|]. naive_solver.
Qed.

Lemma fgets_line n l rest :
  newline ∉ l → (length l < n)%nat → fgets n (l ++ newline :: rest) = (l ++ [newline], rest, false).
Proof.
  revert l. induction n as [|n IH]; intros l Hl Hn; [lia|]. destruct l as [|c l]; [done|].
  cbn in Hn. apply not_elem_of_cons in Hl as [Hc Hl]. cbn [fgets app].
  rewrite bool_decide_eq_false_2 by done. rewrite IH; [done|done|lia].
Qed.

Lemma digit_plain c : is_digit c = true → is_space c = false ∧ code c ≠ 0 ∧ c ≠ newline ∧ is_digit ":" = false.
Proof.
  intros Hc. pose proof (digit_no_space c Hc) as [Hs _]. split; [done|].
  unfold is_digit, between in Hc. apply andb_true_iff in Hc as [Hc%Z.leb_le _].
  split; [lia|]. split; [by intros ->|done].
Qed.

Lemma digits_plain s : Forall (λ c, is_digit c = true) s → Forall (λ c, code c ≠ 0) s ∧ newline ∉ s.
Proof.
  intros Hs. split; [eapply Forall_impl; [exact Hs|]; intros c Hc; by apply digit_plain|].
  intros Hn. rewrite Forall_forall in Hs. by apply Hs in Hn.
Qed.

Lemma wrap_shows id : 0 ≤ wrap id < 10 ^ 20.
Proof. pose proof (wrap_is_size id) as [? H]. unfold SIZE_MOD in H. lia. Qed.

Lemma span_head p s : (∀ c, head s = Some c → p c = false) → span p s = ([], s).
Proof. intros Hs. rewrite <- (app_nil_l s) at 1. by apply span_app. Qed.

(** The text of a line without its newline. *)
Definition line_text (it : chars * ObjectId) : chars :=
  fst it ++ "009"%char :: show (wrap (high (snd it))) ++ ":"%char :: show (wrap (low (snd it))).

Lemma print_line_text it : name_ok (fst it) → print_line it = line_text it ++ [newline].
Proof.
  intros Hn. unfold print_line, line_text. rewrite (name_c_str _ Hn). by rewrite <- !app_assoc, app_comm_cons, <- !app_assoc.
Qed.

Lemma line_text_plain it : name_ok (fst it) → newline ∉ line_text it ∧ (length (line_text it) < 4095)%nat.
Proof.
  intros (_ & Hlen & Hn). unfold line_text.
  destruct (show_digits _ (wrap_shows (high (snd it)))) as (_ & Hh & _ & Lh).
  destruct (show_digits _ (wrap_shows (low (snd it)))) as (_ & Hl & _ & Ll).
  apply digits_plain in Hh as [_ Hh]. apply digits_plain in Hl as [_ Hl]. split.
  - rewrite !elem_of_app, !elem_of_cons, elem_of_app, elem_of_cons.
    intros [Hin|[E|[E|[E|E]]]]; [|discriminate E|exact (Hh E)|discriminate E|exact (Hl E)].
    rewrite Forall_forall in Hn. by destruct (Hn _ Hin).
  - rewrite !length_app. cbn [length]. rewrite length_app. cbn [length]. lia.
Qed.

(** [%ld] of what [%lu] printed: a negative number comes back as the largest [long]. *)
Definition reread (x : Z) : Z := Z.min LONG_MAX (wrap x).

Lemma scan_print_line it :
  name_ok (fst it) →
  scan_line (print_line it) = Some (fst it, mkObjectId (reread (high (snd it))) (reread (low (snd it)))).
Proof.
  destruct it as [name id]. cbn [fst snd]. intros Hn. rewrite print_line_text by done. unfold line_text. cbn [fst snd].
  destruct (show_digits _ (wrap_shows (high id))) as (Nh & Dh & Vh & _).
  destruct (show_digits _ (wrap_shows (low id))) as (Nl & Dl & Vl & _).
  destruct (digits_plain _ Dh) as [Ch _]. destruct (digits_plain _ Dl) as [Cl _]. destruct Hn as (Hne & _ & Hname).
  unfold scan_line. rewrite <- !app_assoc. cbn [app]. rewrite c_str_all by (eapply Forall_impl; [exact Hname|]; naive_solver).
  change ("009"%char :: ?s) with (["009"%char] ++ s). rewrite c_str_all by by constructor.
  rewrite <- app_assoc, c_str_all by exact Ch. cbn [app]. change (":"%char :: ?s) with ([":"%char] ++ s).
  rewrite (c_str_all [":"%char]) by by constructor. rewrite c_str_all by exact Cl.
  rewrite (span_head is_space).
  2: { destruct name as [|c name]; [done|]. intros ? [= <-]. apply Forall_cons in Hname as [[? _] _]. done. }
  cbn [snd]. rewrite span_app; [|eapply Forall_impl; [exact Hname|]; intros c [-> _]; done|by intros ? [= <-]].
  destruct name as [|c0 name]; [done|]. change (c_str [newline]) with [newline].
  change (span is_space ("009"%char :: ?s)) with (span is_space (["009"%char] ++ s)).
  rewrite (span_app is_space ["009"%char]); [|by repeat constructor|].
  2: { destruct (show (wrap (high id))) as [|c s]; [done|]. intros ? [= <-]. apply Forall_cons in Dh as [Hc _]. by apply digit_plain. }
  cbn [snd]. unfold scan_object_id. rewrite scan_long_digits; [|exact Nh|exact Dh|by intros ? [= <-]].
  cbn [app]. rewrite bool_decide_eq_true_2 by done.
  rewrite scan_long_digits; [|exact Nl|exact Dl|by intros ? [= <-]]. rewrite Vh, Vl. reflexivity.
Qed.

Definition reread_id (id : ObjectId) : ObjectId := mkObjectId (reread (high id)) (reread (low id)).

Lemma reread_small x : 0 ≤ x < 2 ^ 63 → reread x = x.
Proof. intros Hx. unfold reread, LONG_MAX. rewrite wrap_small by (unfold is_size, SIZE_MOD; lia). lia. Qed.

Lemma reread_id_ok id : id_ok id → reread_id id = id.
Proof. intros [Hh Hl]. unfold reread_id. rewrite !reread_small by done. by destruct id. Qed.

Definition insert_all (store : ObjectMap) (l : list (chars * ObjectId)) : ObjectMap :=
  foldl (λ s it, <[fst it := snd it]> s) store l.

Lemma load_lines fuel store l :
  Forall (λ it, name_ok (fst it)) l → (length (l ≫= print_line) < fuel)%nat →
  loadLoop fuel store (l ≫= print_line) false = Ok (insert_all store (prod_map id reread_id <$> l)).
Proof.
  revert fuel store. induction l as [|it l IH]; intros fuel store Hl Hf; (destruct fuel as [|fuel]; [lia|]).
  - cbn. by destruct fuel.
  - apply Forall_cons in Hl as [Hit Hl]. cbn [mbind list_bind] in *. rewrite length_app in Hf.
    pose proof (scan_print_line it Hit) as Hscan. pose proof (line_text_plain it Hit) as [Hnl Hlen].
    rewrite print_line_text in * by done. rewrite <- app_assoc. cbn [app loadLoop].
    rewrite fgets_line by done. rewrite length_app in Hf. cbn [length] in Hf.
    destruct (line_text it ++ [newline]) as [|c buf] eqn:E; [by destruct (line_text it)|]. rewrite <- E in *.
    rewrite Hscan. rewrite IH by (done || lia). by destruct it.
Qed.

Lemma insert_all_union store l :
  NoDup (fst <$> l) → insert_all store l = list_to_map l ∪ store.
Proof.
  unfold insert_all. revert store. induction l as [|[k x] l IH]; intros store; cbn; [by rewrite (left_id_L ∅ (∪))|].
  rewrite NoDup_cons. intros [Hk Hnd]. rewrite IH by done.
  rewrite <- insert_union_r by by apply not_elem_of_list_to_map. by rewrite insert_union_l.
Qed.

Lemma entries_perm {A} (m : gmap chars A) : entries m ≡ₚ map_to_list m.
Proof. apply merge_sort_Permutation. Qed.

Lemma entries_nodup {A} (m : gmap chars A) : NoDup (fst <$> entries m).
Proof. rewrite entries_perm. apply NoDup_fst_map_to_list. Qed.

Lemma entries_to_map {A} (m : gmap chars A) : list_to_map (entries m) = m.
Proof. rewrite (list_to_map_proper _ _ (entries_nodup m) (entries_perm m)). apply list_to_map_to_list. Qed.

Lemma elem_of_entries {A} (m : gmap chars A) k x : (k, x) ∈ entries m ↔ m !! k = Some x.
Proof. rewrite entries_perm. apply elem_of_map_to_list. Qed.

(** A listing that is written is read back. *)
Lemma listing_roundtrip (m : ObjectMap) :
  map_ok m → loadLoop (S (length (print_listing m))) ∅ (print_listing m) false = Ok m.
Proof.
  intros Hm. unfold print_listing. rewrite load_lines; [| |lia].
  - assert (prod_map id reread_id <$> entries m = entries m) as ->.
    { rewrite <- (list_fmap_id (entries m)) at 2. apply list_fmap_ext. intros i [k x] Hi%list_elem_of_lookup_2.
      apply elem_of_entries in Hi. cbn. by rewrite reread_id_ok by apply (Hm k x Hi). }
    by rewrite insert_all_union, entries_to_map, (right_id_L ∅ (∪)) by apply entries_nodup.
  - apply Forall_forall. intros [k x] Hin%elem_of_entries. cbn. apply (Hm k x Hin).
Qed.

(** An identifier with its sign bit set is written by [%lu] and cut by [%ld]. *)
Lemma negative_id_lost name h l :
  name_ok name → - 2 ^ 63 ≤ h < 0 →
  let text := print_listing {[ name := mkObjectId h l ]} in
  loadLoop (S (length text)) ∅ text false = Ok {[ name := mkObjectId LONG_MAX (reread l) ]}.
Proof.
  intros Hn Hh text. unfold text, print_listing.
  assert (entries ({[ name := mkObjectId h l ]} : ObjectMap) = [(name, mkObjectId h l)]) as ->.
  { apply Permutation_singleton_r. by rewrite entries_perm, map_to_list_singleton. }
  rewrite load_lines; [|by constructor|lia]. cbn [fmap list_fmap prod_map insert_all foldl fst snd].
  rewrite insert_empty. do 2 f_equal. unfold reread_id. cbn [high low id fst snd prod_map]. f_equal.
  unfold reread, wrap, SIZE_MOD, LONG_MAX. replace h with (h + 2 ^ 64 + (-1) * 2 ^ 64) by lia.
  rewrite Z.mod_add, Z.mod_small by lia. lia.
Qed.

(** ** Names of several words

    [getObjectId] takes any name, [%s] reads one word: the rest of the name is where the
    identifier is expected. *)
Record two_words (word : chars) (sp c : ascii) (rest : chars) : Prop := {
  tww_word : name_ok word;
  tww_space : is_space sp = true ∧ sp ≠ newline;
  tww_next : is_space c = false ∧ is_digit c = false ∧ code c ≠ 45 ∧ code c ≠ 43;
  tww_plain : Forall (λ c, code c ≠ 0 ∧ c ≠ newline) (c :: rest);
  tww_length : (length word + length rest ≤ 4000)%nat;
}.

Lemma scan_two_words word sp c rest tail :
  two_words word sp c rest → scan_line (word ++ sp :: c :: tail) = None.
Proof.
  intros [(Hne & _ & Hw) [Hsp _] (Hc1 & Hc2 & Hc3 & Hc4) [[Hc0 _] _]%Forall_cons _].
  assert (Hs0 : code sp ≠ 0) by (intros E; unfold is_space, between in Hsp; by rewrite E in Hsp).
  unfold scan_line. rewrite c_str_all by (eapply Forall_impl; [exact Hw|]; naive_solver).
  change (sp :: c :: tail) with ([sp; c] ++ tail). rewrite c_str_all by (repeat constructor; done). cbn [app].
  rewrite (span_head is_space).
  2: { destruct word as [|a word]; [done|]. intros ? [= <-]. by apply Forall_cons in Hw as [[? _] _]. }
  cbn [snd]. rewrite span_app; [|eapply Forall_impl; [exact Hw|]; intros a [-> _]; done|by intros ? [= <-]; rewrite Hsp].
  destruct word as [|a word]; [done|]. change (sp :: c :: ?s) with ([sp] ++ c :: s).
  rewrite (span_app is_space [sp]); [|by constructor|by intros ? [= <-]]. cbn [snd].
  assert (∀ s, scan_long (c :: s) = None) as Hscan.
  { intros s. unfold scan_long. rewrite (span_head is_space) by (by intros ? [= <-]). cbn [snd].
    apply Z.eqb_neq in Hc3 as ->. apply Z.eqb_neq in Hc4 as ->. cbn [orb].
    by rewrite (span_head is_digit) by (by intros ? [= <-]). }
  unfold scan_object_id. by rewrite Hscan.
Qed.

(** A name of two words is saved as a line that no process can load again. *)
Lemma two_words_unreadable word sp c rest id :
  two_words word sp c rest →
  let text := print_listing {[ word ++ sp :: c :: rest := id ]} in
  loadLoop (S (length text)) ∅ text false = Err (Fatal "Invalid format in listing '%1' : %2 ").
Proof.
  intros Hw text. unfold text, print_listing. pose proof Hw as [(Hne & _ & Hword) [Hsp Hspn] _ Hplain Hlen].
  assert (Hs0 : code sp ≠ 0) by (intros E; unfold is_space, between in Hsp; by rewrite E in Hsp).
  set (name := word ++ sp :: c :: rest).
  assert (entries ({[ name := id ]} : ObjectMap) = [(name, id)]) as ->.
  { apply Permutation_singleton_r. by rewrite entries_perm, map_to_list_singleton. }
  cbn [mbind list_bind]. rewrite app_nil_r.
  assert (Hname : Forall (λ c, code c ≠ 0 ∧ c ≠ newline) name).
  { unfold name. apply Forall_app. split; [|by constructor]. eapply Forall_impl; [exact Hword|].
    intros a [Ha H0]. split; [done|]. by intros ->. }
  assert (c_str name = name) as Hcs.
  { rewrite <- (app_nil_r name) at 1. rewrite c_str_all; [apply app_nil_r|]. eapply Forall_impl; [exact Hname|]. naive_solver. }
  assert (print_line (name, id) = line_text (name, id) ++ [newline]) as ->.
  { unfold print_line, line_text. cbn [fst snd]. rewrite Hcs. by rewrite <- !app_assoc, app_comm_cons, <- !app_assoc. }
  assert (newline ∉ line_text (name, id) ∧ (length (line_text (name, id)) < 4095)%nat) as [Hnl Hl].
  { unfold line_text. cbn [fst snd].
    destruct (show_digits _ (wrap_shows (high id))) as (_ & Dh & _ & Lh).
    destruct (show_digits _ (wrap_shows (low id))) as (_ & Dl & _ & Ll).
    apply digits_plain in Dh as [_ Dh]. apply digits_plain in Dl as [_ Dl]. split.
    - rewrite !elem_of_app, !elem_of_cons, elem_of_app, elem_of_cons.
      intros [Hin|[E|[E|[E|E]]]]; [|discriminate E|exact (Dh E)|discriminate E|exact (Dl E)].
      rewrite Forall_forall in Hname. by destruct (Hname _ Hin).
    - rewrite !length_app. cbn [length]. rewrite length_app. cbn [length]. unfold name. rewrite length_app. cbn [length]. lia. }
  rewrite length_app. cbn [length loadLoop]. rewrite fgets_line by done.
  destruct (line_text (name, id) ++ [newline]) as [|a buf] eqn:E; [by destruct (line_text (name, id))|]. rewrite <- E.
  unfold line_text, name. cbn [fst snd]. rewrite <- !app_assoc. cbn [app].
  by rewrite (scan_two_words _ _ _ _ _ Hw).
Qed.

(** ** What a session keeps *)

Definition listings_ok (L : ListingMap) : Prop := map_Forall (λ _ m, map_ok m) L.
(** Every file is the text of a listing. *)
Definition files_ok (files : TextFiles) : Prop :=
  map_Forall (λ _ text, ∃ m, loadLoop (S (length text)) ∅ text false = Ok m ∧ map_ok m) files.
Definition known (L : ListingMap) (listing name : chars) : option ObjectId := L !! listing ≫= lookup name.

(** [rand] gives 31 bits; a generated identifier can be read by [%ld]. *)
Definition source_ok (source : IdSource) : Prop :=
  match source with
  | GeneratedId res hi lo => res = 0 ∧ id_ok (mkObjectId hi lo)
  | RandomId r1 r2 r3 r4 => Forall (λ r, 0 ≤ r < 2 ^ 31) [r1; r2; r3; r4]
  end.

Lemma createId_ok source : source_ok source → ∃ id, createId source = Ok id ∧ id_ok id.
Proof.
  destruct source as [res hi lo|r1 r2 r3 r4].
  - intros [-> Hid]. by exists (mkObjectId hi lo).
  - intros Hr. cbn [source_ok] in Hr. rewrite !Forall_cons in Hr. destruct Hr as (H1 & H2 & H3 & H4 & _). eexists. split; [reflexivity|].
    unfold id_ok. cbn [high low]. rewrite !Z.shiftl_mul_pow2 by lia. lia.
Qed.

Lemma insert_dom {A} (m : gmap chars A) k x l : is_Some (<[k := x]> m !! l) ↔ l = k ∨ is_Some (m !! l).
Proof. rewrite lookup_insert_is_Some'. split; intros [->|?]; auto. Qed.

(** What a request promises: the identifier is known afterwards and no other is forgotten. *)
Definition served (L : ListingMap) (listing name : chars) (id : ObjectId) (L' : ListingMap) : Prop :=
  listings_ok L' ∧ known L' listing name = Some id ∧
  (∀ l n x, known L l n = Some x → known L' l n = Some x) ∧
  ∀ l, is_Some (L' !! l) ↔ l = listing ∨ is_Some (L !! l).

Lemma createObjectId_ok source L listing name :
  listings_ok L → source_ok source → name_ok name → known L listing name = None →
  ∃ id L', createObjectId source L listing name = Ok (id, L') ∧ served L listing name id L'.
Proof.
  intros HL Hs Hn Hnone. destruct (createId_ok source Hs) as (id & Hid & Hok). unfold createObjectId. rewrite Hid.
  cbn [mbind result_bind]. eexists _, _. split; [reflexivity|]. split_and!.
  - apply map_Forall_insert_2; [|done]. apply map_Forall_insert_2; [done|].
    destruct (L !! listing) as [m|] eqn:E; [exact (HL _ _ E)|apply map_Forall_empty].
  - unfold known. rewrite lookup_insert_eq. cbn. apply lookup_insert_eq.
  - intros l n x Hx. unfold known in *. destruct (decide (l = listing)) as [->|Hl].
    + rewrite lookup_insert_eq. cbn. destruct (L !! listing) as [m|]; [|done]. cbn in *.
      rewrite lookup_insert_ne; [done|congruence].
    + by rewrite lookup_insert_ne.
  - intros l. apply insert_dom.
Qed.

Lemma loadListing_ok files L listing m text :
  files !! listing = Some text → L !! listing = None →
  loadLoop (S (length text)) ∅ text false = Ok m →
  loadListing files L listing = Ok (<[listing := m]> L).
Proof. intros Hf HL Hload. unfold loadListing. rewrite Hf, HL. cbn [default]. by rewrite Hload. Qed.

Lemma getObjectId_ok source files L listing name :
  listings_ok L → files_ok files → source_ok source → listing ≠ [] → name_ok name →
  ∃ id L', getObjectId source files L listing name = Ok (id, L') ∧ served L listing name id L'.
Proof.
  intros HL Hf Hs Hl Hn. unfold getObjectId. rewrite (bool_decide_eq_false_2 (listing = [])) by done.
  rewrite bool_decide_eq_false_2 by apply Hn. cbn [negb assume mbind result_bind].
  destruct (L !! listing) as [m|] eqn:E.
  - destruct (m !! name) as [id|] eqn:En.
    + exists id, L. split; [done|]. split; [done|]. unfold known. rewrite E. split; [done|]. split; [done|].
      intros l. split; [by right|]. intros [->|?]; [by eauto|done].
    + apply createObjectId_ok; [done..|]. unfold known. by rewrite E.
  - unfold createListingAndObjectId. destruct (files !! listing) as [text|] eqn:Et.
    2: { rewrite bool_decide_eq_false_2 by (by intros [? ?]). apply createObjectId_ok; [done..|]. unfold known. by rewrite E. }
    rewrite bool_decide_eq_true_2 by eauto. destruct (Hf _ _ Et) as (m & Hload & Hm).
    rewrite (loadListing_ok files L listing m text) by done. cbn [mbind result_bind]. rewrite lookup_insert_eq. cbn [option_bind].
    assert (Hserved : ∀ l n x, known L l n = Some x → known (<[listing := m]> L) l n = Some x).
    { intros l n x Hx. unfold known in *. rewrite lookup_insert_ne; [done|]. intros <-. by rewrite E in Hx. }
    assert (HL' : listings_ok (<[listing := m]> L)) by (by apply map_Forall_insert_2).
    assert (Hdom : ∀ l, is_Some (<[listing := m]> L !! l) ↔ l = listing ∨ is_Some (L !! l)).
    { intros l. apply insert_dom. }
    change (mbind (lookup name) (Some m)) with (m !! name).
    destruct (m !! name) as [id|] eqn:En.
    + exists id, (<[listing := m]> L). split; [done|]. split; [done|]. split; [|done].
      unfold known. by rewrite lookup_insert_eq.
    + destruct (createObjectId_ok source (<[listing := m]> L) listing name) as (id & L' & Hrun & H1 & H2 & H3 & H4);
        [done..|unfold known; by rewrite lookup_insert_eq|].
      exists id, L'. split; [done|]. split; [done|]. split; [done|]. split; [auto|]. intros l. rewrite H4, Hdom. tauto.
Qed.

(** [~Listings] writes every listing it knows. *)
Lemma saveListings_ok (writable : chars → bool) (files : TextFiles) (L : ListingMap) :
  (∀ l, is_Some (L !! l) → writable l = true) →
  ∃ files', saveListings writable files L = Ok files' ∧
    ∀ l, files' !! l = match L !! l with Some m => Some (print_listing m) | None => files !! l end.
Proof.
  intros Hw. unfold saveListings.
  assert (∀ es, NoDup (fst <$> es) → (∀ k m, (k, m) ∈ es → writable k = true) → ∀ files : TextFiles,
    ∃ files', foldM (λ files it, saveListing writable files (snd it) (fst it)) files es = Ok files' ∧
      ∀ l, files' !! l = match (list_to_map es : ListingMap) !! l with Some m => Some (print_listing m) | None => files !! l end)
    as Hrun.
  { intros es. induction es as [|[k m] es IH]; intros Hnd He fs; [by exists fs|].
    assert (saveListing writable fs m k = Ok (<[k := print_listing m]> fs)) as Hsave
      by (unfold saveListing; by rewrite (He k m) by left).
    cbn [foldM fst snd]. rewrite Hsave. cbn [mbind result_bind].
    rewrite fmap_cons, NoDup_cons in Hnd. destruct Hnd as [Hk Hnd].
    destruct (IH Hnd ltac:(intros; eapply He; by right) (<[k := print_listing m]> fs)) as (fs' & -> & Hfs).
    exists fs'. split; [done|]. intros l. rewrite Hfs. cbn [list_to_map foldr fst snd].
    destruct (decide (l = k)) as [->|Hne].
    - rewrite lookup_insert_eq, not_elem_of_list_to_map_1 by done. by rewrite lookup_insert_eq.
    - by rewrite !lookup_insert_ne by done. }
  destruct (Hrun (entries L) (entries_nodup L)) with (files := files) as (files' & E & Hfs).
  { intros k m Hin%elem_of_entries. apply Hw. eauto. }
  exists files'. split; [exact E|]. intros l. by rewrite Hfs, entries_to_map.
Qed.

(** ** Sessions *)

Record request := mkRequest { rq_source : IdSource; rq_listing : chars; rq_name : chars }.

Definition request_ok (writable : chars → bool) (r : request) : Prop :=
  source_ok (rq_source r) ∧ rq_listing r ≠ [] ∧ writable (rq_listing r) = true ∧ name_ok (rq_name r).

(** The requests of a process, in order, with the identifiers they got. *)
Definition serve (files : TextFiles) (L : ListingMap) (reqs : list request) : result (list ObjectId * ListingMap) :=
  foldM (λ s r, '(id, L') ← getObjectId (rq_source r) files (snd s) (rq_listing r) (rq_name r);
                Ok (fst s ++ [id], L')) ([], L) reqs.

Lemma serve_ok (writable : chars → bool) (files : TextFiles) reqs :
  files_ok files → Forall (request_ok writable) reqs →
  ∃ ids L, serve files newListings reqs = Ok (ids, L) ∧ listings_ok L ∧
    (∀ l, is_Some (L !! l) → writable l = true) ∧
    Forall2 (λ r id, request_ok writable r ∧ known L (rq_listing r) (rq_name r) = Some id) reqs ids.
Proof.
  intros Hf. induction reqs as [|r reqs IH] using rev_ind; intros Hr.
  - exists [], newListings. split; [done|]. split; [apply map_Forall_empty|]. split; [|constructor].
    intros l [m Hm]. unfold newListings in Hm. by rewrite lookup_empty in Hm.
  - apply Forall_app in Hr as [Hrs Hr]. apply Forall_singleton in Hr as (Hsrc & Hne & Hw & Hn).
    destruct (IH Hrs) as (ids & L & Hrun & HL & Hwl & Hknown). unfold serve in *. rewrite foldM_app, Hrun.
    cbn [mbind result_bind foldM snd fst].
    destruct (getObjectId_ok (rq_source r) files L (rq_listing r) (rq_name r)) as (id & L' & -> & HL' & Hid & Hkeep & Hdom);
      [done..|].
    cbn [mbind result_bind]. exists (ids ++ [id]), L'. split; [done|]. split; [done|]. split.
    + intros l [->|Hl]%Hdom; [done|by apply Hwl].
    + apply Forall2_app; [|by constructor]. eapply Forall2_impl; [exact Hknown|]. intros r' id' [Hok Hk]. split; [done|by apply Hkeep].
Qed.

(** C33: object names keep their identifiers from one process to the next.  A process
    asks for any sequence of names of one word (no white space, at most 4000 characters)
    in listings that can be written, and identifiers are not negative, as those of [rand]
    are; every request succeeds, its destructor writes the listings back, and a new
    process that asks again for one of the names gets the same identifier, whatever
    numbers it would draw.  Outside that domain it fails: [two_words_unreadable],
    [negative_id_lost]. *)
Theorem listings_persist (writable : chars → bool) (files : TextFiles) reqs :
  files_ok files → Forall (request_ok writable) reqs →
  ∃ ids L files', serve files newListings reqs = Ok (ids, L) ∧
    deleteListings writable files L = Ok files' ∧ files_ok files' ∧
    Forall2 (λ r id, ∀ source, ∃ L', getObjectId source files' newListings (rq_listing r) (rq_name r) = Ok (id, L'))
      reqs ids.
Proof.
  intros Hf Hr. destruct (serve_ok writable files reqs Hf Hr) as (ids & L & Hrun & HL & Hw & Hknown).
  destruct (saveListings_ok writable files L Hw) as (files' & Hsave & Hfs).
  exists ids, L, files'. split; [done|]. split; [done|].
  assert (Hf' : files_ok files').
  { intros l text. rewrite Hfs. destruct (L !! l) as [m|] eqn:E; [|apply Hf].
    intros [= <-]. exists m. split; [|exact (HL _ _ E)]. apply listing_roundtrip. exact (HL _ _ E). }
  split; [done|]. eapply Forall2_impl; [exact Hknown|]. intros r id [(_ & Hne & _ & Hn) Hk] source.
  unfold known in Hk. destruct (L !! rq_listing r) as [m|] eqn:E; [|done]. cbn in Hk.
  exists (<[rq_listing r := m]> newListings). unfold getObjectId.
  rewrite (bool_decide_eq_false_2 (rq_listing r = [])) by done. rewrite bool_decide_eq_false_2 by apply Hn.
  cbn [negb assume mbind result_bind]. unfold newListings at 1. rewrite lookup_empty. unfold createListingAndObjectId.
  assert (Ef : files' !! rq_listing r = Some (print_listing m)) by by rewrite Hfs, E.
  rewrite bool_decide_eq_true_2 by eauto.
  rewrite (loadListing_ok files' _ _ m (print_listing m)); [|done|done|apply listing_roundtrip; exact (HL _ _ E)].
  cbn [mbind result_bind]. rewrite lookup_insert_eq. change (mbind (lookup ?n) (Some m)) with (m !! n). by rewrite Hk.
Qed.

(** Two names of a listing, one of them asked for twice, and a file that exists. *)
Definition demo_listing_files : TextFiles := {[ str "objects.txt" := str "old" ++ "009"%char :: str "12:34" ++ [newline] ]}.
Definition demo_requests : list request :=
  [mkRequest (RandomId 1 2 3 4) (str "objects.txt") (str "new");
   mkRequest (RandomId 5 6 7 8) (str "objects.txt") (str "old");
   mkRequest (RandomId 9 9 9 9) (str "objects.txt") (str "new")].

Lemma listings_persist_witness :
  ∃ ids L files', serve demo_listing_files newListings demo_requests = Ok (ids, L) ∧
    ids = [mkObjectId (3 * 2 ^ 32 + 4) (1 * 2 ^ 32 + 2); mkObjectId 12 34; mkObjectId (3 * 2 ^ 32 + 4) (1 * 2 ^ 32 + 2)] ∧
    deleteListings (λ _, true) demo_listing_files L = Ok files' ∧
    ∃ L', getObjectId (RandomId 0 0 0 0) files' newListings (str "objects.txt") (str "new") =
          Ok (mkObjectId (3 * 2 ^ 32 + 4) (1 * 2 ^ 32 + 2), L').
Proof.
  destruct (listings_persist (λ _, true) demo_listing_files demo_requests) as (ids & L & files' & Hrun & Hdel & _ & Hids).
  - unfold files_ok, demo_listing_files. apply map_Forall_singleton.
    exists {[ str "old" := mkObjectId 12 34 ]}. split; [vm_compute; reflexivity|]. apply map_Forall_singleton.
    split; [apply name_check_ok; vm_compute; reflexivity|unfold id_ok; cbn; lia].
  - assert (∀ r1 r2 r3 r4 name, 0 ≤ r1 < 10 → 0 ≤ r2 < 10 → 0 ≤ r3 < 10 → 0 ≤ r4 < 10 → name_check name = true →
      request_ok (λ _, true) (mkRequest (RandomId r1 r2 r3 r4) (str "objects.txt") name)) as Hreq.
    { intros r1 r2 r3 r4 name H1 H2 H3 H4 Hn. split; [repeat constructor; lia|]. split; [discriminate|].
      split; [reflexivity|]. by apply name_check_ok. }
    repeat (apply Forall_cons; split); [apply Hreq; try lia; reflexivity..|constructor].
  - exists ids, L, files'. split; [exact Hrun|].
    assert (Eids : fst <$> serve demo_listing_files newListings demo_requests =
      Ok [mkObjectId (3 * 2 ^ 32 + 4) (1 * 2 ^ 32 + 2); mkObjectId 12 34; mkObjectId (3 * 2 ^ 32 + 4) (1 * 2 ^ 32 + 2)])
      by (vm_compute; reflexivity).
    rewrite Hrun in Eids. injection Eids as ->. split; [done|]. split; [exact Hdel|].
    inversion Hids as [|? ? ? ? Hfirst]. apply Hfirst.
Defined.
