(* ===== verification/Resources.v ===== *)
(** * Connections to the servers of object stores (src/src/uri)

    [RessourceHandler] makes each connection once, by name; [MeroRessource] and
    [IocRessource] open one with the static options.  The clients are the classes [Mero]
    (for the build) and [ServerCalls]. *)

From Stdlib Require Import Ascii String.
From S2P Require Import Prelude Registry GlobalHandler Library Regex HumanUnits Uri UriHandler Driver PolicyInterface Listings ClovisDriver.

(** What the client libraries do when they start and stop.  [mero_instance] tells whether
    the global instance is set; the start of Mero may install an action for SIGSEGV. *)
Class ServerCalls (K : Type) := {
  mero_instance : K → bool;
  c0appz_set_manual_rc : K → chars → K;
  (** The index and, for the build on Mero, the file. *)
  c0appz_init : K → Z → option chars → Z * K;
  c0appz_action : K → Action → Action;
  c0appz_free : K → K;
  ioc_client_init : K → chars → chars → Z * K;
  ioc_client_fini : K → Z → K;
}.

(** The static members. *)
Record RessourceInfo := mkInfo {
  ressourceFile : chars; ressourceIndex : Z;
  ioc_server : chars; ioc_port : chars; ioc_client : Z;
}.

Definition default_info : RessourceInfo :=
  mkInfo (list_ascii_of_string "mero_ressource_file.rc") 0 (list_ascii_of_string "127.0.0.1")
    (list_ascii_of_string "8556") 0.

Definition set_mero_info (i : RessourceInfo) (file : chars) (index : Z) : RessourceInfo :=
  mkInfo file index (ioc_server i) (ioc_port i) (ioc_client i).
Definition set_ioc_info (i : RessourceInfo) (server port : chars) : RessourceInfo :=
  mkInfo (ressourceFile i) (ressourceIndex i) server port (ioc_client i).
Definition set_client (i : RessourceInfo) (client : Z) : RessourceInfo :=
  mkInfo (ressourceFile i) (ressourceIndex i) (ioc_server i) (ioc_port i) client.

(** The objects; [hasInit] is the member of [MeroRessource]. *)
Inductive Ressource : Type :=
  | MeroRessource (hasInit : bool)
  | IocRessource.
Inductive RessourceType : Type := TMero | TIoc.

(** Static members, the world outside, the action of SIGSEGV. *)
Record Outside (K : Type) := mkOutside { info : RessourceInfo; outside_of : K; segv : Signals }.
Arguments mkOutside {K}.
Arguments info {K}.
Arguments outside_of {K}.
Arguments segv {K}.

Section Resources.
Context {K : Type} `{Mero K} `{ServerCalls K}.
Context (hasIoc : bool).

(** [setupSegfaultHandler], once Mero has started: what is saved is the action in force. *)
Definition start_mero (o : Outside K) : result (Ressource * Outside K) :=
  let k := match mero_build with
           | HAVE_MOTR => c0appz_set_manual_rc (outside_of o) (ressourceFile (info o))
           | _ => outside_of o end in
  let '(res, k') := c0appz_init k (ressourceIndex (info o))
                      (match mero_build with HAVE_MERO => Some (ressourceFile (info o)) | _ => None end) in
  assume (res =? 0) "Failed to init mero/clovis API !";;
  Ok (MeroRessource true,
      mkOutside (info o) k' (mkSignals SegfaultHandler (c0appz_action k (sigsegv (segv o))))).

Definition newMeroRessource (o : Outside K) : result (Ressource * Outside K) :=
  match mero_build with
  | NO_MERO => Ok (MeroRessource false, o)
  | _ => if mero_instance (outside_of o) then Ok (MeroRessource false, o) else start_mero o
  end.

Definition newIocRessource (o : Outside K) : result (Ressource * Outside K) :=
  if hasIoc then
    if ioc_client (info o) =? 0 then
      let '(c, k) := ioc_client_init (outside_of o) (ioc_server (info o)) (ioc_port (info o)) in
      let o' := mkOutside (set_client (info o) c) k (segv o) in
      assume (negb (c =? 0)) "Failed to init IOC API !";; Ok (IocRessource, o')
    else Ok (IocRessource, o)
  else Ok (IocRessource, o).

Definition newRessource (t : RessourceType) : Outside K → result (Ressource * Outside K) :=
  match t with TMero => newMeroRessource | TIoc => newIocRessource end.

(** The destructors. *)
Definition deleteRessource (o : Outside K) (r : Ressource) : Outside K :=
  match r with
  | MeroRessource hasInit =>
      match mero_build with
      | NO_MERO => o
      | _ => if hasInit then mkOutside (info o) (c0appz_free (outside_of o)) (segv o) else o
      end
  | IocRessource =>
      if hasIoc && negb (ioc_client (info o) =? 0)
      then mkOutside (set_client (info o) 0) (ioc_client_fini (outside_of o) (ioc_client (info o))) (segv o)
      else o
  end.

Abbreviation RessourceMap := (gmap chars Ressource).

Definition checkRessource (t : RessourceType) (name : chars) (m : RessourceMap) (o : Outside K)
    : result (RessourceMap * Outside K) :=
  match m !! name with
  | Some _ => Ok (m, o)
  | None => '(r, o') ← newRessource t o; Ok (<[name := r]> m, o')
  end.

(** [~RessourceHandler]; the entries in the order of their names. *)
Definition deleteRessourceHandler (m : RessourceMap) (o : Outside K) : Outside K :=
  foldl (λ o it, deleteRessource o (snd it)) o (entries m).

(** [UriHandler::initMero], which [ummap_mero_init] calls. *)
Definition initMero (file : chars) (index : Z) (m : RessourceMap) (o : Outside K) : result (RessourceMap * Outside K) :=
  checkRessource TMero (list_ascii_of_string "mero") m
    (mkOutside (set_mero_info (info o) file index) (outside_of o) (segv o)).

Definition ummap_config_clovis_init_options (file : chars) (index : Z) (i : RessourceInfo) : RessourceInfo :=
  set_mero_info i file index.
Definition ummap_config_ioc_init_options (server port : chars) (i : RessourceInfo) : RessourceInfo :=
  set_ioc_info i server port.

(** A connection is made once: asking again for its name changes nothing. *)
Lemma checkRessource_once t t' name m o m' o' :
  checkRessource t name m o = Ok (m', o') → checkRessource t' name m' o' = Ok (m', o').
Proof.
  unfold checkRessource. destruct (m !! name) eqn:E.
  - intros [= <- <-]. by rewrite E.
  - intros Hrun. inv_bind Hrun. destruct a as [r o1]. inv_ok. by rewrite lookup_insert_eq.
Qed.

(** [GlobalHandler::initMero] and [ummap_mero_init] only pass the call on. *)
Definition ummap_mero_init : chars → Z → RessourceMap → Outside K → result (RessourceMap * Outside K) := initMero.

(** ** Drivers from identifiers, with the connections they need *)

Section Build.
Context (regex hasMero : bool) (listing : chars → chars → result ObjectId) (fname : ObjectId → chars).

(** The connection comes between the identifier and the driver, or the error that there
    is none. *)
Definition buildDriverMero (parser : Uri) (m : RessourceMap) (o : Outside K)
    : result (DriverSpec * (RessourceMap * Outside K)) :=
  _ ← getIocObjectId listing parser;
  c ← checkRessource TMero (list_ascii_of_string "mero") m o;
  spec ← buildDriverObject listing "merofile" hasMero NewClovis fname parser;
  Ok (spec, c).
Definition buildDriverIoc (parser : Uri) (m : RessourceMap) (o : Outside K)
    : result (DriverSpec * (RessourceMap * Outside K)) :=
  _ ← getIocObjectId listing parser;
  c ← checkRessource TIoc (list_ascii_of_string "ioc") m o;
  spec ← buildDriverObject listing "iocfile" hasIoc NewIoc fname parser;
  Ok (spec, c).

Definition connectDriver (parser : Uri) (m : RessourceMap) (o : Outside K)
    : result (DriverSpec * (RessourceMap * Outside K)) :=
  if in_types (getType parser) meroTypes then buildDriverMero parser m o
  else if in_types (getType parser) iocTypes then buildDriverIoc parser m o
  else spec ← constructDriver regex hasMero hasIoc listing fname parser; Ok (spec, (m, o)).

Lemma in_types_other type l l' :
  bool_decide (Forall (λ t, t ∉ l') l) = true → in_types type l = true → in_types type l' = false.
Proof.
  unfold in_types. intros Hd%bool_decide_eq_true Hin%bool_decide_eq_true. apply bool_decide_eq_false. intros Hin'.
  apply list_elem_of_fmap in Hin as (t & -> & Ht). apply list_elem_of_fmap in Hin' as (t' & E & Ht').
  assert (t = t') as ->; [|by eapply Forall_forall in Hd].
  unfold str in E. by rewrite <- (string_of_list_ascii_of_string t), E, string_of_list_ascii_of_string.
Qed.

(** The tests of a type that is in one list for the others. *)
Ltac other_types H :=
  repeat match type of H with in_types ?t ?l = true =>
    match goal with |- context [in_types t ?l'] =>
      rewrite (in_types_other t l l' eq_refl H) end end.

(** The connections change neither the driver nor the errors of its construction; they
    add the error of a server that does not answer. *)
Lemma connectDriver_spec parser m o spec c :
  connectDriver parser m o = Ok (spec, c) →
  constructDriver regex hasMero hasIoc listing fname parser = Ok spec.
Proof.
  unfold connectDriver, constructDriver. destruct (in_types _ meroTypes) eqn:Em; [|destruct (in_types _ iocTypes) eqn:Ei].
  - other_types Em. rewrite ?Em. unfold buildDriverMero. intros Hrun.
    do 3 inv_bind Hrun. inv_ok. done.
  - other_types Ei. rewrite ?Ei. unfold buildDriverIoc. intros Hrun.
    do 3 inv_bind Hrun. inv_ok. done.
  - rewrite ?Em, ?Ei. intros Hrun. inv_bind Hrun. by inv_ok.
Qed.

(** A driver on an object store has its server: once built, the client is open and the
    next driver of the same class is built without another connection. *)
Lemma ioc_driver_connected parser m o spec m' o' :
  hasIoc = true → in_types (getType parser) iocTypes = true →
  m !! list_ascii_of_string "ioc" = None → connectDriver parser m o = Ok (spec, (m', o')) →
  ioc_client (info o') ≠ 0 ∧
  ∀ parser', in_types (getType parser') iocTypes = true →
    ∀ spec' c, connectDriver parser' m' o' = Ok (spec', c) → c = (m', o').
Proof.
  intros Hioc Hty Hnew Hrun.
  assert (Hmero : ∀ p, in_types (getType p) iocTypes = true → in_types (getType p) meroTypes = false).
  { intros p. by apply in_types_other. }
  assert (Hcheck : checkRessource TIoc (list_ascii_of_string "ioc") m o = Ok (m', o')).
  { unfold connectDriver in Hrun. rewrite (Hmero _ Hty), Hty in Hrun. unfold buildDriverIoc in Hrun.
    do 3 inv_bind Hrun. by inv_ok. }
  split.
  - unfold checkRessource in Hcheck. rewrite Hnew in Hcheck. cbn in Hcheck. unfold newIocRessource in Hcheck.
    rewrite Hioc in Hcheck. destruct (Z.eqb_spec (ioc_client (info o)) 0) as [E|E].
    + destruct (ioc_client_init _ _ _) as [c k]. destruct (Z.eqb_spec c 0); cbn in Hcheck; [done|].
      by injection Hcheck as <- <-.
    + by injection Hcheck as <- <-.
  - intros parser' Hty' spec' c Hrun'. unfold connectDriver in Hrun'. rewrite (Hmero _ Hty'), Hty' in Hrun'.
    unfold buildDriverIoc in Hrun'. do 3 inv_bind Hrun'. inv_ok.
    apply checkRessource_once with (t' := TIoc) in Hcheck. congruence.
Qed.
End Build.

(** The server and the action of SIGSEGV, over a client that is started by the library: a
    client of Mero that installs no action leaves our handler as the saved one, so a fault
    that is not ours never leaves it ([second_setup_loops] of [Library]). *)
Lemma start_mero_saves_own o r o' :
  newMeroRessource o = Ok (r, o') → r = MeroRessource true →
  (∀ k a, c0appz_action k a = a) → sigsegv (segv o) = SegfaultHandler →
  segv o' = mkSignals SegfaultHandler SegfaultHandler.
Proof.
  unfold newMeroRessource, start_mero. intros Hrun -> Hact Hs.
  destruct mero_build; [| |discriminate]; (destruct (mero_instance _); [discriminate|]);
    destruct (c0appz_init _ _ _) as [res k'] in Hrun; inv_bind Hrun; inv_ok; cbn; by rewrite Hact, Hs.
Qed.
End Resources.
