(* ===== verification/UnixFiles.v ===== *)
(** * Files used by the system layer (src/src/portability/UnixOS.cpp)

    [cpuNumber] reads /proc/cpuinfo line by line; the constructor of a mapping uses it for
    the number of its mutexes.  Only tests call [removeFile]. *)

From Stdlib Require Import Ascii String.
From S2P Require Import Prelude Regex HumanUnits Uri UriHandler Listings.

(** The literal characters of a format. *)
Fixpoint strip (lit s : chars) : option chars :=
  match lit, s with
  | [], _ => Some s
  | c :: lit', c' :: s' => if bool_decide (c = c') then strip lit' s' else None
  | _ :: _, [] => None
  end.

Definition skip_spaces (s : chars) : chars := snd (span is_space s).

(** [sscanf(tmp, "processor       : %d", &id) == 1]: spaces match any number of spaces. *)
Definition scan_processor (buf : chars) : option Z :=
  s1 ← strip (str "processor") (c_str buf);
  s2 ← strip (str ":") (skip_spaces s1);
  fst <$> scan_int s2.

Fixpoint cpuLoop (fuel : nat) (cnt : Z) (text : chars) (eof : bool) : result Z :=
  if eof then Ok cnt
  else
    match fuel with
    | O => Err OutOfFuel
    | S fuel =>
        let '(buf, rest, eof) := fgets 4095 text in
        let cnt := match buf with
                   | [] => cnt
                   | _ => default cnt (scan_processor buf)
                   end in
        cpuLoop fuel cnt rest eof
    end.

(** The number and the new value of the static [gblCpu]; [cpuinfo] is the file. *)
Definition cpuNumber (gblCpu : Z) (cpuinfo : option chars) : result (Z * Z) :=
  if 0 <? gblCpu then Ok (gblCpu, gblCpu)
  else
    match cpuinfo with
    | None => Err (Fatal "Fail to open /proc/cpuinfo : %1")
    | Some text => cnt ← cpuLoop (S (length text)) 0 text false; Ok (cnt + 1, cnt + 1)
    end.

(** [unlink] gives its status and the files after it. *)
Definition removeFile {K} (unlink : K → chars → Z * K) (k : K) (path : chars) : result K :=
  let '(res, k') := unlink k path in
  assume (res =? 0) "Fail to remove file %s : %s";; Ok k'.

(** ** A usual file *)

Definition processor_text (i : Z) : chars := str "processor" ++ "009"%char :: str ": " ++ show i.
Definition processor_line (i : Z) : chars := processor_text i ++ [newline].

Lemma strip_app lit s : strip lit (lit ++ s) = Some s.
Proof. induction lit as [|c lit IH]; [done|]. cbn. by rewrite bool_decide_eq_true_2. Qed.

Lemma scan_long_space c s : is_space c = true → scan_long (c :: s) = scan_long s.
Proof. intros Hc. unfold scan_long. cbn [span]. rewrite Hc. by destruct (span is_space s). Qed.

Lemma processor_plain i : 0 ≤ i < 10 ^ 20 →
  Forall (λ c, code c ≠ 0) (processor_line i) ∧ newline ∉ processor_text i ∧ (length (processor_text i) < 4095)%nat.
Proof.
  intros Hi. destruct (show_digits i Hi) as (_ & Di & _ & Li). destruct (digits_plain _ Di) as [Ci Hn].
  unfold processor_line, processor_text. split_and!.
  - apply Forall_app. split; [|by repeat constructor]. apply Forall_app. split; [by repeat constructor|].
    apply Forall_cons. split; [done|]. apply Forall_app. split; [by repeat constructor|exact Ci].
  - rewrite elem_of_app, elem_of_cons, elem_of_app. intros [Hin|[Hin|[Hin|Hin]]]; [| | |exact (Hn Hin)];
      revert Hin; apply (bool_decide_unpack _); vm_compute; exact I.
  - rewrite !length_app. cbn [length]. rewrite length_app.
    change (length (str "processor")) with 9%nat. change (length (str ": ")) with 2%nat. lia.
Qed.

Lemma scan_processor_line i : 0 ≤ i < 2 ^ 31 → scan_processor (processor_line i) = Some i.
Proof.
  intros Hi. destruct (show_digits i) as (Ni & Di & Vi & _); [lia|].
  destruct (processor_plain i) as (Hc & _); [lia|]. unfold scan_processor.
  rewrite <- (app_nil_r (processor_line i)), c_str_all by exact Hc.
  change (c_str []) with (@nil ascii). rewrite app_nil_r. unfold processor_line, processor_text. rewrite <- app_assoc, strip_app.
  cbn [mbind option_bind]. unfold skip_spaces.
  change (("009"%char :: str ": " ++ show i) ++ [newline]) with (["009"%char] ++ (str ": " ++ show i ++ [newline])).
  rewrite span_app by (by repeat constructor || by intros ? [= <-]). cbn [snd].
  change (str ": " ++ show i ++ [newline]) with (str ":" ++ " "%char :: (show i ++ [newline])). rewrite strip_app.
  cbn [mbind option_bind]. unfold scan_int. rewrite scan_long_space by done.
  rewrite scan_long_digits; [|exact Ni|exact Di|by intros ? [= <-]]. rewrite Vi. cbn. f_equal.
  unfold LONG_MAX. rewrite Z.min_r by lia. apply to_int_small. lia.
Qed.

Lemma cpuLoop_lines n lo fuel cnt :
  0 ≤ lo → lo + Z.of_nat n ≤ 2 ^ 31 →
  (length (seqZ lo (Z.of_nat n) ≫= processor_line) < fuel)%nat →
  cpuLoop fuel cnt (seqZ lo (Z.of_nat n) ≫= processor_line) false = Ok (match n with O => cnt | S n' => lo + Z.of_nat n' end).
Proof.
  revert lo fuel cnt. induction n as [|n IH]; intros lo fuel cnt Hlo Hhi Hf; (destruct fuel as [|fuel]; [lia|]).
  - cbn. by destruct fuel.
  - rewrite seqZ_cons in * by lia. replace (Z.pred (Z.of_nat (S n))) with (Z.of_nat n) in * by lia.
    cbn [mbind list_bind] in *. rewrite length_app in Hf. destruct (processor_plain lo) as (_ & Hnl & Hlen); [lia|].
    assert (E : processor_line lo = processor_text lo ++ [newline]) by done. rewrite E, length_app in Hf. cbn [length] in Hf.
    rewrite E at 1. rewrite <- app_assoc. cbn [app cpuLoop]. rewrite fgets_line by done. rewrite <- E.
    destruct (processor_line lo) as [|c buf] eqn:El; [by destruct (processor_text lo)|].
    rewrite <- El, scan_processor_line by lia. change (default cnt (Some lo)) with lo. rewrite IH by lia. destruct n; f_equal; lia.
Qed.

(** With one line per processor, numbered from 0, the result is the number of lines. *)
Lemma cpuNumber_lines n :
  (0 < n)%nat → Z.of_nat n ≤ 2 ^ 31 →
  cpuNumber 0 (Some (seqZ 0 (Z.of_nat n) ≫= processor_line)) = Ok (Z.of_nat n, Z.of_nat n).
Proof.
  intros Hn Hhi. unfold cpuNumber. change (0 <? 0) with false. cbv iota. rewrite cpuLoop_lines by lia.
  cbn [mbind result_bind]. destruct n; [lia|]. do 2 f_equal; lia.
Qed.
