(* ===== verification/AnyDriver.v ===== *)
(** * The drivers behind one pointer

    [AnyDriver] is the dynamic dispatch over the classes of drivers of the repository, with
    what the public interface does to a [Driver *]: [dynamic_cast], [setAutoclean], the
    destructor, and the construction of the driver a resource identifier describes
    (src/src/uri/UriHandler.cpp).  [K] is the state outside the process, which the system
    calls and the client libraries change; [C] is the data of a C driver.

    The drivers that store bytes and leave the memory to the library (memory and file
    drivers) make [AnyDriver] an instance of [StorageDriver], so the theorems on mappings,
    faults and sessions hold for a process that mixes them. *)

From S2P Require Import Prelude OS Driver Regex HumanUnits UriHandler FileDrivers ClovisDriver IocDriver.

(** Opening files by name: [open(path, O_RDWR | O_CREAT, ...)], [fopen(path, mode)] with
    the descriptor of the stream ([None] for [NULL]) and [access(path, F_OK) == 0]. *)
Class FileNames (K : Type) := {
  kopen : K → chars → Z * K;
  kfopen : K → chars → chars → option (Z * K);
  kaccess : K → chars → bool;
}.

Section Dispatch.
Context {K C : Type} `{Posix K} `{Mero K} `{IocClient K}.

Inductive AnyDriver : Type :=
  | DDummy (d : DummyDriver)
  | DMemory (d : MemoryDriver)
  | DFD (d : FDDriver K)
  | DMmap (d : MmapDriver K)
  | DC (d : CDriver C)
  | DClovis (d : ClovisDriver K)
  | DIoc (d : IocDriver K).

(** Rebuild the object an operation of its class returns. *)
Definition drv1 {D A} (c : D → AnyDriver) (r : result (A * D)) : result (A * AnyDriver) :=
  '(a, d) ← r; Ok (a, c d).
Definition drv2 {D A} (c : D → AnyDriver) (r : result (A * (D * vm))) : result (A * (AnyDriver * vm)) :=
  '(a, (d, v)) ← r; Ok (a, (c d, v)).
Definition drv3 {D} (c : D → AnyDriver) (r : result (D * vm)) : result (AnyDriver * vm) :=
  '(d, v) ← r; Ok (c d, v).
Definition drv0 {D} (c : D → AnyDriver) (r : result D) : result AnyDriver := d ← r; Ok (c d).

#[export] Instance AnyDriver_ops : DriverOps AnyDriver := {
  driver_base q := match q with
    | DDummy d => driver_base d | DMemory d => driver_base d | DFD d => driver_base d | DMmap d => driver_base d
    | DC d => driver_base d | DClovis d => driver_base d | DIoc d => driver_base d end;
  pwrite q v buf size off := match q with
    | DDummy d => drv1 DDummy (pwrite d v buf size off) | DMemory d => drv1 DMemory (pwrite d v buf size off)
    | DFD d => drv1 DFD (pwrite d v buf size off) | DMmap d => drv1 DMmap (pwrite d v buf size off)
    | DC d => drv1 DC (pwrite d v buf size off) | DClovis d => drv1 DClovis (pwrite d v buf size off)
    | DIoc d => drv1 DIoc (pwrite d v buf size off) end;
  pread q v buf size off := match q with
    | DDummy d => drv2 DDummy (pread d v buf size off) | DMemory d => drv2 DMemory (pread d v buf size off)
    | DFD d => drv2 DFD (pread d v buf size off) | DMmap d => drv2 DMmap (pread d v buf size off)
    | DC d => drv2 DC (pread d v buf size off) | DClovis d => drv2 DClovis (pread d v buf size off)
    | DIoc d => drv2 DIoc (pread d v buf size off) end;
  dsync q v ptr off size := match q with
    | DDummy d => drv3 DDummy (dsync d v ptr off size) | DMemory d => drv3 DMemory (dsync d v ptr off size)
    | DFD d => drv3 DFD (dsync d v ptr off size) | DMmap d => drv3 DMmap (dsync d v ptr off size)
    | DC d => drv3 DC (dsync d v ptr off size) | DClovis d => drv3 DClovis (dsync d v ptr off size)
    | DIoc d => drv3 DIoc (dsync d v ptr off size) end;
  directMmap q v got size off p := match q with
    | DDummy d => drv2 DDummy (directMmap d v got size off p) | DMemory d => drv2 DMemory (directMmap d v got size off p)
    | DFD d => drv2 DFD (directMmap d v got size off p) | DMmap d => drv2 DMmap (directMmap d v got size off p)
    | DC d => drv2 DC (directMmap d v got size off p) | DClovis d => drv2 DClovis (directMmap d v got size off p)
    | DIoc d => drv2 DIoc (directMmap d v got size off p) end;
  directMunmap q v base size off := match q with
    | DDummy d => drv2 DDummy (directMunmap d v base size off) | DMemory d => drv2 DMemory (directMunmap d v base size off)
    | DFD d => drv2 DFD (directMunmap d v base size off) | DMmap d => drv2 DMmap (directMunmap d v base size off)
    | DC d => drv2 DC (directMunmap d v base size off) | DClovis d => drv2 DClovis (directMunmap d v base size off)
    | DIoc d => drv2 DIoc (directMunmap d v base size off) end;
  directMSync q v base size off := match q with
    | DDummy d => drv2 DDummy (directMSync d v base size off) | DMemory d => drv2 DMemory (directMSync d v base size off)
    | DFD d => drv2 DFD (directMSync d v base size off) | DMmap d => drv2 DMmap (directMSync d v base size off)
    | DC d => drv2 DC (directMSync d v base size off) | DClovis d => drv2 DClovis (directMSync d v base size off)
    | DIoc d => drv2 DIoc (directMSync d v base size off) end;
  establish_mapping q off size w := match q with
    | DDummy d => drv1 DDummy (establish_mapping d off size w) | DMemory d => drv1 DMemory (establish_mapping d off size w)
    | DFD d => drv1 DFD (establish_mapping d off size w) | DMmap d => drv1 DMmap (establish_mapping d off size w)
    | DC d => drv1 DC (establish_mapping d off size w) | DClovis d => drv1 DClovis (establish_mapping d off size w)
    | DIoc d => drv1 DIoc (establish_mapping d off size w) end;
  erase_mapping q id off size w := match q with
    | DDummy d => drv0 DDummy (erase_mapping d id off size w) | DMemory d => drv0 DMemory (erase_mapping d id off size w)
    | DFD d => drv0 DFD (erase_mapping d id off size w) | DMmap d => drv0 DMmap (erase_mapping d id off size w)
    | DC d => drv0 DC (erase_mapping d id off size w) | DClovis d => drv0 DClovis (erase_mapping d id off size w)
    | DIoc d => drv0 DIoc (erase_mapping d id off size w) end;
  checkThreadSafety q := match q with
    | DDummy d => checkThreadSafety d | DMemory d => checkThreadSafety d | DFD d => checkThreadSafety d
    | DMmap d => checkThreadSafety d | DC d => checkThreadSafety d | DClovis d => checkThreadSafety d
    | DIoc d => checkThreadSafety d end }.

(** The methods of the base class on the object. *)
Definition with_base (f : DriverBase → DriverBase) (q : AnyDriver) : AnyDriver :=
  match q with
  | DDummy d => DDummy (mkDummy (f (dummy_base d)) (dummy_value d))
  | DMemory d => DMemory (mkMemory (f (md_base d)) (md_size d) (md_buffer d))
  | DFD d => DFD (mkFD (f (fd_base d)) (fd d) (fd_kernel d))
  | DMmap d => DMmap (mkMmap (f (mmap_base d)) (mmap_fd d) (allowNotAligned d) (mmap_kernel d))
  | DC d => DC (mkCDriver (f (cdriver_base d)) (c_driver d) (driver_data d))
  | DClovis d => DClovis (mkClovis (f (clovis_base d)) (m_object_id d) (clovis_store d))
  | DIoc d => DIoc (mkIoc (f (ioc_base d)) (client d) (ioc_high d) (ioc_low d))
  end.

Definition set_autoclean (status : bool) : AnyDriver → AnyDriver := with_base (λ b, setAutoclean b status).
Definition set_uri (u : string) : AnyDriver → AnyDriver := with_base (λ b, driver_setUri b u).

(** The state outside the process, as the driver sees it; [k] if it sees none of it. *)
Definition kernel_of (k : K) (q : AnyDriver) : K :=
  match q with
  | DFD d => fd_kernel d
  | DMmap d => mmap_kernel d
  | DClovis d => clovis_store d
  | DIoc d => client d
  | _ => k
  end.

(** The destructors: what they leave outside the process. *)
Definition destroyDriver (k : K) (q : AnyDriver) : K :=
  match q with
  | DFD d => deleteFDDriver d
  | DMmap d => deleteMmapDriver d
  | _ => kernel_of k q
  end.

(** ** From a description to a driver (UriHandler) *)

Section Build.
Context `{FileNames K}.

(** The file opened by [buildDriverFOpen] and [buildDriverFOpenMmap]: an empty mode is
    [open], any other [fopen].  The descriptor is closed when the driver has its own. *)
Definition openForDriver (k : K) (fname mode : chars) : result (Z * K) :=
  if bool_decide (mode = []) then
    let '(fd, k') := kopen k fname in
    assume (0 <? fd) "Fail to open file '%1': %2";; Ok (fd, k')
  else
    match kfopen k fname mode with
    | Some (fd, k') => Ok (fd, k')
    | None => Err (Fatal "Fail to open file '%1': %2")
    end.

Definition buildDriverFOpen (k : K) (fname mode : chars) : result AnyDriver :=
  '(fd, k1) ← openForDriver k fname mode;
  d ← newFDDriver k1 fd;
  Ok (DFD (mkFD (fd_base d) (FileDrivers.fd d) (kclose (fd_kernel d) fd))).

Definition buildDriverFOpenMmap (k : K) (fname mode : chars) : result AnyDriver :=
  '(fd, k1) ← openForDriver k fname mode;
  d ← newMmapDriver k1 fd false;
  Ok (DMmap (mmap_set_kernel d (kclose (mmap_kernel d) fd))).

(** The constructions of [buildDriver]. *)
Definition construct (k : K) (spec : DriverSpec) : result AnyDriver :=
  match spec with
  | NewFDDriver fname mode => buildDriverFOpen k fname mode
  | NewMmapDriver fname mode => buildDriverFOpenMmap k fname mode
  | NewMmapAnon notAligned => d ← newMmapDriver k 0 notAligned; Ok (DMmap d)
  | NewMemory d => Ok (DMemory d)
  | NewDummy d => Ok (DDummy d)
  | NewClovis id => Ok (DClovis (newClovisDriver k (high id) (low id) true))
  | NewIoc id => Ok (DIoc (newIocDriver k (high id) (low id) true))
  end.
End Build.
End Dispatch.
Arguments AnyDriver : clear implicits.

(** ** Drivers that store bytes *)

Section Storage.
Context {K C : Type} `{RegularFiles K} `{Mero K} `{IocClient K}.

Definition any_content (q : AnyDriver K C) : Z → Z :=
  match q with DMemory d => content d | DFD d => content d | _ => λ _, 0 end.
Definition any_capacity (q : AnyDriver K C) : Z :=
  match q with DMemory d => capacity d | DFD d => capacity d | _ => 0 end.
Definition any_ok (q : AnyDriver K C) : Prop :=
  match q with DMemory d => driver_ok d | DFD d => driver_ok d | _ => False end.

Lemma any_pread q v buf size off :
  any_ok q → buf ≠ 0 → 0 < size → 0 ≤ off → off + size ≤ any_capacity q →
  (∀ x, buf ≤ x < buf + size → vm_mem v x = 0) →
  ∃ n v', pread q v buf size off = Ok (n, (q, v')) ∧ 0 ≤ n ∧ (∀ x, vm_prot v' x = vm_prot v x) ∧
    ∀ x, vm_mem v' x = if in_range buf size x then any_content q (off + (x - buf)) else vm_mem v x.
Proof.
  intros Hq Hb Hs Ho Hc Hz. destruct q; try done; cbn [any_ok any_capacity] in *;
    destruct (pread_law d v buf size off) as (n & v' & E & Hrest); try done;
    exists n, v'; (split; [cbn in E |- *; unfold drv2; by rewrite E|exact Hrest]).
Qed.

Lemma any_pwrite q v buf size off :
  any_ok q → buf ≠ 0 → 0 < size → 0 ≤ off → off + size ≤ any_capacity q →
  ∃ n q', pwrite q v buf size off = Ok (n, q') ∧ 0 ≤ n ∧ any_ok q' ∧ any_capacity q' = any_capacity q ∧
    ∀ x, any_content q' x = if in_range off size x then vm_mem v (buf + (x - off)) else any_content q x.
Proof.
  intros Hq Hb Hs Ho Hc. destruct q as [d|d|d|d|d|d|d]; try done; cbn [any_ok any_capacity] in *;
    destruct (pwrite_law d v buf size off) as (n & d' & E & Hrest); try done.
  - exists n, (DMemory d'). split; [cbn in E |- *; unfold drv1; by rewrite E|exact Hrest].
  - exists n, (DFD d'). split; [cbn in E |- *; unfold drv1; by rewrite E|exact Hrest].
Qed.

#[export] Instance AnyDriver_storage : StorageDriver (AnyDriver K C).
Proof.
  refine {| content := any_content; capacity := any_capacity; driver_ok := any_ok |};
    [exact any_pread|exact any_pwrite|..].
  - intros [d|d|d|d|d|d|d] Hd; try done; exact (capacity_law d Hd).
  - intros [d|d|d|d|d|d|d] v ptr off size Hd Ho; try done; cbn [any_ok any_capacity] in *;
      pose proof (dsync_law d v ptr off size Hd Ho) as E; cbn [dsync AnyDriver_ops]; unfold drv3; by rewrite E.
  - intros [d|d|d|d|d|d|d] v got size off p Hd; done.
  - intros [d|d|d|d|d|d|d] v b size off Hd; done.
  - intros [d|d|d|d|d|d|d] v b size off Hd; done.
  - intros [d|d|d|d|d|d|d] off size w Hd; done.
  - intros [d|d|d|d|d|d|d] id off size w Hd; done.
  - intros [d|d|d|d|d|d|d] Hd; done.
Defined.
End Storage.
