(* ===== verification/PublicApi.v ===== *)
(** * The public C interface (src/src/public-api/ummap.cpp)

    Every function of the interface casts its arguments and calls the methods modelled in
    the other files; here are those that do more: the constructors of drivers, the
    quotas, and the operations that give a mapping another storage, by copy (COW) or by
    switching.  They act on the global handler; [with_handler] of [Library] runs them in
    the process.  [k] is the state of the world outside (files, object stores): a driver
    carries what it saw last of it, so an operation refreshes the driver it works on, and
    returns the new state. *)

From Stdlib Require Import Ascii String.
From S2P Require Import Prelude ListElement Policy PolicyInterface OS Driver Mapping MappingInv MappingSpec MappingCopy System SystemInv Registry GlobalHandler Regex HumanUnits Uri UriHandler InterProc FileDrivers ClovisDriver IocDriver AnyDriver.

Section Api.
Context {K C P : Type} `{Posix K} `{Mero K} `{IocClient K} `{FileNames K} `{PolicyOps P}.
(** Was the library built with the IOC client? *)
Context (hasIoc : bool).
Abbreviation D := (AnyDriver K C).
Abbreviation G := (GlobalHandler D P).

(** ** Mappings *)

(** A [NULL] group is the group none. *)
Definition ummap (cpus : Z) (got : option Z) (g : G) (addr size segment_size storage_offset : Z) (protection : prot)
    (flags driver local_policy : Z) (policy_group : option string) (mid : Z) (alloc_l alloc_g : Z * Z)
    : result (Z * G) :=
  GlobalHandler.ummap cpus got g addr size segment_size storage_offset protection flags driver local_policy
    (default "none"%string policy_group) mid alloc_l alloc_g.

Definition umunmap (fuel : nat) (g : G) (ptr : Z) (sync : bool) : result G :=
  cassert (negb (ptr =? 0)) "ptr != NULL";; GlobalHandler.uunmap fuel g ptr sync.

Definition ummap_skip_first_read (g : G) (ptr : Z) : result G :=
  cassert (negb (ptr =? 0)) "ptr != NULL";; GlobalHandler.skipFirstRead g ptr.

Definition umflush (g : G) (ptr size : Z) (evict : bool) : result G := GlobalHandler.flush g ptr size evict false.
Definition umsync (g : G) (ptr size : Z) (evict : bool) : result G := GlobalHandler.flush g ptr size evict true.
Definition ummap_get_driver (g : G) (ptr : Z) : result Z := GlobalHandler.getDriver g ptr.
Definition ummap_make_dirty (g : G) (ptr size : Z) : result G := GlobalHandler.makeDirty g ptr.

(** ** Drivers *)

Definition ummap_driver_create_dummy (value : Z) : D := set_autoclean true (DDummy (newDummyDriver value)).

Definition ummap_driver_create_memory (size : Z) : result D :=
  d ← newMemoryDriver size 0; Ok (set_autoclean true (DMemory d)).

Definition ummap_driver_create_fd (k : K) (fd : Z) : result D :=
  d ← newFDDriver k fd; Ok (set_autoclean true (DFD d)).

Definition ummap_driver_create_dax_fd (k : K) (fd : Z) (allowNotAligned : bool) : result D :=
  d ← newMmapDriver k fd allowNotAligned; Ok (set_autoclean true (DMmap d)).

(** The file a caller names, closed again once the driver holds it. *)
Definition with_stream {A} (k : K) (file_path mode : chars) (f : K → Z → result A) : result A :=
  match kfopen k file_path mode with
  | Some (fd, k1) => f k1 fd
  | None => Err (Fatal "Fail to open file '%1': %2")
  end.

Definition close_in_driver (d : D) (fd : Z) : D :=
  match d with
  | DFD t => DFD (mkFD (fd_base t) (FileDrivers.fd t) (kclose (fd_kernel t) fd))
  | DMmap t => DMmap (mmap_set_kernel t (kclose (mmap_kernel t) fd))
  | _ => d
  end.

Definition ummap_driver_create_fopen (k : K) (file_path mode : chars) : result D :=
  with_stream k file_path mode (λ k1 fd,
    d ← ummap_driver_create_fd k1 fd; Ok (close_in_driver (set_autoclean true d) fd)).

Definition ummap_driver_create_dax_fopen (k : K) (file_path mode : chars) (allowNotAligned : bool) : result D :=
  with_stream k file_path mode (λ k1 fd,
    d ← ummap_driver_create_dax_fd k1 fd allowNotAligned; Ok (close_in_driver (set_autoclean true d) fd)).

Definition hasMero : bool := match mero_build with NO_MERO => false | _ => true end.

Definition ummap_driver_create_clovis (k : K) (high low : Z) (create : bool) : result D :=
  if hasMero then Ok (set_autoclean true (DClovis (newClovisDriver k high low create)))
  else Err (Fatal "Try to create a clovis driver, but ummap was compiled without mero/motr !").

Definition ummap_driver_create_ioc (k : K) (high low : Z) (create : bool) : result D :=
  if hasIoc then Ok (set_autoclean true (DIoc (newIocDriver k high low create)))
  else Err (Fatal "Ummap-io was build without support of IOC, cannot create the requested driver !").

Definition ummap_driver_create_c (driver : ummap_c_driver_t C) (driver_data : C) : D :=
  set_autoclean true (DC (newCDriver driver driver_data)).

Definition ummap_driver_create_uri (regex : bool) (listing : chars → chars → result ObjectId)
    (fname : ObjectId → chars) (vars : Variables) (k : K) (uri : chars) : result D :=
  '(spec, realUri) ← buildDriver regex hasMero hasIoc listing fname vars uri;
  d ← construct k spec;
  Ok (set_autoclean true (set_uri (Strings.String.string_of_list_ascii realUri) d)).

Definition ummap_driver_destroy (k : K) (d : D) : K := destroyDriver k d.
Definition ummap_driver_set_autoclean (d : D) (autoclean : bool) : D := set_autoclean autoclean d.

(** ** Policies and quotas *)

Definition ummap_policy_group_register (g : G) (name : string) (policy : Z) : result G :=
  GlobalHandler.registerPolicy g name policy.
Definition ummap_policy_group_destroy (fuel : nat) (g : G) (name : string) : result G :=
  GlobalHandler.unregisterPolicy fuel g name.

Definition ummap_policy_create_fifo (h : heap) (this root max_size : Z) (is_local : bool) : heap * AnyPolicy :=
  let '(h', p) := FifoPolicy.newFifoPolicy h this root max_size is_local in (h', PFifo p).
Definition ummap_policy_create_lifo (h : heap) (this root max_size : Z) (is_local : bool) : heap * AnyPolicy :=
  let '(h', p) := LifoPolicy.newLifoPolicy h this root max_size is_local in (h', PLifo p).
Definition ummap_policy_create_fifo_window (h : heap) (this rootFixed rootSliding max_size window_size : Z)
    (is_local : bool) : heap * AnyPolicy :=
  let '(h', p) := FifoWindowPolicy.newFifoWindowPolicy h this rootFixed rootSliding max_size window_size is_local in
  (h', PWindow p).

Definition ummap_policy_create_uri (regex : bool) (vars : Variables) (h : heap) (this : Z) (roots : Z * Z)
    (uri : chars) (is_local : bool) : result (heap * option AnyPolicy) :=
  UriHandler.buildPolicy regex vars h this roots uri is_local.

Definition ummap_uri_set_variable (vars : Variables) (name value : chars) : Variables :=
  registerVariable vars name value.
Definition ummap_uri_set_variable_int (vars : Variables) (name : chars) (value : Z) : Variables :=
  registerVariable_int vars name value.
Definition ummap_uri_set_variable_size_t (vars : Variables) (name : chars) (value : Z) : Variables :=
  registerVariable_size vars name value.

Definition ummap_policy_get_memory (w : World D P) (policy : Z) : result Z :=
  if policy =? 0 then Ok 0 else p ← deref (w_policies w !! policy); Ok (pol_getCurrentMemory p).

Definition ummap_quota_create_local (max_memory : Z) : PolicyQuota := mkQuota max_memory [].

(** The memory of [ummap_quota_create_inter_proc_env]: 0 when there is no quota to make. *)
Definition quota_env_value (regex : bool) (env_name : option chars) (getenv : chars → option chars)
    (default_max_mem : Z) : result Z :=
  name ← match env_name with
         | Some (c :: name) => Ok (c :: name)
         | _ => Err (Fatal "Invalid NULL or empty env name !")
         end;
  match getenv name with
  | Some var => fromHumanMemSize regex var
  | None => Ok default_max_mem
  end.

Definition ummap_quota_register_policy (fuel : nat) (w : World D P) (quota policy : Z) : result (World D P) :=
  if (quota =? 0) || (policy =? 0) then Ok w else System.registerPolicy fuel w quota policy.
Definition ummap_quota_unregister_policy (fuel : nat) (w : World D P) (quota policy : Z) : result (World D P) :=
  if (quota =? 0) || (policy =? 0) then Ok w else System.unregisterPolicy fuel w quota policy.

(** ** The driver of an address and the world outside *)

Definition driver_at (g : G) (addr : Z) : option (Z * D) :=
  match Registry.getMapping (mappingRegistry g) addr with
  | Ok mid => mo ← w_mappings (process g) !! mid; d ← w_drivers (process g) !! mo_driver mo; Some (mo_driver mo, d)
  | Err _ => None
  end.

(** What the driver left outside. *)
Definition kernel_at (k : K) (g : G) (addr : Z) : K :=
  match driver_at g addr with Some (_, d) => kernel_of k d | None => k end.

(** A descriptor of the caller is closed after the driver was used. *)
Definition close_at (g : G) (addr fd : Z) : G :=
  match driver_at g addr with
  | Some (did, d) =>
      let w := process g in
      set_process g (mkWorld (w_heap w) (w_vm w) (w_mappings w) (<[did := close_in_driver d fd]> (w_drivers w))
                       (w_policies w) (w_quotas w))
  | None => g
  end.

(** The [dynamic_cast]s, with the state outside refreshed. *)
Definition cast_fd (k : K) (d : D) : option (FDDriver K) :=
  match d with DFD t => Some (mkFD (fd_base t) (FileDrivers.fd t) k) | _ => None end.
Definition cast_mmap (k : K) (d : D) : option (MmapDriver K) :=
  match d with DMmap t => Some (mmap_set_kernel t k) | _ => None end.
Definition cast_clovis (k : K) (d : D) : option (ClovisDriver K) :=
  match d with DClovis t => Some (clovis_set_store t k) | _ => None end.
Definition cast_ioc (k : K) (d : D) : option (IocDriver K) :=
  match d with DIoc t => Some (ioc_set_client t k) | _ => None end.

Definition fd_set_kernel (t : FDDriver K) (k : K) : FDDriver K := mkFD (fd_base t) (FileDrivers.fd t) k.

(** ** Copy on write *)

(** The action of [ummap_cow_fd]: clone the range, or copy it through a driver on the new
    file; then the driver moves to that file. *)
Definition cow_fd_action (fd buffer : Z) (m : Mapping) (v : vm) (t : FDDriver K) : result (Z * (Mapping * vm * D)) :=
  let '(tryClone, t1) := cloneRange t fd (getStorageOffset m) (getSize m) in
  '(v1, t2) ← (if negb tryClone then
                 newDriver ← newFDDriver (fd_kernel t1) fd;
                 '(v1, _, newDriver) ← copyToDriver m v t1 newDriver buffer (getStorageOffset m ⊕ getSize m);
                 Ok (v1, fd_set_kernel t1 (deleteFDDriver newDriver))
               else Ok (v, t1));
  t3 ← fd_setFd t2 fd;
  Ok (0, (m, v1, DFD t3)).

Definition ummap_cow_fd (k : K) (g : G) (buffer addr fd : Z) (allow_exist : bool) : result (Z * K * G) :=
  '(status, g') ← GlobalHandler.applyCow (cast_fd k) (cow_fd_action fd buffer) g addr;
  Ok (status, kernel_at k g' addr, g').

Definition check_exist (k : K) (file_path : chars) (allow_exist : bool) : result unit :=
  if negb allow_exist
  then assume (negb (kaccess k file_path)) "Try to cow on an existing file (%1), but allow_exist is set to false !"
  else Ok tt.

Definition ummap_cow_fopen (k : K) (g : G) (buffer addr : Z) (file_path mode : chars) (allow_exist : bool)
    : result (Z * K * G) :=
  check_exist k file_path allow_exist;;
  '(fd, k1) ← openForDriver k file_path mode;
  '(status, k2, g') ← ummap_cow_fd k1 g buffer addr fd allow_exist;
  Ok (status, kclose k2 fd, close_at g' addr fd).

(** The action of [ummap_cow_dax]; [got] is where the kernel maps the new file. *)
Definition cow_dax_action (got : option Z) (fd : Z) (m : Mapping) (v : vm) (t : MmapDriver K)
    : result (Z * (Mapping * vm * D)) :=
  new_driver ← newMmapDriver (mmap_kernel t) fd true;
  '(v1, new_driver) ← directMmapCow got m v new_driver;
  t1 ← mmap_setFd (mmap_set_kernel t (mmap_kernel new_driver)) fd;
  let k1 := deleteMmapDriver (mmap_set_kernel new_driver (mmap_kernel t1)) in
  Ok (0, (m, v1, DMmap (mmap_set_kernel t1 k1))).

Definition ummap_cow_dax (k : K) (g : G) (got : option Z) (addr fd : Z) (allow_exist : bool) : result (Z * K * G) :=
  '(status, g') ← GlobalHandler.applyCow (cast_mmap k) (cow_dax_action got fd) g addr;
  Ok (status, kernel_at k g' addr, g').

Definition ummap_cow_dax_fopen (k : K) (g : G) (got : option Z) (addr : Z) (file_path mode : chars) (allow_exist : bool)
    : result (Z * K * G) :=
  check_exist k file_path allow_exist;;
  with_stream k file_path mode (λ k1 fd,
    '(status, k2, g') ← ummap_cow_dax k1 g got addr fd allow_exist;
    Ok (status, kclose k2 fd, close_at g' addr fd)).

Definition cow_clovis_action (high low buffer : Z) (m : Mapping) (v : vm) (t : ClovisDriver K)
    : result (Z * (Mapping * vm * D)) :=
  new_driver ← ummap_driver_create_clovis (clovis_store t) high low true;
  '(v1, _, new_driver) ← copyToDriver m v t new_driver buffer (getStorageOffset m ⊕ getSize m);
  Ok (0, (m, v1, DClovis (setObjectId (clovis_set_store t (kernel_of (clovis_store t) new_driver)) high low))).

Definition ummap_cow_clovis (k : K) (g : G) (buffer addr high low : Z) (allow_exist : bool) : result (Z * K * G) :=
  if hasMero then
    '(status, g') ← GlobalHandler.applyCow (cast_clovis k) (cow_clovis_action high low buffer) g addr;
    Ok (status, kernel_at k g' addr, g')
  else Err (Fatal "Try to cow a clovis driver, but ummap was compiled without mero/motr !").

Definition cow_ioc_action (high low : Z) (allow_exist : bool) (m : Mapping) (v : vm) (t : IocDriver K)
    : result (Z * (Mapping * vm * D)) :=
  '(status, t1) ← ioc_cow t high low allow_exist (getStorageOffset m) (getSize m);
  Ok (status, (m, v, DIoc t1)).

Definition ummap_cow_ioc (k : K) (g : G) (addr high low : Z) (allow_exist : bool) : result (Z * K * G) :=
  if hasIoc then
    '(status, g') ← GlobalHandler.applyCow (cast_ioc k) (cow_ioc_action high low allow_exist) g addr;
    Ok (status, kernel_at k g' addr, g')
  else Err (Fatal "Ummap-io was built without IOC support, cannot apply COW on the requested mapping !").

(** ** Switch *)

Definition switched (k : K) (addr : Z) (r : result G) : result (Z * K * G) :=
  g' ← r; Ok (0, kernel_at k g' addr, g').

Definition ummap_switch_fd (k : K) (g : G) (addr fd : Z) (clean_action : ummap_switch_clean_t) : result (Z * K * G) :=
  switched k addr (GlobalHandler.applySwitch (cast_fd k) clean_action (λ t, t' ← fd_setFd t fd; Ok (DFD t')) g addr).

Definition ummap_switch_fopen (k : K) (g : G) (addr : Z) (file_path mode : chars) (clean_action : ummap_switch_clean_t)
    : result (Z * K * G) :=
  with_stream k file_path mode (λ k1 fd,
    '(status, k2, g') ← ummap_switch_fd k1 g addr fd clean_action;
    Ok (status, kclose k2 fd, close_at g' addr fd)).

(** These two ignore the clean action. *)
Definition ummap_switch_dax (k : K) (g : G) (got : option Z) (addr fd : Z) (clean_action : ummap_switch_clean_t)
    : result (Z * K * G) :=
  ummap_cow_dax k g got addr fd true.
Definition ummap_switch_dax_fopen (k : K) (g : G) (got : option Z) (addr : Z) (file_path mode : chars)
    (clean_action : ummap_switch_clean_t) : result (Z * K * G) :=
  ummap_cow_dax_fopen k g got addr file_path mode true.

Definition ummap_switch_clovis (k : K) (g : G) (addr high low : Z) (clean_action : ummap_switch_clean_t)
    : result (Z * K * G) :=
  if hasMero then
    switched k addr (GlobalHandler.applySwitch (cast_clovis k) clean_action (λ t, Ok (DClovis (setObjectId t high low))) g addr)
  else Err (Fatal "Ummap-io was built without Mero/Motr support, cannot apply COW on the requested mapping !").

Definition ummap_switch_ioc (k : K) (g : G) (addr high low : Z) (clean_action : ummap_switch_clean_t)
    : result (Z * K * G) :=
  if hasIoc then
    switched k addr (GlobalHandler.applySwitch (cast_ioc k) clean_action (λ t, Ok (DIoc (switchDestination t high low))) g addr)
  else Err (Fatal "Ummap-io was built without IOC support, cannot apply COW on the requested mapping !").

(** ** By resource identifier *)

(** What [UriHandler::applyCow] and [UriHandler::applySwitch] call. *)
Definition run_cow (k : K) (g : G) (buffer : Z) (got : option Z) (addr : Z) (allow_exist : bool)
    (call : option RetargetCall) : result (Z * K * G) :=
  match call with
  | Some (RetargetIoc id) => ummap_cow_ioc k g addr (high id) (low id) allow_exist
  | Some (RetargetClovis id) => ummap_cow_clovis k g buffer addr (high id) (low id) allow_exist
  | Some (RetargetFopen fname mode) => ummap_cow_fopen k g buffer addr fname mode allow_exist
  | Some (RetargetDax fname mode) => ummap_cow_dax_fopen k g got addr fname mode allow_exist
  | None => Ok (0, k, g)
  end.

Definition run_switch (k : K) (g : G) (got : option Z) (addr : Z) (clean_action : ummap_switch_clean_t)
    (call : option RetargetCall) : result (Z * K * G) :=
  match call with
  | Some (RetargetIoc id) => ummap_switch_ioc k g addr (high id) (low id) clean_action
  | Some (RetargetClovis id) => ummap_switch_clovis k g addr (high id) (low id) clean_action
  | Some (RetargetFopen fname mode) => ummap_switch_fopen k g addr fname mode clean_action
  | Some (RetargetDax fname mode) => ummap_switch_dax_fopen k g got addr fname mode clean_action
  | None => Ok (0, k, g)
  end.

Definition ummap_cow_uri (regex : bool) (listing : chars → chars → result ObjectId) (vars : Variables)
    (k : K) (g : G) (buffer : Z) (got : option Z) (addr : Z) (uri : chars) (allow_exist : bool) : result (Z * K * G) :=
  call ← UriHandler.applyCow regex listing vars uri; run_cow k g buffer got addr allow_exist call.

Definition ummap_switch_uri (regex : bool) (listing : chars → chars → result ObjectId) (vars : Variables)
    (k : K) (g : G) (got : option Z) (addr : Z) (uri : chars) (clean_action : ummap_switch_clean_t)
    : result (Z * K * G) :=
  call ← UriHandler.applySwitch regex listing vars uri; run_switch k g got addr clean_action call.
End Api.

(** ** What a copy to another file does *)

Section CowFd.
Context {K C : Type} `{SharedFiles K} `{!Mero K} `{!IocClient K}.












End CowFd.

Section CowHandler.
Context {K C P : Type} `{SharedFiles K} `{!Mero K} `{!IocClient K} `{TrackingPolicy P}.
Abbreviation D := (AnyDriver K C).


End CowHandler.

(** ** A mapping on a file, moved to another *)

Section Demo.
(** A system without object stores. *)
#[local] Instance no_mero : Mero Files := {
  mero_build := NO_MERO; create_object k _ := k; layout_unit_size _ := 0;
  read_data_from_object k _ _ := (-1, [], k); write_data_to_object k _ _ _ := (-1, k);
  c0appz_m0bs _ _ _ _ := 0; c0appz_mr k _ _ _ _ _ := (-1, [], k); c0appz_mw k _ _ _ _ _ _ := (-1, k) }.
#[local] Instance no_ioc : IocClient Files := {
  ioc_client_obj_create k _ _ := k; ioc_client_obj_write k _ _ _ _ := (-1, k);
  ioc_client_obj_read k _ _ _ _ := (-1, [], k); ioc_client_obj_flush k _ _ _ _ := k;
  ioc_client_obj_range_register k _ _ _ _ _ := (-1, k); ioc_client_obj_range_unregister k _ _ _ _ _ _ := (-1, k);
  ioc_client_obj_cow k _ _ _ _ _ _ _ := (-1, k); uname _ := (-1, []) }.

Abbreviation DemoDriver := (AnyDriver Files unit).






End Demo.
