(* ===== verification/RepositoryTests.v ===== *)
(** * The unit tests of the repository, run on the model

    The tests of src/src/*/tests that call modelled code, with the values they expect: each
    [Example] runs the definitions on the scenario of one test (its suite and name are in
    the comment) and compares what the test observes.  [MockDriver] stands for the mock
    of src/src/drivers/GMockDriver.hpp: it moves no byte and records its calls.  A test that
    replaces [Mapping::evict] by a mock is run with the real one, which is observed by the
    segments it writes back.  Left out: the tests whose expectations are on a mock policy,
    on files of the machine, on signals or on parallel loops. *)

From S2P Require Import Prelude ListElement Registry Policy PolicyInterface OS Driver Mapping MappingCopy System.
From S2P Require Import GlobalHandler Regex HumanUnits Uri UriHandler Listings InterProc.

(** ** Harness *)

Inductive call :=
  | CPread (size offset : Z)
  | CPwrite (size offset : Z)
  | CSync (ptr offset size : Z).

Record MockDriver := mkMock { mock_calls : list call }.

Definition log (d : MockDriver) (c : call) : MockDriver := mkMock (mock_calls d ++ [c]).

#[export] Instance MockDriver_ops : DriverOps MockDriver := {
  driver_base d := newDriver;
  pwrite d v buffer size offset := Ok (size, log d (CPwrite size offset));
  pread d v buffer size offset := Ok (size, (log d (CPread size offset), v));
  dsync d v ptr offset size := Ok (log d (CSync ptr offset size), v);
  directMmap := base_directMmap; directMunmap := base_directMunmap;
  directMSync := base_directMSync; establish_mapping := base_establish_mapping;
  erase_mapping := base_erase_mapping; checkThreadSafety := base_checkThreadSafety }.

Definition KB : Z := 1024.
Definition PAGE : Z := UMMAP_PAGE_SIZE.
Definition RW : prot := mkProt true true false.
Definition temp : option Z := Some (2 ^ 30).
Definition no_memory : vm := mkVm (λ _, 0) (λ _, None).

(** A mapping without policies on a fresh mock: [Mapping(NULL, size, UMMAP_PAGE_SIZE,
    offset, PROT_READ|PROT_WRITE, UMMAP_DEFAULT, &driver, NULL, NULL)]. *)
Abbreviation MState := (Mapping * vm * MockDriver)%type.
Definition BASE : Z := 65536.
Definition mock_mapping (size offset : Z) : result MState :=
  newMapping 1 (Some BASE) no_memory (mkMock []) size PAGE offset RW 0.
Definition fault (s : MState) (offset : Z) (isWrite : bool) : result MState :=
  '(m, v, d, _) ← onSegmentationFault temp (fst (fst s)) (snd (fst s)) (snd s) (BASE + offset) isWrite;
  Ok (m, v, d).
Definition drop_clean (s : MState) : result MState :=
  '(m, v) ← dropClean (fst (fst s)) (snd (fst s)); Ok (m, v, snd s).
Definition flush_mapping (s : MState) (sync : bool) : result MState :=
  flush_all (fst (fst s)) (snd (fst s)) (snd s) sync.
Definition calls (s : MState) : list call := mock_calls (snd s).
Definition can_write (s : MState) (offset : Z) : bool := writable (snd (fst s)) (BASE + offset).

(** A process: driver 1, the mapping [i] at [i * BASE], policies with their list heads in
    the first KB after their address and arrays of list elements in the following ones. *)
Abbreviation Process := (World MockDriver AnyPolicy).
Definition new_process : Process := mkWorld ∅ no_memory ∅ {[ 1 := mkMock [] ]} ∅ ∅.
Definition mapping_at (i : Z) : Z := i * BASE.
Definition policy_at (i : Z) : Z := i * 2 ^ 20.
Definition roots (pid : Z) : Z * Z := (pid + 16, pid + 32).
Definition arrays (pid mid : Z) : Z * Z := (pid + mid, pid + mid + KB).

Definition with_policy (pid : Z) (hp : heap * AnyPolicy) (w : Process) : Process :=
  set_policy w (fst hp) pid (snd hp).
Definition new_fifo (pid maxMemory : Z) (local : bool) (w : Process) : Process :=
  with_policy pid (prod_map id PFifo (FifoPolicy.newFifoPolicy (w_heap w) pid (fst (roots pid)) maxMemory local)) w.
Definition new_lifo (pid maxMemory : Z) (local : bool) (w : Process) : Process :=
  with_policy pid (prod_map id PLifo (LifoPolicy.newLifoPolicy (w_heap w) pid (fst (roots pid)) maxMemory local)) w.
Definition new_window (pid maxMemory window : Z) (local : bool) (w : Process) : Process :=
  with_policy pid (prod_map id PWindow
    (FifoWindowPolicy.newFifoWindowPolicy (w_heap w) pid (fst (roots pid)) (snd (roots pid)) maxMemory window local)) w.
Definition new_quota (qid maxMemory : Z) (w : Process) : Process := set_quota w qid (mkQuota maxMemory []).

Definition new_mapping (mid pages localPolicy globalPolicy : Z) (w : Process) : result Process :=
  createMapping 1 (Some mid) w mid 1 (pages * PAGE) PAGE 0 RW 0 localPolicy globalPolicy
    (arrays localPolicy mid) (arrays globalPolicy mid).
Definition touch (isWrite : bool) (mid : Z) (w : Process) (page : Z) : result Process :=
  handleFault 100 temp w mid (mid + page * PAGE) isWrite.
Definition touch_all (mid : Z) (pages : list Z) (w : Process) : result Process := foldM (touch true mid) w pages.

(** The offsets written back so far, in pages. *)
Definition written_page (c : call) : option Z := match c with CPwrite _ o => Some (o / PAGE) | _ => None end.
Definition evicted (w : Process) : list Z := from_option (omap written_page ∘ mock_calls) [] (w_drivers w !! 1).
Definition is_mapped (w : Process) (mid page : Z) : result bool :=
  mo ← deref (w_mappings w !! mid); s ← get_status (mo_mapping mo) page; Ok (mapped s).

Definition M1 : Z := mapping_at 1.
Definition M2 : Z := mapping_at 2.
Definition P1 : Z := policy_at 1.
Definition P2 : Z := policy_at 2.
Definition Q1 : Z := 77.

(** [Ok] of an observation of a run that succeeds. *)
Abbreviation observe f r := (x ← r; Ok (f x)).

(** ** TestMapping *)

Definition status_of (page : Z) (s : MState) : result SegmentStatus := getSegmentStatus (fst (fst s)) (page * PAGE).

(** TestMapping.constructor_destructor, first_touch_read_first and first_touch_write_first. *)
Example TestMapping_constructor :
  (s ← mock_mapping (8 * PAGE) 0; mapM (λ i, status_of i s) (seqZ 0 8)) =
  Ok (replicate 8 (mkStatus false false true)).
Proof. vm_compute. reflexivity. Qed.

Example TestMapping_first_touch (isWrite : bool) :
  (s ← mock_mapping (8 * PAGE) 0; s ← fault s 0 isWrite; mapM (λ i, status_of i s) [0; 1]) =
  Ok [mkStatus true isWrite true; mkStatus false false true].
Proof. destruct isWrite; vm_compute; reflexivity. Qed.

Example TestMapping_storage_offset :
  observe calls (s ← mock_mapping (8 * PAGE) 128; s ← fault s 0 false; fault s PAGE false) =
  Ok [CPread PAGE 128; CPread PAGE (128 + PAGE)].
Proof. vm_compute. reflexivity. Qed.

(** The clean segment is read again, the dirty one is not. *)
Example TestMapping_dropClean :
  observe calls (s ← mock_mapping (8 * PAGE) 128; s ← fault s 0 false; s ← fault s PAGE true;
                 s ← drop_clean s; s ← fault s 0 false; fault s PAGE false) =
  Ok [CPread PAGE 128; CPread PAGE (128 + PAGE); CPread PAGE 128].
Proof. vm_compute. reflexivity. Qed.

Example TestMapping_storage_offset_and_non_full :
  observe calls (s ← mock_mapping 512 128; fault s 0 false) = Ok [CPread 512 128].
Proof. vm_compute. reflexivity. Qed.

Example TestMapping_first_last_non_full :
  observe calls (s ← mock_mapping (8 * PAGE + 1024) 0; fault s (8 * PAGE + 1024 - 10) false) =
  Ok [CPread 1024 (8 * PAGE)].
Proof. vm_compute. reflexivity. Qed.

(** TestMapping.flush and sync: two pages are written, and can no more be accessed. *)
Definition two_pages (sync : bool) : result MState :=
  s ← mock_mapping (8 * PAGE) 0; s ← fault s 0 true; s ← fault s PAGE true; flush_mapping s sync.

Example TestMapping_flush (sync : bool) :
  observe (λ s, (calls s, [can_write s 0; can_write s PAGE])) (two_pages sync) =
  Ok ([CPread PAGE 0; CPread PAGE PAGE; CPwrite PAGE 0; CPwrite PAGE PAGE] ++
      (if sync then [CSync BASE 0 (8 * PAGE)] else []), [false; false]).
Proof. destruct sync; vm_compute; reflexivity. Qed.

(** TestMapping.copyToDriver_aligned and copyToDriver_not_aligned: of the segments in
    memory the dirty one is read again, all are written. *)
Definition copied (size offset last : Z) : result (list call * list call) :=
  s ← mock_mapping size offset;
  s ← foldM (λ s o, fault s o false) s [0; PAGE; 2 * PAGE; 3 * PAGE; last];
  s ← fault s (2 * PAGE) true;
  '(_, d, nd) ← copyToDriver (fst (fst s)) (snd (fst s)) (snd s) (mkMock []) (2 ^ 40) (8 * PAGE);
  Ok (drop (length (calls s)) (mock_calls d), mock_calls nd).

Example TestMapping_copyToDriver_aligned :
  copied (4 * PAGE) (2 * PAGE) 0 =
  Ok ([CPread PAGE (4 * PAGE)], (λ i, CPwrite PAGE (i * PAGE)) <$> [2; 3; 4; 5]).
Proof. vm_compute. reflexivity. Qed.

Example TestMapping_copyToDriver_not_aligned :
  copied (4 * PAGE + 1024) (2 * PAGE - 512) (4 * PAGE + 512) =
  Ok ([CPread PAGE (4 * PAGE - 512)],
      ((λ i, CPwrite PAGE (i * PAGE - 512)) <$> [2; 3; 4; 5]) ++ [CPwrite 1024 (6 * PAGE - 512)]).
Proof. vm_compute. reflexivity. Qed.

(** TestMapping.getMaxMemory_no_policy, _local_policy and _global_policy. *)
Definition max_memory (localPolicy globalPolicy : Z) (w : Process) : result Z :=
  w ← new_mapping M1 10 localPolicy globalPolicy w;
  mo ← deref (w_mappings w !! M1);
  Ok (getPolicyMaxMemory
        (λ pid, from_option (λ p, getStaticMaxMemory (pol_base p)) 0 (w_policies w !! pid)) (mo_mapping mo)).

Example TestMapping_getMaxMemory :
  max_memory 0 0 new_process = Ok SIZE_MAX ∧
  max_memory P1 0 (new_fifo P1 (4 * PAGE) true new_process) = Ok (4 * PAGE) ∧
  max_memory P1 P2 (new_fifo P2 (2 * PAGE) false (new_fifo P1 (4 * PAGE) true new_process)) = Ok (2 * PAGE).
Proof. vm_compute. auto. Qed.

(** TestMapping.globalPolicy: a touch of the second mapping evicts from the first one. *)
Example TestMapping_globalPolicy :
  (w ← new_mapping M1 8 0 P1 (new_fifo P1 (2 * PAGE) false new_process);
   w ← new_mapping M2 8 0 P1 w;
   w ← touch false M1 w 1; w ← touch false M2 w 1; w ← touch false M2 w 2;
   mapM (λ '(mid, page), is_mapped w mid page) [(M1, 1); (M2, 1); (M2, 2)]) = Ok [false; true; true].
Proof. vm_compute. reflexivity. Qed.

(** ** TestFifoPolicy, TestLifoPolicy, TestFifoWindowPolicy *)

(** The evictions of a run of stores to one mapping. *)
Definition evictions (pages : Z) (touched : list Z) (w : Process) : result (list Z) :=
  observe evicted (w ← new_mapping M1 pages P1 0 w; touch_all M1 touched w).

Example TestFifoPolicy_evict :
  evictions 8 [0; 1; 2; 3; 4] (new_fifo P1 (2 * PAGE) true new_process) = Ok [0; 1; 2].
Proof. vm_compute. reflexivity. Qed.

Example TestLifoPolicy_evict :
  evictions 8 [0; 1; 2; 3; 4] (new_lifo P1 (2 * PAGE) true new_process) = Ok [1; 2; 3].
Proof. vm_compute. reflexivity. Qed.

Example TestFifoWindowPolicy_evict :
  evictions 16 (seqZ 0 11 ++ seqZ 0 6) (new_window P1 (8 * PAGE) (2 * PAGE) true new_process) = Ok [6; 7; 8].
Proof. vm_compute. reflexivity. Qed.

(** TestFifoPolicy.freeElementStorage and TestLifoPolicy.freeElementStorage, and the test
    of the window policy: a global policy forgets a mapping that is deleted. *)
Definition memory_of (pid : Z) (w : Process) : result Z := getCurrentMemory w pid.
Definition before_and_after (pages : list Z) (w : Process) : result (list Z) :=
  w0 ← new_mapping M1 8 0 P1 w; w1 ← touch_all M1 pages w0; w2 ← destroyMapping 100 w1 M1;
  mapM (memory_of P1) [w0; w1; w2].

Example TestPolicies_freeElementStorage :
  before_and_after [0; 1] (new_fifo P1 (2 * PAGE) false new_process) = Ok [0; 2 * PAGE; 0] ∧
  before_and_after [0; 1] (new_lifo P1 (2 * PAGE) false new_process) = Ok [0; 2 * PAGE; 0] ∧
  before_and_after [0; 1; 2] (new_window P1 (3 * PAGE) PAGE false new_process) = Ok [0; 3 * PAGE; 0].
Proof. vm_compute. auto. Qed.

(** ** TestPolicyQuotaLocal *)

(** One mapping under a FIFO policy of [limit] pages and a quota of two: the memory after
    each of eight stores. *)
Definition quota_one (limit : Z) : result (list Z) :=
  w ← new_mapping M1 8 P1 0 (new_quota Q1 (2 * PAGE) (new_fifo P1 (limit * PAGE) true new_process));
  w ← System.registerPolicy 100 w Q1 P1;
  '(_, out) ← foldM (λ '(w, out) page, w' ← touch true M1 w page; x ← memory_of P1 w'; Ok (w', out ++ [x / PAGE]))
    (w, []) (seqZ 0 8);
  Ok out.

Example TestPolicyQuotaLocal_one :
  quota_one 2 = Ok [1; 2; 2; 2; 2; 2; 2; 2] ∧ quota_one 4 = Ok [1; 2; 2; 2; 2; 2; 2; 2].
Proof. vm_compute. auto. Qed.

(** Two mappings, each with its policy, share a quota of [total] pages: the memory of the
    two policies, in pages, after a run of stores [(mapping, page)]. *)
Definition quota_two (new : Z → Process → Process) (total : Z) (touched : list (Z * Z)) : result (Z * Z) :=
  w ← new_mapping M1 8 P1 0 (new_quota Q1 (total * PAGE) (new P2 (new P1 new_process)));
  w ← new_mapping M2 8 P2 0 w;
  w ← System.registerPolicy 100 w Q1 P1;
  w ← System.registerPolicy 100 w Q1 P2;
  w ← foldM (λ w '(mid, page), touch true mid w page) w touched;
  m1 ← memory_of P1 w; m2 ← memory_of P2 w;
  Ok (m1 / PAGE, m2 / PAGE).

Definition fifo_of (pages : Z) (pid : Z) : Process → Process := new_fifo pid (pages * PAGE) true.
Definition lifo_of (pages : Z) (pid : Z) : Process → Process := new_lifo pid (pages * PAGE) true.
Definition window_of (pages : Z) (pid : Z) : Process → Process := new_window pid (pages * PAGE) PAGE true.

(** quota_reach_two, at the end of each of its eight rounds. *)
Example TestPolicyQuotaLocal_reach_two :
  mapM (λ n, quota_two (fifo_of 4) 2 (seqZ 0 n ≫= λ i, [(M1, i); (M2, i)])) (seqZ 1 8) = Ok (replicate 8 (1, 1)).
Proof. vm_compute. reflexivity. Qed.

(** quota_reach_two_unbalanced, _lifo and _fifo_window. *)
Example TestPolicyQuotaLocal_unbalanced :
  Forall (λ new, quota_two new 4 [(M1, 0); (M2, 0)] = Ok (1, 1) ∧
                 quota_two new 4 [(M1, 0); (M2, 0); (M2, 1); (M2, 2)] = Ok (1, 3))
    [fifo_of 8; lifo_of 8; window_of 8].
Proof. rewrite !Forall_cons, Forall_nil. vm_compute. auto 10. Qed.

(** ** TestPolicyQuotaInterProc *)

(** basic and two_process: the static limit of the quota of a process, with one policy,
    after an update; [pids] are the processes that registered. *)
Definition shared_quota (pids : list Z) : result Z :=
  s ← foldM (registerProcess (λ _, true)) newShared pids;
  w ← System.registerPolicy 100 (new_quota Q1 (4 * PAGE) (new_fifo P1 (4 * PAGE) true new_process)) Q1 P1;
  w ← update_share 100 w Q1 s (4 * PAGE);
  q ← deref (w_quotas w !! Q1); Ok (q_staticMaxMemory q).

Example TestPolicyQuotaInterProc_shares :
  shared_quota [11] = Ok (4 * PAGE) ∧ shared_quota [11; 12] = Ok (2 * PAGE).
Proof. vm_compute. auto. Qed.

(** ** TestPolicy *)

Definition buffer : Z := 10000.
Definition registered : result Policy := Policy.registerMapping (λ _, PAGE) (newPolicy P1 4096 false) M1 buffer 4096 1 0.

Example TestPolicy_contains :
  contains (mkStorage M1 buffer 4096 1 0) <$> [buffer; buffer + 4095; buffer - 1; buffer + 4096] =
  [true; true; false; false].
Proof. reflexivity. Qed.

Example TestPolicy_getStorageInfo :
  observe elements (p ← registered; getStorageInfo p M1) = Ok buffer ∧
  (p ← registered; getStorageInfo p (M1 + 1)) = Err (Fatal "Fail to found policy of given mapping !") ∧
  observe elements (p ← registered; getStorageInfo_entry p buffer) = Ok buffer ∧
  observe elements (p ← registered; getStorageInfo_entry p (buffer + 4095)) = Ok buffer ∧
  (p ← registered; getStorageInfo_entry p (buffer + 4096)) = Err (Fatal "Fail to found policy storage entry !").
Proof. vm_compute. auto. Qed.

(** ** TestMappingRegistry and TestPolicyRegistry *)

Definition MB : Z := 1024 * 1024.

Example TestMappingRegistry_reg :
  (r ← Registry.registerMapping [] M1 BASE (10 * MB);
   found ← mapM (Registry.getMapping r) [BASE; BASE + PAGE; BASE + 10 * MB - 1; BASE + 10 * MB; 32];
   r' ← Registry.unregisterMapping r M1; gone ← Registry.getMapping r' BASE;
   Ok (found, gone)) = Ok ([M1; M1; M1; 0; 0], 0).
Proof. vm_compute. reflexivity. Qed.

Example TestPolicyRegistry_all :
  Registry.get ∅ "test" true = Ok 0 ∧
  (r ← Registry.registerPolicy ∅ "test" P1; Registry.get r "test" false) = Ok P1 ∧
  (r ← Registry.registerPolicy ∅ "test" P1; '(policy, r') ← Registry.unregisterPolicy r "test";
   x ← Registry.get r' "test" true; Ok (policy, x)) = Ok (P1, 0) ∧
  observe deleteAll (Registry.registerPolicy ∅ "test" P1) = Ok ([P1], ∅).
Proof. vm_compute. auto. Qed.

(** ** TestListElement *)

Definition E1 : Z := 16.
Definition E2 : Z := 32.
Definition E3 : Z := 48.
Definition three_alone : heap := newElement (newElement (newElement ∅ E1) E2) E3.
Definition neighbours (h : heap) (e : Z) : option (Z * Z) := (λ x, (prev x, next x)) <$> h !! e.
Definition after_chain : result heap := h ← insertAfter three_alone E1 E2; insertAfter h E2 E3.
Definition before_chain : result heap := h ← insertBefore three_alone E1 E2; insertBefore h E2 E3.

Example TestListElement_isAlone :
  isAlone three_alone E1 = Ok true ∧ (h ← insertAfter three_alone E1 E2; isAlone h E1) = Ok false.
Proof. vm_compute. auto. Qed.

Example TestListElement_isInList :
  mapM (isInList three_alone) [E1; E2] = Ok [false; false] ∧
  (h ← insertAfter three_alone E1 E2; mapM (isInList h) [E1; E2]) = Ok [true; true].
Proof. vm_compute. auto. Qed.

Example TestListElement_insert :
  observe (λ h, neighbours h E1) after_chain = Ok (Some (E3, E2)) ∧
  observe (λ h, neighbours h E1) before_chain = Ok (Some (E2, E3)).
Proof. vm_compute. auto. Qed.

Definition pop_thrice (pop : heap → Z → result (option Z * heap)) (h : heap) : result (list (option Z)) :=
  '(x, h1) ← pop h E1; '(y, h2) ← pop h1 E1; '(z, _) ← pop h2 E1; Ok [x; y; z].

Example TestListElement_pop :
  (h ← after_chain; pop_thrice popNext h) = Ok [Some E2; Some E3; None] ∧
  (h ← before_chain; pop_thrice popPrev h) = Ok [Some E2; Some E3; None].
Proof. vm_compute. auto. Qed.

(** ** TestHumanUnits *)

Definition sizes : list chars := str <$> ["32"; "32B"; "32KB"; "32MB"; "32GB"; "32TB"]%string.
Definition sizes_read : list Z := [32; 32; 32 * 2 ^ 10; 32 * 2 ^ 20; 32 * 2 ^ 30; 32 * 2 ^ 40].

Example TestHumanUnits_all :
  mapM fromHumanMemSizeNoRegexp sizes = Ok sizes_read ∧ mapM fromHumanMemSizeRegexp sizes = Ok sizes_read.
Proof. vm_compute. auto. Qed.

(** ** TestURI, with each of the two parsers *)

(** Type, path and the parameters of the given names. *)
Definition read_uri (regex : bool) (text : string) (names : list string) : result (chars * chars * list chars) :=
  u ← newUri regex (str text); ps ← mapM (λ n, getParam u (str n)) names; Ok (getType u, getPath u, ps).

Example TestURI_parse (regex : bool) :
  read_uri regex "file://filename.raw" [] = Ok (str "file", str "filename.raw", []) ∧
  read_uri regex "file://directory/filename.raw" [] = Ok (str "file", str "directory/filename.raw", []) ∧
  read_uri regex "file://directory/filename.raw?mode=w+&size=1024" ["mode"; "size"]%string =
    Ok (str "file", str "directory/filename.raw", [str "w+"; str "1024"]) ∧
  read_uri regex "mero://auto?listing=listing.txt&name=test&last=ok" ["listing"; "name"; "last"]%string =
    Ok (str "mero", str "auto", [str "listing.txt"; str "test"; str "ok"]).
Proof. destruct regex; vm_compute; auto. Qed.

Example TestURI_parse_expected (regex : bool) :
  (is_ok ∘ newUri regex ∘ str) <$>
    ["mero://1234:5678"; "mero://1234:5678?autoinit=true"; "mem://10241024"; "dummy://16"]%string =
  replicate 4 true.
Proof. destruct regex; vm_compute; reflexivity. Qed.

Example TestURI_getParam (regex : bool) :
  (u ← newUri regex (str "file://fname?mode=w+");
   Ok (getParam u (str "mode"), getParam_default u (str "mode") (str "default"),
       getParam_default u (str "other") (str "default"), getParam u (str "none"))) =
  Ok (Ok (str "w+"), str "w+", str "default", Err missingParam).
Proof. destruct regex; vm_compute; reflexivity. Qed.

Example TestURI_getParam_numbers (regex : bool) :
  (u ← newUri regex (str "file://fname?mode=10");
   Ok ([getParamAsInt u (str "mode"); getParamAsSizet u (str "mode");
        getParamAsInt u (str "none"); getParamAsSizet u (str "none")],
       [getParamAsInt_default u (str "mode") 15; getParamAsInt_default u (str "other") 20;
        getParamAsSizet_default u (str "mode") 25; getParamAsSizet_default u (str "other") 20])) =
  Ok ([Ok 10; Ok 10; Err missingParam; Err missingParam], [10; 20; 10; 20]).
Proof. destruct regex; vm_compute; reflexivity. Qed.

Example TestURI_constructor_invalid (regex : bool) :
  newUri regex (str "blabla") = Err invalidUri.
Proof. destruct regex; vm_compute; reflexivity. Qed.

(** ** TestUriHandler *)

Definition variables : Variables :=
  registerVariable_size
    (registerVariable_int (registerVariable [] (str "fname") (str "resultat.raw")) (str "rank") 20)
    (str "rank_long") 40.

Example TestUriHandler_replaceVariables :
  mapM (replaceVariables variables ∘ str)
    ["file://{fname}"; "file://resultat-{rank}.raw"; "file://resultat-{rank_long}.raw"]%string =
  Ok (str <$> ["file://resultat.raw"; "file://resultat-20.raw"; "file://resultat-40.raw"]%string).
Proof. vm_compute. reflexivity. Qed.

(** The class of the policy that is built. *)
Definition class_of (p : AnyPolicy) : string :=
  match p with PFifo _ => "FifoPolicy" | PLifo _ => "LifoPolicy" | PWindow _ => "FifoWindowPolicy" end.

Definition class_built (regex : bool) (u : string) : result (option string) :=
  '(_, p) ← buildPolicy regex [] ∅ P1 (roots P1) (str u) true; Ok (option_map class_of p).

Example TestUriHandler_buildPolicy (regex : bool) :
  mapM (class_built regex)
    ["fifo://4096"; "fifo-window://8MB?window=1MB"; "lifo://4096"]%string =
  Ok (Some <$> ["FifoPolicy"; "FifoWindowPolicy"; "LifoPolicy"]%string).
Proof. destruct regex; vm_compute; reflexivity. Qed.

(** The class of the driver that is built, without Mero and IOC. *)
Definition driver_class (d : DriverSpec) : string :=
  match d with
  | NewFDDriver _ _ => "FDDriver" | NewMmapDriver _ _ | NewMmapAnon _ => "MmapDriver"
  | NewMemory _ => "MemoryDriver" | NewDummy _ => "DummyDriver"
  | NewClovis _ => "ClovisDriver" | NewIoc _ => "IocDriver"
  end.
Definition driver_built (regex : bool) (u : string) : result string :=
  '(d, _) ← buildDriver regex false false (λ _ _, Err BadAccess) (λ _, []) [] (str u); Ok (driver_class d).

Example TestUriHandler_buildDriver (regex : bool) :
  mapM (driver_built regex)
    ["file://test.raw"; "mem://4096"; "dummy://0"; "mmap://test.raw"; "mmap://test.raw?mode=w+"; "dax://test.raw"]%string =
  Ok ["FDDriver"; "MemoryDriver"; "DummyDriver"; "MmapDriver"; "MmapDriver"; "MmapDriver"]%string.
Proof. destruct regex; vm_compute; reflexivity. Qed.

(** ** TestMemoryDriver *)

(** pread and pwrite, with a driver and a buffer of sixteen bytes. *)
Definition filled (v : vm) (value : Z) : vm := write_bytes v BASE (replicate 16 value).

Example TestMemoryDriver_pread :
  (d ← newMemoryDriver 64 32; '(n, (_, v)) ← pread d no_memory BASE 16 0; Ok (n, read_bytes v BASE 16)) =
  Ok (16, replicate 16 32).
Proof. vm_compute. reflexivity. Qed.

Example TestMemoryDriver_pwrite :
  (d ← newMemoryDriver 64 32; '(n, d') ← pwrite d (filled no_memory 48) BASE 16 0; Ok (n, md_buffer d')) =
  Ok (16, replicate 16 48 ++ replicate 48 32).
Proof. vm_compute. reflexivity. Qed.

(** ** TestListings *)

Definition listing : chars := str "test-listings.txt".
Definition random_id (n : Z) : IdSource := RandomId n (n + 1) (n + 2) (n + 3).
Definition ask (n : Z) (files : TextFiles) (l : ListingMap) : result (ObjectId * ListingMap) :=
  getObjectId (random_id n) files l listing (str "test").

(** getObjectId_exist and save_restore: the second call gets the identifier of the first,
    from the same object and from the file it leaves. *)
Example TestListings_all :
  ('(id, l) ← ask 1 ∅ newListings; '(id2, l2) ← ask 10 ∅ l;
   files ← deleteListings (λ _, true) ∅ l2; '(id3, _) ← ask 20 files newListings;
   Ok [id; id2; id3]) = Ok (replicate 3 (mkObjectId (3 * 2 ^ 32 + 4) (1 * 2 ^ 32 + 2))).
Proof. vm_compute. reflexivity. Qed.

(** ** TestGlobalHandler *)

Abbreviation Handler := (GlobalHandler MockDriver AnyPolicy).
Definition new_handler (w : Process) : Handler := mkHandler [] ∅ w.
Definition map_in (group : string) (g : Handler) (mid : Z) : result Handler :=
  observe snd (ummap 1 (Some mid) g 0 (8 * PAGE) PAGE 0 RW 0 1 0 group mid (0, 0) (arrays P1 mid)).

(** The objects that are left. *)
Definition objects (g : Handler) : list Z * list Z :=
  (re_mapping <$> mappingRegistry g, (map_to_list (w_mappings (process g))).*1).

(** mmap_and_unmap and deleteAllMappings. *)
Example TestGlobalHandler_mmap_and_unmap :
  (g ← foldM (map_in "none") (new_handler new_process) [M1; M2];
   g1 ← uunmap 100 g M1 false; g2 ← deleteAllMappings 100 g;
   Ok (objects g1, objects g2)) = Ok (([M2], [M2]), ([], [])).
Proof. vm_compute. reflexivity. Qed.

(** mmap_and_policy. *)
Example TestGlobalHandler_mmap_and_policy :
  (g ← GlobalHandler.registerPolicy (new_handler (new_fifo P1 (4 * PAGE) false new_process)) "global" P1;
   g ← foldM (map_in "global") g [M1; M2]; observe objects (uunmap 100 g M1 false)) = Ok ([M2], [M2]).
Proof. vm_compute. reflexivity. Qed.

Example TestGlobalHandler_policy :
  (g ← GlobalHandler.registerPolicy (new_handler (new_fifo P1 4096 false new_process)) "test" P1;
   g' ← GlobalHandler.unregisterPolicy 100 g "test";
   mapM (λ '(g, name), GlobalHandler.getPolicy g name true) [(g, "test"); (g, "test2"); (g', "test")]%string) =
  Ok [P1; 0; 0].
Proof. vm_compute. reflexivity. Qed.
